(* ===== verification/_CoqProject ===== *)
-Q . S2P
Prelude.v
Hoare.v
BaseTypes.v
Logging.v
Future.v
Slot.v
Waiting.v
IoService.v
Process.v
Context.v
HeapFacts.v
Lifecycle.v
ContextFacts.v
LifecycleFacts.v
Destruction.v
Scheduler.v
Steps.v
Safety.v
Timers.v
Delivery.v
Operations.v
Owned.v
Coroutine.v
CoroutineFacts.v
Backpressure.v
Programs.v
Counting.v
TaskWitnesses.v
Witnesses.v
Findings.v
Buffers.v
TcpApi.v
Listening.v
TcpWitnesses.v
Socket.v
SocketFacts.v
SocketFlow.v
SocketTrace.v
SocketWitnesses.v
Www.v
WwwExample.v
WwwWitnesses.v
Servers.v
Echo.v
EndToEnd.v
NetworkWitnesses.v
