(* ===== verification/Prelude.v ===== *)
(** * Eslang: a verification library for the eslang runtime

    Eslang runs "processes", C++ coroutines that send each other messages, on one thread
    over a boost::asio io_service, with TCP sockets and an HTTP server on top. This library
    models the runtime, the sockets, the HTTP sessions and the example programs, and proves
    what makes them correct; where the code departs from what it means to do, a theorem
    shows it.

    ** The parts and how they interact

    A [Context] owns a table of running processes, a queue of items (a message for a slot,
    or a resumption), the processes about to be destroyed, and an io_service. [run] takes
    items off the queue, lets the io_service run handlers when there are none, and after
    each destroys what died. A process waits for slots, for a timer or for a promise; what
    it waits for decides how its next resumption gets queued, timed or posted. Its coroutine
    calls sub-tasks, which suspend and resume each other through their promises. A listener
    spawns a process per connection, which moves data between its socket, its owner and
    whoever sends to it; servers spawn a runner or a session per connection.

    ** Files

    The runtime ([src/eslang]):
    - [Prelude]: outcomes ([Ok], [Throw], [Halt]) of stateful computations, their monad with
      [try_catch], [on_throw] and [noexcept], effects bounded by a preorder ([within], with
      its hint database), 64-bit counters, lists and strings.
    - [Hoare]: specifications of computations that may throw or halt, and [total].
    - [BaseTypes]: BaseTypes.h/.cpp, ConcatString.h, Except.h. [Logging]: Logging.h over any
      sink, of which only the end of a fatal message matters elsewhere. [Future]: Future.h, with
      promises as a three-state signal. [Slot]: Slot.h, with queues as lists. [Waiting]:
      IWaiting.h and Waiting.h, over the interface [QueueHeap] that [HeapFacts] implements.
    - [IoService]: what asio does, as a class, its laws, and a simulated service [Sim].
    - [Process], [Context], [Lifecycle], [Scheduler]: Process.h/.cpp and Context.h/.cpp. The
      [Record]s have the members of the classes, and heaps for what those point to; each
      method is one definition of its name. [Op] lists what a process may call. A process
      body is behind the class [TaskResume], so [run] is proved for any body.
    - [ContextFacts], [LifecycleFacts], [Destruction]: the invariant [wf] of the process
      table, the effect of every operation on it, and the destruction loop.
    - [Steps], [Safety], [Timers], [Delivery], [Operations]: the run loop as a transition
      system that [run] refines, and the theorems about its reachable states, timers,
      delivery and resumption, links and addresses.
    - [Coroutine], [CoroutineFacts]: ProcessTask.h/.cpp. Bodies are interaction trees; a
      coroutine is its promise, its suspension and its locals, in a heap per process. This
      implements [TaskResume]. [Owned]: [OwnedCoroutine], on its own. [Backpressure]:
      [sendThrottled] at a full slot and at one with room.
    - [Programs], [Counting]: the processes of examples/count.cpp,
      examples/send_back_pressure.cpp and tests as bodies; [MethodCounter] for every limit.
    - [TaskWitnesses], [Witnesses], [Findings]: the theorems at concrete states, and runs that
      show defects.

    The network ([src/eslang_io], [src/eslang_www], [src/examples]):
    - [Buffers]: the buffers of Tcp.h on a heap with their reference counts.
    - [TcpApi], [Listening]: the interface of Tcp.h, [StreamBatcher], and the handler of
      [ListenerProcess] over any program that has the classes of [TcpProgram].
    - [Socket], [SocketFacts], [SocketFlow], [SocketTrace]: [TSocketProcess] of Tcp.cpp, its
      coroutine from one suspension to the next and its completion handlers, as transitions
      on one record [World]; its invariant, its data flow, its wake-ups and what its steps
      change.
    - [Www], [WwwExample]: [WwwParser] and [SessionRunner] of Www.cpp over the interface
      [Beast]; the handler of examples/www.cpp.
    - [Servers], [Echo]: the listener, [Www::Server] and the servers of examples/tcp.cpp as
      bodies of coroutines; what an echo runner does on the runtime.
    - [EndToEnd]: a connection of [Socket] and an echo runner on the runtime, as one system
      in which each handles the messages of the other.
    - [TcpWitnesses], [SocketWitnesses], [WwwWitnesses], [NetworkWitnesses]: witnesses.

    ** What the theorems show

    - Safety of the table: [wf] is an invariant of [run]; pids are fresh and dead ones stay
      dead; destruction follows links exactly and frees everything; a returned [run] leaves
      nothing; a successful timer completion finds its process alive.
    - Scheduling: a throwing process is the only one to die; a suspended process has its
      resumption arranged; messages arrive in order; [run] refines the transition system.
    - Data types: promises refine a signal, queues are FIFO lists, throttling wakes once;
      reference counts are exact, copying and combining buffers keep their bytes.
    - Backpressure: a throttled send suspends at a full slot with nothing queued, asks again
      whenever it is resumed, and queues its message once, for a slot seen with room.
    - Coroutines: suspensions reach the process, method tasks and generators resume who
      waits for them, a task that does not suspend is a call, [MethodCounter] counts.
    - Connections: one read and one write at a time, every event reaches the next
      suspension, no wake-up is lost, data is passed on and written in order.
    - Servers: accepted connections are owned by their listener, a failed accept ends it, an
      echo runner sends back what it is handed, in order; responses, chunked or not, are one
      message with the serialized bytes, and so are the answers of the example server.
    - The composition: what a client sends to the echo server comes back in order.
    - Defects (kind [error] or [bounds], and the plain theorems of [Findings]).

    ** Bounds and fuel

    A loop of the code that need not end takes fuel and halts with [OutOfFuel], which no
    theorem about results treats as a result: [run], [poll_loop] and [run_body] (a body may
    loop for ever; the programs here are run with 1000 statements per resumption, and
    theorems about bodies say how much is enough: [4 * kMax + 20], 7 per echoed message).
    Bounds that are proved enough: [destroy_loop] has a turn per entry of the table or the
    list ([kill_cascade]); [run_loop] turns at most twice between suspensions
    ([loop_fuel], [events_are_handled]); [serialize] needs the [rank] of its serializer;
    [updateProcessPromise] follows as many coroutines as there are. Counters of 64 bits wrap
    ([succ64]); freshness is stated below 2^64 allocations ([unwrapped]). Addresses are
    never reused, so a use after free is a failing lookup, [Halt (Undefined UseAfterFree)].

    ** What is assumed

    [IoServiceLaws]: a wait completes once, with success only while the service runs and
    with [operation_aborted] when cancelled, and a [poll] that ends has left nothing queued.
    [BeastLaws] and [MessagesLaws]: what the documentation of boost::beast says of parsers,
    serializers and messages. Each has an instance that is evaluated in the witnesses.
    C++ semantics: an exception out of [await_suspend] goes to the suspended coroutine,
    destructors of locals run latest first, an exception out of a destructor terminates. A
    coroutine that an exception leaves is gone, as [OwnedCoroutine::resume] takes it to be.

    ** Not modelled

    [Request::toString] and the text of log messages (output only); the [main]s, their
    options and timing (glue); opening, binding and listening of the acceptor and the TLS
    handshake (asio, of which only the completions matter here); [timedRecv], which no
    argument type fits; the steady clock, since only durations are used. [Socket]
    abstracts from the runtime: its [sendThrottled] ends when the environment says so, and
    connections and sessions are not interaction trees, since their members are shared
    with handlers, so [Servers] takes their bodies as parameters; [EndToEnd] relates the
    two. There the runner is scheduled only while [sendThrottled] need not wait
    ([Backpressure] says what it does otherwise). Of the tests, [MethodCleansUpExample]
    and backpressure.cpp are left out: they observe destructors of objects that copy
    themselves through messages and frames, of which frames here hold only slots and
    tasks. *)

From stdpp Require Export prelude gmap list strings.
From Stdlib Require Export Lia.

(** ** Machine words

    [uint64_t] counters (pid versions, resume counts) are [N] values kept
    below [2^64]; incrementing one wraps, as unsigned arithmetic does. *)

Definition u64_modulus : N := 2 ^ 64.
Definition wrap64 (n : N) : N := n `mod` u64_modulus.
Definition succ64 (n : N) : N := wrap64 (n + 1).

Lemma succ64_small (n : N) : (n + 1 < u64_modulus)%N → succ64 n = (n + 1)%N.
Proof. intros H. unfold succ64, wrap64. by apply N.mod_small. Qed.

Lemma succ64_lt (n : N) : (succ64 n < u64_modulus)%N.
Proof. unfold succ64, wrap64. by apply N.mod_lt. Qed.

(** ** Exceptions and outcomes *)

(** What a C++ [throw] carries: something derived from [std::exception],
    with its [what()] string, or anything else. The handlers of the runtime
    only catch the former. *)
Inductive exn :=
  | std_exception (what : string)
  | foreign_exception.

#[export] Instance exn_eq_dec : EqDecision exn.
Proof. solve_decision. Defined.

(** Ways a run can stop without a value or an exception. *)
Inductive undef :=
  | NullDereference
  | UseAfterFree
  | EmptyOptional
  | OutOfRange
  | NotSuspended.      (** resuming a coroutine that runs or has ended *)

Inductive halt :=
  | Undefined (u : undef)
  | Terminated          (** [std::terminate] *)
  | OutOfFuel.

(** Result of running code on a state [S]: a value, a thrown exception (with
    the state at the throw), or a halt. *)
Inductive outcome (S A : Type) :=
  | Ok (a : A) (s : S)
  | Throw (e : exn) (s : S)
  | Halt (h : halt).
Arguments Ok {S A} _ _.
Arguments Throw {S A} _ _.
Arguments Halt {S A} _.

Definition M (S A : Type) : Type := S → outcome S A.

Section monad.
Context {S : Type}.

Definition ret {A} (a : A) : M S A := λ s, Ok a s.

Definition bind {A B} (m : M S A) (k : A → M S B) : M S B := λ s,
  match m s with
  | Ok a s' => k a s'
  | Throw e s' => Throw e s'
  | Halt h => Halt h
  end.

Definition get : M S S := λ s, Ok s s.
Definition gets {A} (f : S → A) : M S A := λ s, Ok (f s) s.
Definition modify (f : S → S) : M S unit := λ s, Ok tt (f s).
Definition throw {A} (e : exn) : M S A := λ s, Throw e s.
Definition stop {A} (h : halt) : M S A := λ _, Halt h.
Definition undefined {A} (u : undef) : M S A := stop (Undefined u).

(** [try { m } catch (std::exception const& e) { handler }]. *)
Definition try_catch {A} (m : M S A) (handler : string → M S A) : M S A := λ s,
  match m s with
  | Throw (std_exception what) s' => handler what s'
  | o => o
  end.

(** Stack unwinding: when [m] throws, the destructors [cleanup] run before the
    exception goes on; an exception out of a destructor terminates. *)
Definition on_throw {A} (m : M S A) (cleanup : M S unit) : M S A := λ s,
  match m s with
  | Throw e s' =>
      match cleanup s' with
      | Ok _ s'' => Throw e s''
      | Throw _ _ => Halt Terminated
      | Halt h => Halt h
      end
  | o => o
  end.

(** A destructor is [noexcept]: an exception that leaves it terminates. *)
Definition noexcept {A} (m : M S A) : M S A := λ s,
  match m s with
  | Throw _ _ => Halt Terminated
  | o => o
  end.

Definition when (b : bool) (m : M S unit) : M S unit := if b then m else ret tt.

Fixpoint for_each {A} (f : A → M S unit) (l : list A) : M S unit :=
  match l with
  | [] => ret tt
  | x :: l' => bind (f x) (λ _, for_each f l')
  end.
End monad.

Declare Scope eslang_scope.
Delimit Scope eslang_scope with eslang.
Notation "'let!' x ':=' m 'in' k" := (bind m (λ x, k))
  (at level 10, x pattern, m at level 100, k at level 200) : eslang_scope.
Notation "m ';;;' k" := (bind m (λ _, k))
  (at level 100, k at level 200, right associativity) : eslang_scope.
Open Scope eslang_scope.

(** ** States reached by an outcome, and effects bounded by a preorder

    [m] stays [within] a preorder [R] when every state it returns or throws
    from is [R]-above the state it started in. Invariants ([I s → I s'] is a
    preorder) and monotone facts are both of this shape, so one set of
    composition lemmas serves all of them. *)

Definition final {S A} (o : outcome S A) : option S :=
  match o with
  | Ok _ s | Throw _ s => Some s
  | Halt _ => None
  end.

Definition within {S A} (R : relation S) (m : M S A) : Prop :=
  ∀ s s', final (m s) = Some s' → R s s'.

Definition preserving {S} (I : S → Prop) : relation S := λ s s', I s → I s'.

#[export] Instance preserving_preorder {S} (I : S → Prop) : PreOrder (preserving I).
Proof. split; unfold preserving; [intros ?|intros ???]; tauto. Qed.

Create HintDb within discriminated.

Section within.
Context {S : Type} (R : relation S) `{!PreOrder R}.

Lemma within_ret {A} (a : A) : within R (ret a).
Proof. intros s s' [= <-]. reflexivity. Qed.

Lemma within_get : within R get.
Proof. intros s s' [= <-]. reflexivity. Qed.

Lemma within_gets {A} (f : S → A) : within R (gets f).
Proof. intros s s' [= <-]. reflexivity. Qed.

Lemma within_throw {A} e : within R (throw (A:=A) e).
Proof. intros s s' [= <-]. reflexivity. Qed.

Lemma within_stop {A} h : within R (stop (A:=A) h).
Proof. intros s s' [=]. Qed.

Lemma within_undefined {A} u : within R (undefined (A:=A) u).
Proof. apply within_stop. Qed.

Lemma within_modify f : (∀ s, R s (f s)) → within R (modify f).
Proof. intros H s s' [= <-]. apply H. Qed.

Lemma within_bind {A B} (m : M S A) (k : A → M S B) :
  within R m → (∀ a, within R (k a)) → within R (bind m k).
Proof.
  intros Hm Hk s s' Hf. specialize (Hm s). unfold bind in Hf.
  destruct (m s) as [a s1|e s1|h]; simpl in *; [|by apply Hm|done].
  etrans; [by apply Hm|by apply (Hk a)].
Qed.

Lemma within_try_catch {A} (m : M S A) h :
  within R m → (∀ e, within R (h e)) → within R (try_catch m h).
Proof.
  intros Hm Hh s s' Hf. specialize (Hm s). unfold try_catch in Hf.
  destruct (m s) as [a s1|[w|] s1|?]; simpl in *; try by apply Hm.
  etrans; [by apply Hm|by apply (Hh w)].
Qed.

Lemma within_on_throw {A} (m : M S A) (cleanup : M S unit) :
  within R m → within R cleanup → within R (on_throw m cleanup).
Proof.
  intros Hm Hc s s' Hf. specialize (Hm s). unfold on_throw in Hf.
  destruct (m s) as [a s1|e s1|?]; simpl in *; try by apply Hm.
  specialize (Hc s1). destruct (cleanup s1) as [[] s2|e' s2|?]; simplify_eq/=.
  etrans; [by apply Hm|by apply Hc].
Qed.

Lemma within_noexcept {A} (m : M S A) : within R m → within R (noexcept m).
Proof.
  intros Hm s s'. specialize (Hm s). unfold noexcept.
  destruct (m s); simpl in *; auto; done.
Qed.

Lemma within_when b m : within R m → within R (when b m).
Proof. destruct b; [done|]. intros _. apply within_ret. Qed.

Lemma within_for_each {A} (f : A → M S unit) l :
  (∀ x, x ∈ l → within R (f x)) → within R (for_each f l).
Proof.
  induction l as [|x l IH]; intros H; simpl; [apply within_ret|].
  apply within_bind; [apply H; left|intros _; apply IH; intros; apply H; by right].
Qed.

Lemma within_mono {A} (R' : relation S) (m : M S A) :
  (∀ s s', R' s s' → R s s') → within R' m → within R m.
Proof. intros HR Hm s s' Hf. by apply HR, Hm. Qed.
End within.

(** [within_solve] takes a computation apart along its control structure and
    looks the named operations up in the [within] database. *)
Ltac within_step :=
  lazymatch goal with
  | |- within _ (bind _ _) => apply within_bind; [try typeclasses eauto| |intros ?]
  | |- within _ (ret _) => apply within_ret; try typeclasses eauto
  | |- within _ get => apply within_get; try typeclasses eauto
  | |- within _ (gets _) => apply within_gets; try typeclasses eauto
  | |- within _ (throw _) => apply within_throw; try typeclasses eauto
  | |- within _ (stop _) => apply within_stop
  | |- within _ (undefined _) => apply within_undefined
  | |- within _ (when _ _) => apply within_when; try typeclasses eauto
  | |- within _ (try_catch _ _) => apply within_try_catch; [try typeclasses eauto| |intros ?]
  | |- within _ (noexcept _) => apply within_noexcept
  | |- within _ (on_throw _ _) => apply within_on_throw; try typeclasses eauto
  | |- within _ (for_each _ _) => apply within_for_each; [try typeclasses eauto|intros ? ?]
  | |- within _ (match ?x with _ => _ end) => destruct x
  end.
Ltac within_solve :=
  repeat (intros; simpl; first [solve [auto with within nocore] | within_step]).

(** Equations of the outcomes a [bind] can have. *)
Lemma bind_Ok {S A B} (m : M S A) (k : A → M S B) s b s' :
  bind m k s = Ok b s' ↔ ∃ a s1, m s = Ok a s1 ∧ k a s1 = Ok b s'.
Proof.
  unfold bind. split; [|by intros (a & s1 & -> & ?)].
  destruct (m s) as [a s1|e s1|h]; intros H; try done. by exists a, s1.
Qed.

Lemma bind_final {S A B} (m : M S A) (k : A → M S B) s s' :
  final (bind m k s) = Some s' →
  (∃ a s1, m s = Ok a s1 ∧ final (k a s1) = Some s') ∨ (∃ e, m s = Throw e s').
Proof.
  unfold bind. destruct (m s) as [a s1|e s1|h]; simpl; intros H; [left|right|done].
  - by exists a, s1.
  - exists e. congruence.
Qed.

(** Postconditions on outcomes: [Q] of a returned value, [E] of a throw. *)
Definition post {S A} (Q : A → S → Prop) (E : exn → S → Prop) (o : outcome S A) : Prop :=
  match o with
  | Ok a s => Q a s
  | Throw e s => E e s
  | Halt _ => True
  end.

Lemma post_bind {S A B} (Q' : A → S → Prop) (Q : B → S → Prop) E (m : M S A) k s :
  post Q' E (m s) → (∀ a s', Q' a s' → post Q E (k a s')) → post Q E (bind m k s).
Proof. unfold bind. destruct (m s); simpl; auto. Qed.

Lemma post_within {S A} (R : relation S) (m : M S A) s :
  within R m → post (λ _, R s) (λ _, R s) (m s).
Proof. intros Hm. specialize (Hm s). destruct (m s); simpl in *; auto. Qed.

Lemma post_within_trans {S A} (R : relation S) `{!PreOrder R} (m : M S A) s0 s :
  R s0 s → within R m → post (λ _, R s0) (λ _, R s0) (m s).
Proof.
  intros H Hm. specialize (Hm s).
  destruct (m s); simpl in *; try done; (etrans; [exact H|by apply Hm]).
Qed.

Lemma post_mono {S A} (Q Q' : A → S → Prop) (E E' : exn → S → Prop) o :
  post Q' E' o → (∀ a s, Q' a s → Q a s) → (∀ e s, E' e s → E e s) → post Q E o.
Proof. destruct o; simpl; auto. Qed.

Lemma post_noexcept {S A} (Q : A → S → Prop) E (m : M S A) s :
  post Q E (m s) → post Q (λ _ _, False) (noexcept m s).
Proof. unfold noexcept. by destruct (m s). Qed.

Lemma post_final {S A} (Q : S → Prop) (o : outcome S A) :
  post (λ _, Q) (λ _, Q) o ↔ ∀ s, final o = Some s → Q s.
Proof. destruct o; simpl; naive_solver. Qed.

(** Run one named computation on the left of a sequence. *)
Lemma bind_run {S A B} (m : M S A) (k : A → M S B) s a s1 :
  m s = Ok a s1 → bind m k s = k a s1.
Proof. unfold bind. by intros ->. Qed.

(** ** Lists as [std::vector] and [std::deque] *)

Lemma last_snoc_inv {A} (l : list A) x : last l = Some x → ∃ l', l = l' ++ [x].
Proof.
  induction l as [|y l _] using rev_ind; [done|].
  rewrite last_snoc. intros [= ->]. by exists l.
Qed.

(** [v.pop_back()]. *)
Definition pop_back {A} (l : list A) : list A := take (length l - 1) l.

Lemma pop_back_snoc {A} (l : list A) x : pop_back (l ++ [x]) = l.
Proof.
  unfold pop_back. rewrite length_app. simpl.
  replace (length l + 1 - 1) with (length l) by lia. by rewrite take_app_length.
Qed.

(** The non-null entries of a [std::vector] of pointers. *)
Definition occupied {A} (l : list (option A)) : list A := omap id l.

Lemma occupied_clear {A} (l : list (option A)) i x :
  l !! i = Some (Some x) → length (occupied l) = S (length (occupied (<[i := None]> l))).
Proof.
  revert i. induction l as [|o l IH]; intros i Hi; [done|]. destruct i as [|i]; simplify_eq/=.
  - done.
  - unfold occupied in *. simpl. destruct o; simpl; by rewrite (IH i Hi).
Qed.

Lemma occupied_length {A} (l : list (option A)) : length (occupied l) ≤ length l.
Proof.
  unfold occupied. induction l as [|[x|] l IH]; simpl; [done|..];
    unfold omap in IH; lia.
Qed.

(** What an indexed update can add. *)
Lemma elem_of_insert_inv {A} (x y : A) (i : nat) (l : list A) : x ∈ <[i := y]> l → x = y ∨ x ∈ l.
Proof.
  intros (j & Hj)%list_elem_of_lookup. destruct (decide (i = j)) as [<-|Hne].
  - left. destruct (decide (i < length l)) as [Hl|Hl].
    + rewrite list_lookup_insert_eq in Hj by done. congruence.
    + rewrite list_insert_ge in Hj by lia. apply lookup_lt_Some in Hj. lia.
  - right. rewrite list_lookup_insert_ne in Hj by done. by eapply list_elem_of_lookup_2.
Qed.

(** ** Strings *)

Lemma string_app_cons c (s t : string) : String c s +:+ t = String c (s +:+ t).
Proof. done. Qed.

Lemma string_app_nil_r (s : string) : s +:+ "" = s.
Proof. induction s as [|c s IH]; [done|]. by rewrite string_app_cons, IH. Qed.

Lemma string_app_assoc (s t u : string) : s +:+ (t +:+ u) = (s +:+ t) +:+ u.
Proof. induction s as [|c s IH]; [done|]. by rewrite !string_app_cons, IH. Qed.
