(* ===== verification/Hoare.v ===== *)
(** * Specifications of computations

    [spec bad P m Q E]: from a state in [P], [m] ends in [Q], throws in [E], or halts for a
    reason that is not [bad]. With nothing bad this is partial correctness; a component
    lists what must not happen to it. *)

From S2P Require Import Prelude.

Definition spec {S A} (bad : halt → Prop) (P : S → Prop) (m : M S A) (Q E : S → Prop) : Prop :=
  ∀ w, P w →
    match m w with
    | Ok _ w' => Q w'
    | Throw _ w' => E w'
    | Halt h => ¬ bad h
    end.

Section rules.
Context {S : Type} (bad : halt → Prop).
Implicit Types P Q E : S → Prop.
Local Abbreviation spec := (spec (S:=S) bad).

Lemma spec_ret {A} (a : A) Q E : spec Q (ret a) Q E.
Proof. by intros w HQ. Qed.

Lemma spec_bind {A B} (m : M S A) (k : A → M S B) P R Q E :
  spec P m R E → (∀ a, spec R (k a) Q E) → spec P (bind m k) Q E.
Proof.
  intros Hm Hk w HP. specialize (Hm w HP). unfold bind. destruct (m w) as [a w'|e w'|h]; [|done..].
  by apply Hk.
Qed.

Lemma spec_pre {A} (m : M S A) P P' Q E :
  spec P' m Q E → (∀ w, P w → P' w) → spec P m Q E.
Proof. intros Hm HP w Hw. by apply Hm, HP. Qed.

Lemma spec_post {A} (m : M S A) P Q Q' E E' :
  spec P m Q' E' → (∀ w, Q' w → Q w) → (∀ w, E' w → E w) → spec P m Q E.
Proof. intros Hm HQ HE w Hw. specialize (Hm w Hw). destruct (m w); auto. Qed.

Lemma spec_modify f P Q E : (∀ w, P w → Q (f w)) → spec P (modify f) Q E.
Proof. intros H w Hw. by apply H. Qed.

Lemma spec_stop {A} h P Q E : ¬ bad h → spec P (stop (A:=A) h) Q E.
Proof. by intros Hh w _. Qed.

Lemma spec_throw {A} e P Q E : (∀ w, P w → E w) → spec P (throw (A:=A) e) Q E.
Proof. intros H w Hw. by apply H. Qed.

Lemma spec_get {A} (k : S → M S A) P Q E :
  (∀ w, P w → spec (λ w', w' = w) (k w) Q E) → spec P (bind get k) Q E.
Proof. intros H w Hw. by apply (H w Hw w). Qed.

Lemma spec_try_catch {A} (m : M S A) (h : string → M S A) P Q E :
  spec P m Q E → (∀ x, spec E (h x) Q E) → spec P (try_catch m h) Q E.
Proof.
  intros Hm Hh w HP. specialize (Hm w HP). unfold try_catch.
  destruct (m w) as [a w'|[x|] w'|?]; try done. by apply Hh.
Qed.

Lemma spec_on_throw {A} (m : M S A) c P Q E :
  ¬ bad Terminated → spec P m Q E → spec E c E E → spec P (on_throw m c) Q E.
Proof.
  intros Hbad Hm Hc w HP. specialize (Hm w HP). unfold on_throw.
  destruct (m w) as [a w'|e w'|?]; try done. specialize (Hc w' Hm). by destruct (c w').
Qed.

Lemma spec_for_each {A} (f : A → M S unit) l P :
  (∀ x, spec P (f x) P P) → spec P (for_each f l) P P.
Proof.
  intros Hf. induction l as [|x l IH]; simpl; [apply spec_ret|].
  eapply spec_bind; [apply Hf|by intros []].
Qed.

(** Nothing bad happens, and no exception. *)
Definition total {A} (m : M S A) : Prop := ∀ P, spec (λ _, True) m (λ _, True) P.

Lemma total_bind {A B} (m : M S A) (k : A → M S B) :
  total m → (∀ a, total (k a)) → total (bind m k).
Proof. intros Hm Hk P. eapply spec_bind; [apply Hm|intros a; apply Hk]. Qed.
Lemma total_ret {A} (a : A) : total (ret a).
Proof. by intros P w _. Qed.
Lemma total_stop {A} h : ¬ bad h → total (stop (A:=A) h).
Proof. intros Hh P. by apply spec_stop. Qed.
Lemma total_modify (f : S → S) : total (modify f).
Proof. by intros P w _. Qed.
End rules.

Create HintDb total discriminated.
#[export] Hint Resolve total_ret total_modify : total.
Ltac total_solve :=
  repeat (intros; first [solve [auto with total nocore]
    | apply total_bind
    | match goal with |- total _ (if ?b then _ else _) => destruct b end]).
