(* ===== verification/BaseTypes.v ===== *)
(** * Basic types: strings, exceptions, pids, addresses, messages

    Models [eslang/ConcatString.h], [eslang/Except.h] and
    [eslang/BaseTypes.h]/[.cpp]. Numbers printed through an [ostream] come out
    in decimal, which is stdpp's [pretty]. Pointers are [positive] names that
    are never reused, so a dangling pointer is one whose object is gone. *)

From stdpp Require Export pretty.
From S2P Require Import Prelude.

Abbreviation Ptr := positive.

(** ** [concatString] *)

Fixpoint doAppendStrings (ss : string) (args : list string) : string :=
  match args with
  | [] => ss
  | t :: args' => doAppendStrings (ss +:+ t) args'
  end.

Definition concatString (args : list string) : string := doAppendStrings "" args.

(** ** [EslangException] and the throwing macros *)

Definition EslangException (message : string) : exn := std_exception message.

Definition ESLANGEXCEPT {S A} (args : list string) : M S A :=
  throw (EslangException (concatString args)).

Definition ESLANGREQUIRE {S} (b : bool) (args : list string) : M S unit :=
  if negb b then throw (EslangException (concatString args)) else ret tt.

(** ** [Pid] *)

Record Pid := mkPid { idx_ : N; version_ : N }.

#[export] Instance Pid_eq_dec : EqDecision Pid.
Proof. solve_decision. Defined.

(** [Pid::operator==]. *)
Definition pid_eqb (lhs rhs : Pid) : bool :=
  N.eqb (idx_ lhs) (idx_ rhs) && N.eqb (version_ lhs) (version_ rhs).

Definition toString (p : Pid) : string :=
  concatString [pretty (idx_ p); pretty (version_ p)].

(** [std::hash<Pid>], over the library's hash [h] of a [uint64_t]. *)
Definition hash_pid (h : N → N) (p : Pid) : N := h (idx_ p).

(** ** Addresses and messages *)

Definition SlotId : Type := Ptr.

Record SendAddress := mkSendAddress { sa_pid : Pid; sa_slot : SlotId }.

#[export] Instance SendAddress_eq_dec : EqDecision SendAddress.
Proof. unfold SlotId in *. solve_decision. Defined.

(** [Message<T>]: a moved-around box holding the value it was made with. *)
Record Message (T : Type) := mkMessage { val : T }.
Arguments mkMessage {T} _.
Arguments val {T} _.

(** ** Facts *)

Lemma doAppendStrings_app (args : list string) ss :
  doAppendStrings ss args = ss +:+ concatString args.
Proof.
  unfold concatString. revert ss.
  induction args as [|t args IH]; intros ss; simpl; [by rewrite string_app_nil_r|].
  rewrite IH, (IH ("" +:+ t)). by rewrite <- string_app_assoc.
Qed.

Lemma concatString_cons t args : concatString (t :: args) = t +:+ concatString args.
Proof. unfold concatString at 1. simpl. apply doAppendStrings_app. Qed.

Lemma concatString_app args1 args2 :
  concatString (args1 ++ args2) = concatString args1 +:+ concatString args2.
Proof.
  induction args1 as [|t args1 IH]; [done|]. rewrite <- app_comm_cons.
  rewrite !concatString_cons, IH. by rewrite string_app_assoc.
Qed.

Lemma pid_eqb_eq p q : pid_eqb p q = true ↔ p = q.
Proof.
  destruct p as [i v], q as [j w]. unfold pid_eqb. simpl.
  rewrite andb_true_iff, !N.eqb_eq.
  split; [by intros [-> ->]|by intros [= -> ->]].
Qed.

Lemma toString_unfold p : toString p = pretty (idx_ p) +:+ pretty (version_ p).
Proof. unfold toString. by rewrite !concatString_cons, string_app_nil_r. Qed.
