(* ===== verification/Logging.v ===== *)
(** * Logging

    [eslang/Logging.h]: the levels, and [ESLOG], which is a function of the sink of
    boost::log. Everywhere else in the library the sink is [discard] and a message that does
    not terminate the program is left out: what is logged is not observed. *)

From S2P Require Import Prelude.
From S2P Require Import BaseTypes.

Inductive LL := INFO | WARNING | ERR | V | DEBUG | TRACE | FATAL.

#[export] Instance LL_eq_dec : EqDecision LL.
Proof. solve_decision. Defined.

(** [boost::log::trivial::severity_level], as far as the macro names it. *)
Inductive severity_level := trivial_trace | trivial_debug | trivial_info | trivial_warning | trivial_error.

#[export] Instance severity_level_eq_dec : EqDecision severity_level.
Proof. solve_decision. Defined.

(** The severity a level is logged with. *)
Definition severity (level : LL) : severity_level :=
  match level with
  | INFO => trivial_info
  | WARNING => trivial_warning
  | V => trivial_debug
  | DEBUG => trivial_debug
  | TRACE => trivial_trace
  | ERR => trivial_error
  | FATAL => trivial_info
  end.

Section eslog.
Context {S : Type} (BOOST_LOG_TRIVIAL : severity_level → string → M S unit).

Definition ESLOG (level : LL) (args : list string) : M S unit :=
  BOOST_LOG_TRIVIAL (severity level) (concatString args) ;;;
  match level with
  | FATAL => stop Terminated
  | _ => ret tt
  end.
End eslog.

(** Output is not part of any state here. *)
Definition discard {S} (l : severity_level) (message : string) : M S unit := ret tt.

(** A message is logged once, and the program goes on unless it is fatal: then it was
    logged, as no more than information, and the program terminates. *)
Lemma ESLOG_discard {S} level args (s : S) :
  ESLOG discard level args s = if bool_decide (level = FATAL) then Halt Terminated else Ok tt s.
Proof. by destruct level. Qed.

(** Logging into a list: what a sink that keeps everything has seen. *)
Definition journal (l : severity_level) (message : string) : M (list (severity_level * string)) unit :=
  modify (λ log, log ++ [(l, message)]).

Lemma ESLOG_journal level args log :
  level ≠ FATAL → ESLOG journal level args log = Ok tt (log ++ [(severity level, concatString args)]).
Proof. by destruct level. Qed.

Lemma within_ESLOG {S} (R : relation S) `{!PreOrder R} level args : within R (ESLOG discard level args).
Proof. unfold ESLOG, discard. destruct level; within_solve. Qed.
#[export] Hint Extern 1 (within _ (ESLOG _ _ _)) => apply within_ESLOG; apply _ : within.
