(* ===== verification/Future.v ===== *)
(** * [EslangPromise] and [ExceptionWrapper]

    Models [eslang/Future.h]. A promise is a resettable one-shot signal: it
    holds a flag, at most one continuation with the executor to post it on,
    and possibly an exception. The executor type [E] and the type [F] of
    continuations ([std::function<void()>]) are parameters; an operation that
    posts returns what it posts, for its caller to hand to the executor. *)

From S2P Require Import Prelude.
From S2P Require Import BaseTypes.

(** ** [ExceptionWrapper] *)

(** [PtrImpl] around an [exception_ptr] (which may be null) or the local class
    [I] around a thrown-by-value exception. *)
Inductive ExceptionWrapper :=
  | PtrImpl (ptr : option exn)
  | ValueImpl (e : exn).

#[export] Instance ExceptionWrapper_eq_dec : EqDecision ExceptionWrapper.
Proof. solve_decision. Defined.

Definition makeFromCurrentException (current : option exn) : ExceptionWrapper :=
  PtrImpl current.

Definition make (ex : exn) : ExceptionWrapper := ValueImpl ex.

(** [maybeThrowException]: the exception it throws, if it does. *)
Definition maybeThrowException (w : ExceptionWrapper) : option exn :=
  match w with
  | PtrImpl ptr => ptr
  | ValueImpl e => Some e
  end.

(** ** [EslangPromise] *)

Record EslangPromise (E F : Type) := mkPromise {
  exec_ : option (E * F);
  set_ : bool;
  exception_ : option ExceptionWrapper;
}.
Arguments mkPromise {E F} _ _ _.
Arguments exec_ {E F} _.
Arguments set_ {E F} _.
Arguments exception_ {E F} _.

Section promise.
Context {E F : Type}.
Implicit Types p : EslangPromise E F.

Definition new_promise : EslangPromise E F := mkPromise None false None.

(** Move construction and move assignment take the three fields over. *)
Definition move_construct (rhs : EslangPromise E F) : EslangPromise E F :=
  mkPromise (exec_ rhs) (set_ rhs) (exception_ rhs).
Definition move_assign (lhs rhs : EslangPromise E F) : EslangPromise E F :=
  mkPromise (exec_ rhs) (set_ rhs) (exception_ rhs).

Definition set p : EslangPromise E F * list (E * F) :=
  match exec_ p with
  | Some ef => (mkPromise None true (exception_ p), [ef])
  | None => (mkPromise None true (exception_ p), [])
  end.

Definition setIfUnset p : EslangPromise E F * list (E * F) :=
  if negb (set_ p) then set p else (p, []).

(** [process] consumes the signal. When it throws, the fields are as they
    were: nothing is reset before the throw. *)
Definition process p : EslangPromise E F + exn :=
  match exception_ p with
  | Some w =>
      match maybeThrowException w with
      | Some e => inr e
      | None => inl (mkPromise (if set_ p then None else exec_ p) false None)
      end
  | None => inl (mkPromise (if set_ p then None else exec_ p) false None)
  end.

Definition setException (e : exn) p : EslangPromise E F * list (E * F) :=
  setIfUnset
    (match exception_ p with
     | None => mkPromise (exec_ p) (set_ p) (Some (make e))
     | Some _ => p
     end).

Definition isReady p : bool := set_ p.

Definition setContinuation (io_service : E) (func : F) p
    : EslangPromise E F * list (E * F) :=
  let p' := mkPromise (Some (io_service, func)) (set_ p) (exception_ p) in
  if set_ p then set p' else (p', []).
End promise.

(** ** Abstract view

    A promise is idle, armed with one continuation, or signalled. *)

Inductive signal (E F : Type) :=
  | Idle
  | Armed (io_service : E) (func : F)
  | Signalled.
Arguments Idle {E F}.
Arguments Armed {E F} _ _.
Arguments Signalled {E F}.

(** No promise is both signalled and armed. *)
Definition promise_wf {E F} (p : EslangPromise E F) : Prop :=
  set_ p = true → exec_ p = None.

(** The exception a promise would throw when processed. *)
Definition pending {E F} (p : EslangPromise E F) : option exn :=
  exception_ p ≫= maybeThrowException.

Definition view {E F} (p : EslangPromise E F) : signal E F :=
  if set_ p then Signalled
  else match exec_ p with Some (e, f) => Armed e f | None => Idle end.

(** The signal automaton a promise implements. *)
Definition fire {E F} (v : signal E F) : signal E F * list (E * F) :=
  match v with
  | Armed e f => (Signalled, [(e, f)])
  | _ => (Signalled, [])
  end.

Definition arm {E F} (e : E) (f : F) (v : signal E F) : signal E F * list (E * F) :=
  match v with
  | Signalled => (Signalled, [(e, f)])
  | _ => (Armed e f, [])
  end.

Definition consume {E F} (v : signal E F) : signal E F :=
  match v with
  | Signalled => Idle
  | v => v
  end.

Section facts.
Context {E F : Type}.
Implicit Types p : EslangPromise E F.

Lemma new_promise_wf : promise_wf (new_promise (E:=E) (F:=F)).
Proof. done. Qed.

Lemma set_wf p : promise_wf (set p).1.
Proof. unfold set. by destruct (exec_ p). Qed.

Lemma setIfUnset_wf p : promise_wf p → promise_wf (setIfUnset p).1.
Proof. unfold setIfUnset. destruct (set_ p); simpl; [done|]. intros _. apply set_wf. Qed.

Lemma setException_wf e p : promise_wf p → promise_wf (setException e p).1.
Proof. intros H. apply setIfUnset_wf. by destruct (exception_ p). Qed.

Lemma setContinuation_wf e f p : promise_wf (setContinuation e f p).1.
Proof.
  unfold setContinuation, promise_wf. destruct (set_ p) eqn:H; [|done].
  apply set_wf.
Qed.

Lemma process_wf p p' : process p = inl p' → promise_wf p'.
Proof.
  unfold process, promise_wf. intros H.
  destruct (exception_ p) as [w|]; [destruct (maybeThrowException w)|]; by simplify_eq/=.
Qed.

Lemma setIfUnset_view p :
  promise_wf p →
  (view (setIfUnset p).1, (setIfUnset p).2) = fire (view p).
Proof.
  unfold promise_wf, view, setIfUnset, set. intros H.
  destruct (set_ p) eqn:Hs; simpl; [by rewrite Hs|].
  by destruct (exec_ p) as [[e f]|].
Qed.

Lemma setContinuation_view e f p :
  (view (setContinuation e f p).1, (setContinuation e f p).2) = arm e f (view p).
Proof.
  unfold view, setContinuation, set. destruct (set_ p) eqn:Hs; simpl; [done|].
  by destruct (exec_ p) as [[??]|].
Qed.

Lemma process_view p p' : process p = inl p' → view p' = consume (view p).
Proof.
  unfold process, view. intros H.
  destruct (exception_ p) as [w|]; [destruct (maybeThrowException w)|];
    simplify_eq/=; destruct (set_ p); simpl; try done;
    by destruct (exec_ p) as [[??]|].
Qed.
End facts.

Create HintDb promise discriminated.
#[export] Hint Resolve new_promise_wf set_wf setIfUnset_wf setException_wf
  setContinuation_wf process_wf : promise.

(** ** Operation sequences: the promise implements the automaton *)

Inductive promise_op (E F : Type) :=
  | OpSetIfUnset
  | OpProcess
  | OpSetException (e : exn)
  | OpSetContinuation (io_service : E) (func : F).
Arguments OpSetIfUnset {E F}.
Arguments OpProcess {E F}.
Arguments OpSetException {E F} _.
Arguments OpSetContinuation {E F} _ _.

(** What the owner of a promise observes of an operation. *)
Inductive promise_event (E F : Type) :=
  | Posted (ef : E * F)
  | Thrown (e : exn).
Arguments Posted {E F} _.
Arguments Thrown {E F} _.

Section refinement.
Context {E F : Type}.

Definition apply_op (o : promise_op E F) (p : EslangPromise E F)
    : EslangPromise E F * list (promise_event E F) :=
  match o with
  | OpSetIfUnset => let '(p', l) := setIfUnset p in (p', Posted <$> l)
  | OpProcess =>
      match process p with inl p' => (p', []) | inr e => (p, [Thrown e]) end
  | OpSetException e => let '(p', l) := setException e p in (p', Posted <$> l)
  | OpSetContinuation e f => let '(p', l) := setContinuation e f p in (p', Posted <$> l)
  end.

Fixpoint apply_ops (os : list (promise_op E F)) (p : EslangPromise E F)
    : list (promise_event E F) :=
  match os with
  | [] => []
  | o :: os' => let '(p', l) := apply_op o p in l ++ apply_ops os' p'
  end.

(** The specification: the signal automaton with the first exception stored
    since the start; a stored exception is thrown by every [process]. *)
Definition spec_op (o : promise_op E F) (v : signal E F) (x : option exn)
    : signal E F * option exn * list (promise_event E F) :=
  match o with
  | OpSetIfUnset => let '(v', l) := fire v in (v', x, Posted <$> l)
  | OpProcess =>
      match x with Some e => (v, x, [Thrown e]) | None => (consume v, x, []) end
  | OpSetException e =>
      let '(v', l) := fire v in
      (v', match x with Some _ => x | None => Some e end, Posted <$> l)
  | OpSetContinuation e f => let '(v', l) := arm e f v in (v', x, Posted <$> l)
  end.

Fixpoint spec_ops (os : list (promise_op E F)) (v : signal E F) (x : option exn)
    : list (promise_event E F) :=
  match os with
  | [] => []
  | o :: os' => let '(v', x', l) := spec_op o v x in l ++ spec_ops os' v' x'
  end.

(** Stored exceptions come from [setException], so they throw. *)
Definition promise_ok (p : EslangPromise E F) : Prop :=
  promise_wf p ∧ (exception_ p = None ∨ is_Some (pending p)).

Lemma apply_op_sim o p :
  promise_ok p →
  promise_ok (apply_op o p).1 ∧
  spec_op o (view p) (pending p) =
    (view (apply_op o p).1, pending (apply_op o p).1, (apply_op o p).2).
Proof.
  unfold promise_ok, promise_wf, pending. destruct p as [ex st xc]. simpl.
  intros [Hwf Hx].
  destruct o, st, ex as [[??]|], xc as [[[?|]|?]|];
    try (by destruct Hx as [?|[??]]); try (by specialize (Hwf eq_refl));
    simpl; (split; [split; [done|eauto]|done]).
Qed.

Lemma apply_ops_sim os p :
  promise_ok p → apply_ops os p = spec_ops os (view p) (pending p).
Proof.
  revert p. induction os as [|o os IH]; intros p Hp; [done|]. simpl.
  destruct (apply_op_sim o p Hp) as [Hp' ->].
  destruct (apply_op o p) as [p' l]. simpl in *. by rewrite IH.
Qed.

Lemma new_promise_ok : promise_ok new_promise.
Proof. split; [done|by left]. Qed.

(** Continuations posted by a run of the automaton. *)
Definition posted (evs : list (promise_event E F)) : list (E * F) :=
  omap (λ ev, match ev with Posted ef => Some ef | Thrown _ => None end) evs.

Definition installed (os : list (promise_op E F)) : list (E * F) :=
  omap (λ o, match o with OpSetContinuation e f => Some (e, f) | _ => None end) os.

Definition armed (v : signal E F) : list (E * F) :=
  match v with Armed e f => [(e, f)] | _ => [] end.

Lemma posted_app l1 l2 : posted (l1 ++ l2) = posted l1 ++ posted l2.
Proof. apply omap_app. Qed.

Lemma spec_ops_posted os v x :
  posted (spec_ops os v x) `sublist_of` armed v ++ installed os.
Proof.
  revert v x. induction os as [|o os IH]; intros v x; simpl.
  { apply sublist_nil_l. }
  destruct o as [| |e|e f]; destruct v as [|e' f'|]; try destruct x; simpl;
    rewrite ?posted_app; simpl; try apply sublist_skip;
    try (apply (IH Signalled)); try (apply (IH Idle)); try (apply (IH (Armed _ _)));
    apply sublist_cons; apply (IH (Armed _ _)).
Qed.
End refinement.

(** ** Properties *)

(** C12: every sequence of [setIfUnset], [process], [setException] and
    [setContinuation] calls on a fresh promise posts and throws exactly what the
    three-state signal automaton does: a set fires the armed continuation at
    once, a continuation installed on a signalled promise is posted at once, and
    a stored exception is thrown by each later [process]. *)
Theorem promise_implements_signal {E F} (os : list (promise_op E F)) :
  apply_ops os new_promise = spec_ops os Idle None.
Proof. apply (apply_ops_sim os new_promise), new_promise_ok. Qed.

(** The continuations a promise ever posts are a sub-sequence of those
    installed with [setContinuation], in the same order: none is posted twice,
    out of order, or without having been installed. *)
Theorem promise_posts_at_most_once {E F} (os : list (promise_op E F)) :
  posted (apply_ops os new_promise) `sublist_of` installed os.
Proof. rewrite (apply_ops_sim os new_promise new_promise_ok). apply (spec_ops_posted os Idle). Qed.
