(* ===== verification/Slot.v ===== *)
(** * Slots and their message queues

    Models [eslang/Slot.h]/[.cpp]: the queue that keeps its first message out
    of line, its throttling promise, and the slot that owns it. The executor
    type [E] and continuation type [F] are those of the promise. *)

From S2P Require Import Prelude.
From S2P Require Import BaseTypes.
From S2P Require Import Future.

(** ** [MessageQueue] *)

Record MessageQueue (E F T : Type) := mkQueue {
  stackStorage : option (Message T);
  others : list (Message T);
  p_ : EslangPromise E F;
}.
Arguments mkQueue {E F T} _ _ _.
Arguments stackStorage {E F T} _.
Arguments others {E F T} _.
Arguments p_ {E F T} _.

Definition kThrottle : nat := 10.

Section queue.
Context {E F T : Type}.
Implicit Types q : MessageQueue E F T.

Definition new_queue : MessageQueue E F T := mkQueue None [] new_promise.

Definition size q : nat :=
  match stackStorage q with
  | Some _ => 1 + length (others q)
  | None => 0
  end.

Definition empty q : bool := bool_decide (size q = 0).

Definition push (t : Message T) q : MessageQueue E F T :=
  match stackStorage q with
  | Some _ => mkQueue (stackStorage q) (others q ++ [t]) (p_ q)
  | None => mkQueue (Some t) (others q) (p_ q)
  end.

Definition shouldThrottle q : bool := bool_decide (kThrottle ≤ size q).

(** [pop] dereferences [stackStorage], so [None] is undefined behaviour. The
    last component is what the promise posts. *)
Definition pop q : option (Message T * MessageQueue E F T * list (E * F)) :=
  match stackStorage q with
  | None => None
  | Some ret =>
      let q1 := match others q with
                | [] => mkQueue None [] (p_ q)
                | m :: rest => mkQueue (Some m) rest (p_ q)
                end in
      if bool_decide (size q1 = kThrottle - 1) then
        let '(p', l) := setIfUnset (p_ q1) in
        Some (ret, mkQueue (stackStorage q1) (others q1) p', l)
      else Some (ret, q1, [])
  end.

(** [~MessageQueue]: what the dying promise posts. *)
Definition destroy_queue q : list (E * F) := (setIfUnset (p_ q)).2.
End queue.

(** ** [Slot] *)

(** [parent_->pid()] is all a slot reads from its parent. *)
Record Slot (E F T : Type) := mkSlot {
  parent_pid : Pid;
  id_ : SlotId;
  messages_ : MessageQueue E F T;
}.
Arguments mkSlot {E F T} _ _ _.
Arguments parent_pid {E F T} _.
Arguments id_ {E F T} _.
Arguments messages_ {E F T} _.

Section slot.
Context {E F T : Type}.

(** [Slot(Process* p)]: the id is the slot's own address ([getSlotId]). *)
Definition new_slot (parent : Pid) (self : Ptr) : Slot E F T :=
  mkSlot parent self new_queue.

Definition address (s : Slot E F T) : SendAddress :=
  mkSendAddress (parent_pid s) (id_ s).

Definition push_slot (m : Message T) (s : Slot E F T) : Slot E F T :=
  mkSlot (parent_pid s) (id_ s) (push m (messages_ s)).

Definition with_queue (q : MessageQueue E F T) (s : Slot E F T) : Slot E F T :=
  mkSlot (parent_pid s) (id_ s) q.
End slot.

(** ** Abstract view: a FIFO list *)

(** The overflow deque is only used behind a full first place. *)
Definition tidy {E F T} (q : MessageQueue E F T) : Prop := stackStorage q = None → others q = [].
Definition queue_wf {E F T} (q : MessageQueue E F T) : Prop := tidy q ∧ promise_wf (p_ q).

Definition contents {E F T} (q : MessageQueue E F T) : list (Message T) :=
  match stackStorage q with
  | Some m => m :: others q
  | None => []
  end.

Section facts.
Context {E F T : Type}.
Implicit Types q : MessageQueue E F T.

Lemma new_queue_wf : queue_wf (new_queue (E:=E) (F:=F) (T:=T)).
Proof. by split. Qed.

Lemma size_contents q : size q = length (contents q).
Proof. unfold size, contents. by destruct (stackStorage q). Qed.

Lemma empty_contents q : empty q = true ↔ contents q = [].
Proof.
  unfold empty. rewrite bool_decide_eq_true, size_contents. apply length_zero_iff_nil.
Qed.

Lemma push_wf m q : queue_wf q → queue_wf (push m q).
Proof. intros [H1 H2]. unfold push. by destruct (stackStorage q). Qed.

Lemma push_contents m q : tidy q → contents (push m q) = contents q ++ [m].
Proof.
  intros H. unfold tidy in H. unfold push, contents.
  destruct (stackStorage q) as [m0|]; simpl; [done|]. by rewrite H.
Qed.

(** The promise is touched only when the queue drops to nine messages. *)
Definition pop_signal (n : nat) (p : EslangPromise E F) :
    EslangPromise E F * list (E * F) :=
  if bool_decide (n = kThrottle) then setIfUnset p else (p, []).

(** A pop takes the head, whatever the promise does. *)
Lemma pop_head q m ms :
  contents q = m :: ms → ∃ q' l, pop q = Some (m, q', l) ∧ contents q' = ms ∧ tidy q'.
Proof.
  destruct q as [[m0|] os p]; [|done]. unfold contents, pop. simpl. intros [= -> ->].
  destruct (setIfUnset p) as [p' l], ms as [|m1 ms]; simpl;
    repeat case_match; by eexists _, _.
Qed.

Lemma pop_contents q m ms :
  queue_wf q → contents q = m :: ms →
  ∃ q', pop q = Some (m, q', (pop_signal (size q) (p_ q)).2) ∧
        queue_wf q' ∧ contents q' = ms ∧
        p_ q' = (pop_signal (size q) (p_ q)).1.
Proof.
  destruct q as [st os p]. unfold contents, queue_wf, tidy. simpl.
  intros [Hst Hp] Hc. destruct st as [m0|]; simplify_eq/=.
  unfold pop, pop_signal, size. simpl.
  assert (Hp' : promise_wf (setIfUnset p).1) by auto with promise.
  destruct ms as [|m' ms]; simpl.
  - by eexists.
  - rewrite (bool_decide_ext _ (S (S (length ms)) = kThrottle)) by (unfold kThrottle; lia).
    case_bool_decide; [destruct (setIfUnset p)|]; simpl in *; by eexists.
Qed.

Lemma pop_empty q : pop q = None ↔ contents q = [].
Proof.
  unfold pop, contents. destruct (stackStorage q); [|done].
  destruct (bool_decide _); [destruct (setIfUnset _)|]; done.
Qed.
End facts.

#[export] Hint Resolve new_queue_wf push_wf : promise.

(** Popping [n] messages in a row, collecting what they post. *)
Fixpoint pops {E F T} (n : nat) (q : MessageQueue E F T)
    : option (list (Message T) * MessageQueue E F T * list (E * F)) :=
  match n with
  | 0 => Some ([], q, [])
  | S n' =>
      match pop q with
      | None => None
      | Some (m, q1, l1) =>
          match pops n' q1 with
          | None => None
          | Some (ms, q2, l2) => Some (m :: ms, q2, l1 ++ l2)
          end
      end
  end.

(** Operations of a queue's users, in any interleaving. *)
Inductive queue_op (T : Type) :=
  | OpPush (m : Message T)
  | OpPop.
Arguments OpPush {T} _.
Arguments OpPop {T}.

Section refinement.
Context {E F T : Type}.
Implicit Types q : MessageQueue E F T.

(** A run returns the popped messages, or [None] when it popped an empty
    queue. *)
Fixpoint run_ops (os : list (queue_op T)) q : option (list (Message T)) :=
  match os with
  | [] => Some []
  | OpPush m :: os' => run_ops os' (push m q)
  | OpPop :: os' =>
      match pop q with
      | None => None
      | Some (m, q', _) => (cons m) <$> run_ops os' q'
      end
  end.

Fixpoint fifo_ops (os : list (queue_op T)) (l : list (Message T)) : option (list (Message T)) :=
  match os with
  | [] => Some []
  | OpPush m :: os' => fifo_ops os' (l ++ [m])
  | OpPop :: os' =>
      match l with
      | [] => None
      | m :: l' => (cons m) <$> fifo_ops os' l'
      end
  end.

Lemma run_ops_fifo os q : queue_wf q → run_ops os q = fifo_ops os (contents q).
Proof.
  revert q. induction os as [|[m|] os IH]; intros q Hq; simpl; [done| |].
  - rewrite IH by auto with promise. by rewrite push_contents by apply Hq.
  - destruct (contents q) as [|m ms] eqn:Hc.
    + by rewrite (proj2 (pop_empty q) Hc).
    + destruct (pop_contents q m ms Hq Hc) as (q' & -> & Hq' & Hc' & _).
      by rewrite IH, Hc'.
Qed.

(** Popping [n] of [s] messages crosses the threshold downwards. *)
Definition crosses (s n : nat) : bool :=
  bool_decide (kThrottle ≤ s ∧ s < n + kThrottle).

Lemma pop_signal_view n (p : EslangPromise E F) :
  promise_wf p →
  (pop_signal n p).2 = (if bool_decide (n = kThrottle) then (fire (view p)).2 else []) ∧
  (n ≠ kThrottle → (pop_signal n p).1 = p).
Proof.
  intros Hp. unfold pop_signal. case_bool_decide; [|done].
  pose proof (setIfUnset_view p Hp) as Hv.
  split; [|done]. by rewrite <- Hv.
Qed.

Lemma pops_drain n q :
  queue_wf q → n ≤ size q →
  ∃ q', pops n q = Some (take n (contents q), q',
                          if crosses (size q) n then (fire (view (p_ q))).2 else []) ∧
        queue_wf q' ∧ contents q' = drop n (contents q).
Proof.
  revert q. induction n as [|n IH]; intros q Hq Hn.
  { exists q. simpl. rewrite take_0, drop_0. split; [|done].
    unfold crosses. rewrite bool_decide_eq_false_2; [done|lia]. }
  rewrite size_contents in Hn.
  destruct (contents q) as [|m ms] eqn:Hc; simpl in Hn; [lia|].
  destruct (pop_contents q m ms Hq Hc) as (q1 & Hpop & Hq1 & Hc1 & Hp1).
  assert (Hs1 : size q = S (size q1)) by (by rewrite !size_contents, Hc, Hc1).
  destruct (IH q1 Hq1) as (q2 & Hpops & Hq2 & Hc2);
    [by rewrite size_contents, Hc1; lia|].
  exists q2. simpl. rewrite Hpop, Hpops, Hc1, Hc2, Hc1. split; [|done].
  do 2 f_equal. destruct (pop_signal_view (size q) (p_ q)) as [-> Hsame]; [apply Hq|].
  rewrite Hp1, Hs1. unfold crosses in *. rewrite Hs1 in Hsame.
  repeat case_bool_decide; try lia; rewrite ?app_nil_r; try done.
  rewrite Hsame; [done|lia].
Qed.
End refinement.

(** ** Properties *)

(** C13: the two-part queue is a FIFO list: for every interleaving of pushes and
    pops, the popped messages are those of a list popped at its head and pushed
    at its tail, and the runs that pop an empty queue are the same. *)
Theorem queue_is_fifo {E F T} (os : list (queue_op T)) :
  run_ops os (new_queue (E:=E) (F:=F)) = fifo_ops os [].
Proof. apply (run_ops_fifo os new_queue), new_queue_wf. Qed.

(** C14: backpressure wakes up: with a continuation armed on the throttle promise
    of a queue that [shouldThrottle], popping enough messages to get below the
    threshold posts that continuation exactly once, and popping fewer posts
    nothing. *)
Theorem throttle_wakes_once {E F T} (q : MessageQueue E F T) e f n
    (Hwf : queue_wf q) (Hthrottle : shouldThrottle q = true)
    (Harmed : view (p_ q) = Armed e f) (Hn : n ≤ size q) :
  ∃ q', pops n q = Some (take n (contents q), q',
                          if bool_decide (size q - n < kThrottle) then [(e, f)] else []).
Proof.
  destruct (pops_drain n q Hwf Hn) as (q' & Hpops & _).
  exists q'. rewrite Hpops, Harmed. apply bool_decide_eq_true in Hthrottle.
  unfold crosses. do 2 f_equal. repeat case_bool_decide; try done; lia.
Qed.

Lemma throttle_wakes_once_witness :
  ∃ q', pops 3 (mkQueue (Some (mkMessage 0)) (mkMessage <$> seq 1 11)
                        (mkPromise (Some (tt, 7)) false None))
        = Some (mkMessage <$> [0; 1; 2], q', [(tt, 7)]).
Proof.
  destruct (throttle_wakes_once
    (mkQueue (Some (mkMessage 0)) (mkMessage <$> seq 1 11)
             (mkPromise (Some (tt, 7)) false None)) tt 7 3) as [q' Hq'].
  - by split.
  - reflexivity.
  - reflexivity.
  - vm_compute. lia.
  - exists q'. exact Hq'.
Defined.
