(* ===== verification/Waiting.v ===== *)
(** * What a suspended coroutine waits for

    Models [eslang/IWaiting.h] and [eslang/Waiting.h]: the [IWaiting] virtual
    methods as functions over the class hierarchy, and the awaiter protocol
    ([await_ready]/[await_resume]) of the classes. An object that derives from
    another is a constructor over it, so an overridden method is a case and an
    inherited one recurses. Awaiters read and pop message queues; the heap those
    live in is an interface here, implemented by the context. *)

From S2P Require Import Prelude.
From S2P Require Import BaseTypes.

(** An [EslangPromise*]: the throttle promise inside the queue of a slot, or a
    promise that is a member of some process. *)
Inductive PromiseRef :=
  | ThrottleOf (s : SlotId)
  | MemberPromise (p : Ptr).

#[export] Instance PromiseRef_eq_dec : EqDecision PromiseRef.
Proof. unfold SlotId. solve_decision. Defined.

Definition milliseconds : Type := Z.

Inductive IWaiting :=
  | WaitingReady
  | WaitingAlways
  | WaitingYield
  | WaitingMaybe (wait : bool)
  | WaitOnFuture (f : PromiseRef)
  | WithWaitingTimeout (t_ : milliseconds) (underlying : IWaiting)
  | WithWaitingFuture (p : PromiseRef) (underlying : IWaiting)
  | WaitingMessages (messages : list SlotId) (addresses : list SendAddress).

#[export] Instance IWaiting_eq_dec : EqDecision IWaiting.
Proof. unfold SlotId, milliseconds. solve_decision. Defined.

Definition WaitingTimeout (t : milliseconds) : IWaiting := WithWaitingTimeout t WaitingAlways.
Definition WaitingFuture (p : PromiseRef) : IWaiting := WithWaitingFuture p WaitingAlways.
Definition makeWithWaitingFuture (p : PromiseRef) (t : IWaiting) : IWaiting :=
  WithWaitingFuture p t.

(** [WaitingMessages(TSlotBase<TTypes>&... args)]: a slot is named by its address,
    which is also its queue's. *)
Definition makeWaitingMessages (args : list SendAddress) : IWaiting :=
  WaitingMessages (sa_slot <$> args) args.

(** ** The [IWaiting] methods *)

Fixpoint isReadyForResume (w : IWaiting) : bool :=
  match w with
  | WaitingYield | WaitingMaybe _ => true
  | WithWaitingTimeout _ u | WithWaitingFuture _ u => isReadyForResume u
  | _ => false
  end.

Fixpoint sleepFor (w : IWaiting) : option milliseconds :=
  match w with
  | WithWaitingTimeout t _ => Some t
  | WithWaitingFuture _ u => sleepFor u
  | _ => None
  end.

Fixpoint wakeOnFuture (w : IWaiting) : option PromiseRef :=
  match w with
  | WaitOnFuture f => Some f
  | WithWaitingFuture p _ => Some p
  | WithWaitingTimeout _ u => wakeOnFuture u
  | _ => None
  end.

Fixpoint isWaiting (s : SlotId) (w : IWaiting) : bool :=
  match w with
  | WaitingMessages _ addresses => existsb (λ add, bool_decide (sa_slot add = s)) addresses
  | WithWaitingTimeout _ u | WithWaitingFuture _ u => isWaiting s u
  | _ => false
  end.

(** ** The heap the awaiters use *)

Class QueueHeap (S T : Type) := {
  queue_empty : SlotId → M S bool;
  queue_pop : SlotId → M S (Message T);
  promise_ready : PromiseRef → M S bool;
}.

(** What an implementation promises: every live queue holds a list, reading it
    changes nothing, and a pop takes the head of that queue alone. *)
Class QueueHeapLaws (S T : Type) `{!QueueHeap S T} := {
  queue_view : S → SlotId → option (list (Message T));
  queue_empty_live s q l :
    queue_view s q = Some l → queue_empty q s = Ok (bool_decide (l = [])) s;
  queue_pop_live s q m l :
    queue_view s q = Some (m :: l) →
    ∃ s', queue_pop q s = Ok m s' ∧ queue_view s' q = Some l ∧
          ∀ q', q' ≠ q → queue_view s' q' = queue_view s q';
}.

Section await.
Context {S T : Type} `{!QueueHeap S T}.

(** [any_ready]: every queue is examined, then the results are or-ed. *)
Fixpoint any_ready (messages : list SlotId) : M S bool :=
  match messages with
  | [] => ret false
  | q :: qs =>
      let! e := queue_empty q in
      let! b := any_ready qs in
      ret (negb e || b)
  end.

Fixpoint await_ready (w : IWaiting) : M S bool :=
  match w with
  | WaitingReady => ret true
  | WaitingAlways | WaitingYield => ret false
  | WaitingMaybe wait => ret (negb wait)
  | WaitOnFuture f => promise_ready f
  | WithWaitingTimeout _ u | WithWaitingFuture _ u => await_ready u
  | WaitingMessages messages _ => any_ready messages
  end.

Definition get_optional (q : SlotId) : M S (option T) :=
  let! e := queue_empty q in
  if e then ret None
  else let! m := queue_pop q in ret (Some (val m)).

(** [get_vals]: one [get_optional] per queue; the language leaves their order
    open, this model takes them left to right. *)
Fixpoint get_vals (messages : list SlotId) : M S (list (option T)) :=
  match messages with
  | [] => ret []
  | q :: qs =>
      let! v := get_optional q in
      let! vs := get_vals qs in
      ret (v :: vs)
  end.

(** The values [co_await w] yields: none for the [void] awaiters. *)
Fixpoint await_resume (w : IWaiting) : M S (list (option T)) :=
  match w with
  | WaitingMessages messages _ => get_vals messages
  | WithWaitingTimeout _ u | WithWaitingFuture _ u => await_resume u
  | _ => ret []
  end.

(** [WaitingMessage::await_resume] over its [underlying] messages. *)
Definition await_resume_message (underlying : IWaiting) : M S T :=
  let! ret_ := await_resume underlying in
  match ret_ with
  | Some t :: _ => ret t
  | _ => ESLANGEXCEPT ["Message was not ready"]
  end.
End await.

(** ** Facts against the interface *)

Definition head_of {T} (l : list (Message T)) : option T := val <$> head l.

Section facts.
Context {S T : Type} `{!QueueHeap S T} `{!QueueHeapLaws S T}.
Implicit Types s : S.

Lemma any_ready_live s qs ls :
  Forall2 (λ q l, queue_view s q = Some l) qs ls →
  any_ready qs s = Ok (existsb (λ l, negb (bool_decide (l = []))) ls) s.
Proof.
  induction 1 as [|q l qs ls Hq _ IH]; [done|]. simpl.
  rewrite (bind_run _ _ _ _ _ (queue_empty_live s q l Hq)).
  by rewrite (bind_run _ _ _ _ _ IH).
Qed.

Lemma get_optional_live s q l :
  queue_view s q = Some l →
  ∃ s', get_optional q s = Ok (head_of l) s' ∧
        queue_view s' q = Some (tail l) ∧
        (∀ q', q' ≠ q → queue_view s' q' = queue_view s q') ∧
        (l = [] → s' = s).
Proof.
  intros Hq. unfold get_optional.
  rewrite (bind_run _ _ _ _ _ (queue_empty_live s q l Hq)).
  destruct l as [|m l]; simpl; [by eexists|].
  destruct (queue_pop_live s q m l Hq) as (s' & Hpop & ? & ?).
  exists s'. by rewrite (bind_run _ _ _ _ _ Hpop).
Qed.

(** [views s qs ls]: the queues [qs] are live and hold [ls]. *)
Definition views s (qs : list SlotId) (ls : list (list (Message T))) : Prop :=
  Forall2 (λ q l, queue_view s q = Some l) qs ls.

Lemma views_ext s s' qs ls :
  (∀ q, q ∈ qs → queue_view s' q = queue_view s q) → views s qs ls → views s' qs ls.
Proof.
  intros Heq. unfold views. induction 1 as [|q l qs ls Hq _ IH]; constructor.
  - rewrite Heq; [done|left].
  - apply IH. intros q' ?. apply Heq. by right.
Qed.

Lemma get_vals_live s qs ls :
  NoDup qs → views s qs ls →
  ∃ s', get_vals qs s = Ok (head_of <$> ls) s' ∧
        views s' qs (tail <$> ls) ∧
        ∀ q', q' ∉ qs → queue_view s' q' = queue_view s q'.
Proof.
  intros Hnd Hls. revert ls s Hls.
  induction Hnd as [|q qs Hnin Hnd IH]; intros ls s Hls;
    inversion Hls as [|? l ? ls' Hq Hqs]; subst.
  { exists s. split_and!; [done|constructor|done]. }
  destruct (get_optional_live s q l Hq) as (s1 & Hg & Hq1 & Hother & _).
  destruct (IH ls' s1) as (s2 & Hvals & Htails & Hrest).
  { apply (views_ext s); [|done]. intros q' ?. apply Hother. set_solver. }
  exists s2. simpl.
  rewrite (bind_run _ _ _ _ _ Hg), (bind_run _ _ _ _ _ Hvals). split_and!; [done| |].
  - constructor; [|done]. by rewrite Hrest.
  - intros q' Hq'. apply not_elem_of_cons in Hq' as [? ?].
    by rewrite Hrest, Hother.
Qed.

(** A decorated awaiter waits for the queues of what it decorates. *)
Fixpoint waited_queues (w : IWaiting) : list SlotId :=
  match w with
  | WaitingMessages messages _ => messages
  | WithWaitingTimeout _ u | WithWaitingFuture _ u => waited_queues u
  | _ => []
  end.

Lemma await_resume_vals w s : await_resume w s = get_vals (waited_queues w) s.
Proof. by induction w. Qed.
End facts.

(** ** Properties *)

(** [tryRecv] over distinct live slots, under any stack of timeout and future
    decorators, yields for each slot its oldest message or nothing, removes
    exactly what it yielded, and leaves every other queue alone. *)
Theorem await_resume_takes_heads {S T} `{QueueHeapLaws S T} (w : IWaiting) (s : S) ls
    (Hdistinct : NoDup (waited_queues w)) (Hlive : views s (waited_queues w) ls) :
  ∃ s', await_resume w s = Ok (head_of <$> ls) s' ∧
        views s' (waited_queues w) (tail <$> ls) ∧
        ∀ q, q ∉ waited_queues w → queue_view s' q = queue_view s q.
Proof. setoid_rewrite await_resume_vals. by apply get_vals_live. Qed.

(** [recv] on a live slot: when [await_ready] answers yes, resuming yields the
    oldest message and removes it; when it answers no, resuming throws
    "Message was not ready" and changes nothing. *)
Theorem recv_ready_or_throws {S T} `{QueueHeapLaws S T} (q : SendAddress) (s : S) l
    (Hlive : queue_view s (sa_slot q) = Some l) :
  ∃ b, await_ready (makeWaitingMessages [q]) s = Ok b s ∧
    if b then
      ∃ m l' s', l = m :: l' ∧ await_resume_message (makeWaitingMessages [q]) s = Ok (val m) s' ∧
                 queue_view s' (sa_slot q) = Some l'
    else
      await_resume_message (makeWaitingMessages [q]) s =
        Throw (std_exception "Message was not ready") s.
Proof.
  unfold await_resume_message, makeWaitingMessages. simpl.
  rewrite (bind_run _ _ _ _ _ (queue_empty_live s _ l Hlive)).
  eexists. split; [done|].
  destruct (get_optional_live s _ l Hlive) as (s' & Hg & Hq & _ & Hnil).
  unfold bind. rewrite Hg. destruct l as [|m l]; simpl in *.
  - by rewrite Hnil.
  - by exists m, l, s'.
Qed.
