(* ===== verification/IoService.v ===== *)
(** * The io_service the runtime is driven by

    [boost::asio] is not part of the repository: its [io_service] and
    [deadline_timer] are an interface here. A handler is data of type [H]; a
    timer is named by the object that owns it. [Sim] is a concrete service with
    the documented behaviour, used to run the model. *)

From S2P Require Import Prelude.
From S2P Require Import BaseTypes.
From S2P Require Import Waiting.

Inductive error_code :=
  | success
  | operation_aborted.

#[export] Instance error_code_eq_dec : EqDecision error_code.
Proof. solve_decision. Defined.

Class IoService (H : Type) := {
  io : Type;
  (** [post]: queue a handler. *)
  io_post : H → io → io;
  (** [expires_from_now] followed by [async_wait]. *)
  io_timer_wait : Ptr → milliseconds → (error_code → H) → io → io;
  (** [deadline_timer::cancel] and its destructor: a wait still pending
      completes with [operation_aborted]. *)
  io_timer_cancel : Ptr → io → io;
  io_timer_destroy : Ptr → io → io;
  (** [run_one] waits for a handler and hands it over to be invoked; nothing
      when it returns without running one. *)
  io_run_one : io → io * option H;
  (** The next handler [poll] invokes; nothing when it returns. *)
  io_poll_one : io → io * option H;
}.

(** What the runtime relies on: [io_queued i h] says the handler [h] is queued
    for invocation, [io_waiting i t f] that timer [t] has an outstanding wait that
    will complete with [f]. A wait completes with success only while the service
    runs, with [operation_aborted] when its timer is cancelled, restarted or
    destroyed, and a [poll] that returns has left nothing queued. *)
Class IoServiceLaws (H : Type) `{!IoService H} := {
  io_queued : io → H → Prop;
  io_waiting : io → Ptr → (error_code → H) → Prop;
  io_post_queued h h' i : io_queued (io_post h i) h' → h' = h ∨ io_queued i h';
  io_post_waiting h t g i : io_waiting (io_post h i) t g → io_waiting i t g;
  io_cancel_queued t h' i :
    io_queued (io_timer_cancel t i) h' →
    io_queued i h' ∨ ∃ g, io_waiting i t g ∧ h' = g operation_aborted;
  io_cancel_waiting t t' g i :
    io_waiting (io_timer_cancel t i) t' g → t' ≠ t ∧ io_waiting i t' g;
  io_destroy_queued t h' i :
    io_queued (io_timer_destroy t i) h' →
    io_queued i h' ∨ ∃ g, io_waiting i t g ∧ h' = g operation_aborted;
  io_destroy_waiting t t' g i :
    io_waiting (io_timer_destroy t i) t' g → t' ≠ t ∧ io_waiting i t' g;
  io_wait_queued t d f h' i :
    io_queued (io_timer_wait t d f i) h' →
    io_queued i h' ∨ ∃ g, io_waiting i t g ∧ h' = g operation_aborted;
  io_wait_waiting t d f t' g i :
    io_waiting (io_timer_wait t d f i) t' g →
    t' = t ∧ g = f ∨ t' ≠ t ∧ io_waiting i t' g;
  io_run_one_queued i i' o h :
    io_run_one i = (i', o) → o = Some h ∨ io_queued i' h →
    io_queued i h ∨ ∃ t g, io_waiting i t g ∧ h = g success;
  io_run_one_waiting i i' o t g :
    io_run_one i = (i', o) → io_waiting i' t g → io_waiting i t g;
  io_poll_one_queued i i' o h :
    io_poll_one i = (i', o) → o = Some h ∨ io_queued i' h →
    io_queued i h ∨ ∃ t g, io_waiting i t g ∧ h = g success;
  io_poll_one_waiting i i' o t g :
    io_poll_one i = (i', o) → io_waiting i' t g → io_waiting i t g;
  io_poll_drains i i' h : io_poll_one i = (i', None) → ¬ io_queued i' h;
}.

(** ** A concrete service

    Posted and completed handlers wait in [ready], in order; an outstanding wait
    keeps its deadline. Time only passes while [run_one] blocks: it then jumps to
    the earliest deadline. A call that finds no outstanding work stops the
    service, and a stopped service runs nothing until it is reset, as asio
    documents. *)
Module Sim.
Record wait (H : Type) := mkWait { timer : Ptr; deadline : Z; completion : error_code → H }.
Arguments mkWait {H} _ _ _.
Arguments timer {H} _.
Arguments deadline {H} _.
Arguments completion {H} _ _.

Record service (H : Type) := mkService {
  clock : Z;
  ready : list H;
  waits : list (wait H);
  stopped : bool;
}.
Arguments mkService {H} _ _ _ _.
Arguments clock {H} _.
Arguments ready {H} _.
Arguments waits {H} _.
Arguments stopped {H} _.

Section sim.
Context {H : Type}.
Implicit Types i : service H.

Definition new_service : service H := mkService 0 [] [] false.

Definition post (h : H) i : service H :=
  mkService (clock i) (ready i ++ [h]) (waits i) (stopped i).

Definition cancel (t : Ptr) i : service H :=
  mkService (clock i)
    (ready i ++ ((λ w, completion w operation_aborted) <$> filter (λ w, timer w = t) (waits i)))
    (filter (λ w, timer w ≠ t) (waits i)) (stopped i).

Definition timer_wait (t : Ptr) (d : milliseconds) (f : error_code → H) i : service H :=
  let i' := cancel t i in
  mkService (clock i') (ready i') (waits i' ++ [mkWait t (clock i' + d) f]) (stopped i').

(** Expired waits complete, in the order they were started. *)
Definition expire i : service H :=
  mkService (clock i)
    (ready i ++ ((λ w, completion w success) <$> filter (λ w, (deadline w ≤ clock i)%Z) (waits i)))
    (filter (λ w, ¬ (deadline w ≤ clock i)%Z) (waits i)) (stopped i).

Definition next_deadline i : Z :=
  match waits i with
  | [] => clock i
  | w :: ws => foldr (λ w d, Z.min (deadline w) d) (deadline w) ws
  end.

Definition advance i : service H :=
  mkService (Z.max (clock i) (next_deadline i)) (ready i) (waits i) (stopped i).

Definition take_ready i : service H * option H :=
  match ready i with
  | [] => (i, None)
  | h :: hs => (mkService (clock i) hs (waits i) (stopped i), Some h)
  end.

Definition out_of_work i : bool :=
  match ready i, waits i with [], [] => true | _, _ => false end.

Definition stop_service i : service H := mkService (clock i) (ready i) (waits i) true.

Definition run_one i : service H * option H :=
  if stopped i then (i, None)
  else if out_of_work i then (stop_service i, None)
  else match ready (expire i) with
       | [] => take_ready (expire (advance i))
       | _ :: _ => take_ready (expire i)
       end.

Definition poll_one i : service H * option H :=
  if stopped i then (i, None)
  else if out_of_work i then (stop_service i, None)
  else take_ready (expire i).

Definition queued i (h : H) : Prop := stopped i = false ∧ h ∈ ready i.
Definition waiting i (t : Ptr) (g : error_code → H) : Prop :=
  ∃ w, w ∈ waits i ∧ timer w = t ∧ completion w = g.

Lemma cancel_queued t h i :
  queued (cancel t i) h →
  queued i h ∨ ∃ g, waiting i t g ∧ h = g operation_aborted.
Proof.
  unfold queued, cancel. simpl. intros [Hs Hin].
  apply elem_of_app in Hin as [?|Hin]; [by left|right].
  apply list_elem_of_fmap in Hin as (w & -> & Hin).
  apply list_elem_of_filter in Hin as [Ht Hin].
  exists (completion w). split; [by exists w|done].
Qed.

Lemma cancel_waiting t t' g i : waiting (cancel t i) t' g → t' ≠ t ∧ waiting i t' g.
Proof.
  unfold cancel. intros (w & Hin & <- & <-). simpl in Hin.
  apply list_elem_of_filter in Hin as [Hne Hin]. split; [done|by exists w].
Qed.

Lemma expire_queued i h :
  queued (expire i) h → queued i h ∨ ∃ t g, waiting i t g ∧ h = g success.
Proof.
  unfold queued, expire. simpl. intros [Hs Hin].
  apply elem_of_app in Hin as [?|Hin]; [by left|right].
  apply list_elem_of_fmap in Hin as (w & -> & Hin).
  apply list_elem_of_filter in Hin as [_ Hin].
  exists (timer w), (completion w). split; [by exists w|done].
Qed.

Lemma expire_waiting i t g : waiting (expire i) t g → waiting i t g.
Proof.
  intros (w & Hin & <- & <-). apply list_elem_of_filter in Hin as [_ Hin]. by exists w.
Qed.

Lemma take_ready_queued i i' o h :
  take_ready i = (i', o) → stopped i = false → o = Some h ∨ queued i' h → queued i h.
Proof.
  unfold take_ready, queued. destruct (ready i) as [|h0 hs] eqn:Hr; intros [= <- <-] Hs.
  - rewrite Hr. by intros [?|?].
  - simpl. intros [[= ->]|[_ ?]]; (split; [done|]); [left|by right].
Qed.

Lemma take_ready_waiting i i' o t g :
  take_ready i = (i', o) → waiting i' t g → waiting i t g.
Proof. unfold take_ready. by destruct (ready i) as [|h0 hs]; intros [= <- <-]. Qed.

Lemma run_one_cases i i' o :
  run_one i = (i', o) →
  o = None ∧ (i' = i ∧ stopped i = true ∨ i' = stop_service i) ∨
  stopped i = false ∧ (take_ready (expire i) = (i', o) ∨
                       take_ready (expire (advance i)) = (i', o)).
Proof.
  unfold run_one. destruct (stopped i) eqn:Hs; [intros [= <- <-]; by left; split; [|left]|].
  destruct (out_of_work i); [intros [= <- <-]; by left; split; [|right]|].
  destruct (ready (expire i)); by auto.
Qed.

Lemma poll_one_cases i i' o :
  poll_one i = (i', o) →
  o = None ∧ (i' = i ∧ stopped i = true ∨ i' = stop_service i) ∨
  stopped i = false ∧ take_ready (expire i) = (i', o).
Proof.
  unfold poll_one. destruct (stopped i) eqn:Hs; [intros [= <- <-]; by left; split; [|left]|].
  destruct (out_of_work i); [intros [= <- <-]; by left; split; [|right]|]. by auto.
Qed.

Lemma run_one_queued i i' o h :
  run_one i = (i', o) → o = Some h ∨ queued i' h →
  queued i h ∨ ∃ t g, waiting i t g ∧ h = g success.
Proof.
  intros [(-> & Hi)|(Hs & Hi)]%run_one_cases Hh.
  - destruct Hh as [?|[Hst Hin]]; [done|].
    destruct Hi as [[-> ?]| ->]; [congruence|done].
  - destruct Hi as [Hi|Hi]; apply (take_ready_queued _ _ _ _ Hi) in Hh; try done;
      by apply expire_queued in Hh.
Qed.

Lemma run_one_waiting i i' o t g :
  run_one i = (i', o) → waiting i' t g → waiting i t g.
Proof.
  intros [(-> & [[-> ?]| ->])|(Hs & [Hi|Hi])]%run_one_cases; try done; intros Hw;
    by apply (take_ready_waiting _ _ _ _ _ Hi), expire_waiting in Hw.
Qed.

Lemma poll_one_queued i i' o h :
  poll_one i = (i', o) → o = Some h ∨ queued i' h →
  queued i h ∨ ∃ t g, waiting i t g ∧ h = g success.
Proof.
  intros [(-> & Hi)|(Hs & Hi)]%poll_one_cases Hh.
  - destruct Hh as [?|[Hst Hin]]; [done|].
    destruct Hi as [[-> ?]| ->]; [congruence|done].
  - apply (take_ready_queued _ _ _ _ Hi) in Hh; [by apply expire_queued in Hh|done].
Qed.

Lemma poll_one_waiting i i' o t g :
  poll_one i = (i', o) → waiting i' t g → waiting i t g.
Proof.
  intros [(-> & [[-> ?]| ->])|(Hs & Hi)]%poll_one_cases; try done; intros Hw.
  by apply (take_ready_waiting _ _ _ _ _ Hi), expire_waiting in Hw.
Qed.

Lemma poll_drains i i' h : poll_one i = (i', None) → ¬ queued i' h.
Proof.
  intros [(_ & [[-> Hs]| ->])|(_ & Hi)]%poll_one_cases [Hst Hin];
    [congruence|done|].
  unfold take_ready in Hi. destruct (ready (expire i)) eqn:Hr; simplify_eq.
  rewrite Hr in Hin. by apply not_elem_of_nil in Hin.
Qed.
End sim.

#[export] Instance sim_io (H : Type) : IoService H := {|
  io := service H;
  io_post := post;
  io_timer_wait := timer_wait;
  io_timer_cancel := cancel;
  io_timer_destroy := cancel;
  io_run_one := run_one;
  io_poll_one := poll_one;
|}.

#[export] Program Instance sim_io_laws (H : Type) : IoServiceLaws H :=
  {| io_queued := queued; io_waiting := waiting |}.
Next Obligation.
  intros H h h' i [Hs Hin]. simpl in *.
  apply elem_of_app in Hin as [?|Hin]; [by right|].
  left. by apply list_elem_of_singleton in Hin.
Qed.
Next Obligation. done. Qed.
Next Obligation. intros H. apply cancel_queued. Qed.
Next Obligation. intros H. apply cancel_waiting. Qed.
Next Obligation. intros H. apply cancel_queued. Qed.
Next Obligation. intros H. apply cancel_waiting. Qed.
Next Obligation. intros H t d f h' i Hq. by apply (cancel_queued t). Qed.
Next Obligation.
  intros H t d f t' g i (w & Hin & <- & <-). simpl in Hin.
  apply elem_of_app in Hin as [Hin|Hin].
  - right. apply (cancel_waiting t). by exists w.
  - left. by apply list_elem_of_singleton in Hin as ->.
Qed.
Next Obligation. intros H. apply run_one_queued. Qed.
Next Obligation. intros H. apply run_one_waiting. Qed.
Next Obligation. intros H. apply poll_one_queued. Qed.
Next Obligation. intros H. apply poll_one_waiting. Qed.
Next Obligation. intros H. apply poll_drains. Qed.
End Sim.
