(* ===== verification/Process.v ===== *)
(** * Processes

    Models [eslang/Process.h]/[.cpp]: what a [Process] object holds, what its
    constructor does with [ProcessArgs], and the awaiters its receive methods
    make. The classes an application derives from [Process] are given by a
    [Program]: their payloads, the slot and promise members of each class, and
    what its constructor does. *)

From S2P Require Import Prelude.
From S2P Require Import BaseTypes.
From S2P Require Import Waiting.

(** ** [ProcessArgs] *)

Record ProcessArgs := mkProcessArgs {
  args_pid : Pid;
  args_notifyOnDead : option SendAddress;
  args_killOnDie : option Pid;
}.

(** [ProcessArgs(Pid p)]; the [Context* c] is the one context of the model. *)
Definition new_args (p : Pid) : ProcessArgs := mkProcessArgs p None None.

(** ** Applications *)

(** What the constructor of a derived class does, in order: initialise a [Slot]
    or an [EslangPromise] member, call [link], or throw. *)
Inductive CtorOp :=
  | CtorSlot
  | CtorPromise
  | CtorLink (b : Pid)
  | CtorThrow (e : exn).

(** An application: its message payloads ([of_pid] is [Message<Pid>]), its
    process classes with their inheritance ([is_a c d]: an object of class [c]
    is a [d]), and per class the constructor. *)
Class Program := {
  payload : Type;
  of_pid : Pid → payload;
  cls : Type;
  is_a : cls → cls → bool;
  arg : Type;
  ctor : cls → arg → list CtorOp;
}.

(** ** [Process] *)

Inductive Member :=
  | SlotMember (s : SlotId)
  | PromiseMember (p : Ptr).

Record Process `{Program} := mkProcess {
  pid_ : Pid;
  killOnDie_ : list Pid;
  notifyOnDie_ : list SendAddress;
  dynamic_class : cls;
  members : list Member;
}.

Section process.
Context `{Program}.

Definition addKillOnDie (b : Pid) (p : Process) : Process :=
  mkProcess _ (pid_ p) (killOnDie_ p ++ [b]) (notifyOnDie_ p) (dynamic_class p) (members p).

(** The base constructor, before any member of the derived class. *)
Definition construct_Process (c : cls) (args : ProcessArgs) : Process :=
  let p := mkProcess _ (args_pid args) [] [] c [] in
  let p := match args_killOnDie args with Some k => addKillOnDie k p | None => p end in
  match args_notifyOnDead args with
  | Some n =>
      mkProcess _ (pid_ p) (killOnDie_ p) (notifyOnDie_ p ++ [n]) (dynamic_class p) (members p)
  | None => p
  end.

Definition add_member (m : Member) (p : Process) : Process :=
  mkProcess _ (pid_ p) (killOnDie_ p) (notifyOnDie_ p) (dynamic_class p) (members p ++ [m]).
End process.

(** ** Receiving *)

Definition tryRecv (slots : list SendAddress) : IWaiting := makeWaitingMessages slots.

(** [recv]: the awaiter is a [WaitingMessage] over this. *)
Definition recv (slot : SendAddress) : IWaiting := tryRecv [slot].

Definition sleep (time : milliseconds) : IWaiting := WaitingTimeout time.
