(* ===== verification/Context.v ===== *)
(** * The context: processes, queues and the operations on them

    Models the data of [eslang/Context.h] and every operation of
    [eslang/Context.h]/[.cpp] that does not resume a coroutine. The heap is
    explicit: running processes, process objects, slots and member promises live
    in maps from their addresses, so a use after [delete] is a lookup that
    fails. [T] is the type of [ProcessTask]s. *)

From S2P Require Import Prelude.
From S2P Require Import BaseTypes.
From S2P Require Import Future.
From S2P Require Import Slot.
From S2P Require Import Waiting.
From S2P Require Import IoService.
From S2P Require Import Process.

(** ** Handlers *)

(** The continuation [RunningProcess::resume] installs: the lambda
    [[this, resumes]]. *)
Inductive Function := ResumeIf (this : Ptr) (resumes : N).

(** What the io_service holds: a posted continuation, or the completion of a
    timer wait, the lambda [[this](error)]. *)
Inductive Handler :=
  | RunContinuation (f : Function)
  | TimerDone (this : Ptr) (error : error_code).

#[export] Instance Function_eq_dec : EqDecision Function.
Proof. solve_decision. Defined.
#[export] Instance Handler_eq_dec : EqDecision Handler.
Proof. solve_decision. Defined.

(** The [io_service*] a promise keeps is always the context's. *)
Abbreviation Promise := (EslangPromise unit Function).

(** ** Data *)

Record RunningProcess (T : Type) := mkRunningProcess {
  dead : bool;
  pid : Pid;
  process_ptr : Ptr;
  task : T;
  lastWaiting : option IWaiting;
  resumes : N;
}.
Arguments mkRunningProcess {T} _ _ _ _ _ _.
Arguments dead {T} _.
Arguments pid {T} _.
Arguments process_ptr {T} _.
Arguments task {T} _.
Arguments lastWaiting {T} _.
Arguments resumes {T} _.

(** A queue item carries a resume, a message, or (never) both. *)
Record ToProcessItem (U : Type) := mkItem {
  item_pid : Pid;
  item_resume : option N;
  item_message : option (SendAddress * Message U);
}.
Arguments mkItem {U} _ _ _.
Arguments item_pid {U} _.
Arguments item_resume {U} _.
Arguments item_message {U} _.

Record Context (T : Type) `{Program} `{IoService Handler} := mkContext {
  tombstones_ : list Pid;
  processes_ : list (option Ptr);
  toDestroy_ : list (Ptr * string);
  queue_ : list (ToProcessItem payload);
  ioService_ : io;
  (* the heap *)
  rps : gmap Ptr (RunningProcess T);
  objs : gmap Ptr Process;
  slots : gmap Ptr (Slot unit Function payload);
  promises : gmap Ptr Promise;
  next_ptr : Ptr;
}.
Arguments mkContext {T _ _} _ _ _ _ _ _ _ _ _ _.
Arguments tombstones_ {T _ _} _.
Arguments processes_ {T _ _} _.
Arguments toDestroy_ {T _ _} _.
Arguments queue_ {T _ _} _.
Arguments ioService_ {T _ _} _.
Arguments rps {T _ _} _.
Arguments objs {T _ _} _.
Arguments slots {T _ _} _.
Arguments promises {T _ _} _.
Arguments next_ptr {T _ _} _.

(** Destructors that run when a coroutine frame is destroyed: those of local
    slots, and of local objects that send ([StreamBatcher]). *)
Inductive CleanupOp (U : Type) :=
  | CleanupSlot (s : SlotId)
  | CleanupSend (a : SendAddress) (m : U).
Arguments CleanupSlot {U} _.
Arguments CleanupSend {U} _ _.

(** What the context needs to know of a [ProcessTask] besides resuming it. *)
Class TaskModel (T : Type) `{Program} := {
  (** [p->run()]: the coroutine of a new process object. *)
  task_start : cls → arg → Process → T;
  (** [ProcessTask::done]. *)
  task_done : T → bool;
  (** [~ProcessTask]. *)
  task_cleanup : T → list (CleanupOp payload);
}.

Section context.
Context {T : Type} `{P : Program} `{IO : IoService Handler}.
Implicit Types c : Context T.

(** ** Field updates *)

Definition set_tombstones v c : Context T :=
  mkContext v (processes_ c) (toDestroy_ c) (queue_ c) (ioService_ c)
    (rps c) (objs c) (slots c) (promises c) (next_ptr c).
Definition set_processes v c : Context T :=
  mkContext (tombstones_ c) v (toDestroy_ c) (queue_ c) (ioService_ c)
    (rps c) (objs c) (slots c) (promises c) (next_ptr c).
Definition set_toDestroy v c : Context T :=
  mkContext (tombstones_ c) (processes_ c) v (queue_ c) (ioService_ c)
    (rps c) (objs c) (slots c) (promises c) (next_ptr c).
Definition set_queue v c : Context T :=
  mkContext (tombstones_ c) (processes_ c) (toDestroy_ c) v (ioService_ c)
    (rps c) (objs c) (slots c) (promises c) (next_ptr c).
Definition set_io v c : Context T :=
  mkContext (tombstones_ c) (processes_ c) (toDestroy_ c) (queue_ c) v
    (rps c) (objs c) (slots c) (promises c) (next_ptr c).
Definition set_rps v c : Context T :=
  mkContext (tombstones_ c) (processes_ c) (toDestroy_ c) (queue_ c) (ioService_ c)
    v (objs c) (slots c) (promises c) (next_ptr c).
Definition set_objs v c : Context T :=
  mkContext (tombstones_ c) (processes_ c) (toDestroy_ c) (queue_ c) (ioService_ c)
    (rps c) v (slots c) (promises c) (next_ptr c).
Definition set_slots v c : Context T :=
  mkContext (tombstones_ c) (processes_ c) (toDestroy_ c) (queue_ c) (ioService_ c)
    (rps c) (objs c) v (promises c) (next_ptr c).
Definition set_promises v c : Context T :=
  mkContext (tombstones_ c) (processes_ c) (toDestroy_ c) (queue_ c) (ioService_ c)
    (rps c) (objs c) (slots c) v (next_ptr c).
Definition set_next_ptr v c : Context T :=
  mkContext (tombstones_ c) (processes_ c) (toDestroy_ c) (queue_ c) (ioService_ c)
    (rps c) (objs c) (slots c) (promises c) v.

Definition new_context (i : io) : Context T :=
  mkContext [] [] [] [] i ∅ ∅ ∅ ∅ 1%positive.

(** ** The heap *)

Definition deref {A} (lookup : Context T → option A) : M (Context T) A := λ c,
  match lookup c with
  | Some a => Ok a c
  | None => Halt (Undefined UseAfterFree)
  end.

Definition load_rp (r : Ptr) : M (Context T) (RunningProcess T) := deref (λ c, rps c !! r).
Definition load_obj (o : Ptr) : M (Context T) Process := deref (λ c, objs c !! o).
Definition load_slot (s : SlotId) : M (Context T) (Slot unit Function payload) :=
  deref (λ c, slots c !! s).

Definition store_rp (r : Ptr) (rp : RunningProcess T) : M (Context T) unit :=
  modify (λ c, set_rps (<[r := rp]> (rps c)) c).
Definition store_obj (o : Ptr) (p : Process) : M (Context T) unit :=
  modify (λ c, set_objs (<[o := p]> (objs c)) c).
Definition store_slot (s : SlotId) (v : Slot unit Function payload) : M (Context T) unit :=
  modify (λ c, set_slots (<[s := v]> (slots c)) c).

(** A fresh address; addresses are never handed out twice. *)
Definition new_ptr : M (Context T) Ptr := λ c,
  Ok (next_ptr c) (set_next_ptr (Pos.succ (next_ptr c)) c).

Definition update_rp (r : Ptr) (f : RunningProcess T → RunningProcess T) : M (Context T) unit :=
  let! rp := load_rp r in store_rp r (f rp).

Definition set_dead (b : bool) (rp : RunningProcess T) : RunningProcess T :=
  mkRunningProcess b (pid rp) (process_ptr rp) (task rp) (lastWaiting rp) (resumes rp).
Definition set_task (t : T) (rp : RunningProcess T) : RunningProcess T :=
  mkRunningProcess (dead rp) (pid rp) (process_ptr rp) t (lastWaiting rp) (resumes rp).
Definition set_lastWaiting (w : option IWaiting) (rp : RunningProcess T) : RunningProcess T :=
  mkRunningProcess (dead rp) (pid rp) (process_ptr rp) (task rp) w (resumes rp).
Definition set_resumes (n : N) (rp : RunningProcess T) : RunningProcess T :=
  mkRunningProcess (dead rp) (pid rp) (process_ptr rp) (task rp) (lastWaiting rp) n.

(** ** Promises and slots on the heap *)

Definition post_all (l : list (unit * Function)) : M (Context T) unit :=
  for_each (λ ef, modify (λ c, set_io (io_post (RunContinuation ef.2) (ioService_ c)) c)) l.

Definition load_promise (p : PromiseRef) : M (Context T) Promise :=
  match p with
  | ThrottleOf s => let! sl := load_slot s in ret (p_ (messages_ sl))
  | MemberPromise m => deref (λ c, promises c !! m)
  end.

Definition store_promise (p : PromiseRef) (v : Promise) : M (Context T) unit :=
  match p with
  | ThrottleOf s =>
      let! sl := load_slot s in
      let q := messages_ sl in
      store_slot s (with_queue (mkQueue (stackStorage q) (others q) v) sl)
  | MemberPromise m => modify (λ c, set_promises (<[m := v]> (promises c)) c)
  end.

(** Call an operation that posts on the promise at [p]. *)
Definition update_promise (p : PromiseRef)
    (f : Promise → Promise * list (unit * Function)) : M (Context T) unit :=
  let! v := load_promise p in
  store_promise p (f v).1 ;;;
  post_all (f v).2.

Definition process_promise (p : PromiseRef) : M (Context T) unit :=
  let! v := load_promise p in
  match process v with
  | inl v' => store_promise p v'
  | inr e => throw e
  end.

(** [p->queue()->push] through [SlotBase::push]. *)
Definition slot_push (s : SlotId) (m : Message payload) : M (Context T) unit :=
  let! sl := load_slot s in store_slot s (push_slot m sl).

Definition slot_pop (s : SlotId) : M (Context T) (Message payload) :=
  let! sl := load_slot s in
  match pop (messages_ sl) with
  | None => undefined EmptyOptional
  | Some (m, q, l) =>
      store_slot s (with_queue q sl) ;;;
      post_all l ;;;
      ret m
  end.

#[global] Instance context_queue_heap : QueueHeap (Context T) payload := {
  queue_empty s := let! sl := load_slot s in ret (empty (messages_ sl));
  queue_pop := slot_pop;
  promise_ready p := let! v := load_promise p in ret (isReady v);
}.

(** [Slot<T> s(this)] and [~Slot]. *)
Definition create_slot (parent : Pid) : M (Context T) SlotId :=
  let! s := new_ptr in
  store_slot s (new_slot parent s) ;;;
  ret s.

Definition destroy_slot (s : SlotId) : M (Context T) unit :=
  let! sl := load_slot s in
  post_all (destroy_queue (messages_ sl)) ;;;
  modify (λ c, set_slots (delete s (slots c)) c).

Definition create_promise : M (Context T) Ptr :=
  let! p := new_ptr in
  modify (λ c, set_promises (<[p := new_promise]> (promises c)) c) ;;;
  ret p.

(** ** Finding processes *)

(** The non-[const] overload; [None] is [processes_.end()]. *)
Definition findProc (p : Pid) : M (Context T) (option Ptr) :=
  let! ps := gets processes_ in
  if bool_decide (N.of_nat (length ps) ≤ idx_ p)%N then ret None
  else match ps !! N.to_nat (idx_ p) with
       | Some (Some r) =>
           let! rp := load_rp r in
           ret (if bool_decide (version_ (pid rp) = version_ p) then Some r else None)
       | _ => ret None
       end.

(** The [const] overload dereferences the entry without testing it. *)
Definition findProc_const (p : Pid) : M (Context T) (option Ptr) :=
  let! ps := gets processes_ in
  if bool_decide (N.of_nat (length ps) ≤ idx_ p)%N then ret None
  else match ps !! N.to_nat (idx_ p) with
       | Some (Some r) =>
           let! rp := load_rp r in
           ret (if bool_decide (version_ (pid rp) = version_ p) then Some r else None)
       | _ => undefined NullDereference
       end.

(** ** Queueing *)

Definition queueResume (p : Pid) (n : N) : M (Context T) unit :=
  modify (λ c, set_queue (queue_ c ++ [mkItem p (Some n) None]) c).

Definition queueSend (a : SendAddress) (m : Message payload) : M (Context T) unit :=
  modify (λ c, set_queue (queue_ c ++ [mkItem (sa_pid a) None (Some (a, m))]) c).

Definition waitOnQueue : M (Context T) bool :=
  gets (λ c, bool_decide (10 < length (queue_ c))).

Definition canQueue (t : SendAddress) : M (Context T) (option PromiseRef) :=
  let! it := findProc_const (sa_pid t) in
  match it with
  | None => ret None
  | Some _ =>
      let! sl := load_slot (sa_slot t) in
      ret (if shouldThrottle (messages_ sl) then Some (ThrottleOf (sa_slot t)) else None)
  end.

(** [proc->*slot]: members are numbered base class first. *)
Definition makeSendAddress (p : Pid) (Y : cls) (slot : nat) : M (Context T) SendAddress :=
  let! it := findProc p in
  match it with
  | None => ESLANGEXCEPT ["No process found for pid "; toString p]
  | Some r =>
      let! rp := load_rp r in
      let! proc := load_obj (process_ptr rp) in
      if negb (is_a (dynamic_class proc) Y)
      then ESLANGEXCEPT ["Bad process type for "; toString p]
      else match members proc !! slot with
           | Some (SlotMember s) =>
               let! sl := load_slot s in ret (mkSendAddress p (id_ sl))
           | _ => undefined OutOfRange
           end
  end.

(** ** Killing *)

Definition addtoDestroy (p : Pid) (reason : string) : M (Context T) unit :=
  let! it := findProc p in
  match it with
  | None => ret tt
  | Some r =>
      update_rp r (set_dead true) ;;;
      modify (λ c, set_toDestroy (toDestroy_ c ++ [(r, reason)])
                     (set_processes (<[N.to_nat (idx_ p) := None]> (processes_ c)) c)) ;;;
      modify (λ c, set_tombstones (tombstones_ c ++ [p]) c)
  end.

Definition queueKill (p : Pid) : M (Context T) unit := addtoDestroy p "".

Definition update_obj (o : Ptr) (f : Process → Process) : M (Context T) unit :=
  let! obj := load_obj o in store_obj o (f obj).

(** [link(Process* running, Pid b)]. *)
Definition link (running : Ptr) (b : Pid) : M (Context T) unit :=
  let! procb := findProc b in
  match procb with
  | None => ESLANGEXCEPT ["Proc is already dead"]
  | Some r =>
      update_obj running (addKillOnDie b) ;;;
      let! rp := load_rp r in
      let! run := load_obj running in
      update_obj (process_ptr rp) (addKillOnDie (pid_ run))
  end.
End context.
