(* ===== verification/HeapFacts.v ===== *)
(** * The context keeps the promises of the heap interface

    The awaiters of [Waiting.v] are proved against [QueueHeapLaws]; here the slots
    of the context discharge it, so those theorems hold of the runtime. *)

From S2P Require Import Prelude.
From S2P Require Import BaseTypes.
From S2P Require Import Future.
From S2P Require Import Slot.
From S2P Require Import Waiting.
From S2P Require Import IoService.
From S2P Require Import Process.
From S2P Require Import Context.

Section heap.
Context {T : Type} `{P : Program} `{IO : IoService Handler}.
Implicit Types c : Context T.

Definition slot_view c (s : SlotId) : option (list (Message payload)) :=
  (λ sl, contents (messages_ sl)) <$> slots c !! s.

Lemma post_all_Ok l c :
  ∃ i, post_all l c = Ok tt (set_io i c).
Proof.
  revert c. induction l as [|[u f] l IH]; intros c; [by exists (ioService_ c); destruct c|].
  destruct (IH (set_io (io_post (RunContinuation f) (ioService_ c)) c)) as [i Hi].
  exists i. exact Hi.
Qed.

(** Popping a live queue: the head goes, the slot keeps the rest, and apart from
    what the throttle promise posts nothing else changes. *)
Lemma slot_pop_Ok c s sl m l :
  slots c !! s = Some sl → contents (messages_ sl) = m :: l →
  ∃ q i, contents q = l ∧ tidy q ∧
    slot_pop s c = Ok m (set_io i (set_slots (<[s := with_queue q sl]> (slots c)) c)).
Proof.
  intros Hs Hc.
  destruct (pop_head (messages_ sl) m l Hc) as (q & posted & Hpop & Hq & Htidy).
  destruct (post_all_Ok posted (set_slots (<[s := with_queue q sl]> (slots c)) c)) as [i Hi].
  exists q, i. split_and!; [done..|].
  unfold slot_pop, load_slot, deref. unfold bind at 1. rewrite Hs, Hpop.
  unfold bind at 1. unfold store_slot, modify. by rewrite (bind_run _ _ _ _ _ Hi).
Qed.

#[export] Program Instance context_queue_laws : QueueHeapLaws (Context T) payload := {|
  queue_view := slot_view;
|}.
Next Obligation.
  intros c s l. unfold slot_view. simpl. unfold load_slot, deref, bind.
  destruct (slots c !! s) as [sl|]; [|done]. intros [= <-]. unfold ret. f_equal.
  unfold empty, contents, size. by destruct (stackStorage (messages_ sl)).
Qed.
Next Obligation.
  intros c s m l. unfold slot_view. destruct (slots c !! s) as [sl|] eqn:Hs; [|done].
  intros [= Hc]. destruct (slot_pop_Ok c s sl m l Hs Hc) as (q & i & Hq & _ & Hpop).
  eexists. split; [exact Hpop|]. simpl. split.
  - rewrite lookup_insert_eq. simpl. by rewrite Hq.
  - intros s' ?. by rewrite lookup_insert_ne.
Qed.
End heap.
