(* ===== verification/Lifecycle.v ===== *)
(** * Lifecycle of processes: spawning, destruction, and the operations of user code

    Models [Context::spawn]/[spawnWith]/[spawnArgs]/[nextPid]/[destroy], the
    inner [while (toDestroy_.size())] loop of [Context::run], and
    [Process::spawn]/[spawnLink]/[spawnLinkNotify]/[send]. The last part lists
    every operation the body of a process may call as one type [Op]. *)

From S2P Require Import Prelude.
From S2P Require Import BaseTypes.
From S2P Require Import Future.
From S2P Require Import Slot.
From S2P Require Import Waiting.
From S2P Require Import IoService.
From S2P Require Import Process.
From S2P Require Import Context.

Section lifecycle.
Context {T : Type} `{P : Program} `{IO : IoService Handler} `{TM : !TaskModel T}.
Implicit Types c : Context T.

(** ** Construction and destruction of objects *)

Definition run_ctor_op (this : Ptr) (op : CtorOp) : M (Context T) unit :=
  match op with
  | CtorSlot =>
      let! obj := load_obj this in
      let! s := create_slot (pid_ obj) in
      update_obj this (add_member (SlotMember s))
  | CtorPromise =>
      let! p := create_promise in
      update_obj this (add_member (PromiseMember p))
  | CtorLink b => link this b
  | CtorThrow e => throw e
  end.

Definition destroy_member (m : Member) : M (Context T) unit :=
  match m with
  | SlotMember s => destroy_slot s
  | PromiseMember p => modify (λ c, set_promises (delete p (promises c)) c)
  end.

(** [~Process] of the derived class: members in reverse order. *)
Definition delete_process (o : Ptr) : M (Context T) unit := noexcept (
  let! obj := load_obj o in
  for_each destroy_member (reverse (members obj)) ;;;
  modify (λ c, set_objs (delete o (objs c)) c)).

(** [std::make_unique<T>(a, args...)]. *)
Definition make_process (cl : cls) (a : arg) (args : ProcessArgs) : M (Context T) Ptr :=
  let! o := new_ptr in
  store_obj o (construct_Process cl args) ;;;
  on_throw (for_each (run_ctor_op o) (ctor cl a)) (delete_process o) ;;;
  ret o.

Definition run_cleanup (op : CleanupOp payload) : M (Context T) unit :=
  match op with
  | CleanupSlot s => destroy_slot s
  | CleanupSend a m => queueSend a (mkMessage m)
  end.

Definition delete_task (t : T) : M (Context T) unit :=
  noexcept (for_each run_cleanup (task_cleanup t)).

(** [~RunningProcess]: the timer, the task, then the process object. *)
Definition delete_rp (r : Ptr) : M (Context T) unit := noexcept (
  let! rp := load_rp r in
  modify (λ c, set_io (io_timer_destroy r (ioService_ c)) c) ;;;
  delete_task (task rp) ;;;
  delete_process (process_ptr rp) ;;;
  modify (λ c, set_rps (delete r (rps c)) c)).

(** ** Spawning *)

Definition nextPid : M (Context T) Pid :=
  let! ts := gets tombstones_ in
  match last ts with
  | Some t =>
      modify (λ c, set_tombstones (pop_back (tombstones_ c)) c) ;;;
      ret (mkPid (idx_ t) (succ64 (version_ t)))
  | None =>
      modify (λ c, set_processes (processes_ c ++ [None]) c) ;;;
      let! ps := gets processes_ in
      ret (mkPid (N.of_nat (length ps - 1)) 0)
  end.

(** [processes_[i] = std::make_unique<RunningProcess>(...)]: what the entry
    owned before is deleted. *)
Definition assign_process (i : N) (r : Ptr) : M (Context T) unit :=
  let! ps := gets processes_ in
  match ps !! N.to_nat i with
  | None => undefined OutOfRange
  | Some old =>
      modify (λ c, set_processes (<[N.to_nat i := Some r]> (processes_ c)) c) ;;;
      match old with
      | Some r' => delete_rp r'
      | None => ret tt
      end
  end.

Definition spawnArgs (cl : cls) (a : arg) (args : ProcessArgs) : M (Context T) Pid :=
  let! p := make_process cl a args in
  let! obj := load_obj p in
  let res := task_start cl a obj in
  if task_done res then
    delete_task res ;;;
    delete_process p ;;;
    ESLANGEXCEPT ["Expected done to be false"]
  else
    let! r := new_ptr in
    store_rp r (mkRunningProcess false (args_pid args) p res None 0) ;;;
    assign_process (idx_ (args_pid args)) r ;;;
    queueResume (args_pid args) 0 ;;;
    ret (args_pid args).

(** [spawn] is [spawnWith] that leaves the [ProcessArgs] alone. *)
Definition spawnWith (f : ProcessArgs → ProcessArgs) (cl : cls) (a : arg) : M (Context T) Pid :=
  let! p := nextPid in
  spawnArgs cl a (f (new_args p)).

Definition spawn (cl : cls) (a : arg) : M (Context T) Pid := spawnWith id cl a.

Definition process_spawnLink (this : Ptr) (cl : cls) (a : arg) : M (Context T) Pid :=
  let! self := load_obj this in
  let! new_pid :=
    spawnWith (λ x, mkProcessArgs (args_pid x) (args_notifyOnDead x) (Some (pid_ self))) cl a in
  update_obj this (addKillOnDie new_pid) ;;;
  ret new_pid.

Definition process_spawnLinkNotify (this : Ptr) (send_address : SendAddress)
    (cl : cls) (a : arg) : M (Context T) Pid :=
  let! new_pid :=
    spawnWith (λ x, mkProcessArgs (args_pid x) (Some send_address) (args_killOnDie x)) cl a in
  update_obj this (addKillOnDie new_pid) ;;;
  ret new_pid.

Definition process_send (a : SendAddress) (m : payload) : M (Context T) IWaiting :=
  queueSend a (mkMessage m) ;;;
  let! b := waitOnQueue in
  ret (WaitingMaybe b).

(** ** Death *)

(** The body of [destroy]: the links and the notifications of [r]. *)
Definition destroy_body (r : Ptr) (reason : string) : M (Context T) unit :=
  let! rp := load_rp r in
  let! proc := load_obj (process_ptr rp) in
  for_each (λ to_destroy, addtoDestroy to_destroy reason) (killOnDie_ proc) ;;;
  for_each (λ to_notify, queueSend to_notify (mkMessage (of_pid (pid rp)))) (notifyOnDie_ proc).

(** [destroy] owns its argument: it is deleted however the body ends. *)
Definition destroy (r : Ptr) (reason : string) : M (Context T) unit :=
  on_throw (destroy_body r reason) (delete_rp r) ;;;
  delete_rp r.

(** One turn of [while (toDestroy_.size())]. *)
Definition destroy_front : M (Context T) unit :=
  let! d := gets toDestroy_ in
  match d with
  | [] => ret tt
  | (r, reason) :: rest =>
      modify (set_toDestroy rest) ;;;
      destroy r reason
  end.

Fixpoint destroy_turns (fuel : nat) : M (Context T) unit :=
  let! d := gets toDestroy_ in
  match d, fuel with
  | [], _ => ret tt
  | _ :: _, 0 => stop OutOfFuel
  | _ :: _, Datatypes.S fuel' => destroy_front ;;; destroy_turns fuel'
  end.

(** The loop, with as many turns as processes could still die. *)
Definition destroy_loop : M (Context T) unit :=
  let! c := get in
  destroy_turns (length (toDestroy_ c) + length (processes_ c)).
End lifecycle.

(** ** Operations available to the body of a process *)

Inductive Op `{Program} : Type → Type :=
  | OpPid : Op Pid
  | OpSlotAddress (slot : nat) : Op SendAddress
  | OpMemberPromise (k : nat) : Op PromiseRef
  | OpSend (a : SendAddress) (m : payload) : Op IWaiting
  | OpQueueSend (a : SendAddress) (m : payload) : Op unit
  | OpWaitOnQueue : Op bool
  | OpCanQueue (a : SendAddress) : Op (option PromiseRef)
  | OpMakeSendAddress (p : Pid) (Y : cls) (slot : nat) : Op SendAddress
  | OpSpawn (cl : cls) (a : arg) : Op Pid
  | OpSpawnLink (cl : cls) (a : arg) : Op Pid
  | OpSpawnLinkNotify (s : SendAddress) (cl : cls) (a : arg) : Op Pid
  | OpLink (b : Pid) : Op unit
  | OpAddKillOnDie (b : Pid) : Op unit
  | OpQueueKill (p : Pid) : Op unit
  | OpCreateSlot : Op SendAddress
  | OpDestroySlot (s : SlotId) : Op unit
  | OpAwaitReady (w : IWaiting) : Op bool
  | OpAwaitResume (w : IWaiting) : Op (list (option payload))
  | OpAwaitResumeMessage (w : IWaiting) : Op payload
  | OpSetIfUnset (p : PromiseRef) : Op unit
  | OpSetException (p : PromiseRef) (e : exn) : Op unit
  | OpResetPromise (p : PromiseRef) : Op unit
  | OpThrow (e : exn) : Op unit.

Section ops.
Context {T : Type} `{P : Program} `{IO : IoService Handler} `{TM : !TaskModel T}.

(** [exec_op this o]: [o] called from the body of the process object [this]. *)
Definition exec_op (this : Ptr) {R} (o : Op R) : M (Context T) R :=
  match o with
  | OpPid => let! self := load_obj this in ret (pid_ self)
  | OpSlotAddress k =>
      let! self := load_obj this in
      match members self !! k with
      | Some (SlotMember s) => let! sl := load_slot s in ret (address sl)
      | _ => undefined OutOfRange
      end
  | OpMemberPromise k =>
      let! self := load_obj this in
      match members self !! k with
      | Some (PromiseMember p) => ret (MemberPromise p)
      | _ => undefined OutOfRange
      end
  | OpSend a m => process_send a m
  | OpQueueSend a m => queueSend a (mkMessage m)
  | OpWaitOnQueue => waitOnQueue
  | OpCanQueue a => canQueue a
  | OpMakeSendAddress p Y k => makeSendAddress p Y k
  | OpSpawn cl a => spawn cl a
  | OpSpawnLink cl a => process_spawnLink this cl a
  | OpSpawnLinkNotify s cl a => process_spawnLinkNotify this s cl a
  | OpLink b => link this b
  | OpAddKillOnDie b => update_obj this (addKillOnDie b)
  | OpQueueKill p => queueKill p
  | OpCreateSlot =>
      let! self := load_obj this in
      let! s := create_slot (pid_ self) in
      ret (mkSendAddress (pid_ self) s)
  | OpDestroySlot s => destroy_slot s
  | OpAwaitReady w => await_ready w
  | OpAwaitResume w => await_resume w
  | OpAwaitResumeMessage w => await_resume_message w
  | OpSetIfUnset p => update_promise p setIfUnset
  | OpSetException p e => update_promise p (setException e)
  | OpResetPromise p => update_promise p (λ v, (move_assign v new_promise, []))
  | OpThrow e => throw e
  end.
End ops.

#[global] Arguments exec_op : simpl never.
