(* ===== verification/ContextFacts.v ===== *)
(** * Facts about the operations of the context

    Two preorders bound what an operation may change: [same_core] (nothing but
    message queues, slots, promises and the io_service) and [quiet n] (also new
    objects, and links between old ones). The well-formedness invariant depends
    on no more than what [quiet] keeps. *)

From S2P Require Import Prelude.
From S2P Require Import BaseTypes.
From S2P Require Import Future.
From S2P Require Import Slot.
From S2P Require Import Waiting.
From S2P Require Import IoService.
From S2P Require Import Process.
From S2P Require Import Context.
From S2P Require Import Lifecycle.

Section relations.
Context {T : Type} `{P : Program} `{IO : IoService Handler} `{TM : !TaskModel T}.
Implicit Types c : Context T.

(** The io_service was only handed continuations. *)
Definition posted_io : relation io := rtc (λ i i', ∃ f, i' = io_post (RunContinuation f) i).

#[global] Instance posted_io_preorder : PreOrder posted_io.
Proof. unfold posted_io. apply _. Qed.

Record same_core c c' : Prop := {
  sc_tombstones : tombstones_ c' = tombstones_ c;
  sc_processes : processes_ c' = processes_ c;
  sc_toDestroy : toDestroy_ c' = toDestroy_ c;
  sc_rps : rps c' = rps c;
  sc_objs : objs c' = objs c;
  sc_next : (next_ptr c ≤ next_ptr c')%positive;
  sc_io : posted_io (ioService_ c) (ioService_ c');
}.

(** Objects older than [n] keep their pid. *)
Record quiet (n : Ptr) c c' : Prop := {
  q_tombstones : tombstones_ c' = tombstones_ c;
  q_processes : processes_ c' = processes_ c;
  q_toDestroy : toDestroy_ c' = toDestroy_ c;
  q_rps : rps c' = rps c;
  q_objs o : (o < n)%positive → pid_ <$> objs c' !! o = pid_ <$> objs c !! o;
  q_next : (next_ptr c ≤ next_ptr c')%positive;
  q_io : posted_io (ioService_ c) (ioService_ c');
}.

#[global] Instance same_core_preorder : PreOrder same_core.
Proof.
  split; [by split|]. intros c1 c2 c3 [] []. split; try congruence; by etrans.
Qed.

#[global] Instance quiet_preorder n : PreOrder (quiet n).
Proof.
  split; [by split|]. intros c1 c2 c3 [???????] [???????].
  split; try congruence; [|by etrans..]. intros o Ho. rewrite q_objs1; auto.
Qed.

Lemma same_core_quiet n c c' : same_core c c' → quiet n c c'.
Proof. intros []. split; try done. intros o _. by f_equal; congruence. Qed.

Lemma within_deref {A} R `{!PreOrder R} (f : Context T → option A) : within R (deref f).
Proof. intros c c'. unfold deref. destruct (f c); simpl; [|done]. intros [= <-]. reflexivity. Qed.

Lemma sc_modify_slots f : within same_core (modify (λ c, set_slots (f c) c)).
Proof. apply within_modify. by split. Qed.
Lemma sc_modify_promises f : within same_core (modify (λ c, set_promises (f c) c)).
Proof. apply within_modify. by split. Qed.
Lemma sc_modify_queue f : within same_core (modify (λ c, set_queue (f c) c)).
Proof. apply within_modify. by split. Qed.
Lemma sc_post f :
  within same_core (modify (λ c, set_io (io_post (RunContinuation f) (ioService_ c)) c)).
Proof. apply within_modify. intros c. split; try done. apply rtc_once. by exists f. Qed.
Lemma sc_new_ptr : within same_core (new_ptr (T:=T)).
Proof. intros c c' [= <-]. split; simpl; (done || lia). Qed.
End relations.

#[export] Hint Extern 1 (within _ (deref _)) => apply within_deref; typeclasses eauto : within.
#[export] Hint Extern 1 (within _ (ESLANGEXCEPT _)) => apply within_throw; typeclasses eauto : within.
#[export] Hint Resolve sc_modify_slots sc_modify_promises sc_modify_queue
  sc_post sc_new_ptr : within.

Section same_core_ops.
Context {T : Type} `{P : Program} `{IO : IoService Handler} `{TM : !TaskModel T}.
Local Abbreviation R := (same_core (T:=T)).

Lemma sc_load_rp r : within R (load_rp r).
Proof. apply within_deref. apply _. Qed.
Lemma sc_load_obj o : within R (load_obj o).
Proof. apply within_deref. apply _. Qed.
Lemma sc_load_slot s : within R (load_slot s).
Proof. apply within_deref. apply _. Qed.
Lemma sc_store_slot s v : within R (store_slot s v).
Proof. apply sc_modify_slots. Qed.
Hint Resolve sc_load_rp sc_load_obj sc_load_slot sc_store_slot : within.

Lemma sc_post_all l : within R (post_all l).
Proof. unfold post_all. within_solve. Qed.
Hint Resolve sc_post_all : within.

Lemma sc_load_promise p : within R (load_promise p).
Proof. unfold load_promise. within_solve. Qed.
Lemma sc_store_promise p v : within R (store_promise p v).
Proof. unfold store_promise. within_solve. Qed.
Hint Resolve sc_load_promise sc_store_promise : within.

Lemma sc_update_promise p f : within R (update_promise p f).
Proof. unfold update_promise. within_solve. Qed.
Lemma sc_process_promise p : within R (process_promise p).
Proof. unfold process_promise. within_solve. Qed.
Lemma sc_slot_push s m : within R (slot_push s m).
Proof. unfold slot_push. within_solve. Qed.
Lemma sc_slot_pop s : within R (slot_pop s).
Proof. unfold slot_pop. within_solve. Qed.
Lemma sc_create_slot p : within R (create_slot p).
Proof. unfold create_slot. within_solve. Qed.
Lemma sc_destroy_slot s : within R (destroy_slot s).
Proof. unfold destroy_slot. within_solve. Qed.
Lemma sc_create_promise : within R create_promise.
Proof. unfold create_promise. within_solve. Qed.
Lemma sc_findProc p : within R (findProc p).
Proof. unfold findProc. within_solve. Qed.
Lemma sc_findProc_const p : within R (findProc_const p).
Proof. unfold findProc_const. within_solve. Qed.
Hint Resolve sc_slot_push sc_slot_pop sc_create_slot sc_destroy_slot sc_create_promise
  sc_findProc sc_findProc_const : within.

Lemma sc_queueResume p n : within R (queueResume p n).
Proof. apply sc_modify_queue. Qed.
Lemma sc_queueSend a m : within R (queueSend a m).
Proof. apply sc_modify_queue. Qed.
Lemma sc_waitOnQueue : within R waitOnQueue.
Proof. unfold waitOnQueue. within_solve. Qed.
Lemma sc_canQueue a : within R (canQueue a).
Proof. unfold canQueue. within_solve. Qed.
Lemma sc_makeSendAddress p Y k : within R (makeSendAddress p Y k).
Proof. unfold makeSendAddress. within_solve. Qed.
Hint Resolve sc_queueResume sc_queueSend sc_waitOnQueue : within.

Lemma sc_process_send a m : within R (process_send a m).
Proof. unfold process_send. within_solve. Qed.
Lemma sc_destroy_member m : within R (destroy_member m).
Proof. unfold destroy_member. within_solve. Qed.
Lemma sc_run_cleanup op : within R (run_cleanup op).
Proof. unfold run_cleanup. within_solve. Qed.
Hint Resolve sc_destroy_member sc_run_cleanup : within.
Lemma sc_delete_task t : within R (delete_task t).
Proof. unfold delete_task. within_solve. Qed.

Lemma sc_queue_empty s : within R (queue_empty s).
Proof. within_solve. Qed.
Hint Resolve sc_queue_empty : within.
Lemma sc_get_optional s : within R (get_optional s).
Proof. unfold get_optional. within_solve. Qed.
Hint Resolve sc_get_optional : within.
Lemma sc_any_ready l : within R (any_ready l).
Proof. induction l; within_solve. Qed.
Lemma sc_get_vals l : within R (get_vals l).
Proof. induction l; within_solve. Qed.
Hint Resolve sc_any_ready sc_get_vals : within.
Lemma sc_await_ready w : within R (await_ready w).
Proof. induction w; within_solve. Qed.
Lemma sc_await_resume w : within R (await_resume w).
Proof. induction w; within_solve. Qed.
Lemma sc_await_resume_message w : within R (await_resume_message w).
Proof.
  unfold await_resume_message. apply within_bind; [apply _|apply sc_await_resume|].
  intros [|[v|] l]; within_solve.
Qed.
End same_core_ops.

#[export] Hint Resolve sc_load_rp sc_load_obj sc_load_slot sc_store_slot sc_post_all
  sc_load_promise sc_store_promise sc_update_promise sc_process_promise sc_slot_push
  sc_slot_pop sc_create_slot sc_destroy_slot sc_create_promise sc_findProc sc_findProc_const
  sc_queueResume sc_queueSend sc_waitOnQueue sc_canQueue sc_makeSendAddress sc_process_send
  sc_destroy_member sc_run_cleanup sc_delete_task sc_queue_empty sc_get_optional sc_any_ready
  sc_get_vals sc_await_ready sc_await_resume
  sc_await_resume_message : within.

(** ** Well-formed contexts *)

Section wf.
Context {T : Type} `{P : Program} `{IO : IoService Handler} `{TM : !TaskModel T}.
Implicit Types c : Context T.

(** Running processes waiting to be destroyed: those of [extra], which the loop
    has taken off the list, and those still on it. *)
Definition doomed (extra : list Ptr) c : list Ptr := extra ++ (toDestroy_ c).*1.

Record wf_with (extra : list Ptr) c : Prop := {
  (* an occupied entry owns a running process that is not dead and knows it *)
  wf_live i r : processes_ c !! i = Some (Some r) →
    ∃ rp, rps c !! r = Some rp ∧ N.to_nat (idx_ (pid rp)) = i ∧ dead rp = false;
  (* a tombstone marks an empty entry, once *)
  wf_tomb t : t ∈ tombstones_ c → processes_ c !! N.to_nat (idx_ t) = Some None;
  wf_tomb_nodup : NoDup ((λ t, N.to_nat (idx_ t)) <$> tombstones_ c);
  (* every running process is in its entry, or dead and about to be destroyed *)
  wf_rp r rp : rps c !! r = Some rp →
    processes_ c !! N.to_nat (idx_ (pid rp)) = Some (Some r) ∨
    dead rp = true ∧ r ∈ doomed extra c;
  wf_doomed r : r ∈ doomed extra c → ∃ rp, rps c !! r = Some rp ∧ dead rp = true;
  wf_doomed_nodup : NoDup (doomed extra c);
  (* each running process owns one process object, which has its pid *)
  wf_obj r rp : rps c !! r = Some rp → pid_ <$> objs c !! process_ptr rp = Some (pid rp);
  wf_obj_inj r1 r2 rp1 rp2 : rps c !! r1 = Some rp1 → rps c !! r2 = Some rp2 →
    process_ptr rp1 = process_ptr rp2 → r1 = r2;
  (* allocation *)
  wf_next r rp : rps c !! r = Some rp →
    (r < next_ptr c)%positive ∧ (process_ptr rp < next_ptr c)%positive;
  (* a version is at most the number of allocations *)
  wf_version_rp r rp : rps c !! r = Some rp → (version_ (pid rp) < N.pos (next_ptr c))%N;
  wf_version_tomb t : t ∈ tombstones_ c → (version_ t < N.pos (next_ptr c))%N;
}.

Definition wf c : Prop := wf_with [] c.

Lemma new_context_wf i : wf (new_context i).
Proof.
  split; unfold new_context; simpl; try (intros; set_solver); try constructor;
    intros; by simplify_map_eq.
Qed.

Lemma wf_quiet extra c c' : wf_with extra c → quiet (next_ptr c) c c' → wf_with extra c'.
Proof.
  intros W [Ht Hp Hd Hr Ho Hn _]. destruct W.
  split; unfold doomed in *; rewrite ?Ht, ?Hp, ?Hd, ?Hr; try done.
  - intros r rp Hrp. rewrite Ho; [by eauto|by eapply wf_next0].
  - intros r rp Hrp. destruct (wf_next0 r rp Hrp). split; lia.
  - intros r rp Hrp. specialize (wf_version_rp0 r rp Hrp). lia.
  - intros t Htt. specialize (wf_version_tomb0 t Htt). lia.
Qed.

(** *** Finding *)

(** What [findProc] finds, as a function of the state. *)
Definition lookup_proc c (p : Pid) : option Ptr :=
  match processes_ c !! N.to_nat (idx_ p) with
  | Some (Some r) =>
      match rps c !! r with
      | Some rp => if bool_decide (version_ (pid rp) = version_ p) then Some r else None
      | None => None
      end
  | _ => None
  end.

Lemma findProc_eq extra c p : wf_with extra c → findProc p c = Ok (lookup_proc c p) c.
Proof.
  intros W. unfold findProc, lookup_proc, bind, gets. simpl.
  case_bool_decide as Hlen.
  - rewrite lookup_ge_None_2; [done|lia].
  - destruct (processes_ c !! _) as [[r|]|] eqn:Hi; try done.
    destruct (wf_live _ _ W _ _ Hi) as (rp & Hrp & _).
    unfold load_rp, deref. by rewrite Hrp.
Qed.

Lemma lookup_proc_Some extra c p r :
  wf_with extra c →
  lookup_proc c p = Some r ↔
  processes_ c !! N.to_nat (idx_ p) = Some (Some r) ∧ ∃ rp, rps c !! r = Some rp ∧ pid rp = p.
Proof.
  intros W. unfold lookup_proc. split.
  - destruct (processes_ c !! _) as [[r'|]|] eqn:Hi; try done.
    destruct (rps c !! r') as [rp|] eqn:Hrp; [|done].
    case_bool_decide as Hv; [|done]. intros [= ->]. split; [done|].
    exists rp. split; [done|].
    destruct (wf_live _ _ W _ _ Hi) as (rp' & Hrp' & Hidx & _). simplify_eq.
    destruct (pid rp), p; simpl in *; f_equal; [lia|done].
  - intros (-> & rp & -> & <-). by rewrite bool_decide_eq_true_2.
Qed.

(** [p] is the pid of a running process that is not dead. *)
Definition live c (p : Pid) : Prop := is_Some (lookup_proc c p).

#[global] Instance live_dec c p : Decision (live c p).
Proof. unfold live. apply _. Defined.

(** *** Killing *)

(** The state after process [r] with pid [p] is moved to [toDestroy_]. *)
Definition killed (p : Pid) (reason : string) (r : Ptr) (rp : RunningProcess T) c : Context T :=
  mkContext (tombstones_ c ++ [p]) (<[N.to_nat (idx_ p) := None]> (processes_ c))
    (toDestroy_ c ++ [(r, reason)]) (queue_ c) (ioService_ c)
    (<[r := set_dead true rp]> (rps c)) (objs c) (slots c) (promises c) (next_ptr c).

Lemma addtoDestroy_eq extra c p reason :
  wf_with extra c →
  addtoDestroy p reason c =
    match lookup_proc c p with
    | None => Ok tt c
    | Some r => match rps c !! r with
                | Some rp => Ok tt (killed p reason r rp c)
                | None => Halt (Undefined UseAfterFree)
                end
    end.
Proof.
  intros W. unfold addtoDestroy. rewrite (bind_run _ _ _ _ _ (findProc_eq _ _ _ W)).
  destruct (lookup_proc c p) as [r|]; [|done].
  unfold update_rp, load_rp, deref, bind. by destruct (rps c !! r).
Qed.

(** The identity of a running process: what killing and resuming it keep. *)
Lemma killed_rp_lookup p reason r rp c r' rp' :
  rps (killed p reason r rp c) !! r' = Some rp' →
  rps c !! r = Some rp →
  ∃ rp0, rps c !! r' = Some rp0 ∧ pid rp' = pid rp0 ∧ process_ptr rp' = process_ptr rp0 ∧
         (r' = r ∧ dead rp' = true ∨ r' ≠ r ∧ rp' = rp0).
Proof.
  simpl. intros [[<- <-]|[? H]]%lookup_insert_Some Hr; [exists rp|exists rp'];
    split_and!; auto.
Qed.

Lemma killed_wf extra c p reason r rp :
  wf_with extra c → lookup_proc c p = Some r → rps c !! r = Some rp →
  wf_with extra (killed p reason r rp c).
Proof.
  intros W Hl Hr.
  apply (lookup_proc_Some _ _ _ _ W) in Hl as (Hi & rp0 & Hr' & Hp).
  assert (rp0 = rp) as -> by congruence. rename rp into rp0. subst p.
  destruct (wf_live _ _ W _ _ Hi) as (rp & Hrp & _ & Hdead).
  assert (rp = rp0) as -> by congruence. clear Hr' Hrp.
  set (i := N.to_nat (idx_ (pid rp0))) in *.
  assert (Hnd : r ∉ doomed extra c).
  { intros Hd. destruct (wf_doomed _ _ W _ Hd) as (? & ? & ?). congruence. }
  assert (Hdoom : doomed extra (killed (pid rp0) reason r rp0 c) = doomed extra c ++ [r]).
  { unfold doomed. simpl. by rewrite fmap_app, (assoc_L (++)). }
  assert (Hlen : i < length (processes_ c)) by by eapply lookup_lt_Some.
  split; rewrite ?Hdoom.
  - intros j r' Hj. simpl in Hj. apply list_lookup_insert_Some in Hj as [(<- & [=] & _)|[Hne Hj]].
    destruct (wf_live _ _ W _ _ Hj) as (rp & Hrp & Hidx & Hd).
    exists rp. simpl. rewrite lookup_insert_ne; [done|]. intros <-.
    assert (rp = rp0) as -> by congruence. done.
  - intros t Ht. simpl in *. apply elem_of_app in Ht as [Ht| ->%list_elem_of_singleton].
    + pose proof (wf_tomb _ _ W _ Ht) as Hn.
      rewrite list_lookup_insert_ne; [done|]. intros Heq. fold i in Heq. congruence.
    + by apply list_lookup_insert_eq.
  - simpl. rewrite fmap_app. apply NoDup_app. split_and!; [apply W| |apply NoDup_singleton].
    intros j (t & -> & Ht)%list_elem_of_fmap Hj%list_elem_of_singleton.
    pose proof (wf_tomb _ _ W _ Ht) as Hn. fold i in Hj. congruence.
  - intros r' rp' H'. destruct (killed_rp_lookup _ _ _ _ _ _ _ H' Hr)
      as (rp & Hrp & Hpid & _ & [[-> Hd]|[Hne ->]]).
    + right. split; [done|]. set_solver.
    + destruct (wf_rp _ _ W _ _ Hrp) as [Hl|[? ?]]; [left|right; set_solver].
      simpl. rewrite list_lookup_insert_ne; [done|]. fold i. intros Heq.
      rewrite <- Heq in Hl. congruence.
  - intros r' [Hd| ->%list_elem_of_singleton]%elem_of_app; simpl.
    + destruct (wf_doomed _ _ W _ Hd) as (rp & Hrp & ?).
      rewrite lookup_insert_ne; [by eauto|]. intros <-. congruence.
    + rewrite lookup_insert_eq. by eexists.
  - apply NoDup_app. split_and!; [apply W|set_solver|apply NoDup_singleton].
  - intros r' rp' H'. destruct (killed_rp_lookup _ _ _ _ _ _ _ H' Hr)
      as (rp & Hrp & -> & -> & _). by apply (wf_obj _ _ W _ _ Hrp).
  - intros r1 r2 rp1 rp2 H1 H2.
    destruct (killed_rp_lookup _ _ _ _ _ _ _ H1 Hr) as (? & ? & _ & -> & _).
    destruct (killed_rp_lookup _ _ _ _ _ _ _ H2 Hr) as (? & ? & _ & -> & _).
    by eapply wf_obj_inj.
  - intros r' rp' H'. destruct (killed_rp_lookup _ _ _ _ _ _ _ H' Hr)
      as (rp & Hrp & _ & -> & _). by apply (wf_next _ _ W _ _ Hrp).
  - intros r' rp' H'. destruct (killed_rp_lookup _ _ _ _ _ _ _ H' Hr)
      as (rp & Hrp & -> & _ & _). by apply (wf_version_rp _ _ W _ _ Hrp).
  - intros t [Ht| ->%list_elem_of_singleton]%elem_of_app; simpl.
    + by apply (wf_version_tomb _ _ W).
    + by apply (wf_version_rp _ _ W _ _ Hr).
Qed.
End wf.
