(* ===== verification/LifecycleFacts.v ===== *)
(** * Facts about spawning, killing and the operations of user code

    What each compound operation does to the process table, and the preorder
    [evolves]: well-formedness is kept and a retired pid stays retired. *)

From S2P Require Import Prelude.
From S2P Require Import BaseTypes.
From S2P Require Import Future.
From S2P Require Import Slot.
From S2P Require Import Waiting.
From S2P Require Import IoService.
From S2P Require Import Process.
From S2P Require Import Context.
From S2P Require Import Lifecycle.
From S2P Require Import ContextFacts.

(** ** Operations that leave the process table alone *)

Section quiet_ops.
Context {T : Type} `{P : Program} `{IO : IoService Handler} `{TM : !TaskModel T}.
Implicit Types c : Context T.

Lemma quiet_le (m n : Ptr) c c' : (m ≤ n)%positive → quiet n c c' → quiet m c c'.
Proof. intros ? []. split; try done. intros o ?. apply q_objs. lia. Qed.

Lemma q_of_sc {A} n (m : M (Context T) A) : within same_core m → within (quiet n) m.
Proof. apply within_mono. intros ??. apply same_core_quiet. Qed.
Hint Resolve q_of_sc : within.

Lemma q_update_obj n o f :
  (∀ p, pid_ (f p) = pid_ p) → within (quiet n) (update_obj (T:=T) o f).
Proof.
  intros Hf c c'. unfold update_obj, load_obj, store_obj, deref, bind, modify.
  destruct (objs c !! o) as [obj|] eqn:Ho; simpl; [|done]. intros [= <-].
  split; try done. simpl. intros o' _.
  destruct (decide (o = o')) as [<-|]; [|by rewrite lookup_insert_ne].
  rewrite lookup_insert_eq, Ho. simpl. by rewrite Hf.
Qed.

Lemma q_addKillOnDie n o b : within (quiet n) (update_obj (T:=T) o (addKillOnDie b)).
Proof. by apply q_update_obj. Qed.
Lemma q_add_member n o m : within (quiet n) (update_obj (T:=T) o (add_member m)).
Proof. by apply q_update_obj. Qed.
Hint Resolve q_addKillOnDie q_add_member : within.

Lemma q_link n this b : within (quiet n) (link (T:=T) this b).
Proof. unfold link. within_solve. Qed.
Hint Resolve q_link : within.

Lemma q_run_ctor_op n this op : within (quiet n) (run_ctor_op (T:=T) this op).
Proof. unfold run_ctor_op. within_solve. Qed.
Hint Resolve q_run_ctor_op : within.

Lemma q_modify_objs n f :
  (∀ c o, (o < n)%positive → f c !! o = objs c !! o) →
  within (quiet n) (modify (λ c : Context T, set_objs (f c) c)).
Proof. intros Hf. apply within_modify. intros c. split; try done. intros o Ho. simpl. by rewrite Hf. Qed.

Lemma q_store_obj n o p : (n ≤ o)%positive → within (quiet n) (store_obj (T:=T) o p).
Proof. intros. apply q_modify_objs. intros c o' ?. apply lookup_insert_ne. lia. Qed.

Lemma q_delete_process n o : (n ≤ o)%positive → within (quiet n) (delete_process (T:=T) o).
Proof.
  intros. unfold delete_process. within_solve.
  apply q_modify_objs. intros c o' ?. apply lookup_delete_ne. lia.
Qed.

(** A new process object gets the next address and the pid it was given. *)
Lemma make_process_spec cl a args c :
  post (λ o c', o = next_ptr c ∧ quiet (next_ptr c) c c' ∧ (o < next_ptr c')%positive ∧
                pid_ <$> objs c' !! o = Some (args_pid args))
       (λ _ c', quiet (next_ptr c) c c')
       (make_process (T:=T) cl a args c).
Proof.
  set (o := next_ptr c). set (obj := construct_Process cl args).
  set (c2 := set_objs (<[o := obj]> (objs c)) (set_next_ptr (Pos.succ o) c)).
  set (ctors := for_each (run_ctor_op (T:=T) o) (ctor cl a)).
  change (make_process cl a args c) with ((on_throw ctors (delete_process o) ;;; ret o) c2).
  assert (Hobj : pid_ obj = args_pid args).
  { unfold obj, construct_Process. by destruct (args_killOnDie args), (args_notifyOnDead args). }
  assert (H02 : quiet o c c2).
  { split; try done; simpl; [|lia]. intros o' ?. by rewrite lookup_insert_ne by lia. }
  assert (Hctors : ∀ n, within (quiet n) ctors) by (intros n; unfold ctors; within_solve).
  apply post_bind with (λ _, quiet (Pos.succ o) c2).
  - unfold on_throw. pose proof (Hctors (Pos.succ o) c2) as Hs. pose proof (Hctors o c2) as Ho.
    destruct (ctors c2) as [? c3|e c3|]; simpl in *; [by apply Hs| |done].
    pose proof (q_delete_process o o) as Hd. specialize (Hd ltac:(lia) c3).
    destruct (delete_process o c3) as [? c4|? ?|]; simpl in *; try done.
    etrans; [exact H02|]. etrans; [by apply Ho|by apply Hd].
  - intros _ c3 Hq. simpl. split_and!; [done| | |].
    + etrans; [exact H02|]. apply quiet_le with (Pos.succ o); [lia|done].
    + pose proof (q_next _ _ _ Hq). simpl in *. lia.
    + rewrite (q_objs _ _ _ Hq) by lia. simpl. rewrite lookup_insert_eq. simpl. by rewrite Hobj.
Qed.
End quiet_ops.

#[export] Hint Resolve q_of_sc q_addKillOnDie q_add_member q_link q_run_ctor_op : within.

(** ** Spawning *)

Section spawn.
Context {T : Type} `{P : Program} `{IO : IoService Handler} `{TM : !TaskModel T}.
Implicit Types c : Context T.

(** An entry set aside for [p]: empty and not a tombstone. *)
Record reserved c (p : Pid) : Prop := {
  rs_entry : processes_ c !! N.to_nat (idx_ p) = Some None;
  rs_tomb t : t ∈ tombstones_ c → N.to_nat (idx_ t) ≠ N.to_nat (idx_ p);
  rs_version : (version_ p ≤ N.pos (next_ptr c))%N;
}.

(** [nextPid] reuses the most recent tombstone with the next version, or
    extends the table. *)
Inductive took c : Pid → Context T → Prop :=
  | took_tombstone ts t :
      tombstones_ c = ts ++ [t] →
      took c (mkPid (idx_ t) (succ64 (version_ t))) (set_tombstones ts c)
  | took_new :
      tombstones_ c = [] →
      took c (mkPid (N.of_nat (length (processes_ c))) 0)
        (set_processes (processes_ c ++ [None]) c).

Lemma nextPid_took c : ∃ p c', nextPid c = Ok p c' ∧ took c p c'.
Proof.
  unfold nextPid, bind, gets, modify, ret.
  destruct (last (tombstones_ c)) as [t|] eqn:Hl.
  - destruct (last_snoc_inv _ _ Hl) as [ts Hts].
    eexists _, _. split; [done|]. rewrite Hts, pop_back_snoc. by constructor.
  - apply last_None in Hl. eexists _, _. split; [done|]. simpl. rewrite length_app. simpl.
    replace (length (processes_ c) + 1 - 1) with (length (processes_ c)) by lia.
    by constructor.
Qed.

Lemma succ64_le n : (succ64 n ≤ n + 1)%N.
Proof. unfold succ64, wrap64. apply N.Div0.mod_le. Qed.

Lemma took_wf extra c p c' : wf_with extra c → took c p c' → wf_with extra c' ∧ reserved c' p.
Proof.
  intros W [ts t Hts|Hts].
  - assert (Hin : ∀ t', t' ∈ ts → t' ∈ tombstones_ c) by (rewrite Hts; set_solver).
    assert (Ht : t ∈ tombstones_ c) by (rewrite Hts; set_solver).
    pose proof (wf_tomb_nodup _ _ W) as Hnd.
    rewrite Hts, fmap_app in Hnd. apply NoDup_app in Hnd as (Hnd & Hdisj & _).
    split; split; simpl; try apply W; try done.
    + intros t' ?. apply (wf_tomb _ _ W). auto.
    + intros t' ?. apply (wf_version_tomb _ _ W). auto.
    + intros t' Ht' Heq. apply (Hdisj (N.to_nat (idx_ t'))).
      * apply list_elem_of_fmap. by exists t'.
      * rewrite Heq. simpl. left.
    + pose proof (succ64_le (version_ t)). pose proof (wf_version_tomb _ _ W t Ht). lia.
  - split; split; simpl; rewrite ?Hts; try apply W; try done; try (intros; set_solver).
    + intros i r Hi. apply lookup_app_Some in Hi as [Hi|[_ Hi]]; [by apply W|].
      by apply list_lookup_singleton_Some in Hi as [_ ?].
    + apply NoDup_nil_2.
    + intros r rp Hrp. destruct (wf_rp _ _ W r rp Hrp) as [Hi|?]; [left|by right].
      by apply lookup_app_l_Some.
    + rewrite lookup_app_r by lia. by rewrite Nat2N.id, Nat.sub_diag.
Qed.

Lemma reserved_quiet n c c' p : quiet n c c' → reserved c p → reserved c' p.
Proof. intros [Ht Hp _ _ _ Hn] []. split; rewrite ?Ht, ?Hp; try done. lia. Qed.

(** A state where process [r] has been put in the entry of its pid [p]. *)
Record registered c (p : Pid) (r : Ptr) (rp : RunningProcess T) c' : Prop := {
  rg_tombstones : tombstones_ c' = tombstones_ c;
  rg_processes : processes_ c' = <[N.to_nat (idx_ p) := Some r]> (processes_ c);
  rg_toDestroy : toDestroy_ c' = toDestroy_ c;
  rg_rps : rps c' = <[r := rp]> (rps c);
  rg_objs : objs c' = objs c;
  rg_pid : pid rp = p;
  rg_dead : dead rp = false;
  rg_obj : pid_ <$> objs c !! process_ptr rp = Some p;
  rg_obj_new r' rp' : rps c !! r' = Some rp' → process_ptr rp' ≠ process_ptr rp;
  rg_fresh : (next_ptr c ≤ r < next_ptr c')%positive;
  rg_fresh_obj : (process_ptr rp < next_ptr c')%positive;
  rg_version : (version_ p < N.pos (next_ptr c))%N;
  rg_io : ioService_ c' = ioService_ c;
  rg_queue : queue_ c' = queue_ c ++ [mkItem p (Some 0%N) None];
  rg_initial : lastWaiting rp = None ∧ resumes rp = 0%N;
}.

Lemma registered_wf extra c p r rp c' :
  wf_with extra c → reserved c p → registered c p r rp c' → wf_with extra c'.
Proof.
  intros W [Hentry Htomb _] [Ht Hp Hd Hr Ho Hpid Hdead Hobj Hnew Hfr Hfo Hv _ _ _].
  assert (Hrnone : rps c !! r = None).
  { destruct (rps c !! r) as [rp'|] eqn:H'; [|done].
    destruct (wf_next _ _ W _ _ H'). lia. }
  assert (Hdoom : doomed extra c' = doomed extra c) by (unfold doomed; by rewrite Hd).
  assert (Hother : ∀ r' rp', rps c' !! r' = Some rp' →
    r' = r ∧ rp' = rp ∨ r' ≠ r ∧ rps c !! r' = Some rp').
  { intros r' rp'. rewrite Hr. intros [[-> ->]|[? ?]]%lookup_insert_Some; auto. }
  assert (Hlen : N.to_nat (idx_ p) < length (processes_ c)) by by eapply lookup_lt_Some.
  split; rewrite ?Hdoom, ?Ht.
  - intros i r'. rewrite Hp. intros [(<- & [= <-] & _)|[Hne Hi]]%list_lookup_insert_Some.
    + exists rp. rewrite Hr, lookup_insert_eq. by rewrite Hpid.
    + destruct (wf_live _ _ W _ _ Hi) as (rp' & Hrp' & ? & ?). exists rp'.
      rewrite Hr, lookup_insert_ne; [done|congruence].
  - intros t Hin. rewrite Hp, list_lookup_insert_ne; [by apply (wf_tomb _ _ W)|].
    intros Heq. by apply (Htomb t).
  - apply W.
  - intros r' rp' [[-> ->]|[Hne Hrp]]%Hother.
    + left. rewrite Hp, Hpid. by apply list_lookup_insert_eq.
    + destruct (wf_rp _ _ W _ _ Hrp) as [Hi|?]; [left|by right].
      rewrite Hp, list_lookup_insert_ne; [done|]. intros Heq. congruence.
  - intros r' Hin. destruct (wf_doomed _ _ W _ Hin) as (rp' & Hrp' & ?).
    exists rp'. rewrite Hr, lookup_insert_ne; [done|congruence].
  - apply W.
  - intros r' rp' [[-> ->]|[Hne Hrp]]%Hother; rewrite Ho; [by rewrite Hpid|].
    by apply (wf_obj _ _ W _ _ Hrp).
  - intros r1 r2 rp1 rp2 [[-> ->]|[? H1]]%Hother [[-> ->]|[? H2]]%Hother Heq; try done.
    + by apply Hnew in H2.
    + by apply Hnew in H1.
    + by eapply wf_obj_inj.
  - intros r' rp' [[-> ->]|[Hne Hrp]]%Hother; [lia|].
    destruct (wf_next _ _ W _ _ Hrp). lia.
  - intros r' rp' [[-> ->]|[Hne Hrp]]%Hother; [rewrite Hpid; lia|].
    pose proof (wf_version_rp _ _ W _ _ Hrp). lia.
  - intros t Hin. pose proof (wf_version_tomb _ _ W _ Hin). lia.
Qed.

(** The outcomes of [spawnArgs] once its pid is set aside: the process is
    registered, or nothing in the process table changes. *)
Definition spawn_post (p : Pid) c (q : Pid) c' : Prop :=
  q = p ∧ ∃ c2 r rp, quiet (next_ptr c) c c2 ∧ registered c2 p r rp c'.

Lemma spawnArgs_spec extra cl a args c :
  wf_with extra c → reserved c (args_pid args) →
  post (spawn_post (args_pid args) c) (λ _, quiet (next_ptr c) c) (spawnArgs cl a args c).
Proof.
  intros W Hres. unfold spawnArgs. eapply post_bind; [apply make_process_spec|].
  intros o c2 (-> & Hq & Hlt & Hobj). set (o := next_ptr c) in *.
  destruct (objs c2 !! o) as [obj|] eqn:Hobj'; [|done].
  assert (Hld : load_obj o c2 = Ok obj c2) by (unfold load_obj, deref; by rewrite Hobj').
  rewrite (bind_run _ _ _ _ _ Hld).
  destruct (task_done _).
  - eapply post_bind; [apply (post_within_trans (quiet o)); [exact Hq|auto with within]|].
    intros u c3 Hq3. simpl in Hq3.
    eapply post_bind; [apply (post_within_trans (quiet o)); [exact Hq3|]|].
    { apply q_delete_process. lia. }
    by intros u4 c4 Hq4.
  - assert (Hres2 : reserved c2 (args_pid args)) by by eapply reserved_quiet.
    destruct Hres2 as [Hentry Htomb _].
    set (r := next_ptr c2).
    set (rp := mkRunningProcess false (args_pid args) o (task_start cl a obj) None 0).
    unfold bind at 1, new_ptr. unfold bind at 1, store_rp, modify.
    unfold bind at 1, assign_process. unfold bind at 1, gets. simpl. rewrite Hentry.
    simpl. split; [done|]. exists c2, r, rp. split; [done|].
    split; try done; simpl; [| |lia| |].
    + by rewrite Hobj', <- Hobj.
    + intros r' rp' Hrp'. pose proof (wf_quiet _ _ _ W Hq) as W2.
      rewrite (q_rps _ _ _ Hq) in Hrp'. destruct (wf_next _ _ W _ _ Hrp'). unfold o. lia.
    + unfold o in *. lia.
    + pose proof (rs_version _ _ Hres). unfold o in *. lia.
Qed.

Lemma spawnWith_spec extra (f : ProcessArgs → ProcessArgs) cl a c :
  (∀ x, args_pid (f x) = args_pid x) →
  wf_with extra c →
  ∃ p c1, took c p c1 ∧
    post (spawn_post p c1) (λ _, quiet (next_ptr c1) c1) (spawnWith f cl a c).
Proof.
  intros Hf W. destruct (nextPid_took c) as (p & c1 & Hn & Htook).
  exists p, c1. split; [done|]. unfold spawnWith. rewrite (bind_run _ _ _ _ _ Hn).
  destruct (took_wf _ _ _ _ W Htook) as [W1 Hres].
  pose proof (spawnArgs_spec extra cl a (f (new_args p)) c1 W1) as Hs.
  rewrite Hf in Hs. by apply Hs.
Qed.
End spawn.

(** ** Evolution of the process table *)

Section evolution.
Context {T : Type} `{P : Program} `{IO : IoService Handler} `{TM : !TaskModel T}.
Implicit Types c : Context T.

(** [p] was the pid of a process of an entry that has moved on: what the entry
    holds or will be reused from has a later version, or [p]'s own. *)
Record retired c (p : Pid) : Prop := {
  rt_len : N.to_nat (idx_ p) < length (processes_ c);
  rt_entry r rp : processes_ c !! N.to_nat (idx_ p) = Some (Some r) → rps c !! r = Some rp →
    (version_ p < version_ (pid rp))%N;
  rt_tomb t : t ∈ tombstones_ c → N.to_nat (idx_ t) = N.to_nat (idx_ p) →
    (version_ p ≤ version_ t)%N;
}.

Definition issued c (p : Pid) : Prop := live c p ∨ retired c p.

(** Fewer than [2^64] allocations so far: no version has wrapped around. *)
Definition unwrapped c : Prop := (N.pos (next_ptr c) < u64_modulus)%N.

Lemma retired_not_live extra c p : wf_with extra c → retired c p → lookup_proc c p = None.
Proof.
  intros W Hr. apply eq_None_not_Some. intros [r Hl].
  apply (lookup_proc_Some _ _ _ _ W) in Hl as (Hi & rp & Hrp & <-).
  pose proof (rt_entry _ _ Hr _ _ Hi Hrp). lia.
Qed.

Definition evolves (extra : list Ptr) c c' : Prop :=
  wf_with extra c →
  wf_with extra c' ∧ (next_ptr c ≤ next_ptr c')%positive ∧
  (unwrapped c' → (∀ p, retired c p → retired c' p) ∧ (∀ p, issued c p → issued c' p)).

#[global] Instance evolves_preorder extra : PreOrder (evolves extra).
Proof.
  split.
  - intros c W. split_and!; [done|lia|done].
  - intros c1 c2 c3 H12 H23 W1. destruct (H12 W1) as (W2 & Hn12 & Hr12).
    destruct (H23 W2) as (W3 & Hn23 & Hr23). split_and!; [done|lia|].
    intros Hu. assert (Hu2 : unwrapped c2) by (unfold unwrapped in *; lia).
    destruct (Hr12 Hu2), (Hr23 Hu). auto.
Qed.

Lemma quiet_retired n c c' p : quiet n c c' → retired c p → retired c' p.
Proof. intros [Ht Hp _ Hr _ _ _] []. split; rewrite ?Ht, ?Hp, ?Hr; done. Qed.

Lemma quiet_lookup n c c' p : quiet n c c' → lookup_proc c' p = lookup_proc c p.
Proof. intros [_ Hp _ Hr _ _ _]. unfold lookup_proc. by rewrite Hp, Hr. Qed.

Lemma quiet_evolves extra c c' : quiet (next_ptr c) c c' → evolves extra c c'.
Proof.
  intros Hq W. split_and!; [by eapply wf_quiet|apply Hq|]. intros _.
  assert (Hr : ∀ p, retired c p → retired c' p) by (intros p; by eapply quiet_retired).
  split; [done|]. intros p [Hl|?]; [left|right; auto].
  unfold live. by rewrite (quiet_lookup _ _ _ _ Hq).
Qed.

Lemma ev_of_quiet {A} extra (m : M (Context T) A) :
  (∀ n, within (quiet n) m) → within (evolves extra) m.
Proof. intros Hm c c' Hf. by apply quiet_evolves, Hm. Qed.

Lemma ev_of_sc {A} extra (m : M (Context T) A) :
  within same_core m → within (evolves extra) m.
Proof. intros Hm. apply ev_of_quiet. intros n. by apply q_of_sc. Qed.

Lemma killed_evolves extra c p reason r rp :
  lookup_proc c p = Some r → rps c !! r = Some rp →
  evolves extra c (killed p reason r rp c).
Proof.
  intros Hl Hr W. pose proof (killed_wf _ _ _ reason _ _ W Hl Hr) as W'.
  split_and!; [done|done|]. intros _.
  apply (lookup_proc_Some _ _ _ _ W) in Hl as (Hi & rp' & Hr' & Hp).
  assert (rp' = rp) as -> by congruence. clear Hr'.
  assert (Hret : ∀ q, retired c q → retired (killed p reason r rp c) q).
  { intros q [Hlen He Ht]. split; simpl; [by rewrite length_insert| |].
    - intros r' rp' [(? & ? & _)|[Hne H']]%list_lookup_insert_Some; [done|].
      intros [[<- <-]|[? Hrp']]%lookup_insert_Some; [by apply (He r rp)|by eapply He].
    - intros t [Hin| ->%list_elem_of_singleton]%elem_of_app Heq; [by apply Ht|].
      rewrite <- Heq in He. specialize (He _ _ Hi Hr). rewrite Hp in He. lia. }
  split; [done|]. intros q [Hlq|?]; [|right; auto].
  destruct Hlq as [rq Hlq].
  apply (lookup_proc_Some _ _ _ _ W) in Hlq as (Hiq & rpq & Hrq & Hq).
  destruct (decide (N.to_nat (idx_ q) = N.to_nat (idx_ p))) as [Heq|Hne].
  - right. assert (q = p) as ->.
    { rewrite Heq in Hiq. congruence. }
    split; simpl.
    + rewrite length_insert. by eapply lookup_lt_Some.
    + intros r' rp' [(? & ? & _)|[? _]]%list_lookup_insert_Some; done.
    + intros t [Hin| ->%list_elem_of_singleton]%elem_of_app Ht; [|lia].
      pose proof (wf_tomb _ _ W _ Hin). congruence.
  - left. unfold live. exists rq. apply (lookup_proc_Some _ _ _ _ W'). simpl. split.
    + by rewrite list_lookup_insert_ne.
    + exists rpq. rewrite lookup_insert_ne; [done|]. intros <-.
      assert (rpq = rp) as -> by congruence. congruence.
Qed.

Lemma ev_addtoDestroy extra p reason : within (evolves extra) (addtoDestroy (T:=T) p reason).
Proof.
  intros c c' Hf W. rewrite (addtoDestroy_eq _ _ _ _ W) in Hf.
  destruct (lookup_proc c p) as [r|] eqn:Hl; simplify_eq/=; [|by split_and!].
  destruct (rps c !! r) as [rp|] eqn:Hr; simplify_eq/=. by apply killed_evolves.
Qed.

(** *** Spawning evolves the table, and its pid is new *)

(** [q] has left the entry that [p] takes. *)
Definition precedes (q p : Pid) : Prop :=
  N.to_nat (idx_ q) = N.to_nat (idx_ p) → (version_ q < version_ p)%N.

Lemma took_retired extra c p c1 q :
  wf_with extra c → took c p c1 → unwrapped c → retired c q → retired c1 q ∧ precedes q p.
Proof.
  intros W Htook Hu [Hlen He Ht]. destruct Htook as [ts t Hts|Hts].
  - split.
    + split; simpl; [done..|]. intros t' Hin. apply Ht. rewrite Hts. set_solver.
    + intros Heq. simpl in *. assert (Hin : t ∈ tombstones_ c) by (rewrite Hts; set_solver).
      specialize (Ht t Hin (eq_sym Heq)). pose proof (wf_version_tomb _ _ W t Hin).
      unfold unwrapped in Hu. rewrite succ64_small by lia. lia.
  - split.
    + split; simpl; [rewrite length_app; lia| |by rewrite Hts in *].
      intros r rp Hi. apply He. rewrite lookup_app_l in Hi by done. done.
    + intros Heq. simpl in *. lia.
Qed.

Lemma took_live extra c p c1 q :
  wf_with extra c → took c p c1 → live c q →
  live c1 q ∧ N.to_nat (idx_ q) ≠ N.to_nat (idx_ p).
Proof.
  intros W Htook [r Hl]. destruct (took_wf _ _ _ _ W Htook) as [W1 _].
  apply (lookup_proc_Some _ _ _ _ W) in Hl as (Hi & Hrp).
  unfold live. destruct Htook as [ts t Hts|Hts].
  - split.
    + assert (lookup_proc (set_tombstones ts c) q = Some r) as ->; [|done].
      by apply (lookup_proc_Some _ _ _ _ W1).
    + simpl. intros Heq. assert (Hin : t ∈ tombstones_ c) by (rewrite Hts; set_solver).
      pose proof (wf_tomb _ _ W t Hin). congruence.
  - assert (Hlen : N.to_nat (idx_ q) < length (processes_ c)) by by eapply lookup_lt_Some.
    split; [|simpl; lia].
    assert (lookup_proc (set_processes (processes_ c ++ [None]) c) q = Some r) as ->; [|done].
    apply (lookup_proc_Some _ _ _ _ W1). simpl. by rewrite lookup_app_l.
Qed.

Lemma registered_retired extra c p r rp c' q :
  wf_with extra c → registered c p r rp c' → retired c q → precedes q p → retired c' q.
Proof.
  intros W [Ht Hp _ Hr _ Hpid _ _ _ Hfr _ _ _ _ _] [Hlen He Htq] Hpre.
  split; rewrite ?Ht, ?Hp; [by rewrite length_insert| |done].
  intros r' rp' [(Heq & [= <-] & _)|[Hne Hi]]%list_lookup_insert_Some; rewrite Hr.
  - rewrite lookup_insert_eq. intros [= <-]. rewrite Hpid. by apply Hpre.
  - intros [[<- _]|[_ Hrp]]%lookup_insert_Some; [|by eapply He].
    destruct (wf_live _ _ W _ _ Hi) as (rq & Hrq & _). pose proof (wf_next _ _ W _ _ Hrq). lia.
Qed.

Lemma registered_live extra c p r rp c' q :
  wf_with extra c → wf_with extra c' → registered c p r rp c' → live c q →
  N.to_nat (idx_ q) ≠ N.to_nat (idx_ p) → live c' q.
Proof.
  intros W W' [_ Hp _ Hr _ _ _ _ _ Hfr _ _ _ _ _] [rq Hl] Hne.
  apply (lookup_proc_Some _ _ _ _ W) in Hl as (Hi & rpq & Hrpq & Hq).
  exists rq. apply (lookup_proc_Some _ _ _ _ W'). rewrite Hp, Hr. split.
  - by rewrite list_lookup_insert_ne.
  - exists rpq. rewrite lookup_insert_ne; [done|]. intros <-.
    pose proof (wf_next _ _ W _ _ Hrpq). lia.
Qed.

(** The pid a successful spawn returns: live afterwards, never issued before. *)
Definition spawned extra c (p : Pid) c' : Prop :=
  evolves extra c c' ∧ live c' p ∧ (unwrapped c' → ¬ issued c p).

Lemma registered_evolves extra c p c1 c2 r rp c' :
  wf_with extra c → took c p c1 → quiet (next_ptr c1) c1 c2 → registered c2 p r rp c' →
  spawned extra c p c'.
Proof.
  intros W Htook Hq Hreg.
  destruct (took_wf _ _ _ _ W Htook) as [W1 Hres1].
  pose proof (wf_quiet _ _ _ W1 Hq) as W2.
  pose proof (reserved_quiet _ _ _ _ Hq Hres1) as Hres2.
  pose proof (registered_wf _ _ _ _ _ _ W2 Hres2 Hreg) as W'.
  assert (Hn : (next_ptr c ≤ next_ptr c')%positive).
  { destruct Htook; pose proof (q_next _ _ _ Hq); pose proof (rg_fresh _ _ _ _ _ Hreg);
      simpl in *; lia. }
  assert (Hu : unwrapped c' → unwrapped c) by (unfold unwrapped; lia).
  assert (Hret : unwrapped c' → ∀ q, retired c q → retired c' q ∧ precedes q p).
  { intros Huw q Hrq. destruct (took_retired _ _ _ _ _ W Htook (Hu Huw) Hrq). split; [|done].
    eapply registered_retired; [exact W2|done| |done]. by eapply quiet_retired. }
  split_and!.
  - intros _. split_and!; [done|done|]. intros Huw. split.
    + intros q Hrq. by apply Hret.
    + intros q [Hlq|Hrq]; [left|right; by apply Hret].
      destruct (took_live _ _ _ _ _ W Htook Hlq) as [Hl1 ?].
      eapply registered_live; [exact W2|exact W'|done| |done].
      unfold live. by rewrite (quiet_lookup _ _ _ _ Hq).
  - exists r. apply (lookup_proc_Some _ _ _ _ W'). destruct Hreg. split.
    + rewrite rg_processes0. apply list_lookup_insert_eq. by eapply lookup_lt_Some, Hres2.
    + exists rp. by rewrite rg_rps0, lookup_insert_eq.
  - intros Huw [Hlp|Hrp].
    + by destruct (took_live _ _ _ _ _ W Htook Hlp) as [_ ?].
    + destruct (Hret Huw p Hrp) as [_ Hpre]. specialize (Hpre eq_refl). lia.
Qed.

Lemma took_evolves extra c p c1 c' :
  wf_with extra c → took c p c1 → quiet (next_ptr c1) c1 c' → evolves extra c c'.
Proof.
  intros W Htook Hq _. destruct (took_wf _ _ _ _ W Htook) as [W1 _].
  assert (Hn : (next_ptr c ≤ next_ptr c')%positive)
    by (destruct Htook; apply (q_next _ _ _ Hq)).
  split_and!; [by eapply wf_quiet|done|]. intros Huw.
  assert (Hu : unwrapped c) by (unfold unwrapped in *; lia).
  assert (Hret : ∀ q, retired c q → retired c' q).
  { intros q Hrq. eapply quiet_retired; [done|].
    by destruct (took_retired _ _ _ _ _ W Htook Hu Hrq). }
  split; [done|]. intros q [Hlq|?]; [left|right; auto].
  destruct (took_live _ _ _ _ _ W Htook Hlq) as [Hl1 _].
  unfold live. by rewrite (quiet_lookup _ _ _ _ Hq).
Qed.

Lemma spawnWith_spawned extra (f : ProcessArgs → ProcessArgs) cl a c :
  (∀ x, args_pid (f x) = args_pid x) → wf_with extra c →
  post (spawned extra c) (λ _, evolves extra c) (spawnWith f cl a c).
Proof.
  intros Hf W. destruct (spawnWith_spec extra f cl a c Hf W) as (p & c1 & Htook & Hpost).
  eapply post_mono; [exact Hpost| |].
  - intros q c' (-> & c2 & r & rp & Hq & Hreg). by eapply registered_evolves.
  - intros e c' Hq. by eapply took_evolves.
Qed.

Lemma ev_spawnWith extra (f : ProcessArgs → ProcessArgs) cl a :
  (∀ x, args_pid (f x) = args_pid x) → within (evolves extra) (spawnWith f cl a).
Proof.
  intros Hf c c' Hfin W. pose proof (spawnWith_spawned extra f cl a c Hf W) as Hp.
  destruct (spawnWith f cl a c); simplify_eq/=; [by apply Hp|by apply Hp].
Qed.
(** *** What code running inside a process does

    It evolves the table, frees no running process, and the io_service is only
    handed continuations. *)

(** An update of a running process that keeps what identifies it. *)
Definition grown (rp rp' : RunningProcess T) : Prop :=
  pid rp' = pid rp ∧ process_ptr rp' = process_ptr rp ∧ (dead rp = true → dead rp' = true).

Record extends (extra : list Ptr) c c' : Prop := {
  ex_evolves : evolves extra c c';
  ex_rps r rp : wf_with extra c → rps c !! r = Some rp →
    ∃ rp', rps c' !! r = Some rp' ∧ grown rp rp';
  ex_io : wf_with extra c → posted_io (ioService_ c) (ioService_ c');
}.

#[global] Instance extends_preorder extra : PreOrder (extends extra).
Proof.
  split.
  - intros c. split; [done| |done]. intros r rp _ ?. by exists rp.
  - intros c1 c2 c3 [He12 Hr12 Hi12] [He23 Hr23 Hi23].
    split; [by etrans|intros r rp W1 H1|intros W1]; destruct (He12 W1) as (W2 & _ & _).
    + destruct (Hr12 _ _ W1 H1) as (rp2 & Hrp2 & ? & ? & ?).
      destruct (Hr23 _ _ W2 Hrp2) as (rp3 & Hrp3 & ? & ? & ?).
      exists rp3. unfold grown. split_and!; (congruence || auto).
    + etrans; [by apply Hi12|by apply Hi23].
Qed.

Lemma quiet_extends extra c c' : quiet (next_ptr c) c c' → extends extra c c'.
Proof.
  intros Hq. split; [by apply quiet_evolves| |intros _; apply Hq].
  intros r rp _ Hr. exists rp. by rewrite (q_rps _ _ _ Hq).
Qed.

Lemma ex_of_quiet {A} extra (m : M (Context T) A) :
  (∀ n, within (quiet n) m) → within (extends extra) m.
Proof. intros Hm c c' Hf. by apply quiet_extends, Hm. Qed.

Lemma ex_of_sc {A} extra (m : M (Context T) A) :
  within same_core m → within (extends extra) m.
Proof. intros Hm. apply ex_of_quiet. intros n. by apply q_of_sc. Qed.

Lemma ex_addtoDestroy extra p reason : within (extends extra) (addtoDestroy (T:=T) p reason).
Proof.
  intros c c' Hf. pose proof (ev_addtoDestroy extra p reason c c' Hf) as Hev.
  split; [done| |]; intros *; [intros W Hrp|intros W];
    rewrite (addtoDestroy_eq _ _ _ _ W) in Hf;
    destruct (lookup_proc c p) as [r0|] eqn:Hl; simplify_eq/=; try done; [| |];
    try (destruct (rps c !! r0) as [rp0|] eqn:Hr0; simplify_eq/=); [|by exists rp|done].
  destruct (decide (r0 = r)) as [<-|].
  - exists (set_dead true rp). rewrite lookup_insert_eq. by simplify_eq.
  - exists rp. by rewrite lookup_insert_ne.
Qed.

Lemma took_extends extra c p c1 c' :
  wf_with extra c → took c p c1 → quiet (next_ptr c1) c1 c' → extends extra c c'.
Proof.
  intros W Htook Hq. split; [by eapply took_evolves| |].
  - intros r rp _ Hr. exists rp. rewrite (q_rps _ _ _ Hq). by destruct Htook.
  - intros _. pose proof (q_io _ _ _ Hq). by destruct Htook.
Qed.

Lemma ex_spawnWith extra (f : ProcessArgs → ProcessArgs) cl a :
  (∀ x, args_pid (f x) = args_pid x) → within (extends extra) (spawnWith f cl a).
Proof.
  intros Hf c c' Hfin. split; [by eapply ev_spawnWith| |];
    [intros r rp W Hrp|intros W];
    destruct (spawnWith_spec extra f cl a c Hf W) as (p & c1 & Htook & Hpost);
    destruct (spawnWith f cl a c) as [q c2|e c2|]; simplify_eq/=.
  - destruct Hpost as (-> & c2 & r' & rp' & Hq & Hreg). exists rp. split; [|done].
    assert (Hrps : rps c2 !! r = Some rp) by (rewrite (q_rps _ _ _ Hq); by destruct Htook).
    rewrite (rg_rps _ _ _ _ _ Hreg), lookup_insert_ne; [done|]. intros <-.
    destruct (wf_next _ _ W _ _ Hrp). pose proof (rg_fresh _ _ _ _ _ Hreg).
    pose proof (q_next _ _ _ Hq). destruct Htook; simpl in *; lia.
  - by apply (took_extends _ _ _ _ _ W Htook Hpost).
  - destruct Hpost as (-> & c2 & r' & rp' & Hq & Hreg).
    rewrite (rg_io _ _ _ _ _ Hreg). pose proof (q_io _ _ _ Hq). by destruct Htook.
  - by apply (took_extends _ _ _ _ _ W Htook Hpost).
Qed.
End evolution.

(** ** Every operation of user code evolves the table *)

Section op_evolution.
Context {T : Type} `{P : Program} `{IO : IoService Handler} `{TM : !TaskModel T}.
Context (extra : list Ptr).
Local Abbreviation R := (extends (T:=T) extra).

Hint Resolve ex_of_sc ex_addtoDestroy : within.

Lemma ex_addKillOnDie o b : within R (update_obj o (addKillOnDie b)).
Proof. apply ex_of_quiet. intros n. by apply q_update_obj. Qed.
Lemma ex_link this b : within R (link this b).
Proof. apply ex_of_quiet. intros n. apply q_link. Qed.
Lemma ex_spawn cl a : within R (spawn cl a).
Proof. by apply ex_spawnWith. Qed.
Hint Resolve ex_addKillOnDie ex_link ex_spawn : within.
Lemma ex_spawnLink this cl a : within R (process_spawnLink this cl a).
Proof. unfold process_spawnLink. within_solve. by apply ex_spawnWith. Qed.
Lemma ex_spawnLinkNotify this s cl a : within R (process_spawnLinkNotify this s cl a).
Proof. unfold process_spawnLinkNotify. within_solve. by apply ex_spawnWith. Qed.
Lemma ex_queueKill p : within R (queueKill p).
Proof. apply ex_addtoDestroy. Qed.
Hint Resolve ex_spawnLink ex_spawnLinkNotify ex_queueKill : within.

Lemma ex_exec_op this {A} (o : Op A) : within R (exec_op this o).
Proof. destruct o; unfold exec_op; within_solve. Qed.

(** Updates of a running process that keep what identifies it. *)
Definition same_identity (rp rp' : RunningProcess T) : Prop :=
  dead rp' = dead rp ∧ pid rp' = pid rp ∧ process_ptr rp' = process_ptr rp.

Lemma updated_evolves c r rp rp' :
  rps c !! r = Some rp → same_identity rp rp' →
  evolves extra c (set_rps (<[r := rp']> (rps c)) c).
Proof.
  intros Hr (Hd & Hp & Ho) W.
  set (c' := set_rps _ c).
  assert (Hback : ∀ r1 rp1, rps c' !! r1 = Some rp1 →
    ∃ rp0, rps c !! r1 = Some rp0 ∧ same_identity rp0 rp1).
  { intros r1 rp1. simpl. intros [[<- <-]|[? ?]]%lookup_insert_Some; [by exists rp|].
    by exists rp1. }
  assert (Hforth : ∀ r1 rp0, rps c !! r1 = Some rp0 →
    ∃ rp1, rps c' !! r1 = Some rp1 ∧ same_identity rp0 rp1).
  { intros r1 rp0 H0. simpl. destruct (decide (r = r1)) as [<-|].
    - exists rp'. rewrite lookup_insert_eq. split; [done|].
      by assert (rp0 = rp) as -> by congruence.
    - exists rp0. by rewrite lookup_insert_ne. }
  assert (W' : wf_with extra c').
  { split.
    - intros i r1 Hi. destruct (wf_live _ _ W _ _ Hi) as (rp0 & H0 & Hidx & Hdead).
      destruct (Hforth _ _ H0) as (rp1 & H1 & Hd1 & Hp1 & _).
      exists rp1. by rewrite Hd1, Hp1.
    - apply W.
    - apply W.
    - intros r1 rp1 H1. destruct (Hback _ _ H1) as (rp0 & H0 & -> & -> & _).
      by apply (wf_rp _ _ W).
    - intros r1 Hin. destruct (wf_doomed _ _ W _ Hin) as (rp0 & H0 & Hdead).
      destruct (Hforth _ _ H0) as (rp1 & H1 & Hd1 & _). exists rp1. by rewrite Hd1.
    - apply W.
    - intros r1 rp1 H1. destruct (Hback _ _ H1) as (rp0 & H0 & _ & -> & ->).
      by apply (wf_obj _ _ W _ _ H0).
    - intros r1 r2 rp1 rp2 H1 H2.
      destruct (Hback _ _ H1) as (rp01 & H01 & _ & _ & ->).
      destruct (Hback _ _ H2) as (rp02 & H02 & _ & _ & ->).
      by apply (wf_obj_inj _ _ W _ _ _ _ H01 H02).
    - intros r1 rp1 H1. destruct (Hback _ _ H1) as (rp0 & H0 & _ & _ & ->).
      by apply (wf_next _ _ W _ _ H0).
    - intros r1 rp1 H1. destruct (Hback _ _ H1) as (rp0 & H0 & _ & -> & _).
      by apply (wf_version_rp _ _ W _ _ H0).
    - apply W. }
  split_and!; [done|simpl; lia|]. intros _.
  assert (Hret : ∀ p, retired c p → retired c' p).
  { intros p [Hlen He Ht]. split; [done| |done].
    intros r1 rp1 Hi H1. destruct (Hback _ _ H1) as (rp0 & H0 & _ & -> & _). by eapply He. }
  split; [done|]. intros p [[r1 Hl]|?]; [left|right; auto].
  apply (lookup_proc_Some _ _ _ _ W) in Hl as (Hi & rp0 & H0 & <-).
  destruct (Hforth _ _ H0) as (rp1 & H1 & _ & Hp1 & _).
  exists r1. apply (lookup_proc_Some _ _ _ _ W'). split; [done|]. by exists rp1.
Qed.

Lemma ex_update_rp r f : (∀ rp, same_identity rp (f rp)) → within R (update_rp r f).
Proof.
  intros Hf c c'. unfold update_rp, load_rp, store_rp, deref, bind, modify.
  destruct (rps c !! r) as [rp|] eqn:Hr; simpl; [|done]. intros [= <-].
  split; [by apply updated_evolves with rp| |done].
  intros r1 rp1 _ H1. simpl. destruct (decide (r = r1)) as [<-|].
  - exists (f rp). rewrite lookup_insert_eq. split; [done|].
    assert (rp1 = rp) as -> by congruence.
    destruct (Hf rp) as (? & ? & ?). unfold grown. split_and!; congruence.
  - exists rp1. by rewrite lookup_insert_ne.
Qed.
End op_evolution.

#[export] Hint Resolve ev_of_sc ev_addtoDestroy ex_of_sc ex_addtoDestroy ex_exec_op : within.
#[export] Hint Extern 1 (within _ (update_rp _ _)) =>
  apply ex_update_rp; intros ?; by split_and! : within.
