(* ===== verification/Destruction.v ===== *)
(** * The destruction loop

    [while (toDestroy_.size())] of [Context::run]: it keeps the context well
    formed, terminates, and leaves no process alive that a chain of links
    connects to a destroyed one. *)

From S2P Require Import Prelude.
From S2P Require Import BaseTypes.
From S2P Require Import Future.
From S2P Require Import Slot.
From S2P Require Import Waiting.
From S2P Require Import IoService.
From S2P Require Import Process.
From S2P Require Import Context.
From S2P Require Import HeapFacts.
From S2P Require Import Lifecycle.
From S2P Require Import ContextFacts.
From S2P Require Import LifecycleFacts.

Section deletion.
Context {T : Type} `{P : Program} `{IO : IoService Handler} `{TM : !TaskModel T}.
Implicit Types c : Context T.

(** Process [r] and its object are gone; the process table is as it was. *)
Record deleted (r : Ptr) (rp : RunningProcess T) c c' : Prop := {
  dl_tombstones : tombstones_ c' = tombstones_ c;
  dl_processes : processes_ c' = processes_ c;
  dl_toDestroy : toDestroy_ c' = toDestroy_ c;
  dl_rps : rps c' = delete r (rps c);
  dl_objs : objs c' = delete (process_ptr rp) (objs c);
  dl_next : (next_ptr c ≤ next_ptr c')%positive;
  dl_io : posted_io (io_timer_destroy r (ioService_ c)) (ioService_ c');
}.

Lemma delete_process_post o c :
  post (λ _ c', ∃ c1, same_core c c1 ∧ c' = set_objs (delete o (objs c1)) c1)
       (λ _ _, False) (delete_process (T:=T) o c).
Proof.
  eapply post_noexcept with (E := λ _ _, True).
  eapply post_bind with (Q' := λ _, same_core c).
  { eapply post_mono; [apply (post_within same_core); auto with within|done|done]. }
  intros obj c1 H1. eapply post_bind with (Q' := λ _, same_core c).
  { eapply post_mono; [|intros ?? Hx; exact Hx|done].
    apply post_within_trans; [apply _|done|]. within_solve. }
  intros _ c2 H2. by exists c2.
Qed.

Lemma delete_rp_post r c :
  post (λ _ c', ∃ rp, rps c !! r = Some rp ∧ deleted r rp c c') (λ _ _, False)
       (delete_rp (T:=T) r c).
Proof.
  eapply post_noexcept with (E := λ _ _, True). unfold load_rp, deref, bind at 1.
  destruct (rps c !! r) as [rp|] eqn:Hr; [|done].
  unfold bind at 1, modify at 1. set (c0 := set_io _ c).
  eapply post_bind with (Q' := λ _, same_core c0).
  { eapply post_mono; [|intros ?? Hx; exact Hx|done].
    apply post_within; auto with within. }
  intros _ c2 H2. eapply post_bind.
  { eapply post_mono; [apply delete_process_post|intros ?? Hx; exact Hx|done]. }
  simpl. intros _ c3 (c4 & H4 & ->). exists rp. split; [done|].
  assert (H : same_core c0 c4) by by etrans. destruct H. split; simpl in *; congruence.
Qed.

Lemma deleted_wf extra c r rp c' :
  wf_with (r :: extra) c → rps c !! r = Some rp → deleted r rp c c' → wf_with extra c'.
Proof.
  intros W Hr [Ht Hp Hd Hrps Hobjs Hn _].
  assert (Hdead : dead rp = true).
  { destruct (wf_doomed _ _ W r) as (rp' & Hr' & ?); [left|]. congruence. }
  assert (Hdoom : doomed (r :: extra) c = r :: doomed extra c') by (unfold doomed; by rewrite Hd).
  pose proof (wf_doomed_nodup _ _ W) as Hnd. rewrite Hdoom in Hnd.
  apply NoDup_cons in Hnd as [Hnin Hnd].
  assert (Hold : ∀ r' rp', rps c' !! r' = Some rp' → r' ≠ r ∧ rps c !! r' = Some rp').
  { intros r' rp'. rewrite Hrps. intros [? ?]%lookup_delete_Some. auto. }
  split; rewrite ?Ht, ?Hp; try apply W; try done.
  - intros i r' Hi. destruct (wf_live _ _ W _ _ Hi) as (rp' & Hr' & ? & ?).
    exists rp'. rewrite Hrps, lookup_delete_ne; [done|]. intros <-. congruence.
  - intros r' rp' [Hne Hr']%Hold. destruct (wf_rp _ _ W _ _ Hr') as [?|[? Hin]]; [by left|right].
    split; [done|]. rewrite Hdoom in Hin. set_solver.
  - intros r' Hin. destruct (wf_doomed _ _ W r') as (rp' & Hr' & ?).
    { rewrite Hdoom. by right. }
    exists rp'. rewrite Hrps, lookup_delete_ne; [done|]. intros <-. done.
  - intros r' rp' [Hne Hr']%Hold. rewrite Hobjs, lookup_delete_ne.
    + by apply (wf_obj _ _ W _ _ Hr').
    + intros Heq. apply Hne. by apply (wf_obj_inj _ _ W _ _ _ _ Hr' Hr).
  - intros r1 r2 rp1 rp2 [_ H1]%Hold [_ H2]%Hold. by apply (wf_obj_inj _ _ W _ _ _ _ H1 H2).
  - intros r' rp' [Hne Hr']%Hold. destruct (wf_next _ _ W _ _ Hr'). lia.
  - intros r' rp' [Hne Hr']%Hold. pose proof (wf_version_rp _ _ W _ _ Hr'). lia.
  - intros t Hin. pose proof (wf_version_tomb _ _ W _ Hin). lia.
Qed.

(** Taking the first process off the list keeps the invariant, with that
    process set aside. *)
Lemma popped_wf c r reason rest :
  wf c → toDestroy_ c = (r, reason) :: rest → wf_with [r] (set_toDestroy rest c).
Proof.
  intros W Hd.
  assert (Hdoom : doomed [r] (set_toDestroy rest c) = doomed [] c)
    by (unfold doomed; by rewrite Hd).
  split; rewrite ?Hdoom; apply W.
Qed.

Lemma deleted_lookup extra c r rp c' p :
  wf_with (r :: extra) c → rps c !! r = Some rp → deleted r rp c c' →
  lookup_proc c' p = lookup_proc c p.
Proof.
  intros W Hr [Ht Hp Hd Hrps _ _ _]. unfold lookup_proc. rewrite Hp, Hrps.
  destruct (processes_ c !! _) as [[r'|]|] eqn:Hi; try done.
  rewrite lookup_delete_ne; [done|]. intros <-.
  destruct (wf_live _ _ W _ _ Hi) as (rp1 & H1 & _ & ?).
  destruct (wf_doomed _ _ W r) as (rp2 & H2 & ?); [left|]. congruence.
Qed.

Lemma deleted_retired c r rp c' p : deleted r rp c c' → retired c p → retired c' p.
Proof.
  intros [Ht Hp _ Hrps _ _ _] [Hlen He Htomb]. split; rewrite ?Hp, ?Ht, ?Hrps; try done.
  intros r' rp' Hi [_ Hr']%lookup_delete_Some. by eapply He.
Qed.

Lemma ev_destroy_body extra r reason :
  within (evolves (T:=T) extra) (destroy_body r reason).
Proof. unfold destroy_body. within_solve. Qed.

Lemma destroyed_evolves c r reason rest c2 rp c' :
  toDestroy_ c = (r, reason) :: rest → evolves [r] (set_toDestroy rest c) c2 →
  rps c2 !! r = Some rp → deleted r rp c2 c' → evolves [] c c'.
Proof.
  intros Hd Hev Hr Hdel W. pose proof (popped_wf _ _ _ _ W Hd) as W1.
  destruct (Hev W1) as (W2 & Hn2 & Hrest).
  pose proof (dl_next _ _ _ _ Hdel) as Hn'. simpl in Hn2.
  split_and!; [by eapply deleted_wf|lia|]. intros Hu.
  destruct Hrest as [Hret Hiss]; [unfold unwrapped in *; lia|].
  assert (Hret1 : ∀ p, retired c p → retired (set_toDestroy rest c) p) by (intros p []; by split).
  assert (Hret' : ∀ p, retired c2 p → retired c' p) by (intros p; by eapply deleted_retired).
  split; [by auto|]. intros p Hp.
  destruct (Hiss p) as [Hl|?]; [destruct Hp; [by left|right; auto]| |right; auto].
  left. unfold live. by rewrite (deleted_lookup _ _ _ _ _ _ W2 Hr Hdel).
Qed.

Lemma ev_destroy_front : within (evolves (T:=T) []) destroy_front.
Proof.
  intros c c'. unfold destroy_front, bind at 1, gets.
  destruct (toDestroy_ c) as [|[r reason] rest] eqn:Hd; [by intros [= <-]|].
  unfold bind at 1, modify, destroy, bind at 1, on_throw.
  pose proof (ev_destroy_body [r] r reason (set_toDestroy rest c)) as Hb.
  destruct (destroy_body r reason _) as [u c2|e c2|h]; [| |done]; specialize (Hb _ eq_refl);
    pose proof (delete_rp_post r c2) as Hdel;
    destruct (delete_rp r c2) as [u' c3|e' c3|]; simpl in *; try done;
    destruct Hdel as (rp & Hr & Hdel); intros [= <-]; by eapply destroyed_evolves.
Qed.

Lemma ev_destroy_turns fuel : within (evolves (T:=T) []) (destroy_turns fuel).
Proof.
  induction fuel as [|fuel IH]; simpl; within_solve; apply ev_destroy_front.
Qed.

Lemma ev_destroy_loop : within (evolves (T:=T) []) destroy_loop.
Proof. unfold destroy_loop. within_solve. apply ev_destroy_turns. Qed.
End deletion.

(** ** Ownership of slots: destructors complete *)

Section ownership.
Context {T : Type} `{P : Program} `{IO : IoService Handler} `{TM : !TaskModel T}.
Implicit Types c : Context T.

Definition cleanup_slot (op : CleanupOp payload) : list SlotId :=
  match op with CleanupSlot s => [s] | CleanupSend _ _ => [] end.

Definition member_slot (m : Member) : list SlotId :=
  match m with SlotMember s => [s] | PromiseMember _ => [] end.

Definition task_slots (t : T) : list SlotId := task_cleanup t ≫= cleanup_slot.
Definition object_slots (obj : Process) : list SlotId := reverse (members obj) ≫= member_slot.

(** The slots whose destructors run when process [r] is deleted. *)
Definition slots_of c (r : Ptr) : list SlotId :=
  match rps c !! r with
  | Some rp =>
      task_slots (task rp) ++
      match objs c !! process_ptr rp with Some obj => object_slots obj | None => [] end
  | None => []
  end.

(** Every slot a process will destroy exists and is destroyed once: C++ scopes
    and members guarantee it. *)
Record owns_slots c : Prop := {
  os_live r s : s ∈ slots_of c r → is_Some (slots c !! s);
  os_nodup r : NoDup (slots_of c r);
  os_disjoint r1 r2 s : s ∈ slots_of c r1 → s ∈ slots_of c r2 → r1 = r2;
}.

(** [m] runs to its end, destroying just the slots [l]. *)
Definition cleans (m : M (Context T) unit) (l : list SlotId) : Prop :=
  ∀ c, NoDup l → (∀ s, s ∈ l → is_Some (slots c !! s)) →
  ∃ c', m c = Ok tt c' ∧ same_core c c' ∧
        ∀ s, s ∉ l → slots c' !! s = slots c !! s.

Lemma cleans_ret : cleans (ret tt) [].
Proof. intros c _ _. by exists c. Qed.

Lemma cleans_seq m1 m2 l1 l2 : cleans m1 l1 → cleans m2 l2 → cleans (m1 ;;; m2) (l1 ++ l2).
Proof.
  intros H1 H2 c Hnd Hin. apply NoDup_app in Hnd as (Hnd1 & Hdisj & Hnd2).
  destruct (H1 c Hnd1) as (c1 & Hm1 & Hc1 & Hs1); [intros; apply Hin; set_solver|].
  destruct (H2 c1 Hnd2) as (c2 & Hm2 & Hc2 & Hs2).
  { intros s Hs. rewrite Hs1; [apply Hin; set_solver|]. intros Hs'. by apply (Hdisj s). }
  exists c2. rewrite (bind_run _ _ _ _ _ Hm1). split_and!; [done|by etrans|].
  intros s Hs. rewrite Hs2, Hs1; set_solver.
Qed.

Lemma cleans_for_each {A} (f : A → M (Context T) unit) (g : A → list SlotId) xs :
  (∀ x, cleans (f x) (g x)) → cleans (for_each f xs) (xs ≫= g).
Proof.
  intros Hf. induction xs as [|x xs IH]; simpl; [apply cleans_ret|]. by apply cleans_seq.
Qed.

Lemma cleans_noexcept m l : cleans m l → cleans (noexcept m) l.
Proof.
  intros Hm c Hnd Hin. destruct (Hm c Hnd Hin) as (c' & Hr & ?).
  exists c'. unfold noexcept. by rewrite Hr.
Qed.

Lemma cleans_destroy_slot s : cleans (destroy_slot s) [s].
Proof.
  intros c _ Hin. destruct (Hin s) as [sl Hs]; [left|].
  assert (Hf : ∀ c', destroy_slot s c = Ok tt c' → same_core c c').
  { intros c' Hc'. apply (sc_destroy_slot s). by rewrite Hc'. }
  unfold destroy_slot in *. unfold load_slot, deref in *. unfold bind in *. rewrite Hs in *.
  destruct (post_all_Ok (destroy_queue (messages_ sl)) c) as [i Hi]. rewrite Hi in *.
  eexists. split; [done|]. split; [by apply Hf|].
  intros s' Hs'. simpl. rewrite lookup_delete_ne; [done|set_solver].
Qed.

Lemma cleans_delete_task t : cleans (delete_task t) (task_slots t).
Proof.
  apply cleans_noexcept, cleans_for_each. intros [s|a m]; simpl; [apply cleans_destroy_slot|].
  intros c _ _. eexists. split; [done|]. split; [by apply (sc_queueSend a (mkMessage m))|done].
Qed.

Lemma cleans_destroy_member m : cleans (destroy_member m) (member_slot m).
Proof.
  destruct m as [s|p]; simpl; [apply cleans_destroy_slot|].
  intros c _ _. eexists. split; [done|]. by split.
Qed.

Lemma delete_process_Ok o obj c :
  objs c !! o = Some obj → NoDup (object_slots obj) →
  (∀ s, s ∈ object_slots obj → is_Some (slots c !! s)) →
  ∃ c1, delete_process o c = Ok tt (set_objs (delete o (objs c1)) c1) ∧ same_core c c1 ∧
        ∀ s, s ∉ object_slots obj → slots c1 !! s = slots c !! s.
Proof.
  intros Ho Hnd Hin.
  destruct (cleans_for_each destroy_member member_slot (reverse (members obj))
    cleans_destroy_member c Hnd Hin) as (c1 & Hr & ? & ?).
  exists c1. split; [|done]. unfold delete_process, noexcept, load_obj, deref.
  unfold bind at 1. rewrite Ho. by rewrite (bind_run _ _ _ _ _ Hr).
Qed.

Lemma delete_rp_Ok r rp c :
  rps c !! r = Some rp → is_Some (objs c !! process_ptr rp) → owns_slots c →
  ∃ c', delete_rp r c = Ok tt c' ∧ deleted r rp c c' ∧
        ∀ s, s ∉ slots_of c r → slots c' !! s = slots c !! s.
Proof.
  intros Hr [obj Ho] [Hlive Hnd _]. specialize (Hlive r). specialize (Hnd r).
  unfold slots_of in *. rewrite Hr, Ho in *. apply NoDup_app in Hnd as (Hnd1 & Hdisj & Hnd2).
  set (c0 := set_io (io_timer_destroy r (ioService_ c)) c).
  destruct (cleans_delete_task (task rp) c0 Hnd1) as (c1 & Hr1 & Hc1 & Hs1).
  { intros s Hs. apply Hlive. set_solver. }
  destruct (delete_process_Ok (process_ptr rp) obj c1) as (c2 & Hr2 & Hc2 & Hs2).
  { by rewrite (sc_objs _ _ Hc1). }
  { done. }
  { intros s Hs. rewrite Hs1; [apply Hlive; set_solver|]. intros Hs'. by apply (Hdisj s). }
  assert (H02 : same_core c0 c2) by by etrans.
  eexists. split_and!.
  - unfold delete_rp, noexcept, load_rp, deref. unfold bind at 1. rewrite Hr.
    unfold bind at 1, modify at 1. fold c0. rewrite (bind_run _ _ _ _ _ Hr1).
    by rewrite (bind_run _ _ _ _ _ Hr2).
  - destruct H02. split; simpl in *; congruence.
  - intros s Hs. simpl. rewrite Hs2, Hs1; [done|set_solver|set_solver].
Qed.
End ownership.

(** ** Culling: what a list of kills does *)

Section culling.
Context {T : Type} `{P : Program} `{IO : IoService Handler} `{TM : !TaskModel T}.
Implicit Types c : Context T.

(** Processes that can still be destroyed. *)
Definition budget c : nat := length (toDestroy_ c) + length (occupied (processes_ c)).

(** From [c] to [c'] some live processes were moved to [toDestroy_]. *)
Record culled c c' : Prop := {
  cu_lookup p r : lookup_proc c' p = Some r → lookup_proc c p = Some r;
  cu_moved p r : lookup_proc c p = Some r →
    lookup_proc c' p = Some r ∨ r ∈ (toDestroy_ c').*1;
  cu_kept r : r ∈ (toDestroy_ c).*1 → r ∈ (toDestroy_ c').*1;
  cu_rps r rp : rps c !! r = Some rp →
    ∃ rp', rps c' !! r = Some rp' ∧ process_ptr rp' = process_ptr rp ∧ task rp' = task rp;
  cu_rps_inv r : rps c !! r = None → rps c' !! r = None;
  cu_objs : objs c' = objs c;
  cu_slots : slots c' = slots c;
  cu_budget : budget c' ≤ budget c;
}.

#[global] Instance culled_preorder : PreOrder culled.
Proof.
  split.
  - intros c. split; eauto.
  - intros c1 c2 c3 H12 H23. destruct H12, H23. split; try congruence; eauto; try lia.
    + intros p r Hl. destruct (cu_moved0 p r Hl) as [Hl2|Hin]; [eauto|right; eauto].
    + intros r rp Hr. destruct (cu_rps0 r rp Hr) as (rp2 & Hr2 & ? & ?).
      destruct (cu_rps1 r rp2 Hr2) as (rp3 & Hr3 & ? & ?).
      exists rp3. split_and!; congruence.
Qed.

(** Only processes with a pid in [ps] were moved. *)
Record culls_only (ps : list Pid) c c' : Prop := {
  co_lookup p r : lookup_proc c p = Some r → lookup_proc c' p = Some r ∨ p ∈ ps;
  co_toDestroy r : r ∈ (toDestroy_ c').*1 →
    r ∈ (toDestroy_ c).*1 ∨ ∃ p, p ∈ ps ∧ lookup_proc c p = Some r;
}.

Lemma culls_only_trans ps1 ps2 c1 c2 c3 :
  culled c1 c2 → culls_only ps1 c1 c2 → culls_only ps2 c2 c3 → culls_only (ps1 ++ ps2) c1 c3.
Proof.
  intros Hc [Hl1 Hd1] [Hl2 Hd2]. split.
  - intros p r Hl. destruct (Hl1 p r Hl) as [H|?]; [|right; set_solver].
    destruct (Hl2 p r H); [by left|right; set_solver].
  - intros r Hin. destruct (Hd2 r Hin) as [H|(p & ? & Hl)].
    + destruct (Hd1 r H) as [?|(p & ? & ?)]; [by left|right]. exists p. set_solver.
    + right. exists p. split; [set_solver|]. by apply (cu_lookup _ _ Hc).
Qed.

Lemma killed_culled extra c p reason r rp :
  wf_with extra c → lookup_proc c p = Some r → rps c !! r = Some rp →
  culled c (killed p reason r rp c) ∧ lookup_proc (killed p reason r rp c) p = None.
Proof.
  intros W Hl Hr. pose proof (killed_wf _ _ _ reason _ _ W Hl Hr) as W'.
  apply (lookup_proc_Some _ _ _ _ W) in Hl as (Hi & rp' & Hr' & Hp).
  assert (rp' = rp) as -> by congruence. clear Hr'.
  assert (Hlen : N.to_nat (idx_ p) < length (processes_ c)) by by eapply lookup_lt_Some.
  assert (Hnone : lookup_proc (killed p reason r rp c) p = None).
  { unfold lookup_proc. simpl. by rewrite list_lookup_insert_eq. }
  split; [|done]. split; try done.
  - intros q rq Hq. apply (lookup_proc_Some _ _ _ _ W') in Hq as (Hiq & rpq & Hrq & Hpq).
    simpl in *. apply list_lookup_insert_Some in Hiq as [(? & ? & _)|[Hne Hiq]]; [done|].
    apply (lookup_proc_Some _ _ _ _ W). split; [done|].
    apply lookup_insert_Some in Hrq as [[<- <-]|[_ ?]]; [|by exists rpq].
    by exists rp.
  - intros q rq Hq. apply (lookup_proc_Some _ _ _ _ W) in Hq as (Hiq & rpq & Hrq & Hpq).
    destruct (decide (N.to_nat (idx_ p) = N.to_nat (idx_ q))) as [Heq|Hne].
    + right. simpl. rewrite fmap_app. rewrite Heq in Hi.
      assert (rq = r) as -> by congruence. set_solver.
    + left. apply (lookup_proc_Some _ _ _ _ W'). simpl.
      rewrite list_lookup_insert_ne by done. split; [done|]. exists rpq.
      rewrite lookup_insert_ne; [done|]. intros <-. congruence.
  - intros r'. simpl. rewrite fmap_app. set_solver.
  - intros r' rp' Hr'. simpl. destruct (decide (r = r')) as [<-|].
    + exists (set_dead true rp). rewrite lookup_insert_eq.
      by assert (rp' = rp) as -> by congruence.
    + exists rp'. by rewrite lookup_insert_ne.
  - intros r' Hr'. simpl. rewrite lookup_insert_ne; [done|congruence].
  - unfold budget. simpl. rewrite length_app. simpl.
    rewrite (occupied_clear _ _ _ Hi). lia.
Qed.

Lemma killed_lookup_ne extra c p reason r rp q :
  wf_with extra c → lookup_proc c p = Some r → rps c !! r = Some rp → q ≠ p →
  lookup_proc (killed p reason r rp c) q = lookup_proc c q.
Proof.
  intros W Hl Hr Hne. apply option_eq. intros r'.
  pose proof (killed_wf _ _ _ reason _ _ W Hl Hr) as W'.
  destruct (killed_culled _ _ _ reason _ _ W Hl Hr) as [Hcull _].
  split; [by apply (cu_lookup _ _ Hcull)|]. intros Hq.
  destruct (cu_moved _ _ Hcull q r' Hq) as [?|Hin]; [done|exfalso].
  simpl in Hin. rewrite fmap_app in Hin.
  apply (lookup_proc_Some _ _ _ _ W) in Hq as (Hi & rq & Hrq & Hpq).
  apply elem_of_app in Hin as [Hin|Hin%list_elem_of_singleton].
  - destruct (wf_live _ _ W _ _ Hi) as (rp1 & H1 & _ & ?).
    destruct (wf_doomed _ _ W r') as (rp2 & H2 & ?); [set_solver|]. congruence.
  - simpl in Hin. apply (lookup_proc_Some _ _ _ _ W) in Hl as (_ & rp' & ? & ?). congruence.
Qed.
Lemma addtoDestroy_Ok extra c p reason :
  wf_with extra c →
  ∃ c', addtoDestroy p reason c = Ok tt c' ∧ wf_with extra c' ∧ culled c c' ∧
        lookup_proc c' p = None ∧ culls_only [p] c c'.
Proof.
  intros W. rewrite (addtoDestroy_eq _ _ _ _ W).
  destruct (lookup_proc c p) as [r|] eqn:Hl.
  2:{ exists c. split_and!; try done. split; by left. }
  pose proof Hl as Hl'. apply (lookup_proc_Some _ _ _ _ W) in Hl' as (_ & rp & Hr & _).
  rewrite Hr. destruct (killed_culled _ _ _ reason _ _ W Hl Hr).
  eexists. split_and!; [done|by apply killed_wf|done|done|]. split.
  - intros q rq Hq. destruct (decide (q = p)) as [->|]; [right; set_solver|left].
    by rewrite (killed_lookup_ne extra).
  - intros rq. simpl. rewrite fmap_app. intros [?|Hin%list_elem_of_singleton]%elem_of_app;
      [by left|right]. exists p. split; [set_solver|]. by simplify_eq/=.
Qed.

Lemma kill_list_Ok extra c ps reason :
  wf_with extra c →
  ∃ c', for_each (λ q, addtoDestroy q reason) ps c = Ok tt c' ∧ wf_with extra c' ∧
        culled c c' ∧ (∀ p, p ∈ ps → lookup_proc c' p = None) ∧ culls_only ps c c'.
Proof.
  revert c. induction ps as [|p ps IH]; intros c W; simpl.
  { exists c. split_and!; try done; [intros p Hp; by apply not_elem_of_nil in Hp|].
    split; by left. }
  destruct (addtoDestroy_Ok extra c p reason W) as (c1 & Hr1 & W1 & Hc1 & Hp1 & Ho1).
  destruct (IH c1 W1) as (c2 & Hr2 & W2 & Hc2 & Hps & Ho2).
  exists c2. rewrite (bind_run _ _ _ _ _ Hr1). split_and!; [done|done|by etrans| |].
  - intros q [->|?]%elem_of_cons; [|by apply Hps].
    apply eq_None_not_Some. intros [r Hr]. apply (cu_lookup _ _ Hc2) in Hr. congruence.
  - by eapply (culls_only_trans [p]).
Qed.

Lemma notify_Ok p as_ c :
  ∃ q, for_each (λ a, queueSend a (mkMessage (of_pid p))) as_ c = Ok tt (set_queue q c).
Proof.
  revert c. induction as_ as [|a as_ IH]; intros c; [by exists (queue_ c); destruct c|].
  destruct (IH (set_queue (queue_ c ++ [mkItem (sa_pid a) None (Some (a, mkMessage (of_pid p)))]) c))
    as [q Hq].
  exists q. exact Hq.
Qed.

Lemma destroy_body_Ok extra c r rp reason :
  wf_with extra c → rps c !! r = Some rp →
  ∃ c' obj, objs c !! process_ptr rp = Some obj ∧
    destroy_body r reason c = Ok tt c' ∧ wf_with extra c' ∧ culled c c' ∧
    (∀ p, p ∈ killOnDie_ obj → lookup_proc c' p = None) ∧
    culls_only (killOnDie_ obj) c c'.
Proof.
  intros W Hr. pose proof (wf_obj _ _ W _ _ Hr) as Ho.
  destruct (objs c !! process_ptr rp) as [obj|] eqn:Hobj; [|done].
  destruct (kill_list_Ok extra c (killOnDie_ obj) reason W)
    as (c1 & Hr1 & W1 & Hc1 & Hk & Ho1).
  destruct (notify_Ok (pid rp) (notifyOnDie_ obj) c1) as [q Hq].
  exists (set_queue q c1), obj. split; [done|]. split_and!.
  - unfold destroy_body, load_rp, load_obj, deref. unfold bind at 1. rewrite Hr.
    unfold bind at 1. rewrite Hobj. by rewrite (bind_run _ _ _ _ _ Hr1).
  - eapply wf_quiet; [exact W1|by split].
  - etrans; [exact Hc1|]. split; eauto.
  - done.
  - destruct Ho1. by split.
Qed.

Lemma culled_owns c c' : culled c c' → owns_slots c → owns_slots c'.
Proof.
  intros Hc [H1 H2 H3].
  assert (Heq : ∀ r, slots_of c' r = slots_of c r).
  { intros r. unfold slots_of. destruct (rps c !! r) as [rp|] eqn:Hr.
    - destruct (cu_rps _ _ Hc _ _ Hr) as (rp' & -> & -> & ->). by rewrite (cu_objs _ _ Hc).
    - by rewrite (cu_rps_inv _ _ Hc _ Hr). }
  split; intros *; rewrite ?Heq, ?(cu_slots _ _ Hc); eauto.
Qed.

Lemma deleted_owns extra c r rp c' :
  wf_with extra c → rps c !! r = Some rp → deleted r rp c c' →
  (∀ s, s ∉ slots_of c r → slots c' !! s = slots c !! s) →
  owns_slots c → owns_slots c'.
Proof.
  intros W Hr Hd Hs [H1 H2 H3].
  assert (Heq : ∀ r', slots_of c' r' = [] ∨ r' ≠ r ∧ slots_of c' r' = slots_of c r').
  { intros r'. unfold slots_of. rewrite (dl_rps _ _ _ _ Hd), (dl_objs _ _ _ _ Hd).
    destruct (decide (r = r')) as [<-|Hne]; [left; by rewrite lookup_delete_eq|].
    rewrite lookup_delete_ne by done.
    destruct (rps c !! r') as [rp'|] eqn:Hr'; [|by left]. right. split; [done|].
    rewrite lookup_delete_ne; [done|]. intros Heq. by apply Hne, (wf_obj_inj _ _ W _ _ _ _ Hr Hr'). }
  split.
  - intros r' s. destruct (Heq r') as [->|[Hne ->]]; [set_solver|]. intros Hin.
    rewrite Hs; [by eapply H1|]. intros Hin'. by apply Hne, (H3 r' r s).
  - intros r'. destruct (Heq r') as [->|[_ ->]]; [apply NoDup_nil_2|done].
  - intros r1 r2 s. destruct (Heq r1) as [->|[_ ->]]; [set_solver|].
    destruct (Heq r2) as [->|[_ ->]]; [set_solver|]. apply H3.
Qed.
End culling.

(** ** The loop *)

Section loop.
Context {T : Type} `{P : Program} `{IO : IoService Handler} `{TM : !TaskModel T}.
Implicit Types c : Context T.

Definition alive c (r : Ptr) : Prop := ∃ p, lookup_proc c p = Some r.

(** The process object of [r1] lists the pid of the live process [r2]. *)
Definition link_edge c (r1 r2 : Ptr) : Prop :=
  ∃ rp obj p, rps c !! r1 = Some rp ∧ objs c !! process_ptr rp = Some obj ∧
    p ∈ killOnDie_ obj ∧ lookup_proc c p = Some r2.

(** A chain of links leads to [r] from a process that is being destroyed. *)
Definition doom_reach c (r : Ptr) : Prop :=
  ∃ r0, r0 ∈ (toDestroy_ c).*1 ∧ rtc (link_edge c) r0 r.

Lemma doomed_not_alive c r : wf c → r ∈ (toDestroy_ c).*1 → ¬ alive c r.
Proof.
  intros W Hin [p Hl]. apply (lookup_proc_Some _ _ _ _ W) in Hl as (Hi & _).
  destruct (wf_live _ _ W _ _ Hi) as (rp & Hr & _ & ?).
  destruct (wf_doomed _ _ W r) as (rp' & ? & ?); [done|]. congruence.
Qed.

(** One turn, from [c] with [f] at the front, through the culled [c2], to [c']. *)
Section turn.
Context (c c2 c' : Context T) (f : Ptr) (rpf : RunningProcess T).
Context (Hcull : culled c c2) (Hf2 : rps c2 !! f = Some rpf) (W2 : wf_with [f] c2).
Context (Hdel : deleted f rpf c2 c').

Lemma turn_lookup p : lookup_proc c' p = lookup_proc c2 p.
Proof. by eapply deleted_lookup. Qed.

Lemma turn_edge r1 r2 :
  link_edge c r1 r2 → r1 ≠ f → alive c' r2 → link_edge c' r1 r2.
Proof.
  intros (rp & obj & p & Hr & Ho & Hp & Hl) Hne [q Hq]. rewrite turn_lookup in Hq.
  destruct (cu_rps _ _ Hcull _ _ Hr) as (rp2 & Hr2 & Heq & _).
  exists rp2, obj, p. rewrite (dl_rps _ _ _ _ Hdel), lookup_delete_ne by done.
  rewrite (dl_objs _ _ _ _ Hdel), lookup_delete_ne.
  - rewrite Heq, (cu_objs _ _ Hcull). split_and!; try done.
    rewrite turn_lookup. destruct (cu_moved _ _ Hcull p r2 Hl) as [?|Hin]; [done|].
    exfalso. apply (lookup_proc_Some _ _ _ _ W2) in Hq as (Hi & _).
    destruct (wf_live _ _ W2 _ _ Hi) as (rp3 & ? & _ & ?).
    destruct (wf_doomed _ _ W2 r2) as (rp4 & ? & ?); [by right|]. congruence.
  - intros Heq'. apply Hne. symmetry. by apply (wf_obj_inj _ _ W2 _ _ _ _ Hf2 Hr2).
Qed.

Lemma turn_alive_or_doomed r : alive c r → alive c' r ∨ r ∈ (toDestroy_ c').*1.
Proof.
  intros [p Hl]. rewrite (dl_toDestroy _ _ _ _ Hdel).
  destruct (cu_moved _ _ Hcull p r Hl) as [?|?]; [left|by right].
  exists p. by rewrite turn_lookup.
Qed.

(** A chain that avoids the front is kept, or restarts at a process this turn
    dooms. *)
Lemma turn_chain x r :
  ¬ alive c f → rtc (link_edge c) x r → x ≠ f →
  rtc (link_edge c') x r ∨ doom_reach c' r.
Proof.
  intros Hdead. induction 1 as [x|x x1 r Hedge _ IH]; intros Hne; [by left; constructor|].
  assert (Hl1 : alive c x1) by (destruct Hedge as (?&?&p&_&_&_&?); by exists p).
  assert (Hne1 : x1 ≠ f) by congruence.
  destruct (turn_alive_or_doomed x1 Hl1) as [Ha|Hd]; destruct (IH Hne1) as [Hrtc|?]; auto.
  - left. eapply rtc_l; [by apply turn_edge|done].
  - right. by exists x1.
Qed.

(** A turn makes no link. *)
Lemma turn_edge_back r1 r2 : link_edge c' r1 r2 → link_edge c r1 r2.
Proof.
  intros (rp & obj & p & Hr & Ho & Hp & Hl). rewrite turn_lookup in Hl.
  rewrite (dl_rps _ _ _ _ Hdel) in Hr. apply lookup_delete_Some in Hr as [_ Hr].
  rewrite (dl_objs _ _ _ _ Hdel) in Ho. apply lookup_delete_Some in Ho as [_ Ho].
  destruct (rps c !! r1) as [rp0|] eqn:Hr0.
  - destruct (cu_rps _ _ Hcull _ _ Hr0) as (rp' & Hr' & Heq & _).
    exists rp0, obj, p. rewrite (cu_objs _ _ Hcull) in Ho. split_and!; try done.
    + congruence.
    + by apply (cu_lookup _ _ Hcull).
  - rewrite (cu_rps_inv _ _ Hcull _ Hr0) in Hr. done.
Qed.

Lemma turn_chain_back r1 r2 : rtc (link_edge c') r1 r2 → rtc (link_edge c) r1 r2.
Proof. induction 1; [done|]. eapply rtc_l; [by apply turn_edge_back|done]. Qed.
End turn.

Lemma destroy_front_Ok c :
  wf c → owns_slots c → toDestroy_ c ≠ [] →
  ∃ c', destroy_front c = Ok tt c' ∧ wf c' ∧ owns_slots c' ∧ budget c' < budget c ∧
        (∀ r, alive c' r → alive c r) ∧
        (∀ r, doom_reach c r → doom_reach c' r ∨ ¬ alive c' r) ∧
        (∀ r, alive c r → alive c' r ∨ doom_reach c r) ∧
        (∀ r, doom_reach c' r → doom_reach c r).
Proof.
  intros W Hown Hne. destruct (toDestroy_ c) as [|[f reason] rest] eqn:Hd; [done|].
  set (c1 := set_toDestroy rest c).
  pose proof (popped_wf _ _ _ _ W Hd) as W1.
  destruct (wf_doomed _ _ W1 f) as (rp & Hf & _); [left|].
  destruct (destroy_body_Ok [f] c1 f rp reason W1 Hf)
    as (c2 & obj & Hobj & Hb & W2 & Hcull & Hkill & Honly).
  destruct (cu_rps _ _ Hcull _ _ Hf) as (rp2 & Hf2 & Hptr & _).
  assert (Hown2 : owns_slots c2).
  { apply (culled_owns c1); [done|]. destruct Hown as [H1 H2 H3]. by split. }
  destruct (delete_rp_Ok f rp2 c2 Hf2) as (c' & Hdel & Hdeleted & Hslots); [|done|].
  { rewrite Hptr, (cu_objs _ _ Hcull). by eexists. }
  pose proof (deleted_wf _ _ _ _ _ W2 Hf2 Hdeleted) as W'.
  assert (Hlook : ∀ p, lookup_proc c' p = lookup_proc c2 p)
    by (intros p; by eapply turn_lookup).
  assert (Hmono : ∀ r, alive c' r → alive c r).
  { intros r [p Hp]. rewrite Hlook in Hp. exists p. by apply (cu_lookup _ _ Hcull) in Hp. }
  assert (Hfd : ¬ alive c f) by (apply doomed_not_alive; [done|]; rewrite Hd; left).
  assert (Hfront : ∀ p x, p ∈ killOnDie_ obj → lookup_proc c1 p = Some x → link_edge c f x)
    by (intros p x ? ?; by exists rp, obj, p).
  assert (Hfin : f ∈ (toDestroy_ c).*1) by (rewrite Hd; left).
  exists c'. split_and!; [|done|by eapply (deleted_owns [f] c2 f rp2)| |done| | |].
  - unfold destroy_front, gets. unfold bind at 1. rewrite Hd.
    unfold bind at 1, modify. fold c1. unfold destroy, on_throw.
    unfold bind at 1. by rewrite Hb.
  - pose proof (cu_budget _ _ Hcull) as Hbud. unfold budget in *. simpl in Hbud.
    rewrite (dl_toDestroy _ _ _ _ Hdeleted), (dl_processes _ _ _ _ Hdeleted), Hd. simpl. lia.
  - intros r (r0 & Hin & Hchain). rewrite Hd in Hin.
    assert (Hchain1 : ∀ x, rtc (link_edge c) x r → rtc (link_edge c1) x r) by done.
    destruct (decide (r0 = f)) as [->|Hne0].
    + (* the chain starts at the front: its first target is culled *)
      apply rtc_inv in Hchain as [<-|(x1 & Hedge & Hchain)]; [right; by intros ?%Hmono|].
      destruct Hedge as (rp' & obj' & p & Hr' & Ho' & Hp & Hl).
      assert (rp' = rp) as -> by (change (rps c !! f = Some rp) in Hf; congruence).
      assert (obj' = obj) as ->
        by (change (objs c !! process_ptr rp = Some obj) in Hobj; congruence).
      destruct (cu_moved _ _ Hcull p x1 Hl) as [Hl2|Hdoom].
      { rewrite (Hkill p Hp) in Hl2. done. }
      assert (Hx1 : x1 ≠ f) by (intros ->; apply Hfd; by exists p).
      destruct (turn_chain c1 c2 c' f rp2 Hcull Hf2 W2 Hdeleted x1 r Hfd Hchain Hx1);
        left; [|done].
      exists x1. by rewrite (dl_toDestroy _ _ _ _ Hdeleted).
    + simpl in Hin. apply elem_of_cons in Hin as [?|Hin]; [done|].
      destruct (turn_chain c1 c2 c' f rp2 Hcull Hf2 W2 Hdeleted r0 r Hfd Hchain Hne0);
        left; [|done].
      exists r0. rewrite (dl_toDestroy _ _ _ _ Hdeleted). split; [|done].
      by apply (cu_kept _ _ Hcull).
  - intros r [p Hl]. destruct (co_lookup _ _ _ Honly p r Hl) as [Hl2|Hp].
    + left. exists p. by rewrite Hlook.
    + right. exists f. split; [done|]. by eapply rtc_once, Hfront.
  - intros r (r0 & Hin & Hchain). rewrite (dl_toDestroy _ _ _ _ Hdeleted) in Hin.
    pose proof (turn_chain_back c1 c2 c' f rp2 Hcull Hf2 W2 Hdeleted _ _ Hchain) as Hback.
    destruct (co_toDestroy _ _ _ Honly r0 Hin) as [Hrest|(p & Hp & Hl)].
    + exists r0. split; [|done]. rewrite Hd. by right.
    + exists f. split; [done|]. eapply rtc_l; [by eapply Hfront|done].
Qed.

(** The state the loop ends in: exactly the processes no chain of links connects
    to a doomed one are still alive. *)
Record swept_from c c' : Prop := {
  sw_wf : wf c';
  sw_owns : owns_slots c';
  sw_empty : toDestroy_ c' = [];
  sw_alive r : alive c' r ↔ alive c r ∧ ¬ doom_reach c r;
}.

Lemma destroy_turns_Ok n c :
  wf c → owns_slots c → budget c ≤ n →
  ∃ c', destroy_turns n c = Ok tt c' ∧ swept_from c c'.
Proof.
  revert c. induction n as [|n IH]; intros c W Hown Hn;
    (destruct (toDestroy_ c) as [|d rest] eqn:Hd;
     [exists c; split; [simpl; unfold bind, gets; by rewrite Hd|];
      split; try done; intros r; split; [|by intros [? _]]; intros Ha; split; [done|];
      intros (r0 & Hin & _); rewrite Hd in Hin; by apply not_elem_of_nil in Hin|]).
  { unfold budget in Hn. rewrite Hd in Hn. simpl in Hn. lia. }
  destruct (destroy_front_Ok c W Hown)
    as (c1 & Hr1 & W1 & Hown1 & Hb & Hm1 & Hreach & Hkeep & Hback); [by rewrite Hd|].
  destruct (IH c1 W1 Hown1) as (c' & Hr' & [W' Hown' Hempty Halive]); [lia|].
  exists c'. split.
  - simpl. unfold bind at 1, gets. rewrite Hd. by rewrite (bind_run _ _ _ _ _ Hr1).
  - split; try done. intros r. rewrite Halive. split.
    + intros [Ha Hn1]. split; [by apply Hm1|]. intros Hr. by destruct (Hreach r Hr).
    + intros [Ha Hnr]. split; [by destruct (Hkeep r Ha)|]. by intros ?%Hback.
Qed.

Lemma destroy_loop_Ok c :
  wf c → owns_slots c → ∃ c', destroy_loop c = Ok tt c' ∧ swept_from c c'.
Proof.
  intros W Hown. apply destroy_turns_Ok; [done|done|].
  unfold budget. pose proof (occupied_length (processes_ c)). lia.
Qed.

Lemma swept_freed c c' r : swept_from c c' → wf c → doom_reach c r → rps c' !! r = None.
Proof.
  intros [W' _ Hempty Halive] W Hr. destruct (rps c' !! r) as [rp|] eqn:Hrp; [exfalso|done].
  destruct (wf_rp _ _ W' _ _ Hrp) as [Hi|[_ Hin]].
  - destruct (proj1 (Halive r)); [|done]. exists (pid rp).
    apply (lookup_proc_Some _ _ _ _ W'). split; [done|by exists rp].
  - unfold doomed in Hin. rewrite Hempty in Hin. by apply not_elem_of_nil in Hin.
Qed.
End loop.
