(* ===== verification/Scheduler.v ===== *)
(** * The scheduler: resuming processes and running the context

    Models [RunningProcess::resume], [send] and [waitingFor],
    [Context::processQueueItem] and [Context::run]. Resuming the coroutine of a
    process is the interface [TaskResume]: the scheduler's theorems hold for any
    implementation that touches the context only through the operations [Op] and
    the task stored in a running process. *)

From S2P Require Import Prelude.
From S2P Require Import BaseTypes.
From S2P Require Import Logging.
From S2P Require Import Future.
From S2P Require Import Slot.
From S2P Require Import Waiting.
From S2P Require Import IoService.
From S2P Require Import Process.
From S2P Require Import Context.
From S2P Require Import Lifecycle.
From S2P Require Import ContextFacts.
From S2P Require Import LifecycleFacts.
From S2P Require Import Destruction.

(** [ProcessTask::resume] of the task of running process [r]: it runs the
    coroutine until it suspends, stores the new task state, and returns what the
    coroutine now waits for (null when it has finished). *)
Class TaskResume (T : Type) `{Program} `{IoService Handler} :=
  task_resume : Ptr → M (Context T) (option IWaiting).

Class TaskResumeLaws (T : Type) `{P : Program} `{IO : IoService Handler} `{!TaskModel T}
    `{!TaskResume T} :=
  task_resume_within : ∀ (R : relation (Context T)), PreOrder R →
    (∀ this A (o : Op A), within R (exec_op this o)) →
    (∀ r t, within R (update_rp r (set_task t))) →
    ∀ r, within R (task_resume r).

Section scheduler.
Context {T : Type} `{P : Program} `{IO : IoService Handler} `{TM : !TaskModel T}.
Context `{TR : !TaskResume T}.
Implicit Types c : Context T.

Definition set_timer (f : io → io) : M (Context T) unit :=
  modify (λ c, set_io (f (ioService_ c)) c).

(** [lastWaiting->wakeOnFuture()->process()]. *)
Definition process_last (rp : RunningProcess T) : M (Context T) unit :=
  match lastWaiting rp with
  | Some w => match wakeOnFuture w with
              | Some p => process_promise p
              | None => ret tt
              end
  | None => ret tt
  end.

(** The inner [try]: [false] when the process is done or has thrown. *)
Definition resume_task (this : Ptr) : M (Context T) bool :=
  try_catch
    (let! rp := load_rp this in
     process_last rp ;;;
     update_rp this (λ rp, set_resumes (succ64 (resumes rp)) rp) ;;;
     let! w := task_resume this in
     update_rp this (set_lastWaiting w) ;;;
     let! rp := load_rp this in
     if task_done (task rp) then
       addtoDestroy (pid rp) "" ;;;
       ret false
     else ret true)
    (λ what,
     let! rp := load_rp this in
     addtoDestroy (pid rp) (concatString ["Caught exception: "; what]) ;;;
     ret false).

(** What follows: how the process is to be resumed next. *)
Definition schedule_next (this : Ptr) : M (Context T) unit :=
  let! rp := load_rp this in
  match lastWaiting rp with
  | None => undefined NullDereference
  | Some w =>
      if isReadyForResume w then queueResume (pid rp) (resumes rp)
      else
        match sleepFor w with
        | Some t => set_timer (io_timer_wait this t (TimerDone this))
        | None => ret tt
        end ;;;
        match wakeOnFuture w with
        | Some p => update_promise p (setContinuation tt (ResumeIf this (resumes rp)))
        | None => ret tt
        end
  end.

Definition resume (this : Ptr) : M (Context T) unit :=
  try_catch
    (let! rp := load_rp this in
     if dead rp then ret tt
     else
       set_timer (io_timer_cancel this) ;;;
       let! go := resume_task this in
       if go then schedule_next this else ret tt)
    (λ what, ESLOG discard FATAL ["Uncaught "; what]).

Definition waitingFor (s : SlotId) (rp : RunningProcess T) : bool :=
  match lastWaiting rp with
  | Some w => isWaiting s w
  | None => false
  end.

Definition send (this : Ptr) (s : SendAddress) (m : Message payload) : M (Context T) unit :=
  let! rp := load_rp this in
  let waiting := waitingFor (sa_slot s) rp in
  slot_push (sa_slot s) m ;;;
  if waiting then resume this else ret tt.

Definition processQueueItem (i : ToProcessItem payload) : M (Context T) unit :=
  match item_message i with
  | Some (a, m) =>
      let! it := findProc (item_pid i) in
      match it with
      | Some r => send r a m
      | None => ret tt
      end
  | None => ret tt
  end ;;;
  match item_resume i with
  | Some n =>
      let! it := findProc (item_pid i) in
      match it with
      | Some r =>
          let! rp := load_rp r in
          if bool_decide (resumes rp = n) then resume r else ret tt
      | None => ret tt
      end
  | None => ret tt
  end.

(** The two lambdas handed to the io_service. *)
Definition run_handler (h : Handler) : M (Context T) unit :=
  match h with
  | RunContinuation (ResumeIf this n) =>
      let! rp := load_rp this in
      if bool_decide (resumes rp = n) then resume this else ret tt
  | TimerDone this error =>
      if bool_decide (error = operation_aborted) then ret tt else resume this
  end.

(** A call on the io_service that may hand over a handler. *)
Definition call_io (f : io → io * option Handler) : M (Context T) (option Handler) := λ c,
  let (i, o) := f (ioService_ c) in Ok o (set_io i c).

Definition run_one : M (Context T) unit :=
  let! o := call_io io_run_one in
  match o with
  | Some h => run_handler h
  | None => ret tt
  end.

(** [ioService_.poll()]: whether it ran a handler. *)
Fixpoint poll (fuel : nat) : M (Context T) bool :=
  let! o := call_io io_poll_one in
  match o, fuel with
  | None, _ => ret false
  | Some _, 0 => stop OutOfFuel
  | Some h, Datatypes.S fuel' => run_handler h ;;; poll fuel' ;;; ret true
  end.

(** [while (ioService_.poll());] *)
Fixpoint poll_loop (fuel : nat) : M (Context T) unit :=
  let! b := poll fuel in
  match b, fuel with
  | false, _ => ret tt
  | true, 0 => stop OutOfFuel
  | true, Datatypes.S fuel' => poll_loop fuel'
  end.

(** The body of the [while] loop of [run]. *)
Definition iteration (fuel : nat) : M (Context T) unit :=
  let! q := gets queue_ in
  match q with
  | i :: rest => modify (set_queue rest) ;;; processQueueItem i
  | [] => run_one ;;; poll_loop fuel
  end ;;;
  destroy_loop.

(** [run]: the exceptions it rethrows pass through. *)
Fixpoint run (fuel : nat) : M (Context T) unit :=
  let! c := get in
  if bool_decide (length (processes_ c) = length (tombstones_ c)) then ret tt
  else match fuel with
       | 0 => stop OutOfFuel
       | Datatypes.S fuel' => iteration fuel' ;;; run fuel'
       end.
End scheduler.

(** ** Effects of the scheduler

    A preorder that allows what process code does ([extends]), cancelling a timer
    and scheduling the next resumption allows every step up to a handler. *)

Section effects.
Context {T : Type} `{P : Program} `{IO : IoService Handler} `{TM : !TaskModel T}.
Context `{TR : !TaskResume T} `{TL : !TaskResumeLaws T}.
Context (R : relation (Context T)) `{!PreOrder R}.
Context (Hextends : ∀ c c', extends [] c c' → R c c').
Context (Hcancel : ∀ this, within R (set_timer (io_timer_cancel this))).
Context (Hnext : ∀ this, within R (schedule_next this)).

Lemma sch_ext {A} (m : M (Context T) A) : within (extends []) m → within R m.
Proof. intros Hm c c' Hf. by apply Hextends, Hm. Qed.
Lemma sch_sc {A} (m : M (Context T) A) : within same_core m → within R m.
Proof. intros Hm. by apply sch_ext, ex_of_sc. Qed.
Lemma sch_task_resume r : within R (task_resume r).
Proof. apply sch_ext, task_resume_within; intros; auto with within. apply _. Qed.
Lemma sch_addtoDestroy p reason : within R (addtoDestroy p reason).
Proof. apply sch_ext, ex_addtoDestroy. Qed.
Lemma sch_update_rp r f : (∀ rp, same_identity rp (f rp)) → within R (update_rp r f).
Proof. intros Hf. by apply sch_ext, ex_update_rp. Qed.
Hint Resolve sch_sc sch_task_resume sch_addtoDestroy Hcancel Hnext : within.
Hint Extern 1 (within _ (update_rp _ _)) =>
  apply sch_update_rp; intros ?; by split_and! : within.

Lemma sch_process_last rp : within R (process_last rp).
Proof. unfold process_last. within_solve. Qed.
Hint Resolve sch_process_last : within.
Lemma sch_resume_task this : within R (resume_task this).
Proof. unfold resume_task. within_solve. Qed.
Hint Resolve sch_resume_task : within.
Lemma sch_resume this : within R (resume this).
Proof. unfold resume. within_solve. Qed.
Hint Resolve sch_resume : within.
Lemma sch_send this s m : within R (send this s m).
Proof. unfold send. within_solve. Qed.
Hint Resolve sch_send : within.
Lemma sch_processQueueItem i : within R (processQueueItem i).
Proof. unfold processQueueItem. within_solve. Qed.
Lemma sch_run_handler h : within R (run_handler h).
Proof. unfold run_handler. within_solve. Qed.
End effects.

(** ** Everything the scheduler does evolves the process table *)

Section facts.
Context {T : Type} `{P : Program} `{IO : IoService Handler} `{TM : !TaskModel T}.
Context `{TR : !TaskResume T} `{TL : !TaskResumeLaws T}.
Implicit Types c : Context T.
Local Abbreviation R := (evolves (T:=T) []).

(** The table does not depend on the io_service. *)
Lemma set_io_evolves extra i c : evolves extra c (set_io i c).
Proof.
  intros W. split_and!; [by destruct W|done|]. intros _.
  assert (∀ p, retired c p → retired (set_io i c) p) by (intros p []; by split).
  split; [done|]. intros p [?|?]; [by left|right; auto].
Qed.
Lemma set_queue_evolves extra q c : evolves extra c (set_queue q c).
Proof. apply quiet_evolves. by split. Qed.

Lemma ev_set_timer f : within R (set_timer f).
Proof. apply within_modify. intros c. apply set_io_evolves. Qed.
Lemma ev_call_io f : within R (call_io f).
Proof.
  intros c c'. unfold call_io. destruct (f (ioService_ c)) as [i o]. intros [= <-].
  apply set_io_evolves.
Qed.
Lemma ev_set_queue q : within R (modify (set_queue q)).
Proof. apply within_modify. intros c. apply set_queue_evolves. Qed.
Hint Resolve ev_set_timer ev_call_io ev_set_queue ev_destroy_loop : within.

Lemma ev_schedule_next this : within R (schedule_next this).
Proof. unfold schedule_next. within_solve. Qed.
Hint Resolve ev_schedule_next : within.

Lemma ev_processQueueItem i : within R (processQueueItem i).
Proof. apply sch_processQueueItem; auto with within. apply _. by intros ?? []. Qed.
Lemma ev_resume this : within R (resume this).
Proof. apply sch_resume; auto with within. apply _. by intros ?? []. Qed.
Lemma ev_run_handler h : within R (run_handler h).
Proof. apply sch_run_handler; auto with within. apply _. by intros ?? []. Qed.
Hint Resolve ev_processQueueItem ev_run_handler : within.
Lemma ev_run_one : within R run_one.
Proof. unfold run_one. within_solve. Qed.
Lemma ev_poll fuel : within R (poll fuel).
Proof. induction fuel; within_solve. Qed.
Hint Resolve ev_run_one ev_poll : within.
Lemma ev_poll_loop fuel : within R (poll_loop fuel).
Proof. induction fuel; within_solve. Qed.
Hint Resolve ev_poll_loop : within.
Lemma ev_iteration fuel : within R (iteration fuel).
Proof. unfold iteration. within_solve. Qed.
Hint Resolve ev_iteration : within.
Lemma ev_run fuel : within R (run fuel).
Proof. induction fuel; within_solve. Qed.
End facts.
