(* ===== verification/Steps.v ===== *)
(** * The run loop as a transition system

    [Context::run] in small steps, between which the state of the context can be
    observed: at the head of the loop, between the handlers of the poll loop, and
    between the turns of the destruction loop. [run] refines it; invariants of
    its reachable states are what the runtime maintains. *)

From S2P Require Import Prelude.
From S2P Require Import BaseTypes.
From S2P Require Import Future.
From S2P Require Import Slot.
From S2P Require Import Waiting.
From S2P Require Import IoService.
From S2P Require Import Process.
From S2P Require Import Context.
From S2P Require Import Lifecycle.
From S2P Require Import ContextFacts.
From S2P Require Import LifecycleFacts.
From S2P Require Import Destruction.
From S2P Require Import Scheduler.

(** Where control is. The head of the loop is also where [main] is before it
    calls [run]. *)
Inductive control := AtLoop | InPoll | AtDestroy.

Section steps.
Context {T : Type} `{P : Program} `{IO : IoService Handler} `{TM : !TaskModel T}.
Context `{TR : !TaskResume T}.
Implicit Types c : Context T.
Local Abbreviation State := (control * Context T)%type.

(** The handler of an io_service call, if there is one. *)
Definition handle (o : option Handler) : M (Context T) unit :=
  match o with Some h => run_handler h | None => ret tt end.

Inductive step : relation State :=
  | step_spawn cl a c c' :
      final (spawn cl a c) = Some c' → step (AtLoop, c) (AtLoop, c')
  | step_item i rest c c' :
      queue_ c = i :: rest → processQueueItem i (set_queue rest c) = Ok tt c' →
      step (AtLoop, c) (AtDestroy, c')
  | step_run_one o c c1 c' :
      queue_ c = [] → call_io io_run_one c = Ok o c1 → handle o c1 = Ok tt c' →
      step (AtLoop, c) (InPoll, c')
  | step_poll h c c1 c' :
      call_io io_poll_one c = Ok (Some h) c1 → run_handler h c1 = Ok tt c' →
      step (InPoll, c) (InPoll, c')
  | step_poll_returns c c' :
      call_io io_poll_one c = Ok None c' → step (InPoll, c) (InPoll, c')
  | step_poll_done c c' :
      call_io io_poll_one c = Ok None c' → step (InPoll, c) (AtDestroy, c')
  | step_destroy c c' :
      toDestroy_ c ≠ [] → destroy_front c = Ok tt c' → step (AtDestroy, c) (AtDestroy, c')
  | step_destroyed c :
      toDestroy_ c = [] → step (AtDestroy, c) (AtLoop, c).

(** Reached from a new context. *)
Definition reachable (s : State) : Prop := ∃ i, rtc step (AtLoop, new_context i) s.

(** ** [run] is a sequence of steps *)

Lemma gets_run {A} (f : Context T → A) c : gets f c = Ok (f c) c.
Proof. done. Qed.

Lemma call_io_Ok f c : ∃ o c1, call_io f c = Ok o c1.
Proof. unfold call_io. destruct (f (ioService_ c)) as [i o]. by eexists _, _. Qed.

Lemma poll_steps fuel c b c' :
  poll fuel c = Ok b c' →
  rtc step (InPoll, c) (InPoll, c') ∧ (b = false → step (InPoll, c) (AtDestroy, c')).
Proof.
  revert c b. induction fuel as [|fuel IH]; intros c b; simpl;
    destruct (call_io_Ok io_poll_one c) as (o & c1 & Hio); rewrite (bind_run _ _ _ _ _ Hio);
    destruct o as [h|]; try (intros [= <- <-]); try done;
    try (split; [by apply rtc_once, step_poll_returns|intros _; by apply step_poll_done]).
  intros (u & c2 & Hh & (b2 & c3 & Hp & Hr)%bind_Ok)%bind_Ok. destruct u.
  injection Hr as <- <-. destruct (IH _ _ Hp) as [Hs _]. split; [|done].
  eapply rtc_l; [by eapply step_poll|done].
Qed.

Lemma poll_loop_eq fuel :
  poll_loop fuel =
    (let! b := poll fuel in
     match b, fuel with
     | false, _ => ret tt
     | true, 0 => stop OutOfFuel
     | true, Datatypes.S fuel' => poll_loop fuel'
     end).
Proof. by destruct fuel. Qed.

Lemma poll_loop_steps fuel c c' :
  poll_loop fuel c = Ok tt c' → rtc step (InPoll, c) (AtDestroy, c').
Proof.
  revert c. induction fuel as [|fuel IH]; intros c; rewrite poll_loop_eq;
    intros (b & c1 & Hp & Hl)%bind_Ok;
    destruct (poll_steps _ _ _ _ Hp) as [Hs Hd]; destruct b; try done;
    try (injection Hl as <-; by apply rtc_once, Hd).
  etrans; [exact Hs|by apply IH].
Qed.

Lemma destroy_turns_steps fuel c c' :
  destroy_turns fuel c = Ok tt c' → rtc step (AtDestroy, c) (AtLoop, c').
Proof.
  revert c. induction fuel as [|fuel IH]; intros c; simpl;
    rewrite (bind_run _ _ _ _ _ (gets_run toDestroy_ c));
    destruct (toDestroy_ c) as [|d rest] eqn:Hd; try done;
    try (intros [= <-]; by apply rtc_once, step_destroyed).
  intros (u & c1 & Hf & Ht)%bind_Ok. destruct u.
  eapply rtc_l; [apply step_destroy; [by rewrite Hd|done]|by apply IH].
Qed.

Lemma destroy_loop_steps c c' :
  destroy_loop c = Ok tt c' → rtc step (AtDestroy, c) (AtLoop, c').
Proof. apply destroy_turns_steps. Qed.

Lemma iteration_steps fuel c c' :
  iteration fuel c = Ok tt c' → rtc step (AtLoop, c) (AtLoop, c').
Proof.
  unfold iteration. rewrite (bind_run _ _ _ _ _ (gets_run queue_ c)).
  intros (u & c1 & Hb & Hd%destroy_loop_steps)%bind_Ok. destruct u.
  etrans; [|exact Hd]. clear Hd. destruct (queue_ c) as [|i rest] eqn:Hq.
  - apply bind_Ok in Hb as (u & c2 & Ho & Hp%poll_loop_steps). destruct u.
    apply bind_Ok in Ho as (o & c3 & Hio & Hh).
    eapply rtc_l; [by eapply step_run_one|done].
  - apply rtc_once, (step_item i rest); done.
Qed.

Lemma run_steps fuel c c' :
  run fuel c = Ok tt c' → rtc step (AtLoop, c) (AtLoop, c').
Proof.
  revert c. induction fuel as [|fuel IH]; intros c; simpl; unfold bind at 1, get;
    case_bool_decide; try done; try (by intros [= <-]).
  intros ([] & c1 & Hi%iteration_steps & Hr%IH)%bind_Ok. by etrans.
Qed.

Lemma run_ends fuel c c' :
  run fuel c = Ok tt c' → length (processes_ c') = length (tombstones_ c').
Proof.
  revert c. induction fuel as [|fuel IH]; intros c; simpl;
    unfold bind at 1, get; case_bool_decide; try done; try (by intros [= <-]).
  intros ([] & c1 & _ & Hr)%bind_Ok. by eapply IH.
Qed.
End steps.

(** ** Properties *)

