(* ===== verification/Safety.v ===== *)
(** * Safety of the process table

    What holds in every reachable state of the run loop: the table is well
    formed, pids are never used twice, lookups find exactly the live processes,
    and when [run] returns nothing is left. *)

From S2P Require Import Prelude.
From S2P Require Import BaseTypes.
From S2P Require Import Future.
From S2P Require Import Slot.
From S2P Require Import Waiting.
From S2P Require Import IoService.
From S2P Require Import Process.
From S2P Require Import Context.
From S2P Require Import Lifecycle.
From S2P Require Import ContextFacts.
From S2P Require Import LifecycleFacts.
From S2P Require Import Destruction.
From S2P Require Import Scheduler.
From S2P Require Import Steps.

Section safety.
Context {T : Type} `{P : Program} `{IO : IoService Handler} `{TM : !TaskModel T}.
Context `{TR : !TaskResume T} `{TL : !TaskResumeLaws T}.
Implicit Types c : Context T.

Lemma within_Ok {A} R (m : M (Context T) A) a c c' : within R m → m c = Ok a c' → R c c'.
Proof. intros Hm H. apply Hm. by rewrite H. Qed.

Lemma handle_evolves o : within (evolves (T:=T) []) (handle o).
Proof. destruct o; simpl; [apply ev_run_handler|apply within_ret; apply _]. Qed.

Lemma step_evolves pc c pc' c' : step (pc, c) (pc', c') → evolves [] c c'.
Proof.
  inversion 1; subst.
  - by eapply (ev_spawnWith [] id).
  - etrans; [by apply set_queue_evolves|]. by eapply within_Ok; [apply ev_processQueueItem|].
  - etrans; (eapply within_Ok; [|done]); [apply ev_call_io|apply handle_evolves].
  - etrans; (eapply within_Ok; [|done]); [apply ev_call_io|apply ev_run_handler].
  - by eapply within_Ok; [apply ev_call_io|].
  - by eapply within_Ok; [apply ev_call_io|].
  - by eapply within_Ok; [apply ev_destroy_front|].
  - done.
Qed.

Lemma steps_evolve s s' : rtc step s s' → evolves [] s.2 s'.2.
Proof.
  induction 1 as [s|[pc c] [pc1 c1] s' Hstep _ IH]; [done|].
  etrans; [by eapply step_evolves|done].
Qed.

Lemma reachable_is_wf s : reachable s → wf s.2.
Proof. intros [i Hs%steps_evolve]. by apply Hs, new_context_wf. Qed.

(** Nothing is waiting to be destroyed at the head of the loop. *)
Definition swept (s : control * Context T) : Prop :=
  s.1 = AtLoop → toDestroy_ s.2 = [].

Lemma spawnWith_toDestroy extra (f : ProcessArgs → ProcessArgs) cl a c c' :
  (∀ x, args_pid (f x) = args_pid x) → wf_with extra c →
  final (spawnWith f cl a c) = Some c' → toDestroy_ c' = toDestroy_ c.
Proof.
  intros Hf W. destruct (spawnWith_spec extra f cl a c Hf W) as (p & c1 & Htook & Hp).
  assert (Hc1 : toDestroy_ c1 = toDestroy_ c) by by destruct Htook.
  destruct (spawnWith f cl a c) as [q c2|e c2|]; intros [= <-]; simpl in Hp.
  - destruct Hp as (_ & c2' & r & rp & Hq & Hreg).
    by rewrite (rg_toDestroy _ _ _ _ _ Hreg), (q_toDestroy _ _ _ Hq).
  - by rewrite (q_toDestroy _ _ _ Hp).
Qed.

Lemma steps_swept s s' : rtc step s s' → wf s.2 → swept s → swept s'.
Proof.
  induction 1 as [s|[pc c] [pc1 c1] s' Hstep _ IH]; [done|]. intros W Hs.
  apply IH; [by eapply step_evolves|]. unfold swept in *. simpl in *.
  inversion Hstep; subst; simpl; try done.
  intros _. rewrite <- Hs by done. by apply (spawnWith_toDestroy [] id cl a).
Qed.

Lemma reachable_swept s : reachable s → swept s.
Proof. intros [i Hs]. eapply steps_swept; [exact Hs|apply new_context_wf|done]. Qed.

(** When every entry has a tombstone, every entry is empty. *)
Lemma all_tombstones extra c :
  wf_with extra c → length (processes_ c) = length (tombstones_ c) →
  ∀ i r, processes_ c !! i ≠ Some (Some r).
Proof.
  intros W Hlen i r Hi.
  set (ixs := (λ t, N.to_nat (idx_ t)) <$> tombstones_ c).
  assert (Hsub : ixs ⊆+ seq 0 (length (processes_ c))).
  { apply NoDup_submseteq; [apply W|]. intros j (t & -> & Ht)%list_elem_of_fmap.
    apply elem_of_seq. pose proof (lookup_lt_Some _ _ _ (wf_tomb _ _ W _ Ht)). lia. }
  assert (Hperm : ixs ≡ₚ seq 0 (length (processes_ c))).
  { apply submseteq_length_Permutation; [done|]. unfold ixs.
    rewrite length_seq, length_fmap. lia. }
  assert (Hin : i ∈ ixs).
  { rewrite Hperm. apply elem_of_seq. apply lookup_lt_Some in Hi. lia. }
  apply list_elem_of_fmap in Hin as (t & -> & Ht).
  pose proof (wf_tomb _ _ W _ Ht). congruence.
Qed.

Lemma run_returns_empty fuel c c' :
  wf c → toDestroy_ c = [] → run fuel c = Ok tt c' →
  wf c' ∧ toDestroy_ c' = [] ∧ length (processes_ c') = length (tombstones_ c').
Proof.
  intros W Hd Hr. pose proof (run_steps _ _ _ Hr) as Hs. split_and!.
  - by eapply (steps_evolve _ _ Hs).
  - exact (steps_swept _ _ Hs W (λ _, Hd) eq_refl).
  - by eapply run_ends.
Qed.
End safety.

(** ** Properties *)

Section properties.
Context {T : Type} `{P : Program} `{IO : IoService Handler} `{TM : !TaskModel T}.
Context `{TR : !TaskResume T} `{TL : !TaskResumeLaws T}.
Implicit Types c : Context T.


(** C4: every state the run loop reaches is well formed, whatever the processes
    do: occupied entries own live processes that know their index, tombstones
    mark distinct empty entries, each process is in its entry or exactly once on
    its way to destruction, and owns a process object of its own. *)
Theorem reachable_wf pc c (Hreach : reachable (T:=T) (pc, c)) : wf c.
Proof. exact (reachable_is_wf (pc, c) Hreach). Qed.

(** C5: a pid that was handed out and is no longer live is never found again, by
    any later state of the run, as long as fewer than [2^64] objects were
    allocated: entries are reused, pids are not. *)
Theorem dead_pids_stay_dead pc c pc' c' p
    (Hreach : reachable (T:=T) (pc, c)) (Hsteps : rtc step (pc, c) (pc', c'))
    (Hissued : issued c p) (Hdead : ¬ live c p) (Hunwrapped : unwrapped c') :
  findProc p c' = Ok None c'.
Proof.
  pose proof (reachable_is_wf _ Hreach) as W. simpl in W.
  destruct (steps_evolve _ _ Hsteps W) as (W' & _ & Hrest). simpl in *.
  destruct (Hrest Hunwrapped) as [Hret _]. destruct Hissued as [?|Hr]; [done|].
  rewrite (findProc_eq _ _ _ W'). f_equal. by eapply retired_not_live, Hret.
Qed.

(** C33: a successful spawn returns a pid never handed out before; afterwards it
    is live, its first resumption is queued behind everything else, and every
    pid known before is still known. *)
Theorem spawn_returns_fresh_pid extra cl a c p c'
    (Hwf : wf_with extra c) (Hspawn : spawn (T:=T) cl a c = Ok p c') :
  live c' p ∧ last (queue_ c') = Some (mkItem p (Some 0%N) None) ∧
  (unwrapped c' → ¬ issued c p ∧ ∀ q, issued c q → issued c' q).
Proof.
  unfold spawn in Hspawn.
  pose proof (spawnWith_spawned extra id cl a c (λ _, eq_refl) Hwf) as Hs.
  destruct (spawnWith_spec extra id cl a c (λ _, eq_refl) Hwf) as (p1 & c1 & _ & Hq).
  rewrite Hspawn in Hs, Hq. simpl in Hs, Hq. destruct Hs as (Hev & Hl & Hfresh).
  destruct Hq as (-> & c2 & r & rp & _ & Hreg). split_and!; [done| |].
  - by rewrite (rg_queue _ _ _ _ _ Hreg), last_snoc.
  - intros Hu. split; [by apply Hfresh|]. by destruct (Hev Hwf) as (_ & _ & H); apply H.
Qed.

(** C3: when [run] returns, every process is gone: none is live, none is left to
    be destroyed, and the memory of each has been freed. *)
Theorem run_frees_all fuel c c'
    (Hreach : reachable (AtLoop, c)) (Hrun : run fuel c = Ok tt c') :
  rps c' = ∅ ∧ toDestroy_ c' = [] ∧ ∀ p, ¬ live c' p.
Proof.
  pose proof (reachable_is_wf _ Hreach) as W.
  pose proof (reachable_swept _ Hreach eq_refl) as Hd.
  destruct (run_returns_empty _ _ _ W Hd Hrun) as (W' & Hd' & Hlen).
  pose proof (all_tombstones _ _ W' Hlen) as Hnone.
  split_and!; [|done|].
  - apply map_eq. intros r. rewrite lookup_empty.
    destruct (rps c' !! r) as [rp|] eqn:Hr; [exfalso|done].
    destruct (wf_rp _ _ W' _ _ Hr) as [?|[_ Hin]]; [by eapply Hnone|].
    unfold doomed in Hin. rewrite Hd' in Hin. by apply not_elem_of_nil in Hin.
  - intros p [r Hl]. apply (lookup_proc_Some _ _ _ _ W') in Hl as [Hi _]. by eapply Hnone.
Qed.

(** [findProc] never fails and finds exactly the live processes: a pid yields
    the running process that is not dead, sits in the entry of its index and has
    this very pid, and [end()] when there is none. *)
Theorem findProc_finds_live extra c p (Hwf : wf_with extra c) :
  ∃ o, findProc p c = Ok o c ∧
    match o with
    | Some r => ∃ rp, rps c !! r = Some rp ∧ pid rp = p ∧ dead rp = false ∧
                      processes_ c !! N.to_nat (idx_ p) = Some (Some r)
    | None => ∀ r rp, rps c !! r = Some rp → pid rp = p → dead rp = true
    end.
Proof.
  exists (lookup_proc c p). split; [by eapply findProc_eq|].
  destruct (lookup_proc c p) as [r|] eqn:Hl.
  - apply (lookup_proc_Some _ _ _ _ Hwf) in Hl as (Hi & rp & Hr & Hp).
    destruct (wf_live _ _ Hwf _ _ Hi) as (rp' & Hr' & _ & Hd).
    exists rp. split_and!; congruence.
  - intros r rp Hr Hp. destruct (wf_rp _ _ Hwf _ _ Hr) as [Hi|[? _]]; [|done].
    assert (Hl' : lookup_proc c p = Some r); [|congruence].
    apply (lookup_proc_Some _ _ _ _ Hwf). rewrite <- Hp. split; [done|by exists rp].
Qed.

(** Killing a live process empties its entry, marks it, lists it for
    destruction with the reason and leaves every other pid as it was; killing any
    other pid changes nothing, so a second kill has no effect. *)
Theorem addtoDestroy_kills_once extra c p reason (Hwf : wf_with extra c) :
  ∃ c', addtoDestroy p reason c = Ok tt c' ∧ wf_with extra c' ∧
    addtoDestroy p reason c' = Ok tt c' ∧
    (∀ q, lookup_proc c' q = if bool_decide (q = p) then None else lookup_proc c q) ∧
    match lookup_proc c p with
    | None => c' = c
    | Some r => dead <$> rps c' !! r = Some true ∧
                toDestroy_ c' = toDestroy_ c ++ [(r, reason)] ∧
                tombstones_ c' = tombstones_ c ++ [p]
    end.
Proof.
  destruct (addtoDestroy_Ok extra c p reason Hwf) as (c' & Hk & W' & Hcull & Hp & _).
  exists c'. split_and!; [done|done|by rewrite (addtoDestroy_eq _ _ _ _ W'), Hp| |].
  - intros q. case_bool_decide as Hq; [by subst|].
    rewrite (addtoDestroy_eq _ _ _ _ Hwf) in Hk.
    destruct (lookup_proc c p) as [r|] eqn:Hl; [|by simplify_eq].
    destruct (rps c !! r) as [rp|] eqn:Hr; simplify_eq.
    by eapply killed_lookup_ne.
  - rewrite (addtoDestroy_eq _ _ _ _ Hwf) in Hk.
    destruct (lookup_proc c p) as [r|] eqn:Hl; [|by simplify_eq].
    destruct (rps c !! r) as [rp|] eqn:Hr; simplify_eq. simpl.
    by rewrite lookup_insert_eq.
Qed.
End properties.
