(* ===== verification/Timers.v ===== *)
(** * Timers never outlive their process

    The completion of a timer wait captures a raw [this]. [run] polls until the
    io_service has nothing ready before it destroys anything, and the destructor
    of a process cancels its timer: so a successful completion is never invoked
    for a process that has been freed. *)

From S2P Require Import Prelude.
From S2P Require Import BaseTypes.
From S2P Require Import Future.
From S2P Require Import Slot.
From S2P Require Import Waiting.
From S2P Require Import IoService.
From S2P Require Import Process.
From S2P Require Import Context.
From S2P Require Import Lifecycle.
From S2P Require Import ContextFacts.
From S2P Require Import LifecycleFacts.
From S2P Require Import Destruction.
From S2P Require Import Scheduler.
From S2P Require Import Steps.
From S2P Require Import Safety.

Section timers.
Context {T : Type} `{P : Program} `{IO : IoService Handler} `{TM : !TaskModel T}.
Context `{TR : !TaskResume T} `{TL : !TaskResumeLaws T} `{IL : !IoServiceLaws Handler}.
Implicit Types c : Context T.

(** Timers belong to running processes, and so do the processes successful
    completions would resume. *)
Record timers_ok c : Prop := {
  tm_waiting t g : io_waiting (ioService_ c) t g → g = TimerDone t ∧ is_Some (rps c !! t);
  tm_queued t : io_queued (ioService_ c) (TimerDone t success) → is_Some (rps c !! t);
}.

(** No successful completion is waiting to be invoked. *)
Definition calm c : Prop := ∀ t, ¬ io_queued (ioService_ c) (TimerDone t success).

Lemma posted_io_queued i i' t e :
  posted_io i i' → io_queued i' (TimerDone t e) → io_queued i (TimerDone t e).
Proof.
  induction 1 as [|i1 i2 i3 [f ->] _ IH]; [done|]. intros H%IH.
  by apply io_post_queued in H as [?|?].
Qed.

Lemma posted_io_waiting i i' t g : posted_io i i' → io_waiting i' t g → io_waiting i t g.
Proof.
  induction 1 as [|i1 i2 i3 [f ->] _ IH]; [done|]. intros H%IH.
  by eapply io_post_waiting.
Qed.

Record ticks c c' : Prop := {
  tk_evolves : evolves [] c c';
  tk_ok : wf c → timers_ok c → timers_ok c' ∧ (calm c → calm c');
}.

#[global] Instance ticks_preorder : PreOrder ticks.
Proof.
  split; [by split|]. intros c1 c2 c3 [He12 H12] [He23 H23]. split; [by etrans|].
  intros W Ht. destruct (He12 W) as [W2 _]. destruct (H12 W Ht) as [Ht2 ?].
  destruct (H23 W2 Ht2). split; auto.
Qed.

Lemma extends_ticks c c' : extends [] c c' → ticks c c'.
Proof.
  intros [Hev Hrps Hio]. split; [done|]. intros W [Hw Hq].
  assert (Hsome : ∀ t, is_Some (rps c !! t) → is_Some (rps c' !! t)).
  { intros t [rp Hrp]. destruct (Hrps t rp W Hrp) as (rp' & ? & _). by exists rp'. }
  split; [split|].
  - intros t g Hg. destruct (Hw t g) as [-> ?]; [by eapply posted_io_waiting, Hg; apply Hio|].
    auto.
  - intros t Ht. apply Hsome, Hq. by eapply posted_io_queued, Ht; apply Hio.
  - intros Hcalm t Ht. apply (Hcalm t). by eapply posted_io_queued, Ht; apply Hio.
Qed.

Lemma set_queue_ticks q c : ticks c (set_queue q c).
Proof. apply extends_ticks, quiet_extends. by split. Qed.

(** An operation on the timer of a process that cancels what was pending. *)
Lemma retimed_ticks c i this :
  is_Some (rps c !! this) ∨ (∀ t g, io_waiting i t g → t ≠ this) →
  (∀ h, io_queued i h →
    io_queued (ioService_ c) h ∨
    ∃ g, io_waiting (ioService_ c) this g ∧ h = g operation_aborted) →
  (∀ t g, io_waiting i t g →
    t = this ∧ g = TimerDone this ∨ io_waiting (ioService_ c) t g) →
  ticks c (set_io i c).
Proof.
  intros Hthis Hq Hw. split; [apply set_io_evolves|]. intros _ [Hwait Hqueued].
  assert (Hback : ∀ t, io_queued i (TimerDone t success) →
    io_queued (ioService_ c) (TimerDone t success)).
  { intros t [?|(g & Hg & Heq)]%Hq; [done|].
    destruct (Hwait _ _ Hg) as [-> _]. done. }
  split; [split|]; simpl.
  - intros t g Hg. destruct (Hw t g Hg) as [[-> ->]|?]; [split; [done|]|by apply Hwait].
    destruct Hthis as [?|Hne]; [done|]. by destruct (Hne _ _ Hg).
  - intros t Ht. apply Hqueued; auto.
  - intros Hcalm t Ht. apply (Hcalm t). auto.
Qed.

Lemma tk_cancel this : within ticks (set_timer (io_timer_cancel this)).
Proof.
  apply within_modify. intros c. apply retimed_ticks with this.
  - right. by intros t g [? _]%io_cancel_waiting.
  - by intros h Hh%io_cancel_queued.
  - intros t g [_ ?]%io_cancel_waiting. by right.
Qed.

Lemma tk_wait this d c :
  is_Some (rps c !! this) → ticks c (set_io (io_timer_wait this d (TimerDone this) (ioService_ c)) c).
Proof.
  intros Hthis. apply retimed_ticks with this; [by left| |].
  - by intros h Hh%io_wait_queued.
  - intros t g Hg%io_wait_waiting. naive_solver.
Qed.

Lemma tk_sc {A} (m : M (Context T) A) : within same_core m → within ticks m.
Proof. intros Hm c c' Hf. by apply extends_ticks, (ex_of_sc [] m Hm). Qed.

Lemma tk_schedule_next this : within ticks (schedule_next this).
Proof.
  intros c c'. unfold schedule_next, load_rp, deref. unfold bind at 1.
  destruct (rps c !! this) as [rp|] eqn:Hr; [|done].
  destruct (lastWaiting rp) as [w|]; [|done].
  destruct (isReadyForResume w); [apply tk_sc; auto with within|].
  assert (Hend : within ticks (match wakeOnFuture w with
    | Some p => update_promise p (setContinuation tt (ResumeIf this (resumes rp)))
    | None => ret tt end)) by (destruct (wakeOnFuture w); apply tk_sc; within_solve).
  destruct (sleepFor w) as [d|]; simpl; [|by apply Hend].
  intros Hf. apply Hend in Hf. etrans; [|exact Hf]. apply tk_wait. by exists rp.
Qed.

Lemma tk_processQueueItem i : within ticks (processQueueItem i).
Proof.
  apply sch_processQueueItem; [apply _|apply extends_ticks|apply tk_cancel|apply tk_schedule_next].
Qed.
Lemma tk_run_handler h : within ticks (run_handler h).
Proof.
  apply sch_run_handler; [apply _|apply extends_ticks|apply tk_cancel|apply tk_schedule_next].
Qed.

(** A call that runs or polls makes no wait, and queues nothing for a process
    that does not exist. *)
Lemma io_call_ok f c o c' :
  f = io_run_one ∨ f = io_poll_one → timers_ok c → call_io f c = Ok o c' →
  timers_ok c' ∧ rps c' = rps c ∧ ∀ t, o = Some (TimerDone t success) → is_Some (rps c !! t).
Proof.
  intros Hf [Hw Hq]. unfold call_io.
  destruct (f (ioService_ c)) as [i o'] eqn:Hio. intros [= <- <-].
  assert (Hqueued : ∀ h, o' = Some h ∨ io_queued i h →
    io_queued (ioService_ c) h ∨ ∃ t g, io_waiting (ioService_ c) t g ∧ h = g success).
  { intros h. destruct Hf as [-> | ->]; [by apply io_run_one_queued|by apply io_poll_one_queued]. }
  assert (Hwaiting : ∀ t g, io_waiting i t g → io_waiting (ioService_ c) t g).
  { intros t g. destruct Hf as [-> | ->];
      [by eapply io_run_one_waiting|by eapply io_poll_one_waiting]. }
  assert (Hlive : ∀ t, o' = Some (TimerDone t success) ∨ io_queued i (TimerDone t success) →
    is_Some (rps c !! t)).
  { intros t [?|(t' & g & Hg & Heq)]%Hqueued; [by apply Hq|].
    destruct (Hw _ _ Hg) as [-> ?]. by injection Heq as ->. }
  split_and!; [split|done|]; simpl; auto.
Qed.

Lemma poll_done_calm c c' : call_io io_poll_one c = Ok None c' → calm c'.
Proof.
  unfold call_io. destruct (io_poll_one (ioService_ c)) as [i o] eqn:Hio. intros [= -> <-].
  intros t. simpl. by eapply io_poll_drains.
Qed.

(** Culling leaves the io_service alone. *)
Lemma destroy_body_io extra r reason c c' :
  wf_with extra c → final (destroy_body r reason c) = Some c' →
  extends extra c c'.
Proof.
  intros W Hf. assert (Hb : within (extends (T:=T) extra) (destroy_body r reason)).
  { unfold destroy_body. within_solve. }
  by apply Hb.
Qed.

Lemma deleted_timers r rp c c' :
  deleted r rp c c' → timers_ok c → calm c → timers_ok c' ∧ calm c'.
Proof.
  intros Hd [Hw Hq] Hcalm.
  assert (Hcalm' : calm c').
  { intros t Ht. apply (posted_io_queued _ _ _ _ (dl_io _ _ _ _ Hd)) in Ht.
    apply io_destroy_queued in Ht as [?|(g & Hg & Heq)]; [by apply (Hcalm t)|].
    destruct (Hw _ _ Hg) as [-> _]. done. }
  split; [split|done].
  - intros t g Hg. apply (posted_io_waiting _ _ _ _ (dl_io _ _ _ _ Hd)) in Hg.
    apply io_destroy_waiting in Hg as [Hne Hg]. destruct (Hw _ _ Hg) as [-> ?].
    split; [done|]. by rewrite (dl_rps _ _ _ _ Hd), lookup_delete_ne.
  - intros t Ht. by destruct (Hcalm' t).
Qed.

Lemma destroy_front_timers c c' :
  wf c → toDestroy_ c ≠ [] → destroy_front c = Ok tt c' →
  timers_ok c → calm c → timers_ok c' ∧ calm c'.
Proof.
  intros W Hne. destruct (toDestroy_ c) as [|[r reason] rest] eqn:Hd; [done|].
  pose proof (popped_wf _ _ _ _ W Hd) as W1.
  unfold destroy_front. rewrite (bind_run _ _ _ _ _ (gets_run toDestroy_ c)), Hd.
  unfold bind at 1, modify, destroy.
  intros (u & c2 & Hb & Hdel)%bind_Ok [Hw Hq] Hcalm.
  assert (Hb' : destroy_body r reason (set_toDestroy rest c) = Ok u c2).
  { unfold on_throw in Hb. destruct (destroy_body r reason _); simplify_eq; [done|].
    destruct (delete_rp r _); done. }
  pose proof (destroy_body_io [r] r reason _ c2 W1) as Hx. rewrite Hb' in Hx.
  destruct (Hx eq_refl) as [_ Hrps Hio]. simpl in *.
  pose proof (delete_rp_post r c2) as Hp. rewrite Hdel in Hp.
  destruct Hp as (rp & Hr & Hdeleted). apply (deleted_timers _ _ _ _ Hdeleted).
  - split.
    + intros t g Hg. destruct (Hw t g) as [-> [rp0 H0]].
      { by eapply posted_io_waiting, Hg; apply Hio. }
      destruct (Hrps t rp0 W1 H0) as (rp1 & ? & _). by split; [|exists rp1].
    + intros t Ht. destruct (Hq t) as [rp0 H0].
      { by eapply posted_io_queued, Ht; apply Hio. }
      destruct (Hrps t rp0 W1 H0) as (rp1 & ? & _). by exists rp1.
  - intros t Ht. apply (Hcalm t). by eapply posted_io_queued, Ht; apply Hio.
Qed.

(** ** The invariant *)

Definition timer_inv (s : control * Context T) : Prop :=
  wf s.2 ∧ timers_ok s.2 ∧ (s.1 ≠ InPoll → calm s.2).

Lemma handle_ticks o : within ticks (handle o).
Proof. destruct o; simpl; [apply tk_run_handler|apply within_ret; apply _]. Qed.

Lemma step_timer_inv s s' : step s s' → timer_inv s → timer_inv s'.
Proof.
  destruct s as [pc c], s' as [pc' c']. intros Hstep (W & Ht & Hcalm).
  assert (W' : wf c') by by eapply step_evolves. simpl in *. split; [done|]. simpl.
  inversion Hstep; subst; simpl in *.
  - assert (Hk : ticks c c') by by apply extends_ticks, (ex_spawnWith [] id cl a).
    destruct (tk_ok _ _ Hk W Ht). auto.
  - assert (Hk : ticks c c').
    { etrans; [apply (set_queue_ticks rest)|].
      by eapply within_Ok; [apply tk_processQueueItem|]. }
    destruct (tk_ok _ _ Hk W Ht). auto.
  - destruct (io_call_ok io_run_one c o c1) as (Ht1 & _ & _); [by left|done|done|].
    assert (W1 : wf c1) by by eapply (within_Ok _ _ _ _ _ (ev_call_io io_run_one)).
    assert (Hk : ticks c1 c') by by eapply within_Ok; [apply handle_ticks|].
    destruct (tk_ok _ _ Hk W1 Ht1). done.
  - destruct (io_call_ok io_poll_one c (Some h) c1) as (Ht1 & _ & _); [by right|done|done|].
    assert (W1 : wf c1) by by eapply (within_Ok _ _ _ _ _ (ev_call_io io_poll_one)).
    assert (Hk : ticks c1 c') by by eapply within_Ok; [apply tk_run_handler|].
    destruct (tk_ok _ _ Hk W1 Ht1). done.
  - destruct (io_call_ok io_poll_one c None c') as (Ht1 & _ & _); [by right|done..].
  - destruct (io_call_ok io_poll_one c None c') as (Ht1 & _ & _); [by right|done..|].
    split; [done|]. intros _. by eapply poll_done_calm.
  - destruct (destroy_front_timers c c') as [? ?]; auto.
  - auto.
Qed.

Lemma steps_timer_inv s s' : rtc step s s' → timer_inv s → timer_inv s'.
Proof. induction 1; [done|]. intros H1. by eapply IHrtc, step_timer_inv. Qed.
End timers.

(** ** Properties *)

(** C2: in every reachable state, the process a successful timer completion resumes
    still exists when [run_one] or [poll] invokes it, provided the io_service
    starts with nothing queued or waiting; in particular it runs without a use
    after free of its [this]. *)
Theorem timer_completion_safe {T} `{P : Program} `{IO : IoService Handler} `{TM : !TaskModel T}
    `{TR : !TaskResume T} `{TL : !TaskResumeLaws T} `{IL : !IoServiceLaws Handler}
    (i : io) pc (c : Context T) f t c1
    (Hquiet : (∀ h, ¬ io_queued i h) ∧ (∀ t g, ¬ io_waiting i t g))
    (Hreach : rtc step (AtLoop, new_context i) (pc, c))
    (Hcall : f = io_run_one ∨ f = io_poll_one)
    (Hhandler : call_io f c = Ok (Some (TimerDone t success)) c1) :
  ∃ rp, rps c1 !! t = Some rp ∧ load_rp t c1 = Ok rp c1.
Proof.
  destruct Hquiet as [Hq Hw].
  assert (Hinv : timer_inv (T:=T) (AtLoop, new_context i)).
  { split; [apply new_context_wf|]. split; [|intros _ t' ?; by eapply Hq].
    split; [intros t' g ?; by destruct (Hw t' g)|intros t' ?; by destruct (Hq (TimerDone t' success))]. }
  destruct (steps_timer_inv _ _ Hreach Hinv) as (_ & Ht & _).
  destruct (io_call_ok f c _ c1 Hcall Ht Hhandler) as (_ & Hrps & Hlive).
  destruct (Hlive t eq_refl) as [rp Hr]. exists rp. rewrite <- Hrps in Hr.
  split; [done|]. unfold load_rp, deref. by rewrite Hr.
Qed.
