(* ===== verification/Delivery.v ===== *)
(** * Delivering messages and resuming processes

    What one queue item does, what [resume] makes of the outcome of a coroutine,
    and how a suspended process is going to be woken. *)

From S2P Require Import Prelude.
From S2P Require Import BaseTypes.
From S2P Require Import Future.
From S2P Require Import Slot.
From S2P Require Import Waiting.
From S2P Require Import IoService.
From S2P Require Import Process.
From S2P Require Import Context.
From S2P Require Import HeapFacts.
From S2P Require Import Lifecycle.
From S2P Require Import ContextFacts.
From S2P Require Import LifecycleFacts.
From S2P Require Import Destruction.
From S2P Require Import Scheduler.
From S2P Require Import Steps.
From S2P Require Import Safety.

Section delivery.
Context {T : Type} `{P : Program} `{IO : IoService Handler} `{TM : !TaskModel T}.
Context `{TR : !TaskResume T} `{TL : !TaskResumeLaws T}.
Implicit Types c : Context T.

Lemma load_rp_run r rp c : rps c !! r = Some rp → load_rp r c = Ok rp c.
Proof. intros Hr. unfold load_rp, deref. by rewrite Hr. Qed.

Lemma load_obj_run o obj c : objs c !! o = Some obj → load_obj o c = Ok obj c.
Proof. intros Ho. unfold load_obj, deref. by rewrite Ho. Qed.

Lemma load_slot_run s sl c : slots c !! s = Some sl → load_slot s c = Ok sl c.
Proof. intros Hs. unfold load_slot, deref. by rewrite Hs. Qed.

Lemma update_rp_run r f rp c :
  rps c !! r = Some rp → update_rp r f c = Ok tt (set_rps (<[r := f rp]> (rps c)) c).
Proof. intros Hr. unfold update_rp. by rewrite (bind_run _ _ _ _ _ (load_rp_run _ _ _ Hr)). Qed.

Lemma findProc_run extra c p o : wf_with extra c → lookup_proc c p = o → findProc p c = Ok o c.
Proof. intros W <-. by eapply findProc_eq. Qed.

Lemma lookup_proc_rp extra c p r :
  wf_with extra c → lookup_proc c p = Some r →
  ∃ rp, rps c !! r = Some rp ∧ pid rp = p ∧ dead rp = false.
Proof.
  intros W Hl. apply (lookup_proc_Some _ _ _ _ W) in Hl as (Hi & rp & Hr & Hp).
  destruct (wf_live _ _ W _ _ Hi) as (rp' & Hr' & _ & Hd). exists rp. split_and!; congruence.
Qed.

(** The state with one more message in the queue of slot [s]. *)
Definition pushed (s : SlotId) (m : Message payload) (sl : Slot unit Function payload) c :=
  set_slots (<[s := push_slot m sl]> (slots c)) c.

Lemma deliver_run extra c p r rp a m sl :
  wf_with extra c → lookup_proc c p = Some r → rps c !! r = Some rp →
  slots c !! sa_slot a = Some sl →
  processQueueItem (mkItem p None (Some (a, m))) c =
    (if waitingFor (sa_slot a) rp then resume r else ret tt) (pushed (sa_slot a) m sl c).
Proof.
  intros W Hl Hr Hs. unfold processQueueItem. simpl.
  assert (Hsend : send r a m c =
    (if waitingFor (sa_slot a) rp then resume r else ret tt) (pushed (sa_slot a) m sl c)).
  { unfold send. rewrite (bind_run _ _ _ _ _ (load_rp_run _ _ _ Hr)).
    unfold slot_push, bind at 1. by rewrite (bind_run _ _ _ _ _ (load_slot_run _ _ _ Hs)). }
  unfold bind at 1. rewrite (bind_run _ _ _ _ _ (findProc_run _ _ _ _ W Hl)), Hsend.
  destruct (waitingFor _ _); [|done].
  destruct (resume r _) as [[]| |]; done.
Qed.

(** *** What happens around the coroutine in [resume] *)

(** Cancel the timer, process the promise waited for, count the resumption. *)
Definition prepare (r : Ptr) : M (Context T) unit :=
  set_timer (io_timer_cancel r) ;;;
  let! rp := load_rp r in
  process_last rp ;;;
  update_rp r (λ rp, set_resumes (succ64 (resumes rp)) rp).

Lemma set_timer_run f c : set_timer f c = Ok tt (set_io (f (ioService_ c)) c).
Proof. done. Qed.

Lemma prepare_evolves r : within (evolves (T:=T) []) (prepare r).
Proof.
  assert (Hex : ∀ c c' : Context T, extends [] c c' → evolves [] c c') by (by intros ?? []).
  unfold prepare. apply within_bind; [apply _|apply ev_set_timer|intros _].
  apply within_bind; [apply _|auto with within|intros rp].
  apply within_bind; [apply _| |intros _].
  - apply (sch_process_last _ Hex).
  - apply (sch_update_rp _ Hex). intros ?. by split_and!.
Qed.

Lemma prepare_lookup r c c' p :
  prepare r c = Ok tt c' → wf c → lookup_proc c p = Some r → wf c' ∧ lookup_proc c' p = Some r.
Proof.
  intros Hp W Hl. assert (W' : wf c') by by eapply (within_Ok _ _ _ _ _ (prepare_evolves r)).
  split; [done|]. unfold prepare in Hp.
  rewrite (bind_run _ _ _ _ _ (set_timer_run _ c)) in Hp. set (c0 := set_io _ c) in Hp.
  apply bind_Ok in Hp as (rp & c1 & Hload & Hp). unfold load_rp, deref in Hload.
  destruct (rps c0 !! r) as [rp'|] eqn:Hr; [|done]. injection Hload as -> <-.
  apply bind_Ok in Hp as (u & c2 & Hlast & Hupd).
  assert (Hsc : same_core c0 c2).
  { assert (Hw : within (same_core (T:=T)) (process_last rp)) by (unfold process_last; within_solve).
    apply Hw. by rewrite Hlast. }
  assert (Hr2 : rps c2 !! r = Some rp) by by rewrite (sc_rps _ _ Hsc).
  rewrite (update_rp_run _ _ _ _ Hr2) in Hupd. simplify_eq.
  apply (lookup_proc_Some _ _ _ _ W) in Hl as (Hi & rp' & Hr' & <-).
  apply (lookup_proc_Some _ _ _ _ W'). simpl. rewrite (sc_processes _ _ Hsc). split; [done|].
  eexists. rewrite lookup_insert_eq. split; [done|]. simpl.
  assert (rp = rp') as -> by (change (rps c !! r = Some rp) in Hr; congruence). done.
Qed.

Lemma resume_task_run r c c' :
  prepare r c = Ok tt c' →
  resume_task r (set_io (io_timer_cancel r (ioService_ c)) c) =
    try_catch
      (let! w := task_resume r in
       update_rp r (set_lastWaiting w) ;;;
       let! rp := load_rp r in
       if task_done (task rp) then addtoDestroy (pid rp) "" ;;; ret false else ret true)
      (λ what,
       let! rp := load_rp r in
       addtoDestroy (pid rp) (concatString ["Caught exception: "; what]) ;;; ret false) c'.
Proof.
  unfold prepare. rewrite (bind_run _ _ _ _ _ (set_timer_run _ c)). set (c0 := set_io _ c).
  intros (rp & c1 & Hload & (u & c2 & Hlast & Hupd)%bind_Ok)%bind_Ok.
  unfold resume_task, try_catch. rewrite (bind_run _ _ _ _ _ Hload).
  by rewrite (bind_run _ _ _ _ _ Hlast), (bind_run _ _ _ _ _ Hupd).
Qed.

Lemma task_resume_extends r : within (extends (T:=T) []) (task_resume r).
Proof. apply task_resume_within; intros; auto with within. apply _. Qed.

(** The state [addtoDestroy] leaves, as a function. *)
Definition kill_state (p : Pid) (reason : string) c : Context T :=
  match lookup_proc c p with
  | Some r => match rps c !! r with Some rp => killed p reason r rp c | None => c end
  | None => c
  end.

Lemma addtoDestroy_state extra c p reason :
  wf_with extra c → addtoDestroy p reason c = Ok tt (kill_state p reason c).
Proof.
  intros W. rewrite (addtoDestroy_eq _ _ _ _ W). unfold kill_state.
  destruct (lookup_proc c p) as [r|] eqn:Hl; [|done].
  by destruct (lookup_proc_rp _ _ _ _ W Hl) as (rp & -> & _).
Qed.

Lemma resume_alive_run r rp c c' :
  rps c !! r = Some rp → dead rp = false → prepare r c = Ok tt c' →
  resume r c =
    try_catch
      (let! go := resume_task r in if go then schedule_next r else ret tt)
      (λ _, stop Terminated) (set_io (io_timer_cancel r (ioService_ c)) c).
Proof.
  intros Hr Hd Hp. unfold resume. unfold try_catch.
  by rewrite (bind_run _ _ _ _ _ (load_rp_run _ _ _ Hr)), Hd.
Qed.

(** *** How a suspended process is woken *)

Lemma store_promise_load pr v c c1 : store_promise pr v c = Ok tt c1 → load_promise pr c1 = Ok v c1.
Proof.
  destruct pr as [s|m]; simpl.
  - unfold load_slot, deref, bind, store_slot, modify.
    destruct (slots c !! s) as [sl|]; [|done]. intros [= <-]. simpl. by rewrite lookup_insert_eq.
  - unfold modify. intros [= <-]. unfold deref. simpl. by rewrite lookup_insert_eq.
Qed.

(** The continuation that resumes [r] unless it was resumed meanwhile is on the
    promise, or already posted. *)
Definition armed_or_posted c (pr : PromiseRef) (f : Function) : Prop :=
  (∃ v, load_promise pr c = Ok v c ∧ view v = Armed tt f) ∨
  (∃ i, ioService_ c = io_post (RunContinuation f) i).

Lemma continue_on_promise pr f c c' :
  update_promise pr (setContinuation tt f) c = Ok tt c' → armed_or_posted c' pr f.
Proof.
  unfold update_promise. intros (v & c1 & _ & ([] & c2 & Hst & Hp)%bind_Ok)%bind_Ok.
  apply store_promise_load in Hst. pose proof (setContinuation_view tt f v) as Hv.
  destruct (setContinuation tt f v) as [v' l]. simpl in *.
  destruct (view v); injection Hv as Hv ->; unfold post_all in Hp; simpl in Hp;
    unfold bind, modify, ret in Hp; injection Hp as <-.
  - left. by exists v'.
  - left. by exists v'.
  - right. by eexists.
Qed.

(** Where the wake-up of a process suspended on [w] will come from; a process
    that waits for messages is woken by [send]. *)
Definition will_wake c (r : Ptr) (p : Pid) (n : N) (w : IWaiting) : Prop :=
  if isReadyForResume w then last (queue_ c) = Some (mkItem p (Some n) None)
  else (∀ d, sleepFor w = Some d →
          ∃ i, posted_io (io_timer_wait r d (TimerDone r) i) (ioService_ c)) ∧
       (∀ pr, wakeOnFuture w = Some pr → armed_or_posted c pr (ResumeIf r n)).

Lemma schedule_next_wakes r rp w c c' :
  rps c !! r = Some rp → lastWaiting rp = Some w → schedule_next r c = Ok tt c' →
  rps c' = rps c ∧ will_wake c' r (pid rp) (resumes rp) w.
Proof.
  intros Hr Hw. unfold schedule_next. rewrite (bind_run _ _ _ _ _ (load_rp_run _ _ _ Hr)), Hw.
  unfold will_wake. destruct (isReadyForResume w).
  { unfold queueResume, modify. intros [= <-]. simpl. by rewrite last_snoc. }
  intros ([] & c1 & Ht & Hf)%bind_Ok.
  assert (H1 : rps c1 = rps c ∧ ∀ d, sleepFor w = Some d →
    ∃ i, ioService_ c1 = io_timer_wait r d (TimerDone r) i).
  { destruct (sleepFor w); unfold set_timer, modify, ret in Ht; simplify_eq/=; [|done].
    split; [done|]. intros d [= <-]. by eexists. }
  destruct H1 as [Hrps Htimer].
  destruct (wakeOnFuture w) as [pr|]; [|unfold ret in Hf; simplify_eq].
  - assert (Hsc : same_core c1 c').
    { apply (sc_update_promise pr (setContinuation tt (ResumeIf r (resumes rp)))). by rewrite Hf. }
    split; [by rewrite (sc_rps _ _ Hsc)|]. split.
    + intros d Hd. destruct (Htimer d Hd) as [i Hi]. exists i. rewrite <- Hi. apply Hsc.
    + intros ? [= <-]. by eapply continue_on_promise.
  - split; [done|]. split; [|done]. intros d Hd. destruct (Htimer d Hd) as [i Hi].
    exists i. by rewrite Hi.
Qed.

Lemma update_waiting r w c rp :
  wf c → rps c !! r = Some rp →
  ∃ c', update_rp r (set_lastWaiting w) c = Ok tt c' ∧ wf c' ∧
    rps c' !! r = Some (set_lastWaiting w rp) ∧
    (∀ q, lookup_proc c' q = lookup_proc c q) ∧ queue_ c' = queue_ c.
Proof.
  intros W Hr. eexists. split; [by apply update_rp_run|].
  assert (Hev : evolves [] c (set_rps (<[r := set_lastWaiting w rp]> (rps c)) c)).
  { apply updated_evolves with rp; [done|by split_and!]. }
  destruct (Hev W) as [W' _]. split_and!; [done| | |done]; simpl.
  - by rewrite lookup_insert_eq.
  - intros q. unfold lookup_proc. simpl. destruct (processes_ c !! _) as [[r'|]|]; try done.
    destruct (decide (r = r')) as [<-|]; [by rewrite lookup_insert_eq, Hr|].
    by rewrite lookup_insert_ne.
Qed.

(** *** Batches of messages *)

Definition message_items (a : SendAddress) (ms : list (Message payload)) :=
  (λ m, mkItem (sa_pid a) None (Some (a, m))) <$> ms.

Lemma queueSend_all a ms c :
  for_each (queueSend a) ms c = Ok tt (set_queue (queue_ c ++ message_items a ms) c).
Proof.
  revert c. induction ms as [|m ms IH]; intros c; simpl.
  - by rewrite app_nil_r; destruct c.
  - unfold queueSend at 1, modify, bind. rewrite IH. simpl. by rewrite <- (assoc_L (++)).
Qed.

Lemma deliver_all extra a r rp ms c sl :
  wf_with extra c → lookup_proc c (sa_pid a) = Some r → rps c !! r = Some rp →
  slots c !! sa_slot a = Some sl → queue_wf (messages_ sl) →
  waitingFor (sa_slot a) rp = false →
  ∃ c' sl', for_each processQueueItem (message_items a ms) c = Ok tt c' ∧
    slots c' !! sa_slot a = Some sl' ∧ contents (messages_ sl') = contents (messages_ sl) ++ ms ∧
    ∀ s, s ≠ sa_slot a → slots c' !! s = slots c !! s.
Proof.
  intros W Hl Hr Hs Hq Hw. revert c sl W Hl Hr Hs Hq. induction ms as [|m ms IH];
    intros c sl W Hl Hr Hs Hq; simpl.
  { exists c, sl. split_and!; [done|done|by rewrite app_nil_r|done]. }
  set (c1 := pushed (sa_slot a) m sl c).
  destruct (IH c1 (push_slot m sl)) as (c' & sl' & Hrun & Hs' & Hc' & Hother).
  - eapply wf_quiet; [exact W|by split].
  - done.
  - done.
  - simpl. by rewrite lookup_insert_eq.
  - by apply push_wf.
  - exists c', sl'. assert (H1 : processQueueItem (mkItem (sa_pid a) None (Some (a, m))) c = Ok tt c1)
      by by rewrite (deliver_run _ _ _ _ _ _ _ _ W Hl Hr Hs), Hw.
    rewrite (bind_run _ _ _ _ _ H1). split_and!; [done|done| |].
    + rewrite Hc'. simpl. rewrite push_contents by apply Hq. by rewrite <- (assoc_L (++)).
    + intros s Hne. rewrite Hother by done. simpl. by rewrite lookup_insert_ne.
Qed.
End delivery.

(** ** Properties *)

Section properties.
Context {T : Type} `{P : Program} `{IO : IoService Handler} `{TM : !TaskModel T}.
Context `{TR : !TaskResume T} `{TL : !TaskResumeLaws T}.
Implicit Types c : Context T.

(** C6: crash containment: when the coroutine of a live process throws an
    exception, [resume] absorbs it and kills that process, with the message as
    the reason, and no other: every other pid is as the coroutine left it. *)
Theorem exception_kills_only_thrower c p r what c1 c2
    (Hwf : wf c) (Hlive : lookup_proc c p = Some r) (Hprepare : prepare r c = Ok tt c1)
    (Hthrow : task_resume r c1 = Throw (std_exception what) c2) :
  ∃ c', resume r c = Ok tt c' ∧ wf c' ∧ ¬ live c' p ∧
    (∀ q, q ≠ p → lookup_proc c' q = lookup_proc c2 q) ∧
    (∀ r', lookup_proc c2 p = Some r' →
      toDestroy_ c' = toDestroy_ c2 ++ [(r', "Caught exception: " +:+ what)]).
Proof.
  destruct (prepare_lookup _ _ _ _ Hprepare Hwf Hlive) as [W1 Hl1].
  destruct (lookup_proc_rp _ _ _ _ Hwf Hlive) as (rp & Hr & _ & Hd).
  destruct (lookup_proc_rp _ _ _ _ W1 Hl1) as (rp1 & Hr1 & Hp1 & _).
  assert (Hx : extends [] c1 c2) by (apply (task_resume_extends r); by rewrite Hthrow).
  destruct (ex_evolves _ _ _ Hx W1) as (W2 & _).
  destruct (ex_rps _ _ _ Hx _ _ W1 Hr1) as (rp2 & Hr2 & Hp2 & _).
  exists (kill_state p ("Caught exception: " +:+ what) c2).
  pose proof (addtoDestroy_state [] c2 p ("Caught exception: " +:+ what) W2) as Hk.
  destruct (addtoDestroy_Ok [] c2 p ("Caught exception: " +:+ what) W2)
    as (c3 & Hk' & W3 & Hcull & Hnone & Honly). rewrite Hk in Hk'. injection Hk' as <-.
  split_and!; [|done|by intros [? ?]; congruence| |].
  - rewrite (resume_alive_run _ _ _ _ Hr Hd Hprepare). unfold try_catch at 1.
    unfold bind at 1. rewrite (resume_task_run _ _ _ Hprepare). unfold try_catch.
    unfold bind at 1. rewrite Hthrow, (bind_run _ _ _ _ _ (load_rp_run _ _ _ Hr2)).
    rewrite Hp2, Hp1, !concatString_cons. unfold concatString. simpl doAppendStrings.
    by rewrite string_app_nil_r, (bind_run _ _ _ _ _ Hk).
  - intros q Hne. apply option_eq. intros r'. split; [apply (cu_lookup _ _ Hcull)|].
    intros Hq. destruct (co_lookup _ _ _ Honly _ _ Hq) as [?|?]; [done|set_solver].
  - intros r' Hl2. unfold kill_state. rewrite Hl2.
    by destruct (lookup_proc_rp _ _ _ _ W2 Hl2) as (rp' & -> & _).
Qed.

(** When the coroutine of a live process ends, [resume] kills that process,
    without a reason to report, and no other. *)
Theorem finished_process_is_killed c p r w c1 c2 rp2
    (Hwf : wf c) (Hlive : lookup_proc c p = Some r) (Hprepare : prepare r c = Ok tt c1)
    (Hreturn : task_resume r c1 = Ok w c2)
    (Hr2 : rps c2 !! r = Some rp2) (Hdone : task_done (task rp2) = true) :
  ∃ c', resume r c = Ok tt c' ∧ wf c' ∧ ¬ live c' p ∧
    (∀ q, q ≠ p → lookup_proc c' q = lookup_proc c2 q) ∧ queue_ c' = queue_ c2.
Proof.
  destruct (prepare_lookup _ _ _ _ Hprepare Hwf Hlive) as [W1 Hl1].
  destruct (lookup_proc_rp _ _ _ _ Hwf Hlive) as (rp & Hr & _ & Hd).
  destruct (lookup_proc_rp _ _ _ _ W1 Hl1) as (rp1 & Hr1 & Hp1 & _).
  assert (Hx : extends [] c1 c2) by (apply (task_resume_extends r); by rewrite Hreturn).
  destruct (ex_evolves _ _ _ Hx W1) as (W2 & _).
  destruct (ex_rps _ _ _ Hx _ _ W1 Hr1) as (rp2' & Hr2' & Hp2 & _).
  assert (rp2' = rp2) as -> by congruence.
  destruct (update_waiting r w c2 rp2 W2 Hr2) as (c3 & Hu & W3 & Hr3 & Hl3 & Hq3).
  destruct (addtoDestroy_Ok [] c3 p "" W3) as (c4 & Hk & W4 & Hcull & Hnone & Honly).
  pose proof (addtoDestroy_state [] c3 p "" W3) as Hk'. rewrite Hk in Hk'. injection Hk' as ->.
  exists (kill_state p "" c3). split_and!; [|done|by intros [? ?]; congruence| |].
  - rewrite (resume_alive_run _ _ _ _ Hr Hd Hprepare). unfold try_catch at 1.
    unfold bind at 1. rewrite (resume_task_run _ _ _ Hprepare). unfold try_catch.
    rewrite (bind_run _ _ _ _ _ Hreturn), (bind_run _ _ _ _ _ Hu).
    rewrite (bind_run _ _ _ _ _ (load_rp_run _ _ _ Hr3)). simpl. rewrite Hdone, Hp2, Hp1.
    by rewrite (bind_run _ _ _ _ _ Hk).
  - intros q Hne. rewrite <- Hl3. apply option_eq. intros r'.
    split; [apply (cu_lookup _ _ Hcull)|].
    intros Hq. destruct (co_lookup _ _ _ Honly _ _ Hq) as [?|?]; [done|set_solver].
  - rewrite <- Hq3. unfold kill_state. by repeat case_match.
Qed.

(** C7: no lost wake-up: when the coroutine of a live process suspends on [w] and
    [resume] returns, the process has been resumed exactly once more, [w] is what
    it waits for, and its next resumption is on the queue, on its timer, on the
    promise it waits for, or already posted, whichever [w] asks for. *)
Theorem suspended_process_will_wake c p r w c1 c2 rp1 rp2 c'
    (Hwf : wf c) (Hlive : lookup_proc c p = Some r) (Hprepare : prepare r c = Ok tt c1)
    (Hr1 : rps c1 !! r = Some rp1) (Hsuspend : task_resume r c1 = Ok (Some w) c2)
    (Hr2 : rps c2 !! r = Some rp2) (Hdone : task_done (task rp2) = false)
    (Hresume : resume r c = Ok tt c') :
  rps c' !! r = Some (set_lastWaiting (Some w) rp2) ∧ will_wake c' r p (resumes rp2) w.
Proof.
  destruct (prepare_lookup _ _ _ _ Hprepare Hwf Hlive) as [W1 Hl1].
  destruct (lookup_proc_rp _ _ _ _ Hwf Hlive) as (rp & Hr & _ & Hd).
  destruct (lookup_proc_rp _ _ _ _ W1 Hl1) as (rp1' & Hr1' & Hp1 & _).
  assert (rp1' = rp1) as -> by congruence.
  assert (Hx : extends [] c1 c2) by (apply (task_resume_extends r); by rewrite Hsuspend).
  destruct (ex_evolves _ _ _ Hx W1) as (W2 & _).
  destruct (ex_rps _ _ _ Hx _ _ W1 Hr1) as (rp2' & Hr2' & Hp2 & _).
  assert (rp2' = rp2) as -> by congruence.
  destruct (update_waiting r (Some w) c2 rp2 W2 Hr2) as (c3 & Hu & W3 & Hr3 & _ & _).
  rewrite (resume_alive_run _ _ _ _ Hr Hd Hprepare) in Hresume. unfold try_catch at 1 in Hresume.
  unfold bind at 1 in Hresume. rewrite (resume_task_run _ _ _ Hprepare) in Hresume.
  unfold try_catch in Hresume.
  rewrite (bind_run _ _ _ _ _ Hsuspend), (bind_run _ _ _ _ _ Hu) in Hresume.
  rewrite (bind_run _ _ _ _ _ (load_rp_run _ _ _ Hr3)) in Hresume.
  simpl in Hresume. rewrite Hdone in Hresume. simpl in Hresume.
  destruct (schedule_next r c3) as [[] c4|[]|] eqn:Hs; simplify_eq.
  destruct (schedule_next_wakes _ _ w _ _ Hr3 eq_refl Hs) as [-> Hwake].
  simpl in Hwake. rewrite Hp2 in Hwake. by rewrite Hr3.
Qed.

(** A message or a resumption for a pid that is no longer live, and a
    resumption that another one has overtaken, are dropped without any effect. *)
Theorem stale_items_dropped extra c (i : ToProcessItem payload) (Hwf : wf_with extra c)
    (Hstale : match lookup_proc c (item_pid i) with
              | None => True
              | Some r => item_message i = None ∧
                          ∀ n, item_resume i = Some n → resumes <$> rps c !! r ≠ Some n
              end) :
  processQueueItem i c = Ok tt c.
Proof.
  unfold processQueueItem. destruct (lookup_proc c (item_pid i)) as [r|] eqn:Hl.
  - destruct Hstale as [-> Hn]. unfold bind at 1, ret at 1.
    destruct (item_resume i) as [n|]; [|done].
    rewrite (bind_run _ _ _ _ _ (findProc_run _ _ _ _ Hwf Hl)).
    destruct (lookup_proc_rp _ _ _ _ Hwf Hl) as (rp & Hr & _).
    rewrite (bind_run _ _ _ _ _ (load_rp_run _ _ _ Hr)).
    rewrite bool_decide_eq_false_2; [done|]. intros <-. apply (Hn _ eq_refl). by rewrite Hr.
  - destruct (item_message i) as [[a m]|]; unfold bind at 1;
      rewrite ?(bind_run _ _ _ _ _ (findProc_run _ _ _ _ Hwf Hl)); simpl;
      (destruct (item_resume i); [|done]);
      by rewrite (bind_run _ _ _ _ _ (findProc_run _ _ _ _ Hwf Hl)).
Qed.

End properties.
