(* ===== verification/Operations.v ===== *)
(** * Operations processes call: linking, addresses, backpressure

    Functional behaviour of [Context::link], [makeSendAddress] and [canQueue] on
    every branch. *)

From S2P Require Import Prelude.
From S2P Require Import BaseTypes.
From S2P Require Import Future.
From S2P Require Import Slot.
From S2P Require Import Waiting.
From S2P Require Import IoService.
From S2P Require Import Process.
From S2P Require Import Context.
From S2P Require Import Lifecycle.
From S2P Require Import ContextFacts.
From S2P Require Import LifecycleFacts.
From S2P Require Import Destruction.
From S2P Require Import Scheduler.
From S2P Require Import Steps.
From S2P Require Import Safety.
From S2P Require Import Delivery.

Section operations.
Context {T : Type} `{P : Program} `{IO : IoService Handler} `{TM : !TaskModel T}.
Implicit Types c : Context T.

Lemma update_obj_run o f obj c :
  objs c !! o = Some obj → update_obj o f c = Ok tt (set_objs (<[o := f obj]> (objs c)) c).
Proof. intros Ho. unfold update_obj. by rewrite (bind_run _ _ _ _ _ (load_obj_run _ _ _ Ho)). Qed.

Lemma wf_object extra c r rp :
  wf_with extra c → rps c !! r = Some rp →
  ∃ obj, objs c !! process_ptr rp = Some obj ∧ pid_ obj = pid rp.
Proof.
  intros W Hr. pose proof (wf_obj _ _ W _ _ Hr) as Ho.
  destruct (objs c !! process_ptr rp) as [obj|]; simplify_eq/=. by exists obj.
Qed.

(** Objects only gain links. *)
Definition linked (obj : Process) (b : Pid) (objs' : gmap Ptr Process) (o : Ptr) : Prop :=
  ∃ obj', objs' !! o = Some obj' ∧ b ∈ killOnDie_ obj' ∧ killOnDie_ obj ⊆ killOnDie_ obj'.

Lemma link_run extra c running run b r rp :
  wf_with extra c → objs c !! running = Some run →
  lookup_proc c b = Some r → rps c !! r = Some rp →
  ∃ os obj, link running b c = Ok tt (set_objs os c) ∧
    objs c !! process_ptr rp = Some obj ∧
    linked run b os running ∧ linked obj (pid_ run) os (process_ptr rp).
Proof.
  intros W Hrun Hl Hr. destruct (wf_object _ _ _ _ W Hr) as (obj & Hobj & _).
  set (c1 := set_objs (<[running := addKillOnDie b run]> (objs c)) c).
  assert (Hrun1 : objs c1 !! running = Some (addKillOnDie b run)) by (simpl; by rewrite lookup_insert_eq).
  assert (Hobj1 : ∃ obj1, objs c1 !! process_ptr rp = Some obj1 ∧ killOnDie_ obj ⊆ killOnDie_ obj1).
  { simpl. destruct (decide (running = process_ptr rp)) as [->|].
    - assert (obj = run) as -> by congruence.
      rewrite lookup_insert_eq. eexists. split; [done|]. simpl. set_solver.
    - rewrite lookup_insert_ne by done. by exists obj. }
  destruct Hobj1 as (obj1 & Hobj1 & Hsub).
  exists (<[process_ptr rp := addKillOnDie (pid_ run) obj1]> (objs c1)), obj.
  split_and!; [|done| |].
  - unfold link. rewrite (bind_run _ _ _ _ _ (findProc_run _ _ _ _ W Hl)).
    rewrite (bind_run _ _ _ _ _ (update_obj_run _ _ _ _ Hrun)). fold c1.
    rewrite (bind_run _ _ _ _ _ (load_rp_run _ _ c1 Hr)).
    rewrite (bind_run _ _ _ _ _ (load_obj_run _ _ _ Hrun1)).
    by rewrite (update_obj_run _ _ _ _ Hobj1).
  - unfold linked. destruct (decide (process_ptr rp = running)) as [Heq|].
    + rewrite Heq in *. assert (obj1 = addKillOnDie b run) as -> by congruence.
      rewrite lookup_insert_eq. eexists. split; [done|]. simpl. set_solver.
    + rewrite lookup_insert_ne by done. rewrite Hrun1. eexists. split; [done|]. simpl. set_solver.
  - unfold linked. rewrite lookup_insert_eq. eexists. split; [done|]. simpl. set_solver.
Qed.

(** The [const] lookup agrees with the other one, but for an empty entry. *)
Lemma findProc_const_eq extra c p :
  wf_with extra c →
  findProc_const p c =
    match processes_ c !! N.to_nat (idx_ p) with
    | Some None => Halt (Undefined NullDereference)
    | _ => Ok (lookup_proc c p) c
    end.
Proof.
  intros W. unfold findProc_const, lookup_proc, gets, bind at 1. case_bool_decide as Hlen.
  - rewrite lookup_ge_None_2; [done|lia].
  - destruct (processes_ c !! N.to_nat (idx_ p)) as [[r|]|] eqn:Hi; [|done|].
    + destruct (wf_live _ _ W _ _ Hi) as (rp & Hr & _).
      by rewrite (bind_run _ _ _ _ _ (load_rp_run _ _ _ Hr)), Hr.
    + apply lookup_ge_None in Hi. lia.
Qed.

(** What a slot of a live process object is found under. *)
Definition slot_member (obj : Process) (k : nat) : option SlotId :=
  match members obj !! k with Some (SlotMember s) => Some s | _ => None end.
End operations.

(** ** Properties *)

Section properties.
Context {T : Type} `{P : Program} `{IO : IoService Handler} `{TM : !TaskModel T}.
Implicit Types c : Context T.

(** Linking a running process to a live one makes each die with the other:
    afterwards there is a link edge both ways, no link is lost, and only process
    objects changed; linking to a pid that is not live throws and changes
    nothing. *)
Theorem link_is_mutual extra c r0 rp0 b
    (Hwf : wf_with extra c) (Hr0 : rps c !! r0 = Some rp0)
    (Hl0 : lookup_proc c (pid rp0) = Some r0) :
  match lookup_proc c b with
  | None => link (process_ptr rp0) b c = Throw (std_exception "Proc is already dead") c
  | Some r => ∃ os, link (process_ptr rp0) b c = Ok tt (set_objs os c) ∧
      link_edge (set_objs os c) r0 r ∧ link_edge (set_objs os c) r r0
  end.
Proof.
  destruct (lookup_proc c b) as [r|] eqn:Hl.
  - destruct (lookup_proc_rp _ _ _ _ Hwf Hl) as (rp & Hr & Hp & _).
    destruct (wf_object _ _ _ _ Hwf Hr0) as (run & Hrun & Hpid).
    destruct (link_run _ _ _ _ _ _ _ Hwf Hrun Hl Hr)
      as (os & obj & Hlink & _ & (run' & Hrun' & Hb & _) & (obj' & Hobj' & Hself & _)).
    exists os. split; [done|]. split.
    + exists rp0, run', b. split_and!; try done.
    + exists rp, obj', (pid rp0). rewrite <- Hpid. split_and!; try done. by rewrite Hpid.
  - unfold link. by rewrite (bind_run _ _ _ _ _ (findProc_run _ _ _ _ Hwf Hl)).
Qed.

(** [makeSendAddress] throws for a pid that is not live and for a process of
    another class, and otherwise yields the address of the member slot; it never
    changes the context. *)
Theorem makeSendAddress_branches extra c p Y k (Hwf : wf_with extra c) :
  match lookup_proc c p with
  | None => makeSendAddress p Y k c =
              Throw (std_exception ("No process found for pid " +:+ toString p)) c
  | Some r => ∃ rp obj, rps c !! r = Some rp ∧ objs c !! process_ptr rp = Some obj ∧
      if is_a (dynamic_class obj) Y then
        ∀ s sl, slot_member obj k = Some s → slots c !! s = Some sl →
          makeSendAddress p Y k c = Ok (mkSendAddress p (id_ sl)) c
      else makeSendAddress p Y k c =
             Throw (std_exception ("Bad process type for " +:+ toString p)) c
  end.
Proof.
  unfold makeSendAddress.
  destruct (lookup_proc c p) as [r|] eqn:Hl;
    rewrite (bind_run _ _ _ _ _ (findProc_run _ _ _ _ Hwf Hl)).
  - destruct (lookup_proc_rp _ _ _ _ Hwf Hl) as (rp & Hr & _).
    destruct (wf_object _ _ _ _ Hwf Hr) as (obj & Hobj & _).
    exists rp, obj. split_and!; [done..|].
    rewrite (bind_run _ _ _ _ _ (load_rp_run _ _ _ Hr)).
    rewrite (bind_run _ _ _ _ _ (load_obj_run _ _ _ Hobj)).
    destruct (is_a (dynamic_class obj) Y); simpl.
    + intros s sl Hs Hsl. unfold slot_member in Hs.
      destruct (members obj !! k) as [[s'|]|]; simplify_eq.
      by rewrite (bind_run _ _ _ _ _ (load_slot_run _ _ _ Hsl)).
    + unfold ESLANGEXCEPT. by rewrite !concatString_cons, string_app_nil_r.
  - unfold ESLANGEXCEPT. by rewrite !concatString_cons, string_app_nil_r.
Qed.

(** [canQueue] asks a sender to wait exactly when the slot of a live process
    holds [kThrottle] messages or more; but asked about a process that died and
    whose entry is still empty, it dereferences a null pointer, because the
    [const] [findProc] does not test the entry. *)
Theorem canQueue_branches extra c a (Hwf : wf_with extra c) :
  match processes_ c !! N.to_nat (idx_ (sa_pid a)) with
  | None => canQueue a c = Ok None c
  | Some None => canQueue a c = Halt (Undefined NullDereference)
  | Some (Some _) =>
      match lookup_proc c (sa_pid a) with
      | None => canQueue a c = Ok None c
      | Some _ => ∀ sl, slots c !! sa_slot a = Some sl →
          canQueue a c =
            Ok (if bool_decide (kThrottle ≤ size (messages_ sl))
                then Some (ThrottleOf (sa_slot a)) else None) c
      end
  end.
Proof.
  pose proof (findProc_const_eq extra c (sa_pid a) Hwf) as Hf. unfold lookup_proc in *.
  destruct (processes_ c !! N.to_nat (idx_ (sa_pid a))) as [[r|]|] eqn:Hi.
  - destruct (wf_live _ _ Hwf _ _ Hi) as (rp & Hr & _). rewrite Hr in *.
    unfold canQueue. rewrite (bind_run _ _ _ _ _ Hf). case_bool_decide; [|done].
    intros sl Hsl. by rewrite (bind_run _ _ _ _ _ (load_slot_run _ _ _ Hsl)).
  - unfold canQueue, bind at 1. by rewrite Hf.
  - unfold canQueue. by rewrite (bind_run _ _ _ _ _ Hf).
Qed.
End properties.
