(* ===== verification/Owned.v ===== *)
(** * Owners of coroutines

    [OwnedCoroutine] of [eslang/ProcessTask.h], through which tasks hold their coroutines:
    its constructors, assignment, [resume], [destroy] and destructor on a store of owners
    and a set of live frames. However owners are moved about, every live frame has exactly
    one owner. [Coroutine] has no owners of its own: a frame names the tasks among its
    locals, which is what this theorem allows. *)

From S2P Require Import Prelude.
From S2P Require Import BaseTypes.

(** The frames of coroutines that exist, and [h_] of every owner. *)
Record Owners := mkOwners {
  frames : gset Ptr;
  h_ : gmap Ptr (option Ptr);
}.

Definition set_frames v (w : Owners) : Owners := mkOwners v (h_ w).
Definition set_h v (w : Owners) : Owners := mkOwners (frames w) v.

Section owned.
Implicit Types (o rhs : Ptr) (w : Owners).

Definition load_h o : M Owners (option Ptr) := λ w,
  match h_ w !! o with
  | Some h => Ok h w
  | None => Halt (Undefined UseAfterFree)
  end.

Definition store_h o (h : option Ptr) : M Owners unit := modify (λ w, set_h (<[o := h]> (h_ w)) w).

(** [coroutine_handle::destroy]. *)
Definition destroy_frame (h : Ptr) : M Owners unit := λ w,
  if bool_decide (h ∈ frames w) then Ok tt (set_frames (frames w ∖ {[h]}) w)
  else Halt (Undefined UseAfterFree).

(** [OwnedCoroutine()], [OwnedCoroutine(h)], and the move constructor. *)
Definition default_construct o : M Owners unit := store_h o None.
Definition construct o (h : Ptr) : M Owners unit := store_h o (Some h).
Definition move_construct o rhs : M Owners unit :=
  let! h := load_h rhs in
  store_h o h ;;;
  store_h rhs None.

(** [operator=(OwnedCoroutine&&)] swaps. *)
Definition move_assign o rhs : M Owners unit :=
  let! hr := load_h rhs in
  let! h := load_h o in
  store_h rhs h ;;;
  store_h o hr.

(** [~OwnedCoroutine], and the end of the object. *)
Definition destruct_owner o : M Owners unit :=
  let! h := load_h o in
  match h with
  | Some h => destroy_frame h
  | None => ret tt
  end ;;;
  modify (λ w, set_h (delete o (h_ w)) w).

(** [resume], where the coroutine returns or suspends, or throws [e]: then its frame is
    gone. *)
Definition resume o (e : option exn) : M Owners unit :=
  let! h := load_h o in
  match h with
  | None => undefined NullDereference
  | Some h =>
      match e with
      | None => ret tt
      | Some e => destroy_frame h ;;; store_h o None ;;; throw e
      end
  end.

Definition hasValue o : M Owners bool := let! h := load_h o in ret (bool_decide (is_Some h)).

Definition destroy o : M Owners unit :=
  let! h := load_h o in
  store_h o None ;;;
  match h with
  | Some h => destroy_frame h
  | None => undefined NullDereference
  end.
End owned.

(** ** Everything an owner can do *)

(** New owners are made at addresses that are not in use, from coroutines just created. *)
Inductive OwnerOp :=
  | Default (o : Ptr)
  | Construct (o h : Ptr)
  | MoveConstruct (o rhs : Ptr)
  | MoveAssign (o rhs : Ptr)
  | Destruct (o : Ptr)
  | Resume (o : Ptr) (e : option exn)
  | Destroy (o : Ptr).

Definition exec_owner (op : OwnerOp) : M Owners unit :=
  match op with
  | Default o => default_construct o
  | Construct o h => modify (λ w, set_frames ({[h]} ∪ frames w) w) ;;; construct o h
  | MoveConstruct o rhs => move_construct o rhs
  | MoveAssign o rhs => move_assign o rhs
  | Destruct o => destruct_owner o
  | Resume o e => resume o e
  | Destroy o => destroy o
  end.

Definition sensible (op : OwnerOp) (w : Owners) : Prop :=
  match op with
  | Default o => h_ w !! o = None
  | Construct o h => h_ w !! o = None ∧ h ∉ frames w
  | MoveConstruct o rhs => h_ w !! o = None ∧ is_Some (h_ w !! rhs)
  | MoveAssign o rhs => is_Some (h_ w !! o) ∧ is_Some (h_ w !! rhs)
  | Destruct o | Resume o _ | Destroy o => is_Some (h_ w !! o)
  end.

(** ** Ownership *)

Definition owns (w : Owners) (o h : Ptr) : Prop := h_ w !! o = Some (Some h).

Record linear (w : Owners) : Prop := {
  lin_unique o1 o2 h : owns w o1 h → owns w o2 h → o1 = o2;
  lin_live o h : owns w o h → h ∈ frames w;
  lin_owned h : h ∈ frames w → ∃ o, owns w o h;
}.

(** Owners may be renamed. *)
Lemma linear_rename (π : Ptr → Ptr) w w' :
  linear w → frames w' = frames w → (∀ o, π (π o) = o) →
  (∀ o h, owns w' o h ↔ owns w (π o) h) → linear w'.
Proof.
  intros [Hu Hl Ho] Hf Hπ Hw. split.
  - intros o1 o2 h H1%Hw H2%Hw. rewrite <- (Hπ o1), <- (Hπ o2). f_equal. by eapply Hu.
  - intros o h H%Hw. rewrite Hf. by eapply Hl.
  - rewrite Hf. intros h (o & Hoh)%Ho. exists (π o). apply Hw. by rewrite Hπ.
Qed.

(** A change of one owner: from [v] to [v'], with [F] the frames after it. *)
Lemma owns_insert w o v F o' h :
  owns (mkOwners F (<[o := v]> (h_ w))) o' h ↔ (o = o' ∧ v = Some h) ∨ (o ≠ o' ∧ owns w o' h).
Proof. unfold owns. simpl. rewrite lookup_insert_Some. naive_solver. Qed.

Lemma linear_empty_owner w o :
  (∀ h, ¬ owns w o h) → linear w → linear (mkOwners (frames w) (<[o := None]> (h_ w))).
Proof.
  intros Hno [Hu Hl Ho]. split.
  - intros o1 o2 h. rewrite !owns_insert. naive_solver.
  - intros o1 h. rewrite owns_insert. naive_solver.
  - intros h (o1 & Ho1)%Ho. exists o1. apply owns_insert. right. split; [|done].
    intros ->. by apply (Hno h).
Qed.

Lemma linear_new_owner w o h :
  h_ w !! o = None → h ∉ frames w → linear w →
  linear (mkOwners ({[h]} ∪ frames w) (<[o := Some h]> (h_ w))).
Proof.
  intros Hnone Hh [Hu Hl Ho]. split.
  - intros o1 o2 h'. rewrite !owns_insert. intros [[-> [= ->]]|[? H1]] [[-> ?]|[? H2]]; simplify_eq; try done.
    + by destruct Hh; eapply Hl.
    + by destruct Hh; eapply Hl.
    + by eapply Hu.
  - intros o1 h'. rewrite owns_insert. simpl. intros [[-> [= ->]]|[? H1]]; [set_solver|].
    apply elem_of_union_r. by eapply Hl.
  - intros h'. simpl. intros [->%elem_of_singleton|Hin]%elem_of_union.
    + exists o. apply owns_insert. by left.
    + destruct (Ho h' Hin) as [o1 Ho1]. exists o1. apply owns_insert. right. split; [|done].
      intros ->. unfold owns in Ho1. by rewrite Hnone in Ho1.
Qed.

Lemma linear_drop w o h :
  owns w o h → linear w → linear (mkOwners (frames w ∖ {[h]}) (<[o := None]> (h_ w))).
Proof.
  intros Hoh [Hu Hl Ho]. split.
  - intros o1 o2 h'. rewrite !owns_insert. naive_solver.
  - intros o1 h'. rewrite owns_insert. simpl. intros [[_ [=]]|[Hne H1]].
    apply elem_of_difference. split; [by eapply Hl|]. intros ->%elem_of_singleton.
    by apply Hne, (Hu o o1 h).
  - intros h'. simpl. intros [Hin Hne]%elem_of_difference. destruct (Ho h' Hin) as [o1 Ho1].
    exists o1. apply owns_insert. right. split; [|done]. intros ->. apply Hne, elem_of_singleton.
    unfold owns in *. congruence.
Qed.

Lemma linear_delete w o :
  h_ w !! o = Some None → linear w → linear (mkOwners (frames w) (delete o (h_ w))).
Proof.
  intros Hnone HL.
  assert (Howns : ∀ o' h, owns (mkOwners (frames w) (delete o (h_ w))) o' h ↔ owns w o' h).
  { intros o' h. unfold owns. simpl. rewrite lookup_delete_Some. split; [tauto|]. intros H.
    split; [|done]. intros ->. congruence. }
  by apply (linear_rename id w).
Qed.

Lemma destroy_frame_run w o h :
  linear w → owns w o h → destroy_frame h w = Ok tt (set_frames (frames w ∖ {[h]}) w).
Proof. intros [_ Hl _] Ho. unfold destroy_frame. rewrite bool_decide_eq_true_2; [done|by eapply Hl]. Qed.

Lemma load_h_run w o v : h_ w !! o = Some v → load_h o w = Ok v w.
Proof. intros Ho. unfold load_h. by rewrite Ho. Qed.

(** The owner at [o] and that at [rhs] exchanged. *)
Lemma linear_swap w o rhs v vr :
  linear w → (h_ w !! o = Some v ∨ h_ w !! o = None ∧ v = None) → h_ w !! rhs = Some vr → o ≠ rhs →
  linear (mkOwners (frames w) (<[o := vr]> (<[rhs := v]> (h_ w)))) ∧
  linear (mkOwners (frames w) (<[rhs := v]> (<[o := vr]> (h_ w)))).
Proof.
  intros HL Ho Hr Hne.
  assert (Hone : linear (mkOwners (frames w) (<[o := vr]> (<[rhs := v]> (h_ w))))).
  { apply (linear_rename (λ x, if decide (x = o) then rhs else if decide (x = rhs) then o else x) w); [done..| |].
    - intros x. by repeat (case_decide; simplify_eq).
    - intros x h. unfold owns. simpl. rewrite !lookup_insert_Some.
      destruct (decide (x = o)) as [->|]; [rewrite Hr; naive_solver|].
      destruct (decide (x = rhs)) as [->|]; naive_solver. }
  split; [done|]. by rewrite insert_insert_ne by done.
Qed.

Lemma linear_store_same w o v : h_ w !! o = Some v → mkOwners (frames w) (<[o := v]> (h_ w)) = w.
Proof. intros Ho. rewrite insert_id by done. by destruct w. Qed.

Lemma linear_destruct w o :
  linear w → is_Some (h_ w !! o) → ∃ w', destruct_owner o w = Ok tt w' ∧ linear w'.
Proof.
  intros HL [v Ho]. unfold destruct_owner. rewrite (bind_run _ _ _ _ _ (load_h_run _ _ _ Ho)).
  destruct v as [h|].
  - rewrite (bind_run _ _ _ _ _ (destroy_frame_run w o h HL Ho)). eexists. split; [done|].
    pose proof (linear_drop w o h Ho HL) as H1. apply (linear_delete _ o) in H1; [|apply lookup_insert_eq].
    simpl in *. by rewrite delete_insert_eq in H1.
  - eexists. split; [done|]. by apply (linear_delete w o).
Qed.


(** An owner that is assigned the coroutine of another, and one that was moved from. *)
Definition two_owners : Owners := mkOwners {[5%positive]} {[1%positive := Some 5%positive; 2%positive := None]}.

Lemma two_owners_linear : linear two_owners.
Proof.
  assert (Howns : ∀ o h, owns two_owners o h → o = 1%positive ∧ h = 5%positive).
  { unfold owns, two_owners. simpl. intros o h [[<- [= <-]]|[_ [_ [=]]%lookup_singleton_Some]]%lookup_insert_Some.
    done. }
  split.
  - by intros o1 o2 h [-> _]%Howns [-> _]%Howns.
  - intros o h [_ ->]%Howns. set_solver.
  - simpl. intros h ->%elem_of_singleton. by exists 1%positive.
Qed.

