(* ===== verification/Coroutine.v ===== *)
(** * Coroutines: processes, method tasks and generators

    Models [eslang/ProcessTask.h]/[.cpp]. The body of a coroutine is an
    interaction tree over the operations of the context, [co_await] on an awaiter,
    and the operations on sub-tasks; a coroutine is its promise, where it is
    suspended, and the locals its frame owns. The coroutines of a process live in
    a heap of their own, part of its [ProcessTask], so a handle used after its
    coroutine was destroyed is a lookup that fails. Resuming a coroutine runs it
    on the stack of whoever resumes it, as in the code: a finished method task
    resumes its parent, a generator that yields resumes whoever waits for it. *)

From ITree Require Core.ITreeDefinition Indexed.Sum.
From S2P Require Import Prelude.
From S2P Require Import BaseTypes.
From S2P Require Import Future.
From S2P Require Import Slot.
From S2P Require Import Waiting.
From S2P Require Import IoService.
From S2P Require Import Process.
From S2P Require Import Context.
From S2P Require Import Lifecycle.
From S2P Require Import ContextFacts.
From S2P Require Import LifecycleFacts.
From S2P Require Import Scheduler.

Abbreviation itree := ITreeDefinition.itree.
Abbreviation observe := ITreeDefinition.observe.

(** A [coroutine_handle]. *)
Definition Handle : Type := positive.

(** ** What the body of a coroutine does *)

(** The coroutines of an application, besides the [run] of its classes: [value]
    is what they return or yield ([void] for those that return nothing). *)
Class Methods `{Program} := {
  value : Type;
  void : value;
  method : Type;
  is_generator : method → bool;
}.

(** [co_await] of an [IWaiting], and of a [WaitingMessage] over one. *)
Inductive AwaitE `{Program} : Type → Type :=
  | CoAwait (w : IWaiting) : AwaitE (list (option payload))
  | CoAwaitMessage (w : IWaiting) : AwaitE payload.

(** Calling a coroutine yields the task that owns it; [GenNext] is
    [GenTask::next], [AwaitNext] the [co_await] of what it returned, [GenTake] is
    [take]; [DropTask] is the destructor of a task. *)
Inductive TaskE `{Methods} : Type → Type :=
  | CallMethod (m : method) : TaskE Handle
  | AwaitMethod (h : Handle) : TaskE value
  | DropTask (h : Handle) : TaskE unit
  | GenNext (h : Handle) : TaskE unit
  | AwaitNext (h : Handle) : TaskE bool
  | GenTake (h : Handle) : TaskE value
  | CoYield (v : value) : TaskE unit.

Abbreviation ProcessE := (Sum.sum1 Op (Sum.sum1 AwaitE TaskE)).
Abbreviation Body := (itree ProcessE value).

(** ** Promises and frames *)

Inductive Kind := ProcessPromise | MethodTaskPromise | GenPromise.

#[export] Instance Kind_eq_dec : EqDecision Kind.
Proof. solve_decision. Defined.

(** One record for [PromiseBase] and the classes derived from it: [nextChild] is
    used by [ProcessPromise], [parent] and [t_] by the others. *)
Record PromiseBase `{Methods} := mkPromiseBase {
  kind : Kind;
  waiting : option IWaiting;
  subCoroutineChild : option Handle;
  processPromise : option Handle;
  nextChild : option Handle;
  parent : option Handle;
  t_ : option value;
}.

(** Where a coroutine is suspended, with what it does when resumed. *)
Inductive Suspension `{Methods} :=
  | AtStart (body : Body)
  | AtAwait (w : IWaiting) (k : list (option payload) → Body)
  | AtAwaitMessage (w : IWaiting) (k : payload → Body)
  | AtMethod (h : Handle) (k : value → Body)
  | AtNext (h : Handle) (k : bool → Body)
  | AtYield (k : unit → Body).

(** [Dead]: it ended with an exception. *)
Inductive State `{Methods} :=
  | Suspended (s : Suspension)
  | Running
  | AtFinal
  | Dead.

(** Objects with destructors among the locals of a frame. *)
Inductive Local :=
  | LocalSlot (s : SlotId)
  | LocalTask (h : Handle).

#[export] Instance Local_eq_dec : EqDecision Local.
Proof. unfold SlotId, Handle. solve_decision. Defined.

(** The locals are listed latest first. *)
Record Coroutine `{Methods} := mkCoroutine {
  promise : PromiseBase;
  state : State;
  locals : list Local;
}.

(** [ProcessTask] owns the coroutine of the process, none once it was destroyed;
    with it the heap of the coroutines that one and its sub-tasks own. *)
Record ProcessTask `{Methods} := mkProcessTask {
  coroutine_ : option Handle;
  coroutines : gmap Handle Coroutine;
  next_handle : Handle;
}.

Section promises.
Context `{Methods}.

Definition new_promise_base (k : Kind) : PromiseBase :=
  mkPromiseBase _ _ k None None None None None None.

Definition set_waiting v (p : PromiseBase) : PromiseBase :=
  mkPromiseBase _ _ (kind p) v (subCoroutineChild p) (processPromise p) (nextChild p) (parent p) (t_ p).
Definition set_subCoroutineChild v (p : PromiseBase) : PromiseBase :=
  mkPromiseBase _ _ (kind p) (waiting p) v (processPromise p) (nextChild p) (parent p) (t_ p).
Definition set_processPromise v (p : PromiseBase) : PromiseBase :=
  mkPromiseBase _ _ (kind p) (waiting p) (subCoroutineChild p) v (nextChild p) (parent p) (t_ p).
Definition set_nextChild v (p : PromiseBase) : PromiseBase :=
  mkPromiseBase _ _ (kind p) (waiting p) (subCoroutineChild p) (processPromise p) v (parent p) (t_ p).
Definition set_parent v (p : PromiseBase) : PromiseBase :=
  mkPromiseBase _ _ (kind p) (waiting p) (subCoroutineChild p) (processPromise p) (nextChild p) v (t_ p).
Definition set_t v (p : PromiseBase) : PromiseBase :=
  mkPromiseBase _ _ (kind p) (waiting p) (subCoroutineChild p) (processPromise p) (nextChild p) (parent p) v.

Definition set_promise v (c : Coroutine) : Coroutine := mkCoroutine _ _ v (state c) (locals c).
Definition set_state v (c : Coroutine) : Coroutine := mkCoroutine _ _ (promise c) v (locals c).
Definition set_locals v (c : Coroutine) : Coroutine := mkCoroutine _ _ (promise c) (state c) v.

Definition at_final (c : Coroutine) : bool :=
  match state c with AtFinal => true | _ => false end.

(** What destroying a coroutine destroys, in order: its locals, latest first, and
    what the tasks among them own; the slots, and the coroutines. *)
Fixpoint frame_slots (fuel : nat) (cs : gmap Handle Coroutine) (h : Handle) : list SlotId :=
  match fuel, cs !! h with
  | S fuel', Some c =>
      locals c ≫= λ l,
        match l with
        | LocalSlot s => [s]
        | LocalTask h' => frame_slots fuel' cs h'
        end
  | _, _ => []
  end.

Fixpoint frame_tasks (fuel : nat) (cs : gmap Handle Coroutine) (h : Handle) : list Handle :=
  match fuel, cs !! h with
  | S fuel', Some c =>
      (locals c ≫= λ l,
        match l with
        | LocalSlot _ => []
        | LocalTask h' => frame_tasks fuel' cs h'
        end) ++ [h]
  | _, _ => []
  end.

(** A coroutine owns no more than all there are. *)
Definition frame_depth (cs : gmap Handle Coroutine) : nat := Datatypes.S (base.size cs).

Definition set_coroutines v (t : ProcessTask) : ProcessTask :=
  mkProcessTask _ _ (coroutine_ t) v (next_handle t).
Definition set_coroutine v (t : ProcessTask) : ProcessTask :=
  mkProcessTask _ _ v (coroutines t) (next_handle t).

Definition co_return {A} (a : A) : itree ProcessE A := ITreeDefinition.Ret a.
Definition co_bind {A B} (t : itree ProcessE A) (k : A → itree ProcessE B) : itree ProcessE B :=
  ITreeDefinition.ITree.bind t k.
End promises.

Notation "'do!' x ':=' t 'in' k" := (co_bind t (λ x, k))
  (at level 10, x pattern, t at level 100, k at level 200) : eslang_scope.
Notation "t ;;! k" := (co_bind t (λ _, k))
  (at level 100, k at level 200, right associativity) : eslang_scope.

(** The bodies: of each process class, given its process object, and of each
    method. *)
Class ProcessBodies `{Methods} := {
  run_ : cls → arg → Process → itree ProcessE unit;
  method_body : method → Body;
}.

(** [p->run()]: [initial_suspend] of a process suspends. *)
#[export] Instance process_task_model `{PB : ProcessBodies} : TaskModel ProcessTask := {
  task_start cl a obj :=
    mkProcessTask _ _ (Some 1%positive)
      {[1%positive := mkCoroutine _ _ (new_promise_base ProcessPromise)
                        (Suspended (AtStart (run_ cl a obj ;;! co_return void))) []]}
      2%positive;
  task_done t := bool_decide (coroutine_ t = None);
  task_cleanup t :=
    match coroutine_ t with
    | Some h => CleanupSlot <$> frame_slots (frame_depth (coroutines t)) (coroutines t) h
    | None => []
    end;
}.

Section coroutine.
Context `{PB : ProcessBodies} `{IO : IoService Handler}.
Local Abbreviation Ctx := (Context ProcessTask).

(** ** The heap of coroutines of running process [r] *)

Definition update_task (r : Ptr) (f : ProcessTask → ProcessTask) : M Ctx unit :=
  let! rp := load_rp r in
  update_rp r (set_task (f (task rp))).

Definition load_coroutine (r : Ptr) (h : Handle) : M Ctx Coroutine :=
  let! rp := load_rp r in
  match coroutines (task rp) !! h with
  | Some c => ret c
  | None => undefined UseAfterFree
  end.

Definition update_coroutine (r : Ptr) (h : Handle) (f : Coroutine → Coroutine) : M Ctx unit :=
  let! c := load_coroutine r h in
  update_task r (λ t, set_coroutines (<[h := f c]> (coroutines t)) t).

(** [h.promise()]. *)
Definition load_base (r : Ptr) (h : Handle) : M Ctx PromiseBase :=
  let! c := load_coroutine r h in ret (promise c).

Definition update_base (r : Ptr) (h : Handle) (f : PromiseBase → PromiseBase) : M Ctx unit :=
  update_coroutine r h (λ c, set_promise (f (promise c)) c).

Definition new_coroutine (r : Ptr) (c : Coroutine) : M Ctx Handle :=
  let! rp := load_rp r in
  let h := next_handle (task rp) in
  update_task r (λ t, mkProcessTask _ _ (coroutine_ t) (<[h := c]> (coroutines t)) (Pos.succ h)) ;;;
  ret h.

(** [coroutine_handle::destroy]. *)
Definition destroy_coroutine (r this : Ptr) (h : Handle) : M Ctx unit :=
  load_coroutine r h ;;;
  let! rp := load_rp r in
  let cs := coroutines (task rp) in
  for_each (λ s, exec_op this (OpDestroySlot s)) (frame_slots (frame_depth cs) cs h) ;;;
  update_task r (λ t,
    set_coroutines (foldr delete (coroutines t) (frame_tasks (frame_depth cs) cs h)) t).

Definition destroy_local (r this : Ptr) (l : Local) : M Ctx unit :=
  match l with
  | LocalSlot s => exec_op this (OpDestroySlot s)
  | LocalTask h => destroy_coroutine r this h
  end.

(** Leaving the outermost scope of [h]. *)
Definition destroy_locals (r this : Ptr) (h : Handle) : M Ctx unit :=
  let! c := load_coroutine r h in
  for_each (destroy_local r this) (locals c) ;;;
  update_coroutine r h (set_locals []).

(** An exception leaves [h]: its frame is unwound, and [unhandled_exception]
    rethrows. *)
Definition unwind (r this : Ptr) (h : Handle) : M Ctx unit :=
  destroy_locals r this h ;;;
  update_coroutine r h (set_state Dead).

Definition guarded {A} (r this : Ptr) (h : Handle) (m : M Ctx A) : M Ctx A :=
  on_throw m (unwind r this h).

(** ** Suspending *)

(** [IWaiting::await_suspend]. *)
Definition await_suspend (r : Ptr) (h : Handle) (w : IWaiting) : M Ctx unit :=
  update_base r h (set_waiting (Some w)) ;;;
  let! b := load_base r h in
  match processPromise b with
  | Some p => update_base r p (set_nextChild (Some h))
  | None => ret tt
  end.

Fixpoint updateProcessPromise (fuel : nat) (r : Ptr) (at_ process_promise : Handle) : M Ctx unit :=
  match fuel with
  | 0 => stop OutOfFuel
  | Datatypes.S fuel' =>
      update_base r at_ (set_processPromise (Some process_promise)) ;;;
      update_base r process_promise (set_nextChild (Some at_)) ;;;
      let! b := load_base r at_ in
      match subCoroutineChild b with
      | Some child => updateProcessPromise fuel' r child process_promise
      | None => ret tt
      end
  end.

(** As many turns as there are coroutines. *)
Definition updateProcessPromise_all (r : Ptr) (at_ process_promise : Handle) : M Ctx unit :=
  let! rp := load_rp r in
  updateProcessPromise (base.size (coroutines (task rp))) r at_ process_promise.

(** [updateSuspend(ProcessPromise&, MethodTaskPromise&)]. *)
Definition updateSuspend_process (r : Ptr) (parent_promise our_promise : Handle) : M Ctx unit :=
  update_base r our_promise (set_parent (Some parent_promise)) ;;;
  update_base r parent_promise (set_subCoroutineChild (Some our_promise)) ;;;
  let! our := load_base r our_promise in
  match processPromise our with
  | None => updateProcessPromise_all r our_promise parent_promise
  | Some _ => ret tt
  end.

(** [updateSuspend(MethodTaskPromise&, MethodTaskPromise&)]. *)
Definition updateSuspend_method (r : Ptr) (parent_promise our_promise : Handle) : M Ctx unit :=
  update_base r our_promise (set_parent (Some parent_promise)) ;;;
  update_base r parent_promise (set_subCoroutineChild (Some our_promise)) ;;;
  let! our := load_base r our_promise in
  let! par := load_base r parent_promise in
  match processPromise our, processPromise par with
  | None, Some p => updateProcessPromise_all r our_promise p
  | _, _ => ret tt
  end.

(** The overload is chosen by the promise type of the awaiting coroutine. *)
Definition updateSuspend (r : Ptr) (parent_promise our_promise : Handle) : M Ctx unit :=
  let! par := load_base r parent_promise in
  match kind par with
  | ProcessPromise => updateSuspend_process r parent_promise our_promise
  | _ => updateSuspend_method r parent_promise our_promise
  end.

(** [MethodTaskBase::await_ready]. *)
Definition method_await_ready (c : Coroutine) : bool :=
  if at_final c then true
  else match subCoroutineChild (promise c), waiting (promise c) with
       | None, None => true
       | _, _ => false
       end.

(** [GenTask::NextAwaitable::await_ready] and [await_resume]. *)
Definition next_await_ready (c : Coroutine) : bool :=
  match subCoroutineChild (promise c), waiting (promise c) with
  | None, None => true
  | _, _ => false
  end.

Definition next_await_resume (c : Coroutine) : bool := negb (at_final c).

(** [MethodTask::await_resume]. *)
Definition method_await_resume (c : Coroutine) : value := default void (t_ (promise c)).

(** ** Running *)

(** Local slots come and go with the operations that construct and destroy
    them. *)
Definition track {A} (o : Op A) : A → list Local → list Local :=
  match o in Op A return A → list Local → list Local with
  | OpCreateSlot => λ a l, LocalSlot (sa_slot a) :: l
  | OpDestroySlot s => λ _ l, filter (λ l', l' ≠ LocalSlot s) l
  | _ => λ _ l, l
  end.

Definition tracked {A} (o : Op A) : bool :=
  match o with OpCreateSlot | OpDestroySlot _ => true | _ => false end.

(** [coroutine_handle::resume]: finish the pending [co_await], then go on as
    [run] does. *)
Definition resume_with (run : Handle → Body → M Ctx unit) (r this : Ptr) (h : Handle) : M Ctx unit :=
  let! c := load_coroutine r h in
  match state c with
  | Suspended s =>
      update_coroutine r h (set_state Running) ;;;
      match s with
      | AtStart body => run h body
      | AtAwait w k =>
          let! v := guarded r this h (exec_op this (OpAwaitResume w)) in run h (k v)
      | AtAwaitMessage w k =>
          let! v := guarded r this h (exec_op this (OpAwaitResumeMessage w)) in run h (k v)
      | AtMethod h' k =>
          let! c' := load_coroutine r h' in run h (k (method_await_resume c'))
      | AtNext h' k =>
          let! c' := load_coroutine r h' in run h (k (next_await_resume c'))
      | AtYield k => run h (k tt)
      end
  | _ => undefined NotSuspended
  end.

(** A suspended coroutine [h] resumes its parent from an [await_suspend] of its
    own: an exception out of the parent goes on as an exception at that point of
    [h]. *)
Definition resume_parent (run : Handle → Body → M Ctx unit) (r this : Ptr) (h p : Handle) :
    M Ctx unit :=
  update_base r p (set_subCoroutineChild None) ;;;
  guarded r this h (resume_with run r this p).

(** The end of a body: [return_value] and, once the locals are gone,
    [final_suspend] of its kind of promise. *)
Definition final_suspend (run : Handle → Body → M Ctx unit) (r this : Ptr) (h : Handle) (v : value) :
    M Ctx unit :=
  let! b := load_base r h in
  match kind b with
  | MethodTaskPromise =>
      update_base r h (set_t (Some v)) ;;;
      destroy_locals r this h ;;;
      update_coroutine r h (set_state AtFinal) ;;;
      match parent b with
      | Some p => resume_parent run r this h p
      | None => ret tt
      end
  | _ =>
      destroy_locals r this h ;;;
      update_coroutine r h (set_state AtFinal)
  end.

(** [yield_value] and [YieldSuspender::await_suspend]. *)
Definition yield_suspend (run : Handle → Body → M Ctx unit) (r this : Ptr) (h : Handle) (v : value)
    (k : unit → Body) : M Ctx unit :=
  update_base r h (set_t (Some v)) ;;;
  update_coroutine r h (set_state (Suspended (AtYield k))) ;;;
  update_base r h (set_waiting None) ;;;
  let! b := load_base r h in
  match parent b with
  | Some p =>
      update_base r h (set_parent None) ;;;
      resume_parent run r this h p
  | None => ret tt
  end.

(** [OwnedCoroutine::resume], of the task [h'] among the locals of [h]. *)
Definition owned_resume (run : Handle → Body → M Ctx unit) (r this : Ptr) (h h' : Handle) :
    M Ctx unit :=
  try_catch (resume_with run r this h')
    (λ what,
     update_coroutine r h (λ c, set_locals (filter (λ l, l ≠ LocalTask h') (locals c)) c) ;;;
     throw (std_exception what)).

(** Calling a coroutine: the body of a method task runs at once
    ([initial_suspend] is [suspend_never]), that of a generator when it is
    resumed. The frame of a call that throws is freed. *)
Definition call_method (run : Handle → Body → M Ctx unit) (r : Ptr) (m : method) : M Ctx Handle :=
  if is_generator m then
    new_coroutine r (mkCoroutine _ _ (new_promise_base GenPromise)
                       (Suspended (AtStart (method_body m))) [])
  else
    let! h' := new_coroutine r (mkCoroutine _ _ (new_promise_base MethodTaskPromise) Running []) in
    on_throw (run h' (method_body m))
      (update_task r (λ t, set_coroutines (delete h' (coroutines t)) t)) ;;;
    ret h'.

(** [~MethodTask], [~GenTask]; nothing is left to destroy once a resumption
    threw. *)
Definition drop_task (r this : Ptr) (h h' : Handle) : M Ctx unit :=
  let! c := load_coroutine r h in
  if bool_decide (LocalTask h' ∈ locals c) then
    update_coroutine r h (set_locals (filter (λ l, l ≠ LocalTask h') (locals c))) ;;;
    destroy_coroutine r this h'
  else ret tt.

(** [co_await w]: an awaiter that is ready does not suspend, its [await_resume]
    is called at once. *)
Definition await (r this : Ptr) (h : Handle) (w : IWaiting) {A} (op : Op A) (s : Suspension)
    (continue : A → M Ctx unit) : M Ctx unit :=
  let! b := exec_op this (OpAwaitReady w) in
  if b then
    let! v := guarded r this h (exec_op this op) in continue v
  else
    update_coroutine r h (set_state (Suspended s)) ;;;
    await_suspend r h w.

(** One statement of [h]; [run] does what follows it. *)
Definition run_step (run : Handle → Body → M Ctx unit) (r this : Ptr) (h : Handle) (t : Body) :
    M Ctx unit :=
  match observe t with
  | ITreeDefinition.RetF v => final_suspend run r this h v
  | ITreeDefinition.TauF t' => run h t'
  | ITreeDefinition.VisF (Sum.inl1 o) k =>
      let! x := guarded r this h (exec_op this o) in
      when (tracked o) (update_coroutine r h (λ c, set_locals (track o x (locals c)) c)) ;;;
      run h (k x)
  | ITreeDefinition.VisF (Sum.inr1 (Sum.inl1 e)) k =>
      match e in AwaitE A return (A → Body) → M Ctx unit with
      | CoAwait w => λ k, await r this h w (OpAwaitResume w) (AtAwait w k) (λ v, run h (k v))
      | CoAwaitMessage w => λ k,
          await r this h w (OpAwaitResumeMessage w) (AtAwaitMessage w k) (λ v, run h (k v))
      end k
  | ITreeDefinition.VisF (Sum.inr1 (Sum.inr1 e)) k =>
      match e in TaskE A return (A → Body) → M Ctx unit with
      | CallMethod m => λ k,
          let! h' := guarded r this h (call_method run r m) in
          update_coroutine r h (λ c, set_locals (LocalTask h' :: locals c) c) ;;;
          run h (k h')
      | AwaitMethod h' => λ k,
          let! c := load_coroutine r h' in
          if method_await_ready c then run h (k (method_await_resume c))
          else
            update_coroutine r h (set_state (Suspended (AtMethod h' k))) ;;;
            updateSuspend r h h'
      | DropTask h' => λ k, drop_task r this h h' ;;; run h (k tt)
      | GenNext h' => λ k,
          guarded r this h (owned_resume run r this h h') ;;;
          run h (k tt)
      | AwaitNext h' => λ k,
          let! c := load_coroutine r h' in
          if next_await_ready c then run h (k (next_await_resume c))
          else
            update_coroutine r h (set_state (Suspended (AtNext h' k))) ;;;
            updateSuspend r h h'
      | GenTake h' => λ k,
          let! b := load_base r h' in
          match t_ b with
          | Some v => run h (k v)
          | None => guarded r this h (throw (std_exception "bad optional access"))
          end
      | CoYield v => λ k, yield_suspend run r this h v k
      end k
  end.

(** Run the statements of [h] from [t] on, until it suspends or ends. *)
Fixpoint run_body (fuel : nat) (r this : Ptr) (h : Handle) (t : Body) : M Ctx unit :=
  match fuel with
  | 0 => stop OutOfFuel
  | Datatypes.S fuel' => run_step (run_body fuel' r this) r this h t
  end.

(** [coroutine_handle::resume]. *)
Definition resume_handle (fuel : nat) (r this : Ptr) (h : Handle) : M Ctx unit :=
  resume_with (run_body fuel r this) r this h.

(** [ProcessTask::resume]: the coroutine suspended last is resumed, the one of
    the process if that is none of its sub-tasks. *)
Definition ProcessTask_resume (fuel : nat) (r : Ptr) : M Ctx (option IWaiting) :=
  let! rp := load_rp r in
  let this := process_ptr rp in
  match coroutine_ (task rp) with
  | None => undefined NullDereference
  | Some h =>
      let! b := load_base r h in
      update_base r h (set_waiting None) ;;;
      update_base r h (set_nextChild None) ;;;
      match nextChild b with
      | Some child => resume_handle fuel r this child
      | None =>
          try_catch (resume_handle fuel r this h)
            (λ what, update_task r (set_coroutine None) ;;; throw (std_exception what))
      end ;;;
      let! c := load_coroutine r h in
      if at_final c then
        update_task r (set_coroutine None) ;;;
        destroy_coroutine r this h ;;;
        ret None
      else
        match nextChild (promise c) with
        | Some n => let! b := load_base r n in ret (waiting b)
        | None => ret (waiting (promise c))
        end
  end.

Definition task_resume_coroutine (fuel : nat) : TaskResume ProcessTask := ProcessTask_resume fuel.
End coroutine.

(** ** Effects

    A preorder that allows the operations of process code and replacing the task
    allows every resumption. *)

Section laws.
Context `{PB : ProcessBodies} `{IO : IoService Handler}.
Local Abbreviation Ctx := (Context ProcessTask).
Context (R : relation Ctx) `{!PreOrder R}.
Context (Hop : ∀ this A (o : Op A), within R (exec_op this o)).
Context (Htask : ∀ r t, within R (update_rp r (set_task t))).

Hint Resolve Hop Htask : within.

Lemma within_load_rp r : within R (load_rp (T:=ProcessTask) r).
Proof. intros c c'. unfold load_rp, deref. by destruct (rps c !! r) as [rp|]; intros [= <-]. Qed.
Hint Resolve within_load_rp : within.
Lemma within_update_task r f : within R (update_task r f).
Proof. unfold update_task. within_solve. Qed.
Lemma within_load_coroutine r h : within R (load_coroutine r h).
Proof. unfold load_coroutine. within_solve. Qed.
Hint Resolve within_update_task within_load_coroutine : within.
Lemma within_load_base r h : within R (load_base r h).
Proof. unfold load_base. within_solve. Qed.
Lemma within_update_coroutine r h f : within R (update_coroutine r h f).
Proof. unfold update_coroutine. within_solve. Qed.
Hint Resolve within_load_base within_update_coroutine : within.
Lemma within_update_base r h f : within R (update_base r h f).
Proof. unfold update_base. within_solve. Qed.
Lemma within_new_coroutine r c : within R (new_coroutine r c).
Proof. unfold new_coroutine. within_solve. Qed.
Lemma within_destroy_coroutine r this h : within R (destroy_coroutine r this h).
Proof. unfold destroy_coroutine. within_solve. Qed.
Hint Resolve within_update_base within_new_coroutine within_destroy_coroutine : within.
Lemma within_destroy_locals r this h : within R (destroy_locals r this h).
Proof. unfold destroy_locals, destroy_local. within_solve. Qed.
Hint Resolve within_destroy_locals : within.
Lemma within_guarded {A} r this h (m : M Ctx A) : within R m → within R (guarded r this h m).
Proof. intros Hm. unfold guarded, unwind. within_solve. Qed.
Hint Resolve within_guarded : within.

Lemma within_await_suspend r h w : within R (await_suspend r h w).
Proof. unfold await_suspend. within_solve. Qed.
Lemma within_updateProcessPromise fuel r at_ p : within R (updateProcessPromise fuel r at_ p).
Proof. revert at_. induction fuel; intros; within_solve. Qed.
Hint Resolve within_await_suspend within_updateProcessPromise : within.
Lemma within_updateSuspend r p h : within R (updateSuspend r p h).
Proof.
  unfold updateSuspend, updateSuspend_process, updateSuspend_method, updateProcessPromise_all.
  within_solve.
Qed.
Hint Resolve within_updateSuspend : within.

Section run.
Context (run : Handle → Body → M Ctx unit) (Hrun : ∀ h t, within R (run h t)).
Hint Resolve Hrun : within.

Lemma within_resume_with r this h : within R (resume_with run r this h).
Proof. unfold resume_with. within_solve. Qed.
Hint Resolve within_resume_with : within.
Lemma within_resume_parent r this h p : within R (resume_parent run r this h p).
Proof. unfold resume_parent. within_solve. Qed.
Hint Resolve within_resume_parent : within.
Lemma within_final_suspend r this h v : within R (final_suspend run r this h v).
Proof. unfold final_suspend. within_solve. Qed.
Lemma within_yield_suspend r this h v k : within R (yield_suspend run r this h v k).
Proof. unfold yield_suspend. within_solve. Qed.
Lemma within_owned_resume r this h h' : within R (owned_resume run r this h h').
Proof. unfold owned_resume. within_solve. Qed.
Lemma within_call_method r m : within R (call_method run r m).
Proof. unfold call_method. within_solve. Qed.
End run.
Hint Resolve within_resume_with within_final_suspend within_yield_suspend within_owned_resume
  within_call_method : within.

Lemma within_drop_task r this h h' : within R (drop_task r this h h').
Proof. unfold drop_task. within_solve. Qed.
Lemma within_await r this h w A (op : Op A) s (k : A → M Ctx unit) :
  (∀ v, within R (k v)) → within R (await r this h w op s k).
Proof. intros Hk. unfold await. within_solve. Qed.
Hint Resolve within_drop_task within_await : within.

Lemma within_run_body fuel r this h t : within R (run_body fuel r this h t).
Proof.
  revert h t. induction fuel as [|fuel IH]; intros h t; simpl; [within_solve|]. unfold run_step.
  destruct (observe t) as [v|t'|A [o|[e|e]] k]; [within_solve|apply IH|within_solve|..];
    destruct e; within_solve.
  apply within_guarded; within_solve.
Qed.
Hint Resolve within_run_body : within.

Lemma within_ProcessTask_resume fuel r : within R (ProcessTask_resume fuel r).
Proof. unfold ProcessTask_resume, resume_handle. within_solve. Qed.
End laws.

(** The coroutines meet what the scheduler asks of them. *)
#[export] Instance coroutine_laws `{PB : ProcessBodies} `{IO : IoService Handler} fuel :
  @TaskResumeLaws ProcessTask _ _ _ (task_resume_coroutine fuel).
Proof. intros R HR Hop Htask r. by apply within_ProcessTask_resume. Qed.

(** ** Writing bodies *)

Section bodies.
Context `{Methods}.

Definition task_op {A} (e : TaskE A) : itree ProcessE A :=
  ITreeDefinition.ITree.trigger (Sum.inr1 (Sum.inr1 e)).

Definition call {A} (o : Op A) : itree ProcessE A := ITreeDefinition.ITree.trigger (Sum.inl1 o).
Definition co_await (w : IWaiting) : itree ProcessE (list (option payload)) :=
  ITreeDefinition.ITree.trigger (Sum.inr1 (Sum.inl1 (CoAwait w))).
(** [co_await recv(slot)]. *)
Definition co_recv (slot : SendAddress) : itree ProcessE payload :=
  ITreeDefinition.ITree.trigger (Sum.inr1 (Sum.inl1 (CoAwaitMessage (recv slot)))).

(** [co_await m(...)]: the task is a temporary. *)
Definition co_call (m : method) : itree ProcessE value :=
  do! h := task_op (CallMethod m) in
  do! v := task_op (AwaitMethod h) in
  task_op (DropTask h) ;;!
  co_return v.

(** [co_await gen.next()]. *)
Definition co_next (gen : Handle) : itree ProcessE bool :=
  task_op (GenNext gen) ;;!
  task_op (AwaitNext gen).

Definition co_yield (v : value) : itree ProcessE unit := task_op (CoYield v).

(** [while (co_await gen.next()) body], where the body updates the locals [s]. *)
Definition while_next {S} (gen : Handle) (s : S) (body : value → S → itree ProcessE S) : itree ProcessE S :=
  ITreeDefinition.ITree.iter
    (λ s : S,
      do! valid := co_next gen in
      if valid then
        do! v := task_op (GenTake gen) in
        do! s' := body v s in
        co_return (inl s')
      else co_return (inr s)) s.

(** [for co_await (auto v : m(...)) body]: [begin] awaits the first value, the
    increment the next one, and both compare against [end]. *)
Definition co_for {S} (m : method) (s : S) (body : value → S → itree ProcessE S) : itree ProcessE S :=
  do! gen := task_op (CallMethod m) in
  do! begin := co_next gen in
  do! s' := ITreeDefinition.ITree.iter
    (λ it : bool * S,
      if it.1 then
        do! v := task_op (GenTake gen) in
        do! s' := body v it.2 in
        do! next := co_next gen in
        co_return (inl (next, s'))
      else co_return (inr it.2)) (begin, s) in
  task_op (DropTask gen) ;;!
  co_return s'.

(** [co_await send(p, ...)]. *)
Definition co_send (a : SendAddress) (m : payload) : itree ProcessE unit :=
  do! w := call (OpSend a m) in
  co_await w ;;!
  co_return tt.

(** The body of [Process::sendThrottled]: wait until the queue of the slot
    accepts. *)
Definition sendThrottled (p : SendAddress) (message : payload) : itree ProcessE unit :=
  do! b := call OpWaitOnQueue in
  (if b then co_await WaitingYield else co_return []) ;;!
  do! promise := call (OpCanQueue p) in
  ITreeDefinition.ITree.iter
    (λ promise : option PromiseRef,
      match promise with
      | Some pr =>
          co_await (WaitingFuture pr) ;;!
          do! promise' := call (OpCanQueue p) in
          co_return (inl promise')
      | None => co_return (inr tt)
      end) promise ;;!
  call (OpQueueSend p message).
End bodies.
