(* ===== verification/CoroutineFacts.v ===== *)
(** * Facts about coroutines

    Coroutine code that only touches the task of its process is described by
    [runs]: from task [t] it returns [a] and leaves task [t'], whatever the rest
    of the context is. On top of it: how a suspension reaches the process
    ([updateSuspend]), and that a method task which never suspends is an ordinary
    function call. *)

From ITree Require Core.ITreeDefinition Indexed.Sum.
From S2P Require Import Prelude.
From S2P Require Import BaseTypes.
From S2P Require Import Future.
From S2P Require Import Slot.
From S2P Require Import Waiting.
From S2P Require Import IoService.
From S2P Require Import Process.
From S2P Require Import Context.
From S2P Require Import Lifecycle.
From S2P Require Import ContextFacts.
From S2P Require Import LifecycleFacts.
From S2P Require Import Scheduler.
From S2P Require Import Coroutine.

Section task_runs.
Context `{PB : ProcessBodies} `{IO : IoService Handler}.
Local Abbreviation Ctx := (Context ProcessTask).
Implicit Types (c : Ctx) (t : ProcessTask) (co : Coroutine) (cs : gmap Handle Coroutine).

(** ** Computations confined to the task of a process *)

Definition task_at (r : Ptr) c : option ProcessTask := task <$> rps c !! r.

Definition with_task (r : Ptr) t c : Ctx := set_rps (alter (set_task t) r (rps c)) c.

Definition runs {A} (r : Ptr) (m : M Ctx A) t (a : A) t' : Prop :=
  ∀ c, task_at r c = Some t → m c = Ok a (with_task r t' c).

Lemma task_at_with_task r t t' c : task_at r c = Some t → task_at r (with_task r t' c) = Some t'.
Proof.
  unfold task_at, with_task. simpl. rewrite lookup_alter_eq. by destruct (rps c !! r).
Qed.

Lemma with_task_twice r t t' c : with_task r t' (with_task r t c) = with_task r t' c.
Proof.
  unfold with_task, set_rps. simpl. f_equal. apply map_eq. intros r'. destruct (decide (r = r')) as [<-|].
  - rewrite !lookup_alter_eq. by destruct (rps c !! r).
  - by rewrite !lookup_alter_ne.
Qed.

Lemma with_task_same r t c : task_at r c = Some t → with_task r t c = c.
Proof.
  unfold task_at, with_task. destruct (rps c !! r) as [rp|] eqn:Hr; simpl; [|done].
  intros [= <-]. replace (alter _ r (rps c)) with (rps c); [by destruct c|].
  apply map_eq. intros r'. destruct (decide (r = r')) as [<-|].
  - rewrite lookup_alter_eq, Hr. by destruct rp.
  - by rewrite lookup_alter_ne.
Qed.

Lemma runs_ret {A} r (a : A) t : runs r (ret a) t a t.
Proof. intros c Hc. unfold ret. by rewrite with_task_same. Qed.

Lemma runs_bind {A B} r (m : M Ctx A) (k : A → M Ctx B) t a t1 b t2 :
  runs r m t a t1 → runs r (k a) t1 b t2 → runs r (bind m k) t b t2.
Proof.
  intros Hm Hk c Hc. rewrite (bind_run _ _ _ _ _ (Hm c Hc)), Hk.
  - by rewrite with_task_twice.
  - by eapply task_at_with_task.
Qed.

Lemma bind_runs {A B} r (m : M Ctx A) (k : A → M Ctx B) t x t' c :
  runs r m t x t' → task_at r c = Some t → bind m k c = k x (with_task r t' c).
Proof. intros Hm Hc. by rewrite (bind_run _ _ _ _ _ (Hm c Hc)). Qed.

Lemma runs_on_throw {A} r (m : M Ctx A) cleanup t a t' :
  runs r m t a t' → runs r (on_throw m cleanup) t a t'.
Proof. intros Hm c Hc. unfold on_throw. by rewrite (Hm c Hc). Qed.

Lemma runs_try_catch {A} r (m : M Ctx A) h t a t' :
  runs r m t a t' → runs r (try_catch m h) t a t'.
Proof. intros Hm c Hc. unfold try_catch. by rewrite (Hm c Hc). Qed.

Lemma runs_load_rp {B} r (k : RunningProcess ProcessTask → M Ctx B) t b t' :
  (∀ rp, task rp = t → runs r (k rp) t b t') → runs r (bind (load_rp r) k) t b t'.
Proof.
  intros Hk c Hc. pose proof Hc as Ht. unfold task_at in Ht.
  destruct (rps c !! r) as [rp|] eqn:Hr; [|done]. injection Ht as Ht.
  unfold bind, load_rp, deref. rewrite Hr. by apply Hk.
Qed.

Lemma runs_update_task r f t : runs r (update_task r f) t tt (f t).
Proof.
  intros c Hc. unfold task_at in Hc. destruct (rps c !! r) as [rp|] eqn:Hr; [|done].
  injection Hc as <-. unfold update_task, update_rp, bind, load_rp, deref. rewrite !Hr. simpl.
  unfold store_rp, modify, with_task. do 3 f_equal.
  apply map_eq. intros r'. destruct (decide (r = r')) as [<-|].
  - by rewrite lookup_insert_eq, lookup_alter_eq, Hr.
  - by rewrite lookup_insert_ne, lookup_alter_ne.
Qed.

Lemma runs_load_coroutine r t h co :
  coroutines t !! h = Some co → runs r (load_coroutine r h) t co t.
Proof.
  intros Hh. unfold load_coroutine. apply runs_load_rp. intros rp ->. rewrite Hh. apply runs_ret.
Qed.

(** ** The heap of coroutines *)

Definition put (h : Handle) co t : ProcessTask := set_coroutines (<[h := co]> (coroutines t)) t.

Definition alter_base (h : Handle) (f : PromiseBase → PromiseBase) t : ProcessTask :=
  set_coroutines (alter (λ co, set_promise (f (promise co)) co) h (coroutines t)) t.

Lemma runs_update_coroutine r t h f co :
  coroutines t !! h = Some co → runs r (update_coroutine r h f) t tt (put h (f co) t).
Proof.
  intros Hh. unfold update_coroutine. eapply runs_bind; [by apply runs_load_coroutine|].
  apply (runs_update_task r (put h (f co))).
Qed.

Lemma runs_load_base r t h co :
  coroutines t !! h = Some co → runs r (load_base r h) t (promise co) t.
Proof.
  intros Hh. unfold load_base. eapply runs_bind; [by apply runs_load_coroutine|apply runs_ret].
Qed.

Lemma put_alter h f co t :
  coroutines t !! h = Some co →
  put h (set_promise (f (promise co)) co) t = alter_base h f t.
Proof.
  intros Hh. unfold put, alter_base. f_equal. apply map_eq. intros h'.
  destruct (decide (h = h')) as [<-|].
  - by rewrite lookup_insert_eq, lookup_alter_eq, Hh.
  - by rewrite lookup_insert_ne, lookup_alter_ne.
Qed.

Lemma runs_update_base r t h f :
  is_Some (coroutines t !! h) → runs r (update_base r h f) t tt (alter_base h f t).
Proof.
  intros [co Hh]. unfold update_base. rewrite <- (put_alter h f co) by done.
  by apply (runs_update_coroutine r t h (λ co, set_promise (f (promise co)) co)).
Qed.

Lemma put_lookup h co t : coroutines (put h co t) !! h = Some co.
Proof. apply lookup_insert_eq. Qed.

Lemma alter_base_lookup h h' f t :
  coroutines (alter_base h f t) !! h' =
    (λ co, if decide (h = h') then set_promise (f (promise co)) co else co) <$> coroutines t !! h'.
Proof.
  unfold alter_base. simpl. destruct (decide (h = h')) as [<-|].
  - by rewrite lookup_alter_eq.
  - rewrite lookup_alter_ne by done. by destruct (coroutines t !! h').
Qed.

Lemma alter_base_lookup_eq h f t co :
  coroutines t !! h = Some co →
  coroutines (alter_base h f t) !! h = Some (set_promise (f (promise co)) co).
Proof. intros Hh. rewrite alter_base_lookup, Hh. simpl. by rewrite decide_True. Qed.

Lemma alter_base_lookup_ne h h' f t :
  h ≠ h' → coroutines (alter_base h f t) !! h' = coroutines t !! h'.
Proof. apply lookup_alter_ne. Qed.

(** ** How a suspension reaches the process *)

(** The coroutines from [h] on, each awaiting the next. *)
Inductive chain cs : Handle → list Handle → Prop :=
  | chain_end h co : cs !! h = Some co → subCoroutineChild (promise co) = None → chain cs h [h]
  | chain_next h co h' l :
      cs !! h = Some co → subCoroutineChild (promise co) = Some h' → chain cs h' l →
      chain cs h (h :: l).

Lemma chain_unique cs h l1 l2 : chain cs h l1 → chain cs h l2 → l1 = l2.
Proof.
  intros H1. revert l2. induction H1 as [h co Hh Hs|h co h' l Hh Hs _ IH]; intros l2 H2;
    inversion H2; simplify_eq; [done|]. f_equal. auto.
Qed.

Lemma chain_suffix cs h h' l :
  chain cs h l → h' ∈ l → ∃ l', chain cs h' l' ∧ length l' ≤ length l.
Proof.
  induction 1 as [h co Hh Hs|h co h1 l Hh Hs Hc IH].
  - intros ->%list_elem_of_singleton. exists [h]. split; [by eapply chain_end|done].
  - intros [->|Hin]%elem_of_cons.
    + exists (h :: l). split; [by eapply chain_next|done].
    + destruct (IH Hin) as (l' & Hl' & Hlen). exists l'. split; [done|]. simpl. lia.
Qed.

Lemma chain_NoDup cs h l : chain cs h l → NoDup l.
Proof.
  induction 1 as [h co Hh Hs|h co h' l Hh Hs Hc IH]; [apply NoDup_singleton|].
  apply NoDup_cons. split; [|done]. intros Hin.
  destruct (chain_suffix _ _ _ _ Hc Hin) as (l' & Hl' & Hlen).
  assert (Heq : h :: l = l') by (eapply chain_unique; [by eapply chain_next|done]).
  subst. simpl in Hlen. lia.
Qed.

Lemma chain_alive cs h l h' : chain cs h l → h' ∈ l → is_Some (cs !! h').
Proof.
  intros Hc Hin. destruct (chain_suffix _ _ _ _ Hc Hin) as (l' & Hl' & _).
  by inversion Hl'; simplify_eq.
Qed.

Lemma chain_length cs h l : chain cs h l → length l ≤ base.size cs.
Proof.
  intros Hc. rewrite <- (size_list_to_set (C:=gset Handle) l) by by eapply chain_NoDup.
  rewrite <- size_dom. apply subseteq_size. intros h' Hin%elem_of_list_to_set.
  apply elem_of_dom. by eapply chain_alive.
Qed.

Lemma chain_replace cs cs' h l :
  chain cs h l →
  (∀ h' co, h' ∈ l → cs !! h' = Some co →
    ∃ co', cs' !! h' = Some co' ∧ subCoroutineChild (promise co') = subCoroutineChild (promise co)) →
  chain cs' h l.
Proof.
  induction 1 as [h co Hh Hs|h co h1 l Hh Hs _ IH]; intros Hrep.
  - destruct (Hrep h co) as (co' & Hco' & Heq); [left|done|].
    eapply chain_end; [done|by rewrite Heq].
  - destruct (Hrep h co) as (co' & Hco' & Heq); [left|done|].
    eapply chain_next; [done|rewrite Heq; exact Hs|]. apply IH. intros h' co1 Hin. apply Hrep. by right.
Qed.

Lemma chain_alter_base t h l h' f :
  (∀ b, subCoroutineChild (f b) = subCoroutineChild b) →
  chain (coroutines t) h l → chain (coroutines (alter_base h' f t)) h l.
Proof.
  intros Hf Hc. eapply chain_replace; [done|]. intros h1 co _ Hco. rewrite alter_base_lookup, Hco.
  eexists. split; [done|]. case_decide; [apply Hf|done].
Qed.

(** What [updateProcessPromise] does along a chain [l]. *)
Fixpoint mark (p : Handle) (l : list Handle) t : ProcessTask :=
  match l with
  | [] => t
  | h :: l' =>
      mark p l' (alter_base p (set_nextChild (Some h)) (alter_base h (set_processPromise (Some p)) t))
  end.

Lemma runs_updateProcessPromise fuel r p t h l :
  chain (coroutines t) h l → is_Some (coroutines t !! p) → length l ≤ fuel →
  runs r (updateProcessPromise fuel r h p) t tt (mark p l t).
Proof.
  intros Hc. revert t h Hc. induction l as [|h0 l IH] in fuel |- *; intros t h Hc Hp Hlen;
    [inversion Hc|].
  destruct fuel as [|fuel]; simpl in Hlen; [lia|]. simpl.
  assert (∃ co, h0 = h ∧ coroutines t !! h = Some co ∧
    match l with
    | [] => subCoroutineChild (promise co) = None
    | h' :: _ => subCoroutineChild (promise co) = Some h' ∧ chain (coroutines t) h' l
    end) as (co & -> & Hh & Hnext).
  { inversion Hc as [? co|? co h' ? Hh Hs Hc']; simplify_eq; exists co; [done|].
    split_and!; [done..|]. by inversion Hc'; simplify_eq. }
  set (t1 := alter_base h (set_processPromise (Some p)) t).
  assert (Hp1 : is_Some (coroutines t1 !! p)) by (unfold t1; rewrite alter_base_lookup; by apply fmap_is_Some).
  set (t2 := alter_base p (set_nextChild (Some h)) t1).
  assert (Hp2 : is_Some (coroutines t2 !! p)) by (unfold t2; rewrite alter_base_lookup; by apply fmap_is_Some).
  assert (Hh2 : ∃ co2, coroutines t2 !! h = Some co2 ∧
    subCoroutineChild (promise co2) = subCoroutineChild (promise co)).
  { unfold t2, t1. rewrite !alter_base_lookup, Hh. simpl. eexists. split; [done|].
    by repeat case_decide. }
  destruct Hh2 as (co2 & Hh2 & Hs2).
  eapply runs_bind; [apply runs_update_base; by eexists|].
  eapply runs_bind; [by apply runs_update_base|].
  eapply runs_bind; [by apply runs_load_base|]. rewrite Hs2.
  destruct l as [|h' l]; [rewrite Hnext; apply runs_ret|].
  destruct Hnext as [-> Hc']. apply IH; [|done|simpl in *; lia].
  by apply chain_alter_base, chain_alter_base.
Qed.

Lemma mark_other p l t h : h ∉ l → h ≠ p → coroutines (mark p l t) !! h = coroutines t !! h.
Proof.
  revert t. induction l as [|h0 l IH]; intros t Hl Hp; [done|]. simpl.
  apply not_elem_of_cons in Hl as [Hh Hl]. rewrite IH by done.
  by rewrite !alter_base_lookup_ne by done.
Qed.

Lemma mark_marked p l t h co :
  NoDup l → p ∉ l → h ∈ l → coroutines t !! h = Some co →
  coroutines (mark p l t) !! h = Some (set_promise (set_processPromise (Some p) (promise co)) co).
Proof.
  revert t. induction l as [|h0 l IH]; intros t Hnd Hp Hh Hco; [by apply elem_of_nil in Hh|].
  apply NoDup_cons in Hnd as [Hh0 Hnd]. apply not_elem_of_cons in Hp as [Hp0 Hp]. simpl.
  apply elem_of_cons in Hh as [->|Hh].
  - rewrite mark_other, alter_base_lookup_ne by done. by apply alter_base_lookup_eq.
  - assert (h0 ≠ h) by (by intros ->). assert (p ≠ h) by (by intros ->).
    apply IH; [done..|]. by rewrite !alter_base_lookup_ne.
Qed.

Lemma mark_process p l t co :
  p ∉ l → coroutines t !! p = Some co → l ≠ [] →
  coroutines (mark p l t) !! p = Some (set_promise (set_nextChild (last l) (promise co)) co).
Proof.
  revert t co. induction l as [|h l IH]; intros t co Hp Hco Hne; [done|].
  apply not_elem_of_cons in Hp as [Hph Hp]. simpl.
  set (t' := alter_base p _ _).
  assert (Hco' : coroutines t' !! p =
    Some (set_promise (set_nextChild (Some h) (promise co)) co)).
  { unfold t'. apply alter_base_lookup_eq. by rewrite alter_base_lookup_ne. }
  destruct l as [|h' l]; [done|]. rewrite (IH _ _ Hp Hco') by done. done.
Qed.

Lemma mark_frame p l t : coroutine_ (mark p l t) = coroutine_ t ∧ next_handle (mark p l t) = next_handle t.
Proof. revert t. induction l as [|h l IH]; intros t; [done|]. simpl. by rewrite !(proj1 (IH _)), (proj2 (IH _)). Qed.

(** The promise of a coroutine of the chain from [m], once it hangs from [p]. *)
Definition hung (p m h : Handle) (b : PromiseBase) : PromiseBase :=
  set_processPromise (Some p) (if decide (h = m) then set_parent (Some p) b else b).

(** C9: when a process awaits a task that suspended, every coroutine between the
    task and the one at the bottom that waits learns its process, the process
    resumes the one at the bottom next, and nothing else changes. *)
Theorem suspension_reaches_process r t p m l pc mc :
  coroutines t !! p = Some pc → kind (promise pc) = ProcessPromise →
  coroutines t !! m = Some mc → processPromise (promise mc) = None →
  chain (coroutines t) m l → p ∉ l →
  ∃ t', runs r (updateSuspend r p m) t tt t' ∧
    coroutines t' !! p =
      Some (set_promise (set_nextChild (last l) (set_subCoroutineChild (Some m) (promise pc))) pc) ∧
    (∀ h co, h ∈ l → coroutines t !! h = Some co →
      coroutines t' !! h = Some (set_promise (hung p m h (promise co)) co)) ∧
    (∀ h, h ∉ p :: l → coroutines t' !! h = coroutines t !! h) ∧
    coroutine_ t' = coroutine_ t ∧ next_handle t' = next_handle t.
Proof.
  intros Hp Hkind Hm Hnone Hc Hpl.
  assert (Hml : m ∈ l) by (inversion Hc; simplify_eq; left).
  assert (Hpm : m ≠ p) by (by intros ->).
  set (t1 := alter_base m (set_parent (Some p)) t).
  set (t2 := alter_base p (set_subCoroutineChild (Some m)) t1).
  assert (Hm2 : coroutines t2 !! m = Some (set_promise (set_parent (Some p) (promise mc)) mc)).
  { unfold t2, t1. rewrite alter_base_lookup_ne by done. by apply alter_base_lookup_eq. }
  assert (Hp2 : coroutines t2 !! p =
    Some (set_promise (set_subCoroutineChild (Some m) (promise pc)) pc)).
  { unfold t2. apply alter_base_lookup_eq. unfold t1. by rewrite alter_base_lookup_ne. }
  assert (Hl2 : ∀ h, h ∈ l → h ≠ m → coroutines t2 !! h = coroutines t !! h).
  { intros h Hh Hne. assert (p ≠ h) by (by intros ->). unfold t2, t1.
    by rewrite !alter_base_lookup_ne by done. }
  assert (Hc2 : chain (coroutines t2) m l).
  { apply chain_replace with (coroutines t); [done|]. intros h co Hh Hco.
    destruct (decide (h = m)) as [->|Hne]; [|exists co; by rewrite Hl2].
    eexists. split; [exact Hm2|]. by simplify_eq. }
  exists (mark p l t2). split_and!.
  - unfold updateSuspend. eapply runs_bind; [by apply runs_load_base|]. rewrite Hkind.
    unfold updateSuspend_process. eapply runs_bind; [apply runs_update_base; by eexists|].
    eapply runs_bind; [apply runs_update_base; unfold t1; rewrite alter_base_lookup_ne by done; by eexists|].
    eapply runs_bind; [by apply runs_load_base|]. simpl. rewrite Hnone.
    unfold updateProcessPromise_all. apply runs_load_rp. intros rp ->.
    apply runs_updateProcessPromise; [done|by eexists|by eapply chain_length].
  - rewrite (mark_process _ _ _ _ Hpl Hp2) by (by intros ->; apply elem_of_nil in Hml). done.
  - intros h co Hh Hco. pose proof (chain_NoDup _ _ _ Hc) as Hnd. unfold hung. case_decide as Hd.
    + subst. rewrite (mark_marked _ _ _ _ _ Hnd Hpl Hh Hm2). by simplify_eq.
    + rewrite <- (Hl2 h Hh Hd) in Hco. by rewrite (mark_marked _ _ _ _ _ Hnd Hpl Hh Hco).
  - intros h [Hhp Hhl]%not_elem_of_cons. rewrite mark_other by done.
    assert (m ≠ h) by (by intros ->). unfold t2, t1. by rewrite !alter_base_lookup_ne by done.
  - by rewrite (proj1 (mark_frame _ _ _)).
  - by rewrite (proj2 (mark_frame _ _ _)).
Qed.

(** ** Calls that do not suspend *)

(** No coroutine of the task has a handle still to be handed out. *)
Definition allocated t : Prop := ∀ h, is_Some (coroutines t !! h) → (h < next_handle t)%positive.

(** The coroutine [h] with the objects its locals name. *)
Definition owning (h : Handle) co t : Prop :=
  coroutines t !! h = Some co ∧ ∀ h', LocalTask h' ∈ locals co → (h' < next_handle t)%positive.

Definition started : Coroutine := mkCoroutine _ _ (new_promise_base MethodTaskPromise) Running [].
Definition returned (v : value) : Coroutine :=
  mkCoroutine _ _ (set_t (Some v) (new_promise_base MethodTaskPromise)) AtFinal [].

Definition advance (n : nat) t : ProcessTask :=
  mkProcessTask _ _ (coroutine_ t) (coroutines t) (Nat.iter n Pos.succ (next_handle t)).

Lemma advance_0 t : advance 0 t = t.
Proof. by destruct t. Qed.

(** The body of [m], run in a new coroutine, returns [v] without suspending; it
    takes [need] steps and calls [calls] coroutines. *)
Definition eager (m : method) (v : value) (need calls : nat) : Prop :=
  ∀ r this fuel t h,
    need ≤ fuel → allocated t → coroutines t !! h = Some started →
    runs r (run_body fuel r this h (method_body m)) t tt (advance calls (put h (returned v) t)).

Lemma run_body_observe fuel r this h (t1 t2 : Body) :
  observe t1 = observe t2 → run_body fuel r this h t1 = run_body fuel r this h t2.
Proof. intros Ho. destruct fuel; simpl; [done|]. unfold run_step. by rewrite Ho. Qed.

(** Unfold one statement. *)
Lemma run_body_step fuel r this h (t1 : Body) :
  run_body (Datatypes.S fuel) r this h t1 = run_step (run_body fuel r this) r this h t1.
Proof. done. Qed.

(** Go to the statement the body of the goal starts with, by [Ho]. *)
Ltac next_statement Ho :=
  match goal with
  | |- runs _ (run_body (?n + ?m) _ _ _ _) _ _ _ =>
      let n' := eval compute in (Nat.pred n) in
      change (n + m) with (Datatypes.S (n' + m))
  | _ => idtac
  end;
  rewrite run_body_step; unfold run_step at 1; rewrite Ho; cbn beta iota.

(** *** With other effects than those on the task *)

Lemma run_op {A} fuel r this h (body : Body) (o : Op A) k x c c' :
  observe body = ITreeDefinition.VisF (Sum.inl1 o) k → exec_op this o c = Ok x c' →
  tracked o = false →
  run_body (Datatypes.S fuel) r this h body c = run_body fuel r this h (k x) c'.
Proof.
  intros Hbody Ho Htracked. rewrite run_body_step. unfold run_step at 1. rewrite Hbody.
  unfold bind at 1. unfold guarded, on_throw. by rewrite Ho, Htracked.
Qed.

Lemma guarded_ok {A} r this h (m : M Ctx A) c x c' : m c = Ok x c' → guarded r this h m c = Ok x c'.
Proof. intros Hm. unfold guarded, on_throw. by rewrite Hm. Qed.

Lemma run_recv fuel r this h (body : Body) w k m c c' :
  observe body = ITreeDefinition.VisF (Sum.inr1 (Sum.inl1 (CoAwaitMessage w))) k →
  exec_op this (OpAwaitReady w) c = Ok true c → exec_op this (OpAwaitResumeMessage w) c = Ok m c' →
  run_body (Datatypes.S fuel) r this h body c = run_body fuel r this h (k m) c'.
Proof.
  intros Hbody Hready Hm. rewrite run_body_step. unfold run_step at 1. rewrite Hbody. cbn beta iota.
  unfold await. rewrite (bind_run _ _ _ _ _ Hready). cbn iota.
  by rewrite (bind_run _ _ _ _ _ (guarded_ok _ _ _ _ _ _ _ Hm)).
Qed.

Lemma filter_fresh h (l : list Local) :
  (∀ h', LocalTask h' ∈ l → (h' < h)%positive) → filter (λ l, l ≠ LocalTask h) l = l.
Proof.
  induction l as [|x l IH]; intros Hl; [done|]. rewrite filter_cons, decide_True.
  - by rewrite IH by (intros h' Hh'; apply Hl; by right).
  - intros ->. specialize (Hl h (list_elem_of_here _ _)). lia.
Qed.

(** The end of a method task nobody waits for yet. *)
Lemma runs_return r this fuel t h v :
  coroutines t !! h = Some started →
  runs r (run_body (Datatypes.S fuel) r this h (co_return v)) t tt (put h (returned v) t).
Proof.
  intros Hh. rewrite run_body_step. unfold run_step, final_suspend. simpl. eapply runs_bind; [by apply runs_load_base|]. simpl.
  eapply runs_bind; [apply runs_update_base; by eexists|].
  pose proof (alter_base_lookup_eq h (set_t (Some v)) t _ Hh) as H1.
  unfold destroy_locals. eapply runs_bind.
  { eapply runs_bind; [by apply runs_load_coroutine|]. simpl.
    eapply runs_bind; [apply runs_ret|]. by apply runs_update_coroutine. }
  eapply runs_bind; [apply runs_update_coroutine, put_lookup|]. simpl.
  replace (put h (returned v) t) with
    (put h (returned v) (put h (set_locals [] (set_promise (set_t (Some v) (promise started)) started))
      (alter_base h (set_t (Some v)) t))); [apply runs_ret|].
  unfold put, alter_base, set_coroutines. simpl. f_equal. apply map_eq. intros h'.
  destruct (decide (h = h')) as [<-|].
  - by rewrite !lookup_insert_eq.
  - by rewrite !lookup_insert_ne, lookup_alter_ne.
Qed.

Lemma runs_new_coroutine r co t :
  runs r (new_coroutine r co) t (next_handle t)
    (mkProcessTask _ _ (coroutine_ t) (<[next_handle t := co]> (coroutines t)) (Pos.succ (next_handle t))).
Proof.
  unfold new_coroutine. apply runs_load_rp. intros rp ->.
  eapply runs_bind; [apply runs_update_task|]. apply runs_ret.
Qed.

(** Destroying a coroutine without locals. *)
Lemma runs_destroy_coroutine r this h co t :
  coroutines t !! h = Some co → locals co = [] →
  runs r (destroy_coroutine r this h) t tt (set_coroutines (delete h (coroutines t)) t).
Proof.
  intros Hh Hl. unfold destroy_coroutine. eapply runs_bind; [by apply runs_load_coroutine|].
  apply runs_load_rp. intros rp ->. simpl. rewrite Hh, Hl. simpl.
  eapply runs_bind; [apply runs_ret|].
  apply (runs_update_task r (λ t', set_coroutines (delete h (coroutines t')) t')).
Qed.

Lemma runs_drop_task r this h h' co co' t :
  h ≠ h' → coroutines t !! h = Some co → LocalTask h' ∈ locals co →
  coroutines t !! h' = Some co' → locals co' = [] →
  runs r (drop_task r this h h') t tt
    (set_coroutines (delete h' (<[h := set_locals (filter (λ l, l ≠ LocalTask h') (locals co)) co]>
       (coroutines t))) t).
Proof.
  intros Hne Hh Hin Hh' Hl. unfold drop_task. eapply runs_bind; [by apply runs_load_coroutine|].
  rewrite bool_decide_eq_true_2 by done. eapply runs_bind; [by apply runs_update_coroutine|].
  assert (Hh'' : coroutines (put h (set_locals (filter (λ l, l ≠ LocalTask h') (locals co)) co) t) !! h' =
    Some co') by (simpl; by rewrite lookup_insert_ne).
  exact (runs_destroy_coroutine r this h' co' _ Hh'' Hl).
Qed.

(** A new method task that runs to its end at once. *)
Lemma runs_call_method m v need calls r this fuel t :
  is_generator m = false → eager m v need calls → need ≤ fuel → allocated t →
  runs r (call_method (run_body fuel r this) r m) t (next_handle t)
    (advance (Datatypes.S calls) (put (next_handle t) (returned v) t)).
Proof.
  intros Hgen He Hneed Ha. unfold call_method. rewrite Hgen.
  eapply runs_bind; [apply runs_new_coroutine|].
  eapply runs_bind; [|apply runs_ret]. apply runs_on_throw.
  replace (advance (Datatypes.S calls) (put (next_handle t) (returned v) t)) with
    (advance calls (put (next_handle t) (returned v)
      (mkProcessTask _ _ (coroutine_ t) (<[next_handle t := started]> (coroutines t))
         (Pos.succ (next_handle t))))).
  - apply He; [done| |apply lookup_insert_eq]. intros h. simpl.
    destruct (decide (next_handle t = h)) as [<-|]; [lia|].
    rewrite lookup_insert_ne by done. intros Hh%Ha. lia.
  - unfold advance, put, set_coroutines. simpl. by rewrite insert_insert_eq, <- Nat.iter_succ_r.
Qed.

(** The body [body] starts with [co_await m(...)]; given [v], it goes on as [rest]. *)
Definition calls (m : method) (v : value) (body rest : Body) : Prop :=
  ∃ k0, observe body = ITreeDefinition.VisF (Sum.inr1 (Sum.inr1 (CallMethod m))) k0 ∧ ∀ h,
  ∃ k1, observe (k0 h) = ITreeDefinition.VisF (Sum.inr1 (Sum.inr1 (AwaitMethod h))) k1 ∧
  ∃ k2, observe (k1 v) = ITreeDefinition.VisF (Sum.inr1 (Sum.inr1 (DropTask h))) k2 ∧
  observe (k2 tt) = observe rest.

(** Awaiting a method task that does not suspend continues with what it returned,
    and leaves no trace of it. *)
Lemma runs_co_call m v need ncalls body rest r this fuel t h co b t' :
  calls m v body rest →
  is_generator m = false → eager m v need ncalls → need ≤ 2 + fuel → allocated t → owning h co t →
  runs r (run_body fuel r this h rest) (advance (Datatypes.S ncalls) t) b t' →
  runs r (run_body (3 + fuel) r this h body) t b t'.
Proof.
  intros (k0 & Hk0 & Hcalls) Hgen He Hneed Ha [Hh Hlocals] Hrest. set (h' := next_handle t).
  destruct (Hcalls h') as (k1 & Hk1 & k2 & Hk2 & Hk3).
  assert (Hne : h ≠ h') by (assert (h < h')%positive by (apply Ha; by eexists); lia).
  assert (Hne' : h' ≠ h) by congruence.
  assert (Hfresh : coroutines t !! h' = None).
  { apply eq_None_not_Some. intros Hs%Ha. unfold h' in Hs. lia. }
  next_statement Hk0. eapply runs_bind; [by apply runs_on_throw, (runs_call_method m v need ncalls)|].
  fold h'. set (t1 := advance (Datatypes.S ncalls) (put h' (returned v) t)). eapply runs_bind.
  { apply (runs_update_coroutine r t1 h _ co). unfold t1. simpl. by rewrite lookup_insert_ne. }
  set (t2 := put h _ t1).
  assert (Hh' : coroutines t2 !! h' = Some (returned v)).
  { unfold t2, t1. simpl. by rewrite lookup_insert_ne, lookup_insert_eq by done. }
  next_statement Hk1. eapply runs_bind; [by apply runs_load_coroutine|].
  cbn [method_await_ready at_final state returned].
  change (method_await_resume (returned v)) with v.
  next_statement Hk2. eapply runs_bind.
  { eapply runs_drop_task; [done|apply put_lookup|left|done|done]. }
  replace (set_coroutines _ _) with (advance (Datatypes.S ncalls) t);
    [by rewrite (run_body_observe _ _ _ _ _ rest)|].
  unfold advance, set_coroutines. simpl. f_equal. rewrite filter_cons, decide_False by (by intros []).
  rewrite filter_fresh by done. apply map_eq. intros h0. destruct (decide (h0 = h')) as [->|].
  - by rewrite lookup_delete_eq.
  - rewrite lookup_delete_ne by done. destruct (decide (h = h0)) as [<-|].
    + rewrite lookup_insert_eq. by destruct co.
    + by rewrite !lookup_insert_ne.
Qed.

(** ** A process that ends in its first turn *)

(** The coroutine of a process, with what it does next. *)
Definition process_coroutine (s : State) : Coroutine :=
  mkCoroutine _ _ (new_promise_base ProcessPromise) s [].

Definition alone (s : State) (next : Handle) : ProcessTask :=
  mkProcessTask _ _ (Some 1%positive) {[1%positive := process_coroutine s]} next.

Lemma alone_lookup s next : coroutines (alone s next) !! 1%positive = Some (process_coroutine s).
Proof. apply lookup_singleton_eq. Qed.

Lemma alone_put s s' next : put 1%positive (process_coroutine s') (alone s next) = alone s' next.
Proof. unfold put, alone, set_coroutines. simpl. by rewrite insert_singleton_eq. Qed.

Lemma alone_owning s next : owning 1%positive (process_coroutine s) (alone s next).
Proof. split; [apply alone_lookup|]. by intros h ?%elem_of_nil. Qed.

Lemma alone_allocated s next : (1 < next)%positive → allocated (alone s next).
Proof.
  intros Hn h [co Hco]. simpl in Hco. apply lookup_singleton_Some in Hco as [<- _]. done.
Qed.

Lemma alone_advance n s next : advance n (alone s next) = alone s (Nat.iter n Pos.succ next).
Proof. done. Qed.

Lemma runs_process_end r this fuel v next :
  runs r (run_body (Datatypes.S fuel) r this 1%positive (co_return v)) (alone Running next) tt
    (alone AtFinal next).
Proof.
  rewrite run_body_step. unfold run_step, final_suspend. simpl.
  eapply runs_bind; [apply runs_load_base, alone_lookup|]. simpl.
  eapply runs_bind.
  - unfold destroy_locals. eapply runs_bind; [apply runs_load_coroutine, alone_lookup|]. simpl.
    eapply runs_bind; [apply runs_ret|]. apply runs_update_coroutine, alone_lookup.
  - change (set_locals [] (process_coroutine Running)) with (process_coroutine Running).
    rewrite alone_put. rewrite <- (alone_put Running AtFinal next).
    exact (runs_update_coroutine r _ _ (set_state AtFinal) _ (alone_lookup Running next)).
Qed.

Lemma runs_update_alone r f s next :
  f (new_promise_base ProcessPromise) = new_promise_base ProcessPromise →
  runs r (update_base r 1%positive f) (alone s next) tt (alone s next).
Proof.
  intros Hf. rewrite <- (alone_put s s next) at 2.
  replace (process_coroutine s) with
    (set_promise (f (promise (process_coroutine s))) (process_coroutine s)) at 1 by (simpl; by rewrite Hf).
  exact (runs_update_coroutine r _ _ (λ co, set_promise (f (promise co)) co) _ (alone_lookup s next)).
Qed.

(** [ProcessTask::resume] of a new process whose body runs to its end. *)
Lemma runs_ends_at_once r fuel body next next' :
  (∀ this, runs r (run_body fuel r this 1%positive body) (alone Running next) tt (alone AtFinal next')) →
  runs r (ProcessTask_resume fuel r) (alone (Suspended (AtStart body)) next) None
    (mkProcessTask _ _ None ∅ next').
Proof.
  intros Hbody. unfold ProcessTask_resume. apply runs_load_rp. intros rp ->. simpl coroutine_. cbn iota.
  eapply runs_bind; [apply runs_load_base, alone_lookup|].
  eapply runs_bind; [by apply runs_update_alone|].
  eapply runs_bind; [by apply runs_update_alone|]. simpl nextChild. cbn iota.
  eapply runs_bind.
  { apply runs_try_catch. unfold resume_handle, resume_with.
    eapply runs_bind; [apply runs_load_coroutine, alone_lookup|]. simpl state. cbn iota.
    eapply runs_bind; [apply runs_update_coroutine, alone_lookup|].
    change (set_state Running (process_coroutine (Suspended (AtStart body)))) with (process_coroutine Running).
    rewrite alone_put. apply Hbody. }
  eapply runs_bind; [apply runs_load_coroutine, alone_lookup|]. simpl at_final. cbn iota.
  eapply runs_bind; [apply runs_update_task|].
  eapply runs_bind; [by eapply runs_destroy_coroutine; [apply alone_lookup|]|].
  unfold set_coroutines, set_coroutine. simpl. rewrite delete_singleton_eq. apply runs_ret.
Qed.


(** ** Resuming the parent *)

Lemma runs_destroy_locals r this h co t :
  coroutines t !! h = Some co → locals co = [] →
  runs r (destroy_locals r this h) t tt t.
Proof.
  intros Hh Hl. unfold destroy_locals. eapply runs_bind; [by apply runs_load_coroutine|].
  rewrite Hl. eapply runs_bind; [apply runs_ret|].
  replace t with (put h (set_locals [] co) t) at 2; [by apply runs_update_coroutine|].
  replace (set_locals [] co) with co by (destruct co; simpl in *; by subst).
  unfold put, set_coroutines. rewrite insert_id by done. by destruct t.
Qed.

(** The parent, about to go on. *)
Definition woken (pc : Coroutine) : Coroutine :=
  set_state Running (set_promise (set_subCoroutineChild None (promise pc)) pc).

Lemma put_put h co1 co2 t : put h co2 (put h co1 t) = put h co2 t.
Proof. unfold put, set_coroutines. simpl. by rewrite insert_insert_eq. Qed.

Lemma put_put_ne h1 h2 co1 co2 t : h1 ≠ h2 → put h1 co1 (put h2 co2 t) = put h2 co2 (put h1 co1 t).
Proof. intros Hne. unfold put, set_coroutines. simpl. by rewrite insert_insert_ne. Qed.

Lemma runs_update_base_put r t h f co :
  coroutines t !! h = Some co →
  runs r (update_base r h f) t tt (put h (set_promise (f (promise co)) co) t).
Proof. intros Hh. rewrite (put_alter h f co) by done. apply runs_update_base. by eexists. Qed.

Section resuming.
Context (run : Handle → Body → M Ctx unit) (r this : Ptr) (h p : Handle) (pc : Coroutine).
Context (t t' : ProcessTask) (Hne : h ≠ p) (Hp : coroutines t !! p = Some pc).

Lemma runs_resume_at_method co (k : value → Body) :
  coroutines t !! h = Some co → state pc = Suspended (AtMethod h k) →
  runs r (run p (k (method_await_resume co))) (put p (woken pc) t) tt t' →
  runs r (resume_parent run r this h p) t tt t'.
Proof using Hne Hp.
  intros Hh Hs Hrun. unfold resume_parent. eapply runs_bind; [by apply runs_update_base_put|].
  apply runs_on_throw. unfold resume_with.
  eapply runs_bind; [by apply runs_load_coroutine, put_lookup|]. simpl. rewrite Hs.
  eapply runs_bind; [by apply runs_update_coroutine, put_lookup|]. rewrite put_put.
  eapply runs_bind; [|exact Hrun]. apply runs_load_coroutine. simpl. by rewrite lookup_insert_ne.
Qed.

Lemma runs_resume_at_next co (k : bool → Body) :
  coroutines t !! h = Some co → state pc = Suspended (AtNext h k) →
  runs r (run p (k (next_await_resume co))) (put p (woken pc) t) tt t' →
  runs r (resume_parent run r this h p) t tt t'.
Proof using Hne Hp.
  intros Hh Hs Hrun. unfold resume_parent. eapply runs_bind; [by apply runs_update_base_put|].
  apply runs_on_throw. unfold resume_with.
  eapply runs_bind; [by apply runs_load_coroutine, put_lookup|]. simpl. rewrite Hs.
  eapply runs_bind; [by apply runs_update_coroutine, put_lookup|]. rewrite put_put.
  eapply runs_bind; [|exact Hrun]. apply runs_load_coroutine. simpl. by rewrite lookup_insert_ne.
Qed.
End resuming.

Definition finished (v : value) co : Coroutine :=
  set_state AtFinal (set_promise (set_t (Some v) (promise co)) co).

(** C10: a method task that ends hands what it returns to the coroutine that awaits
    it, which goes on at once, no longer registered as having a child. *)
Theorem finished_method_resumes_parent run r this h p co pc (k : value → Body) v t t' :
  h ≠ p → coroutines t !! h = Some co → kind (promise co) = MethodTaskPromise →
  parent (promise co) = Some p → locals co = [] →
  coroutines t !! p = Some pc → state pc = Suspended (AtMethod h k) →
  runs r (run p (k v)) (put p (woken pc) (put h (finished v co) t)) tt t' →
  runs r (final_suspend run r this h v) t tt t'.
Proof.
  intros Hne Hh Hkind Hparent Hl Hp Hs Hrun. unfold final_suspend.
  eapply runs_bind; [by apply runs_load_base|]. rewrite Hkind, Hparent.
  eapply runs_bind; [by apply runs_update_base_put|].
  eapply runs_bind; [by eapply runs_destroy_locals; [apply put_lookup|]|].
  eapply runs_bind; [apply runs_update_coroutine, put_lookup|]. rewrite put_put.
  eapply (runs_resume_at_method _ _ _ _ _ pc _ _ Hne);
    [simpl; by rewrite lookup_insert_ne|apply put_lookup|exact Hs|]. exact Hrun.
Qed.

Definition yielded (v : value) (k : unit → Body) co : Coroutine :=
  set_state (Suspended (AtYield k))
    (set_promise (set_parent None (set_waiting None (set_t (Some v) (promise co)))) co).

(** A generator that yields to a coroutine waiting for its next value leaves
    that value in its promise, waits for nothing and has no parent any more; the
    coroutine is told that there is a value, and goes on at once. *)
Theorem yield_resumes_parent run r this h p co pc (k : bool → Body) v k' t t' :
  h ≠ p → coroutines t !! h = Some co → parent (promise co) = Some p →
  coroutines t !! p = Some pc → state pc = Suspended (AtNext h k) →
  runs r (run p (k true)) (put p (woken pc) (put h (yielded v k' co) t)) tt t' →
  runs r (yield_suspend run r this h v k') t tt t'.
Proof.
  intros Hne Hh Hparent Hp Hs Hrun. unfold yield_suspend.
  eapply runs_bind; [by apply runs_update_base_put|].
  eapply runs_bind; [apply runs_update_coroutine, put_lookup|]. rewrite put_put.
  eapply runs_bind; [apply runs_update_base_put, put_lookup|]. rewrite put_put.
  eapply runs_bind; [apply runs_load_base, put_lookup|]. simpl. rewrite Hparent.
  eapply runs_bind; [apply runs_update_base_put, put_lookup|]. rewrite put_put.
  eapply (runs_resume_at_next _ _ _ _ _ pc _ _ Hne);
    [simpl; by rewrite lookup_insert_ne|apply put_lookup|exact Hs|]. exact Hrun.
Qed.

(** A generator that ends resumes nobody: even with a parent that waits for its
    next value, only the generator changes. *)
Theorem generator_end_resumes_nobody run r this h co v t :
  coroutines t !! h = Some co → kind (promise co) = GenPromise → locals co = [] →
  runs r (final_suspend run r this h v) t tt (put h (set_state AtFinal co) t).
Proof.
  intros Hh Hkind Hl. unfold final_suspend. eapply runs_bind; [by apply runs_load_base|].
  rewrite Hkind. eapply runs_bind; [by eapply runs_destroy_locals|].
  by apply runs_update_coroutine.
Qed.
End task_runs.

(** Go on with the first statement of the body of the goal. *)
Ltac run_statement H := etrans; [eapply run_op; [cbn; reflexivity|exact H|done]|].
