(* ===== verification/Backpressure.v ===== *)
(** * Backpressure

    What [Process::sendThrottled] does at a slot that is full, and at one with room:
    the coroutine that runs it, from its call to its suspension, and from one
    resumption to the next. *)

From ITree Require Core.ITreeDefinition Indexed.Sum.
From S2P Require Import Prelude.
From S2P Require Import BaseTypes.
From S2P Require Import Future.
From S2P Require Import Slot.
From S2P Require Import Waiting.
From S2P Require Import IoService.
From S2P Require Import Process.
From S2P Require Import Context.
From S2P Require Import Lifecycle.
From S2P Require Import ContextFacts.
From S2P Require Import LifecycleFacts.
From S2P Require Import Destruction.
From S2P Require Import Scheduler.
From S2P Require Import Coroutine.
From S2P Require Import CoroutineFacts.

Section backpressure.
Context `{PB : ProcessBodies} `{IO : IoService Handler}.
Local Abbreviation Ctx := (Context ProcessTask).
Implicit Types (c : Ctx) (t : ProcessTask) (co : Coroutine) (p : SendAddress).

(** ** The slot it sends to *)

Lemma findProc_live c (p : Pid) r rp :
  processes_ c !! N.to_nat (idx_ p) = Some (Some r) → rps c !! r = Some rp →
  version_ (pid rp) = version_ p →
  findProc p c = Ok (Some r) c ∧ findProc_const p c = Ok (Some r) c.
Proof.
  intros Hp Hr Hv. pose proof (lookup_lt_Some _ _ _ Hp) as Hlt.
  unfold findProc, findProc_const, bind, gets. rewrite Hp, bool_decide_eq_false_2 by lia.
  unfold load_rp, deref. rewrite Hr. by rewrite Hv, bool_decide_eq_true_2.
Qed.

(** [p] is the address of slot [sl] of a live process. *)
Definition addressed c p (sl : Slot unit Function payload) : Prop := ∃ r rp,
  processes_ c !! N.to_nat (idx_ (sa_pid p)) = Some (Some r) ∧ rps c !! r = Some rp ∧
  version_ (pid rp) = version_ (sa_pid p) ∧ slots c !! sa_slot p = Some sl.

Lemma canQueue_addressed c p sl :
  addressed c p sl →
  canQueue p c = Ok (if shouldThrottle (messages_ sl) then Some (ThrottleOf (sa_slot p)) else None) c.
Proof.
  intros (r & rp & Hp & Hr & Hv & Hs). unfold canQueue.
  rewrite (bind_run _ _ _ _ _ (proj2 (findProc_live _ _ _ _ Hp Hr Hv))).
  unfold load_slot, deref, bind. by rewrite Hs.
Qed.

Lemma addressed_with_task c p sl r t : addressed c p sl → addressed (with_task r t c) p sl.
Proof.
  intros (r' & rp & Hp & Hr & Hv & Hs). unfold addressed, with_task. simpl.
  destruct (decide (r = r')) as [<-|].
  - eexists r, _. by rewrite lookup_alter_eq, Hr.
  - exists r', rp. by rewrite lookup_alter_ne.
Qed.

(** ** The body *)

(** [sendThrottled] from the test of its loop on, and what follows it. *)
Definition sending_loop p (m : payload) (rest : Body) (promise : option PromiseRef) : Body :=
  (ITreeDefinition.ITree.iter
     (λ promise : option PromiseRef,
       match promise with
       | Some pr =>
           co_await (WaitingFuture pr) ;;!
           do! promise' := call (OpCanQueue p) in
           co_return (inl promise')
       | None => co_return (inr tt)
       end) promise ;;!
   call (OpQueueSend p m)) ;;!
  rest.

(** What it does when resumed: ask for room, and go to the test of the loop. *)
Definition asks p m rest (b : Body) : Prop := ∃ k,
  observe b = ITreeDefinition.VisF (Sum.inl1 (OpCanQueue p)) k ∧
  ∀ o, observe (k o) = observe (sending_loop p m rest o) ∨
    ∃ b', observe (k o) = ITreeDefinition.TauF b' ∧ observe b' = observe (sending_loop p m rest o).

Lemma sending_loop_full p m rest pr : ∃ k,
  observe (sending_loop p m rest (Some pr)) =
    ITreeDefinition.VisF (Sum.inr1 (Sum.inl1 (CoAwait (WaitingFuture pr)))) k ∧
  ∀ v, asks p m rest (k v).
Proof.
  eexists. split; [cbn; reflexivity|]. intros v. eexists. split; [cbn; reflexivity|].
  intros o. right. eexists. split; cbn; reflexivity.
Qed.

Lemma sending_loop_room p m rest : ∃ k,
  observe (sending_loop p m rest None) = ITreeDefinition.VisF (Sum.inl1 (OpQueueSend p m)) k ∧
  observe (k tt) = observe rest.
Proof. eexists. split; cbn; reflexivity. Qed.

Lemma sendThrottled_starts p m rest : ∃ k,
  observe (sendThrottled p m ;;! rest) = ITreeDefinition.VisF (Sum.inl1 OpWaitOnQueue) k ∧
  asks p m rest (k false) ∧
  ∃ k', observe (k true) = ITreeDefinition.VisF (Sum.inr1 (Sum.inl1 (CoAwait WaitingYield))) k' ∧
    ∀ v, asks p m rest (k' v).
Proof.
  eexists. split; [cbn; reflexivity|]. split.
  - eexists. split; [cbn; reflexivity|]. intros o. left. reflexivity.
  - eexists. split; [cbn; reflexivity|]. intros v. eexists. split; [cbn; reflexivity|].
    intros o. left. reflexivity.
Qed.
(** ** Suspending *)

(** The process of [h] resumes [h] next. *)
Definition next_to_run t (h : Handle) : Prop := ∀ co q,
  coroutines t !! h = Some co → processPromise (promise co) = Some q →
  ∃ qc, coroutines t !! q = Some qc ∧ nextChild (promise qc) = Some h.

(** The coroutine whose process learns that [h] suspended exists. *)
Definition process_known t (h : Handle) : Prop := ∀ co q,
  coroutines t !! h = Some co → processPromise (promise co) = Some q → is_Some (coroutines t !! q).

Lemma process_known_put t h co co' :
  coroutines t !! h = Some co → processPromise (promise co') = processPromise (promise co) →
  process_known t h → process_known (put h co' t) h.
Proof.
  intros Hh Heq Hknown co2 q. rewrite put_lookup. intros [= <-] Hq. rewrite Heq in Hq.
  destruct (Hknown co q Hh Hq) as [qc Hqc]. simpl. destruct (decide (q = h)) as [->|].
  - rewrite lookup_insert_eq. by eexists.
  - rewrite lookup_insert_ne by done. by eexists.
Qed.

Lemma runs_await_suspend r h w t co :
  coroutines t !! h = Some co → process_known t h →
  ∃ t' co', runs r (await_suspend r h w) t tt t' ∧ coroutines t' !! h = Some co' ∧
    state co' = state co ∧ waiting (promise co') = Some w ∧ next_to_run t' h.
Proof.
  intros Hh Hknown. set (co1 := set_promise (set_waiting (Some w) (promise co)) co).
  set (t1 := put h co1 t).
  assert (Hh1 : coroutines t1 !! h = Some co1) by apply put_lookup.
  assert (Hstart : ∀ t' b, runs r (match processPromise (promise co) with
      | Some q => update_base r q (set_nextChild (Some h)) | None => ret tt end) t1 b t' →
      runs r (await_suspend r h w) t b t').
  { intros t' b Hrest. unfold await_suspend. eapply runs_bind; [by apply runs_update_base_put|].
    eapply runs_bind; [by apply runs_load_base|]. exact Hrest. }
  destruct (processPromise (promise co)) as [q|] eqn:Hq.
  - destruct (Hknown co q Hh Hq) as [qc Hqc].
    assert (Hq1 : is_Some (coroutines t1 !! q)) by by eapply (process_known_put t h co co1).
    exists (alter_base q (set_nextChild (Some h)) t1).
    eexists. split; [apply Hstart, runs_update_base, Hq1|].
    rewrite alter_base_lookup, Hh1. split; [done|]. split_and!; [by case_decide..|].
    intros co2 q2. rewrite alter_base_lookup, Hh1. intros [= <-] Hq2.
    destruct Hq1 as [qc1 Hqc1]. exists (set_promise (set_nextChild (Some h) (promise qc1)) qc1).
    assert (q2 = q) as -> by (case_decide; simpl in Hq2; congruence).
    split; [by apply alter_base_lookup_eq|done].
  - exists t1, co1. split_and!; [apply Hstart, runs_ret|done..|].
    intros co2 q2. rewrite Hh1. intros [= <-] Hq2. simpl in Hq2. congruence.
Qed.

(** The coroutine [h] is in a [sendThrottled] of [m] to [p], suspended on [w]. *)
Definition waits_to_send t (h : Handle) (w : IWaiting) p m rest : Prop := ∃ co k,
  coroutines t !! h = Some co ∧ state co = Suspended (AtAwait w k) ∧
  waiting (promise co) = Some w ∧ ∀ v, asks p m rest (k v).

(** What awaits nothing that is ready and resumes with no value. *)
Definition never_ready (w : IWaiting) : Prop :=
  w = WaitingYield ∨ ∃ pr, w = WaitingFuture pr.

Lemma never_ready_awaits this w c :
  never_ready w →
  exec_op this (OpAwaitReady w) c = Ok false c ∧ exec_op this (OpAwaitResume w) c = Ok [] c.
Proof. by intros [->|[pr ->]]. Qed.

Lemma run_parks fuel r this h (body : Body) w k c t co p m rest :
  observe body = ITreeDefinition.VisF (Sum.inr1 (Sum.inl1 (CoAwait w))) k → never_ready w →
  (∀ v, asks p m rest (k v)) →
  task_at r c = Some t → coroutines t !! h = Some co → process_known t h →
  ∃ t', run_body (Datatypes.S fuel) r this h body c = Ok tt (with_task r t' c) ∧
    waits_to_send t' h w p m rest ∧ next_to_run t' h.
Proof.
  intros Hbody Hw Hk Ht Hh Hknown. set (co1 := set_state (Suspended (AtAwait w k)) co).
  set (t1 := put h co1 t).
  assert (Hh1 : coroutines t1 !! h = Some co1) by apply put_lookup.
  destruct (runs_await_suspend r h w t1 co1) as (t' & co' & Hrun & Hh' & Hs & Hwait & Hnext); [done| |].
  { by eapply process_known_put. }
  exists t'. split; [|by split; [exists co', k|]].
  rewrite run_body_step. unfold run_step at 1. rewrite Hbody. cbn beta iota. unfold await.
  rewrite (bind_run _ _ _ _ _ (proj1 (never_ready_awaits this w c Hw))). cbn iota.
  etrans; [exact (bind_runs _ _ _ _ _ _ _ (runs_update_coroutine r t h _ co Hh) Ht)|].
  etrans; [apply Hrun; by eapply task_at_with_task|]. by rewrite with_task_twice.
Qed.

(** ** What an attempt to send does *)

Definition message_item p (m : payload) : ToProcessItem payload :=
  mkItem (sa_pid p) None (Some (p, mkMessage m)).

(** The outcome of a coroutine [h] that asks for room in slot [sl] at [p], with [co] as
    its frame: at a full slot it only suspends, on the throttle promise of that slot and
    to ask again; at one with room it queues the message, once, and goes on. *)
Definition asked fuel r this h p m rest (sl : Slot unit Function payload) t co c
    (o : outcome Ctx unit) : Prop :=
  if shouldThrottle (messages_ sl) then
    ∃ t', o = Ok tt (with_task r t' c) ∧
      waits_to_send t' h (WaitingFuture (ThrottleOf (sa_slot p))) p m rest ∧ next_to_run t' h
  else
    ∃ fuel', fuel ≤ 3 + fuel' ∧
      o = run_body fuel' r this h rest
            (with_task r (put h co t) (set_queue (queue_ c ++ [message_item p m]) c)).

Lemma run_loop_asked fuel r this h (body : Body) p m rest sl t co c :
  observe body = observe (sending_loop p m rest
    (if shouldThrottle (messages_ sl) then Some (ThrottleOf (sa_slot p)) else None)) →
  task_at r c = Some t → coroutines t !! h = Some co → process_known t h →
  asked (3 + fuel) r this h p m rest sl t co c (run_body (Datatypes.S fuel) r this h body c).
Proof.
  intros Hbody Ht Hh Hknown. unfold asked. destruct (shouldThrottle (messages_ sl)).
  - destruct (sending_loop_full p m rest (ThrottleOf (sa_slot p))) as (k & Hk & Hasks).
    eapply run_parks; [by rewrite Hbody|by right; eexists|done..].
  - destruct (sending_loop_room p m rest) as (k & Hk & Hrest). exists fuel. split; [lia|].
    etrans; [eapply run_op; [by rewrite Hbody|done|done]|].
    rewrite (run_body_observe _ _ _ _ _ _ Hrest).
    assert (Hput : put h co t = t) by (unfold put, set_coroutines; rewrite insert_id by done; by destruct t).
    rewrite Hput, with_task_same; [done|exact Ht].
Qed.

Lemma asked_fuel fuel fuel' r (this : Ptr) h p m rest sl t co c o :
  fuel ≤ fuel' → asked fuel' r this h p m rest sl t co c o → asked fuel r this h p m rest sl t co c o.
Proof.
  unfold asked. intros Hle. destruct (shouldThrottle _); [done|].
  intros (f & Hf & Heq). exists f. split; [lia|done].
Qed.

Lemma run_asks fuel r (this : Ptr) h (body : Body) p m rest sl t co c :
  asks p m rest body → addressed c p sl →
  task_at r c = Some t → coroutines t !! h = Some co → process_known t h → 3 ≤ fuel →
  asked fuel r this h p m rest sl t co c (run_body fuel r this h body c).
Proof.
  intros (k & Hk & Hloop) Haddr Ht Hh Hknown Hfuel.
  destruct fuel as [|[|[|fuel]]]; [lia..|].
  pose proof (canQueue_addressed _ _ _ Haddr) as Hcan.
  set (b := if shouldThrottle (messages_ sl) then Some (ThrottleOf (sa_slot p)) else None) in Hcan.
  rewrite (run_op _ _ this _ _ _ _ _ _ _ Hk Hcan eq_refl). destruct (Hloop b) as [Heq|(b' & Htau & Heq)].
  - apply (asked_fuel _ (3 + Datatypes.S fuel)); [lia|]. by apply run_loop_asked.
  - rewrite run_body_step. unfold run_step at 1. rewrite Htau. cbn iota.
    apply (asked_fuel _ (3 + fuel)); [lia|]. by apply run_loop_asked.
Qed.
(** ** Properties *)

(** C15: [sendThrottled], called by a coroutine with a frame, waits for the context and for
    the slot: when more than ten items are queued in the context it yields first, having
    queued nothing; otherwise it asks for room, and at a full slot suspends on the
    throttle promise of that slot with nothing queued, at one with room queues the
    message and goes on at once. *)
Theorem throttled_send_starts fuel r (this : Ptr) h p m rest sl t co c
    (Ht : task_at r c = Some t) (Hh : coroutines t !! h = Some co) (Hknown : process_known t h)
    (Haddr : addressed c p sl) (Hfuel : 4 ≤ fuel) :
  let o := run_body fuel r this h (sendThrottled p m ;;! rest) c in
  if bool_decide (10 < length (queue_ c)) then
    ∃ t', o = Ok tt (with_task r t' c) ∧
      waits_to_send t' h WaitingYield p m rest ∧ next_to_run t' h
  else asked (fuel - 1) r this h p m rest sl t co c o.
Proof.
  destruct (sendThrottled_starts p m rest) as (k & Hk & Hshort & k' & Hk' & Hlong).
  destruct fuel as [|[|fuel]]; [lia..|]. cbv zeta. simpl Nat.sub.
  assert (Hw : exec_op this OpWaitOnQueue c = Ok (bool_decide (10 < length (queue_ c))) c) by done.
  rewrite (run_op _ _ this _ _ _ _ _ _ _ Hk Hw eq_refl). case_bool_decide.
  - eapply run_parks; [done|by left|done..].
  - apply run_asks; [done..|lia].
Qed.

(** C16: a coroutine suspended in a [sendThrottled], when it is resumed, asks again: at a
    slot that is full it suspends again on the throttle promise of the slot, queues
    nothing and is what its process resumes next; at one with room it queues the message,
    once, and goes on with what follows. So a message is only ever queued for a slot
    seen with room, and none is given up. *)
Theorem throttled_send_resumes fuel r (this : Ptr) h w p m rest sl t c
    (Ht : task_at r c = Some t) (Hwaits : waits_to_send t h w p m rest) (Hw : never_ready w)
    (Hknown : process_known t h) (Haddr : addressed c p sl) (Hfuel : 3 ≤ fuel) :
  ∃ co, coroutines t !! h = Some co ∧
    asked fuel r this h p m rest sl t (set_state Running co) c (resume_handle fuel r this h c).
Proof.
  destruct Hwaits as (co & k & Hh & Hs & _ & Hk). exists co. split; [done|].
  set (co1 := set_state Running co). set (t1 := put h co1 t). set (c1 := with_task r t1 c).
  assert (Ht1 : task_at r c1 = Some t1) by by eapply task_at_with_task.
  assert (Hrun : resume_handle fuel r this h c = run_body fuel r this h (k []) c1).
  { unfold resume_handle, resume_with.
    etrans; [exact (bind_runs _ _ _ _ _ _ _ (runs_load_coroutine r _ _ _ Hh) Ht)|].
    rewrite (with_task_same _ _ _ Ht), Hs.
    etrans; [exact (bind_runs _ _ _ _ _ _ _ (runs_update_coroutine r t h (set_state Running) co Hh) Ht)|].
    by rewrite (bind_run _ _ _ _ _ (guarded_ok _ _ _ _ _ _ _ (proj2 (never_ready_awaits this w c1 Hw)))). }
  assert (Hasked : asked fuel r this h p m rest sl t1 co1 c1 (run_body fuel r this h (k []) c1)).
  { apply run_asks; [apply Hk|by apply addressed_with_task|done|apply put_lookup| |done].
    by eapply process_known_put. }
  rewrite Hrun. revert Hasked. unfold asked. destruct (shouldThrottle _).
  - intros (t' & -> & Hwaits & Hnext). exists t'. split; [|done]. unfold c1. by rewrite with_task_twice.
  - intros (fuel' & Hle & ->). exists fuel'. split; [done|]. unfold t1 at 1. rewrite put_put. fold t1.
    f_equal. unfold c1.
    change (set_queue ?q (with_task r t1 c)) with (with_task r t1 (set_queue q c)).
    by rewrite with_task_twice.
Qed.
End backpressure.
