(* ===== verification/Programs.v ===== *)
(** * Programs of the repository, run on the model

    Processes of [examples/count.cpp], [examples/send_back_pressure.cpp] and
    the tests as bodies, with a scheduler of coroutines and the simulated
    io_service: the instances every concrete run below uses. *)

From ITree Require Core.ITreeDefinition Indexed.Sum.
From S2P Require Import Prelude.
From S2P Require Import BaseTypes.
From S2P Require Import Future.
From S2P Require Import Slot.
From S2P Require Import Waiting.
From S2P Require Import IoService.
From S2P Require Import Process.
From S2P Require Import Context.
From S2P Require Import Lifecycle.
From S2P Require Import ContextFacts.
From S2P Require Import LifecycleFacts.
From S2P Require Import Destruction.
From S2P Require Import Scheduler.
From S2P Require Import Coroutine.

#[export] Existing Instances Sim.sim_io Sim.sim_io_laws.

(** ** The application *)

Inductive message :=
  | PInt (z : Z)
  | PString (s : string)
  | PPid (p : Pid).

#[export] Instance message_eq_dec : EqDecision message.
Proof. solve_decision. Defined.

Inductive classes :=
  | Counter            (** count.cpp *)
  | Sleeper            (** count.cpp, nested in [SleepProfiler] *)
  | SleepProfiler
  | Listener           (** send_back_pressure.cpp *)
  | Sender
  | SenderApp          (** basic.cpp *)
  | SleepingApp
  | SpawnedApp
  | BlockForEver
  | NotifyApp
  | ThrowingApp
  | EchoApp
  | MethodExample
  (* not in the repository: small processes for single behaviours *)
  | Unlucky            (** a constructor that links to a dead process *)
  | MethodCounter      (** count.cpp *)
  | MethodBasic        (** methodTask.cpp *)
  | MethodThrows
  | MethodStackInversion
  | GenBasic           (** genTask.cpp *)
  | GenMultiTypes
  | GenMultiTask
  | GenRecursive
  | GenThrows
  | ProcToDestroy
  | GenDestroy
  | ForEach
  | GenStackInversion
  | Thrower            (** a body that throws at once *)
  | Napper             (** sleeps, yields, sleeps *)
  | Producer           (** fills the slot of a process it is not linked to *)
  | Consumer           (** that process: receives one message, late *)
  | Killer             (** kills another process after a while *)
  | LateThrower        (** awaits a method that sleeps, then throws *)
  | LateReader.        (** exhausts a generator that sleeps before it ends *)

#[export] Instance classes_eq_dec : EqDecision classes.
Proof. solve_decision. Defined.

(** Constructor arguments; each class uses those its constructor has. *)
Record arguments := mkArgs {
  kMax : Z;
  target : option Pid;
  to_send : option SendAddress;
}.

Definition no_args : arguments := mkArgs 0 None None.

Definition constructor (c : classes) (a : arguments) : list CtorOp :=
  match c with
  | Counter => [CtorSlot; CtorSlot]
  | Listener | Consumer | ThrowingApp | EchoApp => [CtorSlot]
  | Unlucky => match target a with Some b => [CtorLink b] | None => [] end
  | _ => []
  end.

#[export] Instance application : Program := {|
  payload := message;
  of_pid := PPid;
  cls := classes;
  is_a c d := bool_decide (c = d);
  arg := arguments;
  ctor := constructor;
|}.

(** What coroutines return and yield, and the coroutines that are not [run]. *)
Inductive values := VVoid | VInt (n : Z) | VString (s : string).

Inductive coroutine_methods :=
  | SendThrottled (p : SendAddress) (m : message)   (** [Process::sendThrottled] *)
  | SubRun (n : nat) (out : Z)                      (** [MethodCounter] of count.cpp *)
  | RetIntCoro (i : Z)
  | DoNothingCoro
  | ThrowCoro (i : Z)                               (** methodTask.cpp *)
  | InversionC (should_sleep : bool) (finished : Z)
  | InversionB (should_sleep : bool) (finished : Z)
  | InversionA (finished : Z)
  | YieldInts                                       (** genTask.cpp, [GenBasic] *)
  | YieldNoInts
  | GetString                                       (** [GenMultiTypes] *)
  | YieldStrings
  | YieldSizes
  | YieldRecursive (n : nat)                        (** [GenRecursive] *)
  | YieldThrows                                     (** [GenThrows] *)
  | YieldReceives                                   (** [ProcToDestroy] *)
  | GetHi                                           (** [GenMultiTask] *)
  | YieldDone
  | GenInts (n : nat)                               (** [ForEach] *)
  | GenC (should_sleep : bool)                      (** [GenStackInversion] *)
  | GenB (should_sleep : bool)
  | GenA
  | Subfn (i : Z)                                   (** basic.cpp, [MethodExample] *)
  | Fn (to : SendAddress) (i : Z)
  (* not in the repository: single behaviours *)
  | SleepyMethod                                    (** sleeps and returns *)
  | YieldThenSleep.                                 (** yields, sleeps and ends *)

#[export] Instance values_eq_dec : EqDecision values.
Proof. solve_decision. Defined.

#[export] Instance coroutines_ : Methods := {|
  value := values;
  void := VVoid;
  method := coroutine_methods;
  is_generator m :=
    match m with
    | YieldInts | YieldNoInts | YieldStrings | YieldSizes | YieldRecursive _ | YieldThrows
    | YieldReceives | GenInts _ | GenC _ | GenB _ | GenA | YieldDone | YieldThenSleep => true
    | _ => false
    end;
|}.

Definition int_of (v : values) : Z := match v with VInt n => n | _ => 0 end.

Definition as_int (m : message) : Z := match m with PInt z => z | _ => 0 end.
Definition as_string (m : message) : string := match m with PString s => s | _ => "" end.

(** ** Bodies *)

Fixpoint repeat_ (n : nat) (t : nat → itree ProcessE unit) : itree ProcessE unit :=
  match n with
  | 0 => co_return tt
  | S n' => t n' ;;! repeat_ n' t
  end.

(** [Counter::run]; member 0 is [from_parent_process], member 1
    [from_sub_process]. *)
Definition Counter_run (a : arguments) : itree ProcessE unit :=
  do! our_value :=
    match target a with
    | Some _ =>
        do! from_parent_process := call (OpSlotAddress 0) in
        do! m := co_recv from_parent_process in
        co_return (as_int m + 1)%Z
    | None => co_return 0%Z
    end in
  (if bool_decide (our_value < kMax a)%Z then
     do! self := call OpPid in
     do! pid := call (OpSpawn Counter (mkArgs (kMax a) (Some self) None)) in
     do! to := call (OpMakeSendAddress pid Counter 0) in
     call (OpSend to (PInt our_value)) ;;!
     do! from_sub_process := call (OpSlotAddress 1) in
     do! subprocess_result := co_recv from_sub_process in
     if bool_decide (our_value + 1 = as_int subprocess_result)%Z then co_return tt
     else call (OpThrow (std_exception "unexpected"))
   else co_return tt) ;;!
  match target a with
  | Some t =>
      do! to := call (OpMakeSendAddress t Counter 1) in
      call (OpSend to (PInt our_value)) ;;!
      co_return tt
  | None => co_return tt
  end.

(** [Sleeper::run] and [SleepProfiler::run]. *)
Definition Sleeper_run (a : arguments) : itree ProcessE unit :=
  co_await (sleep 1000%Z) ;;!
  match to_send a with
  | Some to => co_send to (PInt 1)
  | None => co_return tt
  end.

Definition SleepProfiler_run (a : arguments) : itree ProcessE unit :=
  do! s := call OpCreateSlot in
  repeat_ (Z.to_nat (kMax a)) (λ _,
    call (OpSpawn Sleeper (mkArgs 0 None (Some s))) ;;! co_return tt) ;;!
  repeat_ (Z.to_nat (kMax a)) (λ _, co_recv s ;;! co_return tt).

(** [Listener::run] and [Sender::run], with the number of messages as an argument. *)
Definition Listener_run : itree ProcessE unit :=
  ITreeDefinition.ITree.iter
    (λ _ : unit,
      do! r := call (OpSlotAddress 0) in
      co_recv r ;;!
      co_return (inl tt)) tt.

Definition Sender_run (a : arguments) : itree ProcessE unit :=
  do! l := call (OpSpawnLink Listener no_args) in
  repeat_ (Z.to_nat (kMax a)) (λ _,
    do! r := call (OpMakeSendAddress l Listener 0) in
    co_send r (PString "?")) ;;!
  repeat_ (Z.to_nat (kMax a)) (λ _,
    do! r := call (OpMakeSendAddress l Listener 0) in
    co_call (SendThrottled r (PString "?")) ;;!
    co_return tt).

(** [SenderApp::run], [SleepingApp::run], [SpawnedApp::run], [BlockForEver::run]. *)
Definition SenderApp_run (a : arguments) : itree ProcessE unit :=
  match to_send a with Some s_ => co_send s_ (PInt 99) | None => co_return tt end.

Definition SleepingApp_run (a : arguments) : itree ProcessE unit :=
  co_await (sleep (kMax a)) ;;! co_return tt.

Definition SpawnedApp_run : itree ProcessE unit := co_return tt.

Definition BlockForEver_run : itree ProcessE unit :=
  do! s := call OpCreateSlot in
  co_return tt.

(** [NotifyApp::run]: an assertion that fails returns. *)
Definition NotifyApp_run : itree ProcessE unit :=
  do! ok := ITreeDefinition.ITree.iter
    (λ i : nat,
      match i with
      | 0 => co_return (inr true)
      | S i' =>
          do! s := call OpCreateSlot in
          do! pid := call (OpSpawnLinkNotify s SpawnedApp no_args) in
          do! w := co_recv s in
          call (OpDestroySlot (sa_slot s)) ;;!
          co_return (if bool_decide (w = PPid pid) then inl i' else inr false)
      end) 5 in
  if ok then
    do! s := call OpCreateSlot in
    call (OpSpawnLinkNotify s BlockForEver no_args) ;;!
    co_return tt
  else co_return tt.

(** A failed check of a test stops the run. *)
Definition EXPECT (b : bool) : itree ProcessE unit :=
  if b then co_return tt else call (OpSlotAddress 1000) ;;! co_return tt.

(** [ThrowingApp::run]; member 0 is [message]. *)
Definition ThrowingApp_run : itree ProcessE unit :=
  do! message := call (OpSlotAddress 0) in
  do! m := co_recv message in
  call (OpThrow (std_exception (concatString ["Throw "; as_string m]))).

(** [EchoApp::run]; member 0 is [echo]. *)
Definition EchoApp_run : itree ProcessE unit :=
  do! echo := call (OpSlotAddress 0) in
  co_send echo (PInt 5) ;;!
  do! res := co_recv echo in
  if negb (bool_decide (5 = as_int res)%Z) then co_return tt else
  do! res := co_recv echo in
  if negb (bool_decide (99 = as_int res)%Z) then co_return tt else
  do! pid := call (OpSpawn ThrowingApp no_args) in
  do! to := call (OpMakeSendAddress pid ThrowingApp 0) in
  co_send to (PString "hello there") ;;!
  do! pid := call (OpSpawnLink ThrowingApp no_args) in
  do! to := call (OpMakeSendAddress pid ThrowingApp 0) in
  co_send to (PString "hello there LINKED!") ;;!
  co_recv echo ;;!
  EXPECT false.

(** [MethodExample]: [subfn], [fn] and [run]. *)
Definition subfn_body (i : Z) : itree ProcessE unit :=
  co_await (sleep (100 + i * 100)%Z) ;;! co_return tt.

Fixpoint each_task (l : list Handle) (t : Handle → itree ProcessE unit) : itree ProcessE unit :=
  match l with
  | [] => co_return tt
  | s :: l' => t s ;;! each_task l' t
  end.

Definition fn_body (to_send : SendAddress) (i : Z) : itree ProcessE unit :=
  do! s3 := task_op (CallMethod (Subfn 3)) in
  do! s2 := task_op (CallMethod (Subfn 2)) in
  do! s1 := task_op (CallMethod (Subfn 1)) in
  do! s0 := task_op (CallMethod (Subfn 0)) in
  each_task [s3; s2; s1; s0] (λ s, task_op (AwaitMethod s) ;;! co_return tt) ;;!
  call (OpSend to_send (PInt i)) ;;!
  each_task [s3; s2; s1; s0] (λ s, task_op (DropTask s)).

Definition MethodExample_run : itree ProcessE unit :=
  do! s := call OpCreateSlot in
  co_call (Fn s 7) ;;!
  co_recv s ;;!
  co_return tt.

Definition Napper_run : itree ProcessE unit :=
  co_await (sleep 10%Z) ;;!
  co_await WaitingYield ;;!
  co_await (sleep 10%Z) ;;!
  co_return tt.

(** Its consumer, a [Consumer] below, naps before it starts to receive. *)
Definition Producer_run : itree ProcessE unit :=
  do! l := call (OpSpawn Consumer no_args) in
  do! r := call (OpMakeSendAddress l Consumer 0) in
  repeat_ 10 (λ _, call (OpQueueSend r (PString "?"))) ;;!
  co_await (sleep 10%Z) ;;!
  co_call (SendThrottled r (PString "?")) ;;!
  co_return tt.

Definition Consumer_run : itree ProcessE unit :=
  do! r := call (OpSlotAddress 0) in
  co_await (sleep 100%Z) ;;!
  co_recv r ;;!
  co_await (sleep 100%Z) ;;!
  co_return tt.

Definition Killer_run (a : arguments) : itree ProcessE unit :=
  co_await (sleep (kMax a)) ;;!
  match target a with
  | Some p => call (OpQueueKill p)
  | None => co_return tt
  end.

(** *** Method tasks *)

(** [MethodCounter] of count.cpp; the [int&] parameter is passed and returned. *)
Definition subRun (n : nat) (out : Z) : itree ProcessE values :=
  match n with
  | 0 => co_return (VInt out)
  | S n' =>
      do! v := co_call (SubRun n' out) in
      co_return (VInt (int_of v + 1))
  end.

Definition MethodCounter_run (a : arguments) : itree ProcessE unit :=
  co_call DoNothingCoro ;;!
  do! five := co_call (RetIntCoro 5) in
  EXPECT (bool_decide (int_of five = 5%Z)) ;;!
  do! our_value := co_call (SubRun (Z.to_nat (kMax a)) 0) in
  EXPECT (bool_decide (int_of our_value = kMax a)).

(** methodTask.cpp; the futures [a] and [c] outlive the call in between. *)
Definition MethodBasic_run : itree ProcessE unit :=
  do! c := task_op (CallMethod DoNothingCoro) in
  do! five := co_call (RetIntCoro 5) in
  EXPECT (bool_decide (int_of five = 5%Z)) ;;!
  co_await WaitingYield ;;!
  task_op (AwaitMethod c) ;;!
  task_op (DropTask c).

Definition ThrowCoro_body (i : Z) : itree ProcessE values :=
  co_await WaitingYield ;;!
  call (OpThrow (std_exception "")) ;;!
  co_return (VInt i).

Definition MethodThrows_run : itree ProcessE unit :=
  co_call (ThrowCoro 5) ;;!
  EXPECT false.

Definition nap_if (b : bool) : itree ProcessE unit :=
  if b then co_await (sleep 1%Z) ;;! co_return tt else co_return tt.

Definition InversionC_body (should_sleep : bool) (finished : Z) : itree ProcessE values :=
  nap_if should_sleep ;;!
  co_return (VInt (finished + 1)).

Definition InversionB_body (should_sleep : bool) (finished : Z) : itree ProcessE values :=
  do! i := co_call (InversionC true 0) in
  EXPECT (bool_decide (int_of i = 1%Z)) ;;!
  nap_if should_sleep ;;!
  do! i := co_call (InversionC false (int_of i)) in
  EXPECT (bool_decide (int_of i = 2%Z)) ;;!
  co_return (VInt (finished + 1)).

Definition InversionA_body (finished : Z) : itree ProcessE values :=
  do! i := co_call (InversionB false 0) in
  EXPECT (bool_decide (int_of i = 1%Z)) ;;!
  co_await (sleep 1%Z) ;;!
  do! i := co_call (InversionB true (int_of i)) in
  EXPECT (bool_decide (int_of i = 2%Z)) ;;!
  do! i := co_call (InversionB true (int_of i)) in
  EXPECT (bool_decide (int_of i = 3%Z)) ;;!
  co_return (VInt (finished + 1)).

Definition MethodStackInversion_run : itree ProcessE unit :=
  do! i := co_call (InversionA 0) in
  EXPECT (bool_decide (int_of i = 1%Z)).

(** *** Generators *)

(** Count the values of a generator, checking each. *)
Definition counting_if (ok : values → bool) (v : values) (count : nat) : itree ProcessE nat :=
  EXPECT (ok v) ;;! co_return (S count).

Definition yield_up_to (n : nat) : itree ProcessE unit :=
  repeat_ n (λ i, co_yield (VInt (Z.of_nat (n - S i)))).

Definition YieldInts_body : itree ProcessE unit :=
  co_yield (VInt 99) ;;!
  co_await (sleep 2000%Z) ;;!
  yield_up_to 10.

Definition GenBasic_run : itree ProcessE unit :=
  do! ret_ := task_op (CallMethod YieldInts) in
  while_next ret_ tt (λ _ _, co_return tt) ;;!
  do! ret2 := task_op (CallMethod YieldNoInts) in
  do! b := co_next ret2 in
  EXPECT (negb b) ;;!
  task_op (DropTask ret2) ;;!
  task_op (DropTask ret_).

Definition GetString_body : itree ProcessE values :=
  co_await (sleep 500%Z) ;;!
  co_return (VString "MethodTask").

Definition YieldStrings_body : itree ProcessE unit :=
  co_await (sleep 500%Z) ;;!
  co_yield (VString "there") ;;!
  do! s := co_call GetString in
  co_yield s ;;!
  co_yield (VString "done").

Definition size_of (v : values) : Z :=
  match v with VString s => Z.of_nat (String.length s) | _ => 0 end.

Definition YieldSizes_body : itree ProcessE unit :=
  do! ret_ := task_op (CallMethod YieldStrings) in
  while_next ret_ tt (λ v _, co_yield (VInt (size_of v))) ;;!
  task_op (DropTask ret_).

Definition GenMultiTypes_run : itree ProcessE unit :=
  do! ret_ := task_op (CallMethod YieldSizes) in
  while_next ret_ tt (λ _ _, co_return tt) ;;!
  task_op (DropTask ret_).

Definition YieldRecursive_body (n : nat) : itree ProcessE unit :=
  match n with
  | 0 => yield_up_to 3
  | S n' =>
      do! ret_ := task_op (CallMethod (YieldRecursive n')) in
      do! count := while_next ret_ 0 (λ v count,
        EXPECT (bool_decide (int_of v = Z.of_nat count)) ;;!
        co_yield v ;;!
        co_return (S count)) in
      EXPECT (bool_decide (count = 3)) ;;!
      task_op (DropTask ret_)
  end.

Definition GenRecursive_run : itree ProcessE unit :=
  do! ret_ := task_op (CallMethod (YieldRecursive 10)) in
  do! count := while_next ret_ 0 (counting_if (λ _, true)) in
  EXPECT (bool_decide (count = 3)) ;;!
  task_op (DropTask ret_).

Definition YieldThrows_body : itree ProcessE unit :=
  yield_up_to 2 ;;!
  call (OpThrow (std_exception "")).

Definition GenThrows_run : itree ProcessE unit :=
  do! ret_ := task_op (CallMethod YieldThrows) in
  while_next ret_ tt (λ _ _, co_return tt) ;;!
  task_op (DropTask ret_).

Definition YieldReceives_body : itree ProcessE unit :=
  yield_up_to 2 ;;!
  do! s := call OpCreateSlot in
  co_recv s ;;!
  call (OpDestroySlot (sa_slot s)) ;;!
  EXPECT false.

Definition ProcToDestroy_run (a : arguments) : itree ProcessE unit :=
  do! ret_ := task_op (CallMethod YieldReceives) in
  while_next ret_ tt (λ v _,
    match to_send a with
    | Some addr => call (OpSend addr (PInt (int_of v))) ;;! co_return tt
    | None => co_return tt
    end) ;;!
  task_op (DropTask ret_).

Definition GenDestroy_run : itree ProcessE unit :=
  do! slot := call OpCreateSlot in
  do! pid := call (OpSpawn ProcToDestroy (mkArgs 0 None (Some slot))) in
  co_recv slot ;;!
  call (OpQueueKill pid).

(** [for co_await (int i : m) { EXPECT_EQ(1, i); ++x; }] *)
Definition for_ones (m : coroutine_methods) (x : nat) : itree ProcessE nat :=
  co_for m x (counting_if (λ v, bool_decide (int_of v = 1%Z))).

Definition ForEach_run : itree ProcessE unit :=
  do! count := co_for (GenInts 10) 0 (counting_if (λ _, true)) in
  EXPECT (bool_decide (count = 10)).

Definition GenC_body (should_sleep : bool) : itree ProcessE unit :=
  nap_if should_sleep ;;!
  co_yield (VInt 1).

Definition GenB_body (should_sleep : bool) : itree ProcessE unit :=
  do! x := for_ones (GenC true) 0 in
  EXPECT (bool_decide (x = 1)) ;;!
  co_yield (VInt 1) ;;!
  nap_if should_sleep ;;!
  do! x := for_ones (GenC false) x in
  EXPECT (bool_decide (x = 2)) ;;!
  nap_if should_sleep ;;!
  co_yield (VInt 1).

Definition GenA_body : itree ProcessE unit :=
  do! x := for_ones (GenB true) 0 in
  EXPECT (bool_decide (x = 2)) ;;!
  co_await (sleep 1%Z) ;;!
  do! x := for_ones (GenB false) x in
  EXPECT (bool_decide (x = 4)) ;;!
  do! x := for_ones (GenB true) x in
  EXPECT (bool_decide (x = 6)) ;;!
  co_yield (VInt 1) ;;!
  co_await (sleep 1%Z) ;;!
  co_yield (VInt 1).

Definition GenStackInversion_run : itree ProcessE unit :=
  do! x := for_ones GenA 0 in
  EXPECT (bool_decide (x = 2)).

(** [GenMultiTask]: three generators, one run to its end, one part of the way, one
    not at all. *)
Definition YieldDone_body : itree ProcessE unit :=
  repeat_ 10 (λ _,
    do! s := co_call GetHi in
    EXPECT (bool_decide (s = VString "HI"))) ;;!
  co_yield (VString "done").

Definition GenMultiTask_run : itree ProcessE unit :=
  do! run_full := task_op (CallMethod YieldDone) in
  do! run_half := task_op (CallMethod YieldDone) in
  do! run_none := task_op (CallMethod YieldDone) in
  do! b := co_next run_full in
  EXPECT b ;;!
  do! b := co_next run_half in
  EXPECT b ;;!
  do! v := task_op (GenTake run_full) in
  EXPECT (bool_decide (v = VString "done")) ;;!
  do! b := co_next run_full in
  EXPECT (negb b) ;;!
  task_op (DropTask run_none) ;;!
  task_op (DropTask run_half) ;;!
  task_op (DropTask run_full).

(** *** Single behaviours *)

Definition LateThrower_run : itree ProcessE unit :=
  co_call SleepyMethod ;;!
  call (OpThrow (std_exception "thrown")).

Definition LateReader_run : itree ProcessE unit :=
  for_ones YieldThenSleep 0 ;;! co_return tt.

Definition returning_void (t : itree ProcessE unit) : itree ProcessE values := t ;;! co_return VVoid.

Definition body_of (m : coroutine_methods) : itree ProcessE values :=
  match m with
  | SendThrottled p m => returning_void (sendThrottled p m)
  | SubRun n out => subRun n out
  | RetIntCoro i => co_return (VInt i)
  | DoNothingCoro => co_return VVoid
  | ThrowCoro i => ThrowCoro_body i
  | InversionC b i => InversionC_body b i
  | InversionB b i => InversionB_body b i
  | InversionA i => InversionA_body i
  | YieldInts => returning_void YieldInts_body
  | YieldNoInts => co_return VVoid
  | GetString => GetString_body
  | YieldStrings => returning_void YieldStrings_body
  | YieldSizes => returning_void YieldSizes_body
  | YieldRecursive n => returning_void (YieldRecursive_body n)
  | YieldThrows => returning_void YieldThrows_body
  | YieldReceives => returning_void YieldReceives_body
  | GetHi => co_await (sleep 10%Z) ;;! co_return (VString "HI")
  | YieldDone => returning_void YieldDone_body
  | GenInts n => returning_void (yield_up_to n)
  | GenC b => returning_void (GenC_body b)
  | GenB b => returning_void (GenB_body b)
  | GenA => returning_void GenA_body
  | Subfn i => returning_void (subfn_body i)
  | Fn to i => returning_void (fn_body to i)
  | SleepyMethod => returning_void (nap_if true)
  | YieldThenSleep => returning_void (co_yield (VInt 1) ;;! nap_if true)
  end.

Definition run_of (c : classes) (a : arguments) : itree ProcessE unit :=
  match c with
  | Counter => Counter_run a
  | Sleeper => Sleeper_run a
  | SleepProfiler => SleepProfiler_run a
  | Listener => Listener_run
  | Sender => Sender_run a
  | SenderApp => SenderApp_run a
  | SleepingApp => SleepingApp_run a
  | SpawnedApp | Unlucky => SpawnedApp_run
  | BlockForEver => BlockForEver_run
  | NotifyApp => NotifyApp_run
  | ThrowingApp => ThrowingApp_run
  | EchoApp => EchoApp_run
  | MethodExample => MethodExample_run
  | MethodCounter => MethodCounter_run a
  | MethodBasic => MethodBasic_run
  | MethodThrows => MethodThrows_run
  | MethodStackInversion => MethodStackInversion_run
  | GenBasic => GenBasic_run
  | GenMultiTypes => GenMultiTypes_run
  | GenMultiTask => GenMultiTask_run
  | GenRecursive => GenRecursive_run
  | GenThrows => GenThrows_run
  | ProcToDestroy => ProcToDestroy_run a
  | GenDestroy => GenDestroy_run
  | ForEach => ForEach_run
  | GenStackInversion => GenStackInversion_run
  | Thrower => call (OpThrow (std_exception "thrown"))
  | Napper => Napper_run
  | Producer => Producer_run
  | Consumer => Consumer_run
  | Killer => Killer_run a
  | LateThrower => LateThrower_run
  | LateReader => LateReader_run
  end.

#[export] Instance bodies : ProcessBodies := {|
  run_ c a _ := run_of c a;
  method_body := body_of;
|}.

#[export] Instance task_fuel : TaskResume ProcessTask := task_resume_coroutine 1000.
#[export] Instance task_fuel_laws : TaskResumeLaws ProcessTask := coroutine_laws 1000.

Abbreviation World := (Context ProcessTask).

Definition idle_service : Sim.service Handler := Sim.new_service.
Definition initial : World := new_context idle_service.

(** [main]: spawn one process and run. *)
Definition main_ (c : classes) (a : arguments) (fuel : nat) : outcome World unit :=
  (spawn c a ;;; run fuel) initial.

(** The state an outcome leaves. *)
Definition state_of {A} (o : outcome World A) : World :=
  match final o with Some c => c | None => initial end.

(** What is left on the heap of a context. *)
Definition leftovers (c : World) : nat :=
  length (map_to_list (rps c)) + length (map_to_list (objs c)) +
  length (map_to_list (slots c)) + length (map_to_list (promises c)).

Definition clean_exit (o : outcome World unit) : bool :=
  match o with
  | Ok _ c => bool_decide (leftovers c = 0)
  | _ => false
  end.

Lemma state_of_wf {A} (m : M World A) : within (evolves []) m → wf (state_of (m initial)).
Proof.
  intros Hm. unfold state_of. destruct (final (m initial)) as [c|] eqn:Hf.
  - apply (Hm _ _ Hf). apply new_context_wf.
  - apply new_context_wf.
Qed.

(** ** Checking ownership of slots *)

Definition all_slots (c : World) : list SlotId := map_to_list (rps c) ≫= λ kv, slots_of c kv.1.

Definition owns_slots_b (c : World) : bool :=
  bool_decide (NoDup (all_slots c)) &&
  forallb (λ s, bool_decide (is_Some (slots c !! s))) (all_slots c).

Lemma in_all_slots c r s : s ∈ slots_of c r → ∃ rp, (r, rp) ∈ map_to_list (rps c).
Proof.
  unfold slots_of. destruct (rps c !! r) as [rp|] eqn:Hr; [|by intros ?%not_elem_of_nil].
  intros _. exists rp. by apply elem_of_map_to_list.
Qed.

Lemma owns_slots_spec c : owns_slots_b c = true → owns_slots c.
Proof.
  unfold owns_slots_b. intros [Hnd Hlive]%andb_true_iff. apply bool_decide_eq_true in Hnd.
  assert (Hin : ∀ r s, s ∈ slots_of c r → s ∈ all_slots c).
  { intros r s Hs. destruct (in_all_slots c r s Hs) as [rp Hr].
    apply list_elem_of_bind. by exists (r, rp). }
  split.
  - intros r s Hs. rewrite forallb_forall in Hlive.
    eapply bool_decide_eq_true, Hlive, list_elem_of_In, Hin, Hs.
  - intros r. unfold all_slots in Hnd.
    destruct (slots_of c r) as [|s l] eqn:Hs; [apply NoDup_nil_2|].
    destruct (in_all_slots c r s) as [rp Hr]; [rewrite Hs; left|].
    apply list_elem_of_split in Hr as (l1 & l2 & Heq). rewrite Heq in Hnd.
    rewrite bind_app in Hnd. simpl in Hnd. rewrite Hs in Hnd.
    apply NoDup_app in Hnd as (_ & _ & Hnd). by apply NoDup_app in Hnd as (Hnd & _ & _).
  - intros r1 r2 s H1 H2. unfold all_slots in Hnd.
    destruct (in_all_slots c r1 s H1) as [rp1 Hr1], (in_all_slots c r2 s H2) as [rp2 Hr2].
    apply list_elem_of_split in Hr1 as (l1 & l2 & Heq). rewrite Heq in Hnd, Hr2.
    rewrite bind_app in Hnd. simpl in Hnd.
    apply NoDup_app in Hnd as (_ & Hd1 & Hnd). apply NoDup_app in Hnd as (_ & Hd2 & _).
    apply elem_of_app in Hr2 as [Hr2|Hr2].
    + destruct (Hd1 s); [apply list_elem_of_bind; by exists (r2, rp2)|].
      apply elem_of_app. by left.
    + apply elem_of_cons in Hr2 as [?|Hr2]; [by simplify_eq|].
      destruct (Hd2 s H1). apply list_elem_of_bind. by exists (r2, rp2).
Qed.
