(* ===== verification/Counting.v ===== *)
(** * Counting with method tasks

    [MethodCounter] of count.cpp for every [kMax]: the recursion of [subRun] is one
    of calls that do not suspend, so the process counts to [kMax] and ends in its
    first turn. *)

From ITree Require Core.ITreeDefinition Indexed.Sum.
From S2P Require Import Prelude.
From S2P Require Import BaseTypes.
From S2P Require Import Future.
From S2P Require Import Slot.
From S2P Require Import Waiting.
From S2P Require Import IoService.
From S2P Require Import Process.
From S2P Require Import Context.
From S2P Require Import Lifecycle.
From S2P Require Import ContextFacts.
From S2P Require Import LifecycleFacts.
From S2P Require Import Destruction.
From S2P Require Import Scheduler.
From S2P Require Import Coroutine.
From S2P Require Import CoroutineFacts.
From S2P Require Import Programs.

(** The first statement of a body written with [co_bind]. *)
Ltac first_statement := eexists; split; [cbn; reflexivity|].
Ltac calls_at_once :=
  unfold method_body; simpl; first_statement; intros; first_statement; first_statement;
  reflexivity.

Lemma eager_return m v : body_of m = co_return v → eager m v 1 0.
Proof.
  intros Hm r this fuel t h Hfuel _ Hh. destruct fuel as [|fuel]; [lia|].
  unfold method_body; simpl. rewrite Hm, advance_0. by apply runs_return.
Qed.

(** [subRun(n, out)] adds [n] to [out]. *)
Lemma eager_subRun n out : eager (SubRun n out) (VInt (out + Z.of_nat n)) (4 * n + 1) n.
Proof.
  induction n as [|n IH].
  - rewrite Z.add_0_r. by apply eager_return.
  - intros r this fuel t h Hfuel Ha Hh.
    assert (∃ fuel', fuel = 3 + Datatypes.S fuel' ∧ 4 * n + 1 ≤ 2 + fuel') as (fuel' & -> & Hf).
    { exists (fuel - 4). lia. }
    eapply (runs_co_call (PB:=bodies) (SubRun n out)
             (VInt (out + Z.of_nat n)) _ _ _ (co_return (VInt (out + Z.of_nat n + 1))) _ _ _ _ _ started);
      [calls_at_once|done|exact IH|lia|done|by split; [|intros h' ?%elem_of_nil]|].
    replace (out + Z.of_nat (Datatypes.S n))%Z with (out + Z.of_nat n + 1)%Z by lia.
    change (advance (Datatypes.S n) (put h ?v t)) with (put h v (advance (Datatypes.S n) t)).
    by apply runs_return.
Qed.

(** [run] after the call of [retIntCoro], and after that of [subRun]. *)
Definition after_five (a : arguments) (five : values) : itree ProcessE values :=
  (EXPECT (bool_decide (int_of five = 5%Z)) ;;!
   do! our_value := co_call (SubRun (Z.to_nat (kMax a)) 0) in
   EXPECT (bool_decide (int_of our_value = kMax a))) ;;!
  co_return VVoid.
Definition after_subRun (a : arguments) (our_value : values) : itree ProcessE values :=
  EXPECT (bool_decide (int_of our_value = kMax a)) ;;! co_return VVoid.

(** C11: the first turn of a [MethodCounter] counts to its [kMax], whatever that is,
    and ends the process with every sub-task destroyed: with four steps of the body
    per call, it takes [4 * kMax + 20]. *)
Theorem method_counter_counts r obj a fuel :
  (0 ≤ kMax a)%Z → 4 * Z.to_nat (kMax a) + 20 ≤ fuel →
  ∃ next, runs r (ProcessTask_resume fuel r) (task_start MethodCounter a obj) None
    (mkProcessTask _ _ None ∅ next).
Proof.
  intros Hk Hfuel. set (n := Z.to_nat (kMax a)).
  exists (Nat.iter (Datatypes.S n) Pos.succ (Nat.iter 1 Pos.succ (Nat.iter 1 Pos.succ 2%positive))).
  apply (runs_ends_at_once r fuel (run_of MethodCounter a ;;! co_return void)). intros this.
  assert (∃ f, fuel = 3 + (3 + (3 + Datatypes.S f)) ∧ 4 * n + 1 ≤ 2 + Datatypes.S f) as (f & -> & Hf).
  { exists (fuel - 10). unfold n. lia. }
  assert (Hpos : ∀ m p, (1 < p)%positive → (1 < Nat.iter m Pos.succ p)%positive).
  { intros m p Hp. induction m; simpl; lia. }
  eapply (runs_co_call (PB:=bodies) DoNothingCoro VVoid); [calls_at_once|done|by apply eager_return
    |lia|by apply alone_allocated|by apply alone_owning|].
  eapply (runs_co_call (PB:=bodies) (RetIntCoro 5) (VInt 5) _ _ _ (after_five a (VInt 5)));
    [calls_at_once|done|by apply eager_return|lia|by apply alone_allocated|by apply alone_owning|].
  unfold after_five. rewrite bool_decide_eq_true_2 by done.
  eapply (runs_co_call (PB:=bodies) (SubRun n 0) (VInt (0 + Z.of_nat n)) _ _ _
    (after_subRun a (VInt (0 + Z.of_nat n))));
    [calls_at_once|done|apply eager_subRun|lia|by apply alone_allocated|by apply alone_owning|].
  unfold after_subRun. rewrite bool_decide_eq_true_2 by (unfold n; simpl; lia).
  rewrite (run_body_observe (PB:=bodies) _ _ _ _ _ (co_return VVoid)) by reflexivity. apply runs_process_end.
Qed.
