(* ===== verification/TaskWitnesses.v ===== *)
(** * The theorems about coroutines at concrete inputs

    Small heaps of coroutines in which the hypotheses of the theorems of
    CoroutineFacts and Counting hold. *)

From ITree Require Core.ITreeDefinition Indexed.Sum.
From S2P Require Import Prelude.
From S2P Require Import BaseTypes.
From S2P Require Import Future.
From S2P Require Import Slot.
From S2P Require Import Waiting.
From S2P Require Import IoService.
From S2P Require Import Process.
From S2P Require Import Context.
From S2P Require Import Lifecycle.
From S2P Require Import ContextFacts.
From S2P Require Import LifecycleFacts.
From S2P Require Import Destruction.
From S2P Require Import Scheduler.
From S2P Require Import Coroutine.
From S2P Require Import CoroutineFacts.
From S2P Require Import Programs.
From S2P Require Import Counting.

Definition to_void {A} (_ : A) : itree ProcessE values := co_return VVoid.
Definition to_value (v : values) : itree ProcessE values := co_return v.

(** A process that runs, a method task it called, and one that task awaits. *)
Definition method_with (s : State) (f : PromiseBase → PromiseBase) : Coroutine :=
  mkCoroutine _ _ (f (new_promise_base MethodTaskPromise)) s [].

Definition nested : ProcessTask :=
  mkProcessTask _ _ (Some 1%positive)
    (<[1%positive := process_coroutine Running]>
     (<[2%positive := method_with (Suspended (AtMethod 3%positive to_void))
                        (set_subCoroutineChild (Some 3%positive))]>
      {[3%positive := method_with (Suspended (AtAwait (sleep 1%Z) to_void))
                        (set_waiting (Some (sleep 1%Z)))]}))
    4%positive.

Lemma suspension_reaches_process_witness :
  ∃ t', runs 2%positive (updateSuspend 2%positive 1%positive 2%positive) nested tt t' ∧
    coroutines t' !! 1%positive =
      Some (set_promise (set_nextChild (Some 3%positive) (set_subCoroutineChild (Some 2%positive)
              (new_promise_base ProcessPromise))) (process_coroutine Running)) ∧
    (∀ h co, h ∈ [2; 3]%positive → coroutines nested !! h = Some co →
      coroutines t' !! h = Some (set_promise (hung 1%positive 2%positive h (promise co)) co)) ∧
    (∀ h, h ∉ [1; 2; 3]%positive → coroutines t' !! h = coroutines nested !! h) ∧
    coroutine_ t' = Some 1%positive ∧ next_handle t' = 4%positive.
Proof.
  apply (suspension_reaches_process 2%positive nested 1%positive 2%positive [2; 3]%positive (process_coroutine Running)
    (method_with (Suspended (AtMethod 3%positive to_void))
       (set_subCoroutineChild (Some 3%positive)))); [reflexivity..| |].
  - eapply chain_next; [reflexivity|reflexivity|]. eapply chain_end; reflexivity.
  - intros Hin. by repeat (apply elem_of_cons in Hin as [?|Hin]; [done|]); apply elem_of_nil in Hin.
Defined.


(** A process that awaits a task of kind [k], which is about to end or yield. *)
Definition waiting_for (k : Kind) (s : Suspension) : ProcessTask :=
  mkProcessTask _ _ (Some 1%positive)
    (<[1%positive := process_coroutine (Suspended s)]>
      {[2%positive := mkCoroutine _ _ (set_parent (Some 1%positive) (new_promise_base k)) Running []]})
    3%positive.

Definition for_value : Suspension := AtMethod 2%positive to_value.
Definition for_next : Suspension := AtNext 2%positive to_void.
Definition at_method : ProcessTask := waiting_for MethodTaskPromise for_value.
Definition at_next : ProcessTask := waiting_for GenPromise for_next.
Definition child_of (k : Kind) : Coroutine :=
  mkCoroutine _ _ (set_parent (Some 1%positive) (new_promise_base k)) Running [].

(** What the parent goes on with is recorded in its promise. *)
Definition record_result (r : Ptr) (h : Handle) (t : Body) : M World unit :=
  match observe t with
  | ITreeDefinition.RetF v => update_base r h (set_t (Some v))
  | _ => ret tt
  end.

Lemma finished_method_resumes_parent_witness :
  ∃ t', runs 2%positive (final_suspend (record_result 2%positive) 2%positive 3%positive 2%positive (VInt 7)) at_method tt t' ∧
    (λ co, t_ (promise co)) <$> coroutines t' !! 1%positive = Some (Some (VInt 7)).
Proof.
  eexists. split.
  - apply (finished_method_resumes_parent (PB:=bodies) (record_result 2%positive) 2%positive 3%positive 2%positive 1%positive (child_of MethodTaskPromise)
      (process_coroutine (Suspended for_value)) to_value (VInt 7));
      [done|reflexivity..|].
    apply runs_update_base_put. reflexivity.
  - reflexivity.
Defined.

Lemma yield_resumes_parent_witness :
  ∃ t', runs 2%positive
      (yield_suspend (record_result 2%positive) 2%positive 3%positive 2%positive (VInt 7) to_void)
      at_next tt t' ∧
    (λ co, t_ (promise co)) <$> coroutines t' !! 2%positive = Some (Some (VInt 7)).
Proof.
  eexists. split.
  - apply (yield_resumes_parent (PB:=bodies) (record_result 2%positive) 2%positive 3%positive 2%positive 1%positive (child_of GenPromise)
      (process_coroutine (Suspended for_next)) to_void
      (VInt 7)); [done|reflexivity..|].
    apply runs_update_base_put. reflexivity.
  - reflexivity.
Defined.

Lemma generator_end_resumes_nobody_witness :
  runs 2%positive (final_suspend (record_result 2%positive) 2%positive 3%positive 2%positive VVoid) at_next tt
    (put 2%positive (set_state AtFinal (child_of GenPromise)) at_next).
Proof. apply generator_end_resumes_nobody; reflexivity. Defined.

Lemma method_counter_counts_witness :
  ∃ next, runs 2%positive (ProcessTask_resume 100 2%positive)
    (task_start MethodCounter (mkArgs 20 None None) (mkProcess _ (mkPid 0 0) [] [] MethodCounter []))
    None (mkProcessTask _ _ None ∅ next).
Proof. apply method_counter_counts; simpl; lia. Defined.
