(* ===== verification/Witnesses.v ===== *)
(** * The theorems at concrete inputs

    Each property with hypotheses is applied to a state of a program of the
    repository, reached by running it on the model. *)

From ITree Require Core.ITreeDefinition Indexed.Sum.
From S2P Require Import Prelude.
From S2P Require Import BaseTypes.
From S2P Require Import Future.
From S2P Require Import Slot.
From S2P Require Import Waiting.
From S2P Require Import IoService.
From S2P Require Import Process.
From S2P Require Import Context.
From S2P Require Import HeapFacts.
From S2P Require Import Lifecycle.
From S2P Require Import ContextFacts.
From S2P Require Import LifecycleFacts.
From S2P Require Import Destruction.
From S2P Require Import Scheduler.
From S2P Require Import Steps.
From S2P Require Import Safety.
From S2P Require Import Timers.
From S2P Require Import Delivery.
From S2P Require Import Operations.
From S2P Require Import Coroutine.
From S2P Require Import CoroutineFacts.
From S2P Require Import Backpressure.
From S2P Require Import Programs.

(** ** States reached by running programs *)

Definition pid0 : Pid := mkPid 0 0.
Definition pid1 : Pid := mkPid 1 0.

(** A script: what is done to a new context. *)
Definition launch (cl : classes) (a : arguments) : M World unit := spawn cl a ;;; ret tt.
Definition turn : M World unit := iteration 50.
Definition kill (p : Pid) : M World unit := addtoDestroy p "stop".
Definition script (l : list (M World unit)) : M World unit := for_each id l.
Definition after (l : list (M World unit)) : World := state_of (script l initial).

Lemma ev_launch cl a : within (evolves []) (launch cl a).
Proof. apply within_bind; [apply _|by apply ev_spawnWith|intros; apply within_ret; apply _]. Qed.
Lemma ev_turn : within (evolves []) turn.
Proof. apply ev_iteration. Qed.
Lemma ev_kill p : within (evolves []) (kill p).
Proof. apply ev_addtoDestroy. Qed.

Lemma after_wf l : Forall (within (evolves [])) l → wf (after l).
Proof.
  rewrite Forall_forall. intros Hl. apply state_of_wf, within_for_each; [apply _|].
  intros x Hx. by apply Hl.
Qed.

Ltac run_wf :=
  apply after_wf;
  repeat first [apply List.Forall_nil | apply List.Forall_cons
               | apply ev_launch | apply ev_turn | apply ev_kill].

(** [Sender] of send_back_pressure.cpp after its first turn: it has spawned and
    linked a [Listener] and filled the queue of the context. *)
Definition sending : World := after [launch Sender (mkArgs 15 None None); turn].
Lemma sending_wf : wf sending.
Proof. run_wf. Qed.

(** The same, after the [Sender] was killed. *)
Definition stopping : World :=
  after [launch Sender (mkArgs 15 None None); turn; kill pid0].
Lemma stopping_wf : wf stopping.
Proof. run_wf. Qed.

(** Evaluating a run without writing its final state out: only the verdict is
    computed. *)
Definition returns {A} `{EqDecision A} (a : A) (o : outcome World A) : bool :=
  match o with Ok b _ => bool_decide (b = a) | _ => false end.
Definition throws {A} (e : exn) (o : outcome World A) : bool :=
  match o with Throw e' _ => bool_decide (e' = e) | _ => false end.

Lemma returns_state {A} `{EqDecision A} (a : A) (o : outcome World A) :
  returns a o = true → o = Ok a (state_of o).
Proof. destruct o as [b c| |]; simpl; [|done..]. by intros ->%bool_decide_eq_true. Qed.

Lemma throws_state {A} e (o : outcome World A) : throws e o = true → o = Throw e (state_of o).
Proof. destruct o as [|e' c|]; simpl; [done| |done]. by intros ->%bool_decide_eq_true. Qed.

Definition process_at (r : Ptr) (c : World) : RunningProcess ProcessTask :=
  default (mkRunningProcess false pid0 1 (mkProcessTask _ _ None ∅ 1%positive) None 0) (rps c !! r).

Lemma process_at_run r c :
  bool_decide (is_Some (rps c !! r)) = true → rps c !! r = Some (process_at r c).
Proof. unfold process_at. intros [rp ->]%bool_decide_eq_true. done. Qed.

Ltac evaluates :=
  match goal with
  | |- rps _ !! _ = Some (process_at _ _) => apply process_at_run
  | |- ?o = Ok ?a _ => apply (returns_state a o)
  | |- ?o = Throw ?e _ => apply (throws_state e o)
  | _ => idtac
  end; vm_compute; reflexivity.

(** ** Witnesses *)


(** Runs that return normally are runs of the transition system. *)
Lemma script_steps l c c' :
  Forall (λ m, ∀ c c', m c = Ok tt c' → rtc step (AtLoop, c) (AtLoop, c')) l →
  script l c = Ok tt c' → rtc step (AtLoop, c) (AtLoop, c').
Proof.
  intros Hl. revert c. induction Hl as [|m l Hm _ IH]; intros c; [by intros [= <-]|].
  unfold script. simpl. intros ([] & c1 & H1%Hm & H2%IH)%bind_Ok. by etrans.
Qed.

Lemma launch_steps cl a c c' :
  launch cl a c = Ok tt c' → rtc step (AtLoop, c) (AtLoop, c').
Proof.
  unfold launch. intros (p & c1 & Hs & [= ->])%bind_Ok.
  eapply rtc_once, step_spawn. by rewrite Hs.
Qed.

Lemma turn_steps c c' : turn c = Ok tt c' → rtc step (AtLoop, c) (AtLoop, c').
Proof. apply iteration_steps. Qed.

Definition ends_well (l : list (M World unit)) : bool :=
  match script l initial with Ok _ _ => true | _ => false end.

Lemma after_reachable l :
  Forall (λ m, ∀ c c', m c = Ok tt c' → rtc step (AtLoop, c) (AtLoop, c')) l →
  ends_well l = true → reachable (AtLoop, after l).
Proof.
  intros Hl Hok. exists idle_service. fold initial.
  apply (script_steps l); [done|]. unfold after, state_of, ends_well in *.
  by destruct (script l initial) as [[]| |].
Qed.

Ltac run_reachable :=
  apply after_reachable;
  [repeat first [apply List.Forall_nil | apply List.Forall_cons
                | apply launch_steps | apply turn_steps]
  |vm_compute; reflexivity].

Lemma sending_reachable : reachable (AtLoop, sending).
Proof. run_reachable. Qed.

Lemma reachable_wf_witness : reachable (AtLoop, sending) ∧ wf sending.
Proof. split; [apply sending_reachable|]. apply (reachable_wf AtLoop sending sending_reachable). Defined.

(** [NotifyApp] of basic.cpp: the pid of its first child, after it died, while its
    entry is reused. *)
Definition notifying : World := after [launch NotifyApp no_args; turn; turn].
Definition notifying_later : World := state_of (script [turn] notifying).

Lemma dead_pids_stay_dead_witness :
  issued notifying pid1 ∧ ¬ live notifying pid1 ∧ live notifying_later (mkPid 1 1) ∧
  findProc pid1 notifying_later = Ok None notifying_later.
Proof.
  assert (Hissued : issued notifying pid1).
  { right. split.
    - vm_compute. lia.
    - intros r rp Hr _. exfalso. revert Hr.
      assert (He : processes_ notifying !! N.to_nat (idx_ pid1) ≠ Some (Some r))
        by (vm_compute; discriminate).
      exact He.
    - intros t Ht. vm_compute in Ht. vm_compute.
      apply list_elem_of_singleton in Ht as ->. done. }
  assert (Hdead : ¬ live notifying pid1) by (vm_compute; by intros []).
  split; [exact Hissued|]. split; [exact Hdead|].
  split; [vm_compute; by eexists|].
  apply (dead_pids_stay_dead AtLoop notifying AtLoop).
  - run_reachable.
  - apply (script_steps [turn]); [|evaluates].
    apply List.Forall_cons; [apply turn_steps|apply List.Forall_nil].
  - exact Hissued.
  - exact Hdead.
  - vm_compute. reflexivity.
Defined.

Lemma spawn_returns_fresh_pid_witness :
  ∃ c', spawn (P:=application) SpawnedApp no_args sending = Ok (mkPid 2 0) c' ∧
    live c' (mkPid 2 0) ∧ last (queue_ c') = Some (mkItem (mkPid 2 0) (Some 0%N) None) ∧
    (unwrapped c' → ¬ issued sending (mkPid 2 0) ∧ ∀ q, issued sending q → issued c' q).
Proof.
  exists (state_of (spawn (P:=application) SpawnedApp no_args sending)).
  assert (Hs : spawn (P:=application) SpawnedApp no_args sending =
    Ok (mkPid 2 0) (state_of (spawn (P:=application) SpawnedApp no_args sending))) by evaluates.
  split; [exact Hs|]. eapply (spawn_returns_fresh_pid []); [apply sending_wf|exact Hs].
Defined.

(** [Counter] of count.cpp up to 3. *)
Definition counting : World := after [launch Counter (mkArgs 3 None None)].
Definition counted : World := state_of (run 100 counting).

Lemma run_frees_all_witness :
  run 100 counting = Ok tt counted ∧
  rps counted = ∅ ∧ toDestroy_ counted = [] ∧ ∀ p, ¬ live counted p.
Proof.
  assert (Hr : run 100 counting = Ok tt counted) by evaluates.
  split; [exact Hr|]. apply (run_frees_all 100 counting); [run_reachable|exact Hr].
Defined.


Lemma findProc_finds_live_witness :
  ∃ o, findProc pid1 sending = Ok o sending ∧
    match o with
    | Some r => ∃ rp, rps sending !! r = Some rp ∧ pid rp = pid1 ∧ dead rp = false ∧
                      processes_ sending !! N.to_nat (idx_ pid1) = Some (Some r)
    | None => ∀ r rp, rps sending !! r = Some rp → pid rp = pid1 → dead rp = true
    end.
Proof. apply (findProc_finds_live [] sending pid1 sending_wf). Defined.

Lemma addtoDestroy_kills_once_witness :
  live sending pid1 ∧
  ∃ c', addtoDestroy pid1 "stop" sending = Ok tt c' ∧ wf_with [] c' ∧
    addtoDestroy pid1 "stop" c' = Ok tt c' ∧
    (∀ q, lookup_proc c' q = if bool_decide (q = pid1) then None else lookup_proc sending q) ∧
    match lookup_proc sending pid1 with
    | None => c' = sending
    | Some r => dead <$> rps c' !! r = Some true ∧
                toDestroy_ c' = toDestroy_ sending ++ [(r, "stop")] ∧
                tombstones_ c' = tombstones_ sending ++ [pid1]
    end.
Proof.
  split; [vm_compute; by eexists|].
  apply (addtoDestroy_kills_once [] sending pid1 "stop" sending_wf).
Defined.

(** [SleepingApp] of basic.cpp, asleep; its running process is at address 2. *)
Definition asleep : World := after [launch SleepingApp (mkArgs 100 None None); turn].

Lemma timer_completion_safe_witness :
  ∃ c1, call_io io_run_one asleep = Ok (Some (TimerDone 2 success)) c1 ∧
        ∃ rp, rps c1 !! 2%positive = Some rp ∧ load_rp 2 c1 = Ok rp c1.
Proof.
  exists (state_of (call_io io_run_one asleep)).
  assert (Hcall : call_io io_run_one asleep =
    Ok (Some (TimerDone 2 success)) (state_of (call_io io_run_one asleep)))
    by evaluates.
  split; [exact Hcall|].
  apply (timer_completion_safe (IO:=Sim.sim_io Handler) idle_service AtLoop asleep io_run_one 2%positive).
  - split; [intros h [_ Hin]; by apply not_elem_of_nil in Hin|].
    intros t g (w & Hin & _). by apply not_elem_of_nil in Hin.
  - fold initial. apply (script_steps [launch SleepingApp (mkArgs 100 None None); turn]);
      [|evaluates].
    repeat first [apply List.Forall_nil | apply List.Forall_cons
                 | apply launch_steps | apply turn_steps].
  - by left.
  - exact Hcall.
Defined.

(** A process whose body throws, before its first turn. *)
Definition throwing : World := after [launch Thrower no_args].
Definition thrown_at : World := state_of (prepare 2 throwing).
Definition thrown : World := state_of (task_resume 2 thrown_at).

Lemma exception_kills_only_thrower_witness :
  task_resume 2 thrown_at = Throw (std_exception "thrown") thrown ∧
  ∃ c', resume 2 throwing = Ok tt c' ∧ wf c' ∧ ¬ live c' pid0 ∧
    (∀ q, q ≠ pid0 → lookup_proc c' q = lookup_proc thrown q) ∧
    (∀ r', lookup_proc thrown pid0 = Some r' →
      toDestroy_ c' = toDestroy_ thrown ++ [(r', "Caught exception: " +:+ "thrown")]).
Proof.
  assert (Ht : task_resume 2 thrown_at = Throw (std_exception "thrown") thrown)
    by evaluates.
  split; [exact Ht|].
  apply (exception_kills_only_thrower throwing pid0 2%positive "thrown" thrown_at thrown);
    [run_wf|evaluates|evaluates|exact Ht].
Defined.

(** A process whose body returns at once. *)
Definition fresh : World := after [launch SpawnedApp no_args].
Definition fresh_at : World := state_of (prepare 2 fresh).
Definition finished : World := state_of (task_resume 2 fresh_at).

Lemma finished_process_is_killed_witness :
  task_done (task (process_at 2 finished)) = true ∧
  ∃ c', resume 2 fresh = Ok tt c' ∧ wf c' ∧ ¬ live c' pid0 ∧
    (∀ q, q ≠ pid0 → lookup_proc c' q = lookup_proc finished q) ∧ queue_ c' = queue_ finished.
Proof.
  assert (Hd : task_done (task (process_at 2 finished)) = true) by evaluates.
  split; [exact Hd|].
  apply (finished_process_is_killed fresh pid0 2%positive None fresh_at finished
    (process_at 2 finished));
    [run_wf|evaluates|evaluates|evaluates
    |evaluates|exact Hd].
Defined.

(** A process that goes to sleep in its first turn. *)
Definition awake : World := after [launch SleepingApp (mkArgs 100 None None)].
Definition awake_at : World := state_of (prepare 2 awake).
Definition drowsy : World := state_of (task_resume 2 awake_at).
Definition dozing : World := state_of (resume 2 awake).

Lemma suspended_process_will_wake_witness :
  rps dozing !! 2%positive =
    Some (set_lastWaiting (Some (sleep 100%Z)) (process_at 2 drowsy)) ∧
  will_wake dozing 2 pid0 (resumes (process_at 2 drowsy)) (sleep 100%Z).
Proof.
  apply (suspended_process_will_wake awake pid0 2%positive (sleep 100%Z) awake_at drowsy
    (process_at 2 awake_at));
    [run_wf|evaluates|evaluates|evaluates
    |evaluates|evaluates|evaluates
    |evaluates].
Defined.

Lemma notifying_wf : wf notifying.
Proof. run_wf. Qed.

Lemma notifying_later_wf : wf notifying_later.
Proof.
  assert (Hs : script [turn] notifying = Ok tt notifying_later) by evaluates.
  apply (steps_evolve (AtLoop, notifying) (AtLoop, notifying_later)); [|exact notifying_wf].
  apply (script_steps [turn]); [apply List.Forall_cons; [apply turn_steps|apply List.Forall_nil]|exact Hs].
Qed.

Lemma stale_items_dropped_witness :
  processQueueItem (mkItem pid1 (Some 0%N) None) notifying_later = Ok tt notifying_later.
Proof.
  apply (stale_items_dropped [] notifying_later (mkItem pid1 (Some 0%N) None) notifying_later_wf).
  vm_compute. exact I.
Defined.

(** A [Counter] that waits for its parent; its slot for results, at address 3, is
    one it does not wait for yet. *)
Definition expecting : World := after [launch Counter (mkArgs 3 (Some pid0) None); turn].
Definition result_slot : SendAddress := mkSendAddress pid0 3%positive.
Definition slot_at (s : SlotId) (c : World) : Slot unit Function message :=
  default (new_slot pid0 s) (slots c !! s).


Lemma link_is_mutual_witness :
  ∃ os, link (process_ptr (process_at 2 sending)) pid1 sending = Ok tt (set_objs os sending) ∧
    link_edge (set_objs os sending) 2 5 ∧ link_edge (set_objs os sending) 5 2.
Proof.
  assert (Hl : lookup_proc sending pid1 = Some 5%positive) by evaluates.
  pose proof (link_is_mutual [] sending 2%positive (process_at 2 sending) pid1 sending_wf) as H.
  rewrite Hl in H. apply H; evaluates.
Defined.

Definition class_at (r : Ptr) (c : World) : option classes :=
  match rps c !! r with
  | Some rp => match objs c !! process_ptr rp with
               | Some obj => Some (dynamic_class obj)
               | None => None
               end
  | None => None
  end.

Lemma makeSendAddress_branches_witness :
  makeSendAddress pid0 Listener 0 sending =
    Throw (std_exception ("Bad process type for " +:+ toString pid0)) sending.
Proof.
  assert (Hl : lookup_proc sending pid0 = Some 2%positive) by evaluates.
  pose proof (makeSendAddress_branches [] sending pid0 Listener 0 sending_wf) as H.
  rewrite Hl in H. destruct H as (rp & obj & Hr & Ho & Hbranch).
  assert (Hclass : bool_decide (dynamic_class obj = Listener) = false).
  { assert (Hc : class_at 2 sending = Some Sender) by evaluates.
    unfold class_at in Hc. rewrite Hr, Ho in Hc. injection Hc as ->. reflexivity. }
  change (is_a (dynamic_class obj) Listener) with (bool_decide (dynamic_class obj = Listener)) in Hbranch.
  rewrite Hclass in Hbranch. exact Hbranch.
Defined.


Lemma canQueue_branches_witness :
  canQueue (mkSendAddress pid1 7%positive) notifying = Halt (Undefined NullDereference).
Proof.
  assert (Hi : processes_ notifying !! 1 = Some None) by evaluates.
  pose proof (canQueue_branches [] notifying (mkSendAddress pid1 7%positive) notifying_wf) as H.
  change (N.to_nat (idx_ (sa_pid (mkSendAddress pid1 7%positive)))) with 1 in H.
  rewrite Hi in H. exact H.
Defined.

(** The slots of [expecting] as queues of the heap interface. *)
Definition stocked : World :=
  state_of (for_each (λ m, slot_push 3%positive (mkMessage m)) [PInt 1; PInt 2] expecting).

Lemma await_resume_takes_heads_witness :
  ∃ s', await_resume (makeWaitingMessages [mkSendAddress pid0 2%positive; result_slot]) stocked =
          Ok [None; Some (PInt 1)] s' ∧
        views s' [2; 3]%positive [[]; [mkMessage (PInt 2)]] ∧
        ∀ q, q ∉ [2; 3]%positive → queue_view s' q = queue_view stocked q.
Proof.
  apply (await_resume_takes_heads
    (makeWaitingMessages [mkSendAddress pid0 2%positive; result_slot]) stocked
    [[]; [mkMessage (PInt 1); mkMessage (PInt 2)]]).
  - simpl. repeat constructor; set_solver.
  - repeat constructor; vm_compute; reflexivity.
Defined.

Lemma recv_ready_or_throws_witness :
  ∃ b, await_ready (makeWaitingMessages [result_slot]) stocked = Ok b stocked ∧
    if b then
      ∃ m l' s', [mkMessage (PInt 1); mkMessage (PInt 2)] = m :: l' ∧
        await_resume_message (makeWaitingMessages [result_slot]) stocked = Ok (val m) s' ∧
        queue_view s' 3%positive = Some l'
    else
      await_resume_message (makeWaitingMessages [result_slot]) stocked =
        Throw (std_exception "Message was not ready") stocked.
Proof.
  apply (recv_ready_or_throws result_slot stocked [mkMessage (PInt 1); mkMessage (PInt 2)]).
  vm_compute. reflexivity.
Defined.

(** ** Backpressure *)

(** A [Listener] with [n] messages in its slot, and a process beside it whose coroutine
    is in state [st]. *)
Definition listener_slot : SendAddress := mkSendAddress pid0 2%positive.
Definition asking (n : nat) (t : ProcessTask) : World :=
  with_task 5%positive t
    (state_of (for_each (λ m, slot_push (sa_slot listener_slot) (mkMessage m)) (repeat (PInt 0) n)
      (after [launch Listener no_args; launch SpawnedApp no_args]))).
Definition stock (n : nat) : Slot unit Function payload :=
  Nat.iter n (push_slot (mkMessage (PInt 0))) (new_slot pid0 2%positive).
Definition end_of_send : itree ProcessE values := co_return VVoid.

Lemma asking_addressed n t :
  bool_decide (is_Some (rps (asking n t) !! 3%positive)) = true →
  processes_ (asking n t) !! 0 = Some (Some 3%positive) →
  version_ (pid (process_at 3%positive (asking n t))) = 0%N →
  slots (asking n t) !! 2%positive = Some (stock n) → addressed (asking n t) listener_slot (stock n).
Proof. intros Hr%process_at_run Hp Hv Hs. by eexists 3%positive, _. Qed.

Lemma asking_task n t :
  bool_decide (is_Some (rps (asking n t) !! 5%positive)) = true → task_at 5%positive (asking n t) = Some t.
Proof.
  intros His%bool_decide_eq_true. unfold task_at, asking, with_task in *. simpl in *.
  rewrite lookup_alter_eq in *. by destruct (_ !! _); [|destruct His].
Qed.

(** The coroutine of a process, suspended in a [sendThrottled] on the throttle promise. *)
Definition throttled : ProcessTask :=
  mkProcessTask _ _ (Some 1%positive)
    {[1%positive := mkCoroutine _ _
        (set_waiting (Some (WaitingFuture (ThrottleOf 2%positive))) (new_promise_base ProcessPromise))
        (Suspended (AtAwait (WaitingFuture (ThrottleOf 2%positive))
          (λ _, co_bind (call (OpCanQueue listener_slot))
                  (sending_loop listener_slot (PInt 7) end_of_send)))) []]} 2%positive.

Lemma throttled_waits :
  waits_to_send throttled 1%positive (WaitingFuture (ThrottleOf 2%positive)) listener_slot (PInt 7)
    end_of_send.
Proof.
  eexists _, _. split_and!; [reflexivity..|]. intros v. eexists. split; [cbn; reflexivity|].
  intros o. by left.
Qed.

(** With three messages in the slot and a short queue the message is queued. *)
Lemma throttled_send_starts_witness :
  bool_decide (10 < length (queue_ (asking 3 (alone Running 2%positive)))) = false ∧
  asked 3 5%positive 4%positive 1%positive listener_slot (PInt 7) end_of_send (stock 3)
    (alone Running 2%positive) (process_coroutine Running) (asking 3 (alone Running 2%positive))
    (run_body 4 5%positive 4%positive 1%positive (sendThrottled listener_slot (PInt 7) ;;! end_of_send)
       (asking 3 (alone Running 2%positive))).
Proof.
  assert (Hq : bool_decide (10 < length (queue_ (asking 3 (alone Running 2%positive)))) = false) by evaluates.
  split; [exact Hq|].
  pose proof (throttled_send_starts 4 5%positive 4%positive 1%positive listener_slot (PInt 7) end_of_send
    (stock 3) (alone Running 2%positive) (process_coroutine Running)
    (asking 3 (alone Running 2%positive))) as H.
  cbv zeta in H. rewrite Hq in H. apply H.
  - apply asking_task. vm_compute. reflexivity.
  - reflexivity.
  - by intros co q [= <-].
  - apply asking_addressed; vm_compute; reflexivity.
  - lia.
Defined.

(** With ten it waits again. *)
Lemma throttled_send_resumes_witness :
  ∃ t', resume_handle 3 5%positive 4%positive 1%positive (asking 10 throttled) =
      Ok tt (with_task 5%positive t' (asking 10 throttled)) ∧
    waits_to_send t' 1%positive (WaitingFuture (ThrottleOf 2%positive)) listener_slot (PInt 7) end_of_send ∧
    next_to_run t' 1%positive.
Proof.
  destruct (throttled_send_resumes (PB:=bodies) 3 5%positive 4%positive 1%positive
    (WaitingFuture (ThrottleOf 2%positive)) listener_slot (PInt 7) end_of_send (stock 10) throttled
    (asking 10 throttled)) as (co & _ & H); [|apply throttled_waits|by right; eexists| | |lia|exact H].
  - apply asking_task. vm_compute. reflexivity.
  - by intros co q [= <-].
  - apply asking_addressed; vm_compute; reflexivity.
Defined.
