(* ===== verification/Findings.v ===== *)
(** * Behaviours the code does not intend

    Runs of the model, and small theorems, that show where the code departs from
    what it means to do. *)

From ITree Require Core.ITreeDefinition Indexed.Sum.
From S2P Require Import Prelude.
From S2P Require Import BaseTypes.
From S2P Require Import Future.
From S2P Require Import Slot.
From S2P Require Import Waiting.
From S2P Require Import IoService.
From S2P Require Import Process.
From S2P Require Import Context.
From S2P Require Import HeapFacts.
From S2P Require Import Lifecycle.
From S2P Require Import ContextFacts.
From S2P Require Import LifecycleFacts.
From S2P Require Import Destruction.
From S2P Require Import Scheduler.
From S2P Require Import Steps.
From S2P Require Import Safety.
From S2P Require Import Timers.
From S2P Require Import Delivery.
From S2P Require Import Operations.
From S2P Require Import Coroutine.
From S2P Require Import Programs.
From S2P Require Import Witnesses.

(** ** Pids *)

(** [Pid::toString] writes the index and the version without a separator, so
    two different pids print alike. *)
Lemma toString_not_injective :
  mkPid 1 23 ≠ mkPid 12 3 ∧ toString (mkPid 1 23) = toString (mkPid 12 3).
Proof. split; [done|]. vm_compute. reflexivity. Qed.

(** ** Promises *)

(** A promise keeps one continuation: of two processes that wait for the same
    throttle promise, only the second is woken. *)
Lemma second_waiter_replaces_first {E F} (e1 e2 : E) (f1 f2 : F) :
  (setIfUnset (setContinuation e2 f2 (setContinuation e1 f1 new_promise).1).1).2 = [(e2, f2)] ∧
  (setContinuation e1 f1 (new_promise (E:=E) (F:=F))).2 = [] ∧
  (setContinuation e2 f2 (setContinuation e1 f1 (new_promise (E:=E) (F:=F))).1).2 = [].
Proof. done. Qed.

(** ** Runs that never end *)

(** Nothing is queued or to be destroyed, and the service has stopped. *)
Definition stalled (c : World) : bool :=
  match queue_ c, toDestroy_ c with
  | [], [] => Sim.stopped (ioService_ c)
  | _, _ => false
  end.

Lemma call_io_stopped (c : World) f :
  f (ioService_ c) = (ioService_ c, None) → call_io f c = Ok None c.
Proof. unfold call_io. intros ->. by destruct c. Qed.

Lemma stalled_iteration (c : World) fuel : stalled c = true → iteration fuel c = Ok tt c.
Proof.
  unfold stalled. intros Hs. destruct (queue_ c) eqn:Hq; [|done].
  destruct (toDestroy_ c) eqn:Hd; [|done].
  assert (Hrun : call_io io_run_one c = Ok None c).
  { apply call_io_stopped. simpl. unfold Sim.run_one. by rewrite Hs. }
  assert (Hpoll : call_io io_poll_one c = Ok None c).
  { apply call_io_stopped. simpl. unfold Sim.poll_one. by rewrite Hs. }
  unfold iteration, gets. unfold bind at 1. rewrite Hq.
  assert (Hloop : poll_loop fuel c = Ok tt c).
  { rewrite poll_loop_eq. rewrite (bind_run (poll fuel) _ c false c); [done|].
    destruct fuel; simpl; by rewrite (bind_run _ _ _ _ _ Hpoll). }
  rewrite (bind_run _ _ c tt c).
  - unfold destroy_loop. rewrite (bind_run get _ c c c) by done.
    destruct (length (toDestroy_ c) + length (processes_ c)); simpl; unfold gets;
      unfold bind at 1; by rewrite Hd.
  - unfold bind at 1, run_one. by rewrite (bind_run _ _ _ _ _ Hrun).
Qed.

(** [run] stays in a stalled state for ever. *)
Lemma stalled_run (c : World) n :
  stalled c = true → length (processes_ c) ≠ length (tombstones_ c) →
  run n c = Halt OutOfFuel.
Proof.
  intros Hs Hne. induction n as [|n IH]; simpl; unfold bind at 1, get;
    rewrite bool_decide_eq_false_2 by done; [done|].
  by rewrite (bind_run _ _ _ _ _ (stalled_iteration _ _ Hs)).
Qed.

(** A process that naps, yields and naps again, in its second nap. *)
Definition napping : World := after [launch Napper no_args; turn; turn; turn; turn].


(** A process whose constructor links to a dead pid, and throws. *)
Definition unlucky : World :=
  after [launch Unlucky (mkArgs 0 (Some (mkPid 5 0)) None)].
Definition unlucky_later : World := state_of (turn unlucky).


(** ** A use after free *)

(** A [Producer] that will wait for the throttle promise of its [Consumer], and a
    process that will kill it. *)
Definition backed_up : World :=
  after [launch Producer no_args; launch Killer (mkArgs 20 (Some pid0) None)].

(** A continuation on a promise of another process captures the process that
    waits: when that one is killed and freed, and then the other takes a message,
    the run resumes freed memory; without the kill the same run ends with
    everything freed. *)
Lemma killed_waiter_is_resumed :
  run 100 backed_up = Halt (Undefined UseAfterFree) ∧
  clean_exit (run 100 (after [launch Producer no_args])) = true.
Proof. split; vm_compute; reflexivity. Qed.

(** ** Sub-tasks *)

(** A generator that suspends and then ends without another value resumes
    nobody ([final_suspend] of its promise is [suspend_always]): the process waiting
    for its next value waits for nothing, and the run dereferences the null
    [lastWaiting]. A generator that yields last, as in the tests, is fine. *)
Lemma ended_generator_loses_reader :
  main_ LateReader no_args 300 = Halt (Undefined NullDereference) ∧
  clean_exit (main_ GenStackInversion no_args 300) = true.
Proof. split; vm_compute; reflexivity. Qed.

(** A process that throws after an awaited method task has suspended unwinds
    through the frame of that task, which it has destroyed itself; when the task
    throws, or has not suspended, the run ends with everything freed. *)
Lemma throw_unwinds_freed_task :
  main_ LateThrower no_args 300 = Halt (Undefined UseAfterFree) ∧
  clean_exit (main_ MethodThrows no_args 300) = true ∧
  clean_exit (main_ GenThrows no_args 300) = true.
Proof. split_and!; vm_compute; reflexivity. Qed.

(** ** The programs of the repository end *)

Example count_example_ends : clean_exit (main_ Counter (mkArgs 20 None None) 200) = true.
Proof. vm_compute. reflexivity. Qed.

Example sleep_profiler_ends : clean_exit (main_ SleepProfiler (mkArgs 20 None None) 200) = true.
Proof. vm_compute. reflexivity. Qed.

Example back_pressure_example_ends : clean_exit (main_ Sender (mkArgs 40 None None) 600) = true.
Proof. vm_compute. reflexivity. Qed.

Example notify_test_ends : clean_exit (main_ NotifyApp no_args 200) = true.
Proof. vm_compute. reflexivity. Qed.

(** The four sub-tasks of [MethodExample] are all started before the first is
    awaited, but a timer is set only for what the process itself waits for: they
    sleep one after another, 400 + 300 + 200 + 100 milliseconds. *)
Example method_test_ends :
  let o := main_ MethodExample no_args 200 in
  clean_exit o = true ∧ Sim.clock (ioService_ (state_of o)) = 1000%Z.
Proof. split; vm_compute; reflexivity. Qed.

(** [TEST(Basic, Echo)]: [EchoApp] ends because the last [ThrowingApp] is linked to
    it; a failed expectation would stop the run. *)
Definition echo_test (fuel : nat) : outcome World unit :=
  (let! pid := spawn EchoApp no_args in
   let! echo := makeSendAddress pid EchoApp 0 in
   spawn SenderApp (mkArgs 0 None (Some echo)) ;;;
   run fuel) initial.

Example echo_test_ends : clean_exit (echo_test 200) = true.
Proof. vm_compute. reflexivity. Qed.

(** The processes of methodTask.cpp and genTask.cpp end, with every expectation
    met and everything freed. *)
Example task_tests_end :
  forallb (λ c, clean_exit (main_ c (mkArgs 20 None None) 300))
    [MethodCounter; MethodBasic; MethodThrows; MethodStackInversion; GenBasic; GenMultiTypes;
     GenMultiTask; GenRecursive; GenThrows; GenDestroy; ForEach; GenStackInversion] = true.
Proof. vm_compute. reflexivity. Qed.
