(* ===== verification/Buffers.v ===== *)
(** * Network buffers

    Models [Buffer], [Buff] and [BufferCollection] of [eslang_io/Tcp.h]: byte
    storage shared through an intrusive reference count, and windows into it. The
    storage lives on a heap, so that the destruction of the last reference frees
    it. [size_t] and [uint32_t] values are [N] with their wrap-around. *)

From Stdlib Require Import Strings.Byte.
From S2P Require Import Prelude.
From S2P Require Import BaseTypes.

(** ** Storage *)

(** [Buffer::Buff]. *)
Record Buff := mkBuff {
  data_ : list byte;
  refs_ : N;
}.

Record Heap := mkHeap {
  buffs : gmap Ptr Buff;
  next_buff : Ptr;
}.

Definition u32_modulus : N := 2 ^ 32.
Definition wrap32 (n : N) : N := n `mod` u32_modulus.

Definition load_buff (p : Ptr) : M Heap Buff := λ h,
  match buffs h !! p with
  | Some b => Ok b h
  | None => Halt (Undefined UseAfterFree)
  end.

Definition store_buff (p : Ptr) (b : Buff) : M Heap unit :=
  modify (λ h, mkHeap (<[p := b]> (buffs h)) (next_buff h)).

Definition delete_buff (p : Ptr) : M Heap unit :=
  modify (λ h, mkHeap (delete p (buffs h)) (next_buff h)).

(** [new Buff(...)]: nobody refers to it yet. *)
Definition new_Buff (data : list byte) : M Heap Ptr := λ h,
  Ok (next_buff h)
     (mkHeap (<[next_buff h := mkBuff data 0]> (buffs h)) (Pos.succ (next_buff h))).

Definition intrusive_ptr_add_ref (p : Ptr) : M Heap unit :=
  let! b := load_buff p in
  store_buff p (mkBuff (data_ b) (wrap32 (refs_ b + 1))).

Definition intrusive_ptr_release (p : Ptr) : M Heap unit :=
  let! b := load_buff p in
  let refs := wrap32 (refs_ b + (u32_modulus - 1)) in
  if bool_decide (refs = 0%N) then delete_buff p
  else store_buff p (mkBuff (data_ b) refs).

(** [Buff::size]. *)
Definition buff_size (b : Buff) : N := wrap64 (N.of_nat (length (data_ b))).

(** [Buff::append(void*, size_t)] has an empty body. *)
Definition buff_append (b : Buff) (data : list byte) : Buff := b.

(** ** Windows *)

Record Buffer := mkBuffer {
  buffer_ : Ptr;
  offset_ : N;
  length_ : N;
}.

#[export] Instance Buffer_eq_dec : EqDecision Buffer.
Proof. solve_decision. Defined.

(** [data()] and [size()]: what a reader of the window gets. *)
Definition range (b : Buffer) : M Heap (list byte) :=
  let! s := load_buff (buffer_ b) in
  if bool_decide (N.to_nat (offset_ b) + N.to_nat (length_ b) ≤ length (data_ s))
  then ret (take (N.to_nat (length_ b)) (drop (N.to_nat (offset_ b)) (data_ s)))
  else undefined OutOfRange.

(** [Buffer(BuffIP b)]: the argument, already counted, becomes the member. *)
Definition construct_Buffer (p : Ptr) : M Heap Buffer :=
  let! s := load_buff p in
  ret (mkBuffer p 0 (buff_size s)).

(** [BuffIP b(new Buff(...)); return Buffer(b);]: the local reference is counted,
    copied for the constructor, and released. *)
Definition make (data : list byte) : M Heap Buffer :=
  let! b := new_Buff data in
  intrusive_ptr_add_ref b ;;;
  intrusive_ptr_add_ref b ;;;
  let! res := construct_Buffer b in
  intrusive_ptr_release b ;;;
  ret res.

Definition makeCopy (data : list byte) : M Heap Buffer := make data.

(** The implicit copy constructor and destructor. *)
Definition copy_Buffer (b : Buffer) : M Heap Buffer :=
  intrusive_ptr_add_ref (buffer_ b) ;;;
  ret b.

Definition destroy_Buffer (b : Buffer) : M Heap unit := intrusive_ptr_release (buffer_ b).

(** The assertion ends the program. *)
Definition consume (n : N) (b : Buffer) : M Heap Buffer :=
  if bool_decide (n ≤ length_ b)%N
  then ret (mkBuffer (buffer_ b) (wrap64 (offset_ b + n)) (length_ b - n))
  else stop Terminated.

Definition append (b : Buffer) (other : Buffer) : M Heap Buffer :=
  let! s := load_buff (buffer_ b) in
  let! o := load_buff (buffer_ other) in
  store_buff (buffer_ b) (buff_append s (data_ o)) ;;;
  ret (mkBuffer (buffer_ b) (offset_ b) (wrap64 (length_ b + length_ other))).

(** ** Collections *)

Record BufferCollection := mkBufferCollection { buffers : list Buffer }.

(** The length [combine] reserves. *)
Definition total_size (bs : list Buffer) : N :=
  foldl (λ acc b, wrap64 (acc + length_ b)) 0%N bs.

Fixpoint ranges (bs : list Buffer) : M Heap (list byte) :=
  match bs with
  | [] => ret []
  | b :: bs' =>
      let! v := range b in
      let! vs := ranges bs' in
      ret (v ++ vs)
  end.

Definition combine (c : BufferCollection) : M Heap Buffer :=
  let! v := ranges (buffers c) in
  make v.

(** ** Reading back what was put in *)

(** The window [b] holds [v]. *)
Definition holds (h : Heap) (b : Buffer) (v : list byte) : Prop :=
  ∃ s, buffs h !! buffer_ b = Some s ∧
       N.to_nat (offset_ b) + N.to_nat (length_ b) ≤ length (data_ s) ∧
       v = take (N.to_nat (length_ b)) (drop (N.to_nat (offset_ b)) (data_ s)).

(** Storage is allocated below [next_buff] and no longer than memory. *)
Definition heap_wf (h : Heap) : Prop :=
  ∀ p s, buffs h !! p = Some s →
    (p < next_buff h)%positive ∧ (N.of_nat (length (data_ s)) < u64_modulus)%N.

Lemma range_holds h b v : holds h b v → range b h = Ok v h.
Proof.
  intros (s & Hs & Hb & ->). unfold range, load_buff, bind. rewrite Hs.
  by rewrite bool_decide_eq_true_2.
Qed.

Lemma range_Ok h b v h' : range b h = Ok v h' → holds h b v ∧ h' = h.
Proof.
  unfold range, load_buff, bind. destruct (buffs h !! buffer_ b) as [s|] eqn:Hs; [|done].
  case_bool_decide; [|done]. intros [= <- <-]. split; [by exists s|done].
Qed.

(** Changing reference counts, or allocating, leaves contents alone. *)
Definition same_data (h h' : Heap) : Prop :=
  ∀ p s, buffs h !! p = Some s → ∃ s', buffs h' !! p = Some s' ∧ data_ s' = data_ s.

#[export] Instance same_data_preorder : PreOrder same_data.
Proof.
  split; [intros h p s; by eexists|]. intros h1 h2 h3 H12 H23 p s Hs.
  destruct (H12 p s Hs) as (s2 & Hs2 & <-). by apply H23.
Qed.

Lemma holds_same_data h h' b v : same_data h h' → holds h b v → holds h' b v.
Proof.
  intros Hd (s & Hs & Hb & Hv). destruct (Hd _ _ Hs) as (s' & Hs' & Heq).
  exists s'. by rewrite Heq.
Qed.

(** The heap after [make]. *)
Definition with_new (data : list byte) (h : Heap) : Heap :=
  mkHeap (<[next_buff h := mkBuff data 1]> (buffs h)) (Pos.succ (next_buff h)).

Lemma make_eq data h :
  make data h =
    Ok (mkBuffer (next_buff h) 0 (wrap64 (N.of_nat (length data)))) (with_new data h).
Proof.
  unfold make, construct_Buffer, intrusive_ptr_add_ref, intrusive_ptr_release, load_buff,
    store_buff, modify, bind, new_Buff, ret, with_new, buff_size.
  repeat (simpl; rewrite ?lookup_insert_eq, ?insert_insert_eq). done.
Qed.

Lemma make_range data n h :
  (N.of_nat (length data) < u64_modulus)%N →
  let h' := mkHeap (<[next_buff h := mkBuff data n]> (buffs h)) (Pos.succ (next_buff h)) in
  range (mkBuffer (next_buff h) 0 (wrap64 (N.of_nat (length data)))) h' = Ok data h'.
Proof.
  intros Hd. apply range_holds. eexists. simpl. rewrite lookup_insert_eq. split; [done|]. simpl.
  unfold wrap64. rewrite N.mod_small, Nat2N.id by done. split; [lia|].
  by rewrite drop_0, firstn_all.
Qed.

Lemma with_new_same_data data h : heap_wf h → same_data h (with_new data h).
Proof.
  intros Hwf p s Hs. exists s. split; [|done]. simpl. rewrite lookup_insert_ne; [done|].
  destruct (Hwf p s Hs). lia.
Qed.

Lemma with_new_wf data h :
  heap_wf h → (N.of_nat (length data) < u64_modulus)%N → heap_wf (with_new data h).
Proof.
  intros Hwf Hd p s. simpl. destruct (decide (p = next_buff h)) as [->|Hne].
  - rewrite lookup_insert_eq. intros [= <-]. simpl. split; [lia|done].
  - rewrite lookup_insert_ne by done. intros Hs. destruct (Hwf p s Hs). split; [lia|done].
Qed.

(** C27: copying bytes into a buffer and reading the buffer gives the bytes back, and
    leaves every other buffer as it was. *)
Theorem makeCopy_roundtrip data h :
  heap_wf h → (N.of_nat (length data) < u64_modulus)%N →
  ∃ b h', makeCopy data h = Ok b h' ∧ range b h' = Ok data h' ∧
    (∀ b' v, holds h b' v → holds h' b' v) ∧ heap_wf h'.
Proof.
  intros Hwf Hd. eexists _, _. split; [apply make_eq|].
  split; [|split; [|by apply with_new_wf]].
  - by apply make_range.
  - intros b' v. by apply holds_same_data, with_new_same_data.
Qed.

Lemma consume_window h b v n :
  heap_wf h → holds h b v →
  if bool_decide (n ≤ length_ b)%N
  then ∃ b', consume n b h = Ok b' h ∧ buffer_ b' = buffer_ b ∧ holds h b' (drop (N.to_nat n) v)
  else consume n b h = Halt Terminated.
Proof.
  intros Hwf (s & Hs & Hb & ->). unfold consume. case_bool_decide as Hn; [|done].
  eexists. split; [done|]. split; [done|]. exists s. simpl. split; [done|].
  destruct (Hwf _ _ Hs) as [_ Hsize].
  assert (Hw : wrap64 (offset_ b + n) = (offset_ b + n)%N).
  { unfold wrap64. apply N.mod_small. lia. }
  rewrite Hw, N2Nat.inj_add. split; [lia|].
  rewrite skipn_firstn_comm, drop_drop. f_equal. lia.
Qed.

(** Consuming [n] bytes of a window leaves the bytes after them; consuming more
    than there are fails the assertion. *)
Theorem consume_drops h b v n :
  heap_wf h → holds h b v →
  if bool_decide (n ≤ length_ b)%N
  then ∃ b', consume n b h = Ok b' h ∧ range b' h = Ok (drop (N.to_nat n) v) h
  else consume n b h = Halt Terminated.
Proof.
  intros Hwf Hv. pose proof (consume_window h b v n Hwf Hv) as Hc. case_bool_decide; [|done].
  destruct Hc as (b' & Hc & _ & Hb'). exists b'. split; [done|by apply range_holds].
Qed.

Lemma ranges_concat h bs vs : Forall2 (holds h) bs vs → ranges bs h = Ok (concat vs) h.
Proof.
  induction 1 as [|b v bs vs Hb _ IH]; [done|]. simpl.
  rewrite (bind_run _ _ _ _ _ (range_holds _ _ _ Hb)). by rewrite (bind_run _ _ _ _ _ IH).
Qed.

Lemma holds_length h b v : holds h b v → length v = N.to_nat (length_ b).
Proof. intros (s & _ & Hb & ->). rewrite length_take, length_drop. lia. Qed.

Lemma combine_eq h c vs :
  Forall2 (holds h) (buffers c) vs →
  combine c h = Ok (mkBuffer (next_buff h) 0 (wrap64 (N.of_nat (length (concat vs)))))
                   (with_new (concat vs) h).
Proof.
  intros Hh. unfold combine. rewrite (bind_run _ _ _ _ _ (ranges_concat _ _ _ Hh)). apply make_eq.
Qed.

Lemma total_size_concat h bs vs acc :
  Forall2 (holds h) bs vs → (acc + N.of_nat (length (concat vs)) < u64_modulus)%N →
  foldl (λ acc b, wrap64 (acc + length_ b)) acc bs = (acc + N.of_nat (length (concat vs)))%N.
Proof.
  intros Hh. revert acc. induction Hh as [|b v bs vs Hb _ IH]; intros acc Hacc; simpl in *; [lia|].
  pose proof (holds_length _ _ _ Hb) as Hl. rewrite length_app in *. rewrite IH.
  - unfold wrap64. rewrite N.mod_small; lia.
  - unfold wrap64. rewrite N.mod_small; lia.
Qed.

(** Combining the pieces of a stream gives a buffer with their bytes, in order;
    [combine] reserves exactly its size. *)
Theorem combine_concatenates h c vs :
  heap_wf h → Forall2 (holds h) (buffers c) vs →
  (N.of_nat (length (concat vs)) < u64_modulus)%N →
  ∃ b h', combine c h = Ok b h' ∧ range b h' = Ok (concat vs) h' ∧
    length_ b = total_size (buffers c) ∧ (∀ b' v, holds h b' v → holds h' b' v).
Proof.
  intros Hwf Hh Hlen. eexists _, _. split; [by apply combine_eq|]. split_and!.
  - by apply make_range.
  - unfold total_size. rewrite (total_size_concat _ _ _ 0 Hh) by lia. simpl.
    unfold wrap64. rewrite N.mod_small; lia.
  - intros b' v. by apply holds_same_data, with_new_same_data.
Qed.

(** C39: appending to a buffer that reaches the end of its storage yields one that
    reads beyond it: [Buff::append] stores nothing. *)
Theorem append_reads_out_of_bounds h b o v w :
  heap_wf h → holds h b v → holds h o w → w ≠ [] →
  (∀ s, buffs h !! buffer_ b = Some s →
    N.to_nat (offset_ b) + N.to_nat (length_ b) = length (data_ s)) →
  (length_ b + length_ o < u64_modulus)%N →
  ∃ b', append b o h = Ok b' h ∧ range b' h = Halt (Undefined OutOfRange).
Proof.
  intros Hwf (s & Hs & Hb & _) (s' & Hs' & Hb' & ->) Hw Hend Hlen.
  unfold append, load_buff, bind, store_buff, modify, buff_append, ret. rewrite Hs, Hs'.
  rewrite insert_id by done. eexists. split; [by destruct h|].
  unfold range, load_buff, bind. simpl. rewrite Hs.
  assert (N.to_nat (length_ o) ≠ 0) by (intros Hz; apply Hw; by rewrite Hz).
  unfold wrap64. rewrite N.mod_small by done. specialize (Hend _ Hs).
  rewrite bool_decide_eq_false_2 by lia. done.
Qed.

(** ** Reference counts *)

(** The buffers an owner holds, one entry per reference. *)
Definition references (p : Ptr) (bs : list Buffer) : nat := length (filter (λ b, buffer_ b = p) bs).

(** Every storage is counted by its references, freed when there are none, and
    every window lies within its storage. *)
Record counted (bs : list Buffer) (h : Heap) : Prop := {
  ct_wf : heap_wf h;
  ct_refs p s : buffs h !! p = Some s → refs_ s = N.of_nat (references p bs);
  ct_owned p s : buffs h !! p = Some s → references p bs ≠ 0;
  ct_windows b : b ∈ bs → ∃ v, holds h b v;
}.

(** What owners of buffers do. *)
Inductive BufOp :=
  | MakeCopy (data : list byte)
  | Copy (i : nat)
  | Destroy (i : nat)
  | Consume (n : N) (i : nat)
  | Combine (l : list nat).

Definition exec_buf (o : BufOp) (bs : list Buffer) : M Heap (list Buffer) :=
  match o with
  | MakeCopy data => let! b := makeCopy data in ret (b :: bs)
  | Copy i =>
      match bs !! i with
      | Some b => let! b' := copy_Buffer b in ret (b' :: bs)
      | None => ret bs
      end
  | Destroy i =>
      match bs !! i with
      | Some b => destroy_Buffer b ;;; ret (delete i bs)
      | None => ret bs
      end
  | Consume n i =>
      match bs !! i with
      | Some b => let! b' := consume n b in ret (<[i := b']> bs)
      | None => ret bs
      end
  | Combine l =>
      let! b := combine (mkBufferCollection (omap (λ i, bs !! i) l)) in
      ret (b :: bs)
  end.

(** What is allocated fits into memory. *)
Definition op_fits (o : BufOp) (bs : list Buffer) : Prop :=
  match o with
  | MakeCopy data => (N.of_nat (length data) < u64_modulus)%N
  | Combine l =>
      (N.of_nat (list_sum ((λ b, N.to_nat (length_ b)) <$> omap (λ i, bs !! i) l)) < u64_modulus)%N
  | _ => True
  end.

Lemma references_cons p b bs :
  references p (b :: bs) = (if decide (buffer_ b = p) then 1 else 0) + references p bs.
Proof. unfold references. rewrite filter_cons. by case_decide. Qed.

Lemma references_delete p bs i b :
  bs !! i = Some b →
  references p bs = (if decide (buffer_ b = p) then 1 else 0) + references p (delete i bs).
Proof.
  revert i. induction bs as [|b' bs IH]; intros [|i] Hi; simplify_eq/=.
  - apply references_cons.
  - rewrite !references_cons, (IH _ Hi). lia.
Qed.

Lemma references_insert p bs i b b' :
  bs !! i = Some b → buffer_ b' = buffer_ b → references p (<[i := b']> bs) = references p bs.
Proof.
  revert i. induction bs as [|b0 bs IH]; intros [|i] Hi Heq; simplify_eq/=.
  - by rewrite !references_cons, Heq.
  - by rewrite !references_cons, IH.
Qed.

Lemma references_in b bs : b ∈ bs → references (buffer_ b) bs ≠ 0.
Proof.
  intros (i & Hi)%list_elem_of_lookup. rewrite (references_delete _ _ _ _ Hi).
  rewrite decide_True by done. lia.
Qed.

Lemma references_length p bs : references p bs ≤ length bs.
Proof. unfold references. apply length_filter. Qed.

(** A new storage with one reference. *)
Lemma counted_new bs h data :
  counted bs h → (N.of_nat (length data) < u64_modulus)%N →
  counted (mkBuffer (next_buff h) 0 (wrap64 (N.of_nat (length data))) :: bs) (with_new data h).
Proof.
  intros [Hwf Hrefs Howned Hwin] Hd.
  assert (Hfresh : references (next_buff h) bs = 0).
  { destruct (references (next_buff h) bs) eqn:Hr; [done|]. exfalso.
    assert (∃ b, b ∈ bs ∧ buffer_ b = next_buff h) as (b & Hb & Heq).
    { unfold references in Hr. destruct (filter _ bs) as [|b l] eqn:Hf; [done|]. exists b.
      assert (Hin : b ∈ filter (λ b, buffer_ b = next_buff h) bs) by (rewrite Hf; left).
      by apply list_elem_of_filter in Hin as [? ?]. }
    destruct (Hwin b Hb) as (v & s & Hs & _). rewrite Heq in Hs. destruct (Hwf _ _ Hs). lia. }
  split.
  - by apply with_new_wf.
  - intros p s. rewrite references_cons. simpl. destruct (decide (next_buff h = p)) as [<-|Hne].
    + rewrite lookup_insert_eq, Hfresh. by intros [= <-].
    + rewrite lookup_insert_ne by done. apply Hrefs.
  - intros p s. rewrite references_cons. simpl. destruct (decide (next_buff h = p)) as [<-|Hne]; [done|].
    rewrite lookup_insert_ne by done. apply Howned.
  - intros b [->|Hb]%elem_of_cons.
    + eexists. apply range_Ok with (with_new data h). apply range_holds. eexists. simpl.
      rewrite lookup_insert_eq. split; [done|]. simpl. unfold wrap64.
      rewrite N.mod_small, Nat2N.id by done. split; [lia|done].
    + destruct (Hwin b Hb) as [v Hv]. exists v. by apply (holds_same_data h), Hv; apply with_new_same_data.
Qed.

Lemma counted_lookup bs h b :
  counted bs h → b ∈ bs →
  ∃ s, buffs h !! buffer_ b = Some s ∧ refs_ s = N.of_nat (references (buffer_ b) bs).
Proof.
  intros C Hb. destruct (ct_windows _ _ C b Hb) as (v & s & Hs & _).
  exists s. split; [done|by apply (ct_refs _ _ C)].
Qed.

(** Replacing a storage by one with the same data. *)
Lemma same_data_insert h p s s' :
  buffs h !! p = Some s → data_ s' = data_ s →
  same_data h (mkHeap (<[p := s']> (buffs h)) (next_buff h)).
Proof.
  intros Hs Hd q t Ht. simpl. destruct (decide (p = q)) as [<-|].
  - rewrite lookup_insert_eq. exists s'. by simplify_eq.
  - rewrite lookup_insert_ne by done. by exists t.
Qed.

Lemma heap_wf_insert h p s s' :
  heap_wf h → buffs h !! p = Some s → data_ s' = data_ s →
  heap_wf (mkHeap (<[p := s']> (buffs h)) (next_buff h)).
Proof.
  intros Hwf Hs Hd q t. simpl. destruct (decide (p = q)) as [<-|].
  - rewrite lookup_insert_eq. intros [= <-]. rewrite Hd. by apply Hwf.
  - rewrite lookup_insert_ne by done. apply Hwf.
Qed.

Lemma counted_copy bs h b :
  counted bs h → b ∈ bs → (N.of_nat (length bs) + 1 < u32_modulus)%N →
  ∃ h', copy_Buffer b h = Ok b h' ∧ counted (b :: bs) h'.
Proof.
  intros C Hb Hlen. destruct (counted_lookup _ _ _ C Hb) as (s & Hs & Hrefs).
  pose proof (references_length (buffer_ b) bs) as Hle. destruct C as [Hwf Hr Ho Hw].
  set (s' := mkBuff (data_ s) (wrap32 (refs_ s + 1))).
  exists (mkHeap (<[buffer_ b := s']> (buffs h)) (next_buff h)). split.
  { unfold copy_Buffer, intrusive_ptr_add_ref, load_buff, store_buff, modify, bind, ret. by rewrite Hs. }
  split.
  - by eapply heap_wf_insert.
  - intros p t. rewrite references_cons. simpl. destruct (decide (buffer_ b = p)) as [<-|].
    + rewrite lookup_insert_eq. intros [= <-]. simpl. rewrite Hrefs. unfold wrap32.
      rewrite N.mod_small; lia.
    + rewrite lookup_insert_ne by done. apply Hr.
  - intros p t. rewrite references_cons. simpl. destruct (decide (buffer_ b = p)); [done|].
    rewrite lookup_insert_ne by done. apply Ho.
  - intros b' Hb'. assert (Hin : b' ∈ bs) by (apply elem_of_cons in Hb' as [->|]; done).
    destruct (Hw b' Hin) as [v Hv]. exists v. by apply (holds_same_data h), Hv; eapply same_data_insert.
Qed.

Lemma wrap32_pred n : (0 < n < u32_modulus)%N → wrap32 (n + (u32_modulus - 1)) = (n - 1)%N.
Proof.
  intros Hn. unfold wrap32. replace (n + (u32_modulus - 1))%N with ((n - 1) + 1 * u32_modulus)%N by lia.
  rewrite N.Div0.mod_add, N.mod_small; lia.
Qed.

Lemma counted_release bs h i b :
  counted bs h → bs !! i = Some b → (N.of_nat (length bs) < u32_modulus)%N →
  ∃ h', destroy_Buffer b h = Ok tt h' ∧ counted (delete i bs) h'.
Proof.
  intros C Hi Hlen. assert (Hb : b ∈ bs) by (apply list_elem_of_lookup; by exists i).
  destruct (counted_lookup _ _ _ C Hb) as (s & Hs & Hrefs).
  pose proof (references_length (buffer_ b) bs) as Hle.
  pose proof (references_delete (buffer_ b) _ _ _ Hi) as Hdel. rewrite decide_True in Hdel by done.
  destruct C as [Hwf Hr Ho Hw].
  assert (Hother : ∀ p, buffer_ b ≠ p → references p (delete i bs) = references p bs).
  { intros p Hp. rewrite (references_delete p _ _ _ Hi), decide_False by done. done. }
  set (refs := wrap32 (refs_ s + (u32_modulus - 1))).
  assert (Hrefs' : refs = N.of_nat (references (buffer_ b) (delete i bs))).
  { unfold refs. rewrite wrap32_pred; lia. }
  assert (Hrun : destroy_Buffer b h =
    if bool_decide (refs = 0%N) then delete_buff (buffer_ b) h
    else store_buff (buffer_ b) (mkBuff (data_ s) refs) h).
  { unfold destroy_Buffer, intrusive_ptr_release, load_buff, bind. rewrite Hs.
    fold refs. by case_bool_decide. }
  rewrite Hrun. unfold delete_buff, store_buff, modify. case_bool_decide as Hz.
  - assert (Hnone : references (buffer_ b) (delete i bs) = 0) by lia.
    eexists. split; [done|]. split; simpl.
    + intros p t. simpl. intros [_ Ht]%lookup_delete_Some. by apply Hwf.
    + intros p t [Hne Ht]%lookup_delete_Some. rewrite Hother by done. by apply Hr.
    + intros p t [Hne Ht]%lookup_delete_Some. rewrite Hother by done. by eapply Ho.
    + intros b' Hb'. destruct (Hw b') as (v & t & Ht & Hv); [by eapply list_elem_of_delete_inv|].
      exists v, t. split; [|done]. simpl. rewrite lookup_delete_ne; [done|]. intros Heq.
      apply references_in in Hb'. by rewrite <- Heq in Hb'.
  - eexists. split; [done|]. split; simpl.
    + by eapply heap_wf_insert.
    + intros p t. destruct (decide (buffer_ b = p)) as [<-|].
      * rewrite lookup_insert_eq. by intros [= <-].
      * rewrite lookup_insert_ne, Hother by done. apply Hr.
    + intros p t. destruct (decide (buffer_ b = p)) as [<-|].
      * intros _. lia.
      * rewrite lookup_insert_ne, Hother by done. apply Ho.
    + intros b' Hb'. destruct (Hw b') as [v Hv]; [by eapply list_elem_of_delete_inv|].
      exists v. by apply (holds_same_data h), Hv; eapply same_data_insert.
Qed.

Lemma counted_consume bs h i b b' v :
  counted bs h → bs !! i = Some b → buffer_ b' = buffer_ b → holds h b' v →
  counted (<[i := b']> bs) h.
Proof.
  intros [Hwf Hr Ho Hw] Hi Heq Hv. split; [done|..].
  - intros p s Hs. rewrite (references_insert _ _ _ _ _ Hi Heq). by apply Hr.
  - intros p s Hs. rewrite (references_insert _ _ _ _ _ Hi Heq). by eapply Ho.
  - intros b0 [-> |Hj]%elem_of_insert_inv; [by exists v|by apply Hw].
Qed.

Lemma windows_ranges (bs : list Buffer) h (l : list Buffer) :
  (∀ b, b ∈ bs → ∃ v, holds h b v) → (∀ b, b ∈ l → b ∈ bs) →
  ∃ vs, Forall2 (holds h) l vs ∧ length (concat vs) = list_sum ((λ b, N.to_nat (length_ b)) <$> l).
Proof.
  intros Hw. induction l as [|b l IH]; intros Hl; [by exists []|].
  destruct (Hw b) as [v Hv]; [apply Hl; left|].
  destruct IH as (vs & Hvs & Hlen); [intros; apply Hl; by right|].
  exists (v :: vs). split; [by constructor|]. simpl. rewrite length_app, Hlen.
  by rewrite (holds_length _ _ _ Hv).
Qed.

(** C26: whatever the owners of buffers do, the reference counts are exact: a storage
    is never read or released after it was freed, it is freed with its last
    reference, and every window stays inside its storage. Only the assertion of
    [consume] can stop the program. *)
Theorem reference_counts_exact o bs h :
  counted bs h → (N.of_nat (length bs) + 1 < u32_modulus)%N → op_fits o bs →
  match exec_buf o bs h with
  | Ok bs' h' => counted bs' h' ∧ (bs' = [] → buffs h' = ∅)
  | Throw _ _ => False
  | Halt x => x = Terminated ∧ ∃ n i, o = Consume n i
  end.
Proof.
  intros C Hlen Hfits.
  assert (Hempty : ∀ h', counted [] h' → buffs h' = ∅).
  { intros h' C'. apply map_empty. intros p. apply eq_None_not_Some. intros [s Hs].
    by apply (ct_owned _ _ C' _ _ Hs). }
  assert (Hdone : ∀ bs' h', counted bs' h' → counted bs' h' ∧ (bs' = [] → buffs h' = ∅)).
  { intros bs' h' C'. split; [done|]. intros ->. by apply Hempty. }
  destruct o as [data|i|i|n i|l]; simpl in Hfits |- *.
  - unfold makeCopy, bind. rewrite make_eq. by apply Hdone, counted_new.
  - destruct (bs !! i) as [b|] eqn:Hi; [|by apply Hdone].
    destruct (counted_copy bs h b) as (h' & Hc & C'); [done|by eapply list_elem_of_lookup_2|done|].
    rewrite (bind_run _ _ _ _ _ Hc). by apply Hdone.
  - destruct (bs !! i) as [b|] eqn:Hi; [|by apply Hdone].
    destruct (counted_release bs h i b) as (h' & Hc & C'); [done|done|lia|].
    rewrite (bind_run _ _ _ _ _ Hc). by apply Hdone.
  - destruct (bs !! i) as [b|] eqn:Hi; [|by apply Hdone].
    destruct (ct_windows _ _ C b) as [v Hv]; [by eapply list_elem_of_lookup_2|].
    pose proof (consume_window h b v n (ct_wf _ _ C) Hv) as Hc. case_bool_decide.
    + destruct Hc as (b' & Hc & Hp & Hv'). rewrite (bind_run _ _ _ _ _ Hc).
      by eapply Hdone, counted_consume.
    + unfold bind. rewrite Hc. split; [done|by eexists _, _].
  - destruct (windows_ranges bs h (omap (λ i, bs !! i) l)) as (vs & Hvs & Hsum).
    + apply (ct_windows _ _ C).
    + intros b (i & _ & Hi)%list_elem_of_omap. by eapply list_elem_of_lookup_2.
    + rewrite (bind_run _ _ _ _ _ (combine_eq _ (mkBufferCollection _) _ Hvs)). apply Hdone, counted_new; [done|]. by rewrite Hsum.
Qed.
