(* ===== verification/TcpApi.v ===== *)
(** * TCP: the interface of socket processes

    Models the functions of [Tcp] and the [StreamBatcher] of [eslang_io/Tcp.h], and
    the [ListenerProcess] of [eslang_io/Tcp.cpp], over the operations of the
    context. The application of a network program has the classes and payloads of
    [TcpProgram]; the accepting socket itself is the environment. *)

From S2P Require Import Prelude.
From S2P Require Import BaseTypes.
From S2P Require Import Future.
From S2P Require Import Slot.
From S2P Require Import Waiting.
From S2P Require Import IoService.
From S2P Require Import Process.
From S2P Require Import Context.
From S2P Require Import Lifecycle.
From S2P Require Import ContextFacts.
From S2P Require Import LifecycleFacts.
From S2P Require Import Destruction.
From S2P Require Import Scheduler.
From S2P Require Import Steps.
From S2P Require Import Safety.
From S2P Require Import Delivery.
From S2P Require Import Operations.
From S2P Require Import Buffers.

(** ** Options and payloads *)

(** [Tcp::ListenerOptions], with the [SocketOptions] it derives from; the ssl
    factory is determined by the three file names. *)
Record SslFiles := mkSslFiles { ca : string; cert : string; key : string }.

Record ListenerOptions := mkListenerOptions {
  throttled : bool;
  port : N;
  sslContextFactory : option SslFiles;
}.

Definition new_ListenerOptions (port : N) : ListenerOptions := mkListenerOptions true port None.

Definition withSslFiles (ca cert key : string) (o : ListenerOptions) : ListenerOptions :=
  mkListenerOptions (throttled o) (port o) (Some (mkSslFiles ca cert key)).

(** The classes and messages of a program that uses sockets. [SocketProcess] is the
    common base of the two instances of [TSocketProcess]. *)
Class TcpProgram `{Program} := {
  SocketProcess : cls;
  SslSocketProcess : cls;
  PlainSocketProcess : cls;
  ListenerProcess : cls;
  of_buffer : Buffer → payload;
  of_buffers : BufferCollection → payload;
  of_address : SendAddress → payload;
  listener_args : SendAddress → ListenerOptions → arg;
  socket_args : SendAddress → ListenerOptions → arg;
}.

(** The slots of a [SocketProcess]. *)
Definition send_data : nat := 0.
Definition send_many_data : nat := 1.
Definition init : nat := 2.

(** [Tcp::Socket]. *)
Record Socket := mkSocket { socket_pid : Pid }.

Section tcp.
Context {T : Type} `{P : Program} `{IO : IoService Handler} `{TM : !TaskModel T}.
Context `{TP : !TcpProgram}.
Implicit Types c : Context T.

Definition makeListener (parent : Ptr) (new_socket_address : SendAddress) (options : ListenerOptions) :
    M (Context T) Pid :=
  process_spawnLink parent ListenerProcess (listener_args new_socket_address options).

Definition initRecvSocket (socket : Socket) (new_socket_address : SendAddress) : M (Context T) unit :=
  let! a := makeSendAddress (socket_pid socket) SocketProcess init in
  process_send a (of_address new_socket_address) ;;;
  ret tt.

Definition tcp_send (socket : Socket) (data : Buffer) : M (Context T) IWaiting :=
  let! a := makeSendAddress (socket_pid socket) SocketProcess send_data in
  process_send a (of_buffer data).

Definition sendMany (socket : Socket) (data : BufferCollection) : M (Context T) IWaiting :=
  let! a := makeSendAddress (socket_pid socket) SocketProcess send_many_data in
  process_send a (of_buffers data).

(** ** [StreamBatcher] *)

Record StreamBatcher := mkStreamBatcher {
  socket : Socket;
  buffs : BufferCollection;
}.

Definition new_StreamBatcher (s : Socket) : StreamBatcher :=
  mkStreamBatcher s (mkBufferCollection []).

Definition push_buffer (b : Buffer) (sb : StreamBatcher) : StreamBatcher :=
  mkStreamBatcher (socket sb) (mkBufferCollection (buffers (buffs sb) ++ [b])).

(** The collection is moved into the message, which leaves it empty. *)
Definition clear (sb : StreamBatcher) : M (Context T) StreamBatcher :=
  match buffers (buffs sb) with
  | [] => ret sb
  | _ :: _ =>
      sendMany (socket sb) (buffs sb) ;;;
      ret (new_StreamBatcher (socket sb))
  end.

Definition destroy_StreamBatcher (sb : StreamBatcher) : M (Context T) unit :=
  noexcept (clear sb ;;; ret tt).

(** ** [ListenerProcess] *)

(** What [async_accept] reports. *)
Inductive accept_result :=
  | Accepted
  | AcceptAborted
  | AcceptFailed (message : string).

(** The promise [error_] is the only member. *)
Definition setException (this : Ptr) (message : string) : M (Context T) unit :=
  let! self := load_obj this in
  match members self with
  | PromiseMember error_ :: _ =>
      update_promise (MemberPromise error_)
        (Future.setException (std_exception (concatString ["Listener threw "; message])))
  | _ => undefined OutOfRange
  end.

(** The completion of [async_accept] in the listener process object [this]: whether
    it accepts again. *)
Definition on_accept (this : Ptr) (newSocket : SendAddress) (options : ListenerOptions)
    (r : accept_result) : M (Context T) bool :=
  match r with
  | AcceptAborted => ret false
  | AcceptFailed message => setException this message ;;; ret false
  | Accepted =>
      let cl := match sslContextFactory options with
                | Some _ => SslSocketProcess
                | None => PlainSocketProcess
                end in
      let! p := spawn cl (socket_args newSocket options) in
      update_obj this (addKillOnDie p) ;;;
      ret true
  end.

(** ** Theorems *)

Lemma makeSendAddress_dead extra c p Y k :
  wf_with extra c → lookup_proc c p = None →
  makeSendAddress p Y k c = Throw (std_exception ("No process found for pid " +:+ toString p)) c.
Proof.
  intros W Hl. unfold makeSendAddress. by rewrite (bind_run _ _ _ _ _ (findProc_run _ _ _ _ W Hl)).
Qed.

Lemma makeSendAddress_live extra c p r rp obj Y k s sl :
  wf_with extra c → lookup_proc c p = Some r → rps c !! r = Some rp →
  objs c !! process_ptr rp = Some obj → is_a (dynamic_class obj) Y = true →
  slot_member obj k = Some s → slots c !! s = Some sl →
  makeSendAddress p Y k c = Ok (mkSendAddress p (id_ sl)) c.
Proof.
  intros W Hl Hr Hobj Hclass Hs Hsl. unfold makeSendAddress.
  rewrite (bind_run _ _ _ _ _ (findProc_run _ _ _ _ W Hl)).
  rewrite (bind_run _ _ _ _ _ (load_rp_run _ _ _ Hr)).
  rewrite (bind_run _ _ _ _ _ (load_obj_run _ _ _ Hobj)). rewrite Hclass. simpl.
  unfold slot_member in Hs. destruct (members obj !! k) as [[s'|]|]; simplify_eq.
  by rewrite (bind_run _ _ _ _ _ (load_slot_run _ _ _ Hsl)).
Qed.

Definition push_all (sb : StreamBatcher) (bs : list Buffer) : StreamBatcher :=
  foldl (λ sb b, push_buffer b sb) sb bs.

Lemma push_all_buffers s bs l :
  push_all (mkStreamBatcher s (mkBufferCollection l)) bs = mkStreamBatcher s (mkBufferCollection (l ++ bs)).
Proof.
  revert l. induction bs as [|b bs IH]; intros l; simpl; [by rewrite app_nil_r|].
  unfold push_all, push_buffer in *. simpl. rewrite IH. by rewrite <- app_assoc.
Qed.

(** C28: the buffers pushed into a batcher reach the socket process as one message,
    in the order they were pushed, and only once: the batcher is empty afterwards,
    and its destructor sends nothing. *)
Theorem batch_is_one_message extra c s r rp obj m sl bs :
  wf_with extra c → lookup_proc c (socket_pid s) = Some r → rps c !! r = Some rp →
  objs c !! process_ptr rp = Some obj → is_a (dynamic_class obj) SocketProcess = true →
  slot_member obj send_many_data = Some m → slots c !! m = Some sl → bs ≠ [] →
  ∃ c', clear (push_all (new_StreamBatcher s) bs) c = Ok (new_StreamBatcher s) c' ∧
    c' = set_queue (queue_ c ++
           [mkItem (socket_pid s) None
              (Some (mkSendAddress (socket_pid s) (id_ sl),
                     mkMessage (of_buffers (mkBufferCollection bs))))]) c ∧
    destroy_StreamBatcher (new_StreamBatcher s) c' = Ok tt c'.
Proof.
  intros W Hl Hr Hobj Hclass Hm Hsl Hbs. unfold new_StreamBatcher. rewrite push_all_buffers.
  eexists. split; [|by split]. unfold clear. simpl. destruct bs as [|b bs]; [done|].
  unfold sendMany, bind at 1. simpl.
  by rewrite (bind_run _ _ _ _ _ (makeSendAddress_live _ _ _ _ _ _ _ _ _ _ W Hl Hr Hobj Hclass Hm Hsl)).
Qed.

(** Destroying a batcher that still holds data for a socket process that has died
    ends the program: [sendMany] throws out of the destructor. *)
Theorem batch_for_dead_socket_terminates extra c sb :
  wf_with extra c → lookup_proc c (socket_pid (socket sb)) = None → buffers (buffs sb) ≠ [] →
  destroy_StreamBatcher sb c = Halt Terminated.
Proof.
  intros W Hl Hb. unfold destroy_StreamBatcher, noexcept, clear.
  destruct (buffers (buffs sb)) as [|b bs]; [done|]. unfold sendMany, bind.
  by rewrite (makeSendAddress_dead _ _ _ _ _ W Hl).
Qed.
End tcp.
