(* ===== verification/Listening.v ===== *)
(** * Accepting connections

    What the completions of [async_accept] do to the listener: a new connection is a
    process of its own that dies with the listener, and an error reaches the coroutine of
    the listener as an exception, which ends it and everything linked to it. *)

From S2P Require Import Prelude.
From S2P Require Import BaseTypes.
From S2P Require Import Future.
From S2P Require Import Slot.
From S2P Require Import Waiting.
From S2P Require Import IoService.
From S2P Require Import Process.
From S2P Require Import Context.
From S2P Require Import Lifecycle.
From S2P Require Import ContextFacts.
From S2P Require Import LifecycleFacts.
From S2P Require Import Destruction.
From S2P Require Import Scheduler.
From S2P Require Import Steps.
From S2P Require Import Safety.
From S2P Require Import Delivery.
From S2P Require Import Operations.
From S2P Require Import Buffers.
From S2P Require Import TcpApi.

Section listening.
Context {T : Type} `{P : Program} `{IO : IoService Handler} `{TM : !TaskModel T}.
Context `{TR : !TaskResume T} `{TL : !TaskResumeLaws T} `{TP : !TcpProgram}.
Implicit Types c : Context T.

(** Process [p], at [r], with its object at [this], waits for its promise as
    [ListenerProcess::run] does, resumed [n] times. *)
Definition listening c (p : Pid) (r this : Ptr) (n : N) : Prop := ∃ rp obj e ms,
  lookup_proc c p = Some r ∧ rps c !! r = Some rp ∧ process_ptr rp = this ∧ resumes rp = n ∧
  objs c !! this = Some obj ∧ members obj = PromiseMember e :: ms ∧
  promises c !! e = Some (mkPromise (Some (tt, ResumeIf r n)) false None) ∧
  lastWaiting rp = Some (WaitOnFuture (MemberPromise e)).

(** The reason the process table gives. *)
Definition accept_failure (message : string) : string :=
  "Caught exception: Listener threw " +:+ message.

(** [resume] of a process whose promise holds an exception: the coroutine is not run. *)
Lemma resume_rejected c p r rp e v what :
  wf c → lookup_proc c p = Some r → rps c !! r = Some rp →
  lastWaiting rp = Some (WaitOnFuture (MemberPromise e)) → promises c !! e = Some v →
  process v = inr (std_exception what) →
  resume r c = Ok tt (kill_state p ("Caught exception: " +:+ what)
                        (set_io (io_timer_cancel r (ioService_ c)) c)).
Proof.
  intros W Hl Hr Hw Hv Hthrow. set (c0 := set_io _ c).
  destruct (lookup_proc_rp _ _ _ _ W Hl) as (rp' & Hr' & Hp & Hd).
  assert (rp' = rp) as -> by congruence.
  assert (Hr0 : rps c0 !! r = Some rp) by done.
  assert (W0 : wf c0) by (by eapply set_io_evolves).
  assert (Hlast : process_last rp c0 = Throw (std_exception what) c0).
  { unfold process_last. rewrite Hw. simpl. unfold process_promise, load_promise, deref, bind.
    simpl. rewrite Hv. by rewrite Hthrow. }
  unfold resume, try_catch. rewrite (bind_run _ _ _ _ _ (load_rp_run _ _ _ Hr)), Hd.
  rewrite (bind_run _ _ _ _ _ (set_timer_run _ c)). fold c0.
  assert (Htask : resume_task r c0 = Ok false (kill_state p ("Caught exception: " +:+ what) c0)).
  { unfold resume_task, try_catch. rewrite (bind_run _ _ _ _ _ (load_rp_run _ _ _ Hr0)).
    unfold bind at 1. rewrite Hlast, (bind_run _ _ _ _ _ (load_rp_run _ _ _ Hr0)), Hp.
    rewrite (bind_run _ _ _ _ _ (addtoDestroy_state _ _ _ _ W0)).
    by rewrite !concatString_cons, string_app_nil_r. }
  by rewrite (bind_run _ _ _ _ _ Htask).
Qed.

Lemma listener_setException c p r this n message :
  listening c p r this n → ∃ e,
    setException this message c = Ok tt
      (set_io (io_post (RunContinuation (ResumeIf r n)) (ioService_ c))
        (set_promises (<[e := mkPromise None true (Some (Future.make (std_exception ("Listener threw " +:+ message))))]>
           (promises c)) c)) ∧
    ∃ rp, rps c !! r = Some rp ∧ lastWaiting rp = Some (WaitOnFuture (MemberPromise e)).
Proof.
  intros (rp & obj & e & ms & Hl & Hr & Ho & Hn & Hobj & Hm & Hv & Hw). exists e. split; [|by exists rp].
  unfold setException. rewrite (bind_run _ _ _ _ _ (load_obj_run _ _ _ Hobj)), Hm.
  unfold update_promise, load_promise, deref, bind at 1. rewrite Hv.
  by rewrite !concatString_cons, string_app_nil_r.
Qed.

(** C24: an error of [async_accept] ends the listener: the promise it waits for takes the
    exception and posts the resumption, and when that runs, the exception kills the
    listener with the error as the reason; no other process is touched yet, those linked
    to it go with it when it is destroyed. *)
Theorem failed_accept_kills_listener c p r this n newSocket options message
    (Hwf : wf c) (Hlisten : listening c p r this n) :
  ∃ c1, on_accept this newSocket options (AcceptFailed message) c = Ok false c1 ∧
    ioService_ c1 = io_post (RunContinuation (ResumeIf r n)) (ioService_ c) ∧
  ∃ c2, run_handler (RunContinuation (ResumeIf r n)) c1 = Ok tt c2 ∧
    ¬ live c2 p ∧ (∀ q, q ≠ p → lookup_proc c2 q = lookup_proc c q) ∧
    toDestroy_ c2 = toDestroy_ c ++ [(r, accept_failure message)].
Proof.
  destruct (listener_setException c p r this n message Hlisten) as (e & Hset & rp & Hr & Hw).
  destruct Hlisten as (rp' & obj & _ & _ & Hl & Hr' & _ & Hn & _). assert (rp' = rp) as -> by congruence.
  set (c1 := set_io _ _) in Hset. exists c1. split; [|split; [done|]].
  { unfold on_accept. by rewrite (bind_run _ _ _ _ _ Hset). }
  assert (W1 : wf c1).
  { eapply set_io_evolves. apply (wf_quiet [] c); [done|by split]. }
  pose proof (resume_rejected c1 p r rp e _ ("Listener threw " +:+ message) W1 Hl Hr Hw
    (lookup_insert_eq _ _ _) eq_refl) as Hresume.
  exists (kill_state p (accept_failure message) (set_io (io_timer_cancel r (ioService_ c1)) c1)).
  assert (W2 : wf (set_io (io_timer_cancel r (ioService_ c1)) c1)) by by eapply set_io_evolves.
  split; [|split_and!].
  - unfold run_handler. assert (Hr1 : rps c1 !! r = Some rp) by done.
    by rewrite (bind_run _ _ _ _ _ (load_rp_run _ _ _ Hr1)), Hn, bool_decide_eq_true_2.
  - destruct (addtoDestroy_Ok [] _ p (accept_failure message) W2) as (c3 & Hk & _ & _ & Hnone & _).
    rewrite (addtoDestroy_state _ _ _ _ W2) in Hk. injection Hk as <-. intros [r' Hr1].
    change (lookup_proc (kill_state p (accept_failure message) (set_io (io_timer_cancel r (ioService_ c1)) c1)) p =
      None) in Hnone. congruence.
  - intros q Hne. unfold kill_state. change (lookup_proc (set_io _ c1)) with (lookup_proc c). rewrite Hl.
    change (rps (set_io _ c1)) with (rps c). rewrite Hr. by rewrite (killed_lookup_ne [] _ _ _ r rp).
  - unfold kill_state. change (lookup_proc (set_io _ c1)) with (lookup_proc c). rewrite Hl.
    change (rps (set_io _ c1)) with (rps c). by rewrite Hr.
Qed.

(** C31: a connection that is accepted becomes a process of its own, with a pid never handed
    out before, live and about to be resumed for the first time, and the listener takes it
    along when it dies; the listener accepts again. *)
Theorem accepted_connection_is_owned extra c this newSocket options c' b
    (Hwf : wf_with extra c) (Haccept : on_accept this newSocket options Accepted c = Ok b c') :
  b = true ∧ ∃ p obj, live c' p ∧ last (queue_ c') = Some (mkItem p (Some 0%N) None) ∧
    objs c' !! this = Some obj ∧ p ∈ killOnDie_ obj ∧ (unwrapped c' → ¬ issued c p).
Proof.
  unfold on_accept in Haccept. set (cl := match sslContextFactory options with Some _ => _ | None => _ end) in *.
  apply bind_Ok in Haccept as (p & c1 & Hspawn & ([] & c2 & Hupd & Hret)%bind_Ok).
  injection Hret as <- <-. split; [done|]. unfold update_obj in Hupd.
  apply bind_Ok in Hupd as (obj & c3 & Hload & Hstore). unfold load_obj, deref in Hload.
  destruct (objs c1 !! this) as [obj'|] eqn:Hobj; [|done]. injection Hload as -> <-. injection Hstore as <-.
  unfold spawn in Hspawn.
  pose proof (spawnWith_spawned extra id cl (socket_args newSocket options) c (λ _, eq_refl) Hwf) as Hs.
  destruct (spawnWith_spec extra id cl (socket_args newSocket options) c (λ _, eq_refl) Hwf) as (p1 & c4 & _ & Hq).
  rewrite Hspawn in Hs, Hq. simpl in Hs, Hq. destruct Hs as (_ & Hl & Hfresh).
  destruct Hq as (-> & c5 & r & rp & _ & Hreg). exists p1, (addKillOnDie p1 obj). split_and!.
  - exact Hl.
  - change (queue_ (set_objs _ c1)) with (queue_ c1). by rewrite (rg_queue _ _ _ _ _ Hreg), last_snoc.
  - simpl. by rewrite lookup_insert_eq.
  - simpl. apply elem_of_app. right. by left.
  - exact Hfresh.
Qed.
End listening.
