(* ===== verification/TcpWitnesses.v ===== *)
(** * The socket interface on a concrete program

    A program of listeners and sockets, enough of it to spawn a socket process, and
    the theorems of [TcpApi] applied to it. *)

From S2P Require Import Prelude.
From S2P Require Import BaseTypes.
From S2P Require Import Future.
From S2P Require Import Slot.
From S2P Require Import Waiting.
From S2P Require Import IoService.
From S2P Require Import Process.
From S2P Require Import Context.
From S2P Require Import Lifecycle.
From S2P Require Import ContextFacts.
From S2P Require Import LifecycleFacts.
From S2P Require Import Operations.
From S2P Require Import Buffers.
From S2P Require Import TcpApi.

Inductive net_payload :=
  | NetPid (p : Pid)
  | NetAddress (a : SendAddress)
  | NetBuffer (b : Buffer)
  | NetBuffers (c : BufferCollection).

Inductive net_class := AnySocket | SslSocket | PlainSocket | Accepting.

#[export] Instance net_class_eq_dec : EqDecision net_class.
Proof. solve_decision. Defined.

Definition derives (c d : net_class) : bool :=
  bool_decide (c = d) ||
  match c, d with SslSocket, AnySocket | PlainSocket, AnySocket => true | _, _ => false end.

(** [SocketProcess] has three slots, [ListenerProcess] its promise. *)
Definition net_ctor (c : net_class) : list CtorOp :=
  match c with
  | Accepting => [CtorPromise]
  | _ => [CtorSlot; CtorSlot; CtorSlot]
  end.

#[local] Instance net : Program := {|
  payload := net_payload;
  of_pid := NetPid;
  cls := net_class;
  is_a := derives;
  arg := option (SendAddress * ListenerOptions);
  ctor c _ := net_ctor c;
|}.

#[local] Instance net_tcp : TcpProgram := {|
  SocketProcess := AnySocket;
  SslSocketProcess := SslSocket;
  PlainSocketProcess := PlainSocket;
  ListenerProcess := Accepting;
  of_buffer := NetBuffer;
  of_buffers := NetBuffers;
  of_address := NetAddress;
  listener_args a o := Some (a, o);
  socket_args a o := Some (a, o);
|}.

(** Coroutines that never run. *)
#[local] Instance net_tasks : TaskModel unit := {|
  task_start _ _ _ := tt;
  task_done _ := false;
  task_cleanup _ := [];
|}.

#[local] Existing Instances Sim.sim_io Sim.sim_io_laws.

Abbreviation NetContext := (Context unit).

Definition listener_address : SendAddress := mkSendAddress (mkPid 9 9) 9%positive.
Definition empty_context : NetContext := new_context (Sim.new_service : Sim.service Handler).

(** A context in which one plain socket process was spawned. *)
Definition with_socket : NetContext :=
  default empty_context (final (spawn PlainSocket (Some (listener_address, new_ListenerOptions 80)) empty_context)).

Lemma with_socket_wf : wf with_socket.
Proof.
  pose proof (ev_spawnWith [] id PlainSocket (Some (listener_address, new_ListenerOptions 80))
    (λ _, eq_refl)) as H.
  unfold with_socket. destruct (final _) as [c|] eqn:Hf; [|apply new_context_wf].
  apply (H _ _ Hf). apply new_context_wf.
Qed.

Definition connected : TcpApi.Socket := mkSocket (mkPid 0 0).
Definition disconnected : TcpApi.Socket := mkSocket (mkPid 5 0).
Definition piece (n : N) : Buffer := mkBuffer 1 n 4.

Definition rp0 : Ptr := default 1%positive (lookup_proc with_socket (socket_pid connected)).
Definition running0 : RunningProcess unit :=
  default (mkRunningProcess false (mkPid 0 0) 1 tt None 0) (rps with_socket !! rp0).
Definition object0 : Process :=
  default (mkProcess _ (mkPid 0 0) [] [] (PlainSocket : cls) []) (objs with_socket !! process_ptr running0).
Definition many_slot : SlotId := default 1%positive (slot_member object0 send_many_data).
Definition slot0 :=
  default (new_slot (mkPid 0 0) 1%positive) (slots with_socket !! many_slot).

Lemma batch_is_one_message_witness :
  ∃ c', clear (push_all (new_StreamBatcher connected) [piece 0; piece 4]) with_socket =
          Ok (new_StreamBatcher connected) c' ∧
    c' = set_queue (queue_ with_socket ++
           [mkItem (socket_pid connected) None
              (Some (mkSendAddress (socket_pid connected) (id_ slot0),
                     mkMessage (of_buffers (mkBufferCollection [piece 0; piece 4]))))]) with_socket ∧
    destroy_StreamBatcher (new_StreamBatcher connected) c' = Ok tt c'.
Proof.
  apply (batch_is_one_message [] with_socket connected rp0 running0 object0 many_slot slot0
           [piece 0; piece 4] with_socket_wf); try (vm_compute; reflexivity). discriminate.
Defined.

Lemma batch_for_dead_socket_terminates_witness :
  destroy_StreamBatcher (push_buffer (piece 0) (new_StreamBatcher disconnected)) with_socket =
    Halt Terminated.
Proof.
  apply (batch_for_dead_socket_terminates [] with_socket _ with_socket_wf).
  - vm_compute. reflexivity.
  - discriminate.
Defined.
