(* ===== verification/Socket.v ===== *)
(** * The process of a connection

    Models [TSocketProcess] of [eslang_io/Tcp.cpp], with the [start] of its two
    traits: the members of the process object, its coroutine [run] from one
    suspension to the next, and the completion handlers it hands to the io_service,
    which share the members with it. What surrounds it is explicit: the operations
    outstanding on the socket, the completions the service has queued (cancelling
    cannot take these back), the continuations its promise has posted, and the heap
    of buffers. [sendThrottled] is a suspension that ends when the environment says
    so. The code of [run] between two suspensions, and each handler, is one function;
    an [event] is what makes one of them run. *)

From Stdlib Require Import Strings.Byte.
From S2P Require Import Prelude.
From S2P Require Import BaseTypes.
From S2P Require Import Future.
From S2P Require Import Buffers.

(** ** State *)

(** [boost::system::error_code], as far as the handlers tell them apart. *)
Inductive io_error :=
  | no_error
  | operation_aborted
  | eof
  | failed (message : string).

(** [Tcp::ReceiveData]. *)
Record ReceiveData := mkReceiveData { sender : Pid; data : Buffer }.

(** What the process sends: itself to its owner, and what it reads. *)
Inductive Sent :=
  | SentSocket (to : SendAddress) (socket : Pid)
  | SentData (to : SendAddress) (d : ReceiveData).

(** [EslangPromise] of a process: its continuation captures the count of resumes. *)
Abbreviation Promise := (EslangPromise unit N).

(** [SocketProcess], its traits and [TSocketProcess] as one object; the slots are
    their queues. [ssl] and [throttled] never change. *)
Record SocketObject := mkSocketObject {
  pid : Pid;
  ssl : bool;
  throttled : bool;
  onReady : SendAddress;
  eof_ : bool;
  p_ : Promise;
  except_ : option ExceptionWrapper;
  toSend : option SendAddress;
  nextRead : option ReceiveData;
  isWriting : bool;
  send_data : list Buffer;
  send_many_data : list BufferCollection;
  init : list SendAddress;
}.

(** Where [run] is suspended. At [AtThrottle] the message is in the frame of
    [sendThrottled], and [nextRead] is what it was moved from. *)
Inductive Control :=
  | AtStart
  | AtHandshake
  | AtInit
  | AtThrottle (rd : ReceiveData)
  | AtWrite
  | AtMessages
  | Ended
  | Threw (what : string).

(** A completion the io_service has queued. *)
Inductive Completion :=
  | ReadDone (e : io_error) (bytes : list byte)
  | WriteDone (e : io_error)
  | HandshakeDone (e : io_error).

(** [this_] is none once the process object is destroyed; [handshake] is the promise
    in the frame of [start]; [resumes] and [posted] are those of the running
    process and its promise; [writes] are the windows given to [async_write]. *)
Record World := mkWorld {
  this_ : option SocketObject;
  at_ : Control;
  handshake : option Promise;
  resumes : N;
  posted : list N;
  heap : Heap;
  sent : list Sent;
  reads : nat;
  writes : list Buffer;
  shakes : nat;
  queued : list Completion;
}.

Definition set_eof v (s : SocketObject) : SocketObject :=
  mkSocketObject (pid s) (ssl s) (throttled s) (onReady s) v (p_ s) (except_ s) (toSend s)
    (nextRead s) (isWriting s) (send_data s) (send_many_data s) (init s).
Definition set_p v (s : SocketObject) : SocketObject :=
  mkSocketObject (pid s) (ssl s) (throttled s) (onReady s) (eof_ s) v (except_ s) (toSend s)
    (nextRead s) (isWriting s) (send_data s) (send_many_data s) (init s).
Definition set_except v (s : SocketObject) : SocketObject :=
  mkSocketObject (pid s) (ssl s) (throttled s) (onReady s) (eof_ s) (p_ s) v (toSend s) (nextRead
    s) (isWriting s) (send_data s) (send_many_data s) (init s).
Definition set_toSend v (s : SocketObject) : SocketObject :=
  mkSocketObject (pid s) (ssl s) (throttled s) (onReady s) (eof_ s) (p_ s) (except_ s) v
    (nextRead s) (isWriting s) (send_data s) (send_many_data s) (init s).
Definition set_nextRead v (s : SocketObject) : SocketObject :=
  mkSocketObject (pid s) (ssl s) (throttled s) (onReady s) (eof_ s) (p_ s) (except_ s) (toSend s)
    v (isWriting s) (send_data s) (send_many_data s) (init s).
Definition set_isWriting v (s : SocketObject) : SocketObject :=
  mkSocketObject (pid s) (ssl s) (throttled s) (onReady s) (eof_ s) (p_ s) (except_ s) (toSend s)
    (nextRead s) v (send_data s) (send_many_data s) (init s).
Definition set_send_data v (s : SocketObject) : SocketObject :=
  mkSocketObject (pid s) (ssl s) (throttled s) (onReady s) (eof_ s) (p_ s) (except_ s) (toSend s)
    (nextRead s) (isWriting s) v (send_many_data s) (init s).
Definition set_send_many_data v (s : SocketObject) : SocketObject :=
  mkSocketObject (pid s) (ssl s) (throttled s) (onReady s) (eof_ s) (p_ s) (except_ s) (toSend s)
    (nextRead s) (isWriting s) (send_data s) v (init s).
Definition set_init v (s : SocketObject) : SocketObject :=
  mkSocketObject (pid s) (ssl s) (throttled s) (onReady s) (eof_ s) (p_ s) (except_ s) (toSend s)
    (nextRead s) (isWriting s) (send_data s) (send_many_data s) v.

Definition set_this v (w : World) : World :=
  mkWorld v (at_ w) (handshake w) (resumes w) (posted w) (heap w) (sent w) (reads w) (writes w)
    (shakes w) (queued w).
Definition set_at v (w : World) : World :=
  mkWorld (this_ w) v (handshake w) (resumes w) (posted w) (heap w) (sent w) (reads w) (writes w)
    (shakes w) (queued w).
Definition set_handshake v (w : World) : World :=
  mkWorld (this_ w) (at_ w) v (resumes w) (posted w) (heap w) (sent w) (reads w) (writes w)
    (shakes w) (queued w).
Definition set_resumes v (w : World) : World :=
  mkWorld (this_ w) (at_ w) (handshake w) v (posted w) (heap w) (sent w) (reads w) (writes w)
    (shakes w) (queued w).
Definition set_posted v (w : World) : World :=
  mkWorld (this_ w) (at_ w) (handshake w) (resumes w) v (heap w) (sent w) (reads w) (writes w)
    (shakes w) (queued w).
Definition set_heap v (w : World) : World :=
  mkWorld (this_ w) (at_ w) (handshake w) (resumes w) (posted w) v (sent w) (reads w) (writes w)
    (shakes w) (queued w).
Definition set_sent v (w : World) : World :=
  mkWorld (this_ w) (at_ w) (handshake w) (resumes w) (posted w) (heap w) v (reads w) (writes w)
    (shakes w) (queued w).
Definition set_reads v (w : World) : World :=
  mkWorld (this_ w) (at_ w) (handshake w) (resumes w) (posted w) (heap w) (sent w) v (writes w)
    (shakes w) (queued w).
Definition set_writes v (w : World) : World :=
  mkWorld (this_ w) (at_ w) (handshake w) (resumes w) (posted w) (heap w) (sent w) (reads w) v
    (shakes w) (queued w).
Definition set_shakes v (w : World) : World :=
  mkWorld (this_ w) (at_ w) (handshake w) (resumes w) (posted w) (heap w) (sent w) (reads w)
    (writes w) v (queued w).
Definition set_queued v (w : World) : World :=
  mkWorld (this_ w) (at_ w) (handshake w) (resumes w) (posted w) (heap w) (sent w) (reads w)
    (writes w) (shakes w) v.

Definition new_SocketObject (pid : Pid) (ssl throttled : bool) (onReady : SendAddress) : SocketObject :=
  mkSocketObject pid ssl throttled onReady false new_promise None None None false [] [] [].

Definition new_world (pid : Pid) (ssl throttled : bool) (onReady : SendAddress) (h : Heap) : World :=
  mkWorld (Some (new_SocketObject pid ssl throttled onReady)) AtStart None 0 [] h [] 0 [] 0 [].

(** ** Members *)

Definition this : M World SocketObject := λ w,
  match this_ w with
  | Some s => Ok s w
  | None => Halt (Undefined UseAfterFree)
  end.

Definition update (f : SocketObject → SocketObject) : M World unit :=
  let! s := this in
  modify (set_this (Some (f s))).

Definition on_heap {A} (m : M Heap A) : M World A := λ w,
  match m (heap w) with
  | Ok a h => Ok a (set_heap h w)
  | Throw e h => Throw e (set_heap h w)
  | Halt x => Halt x
  end.

Definition suspend (c : Control) : M World unit := modify (set_at c).

Definition send (m : Sent) : M World unit := modify (λ w, set_sent (sent w ++ [m]) w).

Definition post_all (l : list (unit * N)) : M World unit :=
  modify (λ w, set_posted (posted w ++ l.*2) w).

Definition update_promise (f : Promise → Promise * list (unit * N)) : M World unit :=
  let! s := this in
  let (p', posts) := f (p_ s) in
  update (set_p p') ;;;
  post_all posts.

Definition setValue : M World unit := update_promise setIfUnset.

Definition setException (e : exn) : M World unit :=
  setValue ;;;
  update (λ s, match except_ s with
               | None => set_except (Some (Future.make e)) s
               | Some _ => s
               end).

Definition setError (message : string) : M World unit :=
  setException (std_exception ("Listener threw " +:+ message)).

Definition checkExcept : M World unit :=
  let! s := this in
  match except_ s with
  | Some x =>
      match maybeThrowException x with
      | Some e => throw e
      | None => ret tt
      end
  | None => ret tt
  end.

(** ** Reading *)

Definition asyncRead : M World unit :=
  this ;;;
  modify (λ w, set_reads (Datatypes.S (reads w)) w).

(** The handler of [async_read_some]. *)
Definition on_read (error : io_error) (bytes : list byte) : M World unit :=
  match error with
  | operation_aborted => ret tt
  | eof =>
      update (set_eof true) ;;;
      setValue
  | failed message => setError message
  | no_error =>
      match bytes with
      | [] => asyncRead
      | _ :: _ =>
          let! s := this in
          let! b := on_heap (makeCopy bytes) in
          let rd := mkReceiveData (pid s) b in
          if throttled s then
            update (set_nextRead (Some rd)) ;;;
            update_promise setIfUnset
          else
            match toSend s with
            | Some a => send (SentData a rd) ;;; asyncRead
            | None => undefined EmptyOptional
            end
      end
  end.

(** ** Writing *)

(** [write(Buffer buff)]: the argument is destroyed when it returns, the write goes
    on. *)
Definition write (buff : Buffer) : M World unit :=
  update (set_isWriting true) ;;;
  update (λ s, set_p (move_assign (p_ s) new_promise) s) ;;;
  modify (λ w, set_writes (writes w ++ [buff]) w) ;;;
  on_heap (destroy_Buffer buff).

(** The handler of [async_write]. *)
Definition on_write (ec : io_error) : M World unit :=
  match ec with
  | operation_aborted => ret tt
  | no_error => update (set_isWriting false) ;;; setValue
  | eof => update (set_isWriting false) ;;; setError "End of file"
  | failed message => update (set_isWriting false) ;;; setError message
  end.

(** The handler of [async_handshake] refers to the frame of [start]. *)
Definition on_handshake (error : io_error) : M World unit :=
  let signal (f : Promise → Promise * list (unit * N)) : M World unit :=
    let! w := get in
    match handshake w with
    | Some p =>
        let (p', posts) := f p in
        modify (set_handshake (Some p')) ;;;
        post_all posts
    | None => undefined UseAfterFree
    end in
  match error with
  | operation_aborted => ret tt
  | no_error => signal setIfUnset
  | eof => signal (Future.setException (std_exception "SSL handshake threw End of file"))
  | failed message =>
      signal (Future.setException (std_exception ("SSL handshake threw " +:+ message)))
  end.

(** ** [run] *)

(** [co_await] on a promise: [RunningProcess::resume] installs the continuation. *)
Definition suspend_on_p (c : Control) : M World unit :=
  suspend c ;;;
  let! w := get in
  update_promise (setContinuation tt (resumes w)).

Definition destroy_all (l : list Buffer) : M World unit := for_each (λ b, on_heap (destroy_Buffer b)) l.

(** What [ret] of a received pair of messages owns. *)
Definition received (d : option Buffer) (m : option BufferCollection) : list Buffer :=
  match d with Some b => [b] | None => [] end ++
  match m with Some c => buffers c | None => [] end.

(** The branch of the loop that has messages: [tryRecv] takes one of each slot; the
    copy of the first is written, or else the combination of the second. *)
Definition take_messages : M World unit :=
  let! s := this in
  let d := head (send_data s) in
  let m := head (send_many_data s) in
  update (λ s, set_send_many_data (tail (send_many_data s)) (set_send_data (tail (send_data s)) s)) ;;;
  on_throw checkExcept (destroy_all (received d m)) ;;;
  match d, m with
  | Some b, _ => let! buff := on_heap (copy_Buffer b) in write buff
  | None, Some c => let! buff := on_heap (combine c) in write buff
  | None, None => ret tt
  end ;;;
  destroy_all (received d m).

(** [while (!eof_)] from its head on, until the coroutine suspends or ends. *)
Fixpoint run_loop (fuel : nat) : M World unit :=
  match fuel with
  | 0 => stop OutOfFuel
  | Datatypes.S fuel' =>
      let! s := this in
      if eof_ s then suspend Ended
      else
        match nextRead s, toSend s with
        | Some rd, Some _ => suspend (AtThrottle rd)
        | Some _, None => undefined EmptyOptional
        | None, _ => await_next fuel'
        end
  end

(** The rest of the loop, once there is nothing read to pass on. *)
with await_next (fuel : nat) : M World unit :=
  match fuel with
  | 0 => stop OutOfFuel
  | Datatypes.S fuel' =>
      let! s := this in
      if isWriting s then
        if isReady (p_ s) then checkExcept ;;; run_loop fuel'
        else suspend_on_p AtWrite
      else
        match send_data s, send_many_data s with
        | [], [] => suspend_on_p AtMessages
        | _, _ => take_messages ;;; run_loop fuel'
        end
  end.

(** From a suspension the loop turns at most twice. *)
Definition loop_fuel : nat := 6.

Definition after_init : M World unit :=
  let! s := this in
  match init s with
  | [] => throw (std_exception "Message was not ready")
  | a :: rest =>
      update (λ s, set_toSend (Some a) (set_init rest s)) ;;;
      asyncRead ;;;
      run_loop loop_fuel
  end.

Definition after_start : M World unit :=
  let! s := this in
  send (SentSocket (onReady s) (pid s)) ;;;
  match init s with
  | [] => suspend AtInit
  | _ :: _ => after_init
  end.

(** [start] of [SslSocketTraits] awaits the handshake, of [PlainSocketTraits] does
    nothing. *)
Definition start : M World unit :=
  let! s := this in
  if ssl s then
    let! w := get in
    modify (set_handshake (Some (setContinuation tt (resumes w) new_promise).1)) ;;;
    modify (λ w, set_shakes (Datatypes.S (shakes w)) w) ;;;
    suspend AtHandshake
  else after_start.

(** [lastWaiting->wakeOnFuture()->process()]. *)
Definition process_p : M World unit :=
  let! s := this in
  match process (p_ s) with
  | inl p' => update (set_p p')
  | inr e => throw e
  end.

Definition process_handshake : M World unit :=
  let! w := get in
  match handshake w with
  | Some p =>
      match process p with
      | inl p' => modify (set_handshake None)
      | inr e => throw e
      end
  | None => undefined UseAfterFree
  end.

(** The code that runs when the coroutine is resumed where it is suspended. *)
Definition continue : M World unit :=
  let! w := get in
  match at_ w with
  | AtStart => start
  | AtHandshake => process_handshake ;;; after_start
  | AtInit => after_init
  | AtThrottle rd =>
      let! s := this in
      match toSend s with
      | Some a => send (SentData a rd)
      | None => undefined EmptyOptional
      end ;;;
      update (set_nextRead None) ;;;
      asyncRead ;;;
      await_next loop_fuel
  | AtWrite => process_p ;;; checkExcept ;;; run_loop loop_fuel
  | AtMessages => process_p ;;; take_messages ;;; run_loop loop_fuel
  | Ended | Threw _ => ret tt
  end.

(** [RunningProcess::resume]: an exception ends the process. *)
Definition resume : M World unit :=
  modify (λ w, set_resumes (resumes w + 1)%N w) ;;;
  try_catch continue (λ what, suspend (Threw what)).

(** ** Events *)

(** The end of the process: the frame and the members go, the socket is cancelled and
    closed. Operations that are outstanding complete with [operation_aborted]. *)
Definition owned_buffers (w : World) : list Buffer :=
  match at_ w with AtThrottle rd => [data rd] | _ => [] end ++
  match this_ w with
  | Some s =>
      match at_ w, nextRead s with
      | AtThrottle _, _ | _, None => []
      | _, Some rd => [data rd]
      end ++ send_data s ++ (send_many_data s ≫= buffers)
  | None => []
  end.

Definition destroy : M World unit :=
  let! w := get in
  destroy_all (owned_buffers w) ;;;
  modify (λ w,
    set_queued (queued w ++ replicate (reads w) (ReadDone operation_aborted []) ++
                (const (WriteDone operation_aborted) <$> writes w) ++
                replicate (shakes w) (HandshakeDone operation_aborted))
      (set_reads 0 (set_writes [] (set_shakes 0 (set_handshake None (set_this None (set_at Ended w))))))).

(** The process is not waiting to be destroyed, and its coroutine has not ended. *)
Definition running (w : World) : bool :=
  match this_ w, at_ w with
  | None, _ | _, Ended | _, Threw _ => false
  | _, _ => true
  end.

(** What the rest of the program, the network and the scheduler do to it. *)
Inductive event :=
  | Start                                            (** the first resumption *)
  | Continuation                                     (** the oldest posted continuation *)
  | Receive (bytes : list byte) (keep : bool)        (** a message in [send_data]; the sender keeps the buffer *)
  | Deliver (b : Buffer)                             (** a buffer that exists, moved into [send_data] *)
  | ReceiveMany (pieces : list (list byte))          (** a message in [send_many_data] *)
  | ReceiveInit (a : SendAddress)                    (** a message in [init] *)
  | Throttled                                        (** [sendThrottled] has sent *)
  | ReadCompletes (e : io_error) (bytes : list byte)
  | WriteCompletes (e : io_error)
  | HandshakeCompletes (e : io_error)
  | RunHandler                                       (** the oldest queued completion *)
  | Destroy.

(** Messages resume a process that waits for their slot; the others are queued. *)
Definition waits_for_data (w : World) : bool :=
  match at_ w with AtMessages => true | _ => false end.
Definition waits_for_init (w : World) : bool :=
  match at_ w with AtInit => true | _ => false end.

Definition make_buffers (l : list (list byte)) : M Heap (list Buffer) :=
  foldr (λ bytes m, let! b := makeCopy bytes in let! bs := m in ret (b :: bs)) (ret []) l.

Definition run_completion (c : Completion) : M World unit :=
  match c with
  | ReadDone e bytes => on_read e bytes
  | WriteDone e => on_write e
  | HandshakeDone e => on_handshake e
  end.

Definition handle (e : event) : M World unit :=
  let! w := get in
  match e with
  | Start => match at_ w with AtStart => resume | _ => ret tt end
  | Continuation =>
      match posted w with
      | [] => ret tt
      | n :: rest =>
          modify (set_posted rest) ;;;
          if running w then if bool_decide (resumes w = n) then resume else ret tt else ret tt
      end
  | Receive bytes keep =>
      if running w then
        let! b := on_heap (makeCopy bytes) in
        (if keep then on_heap (copy_Buffer b) ;;; ret tt else ret tt) ;;;
        update (λ s, set_send_data (send_data s ++ [b]) s) ;;;
        if waits_for_data w then resume else ret tt
      else ret tt
  | Deliver b =>
      if running w then
        update (λ s, set_send_data (send_data s ++ [b]) s) ;;;
        if waits_for_data w then resume else ret tt
      else ret tt
  | ReceiveMany pieces =>
      if running w then
        let! bs := on_heap (make_buffers pieces) in
        update (λ s, set_send_many_data (send_many_data s ++ [mkBufferCollection bs]) s) ;;;
        if waits_for_data w then resume else ret tt
      else ret tt
  | ReceiveInit a =>
      if running w then
        update (λ s, set_init (init s ++ [a]) s) ;;;
        if waits_for_init w then resume else ret tt
      else ret tt
  | Throttled => match at_ w with AtThrottle _ => resume | _ => ret tt end
  | ReadCompletes e bytes =>
      match reads w with
      | 0 => ret tt
      | Datatypes.S n => modify (λ w, set_queued (queued w ++ [ReadDone e bytes]) (set_reads n w))
      end
  | WriteCompletes e =>
      match writes w with
      | [] => ret tt
      | _ :: rest => modify (λ w, set_queued (queued w ++ [WriteDone e]) (set_writes rest w))
      end
  | HandshakeCompletes e =>
      match shakes w with
      | 0 => ret tt
      | Datatypes.S n => modify (λ w, set_queued (queued w ++ [HandshakeDone e]) (set_shakes n w))
      end
  | RunHandler =>
      match queued w with
      | [] => ret tt
      | c :: rest => modify (set_queued rest) ;;; run_completion c
      end
  | Destroy => match this_ w with Some _ => destroy | None => ret tt end
  end.

(** Only [destroy] aborts operations. *)
Definition allowed (e : event) : Prop :=
  match e with
  | ReadCompletes e _ | WriteCompletes e | HandshakeCompletes e => e ≠ operation_aborted
  | _ => True
  end.

Definition script (l : list event) : M World unit := for_each handle l.

Inductive reachable : World → Prop :=
  | reach_new pid ssl throttled onReady h : reachable (new_world pid ssl throttled onReady h)
  | reach_step w e w' : reachable w → allowed e → handle e w = Ok tt w' → reachable w'.
