(* ===== verification/SocketFacts.v ===== *)
(** * Correctness of the process of a connection

    The invariant of [Socket.World] over every sequence of events: at most one read
    and one write are under way, nothing that was read is overwritten before it was
    passed on, and a resumption always reaches the next suspension. Then what the
    handlers do to the data, and where data and memory get lost. *)

From Stdlib Require Import Strings.Byte.
From S2P Require Import Prelude.
From S2P Require Import Hoare.
From S2P Require Import BaseTypes.
From S2P Require Import Future.
From S2P Require Import Buffers.
From S2P Require Import Socket.

(** ** Specifications

    The process may use freed memory, but neither runs out of fuel nor reads an empty
    optional. *)

Definition excluded (h : halt) : Prop := h = OutOfFuel ∨ h = Undefined EmptyOptional.

Abbreviation triple := (Hoare.spec excluded).

Lemma not_excluded_undefined u : u ≠ EmptyOptional → ¬ excluded (Undefined u).
Proof. intros Hu [|]; congruence. Qed.
Lemma not_excluded_terminated : ¬ excluded Terminated.
Proof. by intros [|]. Qed.
#[export] Hint Resolve not_excluded_terminated : total.
#[export] Hint Extern 1 (¬ excluded (Undefined _)) => by apply not_excluded_undefined : total.

(** ** Heap operations *)

Abbreviation harmless := (Hoare.total excluded).

Lemma total_load_buff p : harmless (load_buff p).
Proof. intros P h _. unfold load_buff. destruct (buffs h !! p); [done|]. auto with total. Qed.
Lemma total_new_Buff d : harmless (new_Buff d).
Proof. by intros P h _. Qed.
#[export] Hint Resolve total_load_buff total_new_Buff : total.
#[export] Hint Extern 1 (harmless (undefined _)) => apply total_stop; auto with total : total.

Lemma total_add_ref p : harmless (intrusive_ptr_add_ref p).
Proof. unfold intrusive_ptr_add_ref, store_buff. total_solve. Qed.
Lemma total_release p : harmless (intrusive_ptr_release p).
Proof. unfold intrusive_ptr_release, delete_buff, store_buff. total_solve. Qed.
#[export] Hint Resolve total_add_ref total_release : total.
Lemma total_make d : harmless (Buffers.make d).
Proof. unfold Buffers.make, construct_Buffer. total_solve. Qed.
Lemma total_copy b : harmless (copy_Buffer b).
Proof. unfold copy_Buffer. total_solve. Qed.
Lemma total_destroy b : harmless (destroy_Buffer b).
Proof. apply total_release. Qed.
Lemma total_range b : harmless (range b).
Proof. unfold range. total_solve. Qed.
#[export] Hint Resolve total_make total_copy total_destroy total_range : total.
Lemma total_combine c : harmless (combine c).
Proof.
  unfold combine. apply total_bind; [|total_solve].
  induction (buffers c) as [|b l IH]; simpl; total_solve.
Qed.
Lemma total_make_buffers l : harmless (make_buffers l).
Proof. induction l as [|x l IH]; simpl; [total_solve|]. unfold makeCopy. total_solve. Qed.
#[export] Hint Resolve total_combine total_make_buffers : total.

(** They leave everything else in the world alone. *)
Lemma spec_on_heap {A} (m : M Heap A) (P E : World → Prop) :
  harmless m → (∀ w h, P w → P (set_heap h w)) → triple P (on_heap m) P E.
Proof.
  intros Hm HP w Hw. specialize (Hm (λ _, False) (heap w) I). unfold on_heap.
  destruct (m (heap w)); [by apply HP|done|done].
Qed.

(** ** The invariant *)

Definition is_read (c : Completion) : bool := match c with ReadDone _ _ => true | _ => false end.
Definition is_write (c : Completion) : bool :=
  match c with WriteDone operation_aborted => false | WriteDone _ => true | _ => false end.
Definition number (f : Completion → bool) (l : list Completion) : nat := length (List.filter f l).

(** Reads that have not run their handler; writes likewise, but for the aborted. *)
Definition pending_reads (w : World) : nat := reads w + number is_read (queued w).
Definition pending_writes (w : World) : nat := length (writes w) + number is_write (queued w).

(** Predicates on where [run] is, the members, and the pending operations. *)
Abbreviation Pred := (Control → SocketObject → nat → nat → Prop).
Definition holding (K : Pred) (w : World) : Prop :=
  ∃ s, this_ w = Some s ∧ K (at_ w) s (pending_reads w) (pending_writes w).

Definition held (s : SocketObject) : nat := match nextRead s with Some _ => 1 | None => 0 end.

(** One read at a time, until its data has been passed on; a write exactly while
    [isWriting]; nothing is read before there is somebody to send it to. *)
Definition core : Pred := λ _ s r x,
  r + held s ≤ 1 ∧ x = (if isWriting s then 1 else 0) ∧ (r + held s ≠ 0 → toSend s ≠ None).

(** While it writes, the promise of the process is not signalled. *)
Definition calm_promise : Pred := λ _ s _ _, isWriting s = true → set_ (p_ s) = false.

Definition settled : Pred := λ c s r x,
  core c s r x ∧
  match c with
  | AtStart | AtHandshake | AtInit => r + held s = 0 ∧ isWriting s = false
  | AtThrottle _ => held s = 1 ∧ calm_promise c s r x
  | AtMessages => isWriting s = false
  | _ => True
  end.

Definition gone (w : World) : Prop := this_ w = None ∧ at_ w = Ended.
Definition inv (w : World) : Prop := gone w ∨ holding settled w.

(** ** Rules for the steps of the process *)

Section steps.
Implicit Types (K : Pred) (E : World → Prop).

Lemma spec_this {A} (k : SocketObject → M World A) K Q E :
  (∀ s, triple (holding (λ c s' r x, s' = s ∧ K c s r x)) (k s) Q E) →
  triple (holding K) (bind this k) Q E.
Proof.
  intros Hk w (s & Hs & HK). unfold bind, this. rewrite Hs. apply (Hk s). by exists s.
Qed.

Lemma spec_weaken {A} (m : M World A) K K' Q E :
  triple (holding K') m Q E → (∀ c s r x, K c s r x → K' c s r x) → triple (holding K) m Q E.
Proof. intros Hm HK. eapply spec_pre; [exact Hm|]. intros w (s & Hs & H). exists s. auto. Qed.

Lemma spec_absurd {A} (m : M World A) K Q E :
  (∀ c s r x, ¬ K c s r x) → triple (holding K) m Q E.
Proof. intros HK w (s & _ & H). by apply HK in H. Qed.

Lemma spec_update f K K' E :
  (∀ c s r x, K c s r x → K' c (f s) r x) → triple (holding K) (update f) (holding K') E.
Proof.
  intros H w (s & Hs & HK). unfold update, bind, this. rewrite Hs. exists (f s). split; [done|].
  by apply H.
Qed.

Lemma spec_update_promise f K K' E :
  (∀ c s r x, K c s r x → K' c (set_p (f (p_ s)).1 s) r x) →
  triple (holding K) (update_promise f) (holding K') E.
Proof.
  intros H w (s & Hs & HK). unfold update_promise, update, bind, this. rewrite Hs.
  specialize (H _ _ _ _ HK). destruct (f (p_ s)) as [p' posts]. simpl. rewrite Hs. simpl.
  by eexists.
Qed.

Lemma spec_suspend c K K' E :
  (∀ c0 s r x, K c0 s r x → K' c s r x) → triple (holding K) (suspend c) (holding K') E.
Proof. intros H w (s & Hs & HK). exists s. split; [done|]. by eapply H. Qed.

Lemma spec_asyncRead K K' E :
  (∀ c s r x, K c s r x → K' c s (Datatypes.S r) x) → triple (holding K) asyncRead (holding K') E.
Proof.
  intros H w (s & Hs & HK). unfold asyncRead, bind, this. rewrite Hs. exists s. split; [done|].
  by apply H in HK.
Qed.

Lemma spec_send m K E : triple (holding K) (send m) (holding K) E.
Proof. by intros w (s & Hs & HK); exists s. Qed.

Lemma spec_heap {A} (m : M Heap A) K E : harmless m → triple (holding K) (on_heap m) (holding K) E.
Proof. intros Hm. apply spec_on_heap; [done|]. by intros w h (s & Hs & HK); exists s. Qed.

Lemma spec_destroy_all l K : triple (holding K) (destroy_all l) (holding K) (holding K).
Proof. apply spec_for_each. intros b. apply spec_heap. auto with total. Qed.

Lemma spec_checkExcept K : triple (holding K) checkExcept (holding K) (holding K).
Proof.
  apply spec_this. intros s.
  assert (Hw : ∀ w, holding (λ c s' r x, s' = s ∧ K c s r x) w → holding K w)
    by (intros w (s' & Hs' & -> & HK); by exists s).
  destruct (except_ s) as [x|]; [destruct (maybeThrowException x)|].
  - by apply spec_throw.
  - eapply spec_pre; [apply spec_ret|done].
  - eapply spec_pre; [apply spec_ret|done].
Qed.

Lemma set_setContinuation (p : Promise) n : set_ (setContinuation tt n p).1 = set_ p.
Proof. unfold setContinuation, set. destruct p as [e [] x]; done. Qed.

Lemma spec_suspend_on_p c K K' E :
  (∀ c0 s r x p, K c0 s r x → set_ p = set_ (p_ s) → K' c (set_p p s) r x) →
  triple (holding K) (suspend_on_p c) (holding K') E.
Proof.
  intros H. unfold suspend_on_p. eapply spec_bind.
  - apply (spec_suspend _ _ (λ c1 s r x, c1 = c ∧ ∃ c0, K c0 s r x)). intros c0 s r x HK. eauto.
  - intros []. apply spec_get. intros w Hw. eapply spec_pre; [apply spec_update_promise|].
    2: { intros w' ->. exact Hw. }
    intros c1 s r x (-> & c0 & HK). eapply H; [done|]. apply set_setContinuation.
Qed.
End steps.

(** ** The coroutine between two suspensions *)

Definition ready_to_write : Pred := λ c s r x, core c s r x ∧ isWriting s = false.
Definition turning : Pred := λ c s r x, core c s r x ∧ calm_promise c s r x.
Definition writing : Pred := λ c s r x, turning c s r x ∧ isWriting s = true.

(** There are messages to take, if [b]. *)
Definition has_messages (b : bool) (s : SocketObject) : Prop :=
  b = true → send_data s ≠ [] ∨ send_many_data s ≠ [].

Lemma spec_write b : triple (holding ready_to_write) (write b) (holding writing) (holding core).
Proof.
  unfold write. eapply spec_bind.
  { apply (spec_update _ _ (λ c s r x, core c (set_isWriting false s) r x ∧ isWriting s = true)).
    intros c s r x [(Hr & Hx & Ht) Hw]. rewrite Hw in Hx. by repeat split. }
  intros []. eapply spec_bind.
  { apply (spec_update _ _ (λ c s r x,
      core c (set_isWriting false s) r x ∧ isWriting s = true ∧ set_ (p_ s) = false)).
    intros c s r x [Hc Hw]. done. }
  intros []. eapply spec_bind; [|intros []; apply spec_heap; auto with total].
  apply spec_modify. intros w (s & Hs & (Hr & Hx & Ht) & Hw & Hp). exists s. split; [done|].
  unfold pending_writes in *. simpl in *. rewrite length_app. simpl.
  split; [|done]. split; [|by intros _]. repeat split; try done. rewrite Hw. lia.
Qed.

Lemma spec_consequence {A} (m : M World A) (K K' K1 : Pred) E E' :
  triple (holding K1) m (holding K1) (holding K1) →
  (∀ c s r x, K c s r x → K1 c s r x) → (∀ c s r x, K1 c s r x → K' c s r x) →
  (∀ c s r x, K1 c s r x → E' c s r x) → E = holding E' →
  triple (holding K) m (holding K') E.
Proof.
  intros Hm H1 H2 H3 ->. eapply spec_weaken; [|exact H1]. eapply spec_post; [exact Hm| |];
    intros w (s & Hs & HK); exists s; auto.
Qed.

Lemma spec_take_messages (b : bool) :
  triple (holding (λ c s r x, ready_to_write c s r x ∧ has_messages b s)) take_messages
    (holding (λ c s r x, turning c s r x ∧ (b = true → isWriting s = true))) (holding core).
Proof.
  apply spec_this. intros s0.
  set (K1 := λ c s r x, ready_to_write c s r x ∧ has_messages b s0). eapply spec_bind.
  { apply (spec_update _ _ K1). by intros c s r x (-> & (Hc & Hw) & Hm). }
  intros []. eapply spec_bind.
  { apply (spec_consequence _ K1 K1 K1 _ core); [|done|done| |done].
    - apply spec_on_throw; [auto with total|apply spec_checkExcept|apply spec_destroy_all].
    - by intros c s r x [[Hc _] _]. }
  intros []. eapply spec_bind.
  - assert (Hwrite : ∀ (m : M Heap Buffer), harmless m →
      triple (holding K1) (let! buff := on_heap m in write buff)
        (holding (λ c s r x, turning c s r x ∧ (b = true → isWriting s = true))) (holding core)).
    { intros m Hm. eapply spec_bind; [by apply spec_heap|]. intros buff.
      eapply spec_weaken; [|by intros c s r x [H _]]. eapply spec_post; [apply spec_write| |done].
      intros w (s & Hs & Ht & Hw). by exists s. }
    destruct (head (send_data s0)) as [d|] eqn:Hd; [apply Hwrite; auto with total|].
    destruct (head (send_many_data s0)) as [m|] eqn:Hm; [apply Hwrite; auto with total|].
    eapply spec_weaken; [apply spec_ret|]. intros c s r x [[Hc Hw] Hmsg]. split.
    + split; [done|]. intros H. congruence.
    + intros ->. destruct Hmsg as [H|H]; [done|by destruct (send_data s0)|by destruct (send_many_data s0)].
  - intros []. eapply spec_post; [apply spec_destroy_all|done|]. intros w (s & Hs & [Hc _] & _).
    by exists s.
Qed.

(** What a resumption leads to. *)
Abbreviation runs_on m K := (triple (holding K) m (holding settled) (holding core)).

Lemma await_next_writing n : runs_on (await_next (Datatypes.S n)) writing.
Proof.
  simpl. apply spec_this. intros s0.
  destruct (isWriting s0) eqn:Hw0;
    [|apply spec_absurd; intros c s r x (-> & _ & Hw); congruence].
  unfold isReady. destruct (set_ (p_ s0)) eqn:Hp0;
    [apply spec_absurd; intros c s r x (-> & [_ Hcalm] & Hw);
     rewrite (Hcalm Hw) in Hp0; done|].
  apply spec_suspend_on_p. by intros c s r x p (-> & [Hc _] & Hw) _.
Qed.

Lemma run_loop_writing n : runs_on (run_loop (2 + n)) writing.
Proof.
  cbn [Nat.add run_loop]. apply spec_this. intros s0. destruct (eof_ s0).
  { apply spec_suspend. intros c s r x (-> & [Hc _] & _). by split. }
  destruct (nextRead s0) as [rd|] eqn:Hrd.
  - destruct (toSend s0) as [a|] eqn:Ha.
    + apply spec_suspend. intros c s r x (-> & [Hc Hcalm] & Hw). split; [done|]. split; [|done].
      unfold held. by rewrite Hrd.
    + apply spec_absurd. intros c s r x (-> & [(_ & _ & Ht) _] & _).
      apply Ht in Ha; [done|]. unfold held. rewrite Hrd. lia.
  - eapply spec_weaken; [apply (await_next_writing n)|]. by intros c s r x [-> H].
Qed.

Lemma await_next_turning n : runs_on (await_next (3 + n)) turning.
Proof.
  change (3 + n) with (Datatypes.S (2 + n)). intros w Hw.
  destruct Hw as (s0 & Hs0 & Ht). destruct (isWriting s0) eqn:Hw0.
  { apply await_next_writing. by exists s0. }
  revert w Hs0 Ht. cut (runs_on (await_next (3 + n)) (λ c s r x, s = s0 ∧ turning c s r x)).
  { intros H w Hs0 Ht. apply H. by exists s0. }
  cbn [Nat.add await_next]. apply spec_this. intros s1.
  set (K := λ c s r x, s = s1 ∧ s1 = s0 ∧ turning c s1 r x).
  destruct (isWriting s1) eqn:Hw1.
  { apply spec_absurd. intros c s r x (-> & -> & _). congruence. }
  assert (Htake : has_messages true s1 → runs_on (take_messages ;;; run_loop (2 + n)) K).
  { intros Hm. eapply spec_bind.
    - eapply spec_weaken; [apply (spec_take_messages true)|].
      by intros c s r x (-> & _ & [Hc _]).
    - intros []. eapply spec_weaken; [apply run_loop_writing|]. intros c s r x [Ht Hw]. split; auto. }
  destruct (send_data s1) as [|d ds] eqn:Hd; [destruct (send_many_data s1) as [|m ms] eqn:Hm|].
  - apply spec_suspend_on_p. intros c s r x p (-> & _ & [Hc _]) _. done.
  - apply Htake. intros _. right. by rewrite Hm.
  - apply Htake. intros _. left. by rewrite Hd.
Qed.

Lemma run_loop_turning n : runs_on (run_loop (4 + n)) turning.
Proof.
  change (4 + n) with (Datatypes.S (3 + n)). cbn [run_loop]. apply spec_this. intros s0.
  destruct (eof_ s0).
  { apply spec_suspend. intros c s r x (-> & [Hc _]). by split. }
  destruct (nextRead s0) as [rd|] eqn:Hrd.
  - destruct (toSend s0) as [a|] eqn:Ha.
    + apply spec_suspend. intros c s r x (-> & [Hc Hcalm]). split; [done|]. split; [|done].
      unfold held. by rewrite Hrd.
    + apply spec_absurd. intros c s r x (-> & (_ & _ & Ht) & _).
      apply Ht in Ha; [done|]. unfold held. rewrite Hrd. lia.
  - eapply spec_weaken; [apply (await_next_turning n)|]. by intros c s r x [-> H].
Qed.

(** ** A resumption *)

Lemma spec_frame f K E :
  (∀ w, this_ (f w) = this_ w ∧ at_ (f w) = at_ w ∧ reads (f w) = reads w ∧
        writes (f w) = writes w ∧ queued (f w) = queued w) →
  triple (holding K) (modify f) (holding K) E.
Proof.
  intros Hf. apply spec_modify. intros w (s & Hs & HK). destruct (Hf w) as (H1 & H2 & H3 & H4 & H5).
  exists s. unfold pending_reads, pending_writes. by rewrite H1, H2, H3, H4, H5.
Qed.

Lemma spec_process_p K K' :
  (∀ c s r x, K c s r x → core c s r x) →
  (∀ c s r x p, K c s r x → set_ p = false → K' c (set_p p s) r x) →
  triple (holding K) process_p (holding K') (holding core).
Proof.
  intros Hc HK'. apply spec_this. intros s0. destruct (process (p_ s0)) as [p'|e] eqn:Hp.
  - apply spec_update. intros c s r x [-> HK]. apply HK'; [done|]. unfold process in Hp.
    destruct (exception_ (p_ s0)); repeat (case_match; simplify_eq/=); done.
  - apply spec_throw. intros w (s & Hs & -> & HK). exists s0. eauto.
Qed.

(** Before the loop nothing is read or written. *)
Definition early : Pred := λ c s r x, core c s r x ∧ r + held s = 0 ∧ isWriting s = false.

Lemma run_after_init : runs_on after_init early.
Proof.
  apply spec_this. intros s0. destruct (init s0) as [|a rest].
  { apply spec_throw. intros w (s & Hs & -> & Hc & _). by exists s0. }
  eapply spec_bind.
  { apply (spec_update _ _ (λ c s r x, early c s r x ∧ toSend s ≠ None)).
    intros c s r x (-> & (Hr & Hx & Ht) & He). split; [|done]. split; [|exact He].
    split; [exact Hr|]. by split. }
  intros []. eapply spec_bind; [|intros []; apply (run_loop_turning 2)].
  apply spec_asyncRead. intros c s r x (((Hr & Hx & _) & He & Hw) & Ht). split.
  - repeat split; [lia|done|done].
  - intros H. congruence.
Qed.

Lemma run_after_start : runs_on after_start early.
Proof.
  apply spec_this. intros s0.
  eapply spec_weaken with (K' := early); [|by intros c s r x [-> H]].
  eapply spec_bind; [apply spec_send|]. intros [].
  destruct (init s0); [|apply run_after_init]. apply spec_suspend. intros c s r x (Hc & He). by split.
Qed.

Lemma run_start : runs_on start early.
Proof.
  apply spec_this. intros s0.
  eapply spec_weaken with (K' := early); [|by intros c s r x [-> H]].
  destruct (ssl s0); [|apply run_after_start]. apply spec_get. intros w Hw.
  eapply spec_pre with (P' := holding early); [|by intros w' ->].
  eapply spec_bind; [by apply spec_frame|]. intros [].
  eapply spec_bind; [by apply spec_frame|]. intros [].
  apply spec_suspend. intros c s r x (Hc & He). by split.
Qed.

Lemma run_process_handshake : triple (holding early) process_handshake (holding early) (holding core).
Proof.
  apply spec_get. intros w Hw. eapply spec_pre with (P' := holding early); [|by intros w' ->].
  destruct (handshake w) as [p|]; [|apply spec_stop; auto with total].
  destruct (process p); [by apply spec_frame|]. apply spec_throw.
  intros w' (s & Hs & Hc & _). by exists s.
Qed.

Definition at_control (c0 : Control) (K : Pred) : Pred := λ c s r x, c = c0 ∧ K c s r x.

Lemma run_throttled rd :
  runs_on (let! s := this in
           match toSend s with
           | Some a => send (SentData a rd)
           | None => undefined EmptyOptional
           end ;;;
           update (set_nextRead None) ;;;
           asyncRead ;;;
           await_next loop_fuel) (at_control (AtThrottle rd) settled).
Proof.
  apply spec_this. intros s0. destruct (toSend s0) as [a|] eqn:Ha.
  - eapply spec_bind; [apply spec_send|]. intros [].
    eapply spec_bind with (R := holding (λ c s r x,
      turning c s r x ∧ r = 0 ∧ held s = 0 ∧ toSend s ≠ None)).
    { apply spec_update. intros c s r x (-> & -> & (Hr & Hx & Ht) & Hh & Hp).
      rewrite Hh in Hr. assert (r = 0) as -> by lia. split; [|by simpl; rewrite Ha].
      split; [|exact Hp]. split; [simpl; unfold held; simpl; lia|done]. }
    intros []. eapply spec_bind; [|intros []; apply (await_next_turning 3)].
    apply spec_asyncRead. intros c s r x ([(Hr & Hx & _) Hp] & -> & Hh & Ht). split; [|exact Hp].
    repeat split; [lia|done|done].
  - apply spec_bind with (R := λ _, False); [|by intros ? ? []].
    apply spec_absurd. intros c s r x (-> & -> & (_ & _ & Ht) & Hh & _).
    apply Ht in Ha; [done|]. lia.
Qed.

Lemma run_at_write :
  runs_on (process_p ;;; checkExcept ;;; run_loop loop_fuel) (at_control AtWrite settled).
Proof.
  eapply spec_bind; [apply (spec_process_p _ turning)|].
  - by intros c s r x (-> & Hc & _).
  - intros c s r x p (-> & Hc & _) Hp. split; [exact Hc|by intros _].
  - intros []. eapply spec_bind; [|intros []; apply (run_loop_turning 2)].
    eapply spec_post; [apply spec_checkExcept|done|]. intros w (s & Hs & Hc & _). by exists s.
Qed.

Lemma run_at_messages :
  runs_on (process_p ;;; take_messages ;;; run_loop loop_fuel) (at_control AtMessages settled).
Proof.
  eapply spec_bind; [apply (spec_process_p _ ready_to_write)|].
  - by intros c s r x (-> & Hc & _).
  - intros c s r x p (-> & Hc & Hw) Hp. by split.
  - intros []. eapply spec_bind.
    + eapply spec_weaken; [apply (spec_take_messages false)|]. by intros c s r x H.
    + intros []. eapply spec_weaken; [apply (run_loop_turning 2)|]. by intros c s r x [H _].
Qed.

Lemma run_continue : runs_on continue settled.
Proof.
  apply spec_get. intros w (s & Hs & Hw).
  destruct (at_ w) as [| | |rd| | |what|what] eqn:Hat.
  - eapply spec_pre; [apply run_start|]. intros w' ->. exists s. rewrite Hat.
    split; [done|]. destruct Hw. by split.
  - eapply spec_pre with (P' := holding early).
    + eapply spec_bind; [apply run_process_handshake|]. intros []. apply run_after_start.
    + intros w' ->. exists s. rewrite Hat. split; [done|]. destruct Hw. by split.
  - eapply spec_pre; [apply run_after_init|]. intros w' ->. exists s. rewrite Hat.
    split; [done|]. destruct Hw. by split.
  - eapply spec_pre; [apply (run_throttled rd)|]. intros w' ->. exists s. rewrite Hat. by split.
  - eapply spec_pre; [apply run_at_write|]. intros w' ->. exists s. rewrite Hat. by split.
  - eapply spec_pre; [apply run_at_messages|]. intros w' ->. exists s. rewrite Hat. by split.
  - eapply spec_pre; [apply spec_ret|]. intros w' ->. exists s. rewrite Hat. by split.
  - eapply spec_pre; [apply spec_ret|]. intros w' ->. exists s. rewrite Hat. by split.
Qed.

Lemma run_resume : runs_on resume settled.
Proof.
  unfold resume. eapply spec_bind; [by apply spec_frame|]. intros [].
  apply spec_try_catch; [apply run_continue|]. intros what. apply spec_suspend. by split.
Qed.

(** ** Handlers *)

Definition popped (f : nat → nat) (g : nat → nat) : Pred := λ c s r x, settled c s (f r) (g x).
Abbreviation handles m K := (triple (holding K) m (holding settled) (λ _, True)).
Abbreviation after_read := (popped Datatypes.S id).
Abbreviation after_write := (popped id Datatypes.S).

Lemma spec_setValue K K' E :
  (∀ c s r x p, K c s r x → K' c (set_p p s) r x) → triple (holding K) setValue (holding K') E.
Proof. intros H. apply spec_update_promise. intros c s r x. apply H. Qed.

(** [K] says nothing of the promise and of the exception. *)
Lemma spec_setError m K E :
  (∀ c s r x p e, K c s r x → K c (set_p p s) r x ∧ K c (set_except e s) r x) →
  triple (holding K) (setError m) (holding K) E.
Proof.
  intros H. unfold setError, setException. eapply spec_bind; [apply spec_setValue|].
  - intros c s r x p HK. apply (H c s r x p None HK).
  - intros []. apply spec_update. intros c s r x HK. destruct (except_ s); [done|].
    by apply (H c s r x (p_ s)).
Qed.

(** In the loop, and not passing anything on. *)
Definition reading : Pred := λ c s r x,
  r + held s ≤ 1 ∧ toSend s ≠ None ∧ x = (if isWriting s then 1 else 0) ∧
  match c with
  | AtStart | AtHandshake | AtInit | AtThrottle _ => False
  | AtMessages => isWriting s = false
  | _ => True
  end.
Definition read_taken : Pred := λ c s r x, reading c s r x ∧ r = 0 ∧ held s = 0.

Lemma after_read_taken c s r x : after_read c s r x → read_taken c s r x.
Proof.
  intros [(Hr & Hx & Ht) H]. unfold id in *. split; [|lia]. split; [lia|].
  split; [apply Ht; lia|]. split; [done|]. destruct c; try done; lia.
Qed.

Lemma reading_settled c s r x : reading c s r x → settled c s r x.
Proof. intros (Hr & Ht & Hx & Hc). split; [by split|]. by destruct c. Qed.

Lemma handles_reading (m : M World unit) K :
  triple (holding K) m (holding reading) (λ _, True) → handles m K.
Proof.
  intros Hm. eapply spec_post; [exact Hm| |done]. intros w (s & Hs & HK). exists s.
  split; [done|]. by apply reading_settled.
Qed.

Lemma spec_setValue_reading E : triple (holding reading) setValue (holding reading) E.
Proof. by apply spec_setValue. Qed.

Lemma handle_read e bytes : handles (on_read e bytes) after_read.
Proof.
  apply handles_reading. eapply spec_weaken; [|exact after_read_taken].
  assert (Hagain : triple (holding read_taken) asyncRead (holding reading) (λ _, True)).
  { apply spec_asyncRead. intros c s r x ((_ & H) & -> & Hh). split; [lia|done]. }
  assert (Hforget : ∀ w, holding read_taken w → holding reading w)
    by (intros w (s & Hs & H & _); by exists s).
  destruct e as [| | |message].
  - destruct bytes as [|b bytes]; [exact Hagain|]. apply spec_this. intros s0.
    set (K0 := λ c s r x, s = s0 ∧ read_taken c s0 r x).
    eapply spec_bind with (R := holding K0).
    { apply (spec_heap _ K0). apply total_make. }
    intros buff. destruct (throttled s0).
    + eapply spec_bind with (R := holding reading).
      * apply spec_update. intros c s r x (-> & H & -> & _). split; [unfold held; simpl; lia|apply H].
      * intros []. apply spec_setValue_reading.
    + destruct (toSend s0) as [a|] eqn:Ha.
      * eapply spec_bind; [apply spec_send|]. intros [].
        eapply spec_weaken; [exact Hagain|]. by intros c s r x [-> H].
      * apply spec_absurd. intros c s r x (-> & (_ & Ht & _) & _). done.
  - eapply spec_pre; [apply spec_ret|exact Hforget].
  - eapply spec_pre; [|exact Hforget].
    eapply spec_bind; [|intros []; apply spec_setValue_reading]. by apply spec_update.
  - eapply spec_pre; [|exact Hforget]. by apply spec_setError.
Qed.

Lemma handle_write e : e ≠ operation_aborted → handles (on_write e) after_write.
Proof.
  intros He.
  (* The process is past the handshake, and nothing is written any more. *)
  set (K := λ c s r x, settled c s r x ∧ isWriting s = false).
  assert (Hfalse : triple (holding after_write) (update (set_isWriting false)) (holding K) (λ _, True)).
  { apply spec_update. intros c s r x [(Hr & Hx & Ht) H]. unfold id in *. split; [|done].
    destruct (isWriting s) eqn:Hw; [|done]. split; [split; [done|]; split; [simpl; lia|done]|].
    destruct c; try done; destruct H; try done; congruence. }
  assert (Hset : ∀ c s r x p, K c s r x → K c (set_p p s) r x).
  { intros c s r x p [[Hc H] Hw]. split; [|done]. split; [done|].
    destruct c; try done. destruct H. split; [done|]. intros Hw'. simpl in *. congruence. }
  assert (Hsettled : ∀ w, holding K w → holding settled w)
    by (intros w (s & Hs & H & _); by exists s).
  assert (Herror : ∀ m, handles (update (set_isWriting false) ;;; setError m) after_write).
  { intros m. eapply spec_bind; [exact Hfalse|]. intros [].
    eapply spec_post with (E' := λ _, True); [|exact Hsettled|done]. apply spec_setError.
    intros c s r x p e' HK. split; [by apply Hset|exact HK]. }
  destruct e as [| | |message]; [|done|apply Herror|apply Herror].
  eapply spec_bind; [exact Hfalse|]. intros [].
  eapply spec_post with (E' := λ _, True); [|exact Hsettled|done]. by apply spec_setValue.
Qed.

Lemma handle_handshake e K : triple (holding K) (on_handshake e) (holding K) (λ _, True).
Proof.
  assert (Hsignal : ∀ f : Promise → Promise * list (unit * N),
    triple (holding K) (let! w := get in
      match handshake w with
      | Some p => let (p', posts) := f p in modify (set_handshake (Some p')) ;;; post_all posts
      | None => undefined UseAfterFree
      end) (holding K) (λ _, True)).
  { intros f. apply spec_get. intros w Hw. eapply spec_pre with (P' := holding K); [|by intros w' ->].
    destruct (handshake w) as [p|]; [|apply spec_stop; auto with total]. destruct (f p) as [p' posts].
    eapply spec_bind; [by apply spec_frame|]. intros []. by apply spec_frame. }
  destruct e; simpl; [apply Hsignal|apply spec_ret|apply Hsignal|apply Hsignal].
Qed.

(** ** Events *)

Lemma number_snoc f l c : number f (l ++ [c]) = number f l + (if f c then 1 else 0).
Proof. unfold number. rewrite List.filter_app, length_app. simpl. by destruct (f c). Qed.
Lemma number_cons f l c : number f (c :: l) = (if f c then 1 else 0) + number f l.
Proof. unfold number. simpl. by destruct (f c). Qed.

Lemma spec_pending f w0 K E :
  pending_reads (f w0) = pending_reads w0 → pending_writes (f w0) = pending_writes w0 →
  this_ (f w0) = this_ w0 → at_ (f w0) = at_ w0 →
  holding K w0 → triple (λ w, w = w0) (modify f) (holding K) E.
Proof.
  intros Hr Hx Ht Ha (s & Hs & HK). apply spec_modify. intros w ->. exists s.
  by rewrite Hr, Hx, Ht, Ha.
Qed.

Lemma run_handler c rest w :
  queued w = c :: rest → holding settled w →
  triple (λ w', w' = w) (modify (set_queued rest) ;;; run_completion c) (holding settled) (λ _, True).
Proof.
  intros Hq (s & Hs & Hw).
  assert (Hpop : ∀ K, (K (at_ w) s (reads w + number is_read rest) (length (writes w) + number is_write rest)) →
    triple (λ w', w' = w) (modify (set_queued rest)) (holding K) (λ _, True)).
  { intros K HK. apply spec_modify. intros w' ->. by exists s. }
  unfold pending_reads, pending_writes in Hw. rewrite Hq, !number_cons in Hw.
  destruct c as [e bytes|e|e]; simpl in Hw.
  - eapply spec_bind; [|intros []; apply handle_read]. apply Hpop. by rewrite Nat.add_succ_r in Hw.
  - destruct e; simpl in Hw; rewrite ?Nat.add_succ_r in Hw;
      [|eapply spec_bind; [by apply Hpop|intros []; apply spec_ret]|..];
      (eapply spec_bind; [|intros []; by apply handle_write]; by apply Hpop).
  - eapply spec_bind; [by apply Hpop|]. intros []. apply handle_handshake.
Qed.

Lemma handle_holding e w :
  allowed e → holding settled w → triple (λ w', w' = w) (handle e) inv (λ _, True).
Proof.
  intros He Hw. apply spec_get. intros w' ->. 
  assert (Hinv : triple (λ w', w' = w) (ret tt) inv (λ _ : World, True)).
  { eapply spec_pre; [apply spec_ret|]. intros w' ->. by right. }
  assert (Hof : ∀ m : M World unit, handles m settled → triple (λ w', w' = w) m inv (λ _, True)).
  { intros m Hm w' ->. specialize (Hm w Hw). destruct (m w); [by right|done..]. }
  assert (Hpending : ∀ f, pending_reads (f w) = pending_reads w → pending_writes (f w) = pending_writes w →
    this_ (f w) = this_ w → at_ (f w) = at_ w → triple (λ w', w' = w) (modify f) inv (λ _, True)).
  { intros f H1 H2 H3 H4. eapply spec_post; [by apply (spec_pending _ _ settled (λ _, True))| |done]. by right. }
  assert (Hresume : handles resume settled) by (eapply spec_post; [apply run_resume|done|done]).
  assert (Hif : ∀ (b : bool) (m : M World unit), handles m settled → handles (if b then m else ret tt) settled).
  { intros [] m Hm; [done|apply spec_ret]. }
  destruct e as [| |bytes keep|b|pieces|a| |e bytes|e|e| |].
  - by destruct (at_ w); [apply Hof|..].
  - destruct (posted w) as [|n rest]; [done|]. apply Hof.
    eapply spec_bind; [by apply spec_frame|]. intros []. by do 2 apply Hif.
  - destruct (running w); [|done]. apply Hof.
    eapply spec_bind; [apply spec_heap, total_make|]. intros b. eapply spec_bind.
    { destruct keep; [|apply spec_ret]. eapply spec_bind; [apply spec_heap; auto with total|].
      intros _. apply spec_ret. }
    intros []. eapply spec_bind; [by apply (spec_update _ _ settled)|]. intros []. by apply Hif.
  - destruct (running w); [|done]. apply Hof.
    eapply spec_bind; [by apply (spec_update _ _ settled)|]. intros []. by apply Hif.
  - destruct (running w); [|done]. apply Hof.
    eapply spec_bind; [apply spec_heap; auto with total|]. intros bs.
    eapply spec_bind; [by apply (spec_update _ _ settled)|]. intros []. by apply Hif.
  - destruct (running w); [|done]. apply Hof.
    eapply spec_bind; [by apply (spec_update _ _ settled)|]. intros []. by apply Hif.
  - by destruct (at_ w); [..|apply Hof| | | |].
  - destruct (reads w) as [|n] eqn:Hn; [done|]. apply Hpending; [| |done..].
    + unfold pending_reads. rewrite Hn. simpl. rewrite number_snoc. simpl. lia.
    + unfold pending_writes. simpl. rewrite number_snoc. simpl. lia.
  - destruct (writes w) as [|b rest] eqn:Hn; [done|]. apply Hpending; [| |done..].
    + unfold pending_reads. simpl. rewrite number_snoc. simpl. lia.
    + unfold pending_writes. rewrite Hn. simpl. rewrite number_snoc. destruct e; [simpl; lia|done|simpl; lia..].
  - destruct (shakes w) as [|n] eqn:Hn; [done|]. apply Hpending; [| |done..].
    + unfold pending_reads. simpl. rewrite number_snoc. simpl. lia.
    + unfold pending_writes. simpl. rewrite number_snoc. simpl. lia.
  - destruct (queued w) as [|c rest] eqn:Hq; [done|].
    eapply spec_post; [by apply (run_handler c rest)| |done]. by right.
  - destruct (this_ w); [|done]. apply spec_get. intros w' ->.
    eapply spec_pre with (P' := holding settled); [|by intros w' ->].
    eapply spec_bind; [|intros []; apply spec_modify; by left].
    eapply spec_post; [apply spec_destroy_all|done|done].
Qed.

(** Once the process is gone, handlers use freed memory or do nothing. *)
Lemma spec_gone_this {A} (k : SocketObject → M World A) Q E : triple gone (bind this k) Q E.
Proof. intros w [Hw _]. unfold bind, this. rewrite Hw. by intros [|]. Qed.

Lemma gone_completion c : triple gone (run_completion c) gone (λ _, True).
Proof.
  assert (Herror : ∀ m, triple gone (setError m) gone (λ _, True)).
  { intros m w [Hw _]. unfold setError, setException, setValue, update_promise, bind, this.
    rewrite Hw. by intros [|]. }
  assert (Hupdate : ∀ f (m : M World unit), triple gone (update f ;;; m) gone (λ _, True)).
  { intros f m w [Hw _]. unfold update, bind, this. rewrite Hw. by intros [|]. }
  assert (Hsignal : ∀ f : Promise → Promise * list (unit * N),
    triple gone (let! w := get in
      match handshake w with
      | Some p => let (p', posts) := f p in modify (set_handshake (Some p')) ;;; post_all posts
      | None => undefined UseAfterFree
      end) gone (λ _, True)).
  { intros f. apply spec_get. intros w Hw. eapply spec_pre with (P' := gone); [|by intros w' ->].
    destruct (handshake w) as [p|]; [|apply spec_stop; auto with total]. destruct (f p) as [p' posts].
    eapply spec_bind with (R := gone); [by apply spec_modify|]. intros []. by apply spec_modify. }
  destruct c as [e bytes|e|e]; destruct e; simpl;
    first [apply spec_ret|apply Herror|apply Hupdate|apply Hsignal|destruct bytes; apply spec_gone_this].
Qed.

Lemma handle_gone e w : gone w → triple (λ w', w' = w) (handle e) gone (λ _, True).
Proof.
  intros Hw. apply spec_get. intros w' ->. destruct (id Hw) as [Ht Ha].
  assert (Hinv : triple (λ w', w' = w) (ret tt) gone (λ _ : World, True)).
  { eapply spec_pre; [apply spec_ret|]. by intros w' ->. }
  assert (Hgone : ∀ f, (∀ w, gone w → gone (f w)) → triple gone (modify f) gone (λ _, True)).
  { intros f Hf. apply spec_modify. intros w' Hw'. by apply Hf. }
  unfold running. rewrite ?Ht, ?Ha.
  destruct e as [| |bytes keep|b|pieces|a| |e bytes|e|e| |]; try done.
  - destruct (posted w); [done|]. eapply spec_pre with (P' := gone); [|by intros w' ->].
    eapply spec_bind; [by apply Hgone|]. intros []. apply spec_ret.
  - destruct (reads w); [done|]. eapply spec_pre with (P' := gone); [by apply Hgone|by intros w' ->].
  - destruct (writes w); [done|]. eapply spec_pre with (P' := gone); [by apply Hgone|by intros w' ->].
  - destruct (shakes w); [done|]. eapply spec_pre with (P' := gone); [by apply Hgone|by intros w' ->].
  - destruct (queued w) as [|c rest]; [done|]. eapply spec_pre with (P' := gone); [|by intros w' ->].
    eapply spec_bind with (R := gone); [by apply spec_modify|]. intros [].
    apply gone_completion.
Qed.

Lemma handle_inv e w : allowed e → inv w → triple (λ w', w' = w) (handle e) inv (λ _, True).
Proof. intros He [Hw|Hw]; [|by apply handle_holding].
  eapply spec_post; [by apply handle_gone|by left|done]. Qed.

Lemma reachable_inv w : reachable w → inv w.
Proof.
  induction 1 as [pid ssl throttled onReady h|w e w' _ IH He Hstep].
  - right. eexists. split; [done|]. split; [split; [cbn; lia|by split]|by split].
  - specialize (handle_inv e w He IH w eq_refl) as H. by rewrite Hstep in H.
Qed.

(** ** What holds of every connection *)

(** C18: At every moment of a connection's life, whatever messages, completions and
    continuations came in whatever order: at most one read of the socket is under way
    (counting completions still queued), none while data that was read waits to be
    passed on, and none before the owner said where to send it; and a write is under
    way exactly while [isWriting], never two. *)
Theorem one_read_one_write w s :
  reachable w → this_ w = Some s →
  pending_reads w ≤ 1 ∧ pending_writes w = (if isWriting s then 1 else 0) ∧
  (nextRead s ≠ None → pending_reads w = 0) ∧ (pending_reads w ≠ 0 → toSend s ≠ None).
Proof.
  intros Hw Hs. destruct (reachable_inv w Hw) as [[H _]|(s' & Hs' & (Hr & Hx & Ht) & _)]; [congruence|].
  rewrite Hs in Hs'. simplify_eq. unfold held in *. split; [lia|]. split; [done|]. split.
  - intros Hn. destruct (nextRead s'); [lia|done].
  - intros Hn. apply Ht. lia.
Qed.


(** ** Where data and memory get lost *)

(** Waiting for messages, with nothing to do. *)
Record idle (s : SocketObject) (w : World) : Prop := {
  idle_this : this_ w = Some s;
  idle_at : at_ w = AtMessages;
  idle_eof : eof_ s = false;
  idle_except : except_ s = None;
  idle_promise : exception_ (p_ s) = None;
  idle_writing : isWriting s = false;
  idle_read : nextRead s = None;
  idle_data : send_data s = [];
  idle_many : send_many_data s = [];
}.

(** References to the storage that [make] has just allocated. *)
Definition with_refs (data : list byte) (n : N) (h : Heap) : Heap :=
  mkHeap (<[next_buff h := mkBuff data n]> (buffs h)) (Pos.succ (next_buff h)).

Lemma add_ref_with_refs data n h :
  (n + 1 < u32_modulus)%N →
  intrusive_ptr_add_ref (next_buff h) (with_refs data n h) = Ok tt (with_refs data (n + 1) h).
Proof.
  intros Hn. unfold intrusive_ptr_add_ref, bind, load_buff, store_buff, modify, with_refs. simpl.
  rewrite lookup_insert_eq. simpl. rewrite insert_insert_eq. unfold wrap32. by rewrite N.mod_small.
Qed.

Lemma release_with_refs data n h :
  (1 < n < u32_modulus)%N →
  intrusive_ptr_release (next_buff h) (with_refs data n h) = Ok tt (with_refs data (n - 1) h).
Proof.
  intros Hn. unfold intrusive_ptr_release, bind, load_buff, store_buff, modify, with_refs. simpl.
  rewrite lookup_insert_eq. simpl. rewrite wrap32_pred by lia.
  rewrite bool_decide_eq_false_2 by lia. simpl. by rewrite insert_insert_eq.
Qed.

Lemma release_last data h :
  intrusive_ptr_release (next_buff h) (with_refs data 1 h) =
    Ok tt (mkHeap (delete (next_buff h) (buffs (with_refs data 1 h))) (Pos.succ (next_buff h))).
Proof.
  unfold intrusive_ptr_release, bind, load_buff, delete_buff, modify, with_refs. simpl.
  by rewrite lookup_insert_eq.
Qed.

(** The process after it has taken its messages and begun to write [b]. *)
Definition writes_first (s : SocketObject) : SocketObject :=
  set_p (move_assign (p_ s) new_promise) (set_isWriting true
    (set_send_many_data (tail (send_many_data s)) (set_send_data (tail (send_data s)) s))).

Lemma destroy_all_heap l w h h' :
  for_each destroy_Buffer l h = Ok tt h' →
  destroy_all l (set_heap h w) = Ok tt (set_heap h' w).
Proof.
  revert h. induction l as [|b l IH]; intros h; simpl; [by intros [= ->]|].
  unfold bind, destroy_all. simpl. unfold bind, on_heap. simpl.
  destruct (destroy_Buffer b h) as [[] h1|?|?]; [|done..]. simpl. intros H. by apply IH in H.
Qed.

Lemma take_messages_first s w b h1 h2 h3 :
  this_ w = Some s → except_ s = None → head (send_data s) = Some b →
  copy_Buffer b (heap w) = Ok b h1 → destroy_Buffer b h1 = Ok tt h2 →
  for_each destroy_Buffer (received (Some b) (head (send_many_data s))) h2 = Ok tt h3 →
  take_messages w =
    Ok tt (set_heap h3 (set_writes (writes w ++ [b]) (set_this (Some (writes_first s)) w))).
Proof.
  intros Hs Hx Hb H1 H2 H3. destruct w as [tw aw hs rs po h se rd wr sh qu].
  cbn [this_ heap writes] in *. subst.
  unfold take_messages, bind at 1, this. simpl. unfold on_throw, checkExcept, update, bind, this.
  simpl. rewrite Hx, Hb. simpl. unfold on_heap at 1. simpl. rewrite H1.
  unfold write, update, bind, this, on_heap, modify. simpl. rewrite H2. simpl.
  exact (destroy_all_heap (received (Some b) _) (mkWorld _ _ _ _ _ h2 _ _ _ _ _) h2 h3 H3).
Qed.

Lemma continue_at_messages w :
  at_ w = AtMessages → continue w = (process_p ;;; take_messages ;;; run_loop loop_fuel) w.
Proof. intros Hw. unfold continue. unfold bind at 1, get. by rewrite Hw. Qed.

Lemma process_p_run w s :
  this_ w = Some s → exception_ (p_ s) = None →
  ∃ p', process_p w = Ok tt (set_this (Some (set_p p' s)) w) ∧ set_ p' = false.
Proof.
  intros Hs Hp. eexists. split; [|shelve]. unfold process_p, update, bind, this. rewrite Hs.
  unfold process. rewrite Hp. simpl. rewrite Hs. reflexivity. Unshelve. done.
Qed.

(** With a write under way, the loop suspends. *)
Lemma run_loop_suspends n w s :
  this_ w = Some s → eof_ s = false → nextRead s = None → isWriting s = true →
  set_ (p_ s) = false →
  ∃ w', run_loop (2 + n) w = Ok tt w' ∧ at_ w' = AtWrite ∧ writes w' = writes w ∧ heap w' = heap w.
Proof.
  intros Hs He Hr Hw Hp. cbn [Nat.add run_loop await_next]. unfold bind, this.
  rewrite Hs, He, Hr, Hs, Hw. unfold isReady. rewrite Hp.
  unfold suspend_on_p, suspend, update_promise, update, get, bind, this, modify, setContinuation.
  simpl. rewrite Hs, Hp. simpl. rewrite Hs. by eexists.
Qed.

(** What a message does to a process that waits for it, given what the heap does. *)
Lemma resume_idle_with_message s w b h1 h2 h3 :
  this_ w = Some s → at_ w = AtMessages → eof_ s = false → except_ s = None →
  exception_ (p_ s) = None → nextRead s = None → send_data s = [b] → send_many_data s = [] →
  copy_Buffer b (heap w) = Ok b h1 → destroy_Buffer b h1 = Ok tt h2 →
  destroy_Buffer b h2 = Ok tt h3 →
  ∃ w', resume w = Ok tt w' ∧ writes w' = writes w ++ [b] ∧ at_ w' = AtWrite ∧ heap w' = h3.
Proof.
  intros Hs Ha He Hx Hp Hr Hd Hm H1 H2 H3.
  set (w0 := set_resumes (resumes w + 1)%N w).
  destruct (process_p_run w0 s Hs Hp) as (p' & Hprocess & Hset).
  set (w1 := set_this (Some (set_p p' s)) w0).
  assert (Htake : take_messages w1 = Ok tt (set_heap h3 (set_writes (writes w ++ [b])
    (set_this (Some (writes_first (set_p p' s))) w1)))).
  { apply (take_messages_first (set_p p' s) w1 b h1 h2 h3); [done|done|..].
    - simpl. by rewrite Hd.
    - exact H1.
    - exact H2.
    - simpl. rewrite Hm. unfold bind. by rewrite H3. }
  set (w2 := set_heap h3 _) in Htake.
  destruct (run_loop_suspends 4 w2 (writes_first (set_p p' s)))
    as (w' & Hloop & Hat & Hwrites & Hheap); [done..|].
  exists w'. split; [|by rewrite Hat, Hwrites, Hheap].
  unfold resume. rewrite (bind_run _ _ w tt w0) by done. unfold try_catch.
  rewrite continue_at_messages by exact Ha. rewrite (bind_run _ _ _ _ _ Hprocess).
  change (2 + 4) with loop_fuel in Hloop. by rewrite (bind_run _ _ _ _ _ Htake), Hloop.
Qed.

(** C25: A message to a connection that is waiting for one is written to the socket at
    once; the write reads the bytes that were sent if the sender still holds the buffer,
    and freed memory if it does not: [write] destroys its argument, and the coroutine
    what it received, while the write is under way. *)
Theorem write_needs_the_senders_reference s w bytes (keep : bool) :
  idle s w → (N.of_nat (length bytes) < u64_modulus)%N →
  ∃ b w', handle (Receive bytes keep) w = Ok tt w' ∧ writes w' = writes w ++ [b] ∧
    at_ w' = AtWrite ∧
    range b (heap w') = (if keep then Ok bytes (heap w') else Halt (Undefined UseAfterFree)).
Proof.
  intros [Ht Ha He Hx Hp Hw Hr Hd Hm] Hlen.
  set (b := mkBuffer (next_buff (heap w)) 0 (wrap64 (N.of_nat (length bytes)))).
  set (h n := with_refs bytes n (heap w)).
  set (s1 := set_send_data [b] s).
  set (w1 n := set_this (Some s1) (set_heap (h n) w)).
  assert (Hsent : handle (Receive bytes keep) w = resume (w1 (if keep then 2 else 1)%N)).
  { unfold handle. unfold bind at 1, get. unfold running. rewrite Ht, Ha.
    rewrite (bind_run _ _ w b (set_heap (h 1%N) w)) by (unfold on_heap, makeCopy; by rewrite make_eq).
    rewrite (bind_run _ _ _ tt (set_heap (h (if keep then 2 else 1)%N) w)).
    2: { destruct keep; [|done]. unfold bind, on_heap, copy_Buffer, bind.
         simpl. unfold h. by rewrite add_ref_with_refs. }
    rewrite (bind_run _ _ _ tt (w1 (if keep then 2 else 1)%N)).
    2: { unfold update, bind, this. simpl. by rewrite Ht, Hd. }
    unfold waits_for_data. by rewrite Ha. }
  exists b. rewrite Hsent. clear Hsent.
  set (gone := mkHeap (delete (next_buff (heap w)) (buffs (h 1%N))) (Pos.succ (next_buff (heap w)))).
  destruct (resume_idle_with_message s1 (w1 (if keep then 2 else 1)%N) b
    (h (if keep then 3 else 2)%N) (h (if keep then 2 else 1)%N) (if keep then h 1%N else gone))
    as (w' & Hresume & Hwrites & Hat & Hheap); try done.
  { destruct keep; unfold copy_Buffer, bind; simpl; unfold h; by rewrite add_ref_with_refs. }
  { destruct keep; unfold destroy_Buffer; simpl; unfold h; by rewrite release_with_refs. }
  { destruct keep; unfold destroy_Buffer; simpl; unfold h;
      [by rewrite release_with_refs|apply release_last]. }
  exists w'. split; [done|]. split; [done|]. split; [done|]. rewrite Hheap. destruct keep.
  - by apply make_range.
  - unfold range, load_buff, bind. simpl. by rewrite lookup_delete_eq.
Qed.

(** When a message of each kind waits in its slot, [tryRecv] takes both and the loop
    writes the first: the many-buffer message is destroyed unsent. *)
Theorem second_message_is_lost s w b m ds ms h1 h2 h3 :
  this_ w = Some s → except_ s = None →
  send_data s = b :: ds → send_many_data s = m :: ms →
  copy_Buffer b (heap w) = Ok b h1 → destroy_Buffer b h1 = Ok tt h2 →
  for_each destroy_Buffer (b :: buffers m) h2 = Ok tt h3 →
  ∃ s' w', take_messages w = Ok tt w' ∧ this_ w' = Some s' ∧
    send_data s' = ds ∧ send_many_data s' = ms ∧ writes w' = writes w ++ [b].
Proof.
  intros Hs Hx Hd Hm H1 H2 H3. eexists _, _. split.
  - apply (take_messages_first s w b h1 h2 h3); try done; [by rewrite Hd|]. by rewrite Hm.
  - split; [reflexivity|]. simpl. by rewrite Hd, Hm.
Qed.

(** A completion that the io_service has queued when the process is destroyed still
    runs its handler, which uses the freed process: closing the socket only aborts the
    operations that have not completed. *)
Theorem late_completion_uses_freed_process pid throttled onReady to bytes h :
  script [Start; ReceiveInit to; ReadCompletes no_error bytes; Destroy; RunHandler]
    (new_world pid false throttled onReady h) = Halt (Undefined UseAfterFree).
Proof. destruct bytes; reflexivity. Qed.

(** A failed write ends the process with the text of the error. *)
Theorem failed_write_ends_process s w message :
  this_ w = Some s → at_ w = AtWrite → except_ s = None → exception_ (p_ s) = None →
  set_ (p_ s) = false → exec_ (p_ s) = Some (tt, resumes w) → posted w = [] →
  queued w = [WriteDone (failed message)] →
  ∃ w', script [RunHandler; Continuation] w = Ok tt w' ∧
    at_ w' = Threw ("Listener threw " +:+ message).
Proof.
  intros Hs Ha Hx Hp Hset Hexec Hpost Hq.
  destruct w as [tw aw hs rs po h se rd wr sh qu]. simpl in *. subst.
  destruct s as [pid ssl thr onr eof [ex st pe] exc ts nr isw sd smd ini]. simpl in *. subst.
  eexists. split.
  - cbn. unfold handle, bind, get. cbn. rewrite bool_decide_eq_true_2 by done.
    unfold resume, try_catch, continue, process_p, update, checkExcept, bind, get, this, modify.
    cbn. reflexivity.
  - reflexivity.
Qed.
