(* ===== verification/SocketFlow.v ===== *)
(** * What flows through a connection, and when it wakes

    Three more facts of every connection: what is read is passed on in order, what is sent
    to it is written in order, and a process that is suspended with something to do has
    its resumption posted. *)

From Stdlib Require Import Strings.Byte.
From S2P Require Import Prelude.
From S2P Require Import Hoare.
From S2P Require Import BaseTypes.
From S2P Require Import Future.
From S2P Require Import Buffers.
From S2P Require Import Socket.
From S2P Require Import SocketFacts.

(** ** The invariant *)

(** The data sent so far, and what [run] holds of it: read, not yet passed on. *)
Definition sent_data (w : World) : list Buffer :=
  omap (λ m, match m with SentData _ d => Some (data d) | SentSocket _ _ => None end) (sent w).
Definition next_data (s : SocketObject) : list Buffer :=
  match nextRead s with Some rd => [data rd] | None => [] end.
Definition held_data (c : Control) (s : SocketObject) : list Buffer :=
  match c with AtThrottle rd => [data rd] | _ => next_data s end.

Definition inflow (w : World) (s : SocketObject) : list Buffer := sent_data w ++ held_data (at_ w) s.
Definition outflow (w : World) (s : SocketObject) : list Buffer := writes w ++ send_data s.

(** An error that was recorded can be thrown, and was signalled. *)
Definition recorded (s : SocketObject) : Prop :=
  ∀ x, except_ s = Some x → maybeThrowException x ≠ None.
Definition signalled (s : SocketObject) : Prop := except_ s ≠ None → set_ (p_ s) = true.

(** Nothing to do but for messages, writes and reads to come. *)
Definition quiet (s : SocketObject) : Prop := eof_ s = false ∧ nextRead s = None ∧ except_ s = None.

(** The promise will post the resumption. *)
Definition armed (w : World) (s : SocketObject) : Prop :=
  set_ (p_ s) = false ∧ exec_ (p_ s) = Some (tt, resumes w).

Definition alert (w : World) (s : SocketObject) : Prop :=
  match at_ w with
  | AtWrite => resumes w ∈ posted w ∨ armed w s ∧ isWriting s = true ∧ quiet s
  | AtMessages =>
      resumes w ∈ posted w ∨ armed w s ∧ send_data s = [] ∧ send_many_data s = [] ∧ quiet s
  | AtThrottle _ => signalled s ∧ eof_ s = false
  | AtStart | AtHandshake | AtInit => except_ s = None ∧ eof_ s = false
  | Ended | Threw _ => True
  end.

(** Only the messages of [send_data] are followed, as long as there are no others and no
    exception has destroyed one. *)
Record log := mkLog { log_in : list Buffer; log_out : option (list Buffer) }.

Definition follows (l : log) (w : World) (s : SocketObject) : Prop :=
  match log_out l with
  | Some G => send_many_data s = [] ∧ outflow w s = G
  | None => True
  end.

Definition failed_at (c : Control) : bool := match c with Threw _ => true | _ => false end.

Definition at_rest (l : log) (w : World) (s : SocketObject) : Prop :=
  inflow w s = log_in l ∧ (failed_at (at_ w) = false → follows l w s) ∧ recorded s ∧ alert w s.

(** While [run] runs, before it is suspended anew, or when it throws. *)
Definition throwing (l : log) (w : World) (s : SocketObject) : Prop :=
  sent_data w ++ next_data s = log_in l ∧ recorded s.
Definition active (l : log) (w : World) (s : SocketObject) : Prop :=
  throwing l w s ∧ follows l w s.

(** ** Rules *)

Abbreviation Pred := (World → SocketObject → Prop).
Abbreviation partial := (Hoare.spec (λ _, False)).
Definition has (K : Pred) (w : World) : Prop := ∃ s, this_ w = Some s ∧ K w s.

Section rules.
Implicit Types (K : Pred) (E : World → Prop).

Lemma flow_this {A} (k : SocketObject → M World A) K Q E :
  (∀ s, partial (has (λ w s', s' = s ∧ K w s)) (k s) Q E) → partial (has K) (bind this k) Q E.
Proof. intros Hk w (s & Hs & HK). unfold bind, this. rewrite Hs. apply (Hk s). by exists s. Qed.

Lemma flow_weaken {A} (m : M World A) K K' Q E :
  partial (has K') m Q E → (∀ w s, K w s → K' w s) → partial (has K) m Q E.
Proof. intros Hm HK. eapply spec_pre; [exact Hm|]. intros w (s & Hs & H). exists s. auto. Qed.

Lemma flow_post {A} (m : M World A) P K K' E :
  partial P m (has K') E → (∀ w s, K' w s → K w s) → partial P m (has K) E.
Proof. intros Hm HK. eapply spec_post; [exact Hm| |done]. intros w (s & Hs & H). exists s. auto. Qed.

Lemma flow_update f K K' E :
  (∀ w s, K w s → K' (set_this (Some (f s)) w) (f s)) → partial (has K) (update f) (has K') E.
Proof.
  intros H w (s & Hs & HK). unfold update, bind, this. rewrite Hs. exists (f s). split; [done|].
  by apply H.
Qed.

Lemma flow_modify f K K' E :
  (∀ w s, this_ (f w) = this_ w ∧ (K w s → K' (f w) s)) → partial (has K) (modify f) (has K') E.
Proof.
  intros H. apply spec_modify. intros w (s & Hs & HK). destruct (H w s) as [Ht HK'].
  exists s. rewrite Ht. auto.
Qed.

Lemma flow_update_promise f K K' E :
  (∀ w s, K w s →
    K' (set_posted (posted w ++ (f (p_ s)).2.*2) (set_this (Some (set_p (f (p_ s)).1 s)) w))
       (set_p (f (p_ s)).1 s)) →
  partial (has K) (update_promise f) (has K') E.
Proof.
  intros H w (s & Hs & HK). unfold update_promise, update, bind, this. rewrite Hs.
  specialize (H _ _ HK). destruct (f (p_ s)) as [p' posts]. simpl. rewrite Hs. simpl. by eexists.
Qed.

Lemma flow_heap {A} (m : M Heap A) K E :
  (∀ w s h, K w s → K (set_heap h w) s) → harmless m → partial (has K) (on_heap m) (has K) E.
Proof.
  intros HK Hm w (s & Hs & H). specialize (Hm (λ _, False) (heap w) I). unfold on_heap.
  destruct (m (heap w)); [exists s; auto|done|]. by intros [].
Qed.

Lemma flow_destroy_all l K :
  (∀ w s h, K w s → K (set_heap h w) s) → partial (has K) (destroy_all l) (has K) (has K).
Proof. intros HK. apply spec_for_each. intros b. apply flow_heap; auto with total. Qed.

Lemma flow_checkExcept K :
  (∀ w s, K w s → recorded s) →
  partial (has K) checkExcept (has (λ w s, K w s ∧ except_ s = None)) (has K).
Proof.
  intros Hrec. apply flow_this. intros s. destruct (except_ s) as [x|] eqn:Hx.
  - destruct (maybeThrowException x) eqn:He.
    + apply spec_throw. intros w (s' & Hs' & -> & HK). by exists s.
    + intros w (s' & Hs' & -> & HK). by destruct (Hrec w s HK x).
  - eapply spec_pre; [apply spec_ret|]. intros w (s' & Hs' & -> & HK). by exists s.
Qed.

Lemma flow_pure (φ : Prop) {A} (m : M World A) K Q E :
  (∀ w s, K w s → φ) → (φ → partial (has K) m Q E) → partial (has K) m Q E.
Proof. intros Hφ Hm w (s & Hs & HK). apply (Hm (Hφ w s HK)). by exists s. Qed.

(** Suspending on the promise: the resumption is posted, or the promise is armed. *)
Lemma flow_suspend_on_p c K K' E :
  (∀ w s p posts,
     K w s → resumes w ∈ posts ∨ set_ p = false ∧ set_ (p_ s) = false ∧ exec_ p = Some (tt, resumes w) →
     K' (set_posted (posted w ++ posts) (set_this (Some (set_p p s)) (set_at c w))) (set_p p s)) →
  partial (has K) (suspend_on_p c) (has K') E.
Proof.
  intros H w (s & Hs & HK).
  unfold suspend_on_p, suspend, update_promise, update, post_all, modify, get, bind, this. simpl.
  rewrite Hs. unfold setContinuation, set. destruct (set_ (p_ s)) eqn:Hset; simpl; rewrite Hs; simpl.
  - eexists. split; [reflexivity|]. apply (H w s _ [resumes w]); [done|]. left. by left.
  - eexists. split; [reflexivity|]. apply (H w s _ []); [done|]. by right.
Qed.
End rules.

(** ** The coroutine between two suspensions *)

Lemma flow_copy b {A} (k : Buffer → M World A) K Q E :
  (∀ w s h, K w s → K (set_heap h w) s) → partial (has K) (k b) Q E →
  partial (has K) (let! buff := on_heap (copy_Buffer b) in k buff) Q E.
Proof.
  intros HK Hk w (s & Hs & H). pose proof (total_add_ref (buffer_ b) (λ _, False) (heap w) I) as Ht.
  unfold on_heap, copy_Buffer, bind.
  destruct (intrusive_ptr_add_ref (buffer_ b) (heap w)) as [[] h|e h|x]; [|done|by intros []].
  apply Hk. exists s. auto.
Qed.

Section run.
Context (l : log).

Definition looping : Pred := λ w s, active l w s ∧ signalled s.
Definition passing : Pred := λ w s, looping w s ∧ eof_ s = false ∧ nextRead s = None.

Abbreviation runs_on m K := (partial (has K) m (has (at_rest l)) (has (throwing l))).

(** With [d] taken from its slot and not yet written. *)
Definition taken (d : option Buffer) : Pred := λ w s,
  throwing l w s ∧
  match log_out l with
  | Some G => send_many_data s = [] ∧ writes w ++ match d with Some b => [b] | None => [] end ++ send_data s = G
  | None => True
  end.

Lemma throwing_heap w s h : throwing l w s → throwing l (set_heap h w) s.
Proof. done. Qed.
Lemma active_heap w s h : active l w s → active l (set_heap h w) s.
Proof. done. Qed.
Lemma taken_heap d w s h : taken d w s → taken d (set_heap h w) s.
Proof. done. Qed.
Hint Resolve throwing_heap active_heap taken_heap : core.

Lemma flow_write d b :
  log_out l = None ∨ d = Some b →
  partial (has (λ w s, taken d w s ∧ except_ s = None)) (write b)
    (has (λ w s, active l w s ∧ except_ s = None)) (has (throwing l)).
Proof.
  intros Hd. unfold write.
  set (K1 := λ w s, taken d w s ∧ except_ s = None).
  eapply spec_bind; [by apply (flow_update _ K1 K1)|]. intros [].
  eapply spec_bind; [by apply (flow_update _ K1 K1)|]. intros [].
  eapply spec_bind; [|intros []; by apply flow_heap; auto with total].
  apply flow_modify. intros w s. split; [done|]. intros [[Hin Hout] Hx].
  split; [|done]. split; [done|]. unfold follows, outflow. simpl.
  destruct (log_out l) as [G|]; [|done]. destruct Hd as [Hd| ->]; [done|].
  destruct Hout as [Hm <-]. split; [done|]. by rewrite <- app_assoc.
Qed.

Lemma flow_take_messages :
  partial (has (active l)) take_messages (has looping) (has (throwing l)).
Proof.
  apply flow_this. intros s0. set (d := head (send_data s0)). set (m := head (send_many_data s0)).
  apply (flow_pure (log_out l = None ∨ m = None)).
  { intros w s [-> [_ Hout]]. unfold follows in Hout. destruct (log_out l); [right|by left].
    unfold m. by destruct Hout as [-> _]. }
  intros Hm. eapply spec_bind with (R := has (taken d)).
  { apply flow_update. intros w s (-> & Hin & Hout). split; [done|].
    unfold follows, outflow in Hout. destruct (log_out l) as [G|]; [|done]. simpl.
    destruct Hout as [-> <-]. split; [done|]. unfold d. by destruct (send_data s0). }
  intros []. eapply spec_bind with (R := has (λ w s, taken d w s ∧ except_ s = None)).
  { eapply spec_post; [|done|].
    - apply spec_on_throw; [by intros []|apply flow_checkExcept|by apply flow_destroy_all].
      by intros w s [[_ Hrec] _].
    - intros w (s & Hs & Hin & Hout). by exists s. }
  intros []. eapply spec_bind with (R := has (λ w s, active l w s ∧ except_ s = None)).
  { assert (Hd : ∀ w s, taken None w s ∧ except_ s = None → active l w s ∧ except_ s = None).
    { intros w s [[Hin Hout] Hx]. by split. }
    destruct d as [b|]; [apply flow_copy; [by intros w s h []|]; apply flow_write; by right|].
    destruct m as [c|]; [|by eapply flow_weaken; [apply spec_ret|]].
    destruct Hm as [Hm|Hm]; [|done].
    eapply spec_bind; [apply flow_heap; [|auto with total]; by intros w s h []|].
    intros buff. apply flow_write. by left. }
  intros []. eapply spec_post; [apply (flow_destroy_all _ (λ w s, active l w s ∧ except_ s = None))| |].
  - by intros w s h [].
  - intros w (s & Hs & Ha & Hx). exists s. split; [done|]. split; [done|]. by intros [].
  - intros w (s & Hs & [Ha _] & Hx). by exists s.
Qed.

(** [n] bounds the turns of the loop. *)
Lemma flow_loop n :
  runs_on (run_loop n) looping ∧ runs_on (await_next n) passing.
Proof.
  induction n as [|n [IHloop IHnext]].
  { split; intros w _ []. }
  split.
  - cbn [run_loop]. apply flow_this. intros s0. destruct (eof_ s0) eqn:He.
    { apply flow_modify. intros w s. split; [done|]. intros (-> & [[Hin Hrec] Hout] & _). by split_and!. }
    destruct (nextRead s0) as [rd|] eqn:Hrd.
    + destruct (toSend s0) as [a|]; [|apply spec_stop; by intros []].
      apply flow_modify. intros w s. split; [done|]. intros (-> & [[Hin Hrec] Hout] & Hsig).
      split; [|by split_and!]. unfold inflow, held_data. simpl. unfold next_data in Hin.
      by rewrite Hrd in Hin.
    + eapply flow_weaken; [exact IHnext|]. intros w s [-> H]. by split_and!.
  - cbn [await_next]. apply flow_this. intros s0.
    assert (Hquiet : ∀ w s, s = s0 ∧ passing w s0 → set_ (p_ s0) = false → quiet s).
    { intros w s (-> & [_ Hsig] & He & Hrd) Hset. split_and!; [done..|].
      destruct (except_ s0) eqn:Hx; [|done]. unfold signalled in Hsig. rewrite Hx in Hsig.
      rewrite Hsig in Hset; done. }
    destruct (isWriting s0) eqn:Hw.
    + unfold isReady. destruct (set_ (p_ s0)) eqn:Hset.
      * eapply spec_bind; [|intros []; exact IHloop].
        eapply flow_weaken with (K' := active l); [|by intros w s (-> & [Ha _] & _)].
        eapply spec_post; [apply flow_checkExcept; by intros w s [[_ Hrec] _]| |].
        -- intros w (s & Hs & Ha & Hx). exists s. split; [done|]. split; [done|]. by intros [].
        -- intros w (s & Hs & Ha & _). by exists s.
      * apply flow_suspend_on_p. intros w s p posts H Hp. pose proof (Hquiet w s H eq_refl) as Hq.
        destruct H as (-> & [[[Hin Hrec] Hout] _] & _). split; [exact Hin|]. split; [done|].
        split; [done|]. unfold alert, armed. simpl. destruct Hp as [Hp|(? & _ & ?)].
        -- left. set_solver.
        -- right. by split_and!.
    + assert (Htake : runs_on (take_messages ;;; run_loop n) passing).
      { eapply spec_bind; [|intros []; exact IHloop]. eapply flow_weaken; [apply flow_take_messages|].
        by intros w s [[Ha _] _]. }
      assert (Htake' : runs_on (take_messages ;;; run_loop n) (λ w s, s = s0 ∧ passing w s0)).
      { eapply flow_weaken; [exact Htake|]. by intros w s [-> H]. }
      destruct (send_data s0) eqn:Hd; [destruct (send_many_data s0) eqn:Hm|]; try done.
      apply flow_suspend_on_p. intros w s p posts H Hp. pose proof (Hquiet w s H) as Hq.
      destruct H as (-> & [[[Hin Hrec] Hout] _] & _). split; [exact Hin|]. split; [done|].
      split; [done|]. unfold alert, armed. simpl. destruct Hp as [Hp|(? & Hset & ?)].
      * left. set_solver.
      * right. split; [by split|]. split; [done|]. split; [done|]. exact (Hq Hset).
Qed.

(** Before the loop nothing has been read, and nothing has failed. *)
Definition before : Pred := λ w s,
  sent_data w ++ next_data s = log_in l ∧ follows l w s ∧ except_ s = None ∧ eof_ s = false.

Lemma before_recorded s : except_ s = None → recorded s.
Proof. intros Hx x. by rewrite Hx. Qed.
Lemma before_signalled s : except_ s = None → signalled s.
Proof. by intros Hx []. Qed.

Lemma before_throwing w s : before w s → throwing l w s.
Proof. intros (Hin & _ & Hx & _). split; [done|by apply before_recorded]. Qed.
Lemma before_looping w s : before w s → looping w s.
Proof.
  intros H. pose proof (before_throwing w s H). destruct H as (Hin & Hout & Hx & He).
  split; [by split|by apply before_signalled].
Qed.

Lemma flow_asyncRead K :
  (∀ w s n, K w s → K (set_reads n w) s) → partial (has K) asyncRead (has K) (has K).
Proof.
  intros HK. apply flow_this. intros s. apply flow_modify. intros w s'. split; [done|].
  intros [-> H]. by apply HK.
Qed.

Lemma flow_after_init : runs_on after_init before.
Proof.
  apply flow_this. intros s0. eapply flow_weaken with (K' := λ w s, s = s0 ∧ before w s0); [|done].
  destruct (init s0) as [|a rest].
  { apply spec_throw. intros w (s & Hs & -> & H). exists s0. split; [done|]. by apply before_throwing. }
  eapply spec_bind with (R := has looping).
  { apply flow_update. intros w s [-> H]. by apply before_looping in H. }
  intros []. eapply spec_bind; [|intros []; apply flow_loop].
  eapply spec_post; [by apply (flow_asyncRead looping)|done|]. intros w (s & Hs & [[H _] _]). by exists s.
Qed.

Lemma flow_suspend_early c K :
  match c with AtHandshake | AtInit => True | _ => False end →
  (∀ w s, K w s → before w s) →
  partial (has K) (suspend c) (has (at_rest l)) (has (throwing l)).
Proof.
  intros Hc HK. apply flow_modify. intros w s. split; [done|]. intros (Hin & Hout & Hx & He)%HK.
  split; [|split; [done|split; [by apply before_recorded|]]].
  - by destruct c.
  - unfold alert. by destruct c.
Qed.

Lemma flow_after_start : runs_on after_start before.
Proof.
  apply flow_this. intros s0. eapply flow_weaken with (K' := before); [|by intros w s [-> H]].
  eapply spec_bind with (R := has before).
  { apply flow_modify. intros w s. split; [done|]. intros (Hin & Hrest). split; [|done].
    unfold sent_data. simpl. rewrite omap_app. simpl. by rewrite app_nil_r. }
  intros []. destruct (init s0); [by apply flow_suspend_early|apply flow_after_init].
Qed.

Lemma flow_start : runs_on start before.
Proof.
  apply flow_this. intros s0. eapply flow_weaken with (K' := before); [|by intros w s [-> H]].
  destruct (ssl s0); [|apply flow_after_start]. apply spec_get. intros w Hw.
  eapply spec_pre with (P' := has before); [|by intros w' ->].
  eapply spec_bind; [by apply (flow_modify _ before before)|]. intros [].
  eapply spec_bind; [by apply (flow_modify _ before before)|]. intros [].
  by apply flow_suspend_early.
Qed.

Lemma flow_process_p : partial (has (active l)) process_p (has (active l)) (has (throwing l)).
Proof.
  apply flow_this. intros s0. destruct (process (p_ s0)) as [p'|e].
  - apply flow_update. by intros w s [-> H].
  - apply spec_throw. intros w (s & Hs & -> & [H _]). by exists s0.
Qed.

(** What a suspended process promises, but for its wake-up. *)
Definition resumable : Pred := λ w s,
  inflow w s = log_in l ∧ (failed_at (at_ w) = false → follows l w s) ∧ recorded s ∧
  match at_ w with
  | AtThrottle _ => signalled s ∧ eof_ s = false
  | AtStart | AtHandshake | AtInit => except_ s = None ∧ eof_ s = false
  | _ => True
  end.

Lemma at_rest_resumable w s : at_rest l w s → resumable w s.
Proof.
  intros (Hin & Hout & Hrec & Halert). split_and!; [done..|]. unfold alert in Halert.
  by destruct (at_ w).
Qed.

Definition in_control (c : Control) (K : Pred) : Pred := λ w s, at_ w = c ∧ K w s.

Lemma resumable_before c w s :
  match c with AtStart | AtHandshake | AtInit => True | _ => False end →
  in_control c resumable w s → before w s.
Proof.
  intros Hc (Ha & Hin & Hout & _ & H). rewrite Ha in Hout, H. unfold inflow in Hin. rewrite Ha in Hin.
  destruct c; try done; destruct H; split_and!; try done; by apply Hout.
Qed.

Lemma resumable_active c w s :
  match c with AtWrite | AtMessages => True | _ => False end →
  in_control c resumable w s → active l w s.
Proof.
  intros Hc (Ha & Hin & Hout & Hrec & _). rewrite Ha in Hout. unfold inflow in Hin. rewrite Ha in Hin.
  destruct c; try done; (split; [by split|by apply Hout]).
Qed.

(** While the message that was read is being sent, [nextRead] is what it was moved from. *)
Definition passed : Pred := λ w s,
  sent_data w = log_in l ∧ follows l w s ∧ recorded s ∧ signalled s ∧ eof_ s = false.

Lemma flow_throttled rd :
  runs_on (let! s := this in
           match toSend s with
           | Some a => send (SentData a rd)
           | None => undefined EmptyOptional
           end ;;;
           update (set_nextRead None) ;;;
           asyncRead ;;;
           await_next loop_fuel) (in_control (AtThrottle rd) resumable).
Proof.
  apply flow_this. intros s0. eapply spec_bind with (R := has passed).
  { destruct (toSend s0) as [a|]; [|apply spec_stop; by intros []].
    apply flow_modify. intros w s. split; [done|]. intros (-> & Ha & Hin & Hout & Hrec & H).
    rewrite Ha in Hout, H. unfold inflow in Hin. rewrite Ha in Hin. destruct H as [Hsig He].
    split; [|split_and!; [by apply Hout|done..]].
    unfold sent_data. simpl. by rewrite omap_app. }
  intros []. eapply spec_bind with (R := has passing).
  { apply flow_update. intros w s (Hin & Hout & Hrec & Hsig & He).
    split; [split; [split; [split|]|]|]; try done. by rewrite app_nil_r. }
  intros []. eapply spec_bind; [|intros []; apply flow_loop].
  eapply spec_post; [by apply (flow_asyncRead passing)|done|].
  intros w (s & Hs & [[[H _] _] _]). by exists s.
Qed.

Lemma flow_process_handshake : partial (has before) process_handshake (has before) (has (throwing l)).
Proof.
  apply spec_get. intros w Hw. eapply spec_pre with (P' := has before); [|by intros w' ->].
  destruct (handshake w) as [p|]; [|apply spec_stop; by intros []].
  destruct (process p); [by apply (flow_modify _ before before)|]. apply spec_throw.
  intros w' (s & Hs & H). exists s. split; [done|]. by apply before_throwing.
Qed.

Lemma flow_continue : runs_on continue resumable.
Proof.
  apply spec_get. intros w (s & Hs & Hw).
  assert (Hat : ∀ c (m : M World unit) K, in_control c resumable w s → runs_on m K →
    (∀ w s, in_control c resumable w s → K w s) →
    partial (λ w', w' = w) m (has (at_rest l)) (has (throwing l))).
  { intros c m K Hc Hm HK. eapply spec_pre; [exact Hm|]. intros w' ->. exists s. split; [done|].
    by apply HK. }
  destruct (at_ w) as [| | |rd| | |what|what] eqn:Hc.
  - eapply (Hat AtStart); [by split|apply flow_start|]. intros w1 s1. by apply (resumable_before AtStart).
  - eapply (Hat AtHandshake); [by split| |intros w1 s1; by apply (resumable_before AtHandshake)].
    eapply spec_bind; [apply flow_process_handshake|intros []; apply flow_after_start].
  - eapply (Hat AtInit); [by split|apply flow_after_init|]. intros w1 s1. by apply (resumable_before AtInit).
  - eapply (Hat (AtThrottle rd)); [by split|apply flow_throttled|done].
  - eapply (Hat AtWrite); [by split| |intros w1 s1; by apply (resumable_active AtWrite)].
    eapply spec_bind; [apply flow_process_p|]. intros [].
    eapply spec_bind; [|intros []; apply flow_loop].
    eapply spec_post; [apply flow_checkExcept; by intros w' s' [[_ Hrec] _]| |].
    + intros w' (s' & Hs' & Ha & Hx). exists s'. split; [done|]. split; [done|]. by apply before_signalled.
    + intros w' (s' & Hs' & Ha & _). by exists s'.
  - eapply (Hat AtMessages); [by split| |intros w1 s1; by apply (resumable_active AtMessages)].
    eapply spec_bind; [apply flow_process_p|]. intros [].
    eapply spec_bind; [apply flow_take_messages|intros []; apply flow_loop].
  - eapply spec_pre; [apply spec_ret|]. intros w' ->. exists s. split; [done|].
    destruct Hw as (Hin & Hout & Hrec & _). unfold at_rest, alert. by rewrite Hc in *.
  - eapply spec_pre; [apply spec_ret|]. intros w' ->. exists s. split; [done|].
    destruct Hw as (Hin & Hout & Hrec & _). unfold at_rest, alert. by rewrite Hc in *.
Qed.

Lemma flow_resume : runs_on resume resumable.
Proof.
  unfold resume. eapply spec_bind with (R := has resumable); [by apply flow_modify|].
  intros []. apply spec_try_catch; [apply flow_continue|]. intros what.
  apply flow_modify. intros w s. split; [done|]. intros [Hin Hrec]. by split_and!.
Qed.

(** ** Handlers *)

Definition in_loop (w : World) : Prop :=
  match at_ w with AtStart | AtHandshake | AtInit => False | _ => True end.

(** A handler that has something for [run] signals the promise. *)
Definition to_wake : Pred := λ w s,
  inflow w s = log_in l ∧ (failed_at (at_ w) = false → follows l w s) ∧ recorded s ∧ in_loop w ∧
  match at_ w with
  | AtWrite | AtMessages => resumes w ∈ posted w ∨ armed w s
  | AtThrottle _ => eof_ s = false
  | _ => True
  end.
Definition woken : Pred := λ w s,
  inflow w s = log_in l ∧ (failed_at (at_ w) = false → follows l w s) ∧ recorded s ∧ in_loop w ∧
  match at_ w with
  | AtWrite | AtMessages => resumes w ∈ posted w
  | AtThrottle _ => set_ (p_ s) = true ∧ eof_ s = false
  | _ => True
  end.

Lemma woken_at_rest w s : woken w s → at_rest l w s.
Proof.
  intros (Hin & Hout & Hrec & Hloop & H). split_and!; [done..|]. unfold alert, in_loop in *.
  destruct (at_ w); try done; [|by left..]. destruct H as [Hset He]. split; [by intros _|done].
Qed.

Lemma at_rest_to_wake w s : at_rest l w s → in_loop w → to_wake w s.
Proof.
  intros (Hin & Hout & Hrec & H) Hloop. split_and!; [done..|]. unfold alert, in_loop in *.
  destruct (at_ w); try done; [by destruct H|..]; (destruct H as [H|[H _]]; [by left|by right]).
Qed.

Lemma flow_setValue E : partial (has to_wake) setValue (has woken) E.
Proof.
  apply flow_update_promise. intros w s (Hin & Hout & Hrec & Hloop & H).
  split; [exact Hin|]. split; [exact Hout|]. split; [exact Hrec|]. split; [exact Hloop|].
  simpl. unfold setIfUnset, set. destruct (set_ (p_ s)) eqn:Hset; simpl.
  - rewrite app_nil_r. destruct (at_ w); try done;
      (destruct H as [H|[H _]]; [done|congruence]).
  - destruct (at_ w); try done; try (by destruct (exec_ (p_ s)) as [[]|]);
      (destruct H as [H|[_ H]]; [set_solver|rewrite H; simpl; set_solver]).
Qed.

Lemma flow_setError message E : partial (has to_wake) (setError message) (has woken) E.
Proof.
  unfold setError, setException. eapply spec_bind; [apply flow_setValue|]. intros [].
  apply flow_update. intros w s H. destruct (except_ s) eqn:Hx; [done|].
  destruct H as (Hin & Hout & Hrec & Hloop & H). split; [exact Hin|]. split; [exact Hout|].
  split; [|done]. intros x. simpl. by intros [= <-].
Qed.

Lemma flow_write_done e :
  partial (has (λ w s, at_rest l w s ∧ in_loop w)) (on_write e) (has (at_rest l)) (λ _, True).
Proof.
  assert (Hupdate : partial (has (λ w s, at_rest l w s ∧ in_loop w)) (update (set_isWriting false))
    (has to_wake) (λ _, True)).
  { apply flow_update. intros w s [H Hloop]. apply at_rest_to_wake in H; [|done]. exact H. }
  destruct e; (try by eapply flow_weaken; [apply spec_ret|intros w s []]);
    (eapply spec_bind; [exact Hupdate|intros []; eapply flow_post; [|exact woken_at_rest]]).
  - apply flow_setValue.
  - apply flow_setError.
  - apply flow_setError.
Qed.

Lemma alert_posted w s p : alert w s → alert (set_posted (posted w ++ p) w) s.
Proof.
  unfold alert, armed. simpl. destruct (at_ w); try done; (intros [H|H]; [left; set_solver|by right]).
Qed.

Lemma flow_handshake_done e : partial (has (at_rest l)) (on_handshake e) (has (at_rest l)) (λ _, True).
Proof.
  assert (Hsignal : ∀ f : Promise → Promise * list (unit * N),
    partial (has (at_rest l)) (let! w := get in
      match handshake w with
      | Some p => let (p', posts) := f p in modify (set_handshake (Some p')) ;;; post_all posts
      | None => undefined UseAfterFree
      end) (has (at_rest l)) (λ _, True)).
  { intros f. apply spec_get. intros w Hw. eapply spec_pre with (P' := has (at_rest l)); [|by intros w' ->].
    destruct (handshake w) as [p|]; [|apply spec_stop; by intros []]. destruct (f p) as [p' posts].
    eapply spec_bind; [by apply (flow_modify _ (at_rest l) (at_rest l))|]. intros [].
    apply flow_modify. intros w' s. split; [done|]. intros (Hin & Hout & Hrec & H).
    split_and!; [done..|]. by apply alert_posted. }
  destruct e; simpl; [apply Hsignal|apply spec_ret|apply Hsignal|apply Hsignal].
Qed.
End run.

(** ** Reading *)

Definition fresh_buffer (bytes : list byte) (w : World) : Buffer :=
  mkBuffer (next_buff (heap w)) 0 (wrap64 (N.of_nat (length bytes))).
Definition with_in (b : list Buffer) (l : log) : log := mkLog (log_in l ++ b) (log_out l).

(** Where the handler of a read finds the process. *)
Definition can_read (w : World) (s : SocketObject) : Prop :=
  nextRead s = None ∧
  match at_ w with AtStart | AtHandshake | AtInit | AtThrottle _ => False | _ => True end.

Lemma can_read_in_loop w s : can_read w s → in_loop w.
Proof. unfold can_read, in_loop. intros [_ H]. by destruct (at_ w). Qed.

Lemma inflow_reading w s : can_read w s → inflow w s = sent_data w.
Proof.
  intros [Hn Hc]. unfold inflow, held_data, next_data. rewrite Hn.
  by destruct (at_ w); rewrite ?app_nil_r.
Qed.

Lemma flow_read l e bytes :
  match e, bytes with no_error, _ :: _ => False | _, _ => True end →
  partial (has (λ w s, at_rest l w s ∧ can_read w s)) (on_read e bytes)
    (has (λ w s, at_rest l w s)) (λ _, True).
Proof.
  intros He. assert (Hagain : partial (has (λ w s, at_rest l w s)) asyncRead (has (λ w s, at_rest l w s)) (λ _, True)).
  { eapply spec_post; [by apply (flow_asyncRead (at_rest l))|done|done]. }
  assert (Hloop : ∀ w s, at_rest l w s ∧ can_read w s → to_wake l w s).
  { intros w s [H Hr]. apply at_rest_to_wake; [done|by eapply can_read_in_loop]. }
  destruct e as [| | |message].
  - destruct bytes; [|done]. eapply flow_weaken; [exact Hagain|]. by intros w s [H _].
  - eapply flow_weaken; [apply spec_ret|]. by intros w s [H _].
  - eapply spec_bind with (R := has (to_wake l)).
    { apply flow_update. intros w s H. destruct (Hloop w s H) as (Hin & Hout & Hrec & Hl & Hw).
      destruct H as [_ [_ Hc]]. split_and!; [done..|]. simpl. by destruct (at_ w). }
    intros []. eapply flow_post; [apply flow_setValue|apply woken_at_rest].
  - eapply flow_weaken; [|exact Hloop]. eapply flow_post; [apply flow_setError|apply woken_at_rest].
Qed.

Lemma flow_heap_frame {A} (m : M World A) K K' h E :
  (∀ w a w', m w = Ok a w' → heap w' = heap w) →
  partial (has K) m (has K') E →
  partial (has (λ w s, K w s ∧ heap w = h)) m (has (λ w s, K' w s ∧ heap w = h)) E.
Proof.
  intros Hheap Hm w (s & Hs & HK & Hh). specialize (Hm w). specialize (Hheap w).
  destruct (m w) as [a w'|e w'|x]; [|apply Hm; by exists s..].
  destruct Hm as (s' & Hs' & HK'); [by exists s|]. exists s'. split; [done|]. split; [done|].
  by rewrite (Hheap _ _ eq_refl).
Qed.

Lemma setValue_heap w a w' : setValue w = Ok a w' → heap w' = heap w.
Proof.
  unfold setValue, update_promise, update, post_all, modify, bind, this.
  destruct (this_ w) as [s|] eqn:Hs; [|done]. destruct (setIfUnset (p_ s)). simpl. rewrite Hs.
  intros Hm. by simplify_eq/=.
Qed.

(** A read that brings data makes a buffer of it, the next to be passed on. *)
Lemma flow_read_data l b bytes w s :
  this_ w = Some s → at_rest l w s → can_read w s →
  partial (λ w', w' = w) (on_read no_error (b :: bytes))
    (has (λ w' s', at_rest (with_in [fresh_buffer (b :: bytes) w] l) w' s' ∧
                   heap w' = with_new (b :: bytes) (heap w))) (λ _, True).
Proof.
  intros Hs H Hr. set (buf := fresh_buffer (b :: bytes) w). set (h := with_new (b :: bytes) (heap w)).
  set (l' := with_in [buf] l).
  set (K := λ w' s', (s' = s ∧ at_rest l w' s ∧ can_read w' s) ∧ heap w' = h).
  assert (Hrest : partial (has K) (if throttled s then
      update (set_nextRead (Some (mkReceiveData (pid s) buf))) ;;; update_promise setIfUnset
    else match toSend s with
         | Some a => send (SentData a (mkReceiveData (pid s) buf)) ;;; asyncRead
         | None => undefined EmptyOptional
         end) (has (λ w' s', at_rest l' w' s' ∧ heap w' = h)) (λ _, True)).
  { destruct (throttled s).
    - eapply spec_bind with (R := has (λ w' s', to_wake l' w' s' ∧ heap w' = h)).
      + apply flow_update. intros w' s' [[-> [Hrest Hr']] Hh]. split; [|done].
        pose proof (at_rest_to_wake l w' s Hrest (can_read_in_loop w' s Hr')) as (Hin & Hout & Hrec & Hl & Hw).
        split; [|by split_and!]. rewrite (inflow_reading w' s Hr') in Hin. destruct Hr' as [_ Hc].
        unfold inflow, held_data. simpl. rewrite <- Hin. by destruct (at_ w').
      + intros []. apply (flow_heap_frame setValue _ _ h); [apply setValue_heap|].
        eapply flow_post; [apply flow_setValue|apply woken_at_rest].
    - destruct (toSend s) as [a|]; [|apply spec_stop; by intros []].
      eapply spec_bind with (R := has (λ w' s', at_rest l' w' s' ∧ heap w' = h)).
      + apply flow_modify. intros w' s'. split; [done|]. intros [[-> [Hrest Hr']] Hh]. split; [|done].
        destruct Hrest as (Hin & Hout & Hrec & Hw). split; [|by split_and!].
        rewrite (inflow_reading w' s Hr') in Hin. destruct Hr' as [Hn Hc].
        unfold inflow, held_data, next_data, sent_data. simpl. rewrite omap_app, Hn. simpl.
        fold (sent_data w'). rewrite Hin. by destruct (at_ w'); rewrite ?app_nil_r.
      + intros []. eapply spec_post; [|done|done].
        apply (flow_asyncRead (λ w' s', at_rest l' w' s' ∧ heap w' = h)). done. }
  unfold on_read. intros w' ->. unfold bind at 1, this. rewrite Hs.
  rewrite (bind_run _ _ w buf (set_heap h w)) by (unfold on_heap, makeCopy; by rewrite make_eq).
  apply Hrest. by exists s.
Qed.

(** ** Events *)

(** What an event adds to the data read, and to that to be written. *)
Definition read_by (e : event) (w : World) : list Buffer :=
  match e, queued w with
  | RunHandler, ReadDone no_error (b :: bytes) :: _ => [fresh_buffer (b :: bytes) w]
  | _, _ => []
  end.
Definition received_by (e : event) (w : World) : list Buffer :=
  match e with
  | Receive bytes _ => if running w then [fresh_buffer bytes w] else []
  | Deliver b => if running w then [b] else []
  | _ => []
  end.
Definition completed_by (e : event) (w : World) : nat :=
  match e, writes w with WriteCompletes _, _ :: _ => 1 | _, _ => 0 end.

Definition next_log (e : event) (w : World) (l : log) : log :=
  mkLog (log_in l ++ read_by e w)
    (match e with
     | ReceiveMany _ => None
     | _ => option_map (λ G, drop (completed_by e w) (G ++ received_by e w)) (log_out l)
     end).

Lemma next_log_same e w l :
  read_by e w = [] → received_by e w = [] → completed_by e w = 0 →
  match e with ReceiveMany _ => False | _ => True end → next_log e w l = l.
Proof.
  unfold next_log. intros -> -> ->. rewrite app_nil_r. destruct l as [F [G|]]; [|by destruct e].
  simpl. rewrite app_nil_r, drop_0. by destruct e.
Qed.

Lemma reachable_can_read w s e bytes rest :
  reachable w → this_ w = Some s → queued w = ReadDone e bytes :: rest → can_read w s.
Proof.
  intros Hw Hs Hq. destruct (reachable_inv w Hw) as [[H _]|(s' & Hs' & H)]; [congruence|].
  rewrite Hs in Hs'. simplify_eq. unfold pending_reads in H. rewrite Hq, number_cons, Nat.add_succ_r in H.
  apply after_read_taken in H as ((_ & _ & _ & Hc) & _ & Hh). split; [|by destruct (at_ w)].
  unfold held in Hh. by destruct (nextRead s').
Qed.

Lemma reachable_write_done w s e rest :
  reachable w → this_ w = Some s → queued w = WriteDone e :: rest → e ≠ operation_aborted → in_loop w.
Proof.
  intros Hw Hs Hq He. destruct (reachable_inv w Hw) as [[H _]|(s' & Hs' & (_ & Hx & _) & H)]; [congruence|].
  unfold pending_writes in Hx. rewrite Hq, number_cons in Hx. unfold in_loop.
  destruct (at_ w); try done; (destruct H as [_ Hi]; rewrite Hi in Hx; destruct e; simpl in Hx; done || lia).
Qed.

Lemma handler_flow l w s c rest :
  reachable w → this_ w = Some s → at_rest l w s → queued w = c :: rest →
  partial (λ w', w' = w) (modify (set_queued rest) ;;; run_completion c)
    (has (at_rest (next_log RunHandler w l))) (λ _, True).
Proof.
  intros Hw Hs H Hq. set (w1 := set_queued rest w).
  assert (Hrest : this_ w1 = Some s ∧ at_rest l w1 s) by done. destruct Hrest as [Hs1 H1].
  assert (Hsame : ∀ m : M World unit, read_by RunHandler w = [] →
    (∀ w', w' = w1 → match m w' with Ok _ w2 => has (at_rest l) w2 | _ => True end) →
    partial (λ w', w' = w) (modify (set_queued rest) ;;; m)
      (has (at_rest (next_log RunHandler w l))) (λ _, True)).
  { intros m Hr Hm w' ->. rewrite next_log_same by done. unfold bind, modify.
    specialize (Hm w1 eq_refl). fold w1. by destruct (m w1); try intros []. }
  destruct c as [e bytes|e|e].
  - assert (Hcan : can_read w1 s) by (eapply (reachable_can_read w); eauto).
    destruct (match e, bytes with no_error, _ :: _ => true | _, _ => false end) eqn:Hdata.
    + destruct e; try done. destruct bytes as [|b bytes]; [done|]. intros w' ->.
      unfold bind, modify. fold w1. specialize (flow_read_data l b bytes w1 s Hs1 H1 Hcan w1 eq_refl) as Hr.
      cbn [run_completion]. destruct (on_read no_error (b :: bytes) w1) as [[] w2|?|?]; [|done|done].
      destruct Hr as (s2 & Hs2 & Hr & _). exists s2. split; [done|].
      unfold next_log, read_by. rewrite Hq. unfold received_by, completed_by. simpl.
      unfold with_in in Hr. destruct l as [F [G|]]; simpl in *; [|done].
      by rewrite app_nil_r, drop_0.
    + apply Hsame.
      { unfold read_by. rewrite Hq. by destruct e, bytes. }
      intros w' ->. specialize (flow_read l e bytes) as Hr. unfold Hoare.spec in Hr.
      specialize (Hr ltac:(by destruct e, bytes) w1). cbn [run_completion].
      destruct (on_read e bytes w1); [|done..]. apply Hr. by exists s.
  - apply Hsame; [unfold read_by; by rewrite Hq|]. intros w' ->. cbn [run_completion].
    destruct (match e with operation_aborted => true | _ => false end) eqn:He.
    { destruct e; try done. by exists s. }
    specialize (flow_write_done l e w1) as Hr. destruct (on_write e w1); [|done..].
    apply Hr. exists s. split; [done|]. split; [done|].
    apply (reachable_write_done w s e rest); try done. by intros ->.
  - apply Hsame; [unfold read_by; by rewrite Hq|]. intros w' ->. cbn [run_completion].
    specialize (flow_handshake_done l e w1) as Hr. destruct (on_handshake e w1); [|done..].
    apply Hr. by exists s.
Qed.

Lemma at_rest_same l w w' s :
  at_ w' = at_ w → resumes w' = resumes w → posted w' = posted w → sent w' = sent w →
  writes w' = writes w → at_rest l w s → at_rest l w' s.
Proof.
  intros Ha Hr Hp Hs Hw. unfold at_rest, inflow, sent_data, follows, outflow, alert, armed.
  by rewrite Ha, Hr, Hp, Hs, Hw.
Qed.

(** Events that only change what the handlers will see. *)
Lemma same_event l l' w s f :
  this_ w = Some s → at_rest l w s → l' = l →
  this_ (f w) = this_ w → at_ (f w) = at_ w → resumes (f w) = resumes w → posted (f w) = posted w →
  sent (f w) = sent w → writes (f w) = writes w →
  partial (λ w', w' = w) (modify f) (λ w', has (at_rest l') w') (λ _, True).
Proof.
  intros Hs H -> Ht Ha Hr Hp Hse Hw w' ->. exists s. split; [congruence|]. by apply (at_rest_same l w).
Qed.

(** A message is put into a slot; a process that waits for it is resumed. *)
Lemma receive_flow l l' w s f (b : bool) h :
  this_ w = Some s → at_rest l w s → log_in l' = log_in l →
  (follows l w s → follows l' (set_this (Some (f s)) (set_heap h w)) (f s)) →
  p_ (f s) = p_ s ∧ nextRead (f s) = nextRead s ∧ eof_ (f s) = eof_ s ∧ except_ (f s) = except_ s ∧
    isWriting (f s) = isWriting s →
  (b = false → at_ w = AtMessages →
    send_data (f s) = send_data s ∧ send_many_data (f s) = send_many_data s) →
  match (update f ;;; if b then resume else ret tt) (set_heap h w) with
  | Ok _ w2 => has (at_rest l') w2
  | _ => True
  end.
Proof.
  intros Hs H Hlog Hf (Hp & Hn & He & Hx & Hi) Hb.
  unfold bind, update, bind, this. simpl. rewrite Hs. unfold modify.
  set (w1 := set_this (Some (f s)) (set_heap h w)).
  assert (H1 : resumable l' w1 (f s) ∧ (alert w (f s) → at_rest l' w1 (f s))).
  { pose proof (at_rest_resumable l w s H) as (Hin & Hout & Hrec & Hc).
    assert (Hin' : inflow w1 (f s) = log_in l').
    { rewrite Hlog, <- Hin. unfold inflow, held_data, next_data. simpl. by rewrite Hn. }
    assert (Hrec' : recorded (f s)) by (intros x Hxx; rewrite Hx in Hxx; by apply Hrec).
    assert (Hout' : failed_at (at_ w1) = false → follows l' w1 (f s)) by auto.
    split; [|intros Ha; by repeat split]. split; [done|]. split; [done|]. split; [done|].
    simpl. unfold signalled. by rewrite Hx, He, Hp. }
  destruct H1 as [H1 H2]. destruct b.
  - pose proof (flow_resume l' w1) as Hr. destruct (resume w1); try done. apply Hr. by exists (f s).
  - exists (f s). split; [done|]. apply H2. destruct H as (_ & _ & _ & Ha). unfold alert, armed, quiet in *.
    rewrite Hp, Hn, He, Hx, Hi. unfold signalled in *. rewrite Hx, Hp. destruct (at_ w); try done.
    by destruct Hb as [-> ->].
Qed.

(** A buffer in the slot for single ones. *)
Lemma message_flow l e w s b h :
  this_ w = Some s → at_rest l w s → received_by e w = [b] → read_by e w = [] → completed_by e w = 0 →
  match e with ReceiveMany _ => False | _ => True end →
  match (update (λ s, set_send_data (send_data s ++ [b]) s) ;;;
         if waits_for_data w then resume else ret tt) (set_heap h w) with
  | Ok _ w2 => has (at_rest (next_log e w l)) w2
  | _ => True
  end.
Proof.
  intros Hs H Hrecv Hread Hdone He. set (l' := next_log e w l).
  assert (Hlog : log_in l' = log_in l ∧ log_out l' = option_map (λ G, G ++ [b]) (log_out l)).
  { unfold l', next_log. simpl. rewrite Hrecv, Hread, Hdone, app_nil_r. split; [done|].
    destruct (log_out l); simpl; rewrite ?drop_0; by destruct e. }
  apply (receive_flow l l' w s (λ s, set_send_data (send_data s ++ [b]) s)); try done.
  - apply Hlog.
  - intros Hf. destruct Hlog as [_ Hlog]. unfold follows, outflow in *. rewrite Hlog. simpl.
    destruct (log_out l) as [G|]; [|done]. simpl. destruct Hf as [Hm <-]. split; [done|].
    by rewrite app_assoc.
  - unfold waits_for_data. by intros Hb Hat; rewrite Hat in Hb.
Qed.

Definition stays (K : World → Prop) (w : World) : Prop := this_ w ≠ None → K w.

Lemma handle_flow l e w s :
  reachable w → this_ w = Some s → at_rest l w s →
  partial (λ w', w' = w) (handle e) (stays (has (at_rest (next_log e w l)))) (λ _, True).
Proof.
  intros Hw Hs H. apply spec_get. intros w0 ->.
  assert (Hhas : ∀ m : M World unit, partial (λ w', w' = w) m (has (at_rest (next_log e w l))) (λ _, True) →
    partial (λ w', w' = w) m (stays (has (at_rest (next_log e w l)))) (λ _, True)).
  { intros m Hm. eapply spec_post; [exact Hm| |done]. by intros w' Hw' _. }
  assert (Hret : next_log e w l = l → partial (λ w', w' = w) (ret tt) (has (at_rest (next_log e w l))) (λ _, True)).
  { intros -> w' ->. by exists s. }
  assert (Hresume : next_log e w l = l → partial (λ w', w' = w) resume (has (at_rest (next_log e w l))) (λ _, True)).
  { intros -> w' ->. pose proof (flow_resume l w) as Hr. destruct (resume w); [|done|by intros []].
    apply Hr. exists s. split; [done|]. by apply at_rest_resumable. }
  assert (Hhalt : ∀ (m : M World unit), (∀ w', w' = w → match m w' with Ok _ w2 => has (at_rest (next_log e w l)) w2 | _ => True end) →
    partial (λ w', w' = w) m (stays (has (at_rest (next_log e w l)))) (λ _, True)).
  { intros m Hm. apply Hhas. intros w' Hw'. specialize (Hm w' Hw'). by destruct (m w'); try intros []. }
  destruct e as [| |bytes keep|b|pieces|a| |e bytes|e|e| |].
  - apply Hhas. destruct (at_ w); first [by apply Hresume, next_log_same|by apply Hret, next_log_same].
  - destruct (posted w) as [|n rest] eqn:Hp; [by apply Hhas, Hret, next_log_same|].
    apply Hhalt. intros w' ->. rewrite next_log_same by done. unfold bind, modify.
    set (w1 := set_posted rest w). pose proof (at_rest_resumable l w s H) as Hresumable.
    destruct H as (Hin & Hout & Hrec & Ha).
    assert (Hrest : resumes w ≠ n ∨ running w = false → has (at_rest l) w1).
    { intros Hn. exists s. split; [done|]. split_and!; [done..|]. unfold alert, armed in *. simpl.
      unfold running in Hn. rewrite Hs in Hn.
      destruct (at_ w); try done; (destruct Ha as [Ha|Ha]; [left|by right]);
        rewrite Hp in Ha; (destruct Hn as [Hn|Hn]; [|done]);
        set_solver. }
    destruct (running w) eqn:Hrun; [|apply Hrest; by right].
    case_bool_decide; [|apply Hrest; by left].
    pose proof (flow_resume l w1) as Hr. destruct (resume w1); try done. apply Hr. by exists s.
  - destruct (running w) eqn:Hrun; [|apply Hhas, Hret, next_log_same; try done; by unfold received_by; rewrite Hrun].
    apply Hhalt. intros w' ->. set (b := fresh_buffer bytes w).
    rewrite (bind_run _ _ w b (set_heap (with_new bytes (heap w)) w))
      by (unfold on_heap, makeCopy; by rewrite make_eq).
    assert (Hkeep : ∀ h, match (if keep then on_heap (copy_Buffer b) ;;; ret tt else ret tt) (set_heap h w) with
      | Ok _ w2 => ∃ h', w2 = set_heap h' w | _ => True end).
    { intros h. destruct keep; [|by exists h]. unfold bind, on_heap. simpl.
      destruct (copy_Buffer b h) as [a h'|?|?]; try done. by exists h'. }
    specialize (Hkeep (with_new bytes (heap w))). unfold bind at 1.
    destruct ((if keep then on_heap (copy_Buffer b) ;;; ret tt else ret tt)
      (set_heap (with_new bytes (heap w)) w)) as [[] w2|?|?]; [|done..]. destruct Hkeep as [h' ->].
    by apply (message_flow l (Receive bytes keep) w s b); unfold received_by; rewrite ?Hrun.
  - destruct (running w) eqn:Hrun; [|apply Hhas, Hret, next_log_same; try done; by unfold received_by; rewrite Hrun].
    apply Hhalt. intros w' ->. pose proof (message_flow l (Deliver b) w s b (heap w)) as Hm.
    replace (set_heap (heap w) w) with w in Hm by (by destruct w).
    by apply Hm; unfold received_by; rewrite ?Hrun.
  - destruct (running w) eqn:Hrun.
    2: { apply Hhalt. intros w' ->. exists s. split; [done|]. destruct H as (Hin & _ & Hrec & Ha).
         split_and!; [|done..]. unfold next_log. simpl. by rewrite app_nil_r. }
    apply Hhalt. intros w' ->. unfold bind at 1, on_heap at 1.
    pose proof (total_make_buffers pieces (λ _, False) (heap w) I) as Hmake.
    destruct (make_buffers pieces (heap w)) as [bs h|?|?]; [|done..].
    apply (receive_flow l _ w s (λ s, set_send_many_data (send_many_data s ++ [mkBufferCollection bs]) s)); try done.
    + unfold next_log. simpl. by rewrite app_nil_r.
    + unfold waits_for_data. by intros Hb Hat; rewrite Hat in Hb.
  - destruct (running w) eqn:Hrun; [|by apply Hhas, Hret, next_log_same].
    apply Hhalt. intros w' ->. rewrite next_log_same by done.
    pose proof (receive_flow l l w s (λ s, set_init (init s ++ [a]) s) (waits_for_init w) (heap w)) as Hr.
    replace (set_heap (heap w) w) with w in Hr by (by destruct w). by apply Hr.
  - apply Hhas. destruct (at_ w); first [by apply Hresume, next_log_same|by apply Hret, next_log_same].
  - apply Hhas. destruct (reads w); [by apply Hret, next_log_same|].
    apply (same_event l _ w s); try done. by apply next_log_same.
  - apply Hhalt. intros w' ->. destruct (writes w) as [|b rest] eqn:Hwr.
    + exists s. split; [done|]. rewrite next_log_same; try done. unfold completed_by. by rewrite Hwr.
    + exists s. split; [done|]. destruct H as (Hin & Hout & Hrec & Ha). split_and!; [|intros Hc|done..].
      * unfold next_log. simpl. by rewrite app_nil_r.
      * specialize (Hout Hc). unfold follows, outflow, next_log, completed_by, received_by in *. simpl.
        destruct (log_out l) as [G|]; [|done]. simpl. rewrite Hwr in *. destruct Hout as [Hm <-].
        split; [done|]. by rewrite app_nil_r.
  - apply Hhas. destruct (shakes w); [by apply Hret, next_log_same|].
    apply (same_event l _ w s); try done. by apply next_log_same.
  - apply Hhas. destruct (queued w) as [|c rest] eqn:Hq.
    + apply Hret, next_log_same; try done. unfold read_by. by rewrite Hq.
    + by eapply handler_flow.
  - rewrite Hs. intros w' ->. unfold destroy, bind, get.
    destruct (destroy_all (owned_buffers w) w) as [[] w1|?|?]; [|done|by intros []].
    by intros Hnone.
Qed.

(** ** What holds of every connection *)

Lemma reachable_at_rest w : reachable w → stays (has (λ w s, recorded s ∧ alert w s)) w.
Proof.
  induction 1 as [pid ssl throttled onReady h|w e w' Hw IH He Hstep].
  - intros _. by eexists.
  - intros Hthis. destruct (this_ w) as [s|] eqn:Hs.
    + destruct IH as (s0 & Hs0 & Hrec & Ha); [congruence|]. rewrite Hs in Hs0. simplify_eq.
      assert (Hrest : at_rest (mkLog (inflow w s0) None) w s0) by done.
      specialize (handle_flow _ e w s0 Hw Hs Hrest w eq_refl) as H. rewrite Hstep in H.
      destruct (H Hthis) as (s' & Hs' & _ & _ & Hrec' & Ha'). by exists s'.
    + destruct (reachable_inv w Hw) as [Hgone|(s & Hs' & _)]; [|congruence].
      specialize (handle_gone e w Hgone w eq_refl) as H. rewrite Hstep in H. by destruct H.
Qed.

(** One event, for a process that is there before and after. *)
Lemma event_at_rest e w w' s s' G :
  reachable w → this_ w = Some s → handle e w = Ok tt w' → this_ w' = Some s' →
  (∀ G', G = Some G' → send_many_data s = [] ∧ outflow w s = G') →
  at_rest (next_log e w (mkLog (inflow w s) G)) w' s'.
Proof.
  intros Hw Hs Hstep Hs' HG. destruct (reachable_at_rest w Hw) as (s0 & Hs0 & Hrec & Ha); [congruence|].
  rewrite Hs in Hs0. simplify_eq.
  assert (Hrest : at_rest (mkLog (inflow w s0) G) w s0).
  { split_and!; [done| |done..]. intros _. unfold follows. simpl. destruct G; [|done]. by apply HG. }
  specialize (handle_flow _ e w s0 Hw Hs Hrest w eq_refl) as H. rewrite Hstep in H.
  destruct H as (s1 & Hs1 & H); [congruence|]. by simplify_eq.
Qed.

(** C20: No wake-up is lost: in every state a connection reaches, if it is suspended on its
    promise then its resumption is posted, or else the promise will post it and there is
    nothing to do: no data to pass on, no end of file, no error, and either a write still
    under way or no message to write. *)
Theorem no_wakeup_is_lost w s :
  reachable w → this_ w = Some s → at_ w = AtWrite ∨ at_ w = AtMessages →
  resumes w ∈ posted w ∨
  exec_ (p_ s) = Some (tt, resumes w) ∧ set_ (p_ s) = false ∧
  nextRead s = None ∧ eof_ s = false ∧ except_ s = None ∧
  (isWriting s = true ∨ send_data s = [] ∧ send_many_data s = []).
Proof.
  intros Hw Hs Hc. destruct (reachable_at_rest w Hw) as (s0 & Hs0 & _ & Ha); [congruence|].
  rewrite Hs in Hs0. simplify_eq. unfold alert, armed, quiet in Ha.
  destruct Hc as [Hc|Hc]; rewrite Hc in Ha; naive_solver.
Qed.

(** The buffer of a read holds what was read. *)
Lemma read_by_holds e w w' s buf :
  reachable w → this_ w = Some s → handle e w = Ok tt w' → buf ∈ read_by e w →
  ∃ bytes, ReadDone no_error bytes ∈ queued w ∧
    ((N.of_nat (length bytes) < u64_modulus)%N → range buf (heap w') = Ok bytes (heap w')).
Proof.
  intros Hw Hs Hstep Hbuf. unfold read_by in Hbuf. destruct e; try set_solver.
  destruct (queued w) as [|[[] [|b bytes]| |] rest] eqn:Hq; try set_solver.
  apply list_elem_of_singleton in Hbuf as ->.
  destruct (reachable_at_rest w Hw) as (s0 & Hs0 & Hrec & Ha); [congruence|]. rewrite Hs in Hs0.
  simplify_eq. set (w1 := set_queued rest w).
  assert (Hrest : at_rest (mkLog (inflow w1 s0) None) w1 s0) by done.
  assert (Hcan : can_read w1 s0) by (by eapply (reachable_can_read w)).
  specialize (flow_read_data _ b bytes w1 s0 Hs Hrest Hcan w1 eq_refl) as H.
  unfold handle, bind, get in Hstep. rewrite Hq in Hstep. unfold modify in Hstep. fold w1 in Hstep.
  cbn [run_completion] in Hstep. rewrite Hstep in H. destruct H as (s' & _ & _ & Hheap).
  exists (b :: bytes). split; [set_solver|]. intros Hlen. rewrite Hheap.
  exact (make_range (b :: bytes) 1 (heap w) Hlen).
Qed.

(** C21: What is read is passed on in order, each piece once and none lost: what was sent
    followed by what the process holds grows with every successful read by a buffer of the
    bytes that were read, and no other event changes it. *)
Theorem data_is_passed_on_in_order e w w' s s' :
  reachable w → this_ w = Some s → handle e w = Ok tt w' → this_ w' = Some s' →
  inflow w' s' = inflow w s ++ read_by e w ∧
  ∀ buf, buf ∈ read_by e w →
    ∃ bytes, ReadDone no_error bytes ∈ queued w ∧
      ((N.of_nat (length bytes) < u64_modulus)%N → range buf (heap w') = Ok bytes (heap w')).
Proof.
  intros Hw Hs Hstep Hs'. split.
  - by apply (event_at_rest e w w' s s' None Hw Hs Hstep Hs').
  - intros buf. by apply (read_by_holds e w w' s).
Qed.

