(* ===== verification/SocketTrace.v ===== *)
(** * A connection over time

    Which effects every step of a connection has: what it sent stays sent, in the same
    order, and once it stopped it does not run again. *)

From S2P Require Import Prelude.
From S2P Require Import Hoare.
From S2P Require Import BaseTypes.
From S2P Require Import Future.
From S2P Require Import Buffers.
From S2P Require Import Socket.
From S2P Require Import SocketFacts.
From S2P Require Import SocketFlow.

(** ** Effects *)

Definition sent_grows : relation World := λ w w', sent w `prefix_of` sent w'.
Definition stays_suspended : relation World := λ w w', at_ w' = at_ w.

#[export] Instance sent_grows_preorder : PreOrder sent_grows.
Proof. split; unfold sent_grows; [intros ?; done|intros ???; apply transitivity]. Qed.
#[export] Instance stays_suspended_preorder : PreOrder stays_suspended.
Proof. split; unfold stays_suspended; [done|intros ??? -> ->; done]. Qed.

Section effects.
Context (R : relation World) `{!PreOrder R}.
Context (R_this : ∀ v w, R w (set_this v w)) (R_heap : ∀ h w, R w (set_heap h w)).
Context (R_posted : ∀ l w, R w (set_posted l w)) (R_reads : ∀ n w, R w (set_reads n w)).
Context (R_writes : ∀ l w, R w (set_writes l w)) (R_handshake : ∀ p w, R w (set_handshake p w)).
Context (R_send : ∀ m w, R w (set_sent (sent w ++ [m]) w)).

Lemma effect_this : within R this.
Proof using Type*. intros w w'. unfold this. destruct (this_ w); intros [= <-]. reflexivity. Qed.
Lemma effect_heap {A} (m : M Heap A) : within R (on_heap m).
Proof using Type*. intros w w'. unfold on_heap. destruct (m (heap w)); intros [= <-]; apply R_heap. Qed.
Lemma effect_update f : within R (update f).
Proof using Type*. apply within_bind; [done|apply effect_this|]. intros s. by apply within_modify. Qed.
Hint Resolve effect_this effect_heap effect_update : within.
Hint Extern 1 (within R (modify _)) => apply within_modify; auto with nocore : within.

Lemma effect_post_all l : within R (post_all l).
Proof using Type*. apply within_modify. auto. Qed.
Hint Resolve effect_post_all : within.
Lemma effect_update_promise f : within R (update_promise f).
Proof using Type*. unfold update_promise. within_solve. Qed.
Hint Resolve effect_update_promise : within.
Lemma effect_setError m : within R (setError m).
Proof using Type*. unfold setError, setException, setValue. within_solve. Qed.
Hint Resolve effect_setError : within.
Lemma effect_asyncRead : within R asyncRead.
Proof using Type*. unfold asyncRead. apply within_bind; [done|auto with within|]. intros s. by apply within_modify. Qed.
Lemma effect_send m : within R (Socket.send m).
Proof using Type*. by apply within_modify. Qed.
Hint Resolve effect_asyncRead effect_send : within.

Lemma effect_on_read e bytes : within R (on_read e bytes).
Proof using Type*. unfold on_read, setValue. within_solve. Qed.
Lemma effect_on_write e : within R (on_write e).
Proof using Type*. unfold on_write, setValue. within_solve. Qed.
Lemma effect_on_handshake e : within R (on_handshake e).
Proof using Type*.
  unfold on_handshake. destruct e; cbv zeta; try by within_solve.
Qed.

Lemma effect_completion c : within R (run_completion c).
Proof using Type*.
  destruct c; [apply effect_on_read|apply effect_on_write|apply effect_on_handshake].
Qed.

(** The coroutine, when being suspended elsewhere is an effect that counts. *)
Context (R_suspend : ∀ c w, R w (set_at c w)) (R_resumes : ∀ n w, R w (set_resumes n w)).
Context (R_shakes : ∀ n w, R w (set_shakes n w)).

Lemma effect_suspend c : within R (suspend c).
Proof using Type*. by apply within_modify. Qed.
Hint Resolve effect_suspend : within.
Lemma effect_suspend_on_p c : within R (suspend_on_p c).
Proof using Type*. unfold suspend_on_p. within_solve. Qed.
Hint Resolve effect_suspend_on_p : within.
Lemma effect_checkExcept : within R checkExcept.
Proof using Type*. unfold checkExcept. within_solve. Qed.
Lemma effect_write b : within R (write b).
Proof using Type*. unfold write. within_solve. Qed.
Hint Resolve effect_checkExcept effect_write : within.
Lemma effect_take_messages : within R take_messages.
Proof using Type*. unfold take_messages, destroy_all. within_solve. Qed.
Hint Resolve effect_take_messages : within.

Lemma effect_loop n : within R (run_loop n) ∧ within R (await_next n).
Proof using Type*.
  induction n as [|n [IHloop IHnext]]; [by split; apply within_stop|].
  split; cbn [run_loop await_next]; within_solve; done.
Qed.

Lemma effect_run_loop n : within R (run_loop n).
Proof using Type*. apply effect_loop. Qed.
Lemma effect_await_next n : within R (await_next n).
Proof using Type*. apply effect_loop. Qed.
Hint Resolve effect_run_loop effect_await_next : within.

Lemma effect_after_init : within R after_init.
Proof using Type*. unfold after_init. within_solve. Qed.
Hint Resolve effect_after_init : within.
Lemma effect_after_start : within R after_start.
Proof using Type*. unfold after_start. within_solve. Qed.
Hint Resolve effect_after_start : within.

Lemma effect_resume : within R resume.
Proof using Type*.
  unfold resume, continue, start, process_p, process_handshake. within_solve.
Qed.
End effects.

Lemma sent_grows_same w w' : sent w' = sent w → sent_grows w w'.
Proof. unfold sent_grows. by intros ->. Qed.

(** What was sent stays sent, in that order. *)
Lemma handle_sent e : within sent_grows (handle e).
Proof.
  assert (Hsend : ∀ m w, sent_grows w (set_sent (sent w ++ [m]) w)) by (intros; by eexists).
  assert (Hresume : within sent_grows resume).
  { apply effect_resume; try done; try apply _; intros; by apply sent_grows_same. }
  assert (Hcompletion : ∀ c, within sent_grows (run_completion c)).
  { intros c. apply effect_completion; try done; try apply _; intros; by apply sent_grows_same. }
  assert (Hheap : ∀ A (m : M Heap A), within sent_grows (on_heap m)).
  { intros A m. apply effect_heap; try done; try apply _; intros; by apply sent_grows_same. }
  assert (Hupdate : ∀ f, within sent_grows (update f)).
  { intros f. apply effect_update; try done; try apply _; intros; by apply sent_grows_same. }
  assert (Hmodify : ∀ f, (∀ w, sent (f w) = sent w) → within sent_grows (modify f)).
  { intros f Hf. apply within_modify. intros w. by apply sent_grows_same. }
  unfold handle. apply within_bind; [apply _|apply within_get, _|intros w].
  destruct e; unfold destroy, destroy_all; within_solve; auto.
Qed.

(** ** A connection that has stopped *)

Definition stopped (c : Control) : bool :=
  match c with Ended | Threw _ => true | _ => false end.

Lemma running_stopped w s : this_ w = Some s → running w = negb (stopped (at_ w)).
Proof. unfold running. intros ->. by destruct (at_ w). Qed.

Lemma completion_suspended c : within stays_suspended (run_completion c).
Proof. apply effect_completion; try done; apply _. Qed.

Lemma handle_stopped e w w' :
  stopped (at_ w) = true → handle e w = Ok tt w' → at_ w' = at_ w ∨ this_ w' = None.
Proof.
  intros Hat. assert (Hrun : running w = false) by (unfold running; destruct (this_ w), (at_ w); done).
  unfold handle, bind, get. rewrite Hrun.
  assert (Hsame : ∀ m : M World unit, within stays_suspended m → m w = Ok tt w' →
    at_ w' = at_ w ∨ this_ w' = None).
  { intros m Hm Hw. specialize (Hm w w'). rewrite Hw in Hm. left. by apply Hm. }
  destruct e.
  - destruct (at_ w) eqn:H; try done; intros [= <-]; by left.
  - apply Hsame. destruct (posted w); within_solve. by apply within_modify.
  - intros [= <-]; by left.
  - intros [= <-]; by left.
  - intros [= <-]; by left.
  - intros [= <-]; by left.
  - destruct (at_ w) eqn:H; try done; intros [= <-]; by left.
  - apply Hsame. destruct (reads w); within_solve. by apply within_modify.
  - apply Hsame. destruct (writes w); within_solve. by apply within_modify.
  - apply Hsame. destruct (shakes w); within_solve. by apply within_modify.
  - apply Hsame. destruct (queued w) as [|c rest]; [within_solve|].
    apply within_bind; [apply _|by apply within_modify|intros _; apply completion_suspended].
  - destruct (this_ w); [|intros [= <-]; by left]. unfold destroy, bind, get.
    destruct (destroy_all (owned_buffers w) w); [|done..]. intros [= <-]. by right.
Qed.

(** A process that is there was there before, and had not stopped if it has not. *)
Lemma handle_backwards e w w' :
  reachable w → handle e w = Ok tt w' → this_ w' ≠ None →
  this_ w ≠ None ∧ (stopped (at_ w) = true → at_ w' = at_ w).
Proof.
  intros Hw Hstep Hthis. split.
  - intros Hs. destruct (reachable_inv w Hw) as [Hgone|(s' & Hs' & _)]; [|congruence].
    specialize (handle_gone e w Hgone w eq_refl) as H. rewrite Hstep in H. by destruct H.
  - intros Hat. by destruct (handle_stopped e w w' Hat Hstep).
Qed.

Lemma running_before e w w' :
  reachable w → handle e w = Ok tt w' → running w' = true → running w = true.
Proof.
  intros Hw Hstep Hrun. assert (Hthis : this_ w' ≠ None) by (unfold running in Hrun; by destruct (this_ w')).
  destruct (handle_backwards e w w' Hw Hstep Hthis) as [Hthis' Hstop].
  destruct (this_ w) as [s|] eqn:Hs; [|done]. destruct (this_ w') as [s'|] eqn:Hs'; [|done].
  rewrite (running_stopped _ _ Hs') in Hrun. rewrite (running_stopped _ _ Hs).
  destruct (stopped (at_ w)) eqn:Hat; [|done]. by rewrite Hstop, Hat in Hrun.
Qed.

Lemma failed_before e w w' :
  reachable w → handle e w = Ok tt w' → this_ w' ≠ None →
  failed_at (at_ w') = false → failed_at (at_ w) = false.
Proof.
  intros Hw Hstep Hthis Hf. destruct (handle_backwards e w w' Hw Hstep Hthis) as [_ Hstop].
  destruct (at_ w); try done. by rewrite Hstop in Hf.
Qed.

Lemma sent_data_grows e w w' : handle e w = Ok tt w' → sent_data w `prefix_of` sent_data w'.
Proof.
  intros Hstep. pose proof (handle_sent e w w') as H. rewrite Hstep in H.
  destruct (H eq_refl) as [l Hl]. unfold sent_data. rewrite Hl, omap_app. by eexists.
Qed.
