(* ===== verification/SocketWitnesses.v ===== *)
(** * The buffer and connection theorems on concrete inputs

    Each theorem of [Buffers], [SocketFacts] and [SocketFlow] with a hypothesis, applied to a state
    that a short script of events reaches. *)

From Stdlib Require Import Strings.Byte.
From S2P Require Import Prelude.
From S2P Require Import BaseTypes.
From S2P Require Import Future.
From S2P Require Import Buffers.
From S2P Require Import Socket.
From S2P Require Import SocketFacts.
From S2P Require Import SocketFlow.

(** ** Buffers *)

Definition no_buffs : Heap := mkHeap ∅ 1.
Definition hello : list byte := [x68; x65; x6c; x6c; x6f].
Definition one_buff : Heap := mkHeap {[ 1%positive := mkBuff hello 1 ]} 2.
Definition window : Buffer := mkBuffer 1 0 5.

Lemma no_buffs_wf : heap_wf no_buffs.
Proof. intros p s. simpl. by rewrite lookup_empty. Qed.
Lemma one_buff_wf : heap_wf one_buff.
Proof. intros p s Hp. simpl in Hp. apply lookup_singleton_Some in Hp as [<- <-]. by split. Qed.
Lemma window_holds : holds one_buff window hello.
Proof. eexists. split; [apply lookup_singleton_eq|]. by split; [simpl; lia|]. Qed.

Lemma makeCopy_roundtrip_witness :
  ∃ b h', makeCopy hello no_buffs = Ok b h' ∧ range b h' = Ok hello h' ∧
    (∀ b' v, holds no_buffs b' v → holds h' b' v) ∧ heap_wf h'.
Proof. apply (makeCopy_roundtrip hello no_buffs no_buffs_wf). reflexivity. Defined.

Lemma consume_drops_witness :
  ∃ b', consume 2 window one_buff = Ok b' one_buff ∧ range b' one_buff = Ok [x6c; x6c; x6f] one_buff.
Proof. exact (consume_drops one_buff window hello 2 one_buff_wf window_holds). Defined.

Lemma combine_concatenates_witness :
  ∃ b h', combine (mkBufferCollection [window; window]) one_buff = Ok b h' ∧
    range b h' = Ok (hello ++ hello ++ []) h' ∧ length_ b = 10%N ∧
    (∀ b' v, holds one_buff b' v → holds h' b' v).
Proof.
  apply (combine_concatenates one_buff (mkBufferCollection [window; window]) [hello; hello] one_buff_wf).
  - do 2 (constructor; [exact window_holds|]). constructor.
  - reflexivity.
Defined.

Lemma append_reads_out_of_bounds_witness :
  ∃ b', append window window one_buff = Ok b' one_buff ∧
        range b' one_buff = Halt (Undefined OutOfRange).
Proof.
  apply (append_reads_out_of_bounds one_buff window window hello hello one_buff_wf window_holds window_holds).
  - discriminate.
  - intros s Hs. simpl in Hs. apply lookup_singleton_Some in Hs as [_ <-]. reflexivity.
  - reflexivity.
Defined.

Lemma one_buff_counted : counted [window] one_buff.
Proof.
  split.
  - exact one_buff_wf.
  - intros p s Hp. simpl in Hp. apply lookup_singleton_Some in Hp as [<- <-]. done.
  - intros p s Hp. simpl in Hp. apply lookup_singleton_Some in Hp as [<- <-]. done.
  - intros b ->%list_elem_of_singleton. eexists. apply window_holds.
Qed.

Lemma reference_counts_exact_witness :
  match exec_buf (Buffers.Destroy 0) [window] one_buff with
  | Ok bs' h' => counted bs' h' ∧ (bs' = [] → buffs h' = ∅)
  | Throw _ _ => False
  | Halt x => x = Terminated ∧ ∃ n i, Buffers.Destroy 0 = Consume n i
  end.
Proof.
  apply (reference_counts_exact (Buffers.Destroy 0) [window] one_buff one_buff_counted).
  - reflexivity.
  - exact I.
Defined.

(** ** Connections *)

Definition owner : SendAddress := mkSendAddress (mkPid 7 1) 3%positive.
Definition connection : World := new_world (mkPid 4 2) false true owner no_buffs.
Definition after (l : list event) : World :=
  match script l connection with Ok _ w => w | _ => connection end.

Lemma script_reachable l w w' :
  reachable w → Forall allowed l → script l w = Ok tt w' → reachable w'.
Proof.
  intros Hw Hl. revert w Hw. induction Hl as [|e l He _ IH]; intros w Hw; [by intros [= <-]|].
  unfold script. simpl. unfold bind. destruct (handle e w) as [[] w1|?|?] eqn:H; [|done..].
  apply IH. by eapply reach_step.
Qed.

Lemma connection_reachable l : Forall allowed l → reachable (after l).
Proof.
  intros Hl. unfold after. destruct (script l connection) as [[] w|?|?] eqn:H; try constructor.
  by eapply script_reachable; [constructor|exact Hl|].
Qed.

(** A message is being written, one has been read, and one of each kind waits. *)
Definition busy : list event :=
  [Start; ReceiveInit owner; Receive hello true; Receive hello true; ReceiveMany [hello; hello];
   ReadCompletes no_error hello; RunHandler].

Lemma busy_reachable : reachable (after busy).
Proof. apply connection_reachable. repeat constructor; discriminate. Qed.

Definition busy_socket : SocketObject :=
  Eval vm_compute in match this_ (after busy) with Some s => s | None => new_SocketObject (mkPid 0 0) false false owner end.

Lemma one_read_one_write_witness :
  pending_reads (after busy) ≤ 1 ∧ pending_writes (after busy) = 1 ∧
  (nextRead busy_socket ≠ None → pending_reads (after busy) = 0) ∧
  (pending_reads (after busy) ≠ 0 → toSend busy_socket ≠ None).
Proof.
  apply (one_read_one_write (after busy) busy_socket busy_reachable). vm_compute. reflexivity.
Defined.


Definition waiting : World := Eval vm_compute in after [Start; ReceiveInit owner].
Definition waiting_socket : SocketObject :=
  Eval vm_compute in match this_ waiting with Some s => s | None => new_SocketObject (mkPid 0 0) false false owner end.

Lemma write_needs_the_senders_reference_witness :
  ∃ b w', handle (Receive hello false) waiting = Ok tt w' ∧ writes w' = writes waiting ++ [b] ∧
    at_ w' = AtWrite ∧ range b (heap w') = Halt (Undefined UseAfterFree).
Proof.
  apply (write_needs_the_senders_reference waiting_socket waiting hello false).
  - by split.
  - reflexivity.
Defined.

(** The heaps while the first of the waiting messages is taken. *)
Definition heap_of {A} (h : Heap) (r : outcome Heap A) : Heap := match r with Ok _ h' => h' | _ => h end.
Definition busy_world : World := Eval vm_compute in after busy.
Definition first_message : Buffer :=
  Eval vm_compute in match send_data busy_socket with b :: _ => b | [] => window end.
Definition second_message : BufferCollection :=
  Eval vm_compute in match send_many_data busy_socket with m :: _ => m | [] => mkBufferCollection [] end.
Definition heap1 : Heap := Eval vm_compute in heap_of no_buffs (copy_Buffer first_message (heap busy_world)).
Definition heap2 : Heap := Eval vm_compute in heap_of no_buffs (destroy_Buffer first_message heap1).
Definition heap3 : Heap :=
  Eval vm_compute in heap_of no_buffs (for_each destroy_Buffer (first_message :: buffers second_message) heap2).

Lemma second_message_is_lost_witness :
  ∃ s' w', take_messages busy_world = Ok tt w' ∧ this_ w' = Some s' ∧
    send_data s' = [] ∧ send_many_data s' = [] ∧ writes w' = writes busy_world ++ [first_message].
Proof.
  by apply (second_message_is_lost busy_socket busy_world first_message second_message [] []
              heap1 heap2 heap3).
Defined.

Definition write_failed : World :=
  Eval vm_compute in after [Start; ReceiveInit owner; Receive hello true; WriteCompletes (failed "reset")].
Definition write_failed_socket : SocketObject :=
  Eval vm_compute in match this_ write_failed with Some s => s | None => busy_socket end.

Lemma failed_write_ends_process_witness :
  ∃ w', script [RunHandler; Continuation] write_failed = Ok tt w' ∧
    at_ w' = Threw "Listener threw reset".
Proof. by apply (failed_write_ends_process write_failed_socket write_failed "reset"). Defined.

Definition socket_of (w : World) : SocketObject :=
  match this_ w with Some s => s | None => busy_socket end.

Lemma waiting_reachable : reachable waiting.
Proof. apply (connection_reachable [Start; ReceiveInit owner]). by repeat constructor. Qed.

Lemma no_wakeup_is_lost_witness :
  resumes waiting ∈ posted waiting ∨
  exec_ (p_ waiting_socket) = Some (tt, resumes waiting) ∧ set_ (p_ waiting_socket) = false ∧
  nextRead waiting_socket = None ∧ eof_ waiting_socket = false ∧ except_ waiting_socket = None ∧
  (isWriting waiting_socket = true ∨ send_data waiting_socket = [] ∧ send_many_data waiting_socket = []).
Proof. apply (no_wakeup_is_lost waiting waiting_socket waiting_reachable); [reflexivity|by right]. Defined.

(** A read has completed, its handler has not run. *)
Definition has_read : list event := [Start; ReceiveInit owner; ReadCompletes no_error hello].
Definition read_world : World := Eval vm_compute in after has_read.
Definition read_next : World := Eval vm_compute in after (has_read ++ [RunHandler]).

Lemma read_world_reachable : reachable read_world.
Proof. apply (connection_reachable has_read). repeat constructor; discriminate. Qed.

Lemma data_is_passed_on_in_order_witness :
  inflow read_next (socket_of read_next) =
    inflow read_world (socket_of read_world) ++ read_by RunHandler read_world ∧
  ∀ buf, buf ∈ read_by RunHandler read_world →
    ∃ bytes, ReadDone no_error bytes ∈ queued read_world ∧
      ((N.of_nat (length bytes) < u64_modulus)%N → range buf (heap read_next) = Ok bytes (heap read_next)).
Proof.
  apply (data_is_passed_on_in_order RunHandler read_world read_next (socket_of read_world)
           (socket_of read_next) read_world_reachable); reflexivity.
Defined.

(** A message is being written, and one more comes. *)
Definition has_written : list event := [Start; ReceiveInit owner; Receive hello true].
Definition written_world : World := Eval vm_compute in after has_written.
Definition written_next : World := Eval vm_compute in after (has_written ++ [Receive hello true]).

Lemma written_world_reachable : reachable written_world.
Proof. apply (connection_reachable has_written). by repeat constructor. Qed.

