(* ===== verification/Www.v ===== *)
(** * HTTP sessions

    Models [eslang_www/Www.h]/[.cpp]: [WwwParser], which turns received bytes into
    requests and responses into buffers, and the loop of [SessionRunner] that answers
    the requests of a connection. What boost::beast does is the interface [Beast], with
    what the code relies on in [BeastLaws]. A generator that is read to its end in one
    place is a function of what its reader does with each value; a buffer is its bytes
    ([Buffers.makeCopy_roundtrip]), so a batch is a list of those. *)

From Stdlib Require Import Strings.Byte.
From S2P Require Import Prelude.
From S2P Require Import BaseTypes.

Abbreviation bytes := (list byte).

(** ** What the session uses of boost::beast *)

(** The [error_code] of [put]. *)
Inductive parse_code :=
  | parse_ok
  | need_more
  | parse_error (message : string).

Class Beast := {
  request : Type;
  response : Type;
  (** [http::request_parser]: [put] tells how much it took. *)
  request_parser : Type;
  new_parser : request_parser;
  put : bytes → request_parser → nat * parse_code * request_parser;
  parser_is_done : request_parser → bool;
  release : request_parser → request;
  (** [multi_buffer]: [size] counts what was committed. *)
  multi_buffer : Type;
  new_multi_buffer : multi_buffer;
  prepare : nat → multi_buffer → multi_buffer;
  buffer_consume : nat → multi_buffer → multi_buffer;
  buffer_size : multi_buffer → nat;
  (** [http::response_serializer]: [next] gives its visitor an error or a sequence of
      buffers. *)
  response_serializer : Type;
  new_serializer : response → response_serializer;
  split : bool → response_serializer → response_serializer;
  serializer_is_done : response_serializer → bool;
  is_header_done : response_serializer → bool;
  next : response_serializer → option string * list bytes * response_serializer;
  serializer_consume : nat → response_serializer → response_serializer;
  (** The messages, and chunked encoding. *)
  request_keep_alive : request → bool;
  request_version : request → N;
  set_version : N → response → response;
  set_server : string → response → response;
  set_keep_alive : bool → response → response;
  chunked : response → bool;
  make_chunk : bytes → list bytes;
  make_chunk_last : list bytes;
}.

(** ** Sessions *)

(** [Www::Server::IHandler], with a state of its own: [getResponse] returns a response or
    throws, [getChunked] yields buffers and ends or throws. *)
Record IHandler `{Beast} := mkIHandler {
  state : Type;
  getResponse : request → state → (response + exn) * state;
  getChunked : request → state → list bytes * option exn * state;
}.

Section www.
Context `{Beast} (handler : IHandler).

(** [IHandler::makeSimple]. *)
Definition SimpleHandler {st} (fn_ : request → st → (response + exn) * st) : IHandler :=
  mkIHandler _ st fn_
    (λ _ st, ([], Some (EslangException (concatString ["Should not be chunked"])), st)).

(** The locals of [SessionRunner::run], with the [WwwParser] and the batch of the
    current [StreamBatcher]; [sent] is what the socket process was sent, [connected]
    whether there still is one. *)
Record Session := mkSession {
  handler_state : state handler;
  parser_ : request_parser;
  currentRead_ : multi_buffer;
  keep_alive : bool;
  batch : list bytes;
  sent : list (list bytes);
  connected : bool;
}.

Definition new_session (st : state handler) : Session := mkSession st new_parser new_multi_buffer true [] [] true.

Definition set_handler_state v (s : Session) : Session :=
  mkSession v (parser_ s) (currentRead_ s) (keep_alive s) (batch s) (sent s) (connected s).
Definition set_parser v (s : Session) : Session :=
  mkSession (handler_state s) v (currentRead_ s) (keep_alive s) (batch s) (sent s) (connected s).
Definition set_currentRead v (s : Session) : Session :=
  mkSession (handler_state s) (parser_ s) v (keep_alive s) (batch s) (sent s) (connected s).
Definition set_session_keep_alive v (s : Session) : Session :=
  mkSession (handler_state s) (parser_ s) (currentRead_ s) v (batch s) (sent s) (connected s).
Definition set_batch v (s : Session) : Session :=
  mkSession (handler_state s) (parser_ s) (currentRead_ s) (keep_alive s) v (sent s) (connected s).
Definition set_sent v (s : Session) : Session :=
  mkSession (handler_state s) (parser_ s) (currentRead_ s) (keep_alive s) (batch s) v (connected s).

Definition checkOrThrow (ec : option string) : M Session unit :=
  match ec with
  | Some message => ESLANGEXCEPT ["Bad error code:"; message]
  | None => ret tt
  end.

(** ** [WwwParser] *)

(** [push(data)], read by [body]. *)
Fixpoint push (fuel : nat) (data : bytes) (body : request → M Session unit) : M Session unit :=
  match fuel with
  | 0 => stop OutOfFuel
  | S fuel' =>
      modify (λ s, set_currentRead (prepare (length data) (currentRead_ s)) s) ;;;
      let! s := get in
      let '(read, ec, p) := put data (parser_ s) in
      modify (set_parser p) ;;;
      modify (λ s, set_currentRead (buffer_consume read (currentRead_ s)) s) ;;;
      match ec with
      | need_more => ret tt
      | parse_error message => checkOrThrow (Some message)
      | parse_ok =>
          (if parser_is_done p then
             body (release p) ;;;
             modify (set_parser new_parser)
           else ret tt) ;;;
          let! n := gets (λ s, buffer_size (currentRead_ s)) in
          if bool_decide (n = 0) then ret tt else push fuel' data body
      end
  end.

(** [SerializeVisitor]: its buffers, and their total size [last]. *)
Definition visit (ec : option string) (b : list bytes) : M Session (list bytes * nat) :=
  checkOrThrow ec ;;;
  ret (b, list_sum (length <$> b)).

(** The loop of [convert] and [convertHeaderOnly], read by [body]. *)
Fixpoint serialize (header_only : bool) (fuel : nat) (serializer : response_serializer)
    (body : bytes → M Session unit) : M Session unit :=
  match fuel with
  | 0 => stop OutOfFuel
  | S fuel' =>
      if serializer_is_done serializer then ret tt
      else
        let '(ec, seq, serializer1) := next serializer in
        let! visited := visit ec seq in
        let (buffs, last) := visited in
        for_each body buffs ;;;
        let serializer2 := serializer_consume last serializer1 in
        if header_only && is_header_done serializer2 then ret tt
        else serialize header_only fuel' serializer2 body
  end.

Definition convert (fuel : nat) (r : response) : (bytes → M Session unit) → M Session unit :=
  serialize false fuel (new_serializer r).

Definition convertHeaderOnly (fuel : nat) (r : response) : (bytes → M Session unit) → M Session unit :=
  serialize true fuel (split true (new_serializer r)).

(** ** [StreamBatcher] *)

Definition sb_push (b : bytes) : M Session unit := modify (λ s, set_batch (batch s ++ [b]) s).

(** [Tcp::sendMany] throws when there is no such process. *)
Definition sb_clear : M Session unit :=
  let! s := get in
  match batch s with
  | [] => ret tt
  | _ :: _ =>
      if connected s then modify (λ s, set_batch [] (set_sent (sent s ++ [batch s]) s))
      else ESLANGEXCEPT ["No process found for pid "]
  end.

(** The scope of a [StreamBatcher sb]. *)
Definition with_batcher (body : M Session unit) : M Session unit :=
  modify (set_batch []) ;;;
  on_throw body (noexcept sb_clear) ;;;
  noexcept sb_clear.

(** ** [SessionRunner] *)

Definition call_getResponse (req : request) : M Session response :=
  let! s := get in
  let (r, st) := getResponse handler req (handler_state s) in
  modify (set_handler_state st) ;;;
  match r with
  | inl resp => ret resp
  | inr e => throw e
  end.

(** [for co_await (auto buff : handler->getChunked(this, req)) body]. *)
Definition for_getChunked (req : request) (body : bytes → M Session unit) : M Session unit :=
  let! s := get in
  let '(buffs, e, st) := getChunked handler req (handler_state s) in
  modify (set_handler_state st) ;;;
  for_each body buffs ;;;
  match e with
  | Some e => throw e
  | None => ret tt
  end.

(** The headers that [run] sets. *)
Definition finish_response (req : request) (resp : response) : response :=
  set_keep_alive (request_keep_alive req) (set_server "Eslang" (set_version (request_version req) resp)).

Definition send_response (fuel : nat) (req : request) (resp : response) : M Session unit :=
  with_batcher
    (if chunked resp then
       convertHeaderOnly fuel resp sb_push ;;;
       for_getChunked req (λ buff, for_each sb_push (make_chunk buff)) ;;;
       for_each sb_push make_chunk_last
     else convert fuel resp sb_push).

(** One turn of the inner loop. *)
Definition answer (fuel : nat) (req : request) : M Session unit :=
  modify (λ s, set_session_keep_alive (keep_alive s || request_keep_alive req) s) ;;;
  let! resp := call_getResponse req in
  send_response fuel req (finish_response req resp).

(** [run] on the messages it receives, until there are no more. *)
Fixpoint run (fuel : nat) (received : list bytes) : M Session unit :=
  let! b := gets keep_alive in
  if b then
    match received with
    | [] => ret tt
    | data :: rest => push fuel data (answer fuel) ;;; run fuel rest
    end
  else ret tt.
End www.

(** ** What the code relies on

    Nothing is ever committed to the buffer; the serializer gives what it has not been
    told to consume, which ends; split, it gives the header alone first. [serialized] is
    what is left to give, [header] what is left of the header, [rank] bounds the calls:
    ghosts, as is [is_split]. *)
Class BeastLaws `{Beast} := {
  new_buffer_size : buffer_size new_multi_buffer = 0;
  prepare_size n b : buffer_size (prepare n b) = buffer_size b;
  consume_size n b : buffer_size (buffer_consume n b) ≤ buffer_size b;
  serialized : response_serializer → bytes;
  header : response_serializer → bytes;
  rank : response_serializer → nat;
  is_split : response_serializer → bool;
  next_ok s : serializer_is_done s = false → (next s).1.1 = None;
  next_rank s :
    serializer_is_done s = false →
    rank (serializer_consume (list_sum (length <$> (next s).1.2)) (next s).2) < rank s;
  done_serialized s : serializer_is_done s = true → serialized s = [];
  next_serialized s :
    serializer_is_done s = false →
    serialized s = concat (next s).1.2 ++
      serialized (serializer_consume (list_sum (length <$> (next s).1.2)) (next s).2);
  split_new r : is_split (split true (new_serializer r)) = true ∧
                is_header_done (split true (new_serializer r)) = false;
  split_not_done s : is_split s = true → is_header_done s = false → serializer_is_done s = false;
  split_next s :
    is_split s = true → is_header_done s = false →
    let s2 := serializer_consume (list_sum (length <$> (next s).1.2)) (next s).2 in
    is_split s2 = true ∧ header s = concat (next s).1.2 ++ header s2;
  split_header_done s : is_split s = true → is_header_done s = true → header s = [];
}.

Section facts.
Context `{BL : BeastLaws} (handler : IHandler).
Local Abbreviation Sess := (Session handler).
Implicit Types s : Sess.

(** ** Requests *)

(** What reads the requests leaves the parser alone. *)
Definition leaves_buffer (body : request → M Sess unit) : Prop :=
  ∀ req s, post (λ _ s', currentRead_ _ s' = currentRead_ _ s) (λ _ _, True) (body req s).

(** One turn of the loop of [push]. *)
Definition pushed (data : bytes) (body : request → M Sess unit) b s : outcome Sess unit :=
  let '(_, ec, p) := put data (parser_ _ s) in
  let s' := set_currentRead _ b (set_parser _ p s) in
  match ec with
  | need_more => Ok tt s'
  | parse_error message => Throw (std_exception ("Bad error code:" +:+ message)) s'
  | parse_ok =>
      if parser_is_done p then (body (release p) ;;; modify (set_parser _ new_parser)) s'
      else Ok tt s'
  end.

Lemma push_eq n data body s :
  buffer_size (currentRead_ _ s) = 0 → leaves_buffer body →
  ∃ b, buffer_size b = 0 ∧ push _ (S n) data body s = pushed data body b s.
Proof.
  intros Hb Hbody. unfold pushed. destruct (put data (parser_ _ s)) as [[read ec] p] eqn:Hput.
  exists (buffer_consume read (prepare (length data) (currentRead_ _ s))).
  assert (H0 : buffer_size (buffer_consume read (prepare (length data) (currentRead_ _ s))) = 0).
  { pose proof (consume_size read (prepare (length data) (currentRead_ _ s))) as Hc.
    rewrite prepare_size in Hc. lia. }
  split; [done|]. simpl. unfold bind, modify, get. simpl. rewrite Hput. simpl.
  destruct ec as [| |message]; [|done|done].
  destruct (parser_is_done p); simpl.
  - set (s' := set_currentRead _ _ _). specialize (Hbody (release p) s').
    unfold bind. destruct (body (release p) s') as [[] s2|?|?]; [|done..]. simpl in Hbody |- *.
    unfold gets. simpl. rewrite Hbody. simpl. by rewrite H0.
  - unfold gets. simpl. by rewrite H0.
Qed.

(** [push] hands the parser everything it was given, once: it asks for more, throws
    the error of the parser, or has the request that is complete answered and begins
    anew; its loop never turns twice. *)
Theorem push_parses_once n data body s :
  buffer_size (currentRead_ _ s) = 0 → leaves_buffer body →
  ∃ b, buffer_size b = 0 ∧ push _ (S n) data body s = pushed data body b s.
Proof. apply push_eq. Qed.

(** What follows a complete request in the same data is lost: the parser stops at
    the end of the request, and nothing keeps the rest. *)
Theorem pipelined_requests_are_lost n first rest p (record : request → list bytes) s :
  buffer_size (currentRead_ _ s) = 0 →
  put (first ++ rest) (parser_ _ s) = (length first, parse_ok, p) → parser_is_done p = true →
  ∃ s', push _ (S n) (first ++ rest) (λ req, modify (λ s, set_sent _ (sent _ s ++ [record req]) s)) s =
          Ok tt s' ∧
    sent _ s' = sent _ s ++ [record (release p)] ∧ parser_ _ s' = new_parser ∧
    buffer_size (currentRead_ _ s') = 0.
Proof.
  intros Hb Hput Hdone.
  destruct (push_eq n (first ++ rest) (λ req, modify (λ s, set_sent _ (sent _ s ++ [record req]) s)) s)
    as (b & H0 & ->); [done|by intros req s'|].
  unfold pushed. rewrite Hput, Hdone. by eexists.
Qed.

(** ** Responses *)

Lemma for_each_app {A} (f : A → M Sess unit) l1 l2 s :
  for_each f (l1 ++ l2) s = (for_each f l1 ;;; for_each f l2) s.
Proof.
  revert s. induction l1 as [|x l1 IH]; intros s; [done|]. simpl. unfold bind.
  destruct (f x s); [|done..]. apply IH.
Qed.

Lemma sb_push_all l s : for_each (sb_push handler) l s = Ok tt (set_batch _ (batch _ s ++ l) s).
Proof.
  revert s. induction l as [|b l IH]; intros s; simpl.
  - rewrite app_nil_r. by destruct s.
  - unfold bind, sb_push, modify in *. rewrite IH. simpl. by rewrite <- app_assoc.
Qed.

(** The loop gives the pieces of what is serialized. *)
Lemma serialize_pieces fuel ser :
  rank ser < fuel →
  ∃ l, concat l = serialized ser ∧ ∀ body s, serialize handler false fuel ser body s = for_each body l s.
Proof.
  revert ser. induction fuel as [|fuel IH]; intros ser Hrank; [lia|].
  destruct (serializer_is_done ser) eqn:Hdone.
  - exists []. split; [by rewrite done_serialized|]. intros body s. simpl. by rewrite Hdone.
  - pose proof (next_rank _ Hdone) as Hlt. pose proof (next_ok _ Hdone) as Hok.
    pose proof (next_serialized _ Hdone) as Hser.
    destruct (next ser) as [[ec b] ser1] eqn:Hnext. simpl in *. subst ec.
    destruct (IH (serializer_consume (list_sum (length <$> b)) ser1)) as (l & Hl & Hrun); [lia|].
    exists (b ++ l). split; [by rewrite concat_app, Hl|]. intros body s. rewrite Hdone, Hnext.
    rewrite for_each_app. unfold visit, checkOrThrow, bind at 1, bind at 1, ret. simpl.
    unfold bind. destruct (for_each body b s); [apply Hrun|done..].
Qed.

(** Split, those of the header. *)
Lemma serialize_header fuel ser :
  rank ser < fuel → is_split ser = true → is_header_done ser = false →
  ∃ l, concat l = header ser ∧ ∀ body s, serialize handler true fuel ser body s = for_each body l s.
Proof.
  revert ser. induction fuel as [|fuel IH]; intros ser Hrank Hsplit Hheader; [lia|].
  pose proof (split_not_done _ Hsplit Hheader) as Hdone.
  pose proof (next_rank _ Hdone) as Hlt. pose proof (next_ok _ Hdone) as Hok.
  pose proof (split_next _ Hsplit Hheader) as [Hsplit2 Hhead].
  destruct (next ser) as [[ec b] ser1] eqn:Hnext. simpl in *. subst ec.
  set (ser2 := serializer_consume (list_sum (length <$> b)) ser1) in *.
  destruct (is_header_done ser2) eqn:Hheader2.
  - exists b. split; [by rewrite Hhead, split_header_done, app_nil_r|]. intros body s.
    rewrite Hdone, Hnext. unfold visit, checkOrThrow, bind at 1, bind at 1, ret. simpl.
    fold ser2. rewrite Hheader2. unfold bind. by destruct (for_each body b s) as [[] ?|?|?].
  - destruct (IH ser2) as (l & Hl & Hrun); [lia|done|done|].
    exists (b ++ l). split; [by rewrite concat_app, Hl|]. intros body s. rewrite Hdone, Hnext.
    rewrite for_each_app. unfold visit, checkOrThrow, bind at 1, bind at 1, ret. simpl.
    fold ser2. rewrite Hheader2. unfold bind. destruct (for_each body b s); [apply Hrun|done..].
Qed.

(** What a [StreamBatcher] sends of a batch. *)
Definition as_message (l : list bytes) : list (list bytes) := match l with [] => [] | _ => [l] end.

Lemma with_batcher_run body l s st :
  connected _ s = true →
  body (set_batch _ [] s) = Ok tt (set_handler_state _ st (set_batch _ l s)) →
  with_batcher handler body s =
    Ok tt (set_handler_state _ st (set_batch _ [] (set_sent _ (sent _ s ++ as_message l) s))).
Proof.
  intros Hc Hbody. unfold with_batcher, bind, modify, on_throw. rewrite Hbody.
  unfold noexcept, sb_clear, bind, get. simpl. destruct l as [|b l]; simpl.
  - by rewrite app_nil_r.
  - rewrite Hc. done.
Qed.

(** [send_response], given the pieces [l] that the serializer gives. *)
Lemma send_plain fuel req resp l s :
  connected _ s = true → chunked resp = false →
  (∀ body s, serialize handler false fuel (new_serializer resp) body s = for_each body l s) →
  send_response handler fuel req resp s =
    Ok tt (set_batch _ [] (set_sent _ (sent _ s ++ as_message l) s)).
Proof.
  intros Hc Hchunked Hrun. unfold send_response. rewrite Hchunked.
  rewrite (with_batcher_run _ l s (handler_state _ s) Hc); [by destruct s|].
  unfold convert. rewrite Hrun, sb_push_all. by destruct s.
Qed.

(** C29: A response that is not chunked is sent as one message, which has the bytes of the
    serialized response, in order; enough fuel is more than the serializer has steps. *)
Theorem response_is_one_message fuel req resp s :
  connected _ s = true → chunked resp = false → rank (new_serializer resp) < fuel →
  ∃ l, concat l = serialized (new_serializer resp) ∧
    send_response handler fuel req resp s =
      Ok tt (set_batch _ [] (set_sent _ (sent _ s ++ as_message l) s)).
Proof.
  intros Hc Hchunked Hrank. destruct (serialize_pieces fuel _ Hrank) as (l & Hl & Hrun).
  exists l. split; [done|]. by apply send_plain.
Qed.

Lemma with_batcher_throw body l s st e :
  connected _ s = true →
  body (set_batch _ [] s) = Throw e (set_handler_state _ st (set_batch _ l s)) →
  with_batcher handler body s =
    Throw e (set_handler_state _ st (set_batch _ [] (set_sent _ (sent _ s ++ as_message l) s))).
Proof.
  intros Hc Hbody. unfold with_batcher, bind, modify, on_throw. rewrite Hbody.
  unfold noexcept, sb_clear, bind, get. simpl. destruct l as [|b l]; simpl.
  - by rewrite app_nil_r.
  - rewrite Hc. done.
Qed.

Lemma push_chunks buffs s :
  for_each (λ b, for_each (sb_push handler) (make_chunk b)) buffs s =
    for_each (sb_push handler) (buffs ≫= make_chunk) s.
Proof.
  revert s. induction buffs as [|b buffs IH]; intros s; [done|]. simpl. rewrite for_each_app.
  unfold bind. destruct (for_each _ (make_chunk b) s); [apply IH|done..].
Qed.

Lemma send_chunked fuel req resp l s buffs e st :
  connected _ s = true → chunked resp = true →
  (∀ body s, serialize handler true fuel (split true (new_serializer resp)) body s = for_each body l s) →
  getChunked handler req (handler_state _ s) = (buffs, e, st) →
  let sends l' := set_handler_state _ st (set_batch _ []
                    (set_sent _ (sent _ s ++ as_message (l ++ (buffs ≫= make_chunk) ++ l')) s)) in
  send_response handler fuel req resp s =
    match e with
    | None => Ok tt (sends make_chunk_last)
    | Some e => Throw e (sends [])
    end.
Proof.
  intros Hc Hchunked Hrun Hget sends. unfold send_response. rewrite Hchunked.
  assert (Hbody : ∀ s0, batch _ s0 = [] → handler_state _ s0 = handler_state _ s →
    (convertHeaderOnly handler fuel resp (sb_push handler) ;;;
     for_getChunked handler req (λ buff, for_each (sb_push handler) (make_chunk buff)) ;;;
     for_each (sb_push handler) make_chunk_last) s0 =
    match e with
    | None => Ok tt (set_handler_state _ st (set_batch _ (l ++ (buffs ≫= make_chunk) ++ make_chunk_last) s0))
    | Some e => Throw e (set_handler_state _ st (set_batch _ (l ++ (buffs ≫= make_chunk) ++ []) s0))
    end).
  { intros s0 Hb0 Hs0. unfold convertHeaderOnly, bind at 1. rewrite Hrun, sb_push_all, Hb0.
    unfold for_getChunked, bind, get, modify. simpl. rewrite Hs0, Hget. rewrite push_chunks, sb_push_all.
    destruct e as [e|]; simpl; [|rewrite sb_push_all; simpl]; by rewrite ?app_nil_r, <- ?app_assoc. }
  destruct e as [e|]; [apply with_batcher_throw|apply with_batcher_run]; try done; by rewrite Hbody.
Qed.

(** C30: A chunked response is sent as one message: the header, every buffer that the
    handler yields as a chunk, and the last chunk. If the handler throws, what it had
    yielded is sent, without a last chunk, and the exception ends the session. *)
Theorem chunked_response_is_one_message fuel req resp s buffs e st :
  connected _ s = true → chunked resp = true →
  rank (split true (new_serializer resp)) < fuel →
  getChunked handler req (handler_state _ s) = (buffs, e, st) →
  ∃ l, concat l = header (split true (new_serializer resp)) ∧
    let sends l' := set_handler_state _ st (set_batch _ []
                      (set_sent _ (sent _ s ++ as_message (l ++ (buffs ≫= make_chunk) ++ l')) s)) in
    send_response handler fuel req resp s =
      match e with
      | None => Ok tt (sends make_chunk_last)
      | Some e => Throw e (sends [])
      end.
Proof.
  intros Hc Hchunked Hrank Hget. destruct (split_new resp) as [Hsplit Hheader].
  destruct (serialize_header fuel _ Hrank Hsplit Hheader) as (l & Hl & Hrun).
  exists l. split; [done|]. by apply send_chunked.
Qed.

(** ** The session *)

Definition stays_open s s' : Prop := keep_alive _ s = true → keep_alive _ s' = true.
#[local] Instance stays_open_preorder : PreOrder stays_open.
Proof. split; unfold stays_open; [by intros s ?|]. auto. Qed.

Lemma open_modify f : (∀ s, keep_alive _ s = true → keep_alive _ (f s) = true) → within stays_open (modify f).
Proof. intros Hf. by apply within_modify. Qed.
Hint Extern 1 (within stays_open (modify _)) => by apply open_modify : within.

Lemma open_for_each {A} (f : A → M Sess unit) l :
  (∀ x, within stays_open (f x)) → within stays_open (for_each f l).
Proof. intros Hf. apply within_for_each; [apply _|]. intros x _. apply Hf. Qed.
Hint Resolve open_for_each : within.

Lemma open_serialize b fuel ser body :
  (∀ x, within stays_open (body x)) → within stays_open (serialize handler b fuel ser body).
Proof.
  intros Hbody. revert ser. induction fuel as [|fuel IH]; intros ser; simpl; [within_solve|].
  destruct (serializer_is_done ser); [within_solve|]. destruct (next ser) as [[ec seq] ser1].
  unfold visit, checkOrThrow, ESLANGEXCEPT.
  apply within_bind; [apply _|destruct ec; within_solve|]. intros [buffs last].
  apply within_bind; [apply _|by apply open_for_each|]. intros _. case_match; [within_solve|apply IH].
Qed.

Lemma open_with_batcher body : within stays_open body → within stays_open (with_batcher handler body).
Proof.
  intros Hbody.
  assert (Hclear : within stays_open (sb_clear handler)).
  { unfold sb_clear, ESLANGEXCEPT. within_solve. }
  unfold with_batcher. apply within_bind; [apply _|by apply open_modify|]. intros _.
  apply within_bind; [apply _|by apply within_on_throw; [apply _..| |apply within_noexcept]|]. intros _.
  by apply within_noexcept.
Qed.

Lemma open_answer fuel req : within stays_open (answer handler fuel req).
Proof.
  assert (Hpush : ∀ b, within stays_open (sb_push handler b)) by (intros b; by apply open_modify).
  unfold answer, call_getResponse, send_response, convert, convertHeaderOnly.
  apply within_bind; [apply _| |intros _].
  { apply open_modify. intros s Hs. simpl. by rewrite Hs. }
  apply within_bind; [apply _| |intros resp].
  { within_solve. }
  apply open_with_batcher. destruct (chunked _); [|by apply open_serialize].
  apply within_bind; [apply _|by apply open_serialize|intros _].
  apply within_bind; [apply _| |intros _; by apply open_for_each].
  unfold for_getChunked. within_solve; auto.
Qed.

Lemma open_push fuel data body :
  (∀ req, within stays_open (body req)) → within stays_open (push handler fuel data body).
Proof.
  intros Hbody. induction fuel as [|fuel IH]; simpl; [within_solve|].
  apply within_bind; [apply _|by apply open_modify|intros _].
  apply within_bind; [apply _|apply within_get, _|intros s]. destruct (put _ _) as [[read ec] p].
  apply within_bind; [apply _|by apply open_modify|intros _].
  apply within_bind; [apply _|by apply open_modify|intros _].
  destruct ec; [|within_solve|unfold checkOrThrow, ESLANGEXCEPT; within_solve].
  apply within_bind; [apply _| |intros _; within_solve].
  destruct (parser_is_done p); [|within_solve].
  apply within_bind; [apply _|apply Hbody|intros _; by apply open_modify].
Qed.

(** C40: The loop of a session never ends, whatever the requests say of keeping the
    connection: [keep_alive] starts true and is only ever or-ed with. *)
Theorem session_never_closes fuel received s :
  keep_alive _ s = true →
  run handler fuel received s =
    for_each (λ data, push handler fuel data (answer handler fuel)) received s ∧
  ∀ s', run handler fuel received s = Ok tt s' → keep_alive _ s' = true.
Proof.
  revert s. induction received as [|data rest IH]; intros s Hs; simpl; unfold bind, gets; rewrite Hs.
  - split; [done|]. by intros s' [= <-].
  - pose proof (open_push fuel data (answer handler fuel) (open_answer fuel) s) as Hopen.
    destruct (push handler fuel data (answer handler fuel) s) as [[] s1|e s1|x]; [|done..].
    apply IH. by apply (Hopen s1).
Qed.
End facts.
