(* ===== verification/WwwExample.v ===== *)
(** * The example web server

    [ExampleWwwHandler] of [examples/www.cpp] as a handler of the sessions of [Www.v], and
    what a request to it is answered with. Its state is the random number generator and
    the naps it has taken; the generator, the arithmetic of [double] and the setters of
    boost::beast messages are parameters. *)

From Stdlib Require Import Strings.String Strings.Byte.
From stdpp Require Import pretty.
From S2P Require Import Prelude.
From S2P Require Import BaseTypes.
From S2P Require Import Waiting.
From S2P Require Import Www.

(** The members of [http::message] the handler uses. *)
Class Messages `{Beast} := {
  target : request → string;
  new_response : response;
  set_content_type : string → response → response;
  set_result : N → response → response;
  set_body : string → response → response;
  set_chunked : bool → response → response;
  prepare_payload : response → response;
}.

(** [std::mt19937], the numbers [std::uniform_real_distribution] draws with it, and what
    the handler does with those: print them, and multiply them into milliseconds. *)
Class Random := {
  mt19937 : Type;
  double : Type;
  dist : mt19937 → double * mt19937;
  print : double → string;
  times_1000 : double → milliseconds;
}.

Definition not_found : N := 404.
Definition ok : N := 200.

Definition to_bytes (s : string) : bytes := list_byte_of_string s.

(** [s.find(sub) != npos]. *)
Definition contains (sub s : string) : bool :=
  match String.index 0 sub s with Some _ => true | None => false end.

Section example.
Context `{MS : Messages} `{RN : Random}.

Record ExampleState := mkExampleState { gen : mt19937; naps : list milliseconds }.

Definition quote : string := String (Ascii.ascii_of_nat 34) EmptyString.

Definition html (target : string) (sleep : double) : string :=
  concatString ["<html><head><title>ESLANG</title></head>";
    "<body>Powered by <a href="; quote; "https://github.com/dylanza/eslang"; quote; ">Eslang</a><br>";
    "Hello, world! from "; target; " slept "; print sleep; "</body></html>"].

Definition is_favicon (req : request) : bool := contains "favicon" (target req).
Definition wants_chunks (req : request) : bool := contains "chunk" (target req).

Definition ExampleWwwHandler_getResponse (req : request) (st : ExampleState) :
    (response + exn) * ExampleState :=
  let resp := set_content_type "text/html" new_response in
  if is_favicon req then
    (inl (prepare_payload (set_body "404 not found" (set_result not_found resp))), st)
  else
    let (sleep, gen') := dist (gen st) in
    let st' := mkExampleState gen' (naps st ++ [times_1000 sleep]) in
    let r := set_body (html (target req) sleep) (set_result ok resp) in
    (inl (if wants_chunks req then set_chunked true r else prepare_payload r), st').

(** The body of the loop: the nap, and the buffer it yields. *)
Definition chunk_text (i : nat) : string := concatString ["hello "; pretty i; String (Ascii.ascii_of_nat 10) EmptyString].

Definition ExampleWwwHandler_getChunked (req : request) (st : ExampleState) :
    list bytes * option exn * ExampleState :=
  (to_bytes ∘ chunk_text <$> seq 0 10, None, mkExampleState (gen st) (naps st ++ replicate 10 10%Z)).

Definition ExampleWwwHandler : IHandler :=
  mkIHandler _ ExampleState ExampleWwwHandler_getResponse ExampleWwwHandler_getChunked.

(** ** What a request is answered with *)

(** The chunked encoding of a message: [set_chunked] decides it, [prepare_payload] turns it
    off for a body of known size, and the other members that [run] sets leave it alone. *)
Class MessagesLaws := {
  chunked_set b r : chunked (set_chunked b r) = b;
  chunked_prepared r : chunked (prepare_payload r) = false;
  chunked_version n r : chunked (set_version n r) = chunked r;
  chunked_server s r : chunked (set_server s r) = chunked r;
  chunked_keep_alive b r : chunked (set_keep_alive b r) = chunked r;
}.

(** The response, as the session sends it. *)
Definition example_response (req : request) (st : ExampleState) : response :=
  let resp := set_content_type "text/html" new_response in
  finish_response req
    (if is_favicon req then prepare_payload (set_body "404 not found" (set_result not_found resp))
     else
       let r := set_body (html (target req) (dist (gen st)).1) (set_result ok resp) in
       if wants_chunks req then set_chunked true r else prepare_payload r).

(** The response is chunked. *)
Definition in_chunks (req : request) : bool := negb (is_favicon req) && wants_chunks req.

Definition hello : list bytes := to_bytes ∘ chunk_text <$> seq 0 10.

Definition nap_times (req : request) (st : ExampleState) : list milliseconds :=
  if is_favicon req then []
  else times_1000 (dist (gen st)).1 :: (if wants_chunks req then replicate 10 10%Z else []).

Section laws.
Context `{BL : !BeastLaws} `{ML : !MessagesLaws}.
Local Abbreviation Sess := (Session ExampleWwwHandler).

Lemma chunked_finish req resp : chunked (finish_response req resp) = chunked resp.
Proof. unfold finish_response. by rewrite chunked_keep_alive, chunked_server, chunked_version. Qed.

Lemma chunked_example req st : chunked (example_response req st) = in_chunks req.
Proof.
  unfold example_response, in_chunks. rewrite chunked_finish.
  destruct (is_favicon req); simpl; [apply chunked_prepared|].
  destruct (wants_chunks req); [apply chunked_set|apply chunked_prepared].
Qed.

(** The bytes of the answer. *)
Definition answer_bytes (req : request) (st : ExampleState) : bytes :=
  let ser := new_serializer (example_response req st) in
  if in_chunks req
  then header (split true ser) ++ concat (hello ≫= make_chunk) ++ concat make_chunk_last
  else serialized ser.

Definition steps (req : request) (st : ExampleState) : nat :=
  let ser := new_serializer (example_response req st) in
  if in_chunks req then rank (split true ser) else rank ser.

(** The handler's state once it has made its response. *)
Definition after_response (req : request) (st : ExampleState) : ExampleState :=
  if is_favicon req then st
  else mkExampleState (dist (gen st)).2 (naps st ++ [times_1000 (dist (gen st)).1]).

Lemma answer_run fuel req (s : Sess) :
  answer ExampleWwwHandler fuel req s =
    send_response ExampleWwwHandler fuel req (example_response req (handler_state _ s))
      (set_handler_state ExampleWwwHandler (after_response req (handler_state _ s))
         (set_session_keep_alive _ (keep_alive _ s || request_keep_alive req) s)).
Proof.
  unfold answer, call_getResponse, bind, modify, get. simpl.
  unfold ExampleWwwHandler_getResponse, example_response, after_response.
  destruct (is_favicon req); simpl; [done|]. destruct (dist _) as [sleep gen']. simpl. done.
Qed.

End laws.
End example.
