(* ===== verification/WwwWitnesses.v ===== *)
(** * The session theorems on a concrete protocol

    A protocol that meets [BeastLaws]: a request is a line, a response is serialized as a
    header and a body, and a chunk is marked by a byte. The theorems of [Www] are applied
    to it. *)

From Stdlib Require Import Strings.Byte Strings.String.
From S2P Require Import Prelude.
From S2P Require Import BaseTypes.
From S2P Require Import Www.
From S2P Require Import WwwExample.

Record line_parser := mkLineParser { line : bytes; complete : bool }.
Record line_response := mkLineResponse { text : bytes; in_chunks : bool }.
Record pieces_serializer := mkPieces { pieces : list bytes; before_header : bool; splits : bool }.

Definition newline : byte := x0a.

(** The part of the data up to the end of the line, if it ends. *)
Fixpoint take_line (data : bytes) : bytes * bool :=
  match data with
  | [] => ([], false)
  | b :: rest =>
      if Byte.eqb b newline then ([b], true)
      else let (l, e) := take_line rest in (b :: l, e)
  end.

Definition put_line (data : bytes) (p : line_parser) : nat * parse_code * line_parser :=
  let (l, e) := take_line data in
  (length l, if e then parse_ok else need_more, mkLineParser (line p ++ l) e).

Definition head_line (r : line_response) : bytes := if in_chunks r then [x63; newline] else [x6c; newline].

#[local] Instance line_beast : Beast := {|
  request := bytes;
  response := line_response;
  request_parser := line_parser;
  new_parser := mkLineParser [] false;
  put := put_line;
  parser_is_done := complete;
  release := line;
  multi_buffer := nat;
  new_multi_buffer := 0;
  prepare _ b := b;
  buffer_consume n b := b - n;
  buffer_size b := b;
  response_serializer := pieces_serializer;
  new_serializer r := mkPieces [head_line r; text r] true false;
  split b s := mkPieces (pieces s) (before_header s) b;
  serializer_is_done s := bool_decide (pieces s = []);
  is_header_done s := negb (before_header s);
  next s := (None, take 1 (pieces s), s);
  serializer_consume _ s := mkPieces (tail (pieces s)) false (splits s);
  request_keep_alive _ := false;
  request_version _ := 11%N;
  set_version _ r := r;
  set_server _ r := r;
  set_keep_alive _ r := r;
  chunked := in_chunks;
  make_chunk b := [[x23]; b];
  make_chunk_last := [[x23; newline]];
|}.

Definition left_of_header (s : pieces_serializer) : bytes :=
  if before_header s then concat (take 1 (pieces s)) else [].
Definition split_well (s : pieces_serializer) : bool :=
  splits s && negb (before_header s && bool_decide (pieces s = [])).

Lemma not_done_cons s : serializer_is_done s = false → ∃ b l, pieces s = b :: l.
Proof. simpl. intros Hs%bool_decide_eq_false. destruct (pieces s) as [|b l]; [done|]. by exists b, l. Qed.

#[local] Program Instance line_laws : BeastLaws := {|
  serialized s := concat (pieces s);
  header := left_of_header;
  rank s := length (pieces s);
  is_split := split_well;
|}.
Next Obligation. done. Qed.
Next Obligation. done. Qed.
Next Obligation. intros n b. simpl. lia. Qed.
Next Obligation. done. Qed.
Next Obligation. intros s (b & l & Hs)%not_done_cons. simpl. rewrite Hs. simpl. lia. Qed.
Next Obligation. simpl. by intros s ->%bool_decide_eq_true. Qed.
Next Obligation.
  intros s (b & l & Hs)%not_done_cons. simpl. rewrite Hs. simpl. by rewrite app_nil_r.
Qed.
Next Obligation. done. Qed.
Next Obligation.
  unfold split_well. simpl. intros s Hs Hb%negb_false_iff. rewrite Hb in Hs. simpl in Hs.
  destruct (splits s); [|done]. by apply negb_true_iff in Hs.
Qed.
Next Obligation.
  unfold split_well, left_of_header. simpl. intros s Hs Hb%negb_false_iff. rewrite Hb in *. simpl in *.
  destruct (splits s); [|done]. split; [done|]. by rewrite app_nil_r.
Qed.
Next Obligation.
  unfold left_of_header. simpl. intros s _ Hb%negb_true_iff. by rewrite Hb.
Qed.

(** ** Witnesses *)

(** Echoes its requests, counting them; its second chunk throws. *)
Definition echo_handler : IHandler :=
  mkIHandler _ nat (λ req n, (inl (mkLineResponse req false), Datatypes.S n))
    (λ req n, ([req], Some (std_exception "no more"), n)).

Definition line_a : bytes := [x61; newline].
Definition line_b : bytes := [x62; newline].
Definition fresh : Session echo_handler := new_session echo_handler 0.
Definition record_request (req : request) : list bytes := [req].
Definition recorder (req : request) : M (Session echo_handler) unit :=
  modify (λ s, set_sent _ (sent _ s ++ [record_request req]) s).

Lemma push_parses_once_witness :
  ∃ b, buffer_size b = 0 ∧ push _ 1 line_a recorder fresh = pushed _ line_a recorder b fresh.
Proof. apply (push_parses_once echo_handler 0 line_a recorder fresh); [reflexivity|]. by intros req s. Defined.

Lemma pipelined_requests_are_lost_witness :
  ∃ s', push _ 1 (line_a ++ line_b) recorder fresh = Ok tt s' ∧
    sent _ s' = [[line_a]] ∧ parser_ _ s' = new_parser ∧ buffer_size (currentRead_ _ s') = 0.
Proof.
  by apply (pipelined_requests_are_lost echo_handler 0 line_a line_b (mkLineParser line_a true)
           record_request fresh).
Defined.

Lemma response_is_one_message_witness :
  ∃ l, concat l = [x6c; newline; x61; newline] ∧
    send_response echo_handler 3 line_a (mkLineResponse line_a false) fresh =
      Ok tt (set_batch _ [] (set_sent _ ([] ++ as_message l) fresh)).
Proof.
  apply (response_is_one_message (BL:=line_laws) echo_handler 3 line_a (mkLineResponse line_a false) fresh);
    [reflexivity..|simpl; lia].
Defined.

Lemma chunked_response_is_one_message_witness :
  ∃ l, concat l = [x63; newline] ∧
    let sends (l' : list bytes) := set_handler_state echo_handler 0 (set_batch _ []
                      (set_sent _ ([] ++ as_message (l ++ ([line_a] ≫= make_chunk) ++ l')) fresh)) in
    send_response echo_handler 3 line_a (mkLineResponse line_a true) fresh =
      Throw (std_exception "no more") (sends []).
Proof.
  apply (chunked_response_is_one_message (BL:=line_laws) echo_handler 3 line_a (mkLineResponse line_a true) fresh
           [line_a] (Some (std_exception "no more")) 0); [reflexivity..|simpl; lia|reflexivity].
Defined.

Lemma session_never_closes_witness :
  run echo_handler 3 [line_a; line_b] fresh =
    for_each (λ data, push echo_handler 3 data (answer echo_handler 3)) [line_a; line_b] fresh ∧
  ∀ s', run echo_handler 3 [line_a; line_b] fresh = Ok tt s' → keep_alive _ s' = true.
Proof. apply (session_never_closes echo_handler 3 [line_a; line_b] fresh). reflexivity. Defined.

(** Both lines are answered, though neither request keeps the connection. *)
Example two_answers :
  match run echo_handler 3 [line_a; line_b] fresh with
  | Ok _ s => sent _ s = [[head_line (mkLineResponse [] false); line_a]; [head_line (mkLineResponse [] false); line_b]]
  | _ => False
  end.
Proof. reflexivity. Qed.

(** *** The example server, with a generator that counts *)

#[local] Instance line_messages : Messages := {|
  target := string_of_list_byte;
  new_response := mkLineResponse [] false;
  set_content_type _ r := r;
  set_result _ r := r;
  set_body s r := mkLineResponse (list_byte_of_string s) (in_chunks r);
  set_chunked b r := mkLineResponse (text r) b;
  prepare_payload r := mkLineResponse (text r) false;
|}.

#[local] Instance line_messages_laws : MessagesLaws.
Proof. by split. Defined.

#[local] Instance counting : Random := {|
  mt19937 := nat;
  double := nat;
  dist n := (n, Datatypes.S n);
  print := pretty;
  times_1000 n := Z.of_nat (1000 * n);
|}.

Definition page_session : Session ExampleWwwHandler := new_session ExampleWwwHandler (mkExampleState 7 []).
Definition chunks_please : request := list_byte_of_string "/chunk".

