(* ===== verification/Servers.v ===== *)
(** * Network servers as processes

    The echo server of [examples/tcp.cpp], [Www::Server] of [eslang_www/Www.cpp] and
    the [ListenerProcess] of [eslang_io/Tcp.cpp], with the functions of [Tcp] they
    call, as bodies of coroutines: one application in which they run beside each other.
    The bodies of the connections and of the HTTP sessions have models of their own
    ([Socket.v], [Www.v]) and are parameters here. *)

From ITree Require Core.ITreeDefinition Indexed.Sum.
From S2P Require Import Prelude.
From S2P Require Import Socket.
From S2P Require Import BaseTypes.
From S2P Require Import Future.
From S2P Require Import Slot.
From S2P Require Import Waiting.
From S2P Require Import IoService.
From S2P Require Import Process.
From S2P Require Import Context.
From S2P Require Import Lifecycle.
From S2P Require Import Scheduler.
From S2P Require Import Coroutine.
From S2P Require Import Buffers.
From S2P Require Import TcpApi.

(** ** The application *)

Inductive message :=
  | MPid (p : Pid)
  | MSocket (s : TcpApi.Socket)
  | MReceive (d : ReceiveData)
  | MData (b : Buffer)
  | MBuffers (bs : BufferCollection)
  | MAddress (a : SendAddress).

Inductive classes :=
  | SocketBase            (** [SocketProcess] *)
  | SslSocket             (** [TSocketProcess<SslSocketTraits>] *)
  | PlainSocket
  | Listening             (** [ListenerProcess] *)
  | TcpEchoRunner
  | TcpEchoServer
  | SessionRunner
  | Server.

#[export] Instance classes_eq_dec : EqDecision classes.
Proof. solve_decision. Defined.

Inductive arguments :=
  | FromSocket (s : TcpApi.Socket)                              (** [TcpEchoRunner], [SessionRunner] *)
  | WithOptions (o : ListenerOptions)                           (** [TcpEchoServer], [Server] *)
  | ForAddress (new_socket : SendAddress) (o : ListenerOptions) (** listeners and sockets *).

Definition derives (c d : classes) : bool :=
  match c, d with
  | (SslSocket | PlainSocket), SocketBase => true
  | _, _ => bool_decide (c = d)
  end.

(** Members are initialised before the body of a constructor links. *)
Definition constructor (c : classes) (a : arguments) : list CtorOp :=
  match c, a with
  | (SocketBase | SslSocket | PlainSocket), _ => [CtorSlot; CtorSlot; CtorSlot; CtorPromise]
  | Listening, _ => [CtorPromise]
  | (TcpEchoRunner | SessionRunner), FromSocket s => [CtorSlot; CtorLink (socket_pid s)]
  | TcpEchoServer, _ => [CtorSlot]
  | _, _ => []
  end.

#[export] Instance network : Program := {|
  payload := message;
  of_pid := MPid;
  cls := classes;
  is_a := derives;
  arg := arguments;
  ctor := constructor;
|}.

#[export] Instance network_tcp : TcpProgram := {|
  SocketProcess := SocketBase;
  SslSocketProcess := SslSocket;
  PlainSocketProcess := PlainSocket;
  ListenerProcess := Listening;
  of_buffer := MData;
  of_buffers := MBuffers;
  of_address := MAddress;
  listener_args := ForAddress;
  socket_args := ForAddress;
|}.

(** The only coroutine besides [run]: [Process::sendThrottled]. *)
Inductive network_methods := SendThrottled (p : SendAddress) (m : message).

#[export] Instance network_coroutines : Methods := {|
  value := unit;
  void := tt;
  method := network_methods;
  is_generator _ := false;
|}.

(** ** Functions of [Tcp], called from a coroutine *)

Definition co_initRecvSocket (socket : TcpApi.Socket) (new_socket_address : SendAddress) :
    itree ProcessE unit :=
  do! a := call (OpMakeSendAddress (socket_pid socket) SocketBase init) in
  call (OpSend a (MAddress new_socket_address)) ;;!
  co_return tt.

(** [co_await Tcp::sendThrottled(...)]: the address is made before the coroutine of
    [Process::sendThrottled] is called. *)
Definition co_sendThrottled (socket : TcpApi.Socket) (data : Buffer) : itree ProcessE unit :=
  do! a := call (OpMakeSendAddress (socket_pid socket) SocketBase send_data) in
  co_call (SendThrottled a (MData data)).

Definition co_sendManyThrottled (socket : TcpApi.Socket) (buffs : BufferCollection) :
    itree ProcessE unit :=
  do! a := call (OpMakeSendAddress (socket_pid socket) SocketBase send_many_data) in
  co_call (SendThrottled a (MBuffers buffs)).

(** ** Bodies *)

(** [while (true)]. *)
Definition forever (body : itree ProcessE unit) : itree ProcessE unit :=
  ITreeDefinition.ITree.iter (λ _ : unit, body ;;! co_return (inl tt)) tt.

(** Slots are typed: a slot for [T] holds no other message. *)
Definition echo (s_ : TcpApi.Socket) (r : message) : itree ProcessE unit :=
  match r with
  | MReceive d => co_sendThrottled s_ (data d)
  | _ => co_return tt
  end.

Definition TcpEchoRunner_run (s_ : TcpApi.Socket) : itree ProcessE unit :=
  do! a := call (OpSlotAddress 0) in
  co_initRecvSocket s_ a ;;!
  forever
    (do! recv := call (OpSlotAddress 0) in
     do! r := co_recv recv in
     echo s_ r).

Definition serve (runner : classes) (new_sock : message) : itree ProcessE unit :=
  match new_sock with
  | MSocket s => call (OpSpawn runner (FromSocket s)) ;;! co_return tt
  | _ => co_return tt
  end.

Definition TcpEchoServer_run (options_ : ListenerOptions) : itree ProcessE unit :=
  do! a := call (OpSlotAddress 0) in
  call (OpSpawnLink Listening (ForAddress a options_)) ;;!
  forever
    (do! new_socket := call (OpSlotAddress 0) in
     do! new_sock := co_recv new_socket in
     serve TcpEchoRunner new_sock).

(** [Www::Server::run]; the slot is a local. *)
Definition Server_run (options_ : ListenerOptions) : itree ProcessE unit :=
  do! new_socket := call OpCreateSlot in
  call (OpSpawnLink Listening (ForAddress new_socket options_)) ;;!
  forever
    (do! new_sock := co_recv new_socket in
     serve SessionRunner new_sock).

(** [ListenerProcess::run], once the acceptor is open: accepting goes on in the
    handlers of [TcpApi.on_accept]. *)
Definition ListenerProcess_run : itree ProcessE unit :=
  do! error_ := call (OpMemberPromise 0) in
  co_await (WaitOnFuture error_) ;;!
  co_return tt.

Section bodies.
Context (socket_run : classes → arguments → Process → itree ProcessE unit).
Context (session_run : TcpApi.Socket → itree ProcessE unit).

Definition run_of (c : classes) (a : arguments) (self : Process) : itree ProcessE unit :=
  match c, a with
  | (SocketBase | SslSocket | PlainSocket), _ => socket_run c a self
  | Listening, _ => ListenerProcess_run
  | TcpEchoRunner, FromSocket s => TcpEchoRunner_run s
  | SessionRunner, FromSocket s => session_run s
  | TcpEchoServer, WithOptions o => TcpEchoServer_run o
  | Server, WithOptions o => Server_run o
  | _, _ => co_return tt
  end.

Definition network_bodies : ProcessBodies := {|
  run_ := run_of;
  method_body m := match m with SendThrottled p m => sendThrottled p m ;;! co_return tt end;
|}.
End bodies.
