(* ===== verification/Echo.v ===== *)
(** * The echo server echoes

    What a [TcpEchoRunner] does on the runtime: its first turn, and every delivery of data
    from its connection after that, from the scheduler through its coroutine and
    [sendThrottled] to the queue of the context, until it waits again. *)

From ITree Require Core.ITreeDefinition Indexed.Sum.
From S2P Require Import Prelude.
From S2P Require Import Socket.
From S2P Require Import BaseTypes.
From S2P Require Import Future.
From S2P Require Import Slot.
From S2P Require Import Waiting.
From S2P Require Import IoService.
From S2P Require Import Process.
From S2P Require Import Context.
From S2P Require Import HeapFacts.
From S2P Require Import Lifecycle.
From S2P Require Import ContextFacts.
From S2P Require Import LifecycleFacts.
From S2P Require Import Destruction.
From S2P Require Import Scheduler.
From S2P Require Import Steps.
From S2P Require Import Safety.
From S2P Require Import Delivery.
From S2P Require Import Operations.
From S2P Require Import Coroutine.
From S2P Require Import CoroutineFacts.
From S2P Require Import Backpressure.
From S2P Require Import Buffers.
From S2P Require Import TcpApi.
From S2P Require Import Servers.

Section echo.
Context `{IO : IoService Handler}.
Context (socket_run : classes → arguments → Process → itree ProcessE unit).
Context (session_run : TcpApi.Socket → itree ProcessE unit).
#[local] Instance echo_bodies : ProcessBodies := network_bodies socket_run session_run.
Local Abbreviation Ctx := (Context ProcessTask).
Implicit Types (c : Ctx) (t : ProcessTask) (s : TcpApi.Socket) (a : SendAddress).

#[local] Arguments payload : simpl never.

(** ** The connection the runner talks to *)

(** The process of [s] is live, and its member slot [k] is at [a]. *)
Definition connected (k : nat) c s a : Prop := ∃ rs rp obj sl,
  processes_ c !! N.to_nat (idx_ (socket_pid s)) = Some (Some rs) ∧
  rps c !! rs = Some rp ∧ version_ (pid rp) = version_ (socket_pid s) ∧
  objs c !! process_ptr rp = Some obj ∧ derives (dynamic_class obj) SocketBase = true ∧
  slot_member obj k = Some (sa_slot a) ∧ slots c !! sa_slot a = Some sl ∧
  a = mkSendAddress (socket_pid s) (id_ sl).

(** The slot for its data, besides, has room. *)
Definition connection c s a : Prop :=
  connected send_data c s a ∧ ∃ sl, slots c !! sa_slot a = Some sl ∧ size (messages_ sl) < kThrottle.

(** Processes may have run, but they are the same. *)
Definition same_processes c c' : Prop := ∀ r rp,
  rps c !! r = Some rp → ∃ rp', rps c' !! r = Some rp' ∧ same_identity rp rp'.

Lemma same_processes_eq c c' : rps c' = rps c → same_processes c c'.
Proof. intros Heq r rp Hr. exists rp. rewrite Heq. by split_and!. Qed.

Lemma same_processes_insert c r rp rp' :
  rps c !! r = Some rp → same_identity rp rp' →
  same_processes c (set_rps (<[r := rp']> (rps c)) c).
Proof.
  intros Hr Hid r' rp0 Hr'. destruct (decide (r = r')) as [<-|].
  - exists rp'. simpl. rewrite lookup_insert_eq. by simplify_eq.
  - exists rp0. simpl. rewrite lookup_insert_ne by done. by split_and!.
Qed.

Lemma lookup_proc_same c c' p r :
  processes_ c' = processes_ c → same_processes c c' → lookup_proc c p = Some r → lookup_proc c' p = Some r.
Proof.
  unfold lookup_proc. intros -> Hsame. destruct (_ !! _) as [[r'|]|]; [|done..].
  destruct (rps c !! r') as [rp|] eqn:Hr; [|done].
  destruct (Hsame _ _ Hr) as (rp' & -> & _ & -> & _). done.
Qed.

Lemma connected_ext k c c' s a :
  connected k c s a →
  processes_ c' = processes_ c → objs c' = objs c → slots c' !! sa_slot a = slots c !! sa_slot a →
  same_processes c c' →
  connected k c' s a.
Proof.
  intros (rs & rp & obj & sl & Hp & Hr & Hv & Ho & Hd & Hm & Hs & Ha) Hps Hobjs Hslots Hrps.
  destruct (Hrps _ _ Hr) as (rp' & Hr' & _ & Hpid & Hobj). exists rs, rp', obj, sl.
  rewrite Hps, Hobjs, Hslots, Hpid, Hobj. by split_and!.
Qed.

Lemma connection_ext c c' s a :
  connection c s a →
  processes_ c' = processes_ c → objs c' = objs c → slots c' !! sa_slot a = slots c !! sa_slot a →
  same_processes c c' →
  connection c' s a.
Proof. intros [H Hsize] ?? Hslots ?. split; [by eapply connected_ext|by rewrite Hslots]. Qed.

Lemma connected_address k c s a :
  connected k c s a → makeSendAddress (socket_pid s) SocketBase k c = Ok a c.
Proof.
  intros (rs & rp & obj & sl & Hp & Hr & Hv & Ho & Hd & Hm & Hs & Ha).
  unfold makeSendAddress. rewrite (bind_run _ _ _ _ _ (proj1 (findProc_live _ _ _ _ Hp Hr Hv))).
  rewrite (bind_run _ _ _ _ _ (load_rp_run _ _ _ Hr)), (bind_run _ _ _ _ _ (load_obj_run _ _ _ Ho)).
  simpl. rewrite Hd. simpl. unfold slot_member in Hm.
  destruct (members obj !! k) as [[m|]|]; try done. injection Hm as ->.
  rewrite (bind_run _ _ _ _ _ (load_slot_run _ _ _ Hs)). unfold ret. f_equal. by symmetry.
Qed.

Lemma connection_accepts c s a : connection c s a → canQueue a c = Ok None c.
Proof.
  intros [(rs & rp & obj & sl & Hp & Hr & Hv & Ho & Hd & Hm & Hs & Ha) (sl' & Hs' & Hsize)].
  assert (Hpid : sa_pid a = socket_pid s) by by rewrite Ha.
  unfold canQueue. rewrite Hpid.
  rewrite (bind_run _ _ _ _ _ (proj2 (findProc_live _ _ _ _ Hp Hr Hv))).
  rewrite (bind_run _ _ _ _ _ (load_slot_run _ _ _ Hs')).
  unfold shouldThrottle. by rewrite bool_decide_eq_false_2 by lia.
Qed.

(** ** Processes that ran *)

Lemma with_task_processes r t c : same_processes c (with_task r t c).
Proof.
  intros r' rp Hr. unfold with_task. simpl. destruct (decide (r = r')) as [<-|].
  - rewrite lookup_alter_eq, Hr. by eexists.
  - rewrite lookup_alter_ne, Hr by done. by eexists.
Qed.

Lemma connection_with_task c s a r t : connection c s a → connection (with_task r t c) s a.
Proof. intros H. eapply connection_ext; [exact H|done..|]. apply with_task_processes. Qed.

(** ** One message *)

Definition sent_item (a : SendAddress) (m : message) : ToProcessItem payload :=
  mkItem (sa_pid a) None (Some (a, mkMessage m)).

(** [Process::sendThrottled] to a slot with room, while the queue of the context is
    short: it sends and returns at once. *)
Lemma run_SendThrottled fuel r this h m t c s a :
  connection c s a → length (queue_ c) ≤ 10 →
  task_at r c = Some t → coroutines t !! h = Some started →
  run_body (4 + fuel) r this h (method_body (SendThrottled a m)) c =
    Ok tt (with_task r (put h (returned void) t) (set_queue (queue_ c ++ [sent_item a m]) c)).
Proof.
  intros Hconn Hq Ht Hh. cbn [Nat.add].
  assert (Hw : exec_op this OpWaitOnQueue c = Ok false c).
  { change (Ok (bool_decide (10 < length (queue_ c))) c = Ok false c).
    by rewrite bool_decide_eq_false_2 by lia. }
  assert (Hc : exec_op this (OpCanQueue a) c = Ok None c) by by eapply connection_accepts.
  assert (Hs : exec_op this (OpQueueSend a m) c = Ok tt (set_queue (queue_ c ++ [sent_item a m]) c))
    by done.
  run_statement Hw. run_statement Hc. run_statement Hs.
  rewrite (run_body_observe _ _ _ _ _ (co_return void)) by reflexivity.
  by apply runs_return.
Qed.

(** The call of a new coroutine for it. *)
Lemma call_SendThrottled fuel r this m next c s a :
  connection c s a → length (queue_ c) ≤ 10 → (1 < next)%positive →
  task_at r c = Some (alone Running next) →
  call_method (run_body (4 + fuel) r this) r (SendThrottled a m) c =
    Ok next (with_task r (put next (returned void) (alone Running (Pos.succ next)))
      (set_queue (queue_ c ++ [sent_item a m]) c)).
Proof.
  intros Hconn Hq Hnext Ht. unfold call_method. simpl is_generator. cbn iota.
  etrans; [exact (bind_runs _ _ _ _ _ _ _ (runs_new_coroutine r started _) Ht)|].
  set (t1 := mkProcessTask _ _ _ _ _).
  assert (Ht1 : task_at r (with_task r t1 c) = Some t1) by by eapply task_at_with_task.
  assert (Hs : coroutines t1 !! next = Some started) by apply lookup_insert_eq.
  unfold bind at 1, on_throw. change (next_handle (alone Running next)) with next.
  rewrite (run_SendThrottled fuel r this next m t1 _ s a
             (connection_with_task _ _ _ _ _ Hconn) Hq Ht1 Hs).
  unfold ret. f_equal.
  change (set_queue ?q (with_task r t1 c)) with (with_task r t1 (set_queue q c)).
  rewrite with_task_twice. f_equal. unfold t1, put, alone, set_coroutines. simpl.
  by rewrite insert_insert_eq.
Qed.

(** [co_await] of it by a coroutine alone in its task: what follows runs with the
    message sent, and only a handle used up. *)
Lemma run_co_send fuel r this m next c s a body rest :
  calls (SendThrottled a m) void body rest →
  connection c s a → length (queue_ c) ≤ 10 → (1 < next)%positive →
  task_at r c = Some (alone Running next) →
  run_body (5 + fuel) r this 1%positive body c =
    run_body (2 + fuel) r this 1%positive rest
      (with_task r (alone Running (Pos.succ next)) (set_queue (queue_ c ++ [sent_item a m]) c)).
Proof.
  intros (k0 & Hk0 & Hcalls) Hconn Hq Hnext Ht.
  destruct (Hcalls next) as (k1 & Hk1 & k2 & Hk2 & Hrest).
  set (c1 := set_queue (queue_ c ++ [sent_item a m]) c).
  set (t1 := put next (returned void) (alone Running (Pos.succ next))).
  assert (Ht1 : task_at r (with_task r t1 c1) = Some t1) by by eapply task_at_with_task.
  assert (Hne : next ≠ 1%positive) by lia. assert (Hne' : 1%positive ≠ next) by lia.
  change (5 + fuel) with (Datatypes.S (4 + fuel)). rewrite run_body_step. unfold run_step at 1.
  rewrite Hk0. cbn beta iota. unfold bind at 1, guarded at 1, on_throw.
  rewrite (call_SendThrottled fuel r this m next c s a Hconn Hq Hnext Ht). fold c1 t1.
  set (co := process_coroutine Running).
  assert (Hh : coroutines t1 !! 1%positive = Some co).
  { unfold t1. simpl. by rewrite lookup_insert_ne by done. }
  etrans; [exact (bind_runs _ _ _ _ _ _ _
    (runs_update_coroutine r t1 _ (λ co, set_locals (LocalTask next :: locals co) co) _ Hh) Ht1)|].
  set (t2 := put _ _ t1). rewrite with_task_twice.
  assert (Ht2 : task_at r (with_task r t2 c1) = Some t2) by by eapply task_at_with_task.
  assert (Hh' : coroutines t2 !! next = Some (returned void)).
  { unfold t2, t1. simpl. by rewrite lookup_insert_ne, lookup_insert_eq by done. }
  change (4 + fuel) with (Datatypes.S (3 + fuel)). rewrite run_body_step. unfold run_step at 1.
  rewrite Hk1. cbn beta iota.
  etrans; [exact (bind_runs _ _ _ _ _ _ _ (runs_load_coroutine r t2 _ _ Hh') Ht2)|].
  rewrite (with_task_same r t2 _ Ht2). cbn [method_await_ready at_final state returned].
  change (method_await_resume (returned void)) with void.
  change (3 + fuel) with (Datatypes.S (2 + fuel)). rewrite run_body_step. unfold run_step at 1.
  rewrite Hk2. cbn beta iota.
  etrans; [eapply bind_runs; [|exact Ht2]|].
  { eapply runs_drop_task; [exact Hne'|apply put_lookup|left|exact Hh'|done]. }
  rewrite with_task_twice, (run_body_observe _ _ _ _ _ _ Hrest). do 2 f_equal.
  unfold t2, t1, alone, set_coroutines. simpl. f_equal.
  rewrite filter_cons, decide_False by (by intros []). rewrite filter_nil.
  rewrite insert_insert_eq, insert_insert_ne, insert_singleton_eq by done.
  rewrite delete_insert_id; [done|by rewrite lookup_singleton_ne].
Qed.
(** ** Receiving *)

Lemma recv_ready this c sl sr ms :
  slots c !! sr = Some sl → id_ sl = sr → contents (messages_ sl) = ms →
  exec_op this (OpAwaitReady (recv (address sl))) c = Ok (negb (bool_decide (ms = []))) c.
Proof.
  intros Hs Hid Hms. change (any_ready [id_ sl] c = Ok (negb (bool_decide (ms = []))) c).
  rewrite (any_ready_live c [id_ sl] [ms]); [by simpl; rewrite orb_false_r|].
  constructor; [|constructor]. simpl. unfold slot_view. by rewrite Hid, Hs, <- Hms.
Qed.

(** The context once the slot [sr] holds [q], and its promise has posted. *)
Definition popped (i : io) sr q (sl : Slot unit Function payload) c : Ctx :=
  set_io i (set_slots (<[sr := with_queue q sl]> (slots c)) c).

Lemma recv_pop this c sl sr m ms :
  slots c !! sr = Some sl → id_ sl = sr → contents (messages_ sl) = m :: ms →
  ∃ q i, contents q = ms ∧ tidy q ∧
    exec_op this (OpAwaitResumeMessage (recv (address sl))) c = Ok (val m) (popped i sr q sl c).
Proof.
  intros Hs Hid Hms. destruct (slot_pop_Ok c sr sl m ms Hs Hms) as (q & i & Hq & Htidy & Hpop).
  exists q, i. split_and!; [done..|].
  assert (He : queue_empty (id_ sl) c = Ok false c).
  { rewrite (queue_empty_live c (id_ sl) (m :: ms)); [done|].
    simpl. unfold slot_view. by rewrite Hid, Hs, <- Hms. }
  change (await_resume_message (recv (address sl)) c = Ok (val m) (popped i sr q sl c)).
  unfold await_resume_message. unfold bind at 1. simpl.
  change (sa_slot (address sl)) with (id_ sl). unfold get_optional, bind at 1 2 3.
  rewrite He. unfold bind at 1. simpl. rewrite Hid, Hpop. done.
Qed.

(** Empty, as far as [push] can tell. *)
Definition drained (q : MessageQueue unit Function payload) : Prop := tidy q ∧ contents q = [].

(** ** The loop *)

Definition echo_turn s : itree ProcessE unit :=
  do! recv := call (OpSlotAddress 0) in
  do! r := co_recv recv in
  echo s r.
Definition echo_loop s : Body := forever (echo_turn s) ;;! co_return void.
(** The rest of a turn that has received [m], and the turns after it. *)
Definition after_recv s (m : message) : Body :=
  (do! lr := echo s m ;;! co_return (inl (B:=unit) tt) in
   match lr with
   | inl l =>
       ITreeDefinition.Tau (ITreeDefinition.ITree.iter (λ _ : unit, echo_turn s ;;! co_return (inl (B:=unit) tt)) l)
   | inr r => ITreeDefinition.Ret r
   end) ;;!
  co_return void.

Lemma echo_loop_starts s : ∃ k,
  observe (echo_loop s) = ITreeDefinition.VisF (Sum.inl1 (OpSlotAddress 0)) k ∧ ∀ addr,
  ∃ k', observe (k addr) = ITreeDefinition.VisF (Sum.inr1 (Sum.inl1 (CoAwaitMessage (recv addr)))) k' ∧
  ∀ m, observe (k' m) = observe (after_recv s m).
Proof.
  eexists. split; [cbn; reflexivity|]. intros addr. eexists. split; [cbn; reflexivity|]. reflexivity.
Qed.

Lemma after_recv_starts s d : ∃ k,
  observe (after_recv s (MReceive d)) =
    ITreeDefinition.VisF (Sum.inl1 (OpMakeSendAddress (socket_pid s) SocketBase send_data)) k ∧
  ∀ a, ∃ rest, calls (SendThrottled a (MData (data d))) void (k a) rest ∧
  ∃ next, observe rest = ITreeDefinition.TauF next ∧ observe next = observe (echo_loop s).
Proof.
  eexists. split; [cbn; reflexivity|]. intros a. eexists. split.
  - eexists. split; [cbn; reflexivity|]. intros h. eexists. split; [cbn; reflexivity|].
    eexists. split; [cbn; reflexivity|]. reflexivity.
  - eexists. split; [cbn; reflexivity|]. reflexivity.
Qed.

(** What one received message costs, and does. *)
Lemma run_after_recv fuel r this next c s a d :
  connection c s a → length (queue_ c) ≤ 10 → (1 < next)%positive →
  task_at r c = Some (alone Running next) →
  run_body (7 + fuel) r this 1%positive (after_recv s (MReceive d)) c =
    run_body (2 + fuel) r this 1%positive (echo_loop s)
      (with_task r (alone Running (Pos.succ next))
         (set_queue (queue_ c ++ [sent_item a (MData (data d))]) c)).
Proof.
  intros Hconn Hq Hnext Ht. destruct (after_recv_starts s d) as (k & Hk & Hrest).
  destruct (Hrest a) as (rest & Hcalls & t' & Htau & Hloop).
  etrans; [eapply run_op; [exact Hk|exact (connected_address _ _ _ _ (proj1 Hconn))|done]|].
  etrans; [by eapply (run_co_send (Datatypes.S fuel))|].
  change (2 + Datatypes.S fuel) with (Datatypes.S (2 + fuel)).
  rewrite run_body_step. unfold run_step at 1. rewrite Htau. by rewrite (run_body_observe _ _ _ _ _ _ Hloop).
Qed.

(** The runner waits for a message. *)
Definition asleep (w : IWaiting) (k : payload → Body) (next : Handle) : ProcessTask :=
  mkProcessTask _ _ (Some 1%positive)
    {[1%positive := mkCoroutine _ _ (set_waiting (Some w) (new_promise_base ProcessPromise))
                      (Suspended (AtAwaitMessage w k)) []]} next.

Lemma asleep_lookup w k next :
  coroutines (asleep w k next) !! 1%positive =
    Some (mkCoroutine _ _ (set_waiting (Some w) (new_promise_base ProcessPromise))
            (Suspended (AtAwaitMessage w k)) []).
Proof. apply lookup_singleton_eq. Qed.

Definition resumes_echo s (k : payload → Body) : Prop := ∀ m, observe (k m) = observe (after_recv s m).

(** Members of the runner in the context: its object and the slot [sr] it reads. *)
Definition reads_slot c (this : Ptr) sr (sl : Slot unit Function payload) : Prop :=
  id_ sl = sr ∧ slots c !! sr = Some sl ∧
  ∃ obj, objs c !! this = Some obj ∧ members obj !! 0 = Some (SlotMember sr).

Lemma slot_address c this sr sl :
  reads_slot c this sr sl → exec_op this (OpSlotAddress 0) c = Ok (address sl) c.
Proof.
  intros (Hid & Hs & obj & Ho & Hm). unfold exec_op.
  rewrite (bind_run _ _ _ _ _ (load_obj_run _ _ _ Ho)), Hm.
  by rewrite (bind_run _ _ _ _ _ (load_slot_run _ _ _ Hs)).
Qed.

Lemma run_waits fuel r this next c s sr sl :
  reads_slot c this sr sl → contents (messages_ sl) = [] →
  task_at r c = Some (alone Running next) →
  ∃ k, resumes_echo s k ∧
    run_body (2 + fuel) r this 1%positive (echo_loop s) c =
      Ok tt (with_task r (asleep (recv (address sl)) k next) c).
Proof.
  intros Hread Hempty Ht. destruct (echo_loop_starts s) as (k0 & Hk0 & Hrest).
  destruct (Hrest (address sl)) as (k & Hk & Hafter). exists k. split; [exact Hafter|].
  etrans; [eapply run_op; [exact Hk0|by eapply slot_address|done]|].
  change (1 + fuel) with (Datatypes.S fuel). rewrite run_body_step. unfold run_step at 1. rewrite Hk.
  cbn beta iota. unfold await. destruct Hread as (Hid & Hs & _).
  rewrite (bind_run _ _ _ _ _ (recv_ready this c sl sr _ Hs Hid Hempty)). simpl negb. cbn iota.
  assert (Hruns : runs r (update_coroutine r 1%positive
      (set_state (Suspended (AtAwaitMessage (recv (address sl)) k))) ;;;
    await_suspend r 1%positive (recv (address sl))) (alone Running next) tt
    (asleep (recv (address sl)) k next)); [|by apply Hruns].
  eapply runs_bind; [apply runs_update_coroutine, alone_lookup|].
  unfold await_suspend. eapply runs_bind; [apply runs_update_base_put, put_lookup|]. rewrite put_put.
  eapply runs_bind; [apply runs_load_base, put_lookup|]. simpl.
  unfold put, alone, asleep, set_coroutines. simpl. rewrite insert_singleton_eq. apply runs_ret.
Qed.
(** The context after a turn: the task, the slot and the queue have changed. *)
Definition echoed r t i sr q sl items c : Ctx :=
  with_task r t (set_queue (queue_ c ++ items) (popped i sr q sl c)).

Lemma echoed_nothing r t sr sl c :
  slots c !! sr = Some sl → echoed r t (ioService_ c) sr (messages_ sl) sl [] c = with_task r t c.
Proof.
  intros Hs. unfold echoed, popped. rewrite app_nil_r.
  replace (<[sr := with_queue (messages_ sl) sl]> (slots c)) with (slots c); [by destruct c|].
  symmetry. apply insert_id. by destruct sl.
Qed.

Lemma echoed_twice r t1 t2 i1 i2 sr q1 q2 sl items1 items2 c :
  echoed r t2 i2 sr q2 (with_queue q1 sl) items2 (echoed r t1 i1 sr q1 sl items1 c) =
    echoed r t2 i2 sr q2 sl (items1 ++ items2) c.
Proof.
  unfold echoed at 1. change (popped i2 sr q2 ?sl (echoed r t1 i1 sr q1 ?sl' items1 c)) with
    (with_task r t1 (set_queue (queue_ c ++ items1)
       (set_io i2 (set_slots (<[sr := with_queue q2 sl]> (<[sr := with_queue q1 sl]> (slots c))) c)))).
  rewrite insert_insert_eq. change (set_queue ?q (with_task r t1 ?c)) with (with_task r t1 (set_queue q c)).
  rewrite with_task_twice. unfold echoed. f_equal. simpl. by rewrite (assoc_L (++)).
Qed.

Lemma connection_popped c s a i sr q sl : sa_slot a ≠ sr → connection c s a → connection (popped i sr q sl c) s a.
Proof.
  intros Hne Hconn. eapply connection_ext; [exact Hconn|done|done|by simpl; rewrite lookup_insert_ne|].
  by apply same_processes_eq.
Qed.

Lemma connection_echoed c s a r t i sr q sl items :
  sa_slot a ≠ sr → connection c s a → connection (echoed r t i sr q sl items c) s a.
Proof. intros. by apply (connection_with_task (set_queue _ _)), (connection_popped c). Qed.

Definition echo_items a (ds : list ReceiveData) : list (ToProcessItem payload) :=
  (λ d, sent_item a (MData (data d))) <$> ds.

Lemma run_echo_loop r this s a sr ds : sa_slot a ≠ sr → ∀ fuel c next sl,
  reads_slot c this sr sl → tidy (messages_ sl) → contents (messages_ sl) = (λ d, mkMessage (MReceive d)) <$> ds →
  connection c s a → length (queue_ c) + length ds ≤ 11 → (1 < next)%positive →
  task_at r c = Some (alone Running next) →
  ∃ k next' q i, resumes_echo s k ∧ (1 < next')%positive ∧ drained q ∧
    run_body (2 + (7 * length ds + fuel)) r this 1%positive (echo_loop s) c =
      Ok tt (echoed r (asleep (recv (address sl)) k next') i sr q sl (echo_items a ds) c).
Proof.
  intros Hne. induction ds as [|d ds IH]; intros fuel c next sl Hread Htidy Hms Hconn Hq Hnext Ht.
  { destruct (run_waits (7 * 0 + fuel) r this next c s sr sl Hread Hms Ht) as (k & Hk & Hrun).
    exists k, next, (messages_ sl), (ioService_ c). split_and!; [done..|].
    rewrite echoed_nothing by apply Hread. exact Hrun. }
  destruct (echo_loop_starts s) as (k0 & Hk0 & Hrest).
  destruct (Hrest (address sl)) as (k & Hk & Hafter). pose proof Hread as (Hid & Hs & Hobj).
  destruct (recv_pop this c sl sr _ _ Hs Hid Hms) as (q & i & Hq0 & Hq1 & Hpop).
  simpl length in *.
  set (c1 := popped i sr q sl c) in *.
  set (c2 := echoed r (alone Running (Pos.succ next)) i sr q sl [sent_item a (MData (data d))] c).
  assert (Hconn1 : connection c1 s a) by by apply connection_popped.
  destruct (IH fuel c2 (Pos.succ next) (with_queue q sl)) as (k' & next' & q' & i' & Hk' & Hn' & Hq' & Hrun).
  - split_and!; [done|simpl; by rewrite lookup_insert_eq|done].
  - exact Hq1.
  - exact Hq0.
  - by apply connection_echoed.
  - simpl. rewrite length_app. simpl. lia.
  - lia.
  - by apply (task_at_with_task r (alone Running next)).
  - exists k', next', q', i'. split_and!; [done..|].
    replace (2 + (7 * Datatypes.S (length ds) + fuel)) with
      (Datatypes.S (Datatypes.S (7 + (7 * length ds + fuel)))) by lia.
    etrans; [eapply run_op; [exact Hk0|by eapply slot_address|done]|].
    etrans; [eapply run_recv; [exact Hk|exact (recv_ready this c sl sr _ Hs Hid Hms)|exact Hpop]|].
    rewrite (run_body_observe _ _ _ _ _ _ (Hafter _)).
    etrans; [apply (run_after_recv (7 * length ds + fuel) r this next c1 s a d); [done| |done..]|].
    + simpl. lia.
    + change (with_task _ _ _) with c2. rewrite Hrun. f_equal. apply echoed_twice.
Qed.
(** ** One resumption *)

(** The runner of [s] is suspended on [w], at the head of its loop. *)
Definition waits_to_echo t s (w : IWaiting) : Prop :=
  ∃ k next, t = asleep w k next ∧ resumes_echo s k ∧ (1 < next)%positive.

Lemma runs_wake r w k next :
  runs r (update_base r 1%positive (set_waiting None)) (asleep w k next) tt
    (alone (Suspended (AtAwaitMessage w k)) next).
Proof.
  replace (alone (Suspended (AtAwaitMessage w k)) next) with
    (put 1%positive (process_coroutine (Suspended (AtAwaitMessage w k))) (asleep w k next)).
  - exact (runs_update_base_put r (asleep w k next) 1%positive (set_waiting None) _ (asleep_lookup w k next)).
  - unfold put, asleep, alone, set_coroutines. simpl. by rewrite insert_singleton_eq.
Qed.

(** The first message is received by the resumption itself. *)
Lemma resume_handle_echoes fuel r this s a sr sl k next d ds c :
  sa_slot a ≠ sr → reads_slot c this sr sl →
  contents (messages_ sl) = (λ d, mkMessage (MReceive d)) <$> (d :: ds) →
  connection c s a → length (queue_ c) + length (d :: ds) ≤ 11 → (1 < next)%positive →
  resumes_echo s k → 7 * length (d :: ds) ≤ fuel →
  task_at r c = Some (alone (Suspended (AtAwaitMessage (recv (address sl)) k)) next) →
  ∃ t' q i, waits_to_echo t' s (recv (address sl)) ∧ drained q ∧
    resume_handle fuel r this 1%positive c = Ok tt (echoed r t' i sr q sl (echo_items a (d :: ds)) c).
Proof.
  intros Hne Hread Hms Hconn Hq Hnext Hk Hfuel Ht. pose proof Hread as (Hid & Hs & Hobj).
  destruct (recv_pop this (with_task r (alone Running next) c) sl sr _ _ Hs Hid Hms) as (q & i & Hq0 & Hq1 & Hpop).
  set (c1 := with_task r (alone Running next) (popped i sr q sl c)).
  assert (Hc1 : popped i sr q sl (with_task r (alone Running next) c) = c1) by done.
  set (c2 := echoed r (alone Running (Pos.succ next)) i sr q sl [sent_item a (MData (data d))] c).
  assert (Ht1 : task_at r c1 = Some (alone Running next)) by (unfold c1; by eapply task_at_with_task).
  assert (Hconn1 : connection c1 s a).
  { by apply connection_with_task, connection_popped. }
  destruct (run_echo_loop r this s a sr ds Hne (fuel - 7 * length (d :: ds)) c2 (Pos.succ next) (with_queue q sl))
    as (k' & next' & q' & i' & Hk' & Hn' & Hq' & Hrun).
  - split_and!; [done|simpl; by rewrite lookup_insert_eq|done].
  - exact Hq1.
  - exact Hq0.
  - by apply connection_echoed.
  - simpl in *. rewrite length_app. simpl. lia.
  - lia.
  - by apply (task_at_with_task r (alone (Suspended (AtAwaitMessage (recv (address sl)) k)) next)).
  - exists (asleep (recv (address sl)) k' next'), q', i'. split_and!; [by eexists _, _|done|].
    unfold resume_handle, resume_with.
    etrans; [exact (bind_runs _ _ _ _ _ _ _ (runs_load_coroutine r _ _ _ (alone_lookup _ _)) Ht)|].
    rewrite (with_task_same _ _ _ Ht). simpl state. cbn iota.
    etrans; [exact (bind_runs _ _ _ _ _ _ _
      (runs_update_coroutine r _ _ (set_state Running) _ (alone_lookup _ _)) Ht)|].
    change (set_state Running (process_coroutine ?st)) with (process_coroutine Running). rewrite alone_put.
    etrans; [eapply bind_run, guarded_ok, Hpop|]. rewrite (run_body_observe _ _ _ _ _ _ (Hk _)).
    replace fuel with (7 + (7 * length ds + (fuel - 7 * length (d :: ds)))) at 1 by (simpl in *; lia).
    etrans; [apply (run_after_recv _ r this next c1 s a d); [done| |done..]; simpl in *; lia|].
    change (with_task _ _ _) with (with_task r (alone Running (Pos.succ next))
      (with_task r (alone Running next) (set_queue (queue_ c ++ [sent_item a (MData (data d))]) (popped i sr q sl c)))).
    rewrite with_task_twice. change (with_task _ _ _) with c2. rewrite Hrun. f_equal. apply echoed_twice.
Qed.
Lemma waits_lookup t s w :
  waits_to_echo t s w → ∃ co, coroutine_ t = Some 1%positive ∧ coroutines t !! 1%positive = Some co ∧
    at_final co = false ∧ nextChild (promise co) = None ∧ waiting (promise co) = Some w.
Proof. intros (k & next & -> & _). eexists. split_and!; [done|apply asleep_lookup|done..]. Qed.

(** [ProcessTask::resume] of a process with no sub-task, given what its coroutine does. *)
Lemma resume_alone fuel r c rp co st next c2 t s w :
  rps c !! r = Some rp → coroutine_ (task rp) = Some 1%positive →
  coroutines (task rp) !! 1%positive = Some co → nextChild (promise co) = None →
  runs r (update_base r 1%positive (set_waiting None)) (task rp) tt (alone st next) →
  resume_handle fuel r (process_ptr rp) 1%positive (with_task r (alone st next) c) = Ok tt c2 →
  task_at r c2 = Some t → waits_to_echo t s w →
  ProcessTask_resume fuel r c = Ok (Some w) c2.
Proof.
  intros Hr Hco Hlookup Hchild Hwake Hrun Ht2 Hwaits.
  assert (Ht : task_at r c = Some (task rp)) by (unfold task_at; by rewrite Hr).
  assert (Ht0 : task_at r (with_task r (alone st next) c) = Some (alone st next)) by by eapply task_at_with_task.
  destruct (waits_lookup _ _ _ Hwaits) as (co2 & Hco2 & Hlookup2 & Hend & Hchild2 & Hwait).
  unfold ProcessTask_resume. rewrite (bind_run _ _ _ _ _ (load_rp_run _ _ _ Hr)), Hco.
  etrans; [eapply bind_runs; [exact (runs_load_base r _ _ _ Hlookup)|exact Ht]|].
  rewrite (with_task_same _ _ _ Ht).
  etrans; [eapply bind_runs; [exact Hwake|exact Ht]|].
  etrans; [eapply bind_runs; [by apply runs_update_alone|exact Ht0]|].
  rewrite (with_task_same _ _ _ Ht0), Hchild.
  etrans; [eapply bind_run; unfold try_catch; by rewrite Hrun|].
  etrans; [eapply bind_runs; [exact (runs_load_coroutine r _ _ _ Hlookup2)|exact Ht2]|].
  by rewrite (with_task_same _ _ _ Ht2), Hend, Hchild2, Hwait.
Qed.

(** An echo runner that is resumed sends everything its slot holds, in order, in that
    one resumption, and waits for more. *)
Lemma runner_resumed fuel r c rp s a sr sl ds
    (Hr : rps c !! r = Some rp) (Hwaits : waits_to_echo (task rp) s (recv (address sl)))
    (Hread : reads_slot c (process_ptr rp) sr sl)
    (Hms : contents (messages_ sl) = (λ d, mkMessage (MReceive d)) <$> ds) (Hds : ds ≠ [])
    (Hconn : connection c s a) (Hne : sa_slot a ≠ sr)
    (Hq : length (queue_ c) + length ds ≤ 11) (Hfuel : 7 * length ds ≤ fuel) :
  ∃ t q i, ProcessTask_resume fuel r c =
      Ok (Some (recv (address sl))) (echoed r t i sr q sl (echo_items a ds) c) ∧
    waits_to_echo t s (recv (address sl)) ∧ drained q.
Proof.
  destruct ds as [|d ds]; [done|]. destruct Hwaits as (k & next & Htask & Hk & Hnext).
  assert (Ht : task_at r c = Some (asleep (recv (address sl)) k next))
    by (unfold task_at; by rewrite Hr, <- Htask).
  set (t0 := alone (Suspended (AtAwaitMessage (recv (address sl)) k)) next).
  set (c0 := with_task r t0 c).
  assert (Ht0 : task_at r c0 = Some t0) by by eapply task_at_with_task.
  destruct (resume_handle_echoes fuel r (process_ptr rp) s a sr sl k next d ds c0)
    as (t & q & i & Hwaits & Hempty & Hrun); [done..|by apply connection_with_task|done|done|done|done|done|].
  exists t, q, i. split_and!; [|done..].
  assert (Hfinal : echoed r t i sr q sl (echo_items a (d :: ds)) c0 = echoed r t i sr q sl (echo_items a (d :: ds)) c).
  { unfold echoed. change (set_queue (queue_ c0 ++ ?l) (popped i sr q sl c0)) with
      (with_task r t0 (set_queue (queue_ c ++ l) (popped i sr q sl c))). by rewrite with_task_twice. }
  rewrite <- Hfinal. eapply (resume_alone fuel r c rp); [done|by rewrite Htask|rewrite Htask; apply asleep_lookup
    |done|rewrite Htask; apply runs_wake|exact Hrun|by apply (task_at_with_task r t0)|done].
Qed.

(** ** Messages from the connection *)

#[local] Instance echo_resume fuel : TaskResume ProcessTask := task_resume_coroutine fuel.

(** Running process [r] is a runner of [s] that waits for its slot, at [addr], which is
    empty. *)
Definition echo_ready c (r : Ptr) s a addr : Prop := ∃ rp sl,
  lookup_proc c (sa_pid addr) = Some r ∧ rps c !! r = Some rp ∧ dead rp = false ∧
  lastWaiting rp = Some (recv addr) ∧ waits_to_echo (task rp) s (recv addr) ∧
  reads_slot c (process_ptr rp) (sa_slot addr) sl ∧ address sl = addr ∧ drained (messages_ sl) ∧
  connection c s a ∧ sa_slot a ≠ sa_slot addr.

Definition delivery addr (d : ReceiveData) : ToProcessItem payload :=
  mkItem (sa_pid addr) None (Some (addr, mkMessage (MReceive d))).

Lemma waiting_recv addr rp : lastWaiting rp = Some (recv addr) → waitingFor (sa_slot addr) (T:=ProcessTask) rp = true.
Proof. intros Hw. unfold waitingFor. rewrite Hw. simpl. by rewrite bool_decide_eq_true_2. Qed.

Lemma schedule_recv r rp addr c :
  rps c !! r = Some rp → lastWaiting rp = Some (recv addr) → schedule_next r c = Ok tt c.
Proof.
  intros Hr Hw. unfold schedule_next. by rewrite (bind_run _ _ _ _ _ (load_rp_run _ _ _ Hr)), Hw.
Qed.

(** [resume] of a process that waits, and goes on waiting, for messages only. *)
Lemma resume_waits fuel r rp addr t w c c1 c2 :
  rps c !! r = Some rp → dead rp = false → lastWaiting rp = Some (recv w) →
  c1 = set_rps (<[r := set_resumes (succ64 (resumes rp)) rp]> (rps c))
         (set_io (io_timer_cancel r (ioService_ c)) c) →
  ProcessTask_resume fuel r c1 = Ok (Some (recv addr)) c2 →
  rps c2 !! r = Some (set_task t (set_resumes (succ64 (resumes rp)) rp)) → coroutine_ t ≠ None →
  resume (TR:=echo_resume fuel) r c = Ok tt
    (set_rps (<[r := set_lastWaiting (Some (recv addr)) (set_task t (set_resumes (succ64 (resumes rp)) rp))]>
       (rps c2)) c2).
Proof.
  intros Hr Hd Hw Hc1 Hrun Hr2 Ht.
  assert (Hp : prepare r c = Ok tt c1).
  { unfold prepare. rewrite (bind_run _ _ _ _ _ (set_timer_run _ c)).
    assert (Hr0 : rps (set_io (io_timer_cancel r (ioService_ c)) c) !! r = Some rp) by done.
    rewrite (bind_run _ _ _ _ _ (load_rp_run _ _ _ Hr0)). unfold process_last. rewrite Hw. simpl.
    unfold bind at 1, ret at 1. rewrite (update_rp_run _ _ _ _ Hr0). by rewrite Hc1. }
  rewrite (resume_alive_run _ _ _ _ Hr Hd Hp). unfold try_catch at 1. unfold bind at 1.
  rewrite (resume_task_run _ _ _ Hp). unfold try_catch. rewrite (bind_run _ _ _ _ _ Hrun).
  set (rp2 := set_task t _) in *. rewrite (bind_run _ _ _ _ _ (update_rp_run _ _ _ _ Hr2)).
  set (c3 := set_rps _ c2).
  assert (Hr3 : rps c3 !! r = Some (set_lastWaiting (Some (recv addr)) rp2)) by apply lookup_insert_eq.
  rewrite (bind_run _ _ _ _ _ (load_rp_run _ _ _ Hr3)).
  assert (Hdone : task_done (task (set_lastWaiting (Some (recv addr)) rp2)) = false)
    by by apply bool_decide_eq_false_2.
  rewrite Hdone. unfold ret at 1. by rewrite (schedule_recv r _ addr c3 Hr3).
Qed.
Local Abbreviation process_item fuel := (processQueueItem (TR:=echo_resume fuel)).

(** The context when the coroutine is resumed for a message. *)
Definition prepared (r : Ptr) (rp : RunningProcess ProcessTask) c : Ctx :=
  set_rps (<[r := set_resumes (succ64 (resumes rp)) rp]> (rps c))
    (set_io (io_timer_cancel r (ioService_ c)) c).

Lemma connection_prepared c r rp addr m sl s a :
  rps c !! r = Some rp → sa_slot a ≠ sa_slot addr → connection c s a →
  connection (prepared r rp (Delivery.pushed (sa_slot addr) m sl c)) s a.
Proof.
  intros Hr Hne Hconn. eapply connection_ext; [exact Hconn|done|done|by simpl; rewrite lookup_insert_ne|].
  assert (Hsame : same_identity rp (set_resumes (succ64 (resumes rp)) rp)) by done.
  exact (same_processes_insert c r rp _ Hr Hsame).
Qed.

Definition received (d : ReceiveData) : Message payload := @mkMessage (@payload network) (MReceive d).

(** The coroutine's part of a delivery. *)
Lemma delivered_resumes fuel c r rp sl s a d :
  rps c !! r = Some rp → waits_to_echo (task rp) s (recv (address sl)) →
  reads_slot c (process_ptr rp) (sa_slot (address sl)) sl → drained (messages_ sl) →
  connection c s a → sa_slot a ≠ sa_slot (address sl) → length (queue_ c) ≤ 10 → 7 ≤ fuel →
  let c1 := prepared r rp (Delivery.pushed (sa_slot (address sl)) (received d) sl c) in
  ∃ t q i,
    ProcessTask_resume fuel r c1 = Ok (Some (recv (address sl)))
      (echoed r t i (sa_slot (address sl)) q (push_slot (received d) sl) [sent_item a (MData (data d))] c1) ∧
    waits_to_echo t s (recv (address sl)) ∧ drained q.
Proof.
  intros Hr Hwaits (Hid & Hs & obj & Hobj & Hmember) [Htidy Hempty] Hconn Hne Hq Hfuel c1.
  apply (runner_resumed fuel r c1 (set_resumes (succ64 (resumes rp)) rp) s a (sa_slot (address sl))
    (push_slot (received d) sl) [d]); try done.
  - apply lookup_insert_eq.
  - split_and!; [done|simpl; by rewrite lookup_insert_eq|by exists obj].
  - etrans; [by apply push_contents|]. by rewrite Hempty.
  - by apply connection_prepared.
  - simpl. lia.
Qed.

(** One delivery, from one wait to the next. *)
Lemma echo_delivery fuel c r s a addr d :
  wf c → echo_ready c r s a addr → length (queue_ c) ≤ 10 → 7 ≤ fuel →
  ∃ c', process_item fuel (delivery addr d) c = Ok tt c' ∧
    queue_ c' = queue_ c ++ [sent_item a (MData (data d))] ∧ echo_ready c' r s a addr.
Proof.
  intros W (rp & sl & Hl & Hr & Hd & Hw & Hwaits & Hread & <- & Hdrained & Hconn & Hne) Hq Hfuel.
  destruct (delivered_resumes fuel c r rp sl s a d Hr Hwaits Hread Hdrained Hconn Hne Hq Hfuel)
    as (t & q & i & Hrun & Hwaits' & Hdrained').
  pose proof Hread as (Hid & Hs & obj & Hobj & Hmember).
  set (cp := Delivery.pushed (sa_slot (address sl)) (received d) sl c) in *.
  set (rp1 := set_resumes (succ64 (resumes rp)) rp).
  set (c2 := echoed r t i _ q _ _ (prepared r rp cp)) in *.
  assert (Hr2 : rps c2 !! r = Some (set_task t rp1)) by (simpl; by rewrite lookup_alter_eq, lookup_insert_eq).
  set (rp3 := set_lastWaiting (Some (recv (address sl))) (set_task t rp1)).
  set (c3 := set_rps (<[r := rp3]> (rps c2)) c2).
  assert (Hsame : same_processes c c3).
  { intros r' rp' Hr'. unfold c3. simpl. destruct (decide (r = r')) as [<-|].
    - rewrite lookup_insert_eq. exists rp3. by simplify_eq.
    - rewrite lookup_insert_ne, lookup_alter_ne, lookup_insert_ne by done. by exists rp'. }
  exists c3. split_and!; [|done|].
  - assert (Hnone : coroutine_ t ≠ None) by by destruct Hwaits' as (k & next & -> & _).
    unfold delivery. rewrite (deliver_run [] c _ r rp _ _ sl W Hl Hr Hs), (waiting_recv _ _ Hw).
    exact (resume_waits fuel r rp (address sl) t (address sl) cp _ c2 Hr Hd Hw eq_refl Hrun Hr2 Hnone).
  - assert (Hl3 : lookup_proc c3 (sa_pid (address sl)) = Some r) by by apply (lookup_proc_same c).
    assert (Hread3 : reads_slot c3 (process_ptr rp3) (sa_slot (address sl)) (with_queue q sl)).
    { split_and!; [done|simpl; by rewrite lookup_insert_eq|by exists obj]. }
    assert (Hconn3 : connection c3 s a).
    { apply (connection_ext c2); [by apply connection_echoed, connection_prepared|done..|].
      by apply (same_processes_insert c2 _ (set_task t rp1)). }
    exists rp3, (with_queue q sl). pose proof (lookup_insert_eq (rps c2) r rp3) as Hr3.
    exact (conj Hl3 (conj Hr3 (conj Hd (conj eq_refl (conj Hwaits'
      (conj Hread3 (conj eq_refl (conj Hdrained' (conj Hconn3 Hne))))))))).
Qed.

(** ** The first turn *)

Lemma runner_body_starts s : ∃ k,
  observe (TcpEchoRunner_run s ;;! co_return void) = ITreeDefinition.VisF (Sum.inl1 (OpSlotAddress 0)) k ∧
  ∀ addr, ∃ k', observe (k addr) =
    ITreeDefinition.VisF (Sum.inl1 (OpMakeSendAddress (socket_pid s) SocketBase init)) k' ∧
  ∀ a, ∃ k'', observe (k' a) = ITreeDefinition.VisF (Sum.inl1 (OpSend a (MAddress addr))) k'' ∧
  ∀ w, observe (k'' w) = observe (echo_loop s).
Proof.
  eexists. split; [cbn; reflexivity|]. intros addr. eexists. split; [cbn; reflexivity|].
  intros a. eexists. split; [cbn; reflexivity|]. reflexivity.
Qed.

(** Up to the head of the loop. *)
Lemma run_initRecvSocket fuel r this s a sr sl c :
  reads_slot c this sr sl → connected init c s a →
  run_body (3 + fuel) r this 1%positive (TcpEchoRunner_run s ;;! co_return void) c =
    run_body fuel r this 1%positive (echo_loop s)
      (set_queue (queue_ c ++ [sent_item a (MAddress (address sl))]) c).
Proof.
  intros Hread Hconn. destruct (runner_body_starts s) as (k & Hk & Hk1).
  destruct (Hk1 (address sl)) as (k1 & Hk1' & Hk2). destruct (Hk2 a) as (k2 & Hk2' & Hloop).
  cbn [Nat.add].
  etrans; [eapply run_op; [exact Hk|by eapply slot_address|done]|].
  etrans; [eapply run_op; [exact Hk1'|exact (connected_address _ _ _ _ Hconn)|done]|].
  etrans; [eapply run_op; [exact Hk2'|by unfold exec_op, process_send, bind|done]|].
  by rewrite (run_body_observe _ _ _ _ _ _ (Hloop _)).
Qed.

(** In its first turn an echo runner tells the process of its connection where to send
    what it reads, and waits there, ready to echo. *)
Theorem echo_runner_starts fuel r c rp obj s a sr sl
    (Hr : rps c !! r = Some rp) (Htask : task rp = task_start TcpEchoRunner (FromSocket s) obj)
    (Hread : reads_slot c (process_ptr rp) sr sl) (Hempty : contents (messages_ sl) = [])
    (Hconn : connected init c s a) (Hfuel : 5 ≤ fuel) :
  ∃ t, ProcessTask_resume fuel r c =
      Ok (Some (recv (address sl)))
        (with_task r t (set_queue (queue_ c ++ [sent_item a (MAddress (address sl))]) c)) ∧
    waits_to_echo t s (recv (address sl)).
Proof.
  set (body := TcpEchoRunner_run s ;;! co_return void).
  change (task rp = alone (Suspended (AtStart body)) 2%positive) in Htask.
  assert (Ht : task_at r c = Some (alone (Suspended (AtStart body)) 2%positive))
    by (unfold task_at; by rewrite Hr, <- Htask).
  set (c1 := with_task r (alone Running 2%positive) c).
  assert (Ht1 : task_at r c1 = Some (alone Running 2%positive)) by by eapply task_at_with_task.
  set (c2 := set_queue (queue_ c ++ [sent_item a (MAddress (address sl))]) c1).
  destruct (run_waits (fuel - 5) r (process_ptr rp) 2%positive c2 s sr sl) as (k' & Hk' & Hrun); [done..|].
  set (t := asleep (recv (address sl)) k' 2%positive) in *. exists t.
  assert (Hwaits : waits_to_echo t s (recv (address sl))) by by eexists _, _.
  split; [|done].
  assert (Hfinal : with_task r t c2 = with_task r t (set_queue (queue_ c ++ [sent_item a (MAddress (address sl))]) c)).
  { change c2 with (with_task r (alone Running 2%positive)
      (set_queue (queue_ c ++ [sent_item a (MAddress (address sl))]) c)). by rewrite with_task_twice. }
  rewrite <- Hfinal. eapply (resume_alone fuel r c rp); [done|by rewrite Htask|rewrite Htask; apply alone_lookup
    |done|rewrite Htask; by apply runs_update_alone| |by apply (task_at_with_task r (alone Running 2%positive))|done].
  unfold resume_handle, resume_with. rewrite (with_task_same _ _ _ Ht).
  etrans; [eapply bind_runs; [apply runs_load_coroutine, alone_lookup|exact Ht]|].
  rewrite (with_task_same _ _ _ Ht). simpl state. cbn iota.
  etrans; [eapply bind_runs; [apply runs_update_coroutine, alone_lookup|exact Ht]|].
  change (set_state Running (process_coroutine ?st)) with (process_coroutine Running). rewrite alone_put. fold c1.
  replace fuel with (3 + (2 + (fuel - 5))) at 1 by lia. rewrite <- Hrun.
  apply (run_initRecvSocket (2 + (fuel - 5)) r (process_ptr rp) s a sr sl c1); [done|].
  eapply connected_ext; [exact Hconn|done..|apply with_task_processes].
Qed.
End echo.
