(* ===== verification/EndToEnd.v ===== *)
(** * From the network and back

    A connection ([Socket]) and the echo runner it talks to ([Echo]) as one system: what the
    connection reads is delivered to the runner by the scheduler, what the runner sends is
    moved into the slot of the connection. What a client sends comes back in order. *)

From ITree Require Core.ITreeDefinition Indexed.Sum.
From S2P Require Import Prelude.
From S2P Require Import Hoare.
From S2P Require Import Socket.
From S2P Require Import SocketFacts.
From S2P Require Import SocketFlow.
From S2P Require Import SocketTrace.
From S2P Require Import BaseTypes.
From S2P Require Import Future.
From S2P Require Import Slot.
From S2P Require Import Waiting.
From S2P Require Import IoService.
From S2P Require Import Process.
From S2P Require Import Context.
From S2P Require Import HeapFacts.
From S2P Require Import Lifecycle.
From S2P Require Import ContextFacts.
From S2P Require Import LifecycleFacts.
From S2P Require Import Destruction.
From S2P Require Import Scheduler.
From S2P Require Import Steps.
From S2P Require Import Safety.
From S2P Require Import Delivery.
From S2P Require Import Coroutine.
From S2P Require Import CoroutineFacts.
From S2P Require Import Buffers.
From S2P Require Import TcpApi.
From S2P Require Import Servers.
From S2P Require Import Echo.

(** ** The system *)

(** What the connection sent to its owner, with the address. *)
Definition sent_messages (w : Socket.World) : list (SendAddress * ReceiveData) :=
  omap (λ m, match m with SentData to d => Some (to, d) | SentSocket _ _ => None end) (sent w).

(** What comes from the network, the io_service and the scheduler; messages come from the
    runner only. *)
Definition environment (e : event) : bool :=
  match e with Receive _ _ | Deliver _ | ReceiveMany _ => false | _ => true end.

Section system.
Context `{IO : IoService Handler} `{IL : !IoServiceLaws Handler}.
Context (socket_run : classes → arguments → Process → itree ProcessE unit).
Context (session_run : TcpApi.Socket → itree ProcessE unit).
#[local] Instance joint_bodies : ProcessBodies := network_bodies socket_run session_run.
Local Abbreviation Ctx := (Context ProcessTask).

(** The connection, the context of the runner, how many of the messages of the connection
    were delivered; and what was read from and written to the network so far. *)
Record System := mkSystem {
  conn : Socket.World;
  runtime : Ctx;
  delivered : nat;
  did_read : list Buffer;
  did_write : list Buffer;
}.

Context (fuel : nat) (s_ : TcpApi.Socket) (a addr : SendAddress).

(** The runner is scheduled while neither the queue of the context nor the slot of the
    connection makes [sendThrottled] wait. *)
Inductive system_step : System → System → Prop :=
  | step_connection w c n rd wr e w' :
      allowed e → environment e = true → Socket.handle e w = Ok tt w' →
      system_step (mkSystem w c n rd wr)
        (mkSystem w' c n (rd ++ read_by e w) (wr ++ take (completed_by e w) (writes w)))
  | step_runner w c n rd wr d c' :
      sent_messages w !! n = Some (addr, d) → length (queue_ c) ≤ 10 →
      (∀ s, this_ w = Some s → length (Socket.send_data s) < kThrottle) →
      processQueueItem (TR:=echo_resume socket_run session_run fuel) (delivery addr d) c = Ok tt c' →
      system_step (mkSystem w c n rd wr) (mkSystem w c' (Datatypes.S n) rd wr)
  | step_message w c n rd wr b rest w' :
      queue_ c = sent_item a (MData b) :: rest → Socket.handle (Deliver b) w = Ok tt w' →
      system_step (mkSystem w c n rd wr) (mkSystem w' (set_queue rest c) n rd wr).

(** ** What holds in every state *)

Definition in_transit (c : Ctx) (l : list Buffer) : Prop :=
  queue_ c = (λ b, sent_item a (MData b)) <$> l.

(** [X] is what was delivered to the runner and has not come back to the connection. *)
Definition accounted (w : Socket.World) (n : nat) (wr : list Buffer) (s : SocketObject) (T : list Buffer) : Prop :=
  failed_at (at_ w) = false →
  ∃ X, Socket.send_many_data s = [] ∧ take n (sent_data w) = wr ++ outflow w s ++ X ∧
    (running w = true → X = T).

Definition consistent (r : Ptr) (st : System) : Prop :=
  Socket.reachable (conn st) ∧ wf (runtime st) ∧ echo_ready (runtime st) r s_ a addr ∧
  delivered st ≤ length (sent_data (conn st)) ∧
  ∃ T, in_transit (runtime st) T ∧
    ∀ s, this_ (conn st) = Some s →
      inflow (conn st) s = did_read st ∧ accounted (conn st) (delivered st) (did_write st) s T.

Lemma sent_messages_data w : sent_data w = (λ m, data m.2) <$> sent_messages w.
Proof.
  unfold sent_data, sent_messages. induction (sent w) as [|[to p|to d] l IH]; simpl; [done|exact IH|].
  by f_equal.
Qed.

Lemma take_prefix_of {A} n (l l' : list A) : n ≤ length l → l `prefix_of` l' → take n l' = take n l.
Proof. intros Hn [k ->]. by rewrite take_app_le. Qed.

Lemma environment_message e w :
  environment e = true → received_by e w = [] ∧ match e with ReceiveMany _ => False | _ => True end.
Proof. by destruct e. Qed.

(** One event of the connection. *)
Lemma accounted_event e w w' s s' n wr T :
  Socket.reachable w → Socket.handle e w = Ok tt w' → this_ w = Some s → this_ w' = Some s' →
  match e with ReceiveMany _ => False | _ => True end → n ≤ length (sent_data w) →
  accounted w n wr s T →
  failed_at (at_ w') = false →
  ∃ X, Socket.send_many_data s' = [] ∧ (running w = true → X = T) ∧ 
    outflow w' s' = drop (completed_by e w) (outflow w s ++ received_by e w) ∧
    take n (sent_data w') = wr ++ outflow w s ++ X.
Proof.
  intros Hw Hstep Hs Hs' He Hn Hacc Hf.
  assert (Hf0 : failed_at (at_ w) = false) by (eapply failed_before; [done..|congruence|done]).
  destruct (Hacc Hf0) as (X & Hmany & Htake & HX). exists X.
  destruct (event_at_rest e w w' s s' (Some (outflow w s)) Hw Hs Hstep Hs') as (_ & Hout & _).
  { by intros G [= <-]. }
  specialize (Hout Hf). unfold follows, next_log in Hout. simpl in Hout.
  rewrite (take_prefix_of n (sent_data w)) by (done || by eapply sent_data_grows).
  destruct e; try done; destruct Hout as [Hm Ho]; by split_and!.
Qed.

Lemma completed_oldest e w s :
  take (completed_by e w) (writes w) = take (completed_by e w) (outflow w s).
Proof. unfold completed_by, outflow. destruct e, (writes w); simpl; by rewrite ?take_0. Qed.

Lemma connection_consistent r w c n rd wr e w' :
  consistent r (mkSystem w c n rd wr) →
  allowed e → environment e = true → Socket.handle e w = Ok tt w' →
  consistent r (mkSystem w' c n (rd ++ read_by e w) (wr ++ take (completed_by e w) (writes w))).
Proof.
  intros (Hw & W & Hready & Hn & T & HT & Hacc) He Henv Hstep. simpl in *.
  destruct (environment_message e w Henv) as [Hrecv Hmany].
  split_and!; simpl; [by eapply reach_step|done..| |exists T; split; [done|]].
  { etrans; [exact Hn|]. by eapply prefix_length, sent_data_grows. }
  intros s' Hs'. destruct (handle_backwards e w w' Hw Hstep) as [Hthis _]; [congruence|].
  destruct (this_ w) as [s|] eqn:Hs; [|done]. destruct (Hacc s eq_refl) as [Hin Hout].
  split.
  - destruct (event_at_rest e w w' s s' None Hw Hs Hstep Hs') as (Hin' & _); [done|].
    rewrite Hin'. simpl. by rewrite Hin.
  - intros Hf. destruct (accounted_event e w w' s s' n wr T Hw Hstep Hs Hs' Hmany Hn Hout Hf)
      as (X & Hm & HX & Ho & Htake).
    exists X. split; [done|]. rewrite Htake, Ho, Hrecv, app_nil_r, (completed_oldest e w s). split.
    + by rewrite <- !(assoc_L (++)), (assoc_L (++) (take _ _)), take_drop.
    + intros Hrun. apply HX. by eapply running_before.
Qed.

Lemma runner_consistent r w c n rd wr d c' :
  7 ≤ fuel → consistent r (mkSystem w c n rd wr) →
  sent_messages w !! n = Some (addr, d) → length (queue_ c) ≤ 10 →
  processQueueItem (TR:=echo_resume socket_run session_run fuel) (delivery addr d) c = Ok tt c' →
  consistent r (mkSystem w c' (Datatypes.S n) rd wr).
Proof.
  intros Hfuel (Hw & W & Hready & Hn & T & HT & Hacc) Hd Hq Hstep. simpl in *.
  destruct (echo_delivery socket_run session_run fuel c r s_ a addr d W Hready Hq Hfuel)
    as (c1 & Hrun & Hq1 & Hready1). 
  assert (Heq : Ok tt c1 = Ok tt c') by (etrans; [symmetry; exact Hrun|exact Hstep]).
  injection Heq as ->.
  assert (Hlookup : sent_data w !! n = Some (data d)).
  { rewrite sent_messages_data, list_lookup_fmap, Hd. done. }
  split_and!; simpl; [done| |done|by apply lookup_lt_Some in Hlookup|].
  { by eapply (within_Ok _ _ _ _ _
      (ev_processQueueItem (TL:=coroutine_laws (PB:=network_bodies socket_run session_run) fuel) (delivery addr d))). }
  exists (T ++ [data d]). split.
  - unfold in_transit. by rewrite Hq1, HT, fmap_app.
  - intros s Hs. destruct (Hacc s Hs) as [Hin Hout]. split; [done|]. intros Hf.
    destruct (Hout Hf) as (X & Hm & Htake & HX). exists (X ++ [data d]). split; [done|].
    rewrite (take_S_r _ _ _ Hlookup), Htake, <- !(assoc_L (++)). split; [done|].
    intros Hrunning. by rewrite HX.
Qed.

Lemma message_consistent r w c n rd wr b rest w' :
  consistent r (mkSystem w c n rd wr) →
  queue_ c = sent_item a (MData b) :: rest → Socket.handle (Deliver b) w = Ok tt w' →
  consistent r (mkSystem w' (set_queue rest c) n rd wr).
Proof.
  intros (Hw & W & Hready & Hn & T & HT & Hacc) Hq Hstep. simpl in *.
  unfold in_transit in HT. rewrite Hq in HT. destruct T as [|b' T]; [done|]. simpl in HT.
  injection HT as <- Hrest.
  split_and!; simpl; [by eapply (reach_step w (Deliver b))|by apply (set_queue_evolves [])|done| |].
  { etrans; [exact Hn|]. by eapply prefix_length, sent_data_grows. }
  exists T. split; [done|]. intros s' Hs'.
  destruct (handle_backwards _ w w' Hw Hstep) as [Hthis _]; [congruence|].
  destruct (this_ w) as [s|] eqn:Hs; [|done]. destruct (Hacc s eq_refl) as [Hin Hout].
  split.
  - destruct (event_at_rest _ w w' s s' None Hw Hs Hstep Hs') as (Hin' & _); [done|].
    rewrite Hin'. simpl. unfold read_by. by rewrite app_nil_r.
  - intros Hf. destruct (accounted_event _ w w' s s' n wr _ Hw Hstep Hs Hs' I Hn Hout Hf)
      as (X & Hm & HX & Ho & Htake).
    unfold completed_by, received_by in Ho. rewrite drop_0 in Ho.
    destruct (running w) eqn:Hrun.
    + exists T. split; [done|]. rewrite Htake, Ho, HX by done. by rewrite <- !(assoc_L (++)).
    + exists X. rewrite Ho, app_nil_r. split_and!; [done..|]. intros Hrun'.
      by rewrite (running_before _ _ _ Hw Hstep Hrun') in Hrun.
Qed.
(** The system before the connection was resumed for the first time. *)
Definition started_with (ssl throttled : bool) (onReady : SendAddress) (h : Heap) (c : Ctx) : System :=
  mkSystem (new_world (socket_pid s_) ssl throttled onReady h) c 0 [] [].

Lemma started_consistent r ssl throttled onReady h c :
  wf c → echo_ready c r s_ a addr → queue_ c = [] → consistent r (started_with ssl throttled onReady h c).
Proof.
  intros W Hready Hq. split_and!; [apply reach_new|done|done|done|]. exists []. split; [done|].
  intros s [= <-]. split; [done|]. intros _. by exists [].
Qed.

Lemma step_consistent r st st' : 7 ≤ fuel → consistent r st → system_step st st' → consistent r st'.
Proof.
  intros Hfuel Hc Hstep. destruct Hstep.
  - by apply connection_consistent.
  - by eapply runner_consistent.
  - by eapply message_consistent.
Qed.

End system.
