(* ===== verification/NetworkWitnesses.v ===== *)
(** * Network servers at work

    A context with one connection and its runner, one with a listener, and the theorems of
    [Echo] and [Listening] applied to them; the processes of connections do nothing here. *)

From ITree Require Core.ITreeDefinition.
From S2P Require Import Prelude.
From S2P Require Import Socket.
From S2P Require Import SocketFlow.
From S2P Require Import BaseTypes.
From S2P Require Import Future.
From S2P Require Import Slot.
From S2P Require Import Waiting.
From S2P Require Import IoService.
From S2P Require Import Process.
From S2P Require Import Context.
From S2P Require Import Lifecycle.
From S2P Require Import ContextFacts.
From S2P Require Import LifecycleFacts.
From S2P Require Import Scheduler.
From S2P Require Import Coroutine.
From S2P Require Import CoroutineFacts.
From S2P Require Import Buffers.
From S2P Require Import TcpApi.
From S2P Require Import Listening.
From S2P Require Import Servers.
From S2P Require Import Echo.
From S2P Require Import EndToEnd.

#[local] Existing Instances Sim.sim_io Sim.sim_io_laws.

Definition silent_socket (_ : classes) (_ : arguments) (_ : Process) : itree ProcessE unit := co_return tt.
Definition silent_session (_ : TcpApi.Socket) : itree ProcessE unit := co_return tt.
#[local] Instance silent_bodies : ProcessBodies := network_bodies silent_socket silent_session.
Local Abbreviation World := (Context ProcessTask).

(** Process 0 is the connection, process 1 its runner; the objects are at 2 and 4, the
    slots from 5 on. *)
Definition connection_pid : Pid := mkPid 0 0.
Definition runner_pid : Pid := mkPid 1 0.
Definition the_socket : TcpApi.Socket := mkSocket connection_pid.
Definition runner_address : SendAddress := mkSendAddress runner_pid 5%positive.
Definition member_address (s : SlotId) : SendAddress := mkSendAddress connection_pid s.

Definition sleeping (w : option IWaiting) (p : Pid) (o : Ptr) (t : ProcessTask) : RunningProcess ProcessTask :=
  mkRunningProcess false p o t w 1.

(** The runner has task [t], and waits for [w]. *)
Definition echo_world (t : ProcessTask) (w : option IWaiting) : World :=
  mkContext [] [Some 1%positive; Some 3%positive] [] [] Sim.new_service
    {[1%positive := sleeping (Some (recv (member_address 8%positive))) connection_pid 2%positive
        (task_start PlainSocket (ForAddress runner_address (new_ListenerOptions 25123))
           (mkProcess _ connection_pid [runner_pid] [] PlainSocket []));
      3%positive := sleeping w runner_pid 4%positive t]}
    {[2%positive := mkProcess _ connection_pid [runner_pid] [] PlainSocket
        (SlotMember <$> [6%positive; 7%positive; 8%positive]);
      4%positive := mkProcess _ runner_pid [connection_pid] [] TcpEchoRunner [SlotMember 5%positive]]}
    {[5%positive := new_slot runner_pid 5%positive;
      6%positive := new_slot connection_pid 6%positive;
      7%positive := new_slot connection_pid 7%positive;
      8%positive := new_slot connection_pid 8%positive]}
    ∅ 9%positive.

Lemma echo_world_rps t w r rp :
  rps (echo_world t w) !! r = Some rp →
  r = 1%positive ∧ pid rp = connection_pid ∧ process_ptr rp = 2%positive ∧ dead rp = false ∨
  r = 3%positive ∧ pid rp = runner_pid ∧ process_ptr rp = 4%positive ∧ dead rp = false.
Proof.
  unfold echo_world. simpl. intros [[<- <-]|[_ [<- <-]%lookup_singleton_Some]]%lookup_insert_Some;
    [by left|by right].
Qed.

Lemma echo_world_wf t w : wf (echo_world t w).
Proof.
  split; try (by intros ? ?%elem_of_nil); try apply NoDup_nil_2.
  - intros [|[|i]] r; simpl; [intros [= <-]|intros [= <-]|done]; eexists; split_and!; reflexivity.
  - intros r rp [(-> & -> & _)|(-> & -> & _)]%echo_world_rps; by left.
  - intros r rp [(-> & -> & -> & _)|(-> & -> & -> & _)]%echo_world_rps; reflexivity.
  - intros r1 r2 rp1 rp2 [(-> & _ & -> & _)|(-> & _ & -> & _)]%echo_world_rps
      [(-> & _ & -> & _)|(-> & _ & -> & _)]%echo_world_rps; done.
  - intros r rp [(-> & _ & -> & _)|(-> & _ & -> & _)]%echo_world_rps; done.
  - intros r rp [(_ & -> & _)|(_ & -> & _)]%echo_world_rps; done.
Qed.

(** The runner at the head of its loop, and at its start. *)
Definition waiting_runner : ProcessTask :=
  asleep (recv runner_address) (after_recv the_socket) 2%positive.
Definition waiting_world : World := echo_world waiting_runner (Some (recv runner_address)).
Definition runner_object : Process := mkProcess _ runner_pid [connection_pid] [] TcpEchoRunner [SlotMember 5%positive].
Definition new_runner : ProcessTask := task_start TcpEchoRunner (FromSocket the_socket) runner_object.

Lemma runner_waits : echo_ready waiting_world 3%positive the_socket (member_address 6%positive) runner_address.
Proof.
  exists (sleeping (Some (recv runner_address)) runner_pid 4%positive waiting_runner),
    (new_slot runner_pid 5%positive).
  do 4 (split; [reflexivity|]). split; [by exists (after_recv the_socket), 2%positive|].
  split; [split_and!; [done|reflexivity|by eexists]|]. split; [done|]. split; [done|].
  split; [split|done].
  - eexists _, _, _, _. split_and!; reflexivity.
  - eexists. split; [reflexivity|]. vm_compute. lia.
Qed.

Definition some_data : list ReceiveData := [mkReceiveData connection_pid (mkBuffer 1%positive 0 5);
  mkReceiveData connection_pid (mkBuffer 2%positive 0 7)].


Lemma echo_runner_starts_witness :
  ∃ t, ProcessTask_resume 100 3%positive (echo_world new_runner None) =
      Ok (Some (recv runner_address))
        (with_task 3%positive t
           (set_queue [sent_item (member_address 8%positive) (MAddress runner_address)]
              (echo_world new_runner None))) ∧
    waits_to_echo t the_socket (recv runner_address).
Proof.
  eapply (echo_runner_starts silent_socket silent_session 100 3%positive (echo_world new_runner None)
    (sleeping None runner_pid 4%positive new_runner) runner_object
    the_socket (member_address 8%positive) 5%positive (new_slot runner_pid 5%positive));
    [reflexivity|reflexivity| |reflexivity| |lia].
  - split_and!; [done|reflexivity|by eexists].
  - eexists _, _, _, _. split_and!; reflexivity.
Defined.

(** ** A connection and its runner *)

Abbreviation joint_step := (system_step silent_socket silent_session 100
  (member_address 6%positive) runner_address).

(** Events of the connection, and what they read and write. *)
Fixpoint play (l : list event) (w : Socket.World) (rd wr : list Buffer) :
    option (Socket.World * list Buffer * list Buffer) :=
  match l with
  | [] => Some (w, rd, wr)
  | e :: l' =>
      match Socket.handle e w with
      | Ok _ w' => play l' w' (rd ++ read_by e w) (wr ++ take (completed_by e w) (Socket.writes w))
      | _ => None
      end
  end.

Lemma play_steps l w c n rd wr w' rd' wr' :
  Forall (λ e, allowed e ∧ environment e = true) l → play l w rd wr = Some (w', rd', wr') →
  rtc joint_step (mkSystem w c n rd wr) (mkSystem w' c n rd' wr').
Proof.
  intros Hl. revert w rd wr. induction Hl as [|e l [He Henv] _ IH]; intros w rd wr; simpl.
  { by intros [= <- <- <-]. }
  destruct (Socket.handle e w) as [[] w1|?|?] eqn:H; [|done..]. intros Hplay.
  eapply rtc_l; [|by apply IH]. by apply step_connection.
Qed.

(** It reads once, and writes once the message is back. *)
Definition hears : list event :=
  [Start; ReceiveInit runner_address; ReadCompletes no_error [Byte.x68; Byte.x69]; RunHandler].
Definition no_heap : Heap := mkHeap ∅ 1%positive.
Definition new_connection : Socket.World :=
  new_world connection_pid false false runner_address no_heap.
Definition first_buffer : Buffer := mkBuffer 1%positive 0 2.
Definition played (l : list event) (w : Socket.World) : Socket.World :=
  match play l w [] [] with Some (w', _, _) => w' | None => w end.
Definition heard : Socket.World := Eval vm_compute in played hears new_connection.
Definition answering : Socket.World := Eval vm_compute in
  match Socket.handle (Deliver first_buffer) heard with Ok _ w => w | _ => heard end.
Definition answered : Socket.World := Eval vm_compute in played [WriteCompletes no_error] answering.
Definition answered_socket : SocketObject := Eval vm_compute in
  match this_ answered with Some s => s | None => new_SocketObject connection_pid false false runner_address end.


(** ** A listener *)

Definition listener_pid : Pid := mkPid 0 0.
Definition listener_task : ProcessTask :=
  task_start Listening (ForAddress runner_address (new_ListenerOptions 25123))
    (mkProcess _ listener_pid [] [] Listening []).

(** Its process object is at 2, its promise at 3. *)
Definition listening_world : World :=
  mkContext [] [Some 1%positive] [] [] Sim.new_service
    {[1%positive := sleeping (Some (WaitOnFuture (MemberPromise 3%positive))) listener_pid 2%positive listener_task]}
    {[2%positive := mkProcess _ listener_pid [] [] Listening [PromiseMember 3%positive]]}
    ∅ {[3%positive := mkPromise (Some (tt, ResumeIf 1%positive 1)) false None]} 4%positive.

Lemma listening_world_rps r rp :
  rps listening_world !! r = Some rp →
  r = 1%positive ∧ pid rp = listener_pid ∧ process_ptr rp = 2%positive.
Proof. unfold listening_world. simpl. by intros [<- <-]%lookup_singleton_Some. Qed.

Lemma listening_world_wf : wf listening_world.
Proof.
  split; try (by intros ? ?%elem_of_nil); try apply NoDup_nil_2.
  - intros [|i] r; simpl; [intros [= <-]|done]. eexists. split_and!; reflexivity.
  - intros r rp (-> & -> & _)%listening_world_rps. by left.
  - intros r rp (-> & -> & ->)%listening_world_rps. reflexivity.
  - by intros r1 r2 rp1 rp2 (-> & _)%listening_world_rps (-> & _)%listening_world_rps.
  - by intros r rp (-> & _ & ->)%listening_world_rps.
  - by intros r rp (-> & -> & _)%listening_world_rps.
Qed.

#[local] Instance silent_resume : TaskResume ProcessTask := task_resume_coroutine 100.
#[local] Instance silent_laws : TaskResumeLaws ProcessTask := coroutine_laws 100.

Lemma failed_accept_kills_listener_witness :
  ∃ c1, on_accept 2%positive runner_address (new_ListenerOptions 25123) (AcceptFailed "Address in use")
          listening_world = Ok false c1 ∧
    ioService_ c1 = io_post (RunContinuation (ResumeIf 1%positive 1)) Sim.new_service ∧
  ∃ c2, run_handler (RunContinuation (ResumeIf 1%positive 1)) c1 = Ok tt c2 ∧
    ¬ live c2 listener_pid ∧ (∀ q, q ≠ listener_pid → lookup_proc c2 q = lookup_proc listening_world q) ∧
    toDestroy_ c2 = [(1%positive, "Caught exception: Listener threw Address in use")].
Proof.
  apply (failed_accept_kills_listener listening_world listener_pid 1%positive 2%positive 1
    runner_address (new_ListenerOptions 25123) "Address in use" listening_world_wf).
  eexists _, _, _, _. split_and!; reflexivity.
Defined.

Definition accepting : M World bool :=
  on_accept 2%positive runner_address (new_ListenerOptions 25123) Accepted.
Definition returns {A} (o : outcome World A) : bool := match o with Ok _ _ => true | _ => false end.

Lemma accepted_connection_is_owned_witness :
  ∃ b c', accepting listening_world = Ok b c' ∧
  b = true ∧ ∃ p obj, live c' p ∧ last (queue_ c') = Some (mkItem p (Some 0%N) None) ∧
    objs c' !! 2%positive = Some obj ∧ p ∈ killOnDie_ obj ∧
    (unwrapped c' → ¬ issued listening_world p).
Proof.
  assert (Hreturns : returns (accepting listening_world) = true) by (vm_compute; reflexivity).
  destruct (accepting listening_world) as [b c'|e c'|h] eqn:H; [|done..].
  exists b, c'. split; [done|].
  exact (accepted_connection_is_owned [] listening_world 2%positive runner_address (new_ListenerOptions 25123)
    c' b listening_world_wf H).
Defined.

(** ** The whole server

    A connection that reads one piece of data, hands it to its owner, and stays if it is
    sent the same piece back, while it ends if it is sent another. *)

Definition piece : Buffer := mkBuffer 1%positive 0 5.

Definition one_piece (_ : classes) (a : arguments) (_ : Process) : itree ProcessE unit :=
  match a with
  | ForAddress onReady _ =>
      do! self := call OpPid in
      call (OpSend onReady (MSocket (mkSocket self))) ;;!
      do! init := call (OpSlotAddress 2) in
      do! to := co_recv init in
      match to with
      | MAddress owner =>
          call (OpSend owner (MReceive (mkReceiveData self piece))) ;;!
          do! send_data := call (OpSlotAddress 0) in
          do! back := co_recv send_data in
          match back with
          | MData b => if bool_decide (b = piece) then co_recv send_data ;;! co_return tt else co_return tt
          | _ => co_return tt
          end
      | _ => co_return tt
      end
  | _ => co_return tt
  end.

Section server.
#[local] Instance piece_bodies : ProcessBodies := network_bodies one_piece silent_session.
#[local] Instance piece_resume : TaskResume ProcessTask := task_resume_coroutine 100.

Definition iterations (n : nat) : M World unit := for_each (λ _, iteration 100) (seq 0 n).

(** The process objects of a class. *)
Definition objects_of (cl : classes) (c : World) : list Ptr :=
  fst <$> filter (λ kv, derives (dynamic_class kv.2) cl = true) (map_to_list (objs c)).

(** The server starts, its listener accepts a connection, and everything runs on; how
    many processes are alive in the end. *)
Definition serve_one : M World nat :=
  spawn TcpEchoServer (WithOptions (new_ListenerOptions 25123)) ;;;
  iterations 3 ;;;
  let! servers := gets (objects_of TcpEchoServer) in
  let! listeners := gets (objects_of Listening) in
  match servers, listeners with
  | [s], [l] =>
      let! new_socket := exec_op s (OpSlotAddress 0) in
      on_accept l new_socket (new_ListenerOptions 25123) Accepted ;;;
      iterations 20 ;;;
      gets (λ c, length (occupied (processes_ c)))
  | _, _ => ret 0
  end.
End server.

Definition value_of {A} (o : outcome World A) : option A :=
  match o with Ok a _ => Some a | _ => None end.

(** Server, listener, connection and runner: the connection was echoed its piece. *)
Example server_echoes : value_of (serve_one (new_context Sim.new_service)) = Some 4.
Proof. vm_compute. reflexivity. Qed.
